(* ===== verification/_CoqProject ===== *)
-Q . S2P
Prelude.v
Models.v
Float64.v
Scheduler.v
SchedulerProps.v
Strconv.v
Netip.v
Base64.v
Pagination.v
Etcd.v
Prog.v
Keys.v
Client.v
Instances.v
Sequential.v
Rules.v
Footprint.v
Guards.v
Jobs.v
JobFence.v
Tasks.v
Nodes.v
Drains.v
Migrations.v
DeleteIntent.v
Idempotency.v
Accounts.v
RefreshTokens.v
AuthService.v
VMs.v
Placement.v
VMAddresses.v
VMWorkers.v
Footprints.v
JobProtocol.v
JobSystem.v
JobQueue.v
TaskProps.v
Lists.v
Retention.v
MigrationProps.v
MigrationExclusion.v
DrainProps.v
DeleteIntentProps.v
IdempotencyProps.v
AccountProps.v
VMInvariant.v
VMProps.v
VMDeletion.v
VMWorkerProps.v
VMRuns.v
Dispatcher.v
Workers.v
Schedule.v
PlacementProps.v
ScheduleRules.v
ScheduleProps.v
ScheduleRuns.v
MigrationWorker.v
MigrationWorkerRules.v
MigrationWorkerProps.v
MigrationWorkerRuns.v
TokenProtocol.v
TokenOps.v
Sessions.v
SessionProps.v
SerialText.v
SerialTextProps.v
SerialMux.v
SerialMuxProps.v
SerialSubscribers.v
SerialRuns.v
