(* ===== verification/Prelude.v ===== *)
(** * A verification library for the Otherix control plane

    Otherix runs virtual machines on a set of nodes.  Its control plane (internal/api,
    internal/worker, internal/etcdstore) keeps everything it knows as JSON rows in
    etcd; API replicas write tasks and jobs, one elected worker claims the jobs and
    drives the agents of the nodes (internal/agent).  This library models the parts of
    that program whose correctness rests on how they share etcd, together with the
    algorithms they run, and proves what they promise.

    ** How the program is modelled

    - A Go function without effects is a Rocq function; an error return is [result]
      (this file); integers are [Z] with [i32] and [i64] written out where they can
      wrap; [float64] is IEEE binary64 (Float64.v); strings and byte slices are
      [string], times nanoseconds in [Z].  [strings.ToLower] and [strings.EqualFold] fold
      ASCII letters only.
    - A method of the store is a program of [Prog.M]: a tree of etcd requests, clock
      readings and random uuids, with Go's error.  The etcd server is a parameter with
      the laws it documents (Etcd.v: [Etcd], [EtcdLaws]); [ReferenceEtcd] satisfies them.
    - Programs are run alone ([run], Sequential.v) or interleaved: [cstep] interleaves
      any number of programs request by request, and a request may be lost before or
      after it took effect; [open_run] is one program in an environment that may do
      anything a rely relation allows.  [wp] is the rely/guarantee logic of these runs
      (Prog.v, Rules.v, Guards.v), [writes] a footprint analysis that discharges the
      operations that do not touch what a protocol speaks of (Footprint.v, Footprints.v).
    - A worker that also calls agents and other interfaces is a tree of [Workers.act];
      the answers of its calls are arbitrary, and [awp] is the logic of its runs, indexed
      by the calls made and answered so far.
    - The serial multiplexer of the agent is a transition system of goroutines over
      shared memory ([SerialMux.step]); its theorems are invariants by induction on runs.

    ** Files and sources

    - Shared: Prelude (results, sorting, tactics, lists), Models (the rows of
      internal/store), Float64, Strconv, Netip, Base64 (what is used of Go's standard
      library), Etcd, Prog, Keys (the key schema), Client (internal/etcd/client.go,
      leader.go, etcdstore/helpers.go), Instances (a concrete setting for witnesses),
      Sequential, Rules, Footprint, Guards, Footprints.
    - Placement: Scheduler, SchedulerProps (internal/scheduler/placement.go), its queries
      over the store in Placement, PlacementProps (vms_create.go, storage_pools.go,
      nodes.go, agent_wireguard.go, networks.go).
    - The schedule loop: Schedule, ScheduleRules, ScheduleProps, ScheduleRuns
      (internal/api/handlers/vms/schedule.go, internal/netid).
    - Job queue and tasks: Jobs, JobFence, JobProtocol, JobSystem, JobQueue
      (etcdstore/jobs.go, jobs_consume.go), Tasks, TaskProps, Lists (tasks.go,
      idempotency_task.go), Retention (maintenance.go), Dispatcher
      (internal/worker/dispatcher.go).
    - Nodes: Nodes, Drains, DrainProps (nodes.go, node_row.go, heartbeat.go,
      maintenance.go), DeleteIntent, DeleteIntentProps (deleting_intent.go).
    - Migrations: Migrations, MigrationProps, MigrationExclusion (migrations.go), and
      the worker: Workers, MigrationWorker, MigrationWorkerRules, MigrationWorkerProps,
      MigrationWorkerRuns (internal/api/handlers/migrations/run.go, jobs.go).
    - Virtual machines: VMs, VMAddresses, VMInvariant, VMProps, VMDeletion, VMRuns
      (vms.go, vms_schedule.go, vms_create.go, vms_project.go, vm_nics.go), VMWorkers,
      VMWorkerProps (internal/api/handlers/vms/run.go, agent_executors.go,
      agent_executors_lifecycle.go).
    - Requests: Idempotency, IdempotencyProps (etcdstore/idempotency.go,
      internal/api/middleware/idempotency.go), Pagination (internal/api/pagination).
    - Accounts and sessions: Accounts, AccountProps (users.go, api_tokens.go),
      RefreshTokens, AuthService, TokenProtocol, TokenOps, Sessions, SessionProps
      (refresh_tokens.go, internal/auth).
    - Serial console: SerialText, SerialTextProps, SerialMux, SerialMuxProps,
      SerialSubscribers, SerialRuns (internal/agent/serialmux).

    Operations keep the names of the source; a row's fields carry a prefix of their
    type.  A definition that is a part of a Go function (the body of a loop, one branch)
    has a name of its own in snake case and stands before the function that uses it.

    ** What the theorems show

    - The job queue in every interleaving: a job moves along the edges of its life, each
      taken by a call that was made with the token, the cutoff or the id the edge names;
      a claim is held by one worker, a stale claim writes nothing, and a job leaves the
      queue only when its task has ended (JobSystem, JobFence, Dispatcher).  The jobs of
      snapshots and the rollback of a node delete are not among the operations.
    - Enqueue is idempotent, and a cancel is exclusive with a claim (TaskProps).
    - Names, MACs and addresses of VMs stay unique and a deleted VM stays deleted,
      whatever runs beside an operation (VMDeletion); the address handed out is the
      lowest free one (VMAddresses).
    - One migration of a VM at a time, as long as no live migration that was cancelled is
      cut over; an atomic cutover; and, of a delivery of the worker: no copy is touched before the cutover, the target is torn down only on
      evidence of the source or of the target itself, the VM stays where it is until an agent reported the handoff, one push
      per run, a nil return has settled the task, and the polling loop ends.
    - Drains, delete intents, refresh-token rotation and family revocation keep their
      contracts under interleaving; an idempotency key answers a success again and
      forgets a failure, when its request is not disturbed.
    - Placement is sound, optimal and complete on the answers of its queries.  Undisturbed,
      the query of candidates answers with the pairs of a pool and a node that the store
      offers, no more and no fewer ([poolNodePairs_exact]), and the effective view of a
      node is its report less what the report does not show ([nodeEffective_accounts]).  In any environment, a tick of the schedule loop pins a
      VM only where it has seen it may go ([tick_pins_well]).
    - Cursors and limits are faithful.
    - Serial output is independent of how it is read and, below 0x80, has only the
      control bytes the sanitizer allows; the ring buffer refines the record
      of the stream; logs, consoles and subscribers agree with the stream.
    - The theorems of kind error are interleavings or inputs in which the code does not
      keep what its comments promise.

    ** Bounds

    Retry loops of the store, that of the sequences included, have the bounds of the
    source.  Loops of the source without a bound carry a number of rounds: those of
    [poll_rounds] are enough when they cover the poll budget ([pollOutgoing_terminates]);
    the scan of [first_gap] has one round more than there are taken addresses, which
    always finds a gap ([allocateNICIPv4_lowest_free]).  [run], [simulate] and the drives
    of the witnesses are bounded because the witnesses are concrete.

    ** Not modelled

    - The HTTP handlers (request decoding, authorization, rendering), the command line
      tools and generated clients: they wrap the operations modelled here.
    - The node agent apart from its serial multiplexer: it drives QEMU, nftables,
      WireGuard, DHCP and storage through processes, sockets and files.
    - The writers of networks, storage pools and WireGuard records (their reads for
      placement are modelled), load balancers, snapshots, replication, gateways and
      join tokens, the heartbeat handler's projections, and the create job of a VM.
    - Watches, elections and paged ranges of the etcd client.
    - What libraries decide: uuid text, JSON, hashes, JWT and error texts are
      parameters; log lines are left out. *)

From stdpp Require Export base tactics gmap strings list sorting relations.
From Stdlib Require Export ZArith Lia.

(** ** Results

    A Go function that returns [(v, error)] is a function into [result E A];
    stdpp's [x ← m; k] notation sequences two fallible calls and returns the
    first error. *)
Inductive result (E A : Type) : Type :=
| Ok (a : A)
| Err (e : E).
Global Arguments Ok {E A} a.
Global Arguments Err {E A} e.

#[export] Instance result_ret {E} : MRet (result E) := λ A a, Ok a.
#[export] Instance result_bind {E} : MBind (result E) := λ A B f m,
  match m with Ok a => f a | Err e => Err e end.
#[export] Instance result_fmap {E} : FMap (result E) := λ A B f m,
  match m with Ok a => Ok (f a) | Err e => Err e end.

Lemma result_bind_Ok {E A B} (m : result E A) (f : A → result E B) b :
  m ≫= f = Ok b ↔ ∃ a, m = Ok a ∧ f a = Ok b.
Proof. destruct m; naive_solver. Qed.

Lemma result_bind_Err {E A B} (m : result E A) (f : A → result E B) e :
  m ≫= f = Err e ↔ m = Err e ∨ ∃ a, m = Ok a ∧ f a = Err e.
Proof. destruct m; naive_solver. Qed.

(** [mapM]-style loop over a slice that stops at the first error. *)
Fixpoint result_mapM {E A B} (f : A → result E B) (l : list A) : result E (list B) :=
  match l with
  | [] => Ok []
  | x :: l => y ← f x; ys ← result_mapM f l; Ok (y :: ys)
  end.

Lemma result_mapM_Ok {E A B} (f : A → result E B) l k :
  result_mapM f l = Ok k ↔ Forall2 (λ x y, f x = Ok y) l k.
Proof.
  revert k. induction l as [|x l IH]; intros k; simpl.
  - split; [by intros [= <-]|]. by inversion 1.
  - rewrite result_bind_Ok. setoid_rewrite result_bind_Ok. setoid_rewrite IH. split.
    + intros (y & ? & ys & ? & [= <-]). by constructor.
    + inversion 1; naive_solver.
Qed.

Lemma sublist_full {A} (l k : list A) :
  l `sublist_of` k → length l = length k → l = k.
Proof.
  induction 1 as [|x l k Hs IH|x l k Hs IH]; simpl; intros Hl; [done|f_equal; auto|].
  apply sublist_length in Hs. lia.
Qed.

Lemma result_mapM_Err {E A B} (f : A → result E B) l e :
  result_mapM f l = Err e → ∃ x, x ∈ l ∧ f x = Err e.
Proof.
  induction l as [|x l IH]; simpl; [done|].
  destruct (f x) eqn:Ex; simpl; intros H.
  - destruct (result_mapM f l); simpl in H; [done|]. simplify_eq.
    destruct IH as (y & ? & ?); [done|]. exists y. split; [by right|done].
  - simplify_eq. exists x. split; [by left|done].
Qed.

Lemma result_mapM_total {E A B} (f : A → result E B) l :
  (∀ x, x ∈ l → ∃ y, f x = Ok y) → ∃ k, result_mapM f l = Ok k.
Proof.
  induction l as [|x l IH]; intros H; simpl; [eauto|].
  destruct (H x) as [y ->]; [by left|]. simpl.
  destruct IH as [k ->]; [|simpl; eauto]. intros z Hz. apply H. by right.
Qed.

(** ** Record update

    [r <| f := v |>] is the Go assignment [r.f = v] on a copy of the struct
    [r].  A record type declares its eta expansion; the setter of a field is
    that expansion with the field's projection replaced. *)
Class Eta (R : Type) := eta : R → R.
Class Setter {R T : Type} (proj : R → T) := set : (T → T) → R → R.
Global Arguments set {R T} proj {_} f r /.

Ltac derive_setter :=
  lazymatch goal with
  | |- @Setter ?R ?T ?proj =>
      let i := constr:(_ : Eta R) in
      let b := eval red in i in
      lazymatch eval pattern proj in b with
      | ?setter _ => exact (λ f : T → T, setter (λ r : R, f (proj r)))
      end
  end.
#[export] Hint Extern 1 (Setter _) => derive_setter : typeclass_instances.

Declare Scope record_scope.
Delimit Scope record_scope with rec.
Notation "r <| p := v |>" := (set p (λ _, v) r)
  (at level 1, left associativity, p constr at level 8, v constr at level 99,
   format "r  <|  p  :=  v  |>") : record_scope.
Global Open Scope record_scope.

(** ** Machine integers

    Go's fixed-width signed integers wrap around; a w-bit integer is the
    representative in [-2^(w-1), 2^(w-1)) of its residue. *)
Local Open Scope Z_scope.

Definition wrap_signed (w : Z) (z : Z) : Z :=
  (z + 2 ^ (w - 1)) `mod` 2 ^ w - 2 ^ (w - 1).
Definition i32 : Z → Z := wrap_signed 32.
Definition i64 : Z → Z := wrap_signed 64.
Definition max_i32 : Z := 2 ^ 31 - 1.
Definition max_i64 : Z := 2 ^ 63 - 1.
Definition in_i32 (z : Z) : Prop := - 2 ^ 31 ≤ z ≤ max_i32.
Definition in_i64 (z : Z) : Prop := - 2 ^ 63 ≤ z ≤ max_i64.

Lemma wrap_signed_id w z :
  0 < w → - 2 ^ (w - 1) ≤ z < 2 ^ (w - 1) → wrap_signed w z = z.
Proof.
  intros Hw Hz. unfold wrap_signed.
  assert (2 ^ w = 2 * 2 ^ (w - 1)) as ->.
  { rewrite <-Z.pow_succ_r by lia. f_equal. lia. }
  rewrite Z.mod_small by lia. lia.
Qed.

Lemma wrap_signed_range w z : 0 < w → - 2 ^ (w - 1) ≤ wrap_signed w z < 2 ^ (w - 1).
Proof.
  intros Hw. unfold wrap_signed.
  assert (2 ^ w = 2 * 2 ^ (w - 1)) as Hp.
  { rewrite <-Z.pow_succ_r by lia. f_equal. lia. }
  assert (0 < 2 ^ (w - 1)) by (apply Z.pow_pos_nonneg; lia).
  pose proof (Z.mod_pos_bound (z + 2 ^ (w - 1)) (2 ^ w)). lia.
Qed.

Lemma i32_id z : in_i32 z → i32 z = z.
Proof. intros H. apply wrap_signed_id; [lia|]. unfold in_i32, max_i32 in H. lia. Qed.

Lemma i64_id z : in_i64 z → i64 z = z.
Proof. intros H. apply wrap_signed_id; [lia|]. unfold in_i64, max_i64 in H. lia. Qed.

Lemma i32_range z : in_i32 (i32 z).
Proof.
  unfold in_i32, max_i32, i32. pose proof (wrap_signed_range 32 z ltac:(lia)) as H.
  change (32 - 1) with 31 in H. lia.
Qed.

Lemma i64_range z : in_i64 (i64 z).
Proof.
  unfold in_i64, max_i64, i64. pose proof (wrap_signed_range 64 z ltac:(lia)) as H.
  change (64 - 1) with 63 in H. lia.
Qed.

Lemma wrap_signed_add w a b : wrap_signed w (wrap_signed w a + b) = wrap_signed w (a + b).
Proof.
  unfold wrap_signed. f_equal.
  replace ((a + 2 ^ (w - 1)) `mod` 2 ^ w - 2 ^ (w - 1) + b + 2 ^ (w - 1)) with ((a + 2 ^ (w - 1)) `mod` 2 ^ w + b) by lia.
  rewrite Zplus_mod_idemp_l. f_equal. lia.
Qed.

Lemma wrap_signed_sub w a b : wrap_signed w (a - wrap_signed w b) = wrap_signed w (a - b).
Proof.
  unfold wrap_signed. f_equal.
  replace (a - ((b + 2 ^ (w - 1)) `mod` 2 ^ w - 2 ^ (w - 1)) + 2 ^ (w - 1))
    with (a + 2 * 2 ^ (w - 1) - (b + 2 ^ (w - 1)) `mod` 2 ^ w) by lia.
  rewrite Zminus_mod_idemp_r. f_equal. lia.
Qed.

Lemma wrap_signed_sub_l w a b : wrap_signed w (wrap_signed w a - b) = wrap_signed w (a - b).
Proof. apply (wrap_signed_add w a (- b)). Qed.

(** ** Strings

    Go strings are byte sequences compared bytewise, which is
    [String.compare].  [strings.ToLower] and [strings.EqualFold] are modelled on
    ASCII: the two agree with Go on strings of ASCII bytes.  The names of VMs,
    nodes, pools and networks are ASCII (the API restricts them to letters,
    digits, dot, dash and underscore); an e-mail address need not be, and on one
    with other letters Go folds their case too, where these definitions leave
    them alone. *)
Local Open Scope string_scope.

Definition lower_ascii (c : Ascii.ascii) : Ascii.ascii :=
  let n := Ascii.N_of_ascii c in
  if (65 <=? n)%N && (n <=? 90)%N then Ascii.ascii_of_N (n + 32) else c.

Fixpoint to_lower (s : string) : string :=
  match s with
  | EmptyString => EmptyString
  | String c s => String (lower_ascii c) (to_lower s)
  end.

Definition equal_fold (s1 s2 : string) : bool := bool_decide (to_lower s1 = to_lower s2).

(** [strings.Join]. *)
Fixpoint str_join (sep : string) (l : list string) : string :=
  match l with
  | [] => ""
  | [s] => s
  | s :: l => s +:+ sep +:+ str_join sep l
  end.

Definition str_ltb (s1 s2 : string) : bool := String.ltb s1 s2.

Lemma str_ltb_spec s1 s2 : str_ltb s1 s2 = true ↔ ¬ String.le s2 s1.
Proof.
  unfold str_ltb, String.le, String.ltb, String.leb.
  rewrite (String.compare_antisym s2 s1).
  destruct (String.compare s1 s2); simpl; naive_solver.
Qed.

Lemma str_ltb_false s1 s2 : str_ltb s1 s2 = false ↔ String.le s2 s1.
Proof.
  rewrite <-not_true_iff_false, str_ltb_spec.
  split; [|by intros ? []]. destruct (decide (String.le s2 s1)); tauto.
Qed.

(** ** Stable sorting

    [sort.SliceStable(s, less)] is specified by its documentation: it sorts
    [s] by [less], keeping equal elements in their original order.  When [less]
    is a strict weak order this determines the result, which the insertion sort
    below computes. *)
Section StableSort.
Context {A : Type} (less : A → A → bool).

Fixpoint stable_insert (x : A) (l : list A) : list A :=
  match l with
  | [] => [x]
  | y :: l' => if less y x then y :: stable_insert x l' else x :: l
  end.

Fixpoint stable_sort (l : list A) : list A :=
  match l with
  | [] => []
  | x :: l => stable_insert x (stable_sort l)
  end.

(** [less] is a strict weak order on the elements that satisfy [P]. *)
Record strict_weak_on (P : A → Prop) : Prop := {
  swo_irrefl : ∀ x, P x → less x x = false;
  swo_asym : ∀ x y, P x → P y → less x y = true → less y x = false;
  swo_negtrans : ∀ x y z, P x → P y → P z →
    less y x = false → less z y = false → less z x = false
}.

Lemma stable_insert_perm x l : stable_insert x l ≡ₚ x :: l.
Proof.
  induction l as [|y l IH]; simpl; [done|].
  destruct (less y x); [|done]. rewrite IH. constructor.
Qed.

Lemma stable_sort_perm l : stable_sort l ≡ₚ l.
Proof. induction l as [|x l IH]; simpl; [done|]. by rewrite stable_insert_perm, IH. Qed.

Context (P : A → Prop) (Hswo : strict_weak_on P).

Local Abbreviation le := (λ x y, less y x = false).

Lemma stable_insert_sorted x l :
  P x → Forall P l → StronglySorted le l → StronglySorted le (stable_insert x l).
Proof.
  intros Hx Hl Hs. induction Hs as [|y l Hs IH Hy]; simpl; [by repeat constructor|].
  inversion Hl as [|?? HPy HPl]; subst. destruct (less y x) eqn:E.
  - constructor; [by apply IH|].
    apply Forall_forall. intros z Hz.
    rewrite (stable_insert_perm x l) in Hz.
    apply elem_of_cons in Hz as [->|Hz]; [by eapply swo_asym|].
    by eapply Forall_forall in Hy.
  - constructor; [by constructor|]. constructor; [done|].
    apply Forall_forall. intros z Hz. rewrite Forall_forall in Hy, HPl.
    eapply (swo_negtrans _ Hswo x y z); eauto.
Qed.

Lemma stable_sort_sorted l : Forall P l → StronglySorted le (stable_sort l).
Proof.
  induction 1 as [|x l Hx Hl IH]; simpl; [constructor|].
  apply stable_insert_sorted; [done| |done]. by rewrite stable_sort_perm.
Qed.

(** The head of the sorted slice is a minimal element. *)
Lemma stable_sort_head_min l h t :
  Forall P l → stable_sort l = h :: t → ∀ x, x ∈ l → less x h = false.
Proof.
  intros HP E x Hx. pose proof (stable_sort_sorted l HP) as Hs. rewrite E in Hs.
  assert (x ∈ h :: t) as Hx' by (by rewrite <-E, stable_sort_perm).
  assert (P h) as Hh.
  { rewrite Forall_forall in HP. apply HP. rewrite <-(stable_sort_perm l), E. by left. }
  apply elem_of_cons in Hx' as [->|Hx']; [by apply (swo_irrefl _ Hswo)|].
  inversion Hs as [|??? Hf]; subst. by eapply Forall_forall in Hf.
Qed.
End StableSort.

Lemma stable_sort_nil {A} (less : A → A → bool) l : stable_sort less l = [] ↔ l = [].
Proof.
  split; [|by intros ->]. intros E. apply Permutation_nil_r. by rewrite <-E, stable_sort_perm.
Qed.

(** Strings compared by a key of the elements. *)
Lemma str_ltb_swo {A} (f : A → string) P : strict_weak_on (λ a b, str_ltb (f a) (f b)) P.
Proof.
  split.
  - intros x _. by apply str_ltb_false.
  - intros x y _ _ Hxy%str_ltb_spec. apply str_ltb_false.
    by destruct (total String.le (f x) (f y)).
  - intros x y z _ _ _ Hyx%str_ltb_false Hzy%str_ltb_false. apply str_ltb_false.
    by transitivity (f y).
Qed.

Lemma str_ltb_total s1 s2 : s1 ≠ s2 → str_ltb s1 s2 = false → str_ltb s2 s1 = true.
Proof.
  intros Hne Hle%str_ltb_false. apply str_ltb_spec. intros Hle'. by apply Hne, (anti_symm String.le).
Qed.

(** ** Sorted lists *)

Lemma StronglySorted_omap {A B} (R : A → A → Prop) (S : B → B → Prop) (f : A → option B) l :
  (∀ x y a b, x ∈ l → y ∈ l → R x y → f x = Some a → f y = Some b → S a b) →
  StronglySorted R l → StronglySorted S (omap f l).
Proof.
  intros Hf Hl. induction Hl as [|x l Hl IH Hx]; [constructor|]. simpl.
  assert (StronglySorted S (omap f l)) as Hs.
  { apply IH. intros. eapply (Hf x0 y); [by right|by right|done..]. }
  destruct (f x) as [a|] eqn:Ea; [|done]. constructor; [done|]. apply Forall_forall.
  intros b (y & Hy & Hb)%list_elem_of_omap. rewrite Forall_forall in Hx.
  eapply Hf; [by left|by right|by apply Hx|done|done].
Qed.

Lemma StronglySorted_filter {A} (R : A → A → Prop) (P : A → Prop) `{∀ x, Decision (P x)} l :
  StronglySorted R l → StronglySorted R (filter P l).
Proof.
  induction 1 as [|x l Hl IH Hx]; [constructor|]. rewrite filter_cons. case_decide; [|done].
  constructor; [done|]. rewrite Forall_forall in *. intros y [_ Hy]%list_elem_of_filter. auto.
Qed.

Lemma NoDup_map_filter {A B} (f : A → B) (P : A → Prop) `{∀ x, Decision (P x)} l :
  NoDup (map f l) → NoDup (map f (filter P l)).
Proof.
  induction l as [|x l IH]; [done|]. rewrite filter_cons. simpl. intros [Hx Hl]%NoDup_cons.
  case_decide; [|auto]. simpl. apply NoDup_cons. split; [|auto].
  intros (y & Ey & [_ Hy]%list_elem_of_filter)%list_elem_of_fmap.
  apply Hx. rewrite Ey. by apply list_elem_of_fmap_2.
Qed.

Lemma NoDup_map_eq {A B} (f : A → B) l x y :
  NoDup (map f l) → x ∈ l → y ∈ l → f x = f y → x = y.
Proof.
  induction l as [|z l IH]; intros Hnd Hx Hy E; [by apply elem_of_nil in Hx|].
  simpl in Hnd. apply NoDup_cons in Hnd as [Hz Hnd].
  apply elem_of_cons in Hx as [->|Hx], Hy as [->|Hy]; [done| | |by apply IH].
  - destruct Hz. rewrite E. by apply list_elem_of_fmap_2.
  - destruct Hz. rewrite <-E. by apply list_elem_of_fmap_2.
Qed.

(** In a sorted list without repeated keys, the order is strict. *)
Lemma StronglySorted_strict {A B} (key : A → B) (R S : A → A → Prop) l :
  (∀ x y, R x y → key x ≠ key y → S x y) → NoDup (map key l) →
  StronglySorted R l → StronglySorted S l.
Proof.
  intros HRS Hnd Hl. induction Hl as [|x l Hl IH Hx]; [constructor|]. simpl in Hnd.
  apply NoDup_cons in Hnd as [Hnot Hnd]. constructor; [by apply IH|]. rewrite Forall_forall in *.
  intros y Hy. apply HRS; [by apply Hx|]. intros E. apply Hnot. rewrite E. by apply list_elem_of_fmap_2.
Qed.

Lemma StronglySorted_NoDup {A B} (key : A → B) (R : A → A → Prop) l :
  (∀ x y, R x y → key x ≠ key y) → StronglySorted R l → NoDup (map key l).
Proof.
  intros HR. induction 1 as [|x l Hl IH Hx]; [constructor|]. simpl. apply NoDup_cons.
  split; [|done]. intros (y & E & Hy)%list_elem_of_fmap. rewrite Forall_forall in Hx.
  by apply (HR x y); [apply Hx|].
Qed.

(** Two sorted arrangements of the same elements are equal. *)
Lemma StronglySorted_perm_eq {A} (R : A → A → Prop) l1 l2 :
  (∀ x y, R x y → ¬ R y x) → StronglySorted R l1 → StronglySorted R l2 → l1 ≡ₚ l2 → l1 = l2.
Proof.
  intros Has. assert (AntiSymm (=) R) by (intros x y Hxy Hyx; by destruct (Has x y)).
  by apply StronglySorted_unique.
Qed.

(** The elements of a sorted list that come after one of them. *)
Lemma StronglySorted_after {A} (less : A → A → bool) l i x :
  (∀ x y, less x y = true → less y x = false) → StronglySorted (λ x y, less x y = true) l →
  l !! i = Some x → filter (λ y, Is_true (less x y)) l = drop (S i) l.
Proof.
  intros Has Hl. revert i. induction Hl as [|y l Hl IH Hy]; intros i Hi; [done|].
  assert (less x x = false) as Hirr.
  { destruct (less x x) eqn:E; [|done]. by rewrite (Has x x E) in E. }
  rewrite Forall_forall in Hy. destruct i as [|i]; simpl in Hi.
  - injection Hi as ->. rewrite filter_cons_False by (rewrite Hirr; by intros []).
    simpl. rewrite drop_0. clear IH Hl. induction l as [|z l IH]; [done|].
    rewrite filter_cons_True by (by rewrite (Hy z) by (by left)). f_equal. apply IH.
    intros z' Hz'. apply Hy. by right.
  - assert (x ∈ l) as Hx by (by eapply list_elem_of_lookup_2).
    rewrite filter_cons_False by (rewrite (Has y x (Hy x Hx)); by intros []). by apply IH.
Qed.
