(* ===== verification/Models.v ===== *)
(** * The rows the control plane persists

    The structs of [internal/store/models.go], [internal/etcdstore/jobs.go] and
    [internal/etcdstore/idempotency_task.go], with the source's field names
    behind a per-type prefix.  A pointer field is an [option]; times are
    nanoseconds since the epoch; byte slices are strings.  The columns of a node
    row that only its agent reports and those of a VM row that are fixed at its
    creation are grouped in a record.  The columns of a runtime row that no
    modelled operation reads or changes are carried along as one opaque field. *)

From S2P Require Import Prelude.
Local Open Scope Z_scope.

(** A [uuid.UUID] is a 128-bit value; its textual form is a parameter of the
    model (see [Etcd]). *)
Record uuid := Uuid { uuid_bits : N }.
#[export] Instance uuid_eq_dec : EqDecision uuid.
Proof. solve_decision. Defined.
#[export] Instance uuid_countable : Countable uuid :=
  inj_countable' uuid_bits Uuid (λ '(Uuid _), eq_refl).
Definition uuid_nil : uuid := Uuid 0.

Abbreviation time := Z (only parsing).
Abbreviation bytes := string (only parsing).

(** ** Enumerations *)
Inductive JobState := JobStatePending | JobStateRunning | JobStateCompleted | JobStateFailed.
#[export] Instance JobState_eq_dec : EqDecision JobState.
Proof. solve_decision. Defined.

Inductive TaskStatus :=
| TaskStatusPending | TaskStatusRunning | TaskStatusSuccess | TaskStatusFailed
| TaskStatusCancelled.
#[export] Instance TaskStatus_eq_dec : EqDecision TaskStatus.
Proof. solve_decision. Defined.

(** The wire form [string(status)]. *)
Definition TaskStatus_string (s : TaskStatus) : string :=
  match s with
  | TaskStatusPending => "pending"
  | TaskStatusRunning => "running"
  | TaskStatusSuccess => "success"
  | TaskStatusFailed => "failed"
  | TaskStatusCancelled => "cancelled"
  end.

Inductive MigrationPhase :=
| MigrationPhasePending | MigrationPhaseSetup | MigrationPhaseActive
| MigrationPhasePostcopyActive | MigrationPhaseCompleted | MigrationPhaseFailed
| MigrationPhaseCancelled.
#[export] Instance MigrationPhase_eq_dec : EqDecision MigrationPhase.
Proof. solve_decision. Defined.

Inductive MigrationReason :=
| MigrationReasonManual | MigrationReasonDrain | MigrationReasonRebalance
| MigrationReasonEvacuation.
#[export] Instance MigrationReason_eq_dec : EqDecision MigrationReason.
Proof. solve_decision. Defined.

(** The current node statuses and the retired ["gone"], which old rows may
    still carry. *)
Inductive NodeStatus :=
| NodeStatusPending | NodeStatusReady | NodeStatusCordoned | NodeStatusDraining
| NodeStatusUnreachable | legacyGoneStatus.
#[export] Instance NodeStatus_eq_dec : EqDecision NodeStatus.
Proof. solve_decision. Defined.

Inductive VMPhase :=
| VmPhasePending | VmPhaseRunning | VmPhaseMigrating | VmPhasePaused | VmPhaseStopped
| VmPhaseError | VmPhaseGone | VmPhaseOrphaned.
#[export] Instance VMPhase_eq_dec : EqDecision VMPhase.
Proof. solve_decision. Defined.

(** ** Background jobs *)
Record Job := MkJob {
  job_ID : Z;
  job_Kind : string;
  job_Args : bytes;
  job_State : JobState;
  job_Attempts : Z;
  job_FailedAt : option time;
  job_ClaimedAt : option time;
  job_ClaimToken : string
}.
#[export] Instance eta_Job : Eta Job := λ j,
  MkJob (job_ID j) (job_Kind j) (job_Args j) (job_State j) (job_Attempts j)
    (job_FailedAt j) (job_ClaimedAt j) (job_ClaimToken j).
#[export] Instance Job_eq_dec : EqDecision Job.
Proof. solve_decision. Defined.

(** ** Tasks *)
Record Task := MkTask {
  task_ID : uuid;
  task_Type : string;
  task_Status : TaskStatus;
  task_ResourceType : string;
  task_ResourceID : option uuid;
  task_Progress : option Z;
  task_Args : bytes;
  task_Result : bytes;
  task_Error : bytes;
  task_Attempts : Z;
  task_MaxAttempts : Z;
  task_JobID : option Z;
  task_AgentTaskID : option uuid;
  task_CreatedBy : option uuid;
  task_CreatedAt : time;
  task_StartedAt : option time;
  task_FinishedAt : option time
}.
#[export] Instance eta_Task : Eta Task := λ t,
  MkTask (task_ID t) (task_Type t) (task_Status t) (task_ResourceType t)
    (task_ResourceID t) (task_Progress t) (task_Args t) (task_Result t) (task_Error t)
    (task_Attempts t) (task_MaxAttempts t) (task_JobID t) (task_AgentTaskID t)
    (task_CreatedBy t) (task_CreatedAt t) (task_StartedAt t) (task_FinishedAt t).
#[export] Instance Task_eq_dec : EqDecision Task.
Proof. solve_decision. Defined.

Record CreateTaskParams := MkCreateTaskParams {
  ctp_ID : uuid;
  ctp_Type : string;
  ctp_Status : TaskStatus;
  ctp_ResourceType : string;
  ctp_ResourceID : option uuid;
  ctp_Args : bytes;
  ctp_MaxAttempts : Z;
  ctp_CreatedBy : option uuid;
  ctp_IdempotencyUserID : option uuid;
  ctp_IdempotencyKey : option string;
  ctp_IdempotencyHash : bytes
}.

(** The value of an idempotency-task index key. *)
Record idempotencyTaskIndex := MkIdempotencyTaskIndex {
  iti_TaskID : uuid;
  iti_RequestHash : bytes;
  iti_ExpiresAt : time
}.
#[export] Instance idempotencyTaskIndex_eq_dec : EqDecision idempotencyTaskIndex.
Proof. solve_decision. Defined.

(** The row of an idempotency key. *)
Record IdempotencyKey := MkIdempotencyKey {
  ik_Key : string;
  ik_UserID : option uuid;
  ik_RequestMethod : string;
  ik_RequestPath : string;
  ik_RequestHash : bytes;
  ik_ResponseStatus : option Z;
  ik_ResponseHeaders : bytes;
  ik_ResponseBody : bytes;
  ik_State : string;
  ik_CreatedAt : time;
  ik_CompletedAt : option time;
  ik_ExpiresAt : time
}.
#[export] Instance eta_IdempotencyKey : Eta IdempotencyKey := λ k,
  MkIdempotencyKey (ik_Key k) (ik_UserID k) (ik_RequestMethod k) (ik_RequestPath k)
    (ik_RequestHash k) (ik_ResponseStatus k) (ik_ResponseHeaders k) (ik_ResponseBody k)
    (ik_State k) (ik_CreatedAt k) (ik_CompletedAt k) (ik_ExpiresAt k).
#[export] Instance IdempotencyKey_eq_dec : EqDecision IdempotencyKey.
Proof. solve_decision. Defined.

(** ** Migrations *)
Record MigrationStats := MkMigrationStats {
  ms_RAMTransferred : Z;
  ms_RAMTotal : Z;
  ms_RAMDirtyPagesRate : Z;
  ms_DiskTransferred : Z;
  ms_DiskTotal : Z;
  ms_TotalTimeMs : Z;
  ms_DowntimeMs : Z;
  ms_SetupTimeMs : Z
}.
#[export] Instance MigrationStats_eq_dec : EqDecision MigrationStats.
Proof. solve_decision. Defined.

Record Migration := MkMigration {
  mig_ID : uuid;
  mig_VmID : uuid;
  mig_SourceNodeID : option uuid;
  mig_TargetNodeID : option uuid;
  mig_InitiatedByUserID : option uuid;
  mig_Reason : MigrationReason;
  mig_Phase : MigrationPhase;
  mig_ProgressPercent : Z;
  mig_BytesTotal : option Z;
  mig_BytesTransferred : Z;
  mig_BytesRemaining : option Z;
  mig_PagesTotal : option Z;
  mig_PagesTransferred : option Z;
  mig_DowntimeMs : option Z;
  mig_SetupTimeMs : option Z;
  mig_QmpCapabilities : bytes;
  mig_MaxBandwidthBytes : option Z;
  mig_MaxDowntimeMs : option Z;
  mig_Live : bool;
  mig_AllowPostcopy : bool;
  mig_TargetPoolName : string;
  mig_StartedAt : option time;
  mig_CompletedAt : option time;
  mig_ErrorMessage : option string;
  mig_SchedulingReason : option string;
  mig_LastScheduleAttemptAt : option time;
  mig_Stats : option MigrationStats;
  mig_CreatedAt : time;
  mig_UpdatedAt : time
}.
#[export] Instance eta_Migration : Eta Migration := λ m,
  MkMigration (mig_ID m) (mig_VmID m) (mig_SourceNodeID m) (mig_TargetNodeID m)
    (mig_InitiatedByUserID m) (mig_Reason m) (mig_Phase m) (mig_ProgressPercent m)
    (mig_BytesTotal m) (mig_BytesTransferred m) (mig_BytesRemaining m) (mig_PagesTotal m)
    (mig_PagesTransferred m) (mig_DowntimeMs m) (mig_SetupTimeMs m) (mig_QmpCapabilities m)
    (mig_MaxBandwidthBytes m) (mig_MaxDowntimeMs m) (mig_Live m) (mig_AllowPostcopy m)
    (mig_TargetPoolName m) (mig_StartedAt m) (mig_CompletedAt m) (mig_ErrorMessage m)
    (mig_SchedulingReason m) (mig_LastScheduleAttemptAt m) (mig_Stats m) (mig_CreatedAt m)
    (mig_UpdatedAt m).
#[export] Instance Migration_eq_dec : EqDecision Migration.
Proof. solve_decision. Defined.

Record CreateMigrationParams := MkCreateMigrationParams {
  cmp_ID : uuid;
  cmp_VmID : uuid;
  cmp_SourceNodeID : option uuid;
  cmp_TargetNodeID : option uuid;
  cmp_TargetPoolName : string;
  cmp_InitiatedByUserID : option uuid;
  cmp_Reason : MigrationReason;
  cmp_Live : bool;
  cmp_AllowPostcopy : bool;
  cmp_MaxBandwidthBytes : option Z;
  cmp_MaxDowntimeMs : option Z;
  cmp_Task : CreateTaskParams
}.

Record MigrationProgressUpdate := MkMigrationProgressUpdate {
  upd_Phase : option MigrationPhase;
  upd_ProgressPercent : option Z;
  upd_BytesTotal : option Z;
  upd_BytesTransferred : option Z;
  upd_BytesRemaining : option Z;
  upd_ErrorMessage : option string;
  upd_StartedAt : option time;
  upd_LastScheduleAttemptAt : option time;
  upd_SchedulingReason : option string;
  upd_ClearSchedulingReason : bool
}.

(** ** VMs, their disks, interfaces and runtime rows, networks, and nodes *)
Inductive VMDesiredPhase := VmDesiredPhaseRunning | VmDesiredPhaseStopped | VmDesiredPhaseDeleted.
#[export] Instance VMDesiredPhase_eq_dec : EqDecision VMDesiredPhase.
Proof. solve_decision. Defined.

(** A row may also carry no status. *)
Inductive VMSchedulingStatus := VMSchedulingUnscheduled | VMSchedulingScheduled | VMSchedulingUnset.
#[export] Instance VMSchedulingStatus_eq_dec : EqDecision VMSchedulingStatus.
Proof. solve_decision. Defined.

(** What a VM was created with; the columns that nothing in the store writes
    ([SchedulerHints], [MetaData], [SshAuthorizedKeys]) are left out. *)
Record VMSpec := MkVMSpec {
  spec_Description : string;
  spec_Architecture : string;
  spec_ImageURL : string;
  spec_ImageFormat : string;
  spec_ImagePullPolicy : string;
  spec_CpuCores : Z;
  spec_MemoryMib : Z;
  spec_CPUModel : string;
  spec_MachineType : string;
  spec_SourceSnapshotID : option uuid;
  spec_UserData : option string;
  spec_CloudInitDisabled : bool;
  spec_SSHIngressEnabled : bool;
  spec_NetworkConfig : option string;
  spec_Labels : bytes;
  spec_SchedulingSpec : bytes
}.
#[export] Instance VMSpec_eq_dec : EqDecision VMSpec.
Proof. solve_decision. Defined.

Record VM := MkVM {
  vm_ID : uuid;
  vm_OwnerID : uuid;
  vm_Name : string;
  vm_Spec : VMSpec;
  vm_DesiredPhase : VMDesiredPhase;
  vm_ImageSHA256 : bytes;
  vm_FirmwareID : option uuid;
  vm_PinnedNodeID : option uuid;
  vm_SchedulingStatus : VMSchedulingStatus;
  vm_SchedulingReason : option string;
  vm_SchedulingMessage : option string;
  vm_SchedulingDetails : bytes;
  vm_LastScheduleAttemptAt : option time;
  vm_Generation : Z;
  vm_CreatedAt : time;
  vm_UpdatedAt : time;
  vm_DeletedAt : option time
}.
#[export] Instance eta_VM : Eta VM := λ v,
  MkVM (vm_ID v) (vm_OwnerID v) (vm_Name v) (vm_Spec v) (vm_DesiredPhase v) (vm_ImageSHA256 v)
    (vm_FirmwareID v) (vm_PinnedNodeID v) (vm_SchedulingStatus v) (vm_SchedulingReason v)
    (vm_SchedulingMessage v) (vm_SchedulingDetails v) (vm_LastScheduleAttemptAt v) (vm_Generation v)
    (vm_CreatedAt v) (vm_UpdatedAt v) (vm_DeletedAt v).
#[export] Instance VM_eq_dec : EqDecision VM.
Proof. solve_decision. Defined.

Record CreateVMParams := MkCreateVMParams {
  cvp_ID : uuid;
  cvp_OwnerID : uuid;
  cvp_Name : string;
  cvp_Spec : VMSpec;
  cvp_ImageSHA256 : bytes;
  cvp_FirmwareID : option uuid;
  cvp_PinnedNodeID : option uuid
}.

Record VMDisk := MkVMDisk {
  disk_ID : uuid;
  disk_VmID : uuid;
  disk_StoragePoolID : uuid;
  disk_DeviceOrder : Z;
  disk_Bus : string;
  disk_SizeGib : Z;
  disk_SourceKind : string;
  disk_Format : string;
  disk_ReadOnly : bool;
  disk_CacheMode : string;
  disk_Discard : string;
  disk_BootOrder : option Z;
  disk_Generation : Z;
  disk_CreatedAt : time;
  disk_UpdatedAt : time;
  disk_DeletedAt : option time
}.
#[export] Instance eta_VMDisk : Eta VMDisk := λ d,
  MkVMDisk (disk_ID d) (disk_VmID d) (disk_StoragePoolID d) (disk_DeviceOrder d) (disk_Bus d)
    (disk_SizeGib d) (disk_SourceKind d) (disk_Format d) (disk_ReadOnly d) (disk_CacheMode d)
    (disk_Discard d) (disk_BootOrder d) (disk_Generation d) (disk_CreatedAt d) (disk_UpdatedAt d)
    (disk_DeletedAt d).
#[export] Instance VMDisk_eq_dec : EqDecision VMDisk.
Proof. solve_decision. Defined.

Record CreateVMDiskParams := MkCreateVMDiskParams {
  cdp_VmID : uuid;
  cdp_StoragePoolID : uuid;
  cdp_DeviceOrder : Z;
  cdp_Bus : string;
  cdp_SizeGib : Z;
  cdp_SourceKind : string;
  cdp_Format : string;
  cdp_ReadOnly : bool;
  cdp_CacheMode : string;
  cdp_Discard : string;
  cdp_BootOrder : option Z
}.

(** An IPv4 [netip.Addr] is its 32-bit value, and a valid IPv4 [netip.Prefix] an
    address with a number of bits; a hardware address is its text form. *)
Record Prefix := MkPrefix { prefix_Addr : Z; prefix_Bits : Z }.
#[export] Instance Prefix_eq_dec : EqDecision Prefix.
Proof. solve_decision. Defined.

Record VMNic := MkVMNic {
  nic_ID : uuid;
  nic_VmID : uuid;
  nic_NetworkID : uuid;
  nic_DeviceOrder : Z;
  nic_Model : string;
  nic_MacAddress : string;
  nic_Ipv4Address : option Z;
  nic_Ipv6Address : option string;
  nic_Generation : Z;
  nic_CreatedAt : time;
  nic_UpdatedAt : time;
  nic_DeletedAt : option time
}.
#[export] Instance eta_VMNic : Eta VMNic := λ n,
  MkVMNic (nic_ID n) (nic_VmID n) (nic_NetworkID n) (nic_DeviceOrder n) (nic_Model n)
    (nic_MacAddress n) (nic_Ipv4Address n) (nic_Ipv6Address n) (nic_Generation n) (nic_CreatedAt n)
    (nic_UpdatedAt n) (nic_DeletedAt n).
#[export] Instance VMNic_eq_dec : EqDecision VMNic.
Proof. solve_decision. Defined.

Record CreateVMNicParams := MkCreateVMNicParams {
  cvn_ID : uuid;
  cvn_VmID : uuid;
  cvn_NetworkID : uuid;
  cvn_DeviceOrder : Z;
  cvn_Model : string;
  cvn_MacAddress : string;
  cvn_Ipv4Address : option Z;
  cvn_Ipv6Address : option string
}.

Record Network := MkNetwork {
  net_ID : uuid;
  net_Name : string;
  net_Type : string;
  net_BridgeName : string;
  net_Managed : bool;
  net_Egress : string;
  net_VlanTag : option Z;
  net_Mtu : Z;
  net_Subnet : option Prefix;
  net_Gateway : option Z;
  net_DhcpEnabled : bool;
  net_DNSEnabled : bool;
  net_VNI : option Z;
  net_Config : bytes;
  net_CreatedAt : time;
  net_UpdatedAt : time;
  net_DeletedAt : option time
}.
#[export] Instance eta_Network : Eta Network := λ n,
  MkNetwork (net_ID n) (net_Name n) (net_Type n) (net_BridgeName n) (net_Managed n) (net_Egress n)
    (net_VlanTag n) (net_Mtu n) (net_Subnet n) (net_Gateway n) (net_DhcpEnabled n) (net_DNSEnabled n)
    (net_VNI n) (net_Config n) (net_CreatedAt n) (net_UpdatedAt n) (net_DeletedAt n).
#[export] Instance Network_eq_dec : EqDecision Network.
Proof. solve_decision. Defined.

Record VMRuntime := MkVMRuntime {
  rt_VmID : uuid;
  rt_CurrentNodeID : option uuid;
  rt_Phase : VMPhase;
  rt_ObservedGeneration : Z;
  rt_QEMUPID : option Z;
  rt_LastStartedAt : option time;
  rt_LastErrorMessage : option string;
  rt_MemoryUsedMib : option Z;
  rt_LastObservedAt : option time;
  rt_UpdatedAt : time;
  rt_OtherColumns : bytes
}.
#[export] Instance eta_VMRuntime : Eta VMRuntime := λ r,
  MkVMRuntime (rt_VmID r) (rt_CurrentNodeID r) (rt_Phase r) (rt_ObservedGeneration r) (rt_QEMUPID r)
    (rt_LastStartedAt r) (rt_LastErrorMessage r) (rt_MemoryUsedMib r) (rt_LastObservedAt r)
    (rt_UpdatedAt r) (rt_OtherColumns r).
#[export] Instance VMRuntime_eq_dec : EqDecision VMRuntime.
Proof. solve_decision. Defined.

Record UpsertVMRuntimeParams := MkUpsertVMRuntimeParams {
  uvr_VmID : uuid;
  uvr_CurrentNodeID : option uuid;
  uvr_Phase : VMPhase;
  uvr_ObservedGeneration : Z;
  uvr_QEMUPID : option Z;
  uvr_LastStartedAt : option time;
  uvr_LastErrorMessage : option string;
  uvr_MemoryUsedMib : option Z
}.

(** The columns of a node row that its agent reports with every heartbeat. *)
Record NodeReport := MkNodeReport {
  rep_AgentVersion : option string;
  rep_MigrationHost : string;
  rep_MigrationPortRangeStart : Z;
  rep_MigrationPortRangeEnd : Z;
  rep_CPUCoresTotal : option Z;
  rep_CPUCoresAvailable : option Z;
  rep_CPUModel : option string;
  rep_CpuFlags : list string;
  rep_MemoryTotalMib : option Z;
  rep_MemoryAvailableMib : option Z;
  rep_Hugepages2mibTotal : option Z;
  rep_Hugepages1gibTotal : option Z;
  rep_KernelVersion : option string;
  rep_QEMUVersion : option string;
  rep_NumaTopology : bytes;
  rep_Capabilities : bytes;
  rep_SystemDiskTotalBytes : option Z;
  rep_SystemDiskAvailableBytes : option Z
}.
#[export] Instance NodeReport_eq_dec : EqDecision NodeReport.
Proof. solve_decision. Defined.

(** What a node has reported before its first heartbeat. *)
Definition no_report (migrationHost : string) (portStart portEnd : Z) : NodeReport :=
  MkNodeReport None migrationHost portStart portEnd None None None [] None None None None None None
    "" "" None None.

Record Node := MkNode {
  node_ID : uuid;
  node_Name : string;
  node_GatewayRole : bool;
  node_Architecture : string;
  node_AdvertisedEndpoint : string;
  node_IngressAdvertisedEndpoint : string;
  node_ControlListenPort : Z;
  node_Report : NodeReport;
  node_Status : NodeStatus;
  node_CordonedAt : option time;
  node_DrainTaskID : option uuid;
  node_LastHeartbeatAt : option time;
  node_Labels : bytes;
  node_MemoryPressureSince : option time;
  node_MemoryPressureCount : Z;
  node_SystemDiskPressureSince : option time;
  node_SystemDiskPressureCount : Z;
  node_CreatedAt : time;
  node_UpdatedAt : time;
  node_DeletedAt : option time
}.
#[export] Instance eta_Node : Eta Node := λ n,
  MkNode (node_ID n) (node_Name n) (node_GatewayRole n) (node_Architecture n)
    (node_AdvertisedEndpoint n) (node_IngressAdvertisedEndpoint n) (node_ControlListenPort n)
    (node_Report n) (node_Status n) (node_CordonedAt n) (node_DrainTaskID n)
    (node_LastHeartbeatAt n) (node_Labels n) (node_MemoryPressureSince n)
    (node_MemoryPressureCount n) (node_SystemDiskPressureSince n) (node_SystemDiskPressureCount n)
    (node_CreatedAt n) (node_UpdatedAt n) (node_DeletedAt n).
#[export] Instance Node_eq_dec : EqDecision Node.
Proof. solve_decision. Defined.

Record User := MkUser {
  user_ID : uuid;
  user_Username : string;
  user_Email : string;
  user_PasswordHash : string;
  user_DisplayName : string;
  user_Role : string;
  user_LastLoginAt : option time;
  user_CreatedAt : time;
  user_UpdatedAt : time;
  user_DeletedAt : option time
}.
#[export] Instance eta_User : Eta User := λ u,
  MkUser (user_ID u) (user_Username u) (user_Email u) (user_PasswordHash u) (user_DisplayName u)
    (user_Role u) (user_LastLoginAt u) (user_CreatedAt u) (user_UpdatedAt u) (user_DeletedAt u).
#[export] Instance User_eq_dec : EqDecision User.
Proof. solve_decision. Defined.

Record ApiToken := MkApiToken {
  at_ID : uuid;
  at_UserID : uuid;
  at_Name : string;
  at_TokenHash : bytes;
  at_Prefix : string;
  at_Scopes : list string;
  at_LastUsedAt : option time;
  at_ExpiresAt : option time;
  at_RevokedAt : option time;
  at_CreatedAt : time
}.
#[export] Instance eta_ApiToken : Eta ApiToken := λ a,
  MkApiToken (at_ID a) (at_UserID a) (at_Name a) (at_TokenHash a) (at_Prefix a) (at_Scopes a)
    (at_LastUsedAt a) (at_ExpiresAt a) (at_RevokedAt a) (at_CreatedAt a).
#[export] Instance ApiToken_eq_dec : EqDecision ApiToken.
Proof. solve_decision. Defined.

(** An address is kept in its text form: nothing looks inside it. *)
Record RefreshToken := MkRefreshToken {
  rft_ID : uuid;
  rft_UserID : uuid;
  rft_TokenHash : bytes;
  rft_FamilyID : uuid;
  rft_ParentID : option uuid;
  rft_UserAgent : option string;
  rft_IpAddress : option string;
  rft_IssuedAt : time;
  rft_ExpiresAt : time;
  rft_RevokedAt : option time;
  rft_LastUsedAt : option time
}.
#[export] Instance eta_RefreshToken : Eta RefreshToken := λ r,
  MkRefreshToken (rft_ID r) (rft_UserID r) (rft_TokenHash r) (rft_FamilyID r) (rft_ParentID r)
    (rft_UserAgent r) (rft_IpAddress r) (rft_IssuedAt r) (rft_ExpiresAt r) (rft_RevokedAt r)
    (rft_LastUsedAt r).
#[export] Instance RefreshToken_eq_dec : EqDecision RefreshToken.
Proof. solve_decision. Defined.

Record familyBarrier := MkFamilyBarrier { fb_ExpiresAt : time }.
#[export] Instance familyBarrier_eq_dec : EqDecision familyBarrier.
Proof. solve_decision. Defined.

(** ** Storage pools, the agents' WireGuard records, and networks on nodes *)
Record StoragePool := MkStoragePool {
  sp_ID : uuid;
  sp_NodeID : uuid;
  sp_Name : string;
  sp_Type : string;
  sp_Path : string;
  sp_CapacityBytes : option Z;
  sp_AvailableBytes : option Z;
  sp_ReportedAt : option time;
  sp_Config : bytes;
  sp_DiskPressureSince : option time;
  sp_DiskPressureCount : Z;
  sp_ReconciliationStatus : string;
  sp_LastReconciledAt : option time;
  sp_ReconciliationError : option string;
  sp_CreatedAt : time;
  sp_UpdatedAt : time;
  sp_DeletedAt : option time
}.
#[export] Instance StoragePool_eq_dec : EqDecision StoragePool.
Proof. solve_decision. Defined.

(** The overlay address is kept in its text form. *)
Record AgentWireguard := MkAgentWireguard {
  aw_NodeID : uuid;
  aw_PublicKey : string;
  aw_Endpoint : string;
  aw_OverlayIP : string;
  aw_AgentIndex : Z;
  aw_ListenPort : Z;
  aw_EstablishedPeers : list string;
  aw_ReconciliationStatus : string;
  aw_ReconciliationError : option string;
  aw_UpdatedAt : time
}.
#[export] Instance AgentWireguard_eq_dec : EqDecision AgentWireguard.
Proof. solve_decision. Defined.

Record NetworkNodeStatus := MkNetworkNodeStatus {
  nns_NetworkID : uuid;
  nns_NodeID : uuid;
  nns_ReconciliationStatus : string;
  nns_ReconciliationError : option string;
  nns_LastReconciledAt : option time;
  nns_UpdatedAt : time;
  nns_ActiveSessions : Z
}.
#[export] Instance NetworkNodeStatus_eq_dec : EqDecision NetworkNodeStatus.
Proof. solve_decision. Defined.

(** ** Stored values

    Every value in etcd is a plain string (ids, counters), an RFC 3339 timestamp
    (which has whole seconds) or the JSON encoding of one of the row structs.  A [doc] is
    such a value up to encoding: the constructor says what [json.Marshal] was
    applied to, and [DBad] is a byte string no decoder of the store accepts.
    Decoding a [doc] as another type is an unmarshal error. *)
Inductive doc :=
| DStr (s : string)
| DTime (secs : Z)
| DJob (j : Job)
| DTask (t : Task)
| DMigration (m : Migration)
| DVM (v : VM)
| DVMRuntime (r : VMRuntime)
| DVMDisk (d : VMDisk)
| DVMNic (n : VMNic)
| DNetwork (n : Network)
| DNode (n : Node)
| DIdempotencyKey (k : IdempotencyKey)
| DIdempotencyTaskIndex (i : idempotencyTaskIndex)
| DUser (u : User)
| DApiToken (a : ApiToken)
| DRefreshToken (r : RefreshToken)
| DFamilyBarrier (b : familyBarrier)
| DStoragePool (p : StoragePool)
| DAgentWireguard (a : AgentWireguard)
| DNetworkNodeStatus (s : NetworkNodeStatus)
| DBad.
#[export] Instance doc_eq_dec : EqDecision doc.
Proof. solve_decision. Defined.

(** [json.Marshal] and [json.Unmarshal] at a row type, with the round trip the
    store relies on. *)
Class Codec (A : Type) := {
  encode_doc : A → doc;
  decode_doc : doc → option A;
  decode_encode_doc : ∀ a, decode_doc (encode_doc a) = Some a;
  decode_doc_inv : ∀ d a, decode_doc d = Some a → d = encode_doc a
}.
#[export] Instance Codec_Job : Codec Job.
Proof.
  refine {| encode_doc := DJob;
            decode_doc d := match d with DJob a => Some a | _ => None end |};
    [done | intros []; simpl; congruence].
Defined.
#[export] Instance Codec_Task : Codec Task.
Proof.
  refine {| encode_doc := DTask;
            decode_doc d := match d with DTask a => Some a | _ => None end |};
    [done | intros []; simpl; congruence].
Defined.
#[export] Instance Codec_Migration : Codec Migration.
Proof.
  refine {| encode_doc := DMigration;
            decode_doc d := match d with DMigration a => Some a | _ => None end |};
    [done | intros []; simpl; congruence].
Defined.
#[export] Instance Codec_VM : Codec VM.
Proof.
  refine {| encode_doc := DVM;
            decode_doc d := match d with DVM a => Some a | _ => None end |};
    [done | intros []; simpl; congruence].
Defined.
#[export] Instance Codec_VMRuntime : Codec VMRuntime.
Proof.
  refine {| encode_doc := DVMRuntime;
            decode_doc d := match d with DVMRuntime a => Some a | _ => None end |};
    [done | intros []; simpl; congruence].
Defined.
#[export] Instance Codec_VMDisk : Codec VMDisk.
Proof.
  refine {| encode_doc := DVMDisk;
            decode_doc d := match d with DVMDisk a => Some a | _ => None end |};
    [done | intros []; simpl; congruence].
Defined.
#[export] Instance Codec_VMNic : Codec VMNic.
Proof.
  refine {| encode_doc := DVMNic;
            decode_doc d := match d with DVMNic a => Some a | _ => None end |};
    [done | intros []; simpl; congruence].
Defined.
#[export] Instance Codec_Network : Codec Network.
Proof.
  refine {| encode_doc := DNetwork;
            decode_doc d := match d with DNetwork a => Some a | _ => None end |};
    [done | intros []; simpl; congruence].
Defined.
#[export] Instance Codec_Node : Codec Node.
Proof.
  refine {| encode_doc := DNode;
            decode_doc d := match d with DNode a => Some a | _ => None end |};
    [done | intros []; simpl; congruence].
Defined.
#[export] Instance Codec_IdempotencyKey : Codec IdempotencyKey.
Proof.
  refine {| encode_doc := DIdempotencyKey;
            decode_doc d := match d with DIdempotencyKey a => Some a | _ => None end |};
    [done | intros []; simpl; congruence].
Defined.
#[export] Instance Codec_idempotencyTaskIndex : Codec idempotencyTaskIndex.
Proof.
  refine {| encode_doc := DIdempotencyTaskIndex;
            decode_doc d := match d with DIdempotencyTaskIndex a => Some a | _ => None end |};
    [done | intros []; simpl; congruence].
Defined.
#[export] Instance Codec_User : Codec User.
Proof.
  refine {| encode_doc := DUser;
            decode_doc d := match d with DUser a => Some a | _ => None end |};
    [done | intros []; simpl; congruence].
Defined.
#[export] Instance Codec_ApiToken : Codec ApiToken.
Proof.
  refine {| encode_doc := DApiToken;
            decode_doc d := match d with DApiToken a => Some a | _ => None end |};
    [done | intros []; simpl; congruence].
Defined.
#[export] Instance Codec_RefreshToken : Codec RefreshToken.
Proof.
  refine {| encode_doc := DRefreshToken;
            decode_doc d := match d with DRefreshToken a => Some a | _ => None end |};
    [done | intros []; simpl; congruence].
Defined.
#[export] Instance Codec_familyBarrier : Codec familyBarrier.
Proof.
  refine {| encode_doc := DFamilyBarrier;
            decode_doc d := match d with DFamilyBarrier a => Some a | _ => None end |};
    [done | intros []; simpl; congruence].
Defined.
#[export] Instance Codec_StoragePool : Codec StoragePool.
Proof.
  refine {| encode_doc := DStoragePool;
            decode_doc d := match d with DStoragePool a => Some a | _ => None end |};
    [done | intros []; simpl; congruence].
Defined.
#[export] Instance Codec_AgentWireguard : Codec AgentWireguard.
Proof.
  refine {| encode_doc := DAgentWireguard;
            decode_doc d := match d with DAgentWireguard a => Some a | _ => None end |};
    [done | intros []; simpl; congruence].
Defined.
#[export] Instance Codec_NetworkNodeStatus : Codec NetworkNodeStatus.
Proof.
  refine {| encode_doc := DNetworkNodeStatus;
            decode_doc d := match d with DNetworkNodeStatus a => Some a | _ => None end |};
    [done | intros []; simpl; congruence].
Defined.
