(* ===== verification/Float64.v ===== *)
(** * IEEE-754 binary64 arithmetic as Go's [float64]

    Go's [float64] is IEEE-754 binary64 with round-to-nearest-even, which the
    Standard Library specifies bit-exactly in [SpecFloat] for precision 53 and
    maximal exponent 1024.  The scheduler compares, multiplies and divides
    [float64] values; this file gives those operations Go's names and proves
    the order facts the placement score needs: on values that are not NaN the
    comparison is a strict weak order. *)

From Stdlib Require Import SpecFloat.
From S2P Require Import Prelude.
Local Open Scope Z_scope.

Definition float64 := spec_float.

(** Conversion of an integer to [float64] (correctly rounded). *)
Definition f64_of_Z (z : Z) : float64 := binary_normalize 53 1024 z 0 false.

Definition f64_add : float64 → float64 → float64 := SFadd 53 1024.
Definition f64_sub : float64 → float64 → float64 := SFsub 53 1024.
Definition f64_mul : float64 → float64 → float64 := SFmul 53 1024.
Definition f64_div : float64 → float64 → float64 := SFdiv 53 1024.

Definition f64_lt (x y : float64) : bool := SFltb x y.
Definition f64_le (x y : float64) : bool := SFleb x y.
(** Go's [==]; [!=] is its negation, so [NaN != NaN] holds. *)
Definition f64_eq (x y : float64) : bool := SFeqb x y.

Definition f64_is_nan (x : float64) : bool :=
  match x with S754_nan => true | _ => false end.

Definition f64_signbit (x : float64) : bool :=
  match x with
  | S754_zero s | S754_infinity s | S754_finite s _ _ => s
  | S754_nan => false
  end.

(** [math.Min]. *)
Definition f64_min (x y : float64) : float64 :=
  match x, y with
  | S754_infinity true, _ | _, S754_infinity true => S754_infinity true
  | S754_nan, _ | _, S754_nan => S754_nan
  | _, _ =>
    if f64_eq x (S754_zero false) && f64_eq x y
    then (if f64_signbit x then x else y)
    else if f64_lt x y then x else y
  end.

(** The integer part of a finite value, truncated toward zero. *)
Definition f64_trunc (x : float64) : option Z :=
  match x with
  | S754_zero _ => Some 0
  | S754_finite s m e =>
      let a := if 0 <=? e then Z.pos m * 2 ^ e else Z.pos m / 2 ^ (- e) in
      Some (if s then - a else a)
  | _ => None
  end.

(** The conversion [int64(x)].  The language defines it when the truncated
    value is representable and leaves the result to the implementation
    otherwise; [undef] is that implementation-defined result. *)
Definition f64_to_i64 (undef : float64 → Z) (x : float64) : Z :=
  match f64_trunc x with
  | Some z => if (- 2 ^ 63 <=? z) && (z <=? max_i64) then z else undef x
  | None => undef x
  end.

(** ** The order of [float64] values that are not NaN

    A value that is not NaN is ranked by a triple (class, exponent, mantissa)
    compared lexicographically; [SFcompare] is that comparison. *)
Definition f64_rank (x : float64) : Z * Z * Z :=
  match x with
  | S754_infinity true => (-2, 0, 0)
  | S754_finite true m e => (-1, - e, - Z.pos m)
  | S754_zero _ | S754_nan => (0, 0, 0)
  | S754_finite false m e => (1, e, Z.pos m)
  | S754_infinity false => (2, 0, 0)
  end.

Definition rank_lt (a b : Z * Z * Z) : Prop :=
  let '(a1, a2, a3) := a in
  let '(b1, b2, b3) := b in
  a1 < b1 ∨ (a1 = b1 ∧ (a2 < b2 ∨ (a2 = b2 ∧ a3 < b3))).

Lemma f64_compare_rank x y :
  f64_is_nan x = false → f64_is_nan y = false →
  match SFcompare x y with
  | Some Lt => rank_lt (f64_rank x) (f64_rank y)
  | Some Eq => f64_rank x = f64_rank y
  | Some Gt => rank_lt (f64_rank y) (f64_rank x)
  | None => False
  end.
Proof.
  destruct x as [[]|[]| |[] m e], y as [[]|[]| |[] m' e']; simpl; intros; try done; try lia.
  all: destruct (Z.compare_spec e e'); subst; try (simpl; lia).
  all: change (Pos.compare_cont Eq m m') with (Pos.compare m m');
    destruct (Pos.compare_spec m m'); simpl; subst; first [done | lia].
Qed.

Lemma f64_lt_rank x y :
  f64_is_nan x = false → f64_is_nan y = false →
  f64_lt x y = true ↔ rank_lt (f64_rank x) (f64_rank y).
Proof.
  intros Hx Hy. pose proof (f64_compare_rank x y Hx Hy) as H.
  unfold f64_lt, SFltb. destruct (SFcompare x y) as [[]|]; [..|done].
  - rewrite H. destruct (f64_rank y) as [[]]. split; [done|]. simpl. lia.
  - done.
  - split; [done|].
    destruct (f64_rank x) as [[]], (f64_rank y) as [[]]. simpl in *. lia.
Qed.

Lemma f64_eq_rank x y :
  f64_is_nan x = false → f64_is_nan y = false →
  f64_eq x y = true ↔ f64_rank x = f64_rank y.
Proof.
  intros Hx Hy. pose proof (f64_compare_rank x y Hx Hy) as H.
  unfold f64_eq, SFeqb. destruct (SFcompare x y) as [[]|]; [..|done].
  - done.
  - split; [done|]. intros E. rewrite E in H. destruct (f64_rank y) as [[]]. simpl in H. lia.
  - split; [done|]. intros E. rewrite E in H. destruct (f64_rank y) as [[]]. simpl in H. lia.
Qed.

Lemma rank_lt_irrefl a : ¬ rank_lt a a.
Proof. destruct a as [[]]. simpl. lia. Qed.

Lemma rank_lt_trans a b c : rank_lt a b → rank_lt b c → rank_lt a c.
Proof. destruct a as [[]], b as [[]], c as [[]]. simpl. lia. Qed.

Lemma rank_trichotomy a b : rank_lt a b ∨ a = b ∨ rank_lt b a.
Proof.
  destruct a as [[a1 a2] a3], b as [[b1 b2] b3]. simpl.
  destruct (Z.lt_trichotomy a1 b1) as [|[->|]]; [lia| |lia].
  destruct (Z.lt_trichotomy a2 b2) as [|[->|]]; [lia| |lia].
  destruct (Z.lt_trichotomy a3 b3) as [|[->|]]; [lia|tauto|lia].
Qed.
