(* ===== verification/Scheduler.v ===== *)
(** * VM placement: internal/scheduler/placement.go

    The scheduler picks a (node, pool instance) pair for a VM: it lists the
    eligible pool instances, applies the optional node hint and the migration
    source exclusion, keeps the candidates with enough CPU, memory and disk,
    keeps those on which every requested network is ready, scores what is left
    and returns the candidate with the lowest score, ties broken by node name.

    A Go panic (a nil dereference, an index out of range) is [Err ErrPanic];
    [no_panic] below shows it is never reached. *)

From Stdlib Require Import SpecFloat.
From S2P Require Import Prelude Models Float64.
Local Open Scope Z_scope.

Module Scheduler.

(** ** Data *)

(** The columns of [node_effective_availability] the scheduler reads. *)
Record NodeEffectiveAvailability := MkNEA {
  nea_ID : uuid;
  nea_Name : string;
  nea_Status : NodeStatus;
  nea_CordonedAt : option time;
  nea_CPUCoresTotal : option Z;
  nea_CPUCoresAvailable : option Z;
  nea_CPUCoresEffective : option Z;
  nea_MemoryTotalMib : option Z;
  nea_MemoryAvailableMib : option Z;
  nea_MemoryEffectiveMib : option Z;
  nea_Capabilities : bytes;
  nea_MemoryPressureSince : option time;
  nea_SystemDiskPressureSince : option time
}.

(** The columns of [pool_effective_capacity] the scheduler reads. *)
Record PoolEffectiveCapacity := MkPEC {
  pec_ID : uuid;
  pec_NodeID : uuid;
  pec_Name : string;
  pec_Type : string;
  pec_CapacityBytes : option Z;
  pec_AvailableBytes : option Z;
  pec_AvailableBytesEffective : option Z;
  pec_DiskPressureSince : option time
}.

(** One row of the candidate queries. *)
Record PoolRow := MkPoolRow {
  row_Pool : PoolEffectiveCapacity;
  row_Node : NodeEffectiveAvailability
}.

Record PlacementRequest := MkPlacementRequest {
  req_PoolName : string;
  req_NodeHint : option string;
  req_ExcludeNodeID : option uuid;
  req_VCPUs : Z;
  req_MemoryMiB : Z;
  req_DiskBytes : Z;
  req_NetworkIDs : list uuid
}.

Record PlacementDecision := MkPlacementDecision {
  dec_Node : NodeEffectiveAvailability;
  dec_PoolInstance : PoolEffectiveCapacity
}.

Record ResourceConfig := MkResourceConfig {
  rc_Enabled : bool;
  rc_OvercommitRatio : float64
}.

Record MemoryResourceConfig := MkMemoryResourceConfig {
  mrc_Enabled : bool;
  mrc_OvercommitRatio : float64;
  mrc_OvercommitZramFloorMib : Z;
  mrc_OvercommitZramConfidence : float64
}.

Record ResourcesConfig := MkResourcesConfig {
  cfg_CPU : ResourceConfig;
  cfg_Memory : MemoryResourceConfig;
  cfg_Disk : ResourceConfig
}.

Record PlacementConfig := MkPlacementConfig {
  pc_Algorithm : string;
  pc_Resources : ResourcesConfig
}.

Definition AlgorithmResourceAware : string := "resource_aware".
Definition AlgorithmLeastVMCount : string := "least_vm_count".

Record NodeUtilization := MkNodeUtilization {
  nu_Node : string;
  nu_Pool : string;
  nu_CPUUsed : Z;
  nu_CPUTotal : Z;
  nu_MemUsedMiB : Z;
  nu_MemTotalMiB : Z;
  nu_DiskUsedBytes : Z;
  nu_DiskTotalBytes : Z;
  nu_OvercommitEligible : bool;
  nu_MemOvercommitHeadroomMiB : Z
}.
#[export] Instance NodeUtilization_eq_dec : EqDecision NodeUtilization.
Proof. solve_decision. Defined.

Record InsufficientResourcesDetail := MkInsufficientResourcesDetail {
  ird_RequiredCPU : Z;
  ird_RequiredMemMiB : Z;
  ird_RequiredDiskBytes : Z;
  ird_CandidatesConsidered : nat;
  ird_CandidatesEligible : nat;
  ird_NodeUtilization : list NodeUtilization
}.
#[export] Instance InsufficientResourcesDetail_eq_dec : EqDecision InsufficientResourcesDetail.
Proof. solve_decision. Defined.

Record PressuredNode := MkPressuredNode {
  pn_Node : string;
  pn_Pool : string;
  pn_Conditions : list string;
  pn_MemoryPressureSince : option time;
  pn_SystemDiskPressureSince : option time;
  pn_DiskPressureSince : option time
}.
#[export] Instance PressuredNode_eq_dec : EqDecision PressuredNode.
Proof. solve_decision. Defined.
#[export] Instance eta_PressuredNode : Eta PressuredNode := λ e,
  MkPressuredNode (pn_Node e) (pn_Pool e) (pn_Conditions e) (pn_MemoryPressureSince e)
    (pn_SystemDiskPressureSince e) (pn_DiskPressureSince e).

Record NodePressureDetail := MkNodePressureDetail { npd_Nodes : list PressuredNode }.
#[export] Instance NodePressureDetail_eq_dec : EqDecision NodePressureDetail.
Proof. solve_decision. Defined.

Record UnreadyNetwork := MkUnreadyNetwork {
  un_NetworkID : uuid;
  un_Status : string
}.
#[export] Instance UnreadyNetwork_eq_dec : EqDecision UnreadyNetwork.
Proof. solve_decision. Defined.

Record NetworkUnreadyNode := MkNetworkUnreadyNode {
  nun_Node : string;
  nun_Networks : list UnreadyNetwork
}.
#[export] Instance NetworkUnreadyNode_eq_dec : EqDecision NetworkUnreadyNode.
Proof. solve_decision. Defined.

Record NetworkUnreadyDetail := MkNetworkUnreadyDetail { nud_Nodes : list NetworkUnreadyNode }.
#[export] Instance NetworkUnreadyDetail_eq_dec : EqDecision NetworkUnreadyDetail.
Proof. solve_decision. Defined.

(** ** Errors

    The error chains [SchedulePlacement] returns, by what handlers can extract
    from them: the sentinel at the end of the chain and the attached detail. *)
Inductive sentinel :=
| ErrPoolNotFound | ErrPoolNotOnNode | ErrNoEligibleNodes | ErrInsufficientResources
| ErrNodeHintIsUUID | ErrUnknownAlgorithm.
#[export] Instance sentinel_eq_dec : EqDecision sentinel.
Proof. solve_decision. Defined.

Inductive sched_error :=
| ErrSentinel (s : sentinel)
| insufficientResourcesError (d : InsufficientResourcesDetail)
| nodePressureError (d : NodePressureDetail)
| networkUnreadyError (d : NetworkUnreadyDetail)
| ErrQuery (what : string)
| ErrPanic.
#[export] Instance sched_error_eq_dec : EqDecision sched_error.
Proof. solve_decision. Defined.

(** [errors.Is] on the sentinels, following the [Unwrap] methods. *)
Definition errors_is (e : sched_error) (s : sentinel) : bool :=
  match e with
  | ErrSentinel s' => bool_decide (s' = s)
  | insufficientResourcesError _ => bool_decide (ErrInsufficientResources = s)
  | nodePressureError _ | networkUnreadyError _ => bool_decide (ErrNoEligibleNodes = s)
  | ErrQuery _ | ErrPanic => false
  end.

Definition ExtractInsufficientResources (e : sched_error)
    : option InsufficientResourcesDetail * bool :=
  if negb (errors_is e ErrInsufficientResources) then (None, false)
  else match e with
       | insufficientResourcesError d => (Some d, true)
       | _ => (None, true)
       end.

Definition ExtractNodePressureDetail (e : sched_error) : option NodePressureDetail * bool :=
  match e with nodePressureError d => (Some d, true) | _ => (None, false) end.

Definition ExtractNetworkUnreadyDetail (e : sched_error) : option NetworkUnreadyDetail * bool :=
  match e with networkUnreadyError d => (Some d, true) | _ => (None, false) end.

(** ** The query surface

    The subset of the store the scheduler reads.  [m] is where a query runs: a query
    returns an error or a list of rows. *)
Record Querier (m : Type → Type) := MkQuerier {
  ListEligiblePoolsByName : string → m (result string (list PoolRow));
  ListMemoryPressuredCandidatesByName : string → m (result string (list PoolRow));
  ListSystemDiskPressuredCandidatesByName : string → m (result string (list PoolRow));
  ListDiskPressuredPoolsByName : string → m (result string (list PoolRow));
  ListStoragePoolsByName : string → m (result string (list StoragePool));
  CountRunningVMsByNode : uuid → m (result string Z);
  ListNetworkNodeStatusByNode : uuid → m (result string (list NetworkNodeStatus))
}.
Arguments MkQuerier {m}.
Arguments ListEligiblePoolsByName {m}.
Arguments ListMemoryPressuredCandidatesByName {m}.
Arguments ListSystemDiskPressuredCandidatesByName {m}.
Arguments ListDiskPressuredPoolsByName {m}.
Arguments ListStoragePoolsByName {m}.
Arguments CountRunningVMsByNode {m}.
Arguments ListNetworkNodeStatusByNode {m}.

(** Queries that are answered at once. *)
Definition idM (A : Type) : Type := A.
#[export] Instance idM_ret : MRet idM := λ A a, a.
#[export] Instance idM_bind : MBind idM := λ A B f a, f a.

Section Effects.
Context {m : Type → Type} `{MRet m, MBind m}.

(** [v, err := x; if err != nil { return err }]. *)
Definition bind_ok {E A B} (f : A → m (result E B)) (x : m (result E A)) : m (result E B) :=
  x ≫= λ r, match r with Ok a => f a | Err e => mret (Err e) end.

(** A query error wrapped by [fmt.Errorf]. *)
Definition query {A} (x : m (result string A)) : m (result sched_error A) :=
  x ≫= λ r, mret (match r with Ok a => Ok a | Err s => Err (ErrQuery s) end).

(** A loop that appends one result per element and stops at the first error. *)
Fixpoint map_ok {E A B} (f : A → m (result E B)) (l : list A) : m (result E (list B)) :=
  match l with
  | [] => mret (Ok [])
  | x :: l => bind_ok (λ y, bind_ok (λ ys, mret (Ok (y :: ys))) (map_ok f l)) (f x)
  end.
End Effects.

Declare Scope sched_scope.
Delimit Scope sched_scope with sched.
Notation "x ⇐ y ; z" := (bind_ok (λ x, z) y)
  (at level 20, y at level 100, z at level 200, only parsing) : sched_scope.
Notation "' x ⇐ y ; z" := (bind_ok (λ x, z) y)
  (at level 20, x pattern, y at level 100, z at level 200, only parsing) : sched_scope.
Local Open Scope sched_scope.

(** ** The pipeline *)

Record candidate := MkCandidate {
  cand_row : PoolRow;
  cand_useCountFallback : bool
}.

Record scoredCandidate := MkScoredCandidate {
  sc_candidate : candidate;
  sc_score : float64
}.

Definition cand_node (c : candidate) : NodeEffectiveAvailability := row_Node (cand_row c).
Definition sc_name (s : scoredCandidate) : string := nea_Name (cand_node (sc_candidate s)).

Definition networkStatusReady : string := "ready".

Definition excludeNode (rows : list PoolRow) (excludeID : uuid) : list PoolRow :=
  filter (λ r, nea_ID (row_Node r) ≠ excludeID) rows.

Definition candidateHasMetrics (r : PoolRow) (req : PlacementRequest)
    (cfg : ResourcesConfig) : bool :=
  let n := row_Node r in
  let p := row_Pool r in
  if rc_Enabled (cfg_CPU cfg) &&
     (bool_decide (nea_CPUCoresTotal n = None) || bool_decide (nea_CPUCoresAvailable n = None)
      || bool_decide (nea_CPUCoresEffective n = None))
  then false
  else if mrc_Enabled (cfg_Memory cfg) &&
     (bool_decide (nea_MemoryTotalMib n = None) || bool_decide (nea_MemoryAvailableMib n = None)
      || bool_decide (nea_MemoryEffectiveMib n = None))
  then false
  else if (rc_Enabled (cfg_Disk cfg) && (0 <? req_DiskBytes req)) &&
     (bool_decide (pec_CapacityBytes p = None) || bool_decide (pec_AvailableBytes p = None)
      || bool_decide (pec_AvailableBytesEffective p = None))
  then false
  else true.

Definition clampInt32 (v : Z) : Z :=
  if max_i32 <? v then max_i32 else if v <? 0 then 0 else i32 v.

(** [(used + need) / (total * ratio)], [used] floored at zero. *)
Definition computeUtil (total effective need : Z) (ratio : float64) : float64 :=
  if (total <=? 0) || f64_le ratio (f64_of_Z 0) then f64_of_Z 0
  else
    let used := i64 (total - effective) in
    let used := if used <? 0 then 0 else used in
    f64_div (f64_of_Z (i64 (used + need))) (f64_mul (f64_of_Z total) ratio).

Definition computeUtilCap (total effective need capacity : Z) : float64 :=
  if (total <=? 0) || (capacity <=? 0) then f64_of_Z 0
  else
    let used := i64 (total - effective) in
    let used := if used <? 0 then 0 else used in
    f64_div (f64_of_Z (i64 (used + need))) (f64_of_Z capacity).

(** The comparator of [pickWinner]: lower score first, then lower-cased name. *)
Definition scored_less (a b : scoredCandidate) : bool :=
  if negb (f64_eq (sc_score a) (sc_score b)) then f64_lt (sc_score a) (sc_score b)
  else str_ltb (to_lower (sc_name a)) (to_lower (sc_name b)).

(** [scored[0]] after the stable sort; [None] is the index panic. *)
Definition pickWinner (scored : list scoredCandidate) : option scoredCandidate :=
  head (stable_sort scored_less scored).

(** ** Pressure diagnosis *)

Definition appendUnique (out : list string) (s : string) : list string :=
  if bool_decide (s ∈ out) then out else out ++ [s].

Definition pressure_key (e : PressuredNode) : string * string := (pn_Node e, pn_Pool e).

(** [addEntry] followed by the update of the entry it returns: the map of
    pointers and the order slice of the source are one list in order. *)
Fixpoint pressure_upsert (k : string * string) (f : PressuredNode → PressuredNode)
    (l : list PressuredNode) : list PressuredNode :=
  match l with
  | [] => [f (MkPressuredNode k.1 k.2 [] None None None)]
  | e :: l => if bool_decide (pressure_key e = k) then f e :: l
              else e :: pressure_upsert k f l
  end.

(** The first non-nil timestamp wins. *)
Definition keep_first (old new : option time) : option time :=
  match old with Some _ => old | None => new end.

Definition add_memory_pressure (l : list PressuredNode) (r : PoolRow) : list PressuredNode :=
  let n := row_Node r in
  pressure_upsert (nea_Name n, "")
    (λ e, e <| pn_Conditions := appendUnique (pn_Conditions e) "memory_pressure" |>
            <| pn_MemoryPressureSince :=
                 keep_first (pn_MemoryPressureSince e) (nea_MemoryPressureSince n) |>) l.

Definition add_system_disk_pressure (l : list PressuredNode) (r : PoolRow) : list PressuredNode :=
  let n := row_Node r in
  pressure_upsert (nea_Name n, "")
    (λ e, e <| pn_Conditions := appendUnique (pn_Conditions e) "system_disk_pressure" |>
            <| pn_SystemDiskPressureSince :=
                 keep_first (pn_SystemDiskPressureSince e) (nea_SystemDiskPressureSince n) |>) l.

Definition add_disk_pressure (l : list PressuredNode) (r : PoolRow) : list PressuredNode :=
  let p := row_Pool r in
  pressure_upsert (nea_Name (row_Node r), pec_Name p)
    (λ e, e <| pn_Conditions := appendUnique (pn_Conditions e) "disk_pressure" |>
            <| pn_DiskPressureSince :=
                 keep_first (pn_DiskPressureSince e) (pec_DiskPressureSince p) |>) l.

Definition buildNodePressureDetail (mem sysDisk poolDisk : list PoolRow) : NodePressureDetail :=
  let l := foldl add_memory_pressure [] mem in
  let l := foldl add_system_disk_pressure l sysDisk in
  let l := foldl add_disk_pressure l poolDisk in
  MkNodePressureDetail l.

(** Why the eligible set is empty. *)
Definition diagnoseEmptyEligible {m} `{MRet m, MBind m} {A} (q : Querier m) (poolName : string)
    : m (result sched_error A) :=
  pools ⇐ query (ListStoragePoolsByName q poolName);
  match pools with
  | [] => mret (Err (ErrSentinel ErrPoolNotFound))
  | _ :: _ =>
    mem ⇐ query (ListMemoryPressuredCandidatesByName q poolName);
    sysDisk ⇐ query (ListSystemDiskPressuredCandidatesByName q poolName);
    poolDisk ⇐ query (ListDiskPressuredPoolsByName q poolName);
    mret (Err (if (0 <? length mem + length sysDisk + length poolDisk)%nat
               then nodePressureError (buildNodePressureDetail mem sysDisk poolDisk)
               else ErrSentinel ErrNoEligibleNodes))
  end.

(** ** Network readiness *)

(** The map [byNetwork] built from the status records, later records winning. *)
Definition network_status_map (statuses : list NetworkNodeStatus) : gmap uuid string :=
  foldl (λ m st, <[nns_NetworkID st := nns_ReconciliationStatus st]> m) ∅ statuses.

Definition unready_networks (byNetwork : gmap uuid string) (nets : list uuid)
    : list UnreadyNetwork :=
  omap (λ n,
    match byNetwork !! n with
    | None => Some (MkUnreadyNetwork n "missing")
    | Some st => if bool_decide (st = networkStatusReady) then None
                 else Some (MkUnreadyNetwork n st)
    end) nets.

Fixpoint filterByNetworkReadiness {m} `{MRet m, MBind m} (q : Querier m) (fits : list candidate) (nets : list uuid)
    : m (result sched_error (list candidate * list NetworkUnreadyNode)) :=
  match fits with
  | [] => mret (Ok ([], []))
  | c :: fits =>
    statuses ⇐ query (ListNetworkNodeStatusByNode q (nea_ID (cand_node c)));
    let unready := unready_networks (network_status_map statuses) nets in
    '(survivors, detail) ⇐ filterByNetworkReadiness q fits nets;
    mret (Ok (match unready with
              | [] => (c :: survivors, detail)
              | _ :: _ => (survivors, MkNetworkUnreadyNode (nea_Name (cand_node c)) unready :: detail)
              end))
  end.

Definition applyNetworkFilter {m} `{MRet m, MBind m} (q : Querier m) (fits : list candidate) (req : PlacementRequest)
    : m (result sched_error (list candidate)) :=
  match req_NetworkIDs req with
  | [] => mret (Ok fits)
  | nets =>
    '(survivors, detail) ⇐ filterByNetworkReadiness q fits nets;
    mret (match survivors with
          | [] => Err (networkUnreadyError (MkNetworkUnreadyDetail detail))
          | _ :: _ => Ok survivors
          end)
  end.

Section Placement.
(** [uuid.Parse] of the uuid library; the decoding of the
    [compressed_swap.size_mib] member of a capabilities blob ([None] is a
    decoding error, [Some None] a blob without the member); the
    implementation-defined result of an [int64] conversion out of range. *)
Context (uuid_parse : string → option uuid)
        (unmarshal_caps : bytes → option (option Z))
        (i64_undef : float64 → Z).

Definition filterByNodeHint (rows : list PoolRow) (hint : string)
    : result sched_error (list PoolRow) :=
  match uuid_parse hint with
  | Some _ => Err (ErrSentinel ErrNodeHintIsUUID)
  | None =>
    match list_find (λ r, Is_true (equal_fold (nea_Name (row_Node r)) hint)) rows with
    | Some (_, r) => Ok [r]
    | None => Err (ErrSentinel ErrPoolNotOnNode)
    end
  end.

Definition parseCompressedSwapSizeMib (caps : bytes) : option Z :=
  match caps with
  | EmptyString => None
  | _ => match unmarshal_caps caps with
         | None | Some None => None
         | Some (Some sz) => Some sz
         end
  end.

Definition MemOvercommitHeadroom (n : NodeEffectiveAvailability)
    (cfg : MemoryResourceConfig) : Z :=
  if negb (mrc_Enabled cfg) || f64_le (mrc_OvercommitRatio cfg) (f64_of_Z 1) then 0
  else match nea_MemoryTotalMib n with
  | None => 0
  | Some total =>
    match parseCompressedSwapSizeMib (nea_Capabilities n) with
    | None => 0
    | Some sizeMib =>
      if sizeMib <? mrc_OvercommitZramFloorMib cfg then 0
      else
        let operatorCeil :=
          f64_mul (f64_of_Z total) (f64_sub (mrc_OvercommitRatio cfg) (f64_of_Z 1)) in
        let zramCeil := f64_mul (f64_of_Z sizeMib) (mrc_OvercommitZramConfidence cfg) in
        let headroom := f64_min operatorCeil zramCeil in
        if f64_lt headroom (f64_of_Z 0) then 0 else f64_to_i64 i64_undef headroom
    end
  end.

(** The per-resource gate; [None] is the nil dereference of a metric column. *)
Definition fits_cpu (r : PoolRow) (req : PlacementRequest) (cfg : ResourceConfig)
    : option bool :=
  if rc_Enabled cfg then
    eff ← nea_CPUCoresEffective (row_Node r);
    let avail := f64_mul (f64_of_Z eff) (rc_OvercommitRatio cfg) in
    Some (negb (f64_lt avail (f64_of_Z (req_VCPUs req))))
  else Some true.

Definition fits_memory (r : PoolRow) (req : PlacementRequest) (cfg : MemoryResourceConfig)
    : option bool :=
  if mrc_Enabled cfg then
    eff ← nea_MemoryEffectiveMib (row_Node r);
    let headroom := MemOvercommitHeadroom (row_Node r) cfg in
    let avail := f64_add (f64_of_Z eff) (f64_of_Z headroom) in
    Some (negb (f64_lt avail (f64_of_Z (req_MemoryMiB req))))
  else Some true.

Definition fits_disk (r : PoolRow) (req : PlacementRequest) (cfg : ResourceConfig)
    : option bool :=
  if rc_Enabled cfg && (0 <? req_DiskBytes req) then
    eff ← pec_AvailableBytesEffective (row_Pool r);
    let avail := f64_mul (f64_of_Z eff) (rc_OvercommitRatio cfg) in
    Some (negb (f64_lt avail (f64_of_Z (req_DiskBytes req))))
  else Some true.

Definition fitsAllResources (r : PoolRow) (req : PlacementRequest) (cfg : ResourcesConfig)
    : option bool :=
  cpu ← fits_cpu r req (cfg_CPU cfg);
  if negb cpu then Some false else
  mem ← fits_memory r req (cfg_Memory cfg);
  if negb mem then Some false else
  disk ← fits_disk r req (cfg_Disk cfg);
  if negb disk then Some false else Some true.

(** [None] is the panic of [fitsAllResources]. *)
Fixpoint filterByResources (rows : list PoolRow) (req : PlacementRequest)
    (cfg : ResourcesConfig) : option (list candidate * list candidate) :=
  match rows with
  | [] => Some ([], [])
  | r :: rows =>
    if negb (candidateHasMetrics r req cfg) then
      '(fits, rejected) ← filterByResources rows req cfg;
      Some (MkCandidate r true :: fits, rejected)
    else
      ok ← fitsAllResources r req cfg;
      '(fits, rejected) ← filterByResources rows req cfg;
      if negb ok then Some (fits, MkCandidate r false :: rejected)
      else Some (MkCandidate r false :: fits, rejected)
  end.

Definition render_one (memCfg : MemoryResourceConfig) (c : candidate) : NodeUtilization :=
  let n := cand_node c in
  let p := row_Pool (cand_row c) in
  let cpuTotal := default 0 (nea_CPUCoresTotal n) in
  let cpuEff := default 0 (nea_CPUCoresEffective n) in
  let memTotal := default 0 (nea_MemoryTotalMib n) in
  let memEff := default 0 (nea_MemoryEffectiveMib n) in
  let diskTotal := default 0 (pec_CapacityBytes p) in
  let diskEff := default 0 (pec_AvailableBytesEffective p) in
  let diskUsed := i64 (diskTotal - diskEff) in
  let diskUsed := if diskUsed <? 0 then 0 else diskUsed in
  let headroom := MemOvercommitHeadroom n memCfg in
  {| nu_Node := nea_Name n;
     nu_Pool := pec_Name p;
     nu_CPUUsed := i32 (cpuTotal - cpuEff);
     nu_CPUTotal := cpuTotal;
     nu_MemUsedMiB := i64 (memTotal - memEff);
     nu_MemTotalMiB := memTotal;
     nu_DiskUsedBytes := diskUsed;
     nu_DiskTotalBytes := diskTotal;
     nu_OvercommitEligible := (0 <? headroom);
     nu_MemOvercommitHeadroomMiB := headroom |}.

Definition renderUtilization (rejected : list candidate) (memCfg : MemoryResourceConfig)
    : list NodeUtilization := map (render_one memCfg) rejected.

(** The sum of the utilization terms and the number of terms. *)
Definition utilizationScore (r : PoolRow) (req : PlacementRequest) (cfg : ResourcesConfig)
    : float64 * Z :=
  let n := row_Node r in
  let p := row_Pool r in
  let sum := f64_of_Z 0 in
  let '(sum, factors) :=
    match rc_Enabled (cfg_CPU cfg), nea_CPUCoresTotal n, nea_CPUCoresEffective n with
    | true, Some total, Some eff =>
      (f64_add sum (computeUtil total eff (req_VCPUs req) (rc_OvercommitRatio (cfg_CPU cfg))), 1)
    | _, _, _ => (sum, 0)
    end in
  let '(sum, factors) :=
    match mrc_Enabled (cfg_Memory cfg), nea_MemoryTotalMib n, nea_MemoryEffectiveMib n with
    | true, Some total, Some eff =>
      let headroom := MemOvercommitHeadroom n (cfg_Memory cfg) in
      (f64_add sum (computeUtilCap total eff (req_MemoryMiB req) (i64 (total + headroom))),
       factors + 1)
    | _, _, _ => (sum, factors)
    end in
  match rc_Enabled (cfg_Disk cfg) && (0 <? req_DiskBytes req),
        pec_CapacityBytes p, pec_AvailableBytesEffective p with
  | true, Some total, Some eff =>
    (f64_add sum (computeUtil total eff (req_DiskBytes req) (rc_OvercommitRatio (cfg_Disk cfg))),
     factors + 1)
  | _, _, _ => (sum, factors)
  end.

Section Pipeline.
Context {m : Type → Type} `{MRet m, MBind m}.

(** The score of one candidate under [resource_aware]. *)
Definition score_resource_aware_one (q : Querier m) (req : PlacementRequest)
    (cfg : ResourcesConfig) (c : candidate) : m (result sched_error scoredCandidate) :=
  let by_count :=
    count ⇐ query (CountRunningVMsByNode q (nea_ID (cand_node c)));
    mret (Ok (MkScoredCandidate c (f64_add (f64_of_Z 1) (f64_of_Z count)))) in
  if cand_useCountFallback c then by_count
  else
    let '(score, factors) := utilizationScore (cand_row c) req cfg in
    if factors =? 0 then by_count
    else mret (Ok (MkScoredCandidate c (f64_div score (f64_of_Z factors)))).

Definition scoreResourceAware (q : Querier m) (fits : list candidate) (req : PlacementRequest)
    (cfg : ResourcesConfig) : m (result sched_error (list scoredCandidate)) :=
  map_ok (score_resource_aware_one q req cfg) fits.

Definition scoreLeastVMCount (q : Querier m) (fits : list candidate)
    : m (result sched_error (list scoredCandidate)) :=
  map_ok (λ c,
    count ⇐ query (CountRunningVMsByNode q (nea_ID (cand_node c)));
    mret (Ok (MkScoredCandidate c (f64_of_Z count)))) fits.

Definition scoreCandidates (q : Querier m) (fits : list candidate) (req : PlacementRequest)
    (cfg : PlacementConfig) (algorithm : string)
    : m (result sched_error (list scoredCandidate)) :=
  if bool_decide (algorithm = AlgorithmResourceAware) then
    scoreResourceAware q fits req (pc_Resources cfg)
  else if bool_decide (algorithm = AlgorithmLeastVMCount) then scoreLeastVMCount q fits
  else mret (Err (ErrSentinel ErrUnknownAlgorithm)).

Definition effective_algorithm (cfg : PlacementConfig) : string :=
  if bool_decide (pc_Algorithm cfg = "") then AlgorithmResourceAware else pc_Algorithm cfg.

(** The hint and the exclusion, up to the resource filter. *)
Definition narrow_eligible (q : Querier m) (req : PlacementRequest)
    : m (result sched_error (list PoolRow)) :=
  eligible ⇐ query (ListEligiblePoolsByName q (req_PoolName req));
  match eligible with
  | [] => diagnoseEmptyEligible q (req_PoolName req)
  | _ :: _ =>
    eligible ⇐ mret (match req_NodeHint req with
                     | Some hint => filterByNodeHint eligible hint
                     | None => Ok eligible
                     end);
    match req_ExcludeNodeID req with
    | None => mret (Ok eligible)
    | Some ex =>
      match excludeNode eligible ex with
      | [] => diagnoseEmptyEligible q (req_PoolName req)
      | rows => mret (Ok rows)
      end
    end
  end.

Definition SchedulePlacement (q : Querier m) (req : PlacementRequest) (cfg : PlacementConfig)
    : m (result sched_error PlacementDecision) :=
  if bool_decide (req_PoolName req = "") then mret (Err (ErrSentinel ErrPoolNotFound))
  else
    let algorithm := effective_algorithm cfg in
    eligible ⇐ narrow_eligible q req;
    match filterByResources eligible req (pc_Resources cfg) with
    | None => mret (Err ErrPanic)
    | Some ([], rejected) =>
      mret (Err (insufficientResourcesError
        {| ird_RequiredCPU := clampInt32 (req_VCPUs req);
           ird_RequiredMemMiB := clampInt32 (req_MemoryMiB req);
           ird_RequiredDiskBytes := req_DiskBytes req;
           ird_CandidatesConsidered := length eligible;
           ird_CandidatesEligible := 0;
           ird_NodeUtilization :=
             renderUtilization rejected (cfg_Memory (pc_Resources cfg)) |}))
    | Some (fits, _) =>
      fits ⇐ applyNetworkFilter q fits req;
      scored ⇐ scoreCandidates q fits req cfg algorithm;
      mret (match pickWinner scored with
            | None => Err ErrPanic
            | Some winner =>
              Ok {| dec_Node := cand_node (sc_candidate winner);
                    dec_PoolInstance := row_Pool (cand_row (sc_candidate winner)) |}
            end)
    end.
End Pipeline.
End Placement.
End Scheduler.
