(* ===== verification/SchedulerProps.v ===== *)
(** * What placement guarantees

    The placement pipeline of [Scheduler] is compared with a declarative
    description of the nodes a request may land on: [viable] says when a row is
    acceptable, [row_score] what it scores.  The theorems state that the
    decision is viable and has the best score among the viable rows, that a
    placement is found whenever a viable row exists, that the panics of the
    source are unreachable, and what the error payloads contain. *)

From Stdlib Require Import SpecFloat.
From S2P Require Import Prelude Models Float64 Scheduler.
Import Scheduler.
Local Open Scope Z_scope.

Implicit Types q : Querier idM.

(** ** Queries answered at once

    What the pipeline computes then, as a function in [result]. *)
Section Pure.
Context (uuid_parse : string → option uuid)
        (unmarshal_caps : bytes → option (option Z))
        (i64_undef : float64 → Z).

Lemma bind_ok_pure {E A B} (f : A → result E B) (x : result E A) : bind_ok (m := idM) f x = x ≫= f.
Proof. by destruct x. Qed.

Lemma bind_ok_Ok {E A B} (f : A → result E B) (x : result E A) b :
  bind_ok (m := idM) f x = Ok b → ∃ a, x = Ok a ∧ f a = Ok b.
Proof. rewrite bind_ok_pure. apply result_bind_Ok. Qed.

Lemma map_ok_pure {E A B} (f : A → result E B) (l : list A) : map_ok (m := idM) f l = result_mapM f l.
Proof. induction l as [|x l IH]; [done|]. simpl. rewrite bind_ok_pure. destruct (f x); [|done]. simpl. by rewrite IH, bind_ok_pure. Qed.

Lemma filterByNetworkReadiness_pure q c fits nets :
  (filterByNetworkReadiness q (c :: fits) nets : result sched_error _) =
    (statuses ← (query (ListNetworkNodeStatusByNode q (nea_ID (cand_node c))) : result sched_error _);
     '(survivors, detail) ← (filterByNetworkReadiness q fits nets : result sched_error _);
     let unready := unready_networks (network_status_map statuses) nets in
     Ok (match unready with
         | [] => (c :: survivors, detail)
         | _ :: _ => (survivors, MkNetworkUnreadyNode (nea_Name (cand_node c)) unready :: detail)
         end)).
Proof. reflexivity. Qed.

Lemma applyNetworkFilter_pure q fits req :
  (applyNetworkFilter q fits req : result sched_error _) =
    match req_NetworkIDs req with
    | [] => Ok fits
    | nets =>
      '(survivors, detail) ← (filterByNetworkReadiness q fits nets : result sched_error _);
      match survivors with
      | [] => Err (networkUnreadyError (MkNetworkUnreadyDetail detail))
      | _ :: _ => Ok survivors
      end
    end.
Proof. reflexivity. Qed.

Lemma narrow_eligible_pure q req :
  (narrow_eligible uuid_parse q req : result sched_error _) =
    (eligible ← (query (ListEligiblePoolsByName q (req_PoolName req)) : result sched_error _);
     match eligible with
     | [] => (diagnoseEmptyEligible q (req_PoolName req) : result sched_error _)
     | _ :: _ =>
       eligible ← match req_NodeHint req with
                  | Some hint => filterByNodeHint uuid_parse eligible hint
                  | None => Ok eligible
                  end;
       match req_ExcludeNodeID req with
       | None => Ok eligible
       | Some ex =>
         match excludeNode eligible ex with
         | [] => (diagnoseEmptyEligible q (req_PoolName req) : result sched_error _)
         | rows => Ok rows
         end
       end
     end).
Proof. reflexivity. Qed.

(** The errors only [SchedulePlacement] itself builds; the stages return none
    of them. *)
Definition own_error (e : sched_error) : bool :=
  match e with insufficientResourcesError _ | ErrPanic => true | _ => false end.

(** The diagnosis of an empty list is an error of the stages. *)
Lemma diagnoseEmptyEligible_Err {A} q p : ∃ e, diagnoseEmptyEligible (A := A) q p = Err e ∧ own_error e = false.
Proof.
  unfold diagnoseEmptyEligible, query, bind_ok, mbind, mret, idM_bind, idM_ret.
  destruct (ListStoragePoolsByName q p) as [[|? ?]|]; [by eexists| |by eexists].
  destruct (ListMemoryPressuredCandidatesByName q p) as [mem|]; [|by eexists].
  destruct (ListSystemDiskPressuredCandidatesByName q p) as [sys|]; [|by eexists].
  destruct (ListDiskPressuredPoolsByName q p) as [disk|]; [|by eexists]. eexists. split; [reflexivity|]. by case_match.
Qed.

(** The winner among the candidates with enough resources. *)
Definition choose q (fits : list candidate) (req : PlacementRequest) (cfg : PlacementConfig)
    : result sched_error PlacementDecision :=
  fits ← (applyNetworkFilter q fits req : result sched_error _);
  scored ← (scoreCandidates unmarshal_caps i64_undef q fits req cfg (effective_algorithm cfg) : result sched_error _);
  match pickWinner scored with
  | None => Err ErrPanic
  | Some winner =>
    Ok {| dec_Node := cand_node (sc_candidate winner);
          dec_PoolInstance := row_Pool (cand_row (sc_candidate winner)) |}
  end.

Lemma SchedulePlacement_pure q req cfg :
  (SchedulePlacement uuid_parse unmarshal_caps i64_undef q req cfg : result sched_error _) =
    if bool_decide (req_PoolName req = "") then Err (ErrSentinel ErrPoolNotFound)
    else
      eligible ← (narrow_eligible uuid_parse q req : result sched_error _);
      match filterByResources unmarshal_caps i64_undef eligible req (pc_Resources cfg) with
      | None => Err ErrPanic
      | Some ([], rejected) =>
        Err (insufficientResourcesError
          {| ird_RequiredCPU := clampInt32 (req_VCPUs req);
             ird_RequiredMemMiB := clampInt32 (req_MemoryMiB req);
             ird_RequiredDiskBytes := req_DiskBytes req;
             ird_CandidatesConsidered := length eligible;
             ird_CandidatesEligible := 0;
             ird_NodeUtilization :=
               renderUtilization unmarshal_caps i64_undef rejected (cfg_Memory (pc_Resources cfg)) |})
      | Some (fits, _) => choose q fits req cfg
      end.
Proof. reflexivity. Qed.
End Pure.

Section Spec.
Context (uuid_parse : string → option uuid)
        (unmarshal_caps : bytes → option (option Z))
        (i64_undef : float64 → Z).

Local Abbreviation headroom := (MemOvercommitHeadroom unmarshal_caps i64_undef).

(** The row has room for the request in every enabled resource. *)
Record resources_suffice (r : PoolRow) (req : PlacementRequest) (cfg : ResourcesConfig) : Prop := {
  rs_cpu : rc_Enabled (cfg_CPU cfg) = true → ∃ eff,
    nea_CPUCoresEffective (row_Node r) = Some eff ∧
    f64_lt (f64_mul (f64_of_Z eff) (rc_OvercommitRatio (cfg_CPU cfg)))
           (f64_of_Z (req_VCPUs req)) = false;
  rs_memory : mrc_Enabled (cfg_Memory cfg) = true → ∃ eff,
    nea_MemoryEffectiveMib (row_Node r) = Some eff ∧
    f64_lt (f64_add (f64_of_Z eff) (f64_of_Z (headroom (row_Node r) (cfg_Memory cfg))))
           (f64_of_Z (req_MemoryMiB req)) = false;
  rs_disk : rc_Enabled (cfg_Disk cfg) = true → 0 < req_DiskBytes req → ∃ eff,
    pec_AvailableBytesEffective (row_Pool r) = Some eff ∧
    f64_lt (f64_mul (f64_of_Z eff) (rc_OvercommitRatio (cfg_Disk cfg)))
           (f64_of_Z (req_DiskBytes req)) = false
}.

(** Every requested network reports ["ready"] on the node. *)
Definition networks_ready (q : Querier idM) (node : uuid) (nets : list uuid) : Prop :=
  nets = [] ∨ ∃ sts, ListNetworkNodeStatusByNode q node = Ok sts ∧
    ∀ n, n ∈ nets → network_status_map sts !! n = Some "ready".

(** The row passes the node hint (the first row whose node has the hinted
    name) and the source exclusion. *)
Definition hinted (rows : list PoolRow) (req : PlacementRequest) (r : PoolRow) : Prop :=
  match req_NodeHint req with
  | None => r ∈ rows
  | Some h => uuid_parse h = None ∧ ∃ l1 l2, rows = l1 ++ r :: l2 ∧
      equal_fold (nea_Name (row_Node r)) h = true ∧
      Forall (λ r', equal_fold (nea_Name (row_Node r')) h = false) l1
  end.

Definition narrowed (rows : list PoolRow) (req : PlacementRequest) (r : PoolRow) : Prop :=
  hinted rows req r ∧
  (∀ x, req_ExcludeNodeID req = Some x → nea_ID (row_Node r) ≠ x).

Record viable (q : Querier idM) (req : PlacementRequest) (cfg : PlacementConfig)
    (rows : list PoolRow) (r : PoolRow) : Prop := {
  v_narrowed : narrowed rows req r;
  v_resources : candidateHasMetrics r req (pc_Resources cfg) = true →
    resources_suffice r req (pc_Resources cfg);
  v_networks : networks_ready q (nea_ID (row_Node r)) (req_NetworkIDs req)
}.

(** The candidate the pipeline builds from a row, and the row's score. *)
Definition row_candidate (req : PlacementRequest) (cfg : PlacementConfig) (r : PoolRow)
    : candidate := MkCandidate r (negb (candidateHasMetrics r req (pc_Resources cfg))).

Definition row_score (q : Querier idM) (req : PlacementRequest) (cfg : PlacementConfig)
    (r : PoolRow) : result sched_error float64 :=
  sc_score <$>
    (if bool_decide (effective_algorithm cfg = AlgorithmResourceAware) then
       score_resource_aware_one unmarshal_caps i64_undef q req (pc_Resources cfg)
         (row_candidate req cfg r)
     else if bool_decide (effective_algorithm cfg = AlgorithmLeastVMCount) then
       bind_ok (λ count, mret (Ok (MkScoredCandidate (row_candidate req cfg r) (f64_of_Z count))))
         (query (CountRunningVMsByNode q (nea_ID (row_Node r))))
     else Err (ErrSentinel ErrUnknownAlgorithm)).

(** ** Resource filter *)

(** Each per-resource check returns when its metric column is set, and decides
    its part of [resources_suffice]. *)
Lemma fits_cpu_spec r req cfg :
  (rc_Enabled cfg = true → nea_CPUCoresEffective (row_Node r) ≠ None) →
  ∃ b, fits_cpu r req cfg = Some b ∧
    (b = true ↔ (rc_Enabled cfg = true → ∃ eff, nea_CPUCoresEffective (row_Node r) = Some eff ∧
       f64_lt (f64_mul (f64_of_Z eff) (rc_OvercommitRatio cfg)) (f64_of_Z (req_VCPUs req)) = false)).
Proof.
  unfold fits_cpu. intros Hm. destruct (rc_Enabled cfg); [|naive_solver].
  destruct (nea_CPUCoresEffective (row_Node r)) as [eff|]; [|naive_solver].
  eexists. split; [reflexivity|]. rewrite negb_true_iff. naive_solver.
Qed.

Lemma fits_memory_spec r req cfg :
  (mrc_Enabled cfg = true → nea_MemoryEffectiveMib (row_Node r) ≠ None) →
  ∃ b, fits_memory unmarshal_caps i64_undef r req cfg = Some b ∧
    (b = true ↔ (mrc_Enabled cfg = true → ∃ eff, nea_MemoryEffectiveMib (row_Node r) = Some eff ∧
       f64_lt (f64_add (f64_of_Z eff) (f64_of_Z (headroom (row_Node r) cfg)))
         (f64_of_Z (req_MemoryMiB req)) = false)).
Proof.
  unfold fits_memory. intros Hm. destruct (mrc_Enabled cfg); [|naive_solver].
  destruct (nea_MemoryEffectiveMib (row_Node r)) as [eff|]; [|naive_solver].
  eexists. split; [reflexivity|]. rewrite negb_true_iff. naive_solver.
Qed.

Lemma fits_disk_spec r req cfg :
  (rc_Enabled cfg = true → 0 < req_DiskBytes req →
     pec_AvailableBytesEffective (row_Pool r) ≠ None) →
  ∃ b, fits_disk r req cfg = Some b ∧
    (b = true ↔ (rc_Enabled cfg = true → 0 < req_DiskBytes req →
       ∃ eff, pec_AvailableBytesEffective (row_Pool r) = Some eff ∧
       f64_lt (f64_mul (f64_of_Z eff) (rc_OvercommitRatio cfg)) (f64_of_Z (req_DiskBytes req)) = false)).
Proof.
  unfold fits_disk. intros Hm. destruct (rc_Enabled cfg); [|naive_solver].
  destruct (Z.ltb_spec 0 (req_DiskBytes req)); simpl; [|naive_solver lia].
  destruct (pec_AvailableBytesEffective (row_Pool r)) as [eff|]; [|naive_solver].
  eexists. split; [reflexivity|]. rewrite negb_true_iff. naive_solver.
Qed.

Lemma candidateHasMetrics_true r req cfg :
  candidateHasMetrics r req cfg = true →
  (rc_Enabled (cfg_CPU cfg) = true → nea_CPUCoresEffective (row_Node r) ≠ None) ∧
  (mrc_Enabled (cfg_Memory cfg) = true → nea_MemoryEffectiveMib (row_Node r) ≠ None) ∧
  (rc_Enabled (cfg_Disk cfg) = true → 0 < req_DiskBytes req →
     pec_AvailableBytesEffective (row_Pool r) ≠ None).
Proof.
  unfold candidateHasMetrics. intros H. split_and!.
  - intros E Hn. rewrite E, Hn, (bool_decide_eq_true_2 (None = None)), orb_true_r in H by done.
    done.
  - intros E Hn. rewrite E, Hn, (bool_decide_eq_true_2 (None = None)), orb_true_r in H by done.
    by repeat case_match.
  - intros E Hz%Z.ltb_lt Hn.
    rewrite E, Hz, Hn, (bool_decide_eq_true_2 (None = None)), orb_true_r in H by done.
    by repeat case_match.
Qed.

Lemma fitsAllResources_metrics r req cfg :
  candidateHasMetrics r req cfg = true →
  ∃ b, fitsAllResources unmarshal_caps i64_undef r req cfg = Some b ∧
       (b = true ↔ resources_suffice r req cfg).
Proof.
  intros (Hc & Hm & Hd)%candidateHasMetrics_true. unfold fitsAllResources.
  destruct (fits_cpu_spec r req _ Hc) as (bc & -> & Ec).
  destruct (fits_memory_spec r req _ Hm) as (bm & -> & Em).
  destruct (fits_disk_spec r req _ Hd) as (bd & -> & Ed). simpl.
  exists (bc && bm && bd). split; [by destruct bc, bm, bd|].
  rewrite !andb_true_iff, Ec, Em, Ed. split.
  - intros [[??]?]. by constructor.
  - by intros [].
Qed.

(** A candidate as the resource filter builds it: the fallback flag records
    missing metrics, and a candidate with metrics has room. *)
Definition admitted (req : PlacementRequest) (cfg : ResourcesConfig) (c : candidate) : Prop :=
  cand_useCountFallback c = negb (candidateHasMetrics (cand_row c) req cfg) ∧
  (candidateHasMetrics (cand_row c) req cfg = true → resources_suffice (cand_row c) req cfg).

Lemma elem_of_admitted_cons req cfg r b rows fits :
  admitted req cfg (MkCandidate r b) →
  (∀ c, c ∈ fits ↔ cand_row c ∈ rows ∧ admitted req cfg c) →
  ∀ c, c ∈ MkCandidate r b :: fits ↔ cand_row c ∈ r :: rows ∧ admitted req cfg c.
Proof.
  intros Ha Hf [r' b']. rewrite !elem_of_cons, Hf. simpl. split.
  - intros [[= -> ->]|[??]]; auto.
  - intros [[->|?] Ha']; [left|auto]. f_equal.
    destruct Ha as [Ha _], Ha' as [Ha' _]. simpl in *. congruence.
Qed.

(** The resource filter never panics; it keeps exactly the rows without metrics
    and the rows with room, and lists the others, in order, as rejected. *)
Lemma filterByResources_spec rows req cfg :
  ∃ fits rej, filterByResources unmarshal_caps i64_undef rows req cfg = Some (fits, rej) ∧
  (∀ c, c ∈ fits ↔ cand_row c ∈ rows ∧ admitted req cfg c) ∧
  rej `sublist_of` map (λ r, MkCandidate r false) rows ∧
  (length fits + length rej = length rows)%nat.
Proof.
  induction rows as [|r rows (fits & rej & IH & Hf & Hr & Hl)]; simpl.
  { exists [], []. split_and!; [done| |done|done]. intros c. rewrite !elem_of_nil. tauto. }
  destruct (candidateHasMetrics r req cfg) eqn:E; simpl.
  - destruct (fitsAllResources_metrics r req cfg E) as ([] & -> & Hb); simpl; rewrite IH; simpl.
    + exists (MkCandidate r false :: fits), rej. split_and!; [done| |by constructor|simpl; lia].
      apply elem_of_admitted_cons; [|done]. split; simpl; [by rewrite E|tauto].
    + exists fits, (MkCandidate r false :: rej). split_and!; [done| |by constructor|simpl; lia].
      intros c. rewrite elem_of_cons, Hf. split; [tauto|].
      intros [[<-|?] Ha]; [|done]. destruct Ha as [_ Ha].
      destruct Hb as [_ Hb]. by specialize (Hb (Ha E)).
  - rewrite IH. simpl. exists (MkCandidate r true :: fits), rej.
    split_and!; [done| |by constructor|simpl; lia].
    apply elem_of_admitted_cons; [|done]. split; simpl; [by rewrite E|congruence].
Qed.

(** ** Hint and exclusion *)

Lemma list_find_first {A} (P : A → Prop) `{∀ x, Decision (P x)} (l : list A) i x :
  list_find P l = Some (i, x) ↔
  ∃ l1 l2, l = l1 ++ x :: l2 ∧ length l1 = i ∧ P x ∧ Forall (λ y, ¬ P y) l1.
Proof.
  rewrite list_find_Some. split.
  - intros (Hi & HP & Hlt). exists (take i l), (drop (S i) l).
    pose proof (lookup_lt_Some _ _ _ Hi). split_and!; [|rewrite length_take; lia|done|].
    + by rewrite <-(take_drop_middle l i x Hi) at 1.
    + apply Forall_lookup. intros j y [Hj ?]%lookup_take_Some. by eapply Hlt.
  - intros (l1 & l2 & -> & <- & HP & Hl). split_and!; [|done|].
    + by rewrite lookup_app_r, Nat.sub_diag by done.
    + intros j y Hj Hlt. rewrite lookup_app_l in Hj by done.
      by eapply Forall_lookup_1 in Hl.
Qed.

(** The hint step returns exactly when some row is hinted, and returns it. *)
Definition hint_step (rows : list PoolRow) (req : PlacementRequest)
    : result sched_error (list PoolRow) :=
  match req_NodeHint req with
  | Some hint => filterByNodeHint uuid_parse rows hint
  | None => Ok rows
  end.

Lemma list_find_hint rows h i r :
  list_find (λ r, Is_true (equal_fold (nea_Name (row_Node r)) h)) rows = Some (i, r) ↔
  ∃ l1 l2, rows = l1 ++ r :: l2 ∧ length l1 = i ∧
    equal_fold (nea_Name (row_Node r)) h = true ∧
    Forall (λ r', equal_fold (nea_Name (row_Node r')) h = false) l1.
Proof.
  rewrite list_find_first. split; intros (l1 & l2 & ? & ? & HP & Hl); exists l1, l2;
    (split_and!; [done|done|by apply Is_true_true|]);
    (eapply Forall_impl; [exact Hl|]); intros ?; by rewrite Is_true_false.
Qed.

Lemma hint_step_Ok rows req e :
  hint_step rows req = Ok e → ∀ r, r ∈ e ↔ hinted rows req r.
Proof.
  unfold hint_step, hinted, filterByNodeHint. intros He r.
  destruct (req_NodeHint req) as [h|]; [|by simplify_eq].
  destruct (uuid_parse h); [done|].
  destruct (list_find _ rows) as [[i r0]|] eqn:Ef; simplify_eq.
  rewrite list_elem_of_singleton. split.
  - intros ->. apply list_find_hint in Ef as (l1 & l2 & ? & ? & ? & ?). eauto 10.
  - intros (_ & l1 & l2 & El & HP & Hl).
    assert (list_find (λ r, Is_true (equal_fold (nea_Name (row_Node r)) h)) rows
            = Some (length l1, r)) as Ef'; [|congruence].
    apply list_find_hint. eauto 10.
Qed.

Lemma hint_step_total rows req r :
  hinted rows req r → ∃ e, hint_step rows req = Ok e.
Proof.
  unfold hint_step, hinted, filterByNodeHint. destruct (req_NodeHint req) as [h|]; [|eauto].
  intros (-> & l1 & l2 & El & HP & Hl).
  assert (list_find (λ r, Is_true (equal_fold (nea_Name (row_Node r)) h)) rows
          = Some (length l1, r)) as ->; [|eauto].
  apply list_find_hint. eauto 10.
Qed.

Lemma elem_of_excludeNode rows x r :
  r ∈ excludeNode rows x ↔ r ∈ rows ∧ nea_ID (row_Node r) ≠ x.
Proof. unfold excludeNode. rewrite list_elem_of_filter. tauto. Qed.

Lemma narrow_eligible_Ok q req rs :
  narrow_eligible uuid_parse q req = Ok rs →
  ∃ rows, ListEligiblePoolsByName q (req_PoolName req) = Ok rows ∧
          ∀ r, r ∈ rs ↔ narrowed rows req r.
Proof.
  rewrite narrow_eligible_pure. destruct (ListEligiblePoolsByName q _) as [rows|]; simpl; [|done].
  intros H. exists rows. split; [done|].
  destruct (diagnoseEmptyEligible_Err (A := list PoolRow) q (req_PoolName req)) as (ed & Ed & _). rewrite Ed in H.
  destruct rows as [|r0 rows0]; [done|]. set (rows := r0 :: rows0) in *.
  apply result_bind_Ok in H as (e & He & H). pose proof (hint_step_Ok _ _ _ He) as Hin.
  intros r. unfold narrowed. destruct (req_ExcludeNodeID req) as [x|].
  - rewrite <-Hin. assert (excludeNode e x = rs) as <-.
    { destruct (excludeNode e x); [done|]. by simplify_eq. }
    rewrite elem_of_excludeNode. naive_solver.
  - simplify_eq. rewrite Hin. naive_solver.
Qed.

Lemma narrow_eligible_total q req rows r :
  ListEligiblePoolsByName q (req_PoolName req) = Ok rows → narrowed rows req r →
  ∃ rs, narrow_eligible uuid_parse q req = Ok rs.
Proof.
  intros Hl [Hh Hx]. rewrite narrow_eligible_pure, Hl. simpl.
  destruct (hint_step_total _ _ _ Hh) as [e He]. pose proof (hint_step_Ok _ _ _ He r) as Hin.
  apply Hin in Hh as Hr. destruct rows as [|r0 rows0].
  { unfold hinted in Hh. destruct (req_NodeHint req); [|by apply elem_of_nil in Hh].
    by destruct Hh as (_ & [] & ? & ? & _). }
  unfold hint_step in He. rewrite He. simpl.
  destruct (req_ExcludeNodeID req) as [x|]; [|eauto].
  assert (r ∈ excludeNode e x) as Hex by (apply elem_of_excludeNode; auto).
  destruct (excludeNode e x); [by apply elem_of_nil in Hex|eauto].
Qed.

(** ** Network filter *)

Lemma query_Ok {A} (x : result string A) a : query (m := idM) x = Ok a ↔ x = Ok a.
Proof. unfold query, mbind, mret, idM_bind, idM_ret. destruct x; split; by intros [=]; subst. Qed.

Lemma unready_networks_nil m nets :
  unready_networks m nets = [] ↔ ∀ n, n ∈ nets → m !! n = Some "ready".
Proof.
  unfold unready_networks. induction nets as [|n nets IH]; simpl.
  { split; [|done]. intros _ n Hn. by apply elem_of_nil in Hn. }
  setoid_rewrite elem_of_cons.
  destruct (m !! n) as [st|] eqn:E; [case_bool_decide as Hst; subst|].
  - rewrite IH. naive_solver.
  - split; [done|]. intros Hr. specialize (Hr n (or_introl eq_refl)).
    rewrite E in Hr. by injection Hr.
  - split; [done|]. intros Hr. specialize (Hr n (or_introl eq_refl)). congruence.
Qed.

Lemma filterByNetworkReadiness_Ok q fits nets survivors detail :
  filterByNetworkReadiness q fits nets = Ok (survivors, detail) →
  ∀ c, c ∈ survivors ↔ c ∈ fits ∧
    ∃ sts, ListNetworkNodeStatusByNode q (nea_ID (cand_node c)) = Ok sts ∧
      ∀ n, n ∈ nets → network_status_map sts !! n = Some "ready".
Proof.
  revert survivors detail. induction fits as [|c0 fits IH]; intros survivors detail H c.
  { injection H as <- <-. rewrite !elem_of_nil. tauto. }
  rewrite filterByNetworkReadiness_pure in H.
  apply result_bind_Ok in H as (sts & Hsts & H). apply result_bind_Ok in H as ([s d] & Hf & H).
  specialize (IH _ _ Hf c).
  apply query_Ok in Hsts as Hq.
  pose proof (unready_networks_nil (network_status_map sts) nets) as Hun.
  cbv zeta in H. destruct (unready_networks (network_status_map sts) nets) eqn:Eu; injection H as <- <-.
  - rewrite !elem_of_cons, IH. destruct Hun as [Hun _]. specialize (Hun eq_refl). split.
    + intros [->|[??]]; eauto.
    + intros [[->|?] ?]; auto.
  - rewrite IH, elem_of_cons. split; [tauto|]. intros [[->|?] (sts' & Hq' & Hr)]; [|eauto].
    exfalso. simplify_eq. rewrite Hq in Hq'. simplify_eq. by apply Hun in Hr.
Qed.

(** The query surface answers the network query of every candidate: then the
    filter returns. *)
Lemma filterByNetworkReadiness_total q fits nets :
  (∀ c, c ∈ fits → ∃ sts, ListNetworkNodeStatusByNode q (nea_ID (cand_node c)) = Ok sts) →
  ∃ r, filterByNetworkReadiness q fits nets = Ok r.
Proof.
  induction fits as [|c fits IH]; intros H; [by eexists|].
  rewrite filterByNetworkReadiness_pure. destruct (H c) as [sts ->]; [by left|]. simpl.
  destruct IH as [[s d] ->]. { intros c' Hc. apply H. by right. }
  simpl. case_match; eauto.
Qed.

Lemma applyNetworkFilter_Ok q fits req survivors :
  applyNetworkFilter q fits req = Ok survivors → fits ≠ [] →
  survivors ≠ [] ∧ ∀ c, c ∈ survivors ↔ c ∈ fits ∧
    networks_ready q (nea_ID (cand_node c)) (req_NetworkIDs req).
Proof.
  rewrite applyNetworkFilter_pure. unfold networks_ready. intros H Hne.
  destruct (req_NetworkIDs req) as [|n nets].
  { simplify_eq. split; [done|]. intros c. tauto. }
  apply result_bind_Ok in H as ([s d] & Hf & H).
  pose proof (filterByNetworkReadiness_Ok _ _ _ _ _ Hf) as Hc.
  destruct s; simplify_eq. split; [done|]. intros c'. rewrite Hc. naive_solver.
Qed.

Lemma applyNetworkFilter_total q fits req c :
  (∀ n, ∃ sts, ListNetworkNodeStatusByNode q n = Ok sts) →
  c ∈ fits → networks_ready q (nea_ID (cand_node c)) (req_NetworkIDs req) →
  ∃ surv, applyNetworkFilter q fits req = Ok surv ∧ surv ≠ [].
Proof.
  rewrite applyNetworkFilter_pure. unfold networks_ready. intros Hq Hc Hr.
  destruct (req_NetworkIDs req) as [|n nets].
  { exists fits. split; [done|]. intros ->. by apply elem_of_nil in Hc. }
  destruct Hr as [|Hr]; [done|].
  destruct (filterByNetworkReadiness_total q fits (n :: nets)) as [[s d] Hf]; [auto|].
  rewrite Hf. simpl. pose proof (filterByNetworkReadiness_Ok _ _ _ _ _ Hf c) as Hs.
  destruct s; [|eauto]. by assert (c ∈ []) as ?%elem_of_nil by (apply Hs; auto).
Qed.

(** ** Scores *)

Lemma scoreCandidates_Ok q fits req cfg scored :
  scoreCandidates unmarshal_caps i64_undef q fits req cfg (effective_algorithm cfg) = Ok scored →
  Forall (admitted req (pc_Resources cfg)) fits →
  Forall2 (λ c s, sc_candidate s = c ∧
    row_score q req cfg (cand_row c) = Ok (sc_score s)) fits scored.
Proof.
  unfold scoreCandidates, row_score, scoreResourceAware, scoreLeastVMCount.
  intros H Ha.
  assert (∀ c, admitted req (pc_Resources cfg) c → row_candidate req cfg (cand_row c) = c) as Hrc.
  { intros [r b] [Hb _]. unfold row_candidate. simpl in *. congruence. }
  repeat case_bool_decide; try done; rewrite map_ok_pure in H; apply result_mapM_Ok in H.
  all: revert Ha; induction H as [|c s fits scored Hcs H IH]; intros Ha; constructor.
  all: inversion Ha as [|?? Hac Haf]; subst; try by apply IH.
  all: rewrite (Hrc c Hac); clear IH H.
  - rewrite Hcs. split; [|done]. unfold score_resource_aware_one in Hcs.
    repeat case_match; try (apply bind_ok_Ok in Hcs as (? & _ & Hcs)); by injection Hcs as <-.
  - change (row_Node (cand_row c)) with (cand_node c). rewrite Hcs. split; [|done].
    apply bind_ok_Ok in Hcs as (? & _ & Hcs). by injection Hcs as <-.
Qed.

Lemma score_resource_aware_one_total q req cfg c :
  (∀ n, ∃ k, CountRunningVMsByNode q n = Ok k) →
  ∃ s, score_resource_aware_one unmarshal_caps i64_undef q req cfg c = Ok s.
Proof.
  intros Hq. unfold score_resource_aware_one. destruct (Hq (nea_ID (cand_node c))) as [k ->].
  repeat case_match; by eexists.
Qed.

Lemma scoreCandidates_total q fits req cfg :
  (∀ n, ∃ k, CountRunningVMsByNode q n = Ok k) →
  effective_algorithm cfg = AlgorithmResourceAware ∨
    effective_algorithm cfg = AlgorithmLeastVMCount →
  ∃ scored,
    scoreCandidates unmarshal_caps i64_undef q fits req cfg (effective_algorithm cfg) = Ok scored.
Proof.
  intros Hq Ha. unfold scoreCandidates, scoreResourceAware, scoreLeastVMCount.
  repeat case_bool_decide; [| |naive_solver]; rewrite map_ok_pure; apply result_mapM_total; intros c _.
  - by apply score_resource_aware_one_total.
  - destruct (Hq (nea_ID (cand_node c))) as [k ->]. by eexists.
Qed.

Lemma scoreCandidates_length q fits req cfg alg scored :
  scoreCandidates unmarshal_caps i64_undef q fits req cfg alg = Ok scored →
  length scored = length fits.
Proof.
  unfold scoreCandidates, scoreResourceAware, scoreLeastVMCount. intros H.
  repeat case_bool_decide; try done; rewrite map_ok_pure in H; apply result_mapM_Ok in H; symmetry;
    by eapply Forall2_length.
Qed.

(** ** The comparator *)

Lemma scored_less_rank a b :
  f64_is_nan (sc_score a) = false → f64_is_nan (sc_score b) = false →
  scored_less a b = true ↔
  rank_lt (f64_rank (sc_score a)) (f64_rank (sc_score b)) ∨
  (f64_rank (sc_score a) = f64_rank (sc_score b) ∧
   str_ltb (to_lower (sc_name a)) (to_lower (sc_name b)) = true).
Proof.
  intros Ha Hb. unfold scored_less.
  pose proof (f64_lt_rank _ _ Ha Hb) as Hlt. pose proof (f64_eq_rank _ _ Ha Hb) as Heq.
  destruct (f64_eq (sc_score a) (sc_score b)) eqn:E; simpl.
  - destruct Heq as [Heq _]. rewrite Heq by done. split; [auto|].
    intros [H|[_ ?]]; [by apply rank_lt_irrefl in H|done].
  - rewrite Hlt. split; [auto|]. intros [?|[H _]]; [done|]. apply Heq in H. congruence.
Qed.

Lemma scored_less_swo : strict_weak_on scored_less (λ s, f64_is_nan (sc_score s) = false).
Proof.
  assert (∀ s : string, str_ltb s s = false) as Hirr by (intros s; by apply str_ltb_false).
  split.
  - intros x Hx. apply not_true_iff_false. rewrite scored_less_rank by done.
    rewrite Hirr. intros [?%rank_lt_irrefl|[_ ?]]; done.
  - intros x y Hx Hy. rewrite <-not_true_iff_false, !scored_less_rank by done.
    intros [H1|[H1 H2%str_ltb_spec]] [H3|[H3 H4]].
    + eapply rank_lt_irrefl, rank_lt_trans; eassumption.
    + rewrite H3 in H1. by apply rank_lt_irrefl in H1.
    + rewrite H1 in H3. by apply rank_lt_irrefl in H3.
    + apply str_ltb_spec in H4. destruct (total String.le (to_lower (sc_name x)) (to_lower (sc_name y))); done.
  - intros x y z Hx Hy Hz. rewrite <-!not_true_iff_false, !scored_less_rank by done.
    intros H1 H2 [H3|[H3 H4]].
    + destruct (rank_trichotomy (f64_rank (sc_score y)) (f64_rank (sc_score x))) as [?|[E|?]];
        [naive_solver| |].
      * destruct (rank_trichotomy (f64_rank (sc_score z)) (f64_rank (sc_score y))) as [?|[E'|?]];
          [naive_solver| |].
        -- rewrite <-E, <-E' in H3. by apply rank_lt_irrefl in H3.
        -- rewrite <-E in H3. eapply rank_lt_irrefl, rank_lt_trans; eassumption.
      * apply H2. left. eapply rank_lt_trans; eassumption.
    + destruct (rank_trichotomy (f64_rank (sc_score y)) (f64_rank (sc_score x))) as [?|[E|?]];
        [naive_solver| |].
      * assert (String.le (to_lower (sc_name x)) (to_lower (sc_name y))) as L1.
        { apply str_ltb_false. apply not_true_iff_false. naive_solver. }
        assert (String.le (to_lower (sc_name y)) (to_lower (sc_name z))) as L2.
        { apply str_ltb_false. apply not_true_iff_false. intros ?. apply H2. right.
          split; [congruence|done]. }
        apply str_ltb_spec in H4. apply H4. by transitivity (to_lower (sc_name y)).
      * apply H2. left. by rewrite H3.
Qed.
(** ** Placement decisions *)

Local Abbreviation schedule := (SchedulePlacement uuid_parse unmarshal_caps i64_undef).

(** What a successful run went through: the viable rows are exactly the rows of
    the scored candidates, and the decision is the head of their sort. *)
Lemma SchedulePlacement_inv q req cfg d :
  schedule q req cfg = Ok d →
  ∃ rows scored w, ListEligiblePoolsByName q (req_PoolName req) = Ok rows ∧
    (∀ r, viable q req cfg rows r ↔ ∃ s, s ∈ scored ∧ cand_row (sc_candidate s) = r) ∧
    (∀ s, s ∈ scored → row_score q req cfg (cand_row (sc_candidate s)) = Ok (sc_score s)) ∧
    pickWinner scored = Some w ∧
    d = MkPlacementDecision (cand_node (sc_candidate w)) (row_Pool (cand_row (sc_candidate w))).
Proof.
  rewrite SchedulePlacement_pure. case_bool_decide; [done|]. intros H'.
  apply result_bind_Ok in H' as (rs & Hn & H').
  apply narrow_eligible_Ok in Hn as (rows & Hl & Hnar).
  destruct (filterByResources_spec rs req (pc_Resources cfg)) as (fits & rej & Hf & Hfits & _).
  rewrite Hf in H'. destruct fits as [|c0 fits0]; [done|]. set (fits := c0 :: fits0) in *.
  apply result_bind_Ok in H' as (surv & Hnet & H'). apply result_bind_Ok in H' as (scored & Hsc & H').
  destruct (pickWinner scored) as [w|] eqn:Hw; simplify_eq.
  apply applyNetworkFilter_Ok in Hnet as [_ Hsurv]; [|done].
  assert (Forall (admitted req (pc_Resources cfg)) surv) as Hadm.
  { apply Forall_forall. intros c Hc. apply Hsurv in Hc as [Hc _]. by apply Hfits in Hc as [_ ?]. }
  pose proof (scoreCandidates_Ok _ _ _ _ _ Hsc Hadm) as Hall.
  exists rows, scored, w. split_and!; [done| | |done|done].
  - intros r. split.
    + intros [Hv1 Hv2 Hv3].
      assert (row_candidate req cfg r ∈ surv) as Hin.
      { apply Hsurv. split; [|done]. apply Hfits. simpl. split; [by apply Hnar|]. by split. }
      apply list_elem_of_lookup in Hin as [i Hi].
      destruct (Forall2_lookup_l _ _ _ _ _ Hall Hi) as (s & Hs & Hsc' & _).
      exists s. split; [by eapply list_elem_of_lookup_2|]. by rewrite Hsc'.
    + intros (s & Hs & <-). apply list_elem_of_lookup in Hs as [i Hi].
      destruct (Forall2_lookup_r _ _ _ _ _ Hall Hi) as (c & Hc & -> & _).
      apply list_elem_of_lookup_2, Hsurv in Hc as [Hc Hready].
      apply Hfits in Hc as [Hc [_ Hsuf]]. split; [by apply Hnar|done|done].
  - intros s Hs. apply list_elem_of_lookup in Hs as [i Hi].
    by destruct (Forall2_lookup_r _ _ _ _ _ Hall Hi) as (c & Hc & -> & ?).
Qed.

Lemma pickWinner_elem scored w : pickWinner scored = Some w → w ∈ scored.
Proof.
  unfold pickWinner. intros H. rewrite <-(stable_sort_perm scored_less scored).
  destruct (stable_sort scored_less scored); simplify_eq/=. by left.
Qed.

Lemma pickWinner_None scored : pickWinner scored = None → scored = [].
Proof.
  unfold pickWinner. intros H%head_None. apply Permutation_nil_r.
  by rewrite <-H, (stable_sort_perm scored_less scored).
Qed.

(** The winner is not beaten by any scored candidate. *)
Lemma pickWinner_min scored w :
  (∀ s, s ∈ scored → f64_is_nan (sc_score s) = false) →
  pickWinner scored = Some w → ∀ s, s ∈ scored → scored_less s w = false.
Proof.
  unfold pickWinner. intros Hnan H.
  destruct (stable_sort scored_less scored) as [|h t] eqn:E; simplify_eq/=.
  eapply stable_sort_head_min; [apply scored_less_swo| |exact E].
  by apply Forall_forall.
Qed.

(** C28. A placement decision is a row of the eligibility query for the
    requested pool that respects the node hint and the source exclusion, has
    enough CPU, memory and disk when its metrics are known, and on whose node
    every requested network is ready. *)
Theorem SchedulePlacement_sound q req cfg d :
  schedule q req cfg = Ok d →
  ∃ rows r, ListEligiblePoolsByName q (req_PoolName req) = Ok rows ∧ r ∈ rows ∧
    d = MkPlacementDecision (row_Node r) (row_Pool r) ∧
    (∀ h, req_NodeHint req = Some h → equal_fold (nea_Name (row_Node r)) h = true) ∧
    (∀ x, req_ExcludeNodeID req = Some x → nea_ID (row_Node r) ≠ x) ∧
    (candidateHasMetrics r req (pc_Resources cfg) = true →
       resources_suffice r req (pc_Resources cfg)) ∧
    networks_ready q (nea_ID (row_Node r)) (req_NetworkIDs req).
Proof.
  intros (rows & scored & w & Hl & Hv & _ & Hw%pickWinner_elem & ->)%SchedulePlacement_inv.
  destruct (Hv (cand_row (sc_candidate w))) as [_ [[Hn Hx] Hr Hnet]]; [eauto|]. unfold hinted in Hn.
  exists rows, (cand_row (sc_candidate w)). split_and!; try done.
  - destruct (req_NodeHint req); [|done]. destruct Hn as (_ & l1 & l2 & -> & _). set_solver.
  - intros h Eh. rewrite Eh in Hn. naive_solver.
Qed.

(** C24. The decision is optimal: when no viable row scores NaN, every viable
    row has a score that is not below the winner's, and a viable row with an
    equal score has a lower-cased node name that is not below the winner's. *)
Theorem SchedulePlacement_optimal q req cfg d :
  schedule q req cfg = Ok d →
  ∃ rows r sw, ListEligiblePoolsByName q (req_PoolName req) = Ok rows ∧
    viable q req cfg rows r ∧ d = MkPlacementDecision (row_Node r) (row_Pool r) ∧
    row_score q req cfg r = Ok sw ∧
    ((∀ r' s', viable q req cfg rows r' → row_score q req cfg r' = Ok s' →
        f64_is_nan s' = false) →
     ∀ r', viable q req cfg rows r' → ∃ s', row_score q req cfg r' = Ok s' ∧
       f64_lt s' sw = false ∧
       (f64_eq s' sw = true →
        str_ltb (to_lower (nea_Name (row_Node r'))) (to_lower (nea_Name (row_Node r))) = false)).
Proof.
  intros (rows & scored & w & Hl & Hv & Hs & Hw & ->)%SchedulePlacement_inv.
  pose proof (pickWinner_elem _ _ Hw) as Hin.
  exists rows, (cand_row (sc_candidate w)), (sc_score w). split_and!; [done| |done|by apply Hs|].
  { apply Hv. eauto. }
  intros Hnan r' Hr'. apply Hv in Hr' as (s & Hss & <-).
  exists (sc_score s). split; [by apply Hs|].
  assert (∀ s, s ∈ scored → f64_is_nan (sc_score s) = false) as Hn.
  { intros s' Hs'. eapply Hnan; [|by apply Hs]. apply Hv. eauto. }
  pose proof (pickWinner_min _ _ Hn Hw s Hss) as Hmin.
  unfold scored_less in Hmin. destruct (f64_eq (sc_score s) (sc_score w)) eqn:E; simpl in Hmin.
  - split; [|done]. apply not_true_iff_false. rewrite f64_lt_rank by auto.
    apply f64_eq_rank in E; [|by auto..]. rewrite E. apply rank_lt_irrefl.
  - done.
Qed.

(** C32. Placement succeeds whenever it can: if the pool is named, the algorithm
    is known, the queries answer and some row is viable, a node is returned. *)
Theorem SchedulePlacement_complete q req cfg rows :
  req_PoolName req ≠ "" →
  effective_algorithm cfg = AlgorithmResourceAware ∨ effective_algorithm cfg = AlgorithmLeastVMCount →
  ListEligiblePoolsByName q (req_PoolName req) = Ok rows →
  (∀ n, ∃ c, CountRunningVMsByNode q n = Ok c) →
  (∀ n, ∃ sts, ListNetworkNodeStatusByNode q n = Ok sts) →
  (∃ r, viable q req cfg rows r) →
  ∃ d, schedule q req cfg = Ok d.
Proof.
  intros Hp Halg Hl Hc Hst [r [Hn Hr Hnet]]. rewrite SchedulePlacement_pure.
  rewrite bool_decide_eq_false_2 by done.
  destruct (narrow_eligible_total _ _ _ _ Hl Hn) as [rs Hrs]. rewrite Hrs.
  apply narrow_eligible_Ok in Hrs as (rows' & Hl' & Hnar). simplify_eq. simpl.
  assert (rows' = rows) as -> by congruence.
  destruct (filterByResources_spec rs req (pc_Resources cfg)) as (fits & rej & -> & Hfits & _).
  assert (row_candidate req cfg r ∈ fits) as Hin.
  { apply Hfits. split; [by apply Hnar|]. by split. }
  destruct fits as [|c0 fits0]; [by apply elem_of_nil in Hin|]. set (fits := c0 :: fits0) in *.
  destruct (applyNetworkFilter_total q fits req (row_candidate req cfg r)) as (surv & Hs & Hne);
    [done..|].
  unfold choose. rewrite Hs. simpl. destruct (scoreCandidates_total q surv req cfg Hc Halg) as [scored Hsc].
  rewrite Hsc. simpl. destruct (pickWinner scored) eqn:E; [eauto|].
  apply pickWinner_None in E as ->. apply scoreCandidates_length in Hsc. by destruct surv.
Qed.

Lemma narrow_eligible_Err q req e :
  narrow_eligible uuid_parse q req = Err e → own_error e = false.
Proof.
  rewrite narrow_eligible_pure.
  destruct (diagnoseEmptyEligible_Err (A := list PoolRow) q (req_PoolName req)) as (ed & -> & Hed).
  unfold filterByNodeHint, query, mbind, mret, idM_bind, idM_ret, result_bind. intros H.
  repeat (case_match; simplify_eq/=; try done).
Qed.

Lemma scoreCandidates_Err q fits req cfg alg e :
  scoreCandidates unmarshal_caps i64_undef q fits req cfg alg = Err e → own_error e = false.
Proof.
  unfold scoreCandidates, scoreResourceAware, scoreLeastVMCount. intros H.
  repeat case_bool_decide; [rewrite map_ok_pure in H; apply result_mapM_Err in H as (c & _ & H)..|by injection H as <-].
  all: unfold score_resource_aware_one, query, bind_ok, mbind, mret, idM_bind, idM_ret in H.
  all: by repeat (case_match; simplify_eq/=).
Qed.

Lemma filterByNetworkReadiness_Err q fits nets e :
  filterByNetworkReadiness q fits nets = Err e → own_error e = false.
Proof.
  induction fits as [|c fits IH]; [done|]. rewrite filterByNetworkReadiness_pure. intros H.
  unfold query, mbind, mret, idM_bind, idM_ret, result_bind in H.
  destruct (ListNetworkNodeStatusByNode _ _); [|by simplify_eq/=].
  destruct (filterByNetworkReadiness q fits nets) as [[]|]; [by simplify_eq|auto].
Qed.

Lemma applyNetworkFilter_Err q fits req e :
  applyNetworkFilter q fits req = Err e → own_error e = false.
Proof.
  rewrite applyNetworkFilter_pure. intros H. destruct (req_NetworkIDs req) as [|n nets]; [done|].
  destruct (filterByNetworkReadiness q fits (n :: nets)) as [[[] ?]|] eqn:E; simplify_eq/=; [done|].
  by eapply filterByNetworkReadiness_Err.
Qed.

(** From a non-empty filtered list on, no own error is returned. *)
Lemma choose_Err q fits req cfg e :
  fits ≠ [] → choose unmarshal_caps i64_undef q fits req cfg = Err e → own_error e = false.
Proof.
  intros Hne H. unfold choose in H. destruct (applyNetworkFilter q fits req) as [surv|] eqn:Ea; simplify_eq/=.
  2: by eapply applyNetworkFilter_Err.
  apply applyNetworkFilter_Ok in Ea as [Hs _]; [|done].
  destruct (scoreCandidates _ _ _ _ _ _ _) as [sc|] eqn:Es; simplify_eq/=.
  2: by eapply scoreCandidates_Err.
  destruct (pickWinner sc) eqn:Ew; [done|]. apply pickWinner_None in Ew as ->.
  apply scoreCandidates_length in Es. by destruct surv.
Qed.

(** Placement never panics: no metric column is dereferenced when it is
    nil, and the winner is never picked from an empty list. *)
Theorem SchedulePlacement_no_panic q req cfg : schedule q req cfg ≠ Err ErrPanic.
Proof.
  rewrite SchedulePlacement_pure. case_bool_decide; [done|]. intros H'.
  destruct (narrow_eligible uuid_parse q req) as [rs|] eqn:En; simplify_eq/=.
  2: by apply narrow_eligible_Err in En.
  destruct (filterByResources_spec rs req (pc_Resources cfg)) as (fits & rej & Hf & _).
  rewrite Hf in H'. destruct fits; [done|]. by apply choose_Err in H'.
Qed.

(** The insufficient-resources error is honest: every row left by the hint
    and the exclusion has its metrics and lacks room for the request, and the
    payload reports exactly these rows, in the order of the query. *)
Theorem SchedulePlacement_insufficient q req cfg d :
  schedule q req cfg = Err (insufficientResourcesError d) →
  ∃ rows, ListEligiblePoolsByName q (req_PoolName req) = Ok rows ∧
  ∃ rs, (∀ r, r ∈ rs ↔ narrowed rows req r) ∧
    ird_CandidatesConsidered d = length rs ∧
    ird_NodeUtilization d =
      map (λ r, render_one unmarshal_caps i64_undef (cfg_Memory (pc_Resources cfg))
                  (MkCandidate r false)) rs ∧
    ∀ r, r ∈ rs → candidateHasMetrics r req (pc_Resources cfg) = true ∧
                  ¬ resources_suffice r req (pc_Resources cfg).
Proof.
  rewrite SchedulePlacement_pure. case_bool_decide; [done|]. intros H'.
  destruct (narrow_eligible uuid_parse q req) as [rs|] eqn:En; simpl in H'.
  2: { simplify_eq. by apply narrow_eligible_Err in En. }
  apply narrow_eligible_Ok in En as (rows & Hl & Hnar).
  destruct (filterByResources_spec rs req (pc_Resources cfg))
    as (fits & rej & Hf & Hfits & Hsub & Hlen).
  rewrite Hf in H'. destruct fits as [|c0 fits0].
  2: { by apply choose_Err in H'. }
  simplify_eq/=. exists rows. split; [done|]. exists rs. split; [done|]. split; [done|].
  apply sublist_full in Hsub as ->; [|rewrite length_map; simpl in *; lia].
  split; [by unfold renderUtilization; rewrite map_map|].
  intros r Hr. destruct (Hfits (row_candidate req cfg r)) as [_ Hno].
  rewrite elem_of_nil in Hno. simpl in Hno.
  destruct (candidateHasMetrics r req (pc_Resources cfg)) eqn:E.
  - split; [done|]. intros Hs. apply Hno. split; [done|]. by split.
  - exfalso. apply Hno. split; [done|]. split; [done|]. simpl. congruence.
Qed.
End Spec.

(** ** The pressure payload *)

(** The distinct elements of a list in the order of their first occurrence. *)
Definition first_occurrences {A} `{EqDecision A} (l : list A) : list A :=
  foldl (λ acc x, if bool_decide (x ∈ acc) then acc else acc ++ [x]) [] l.

(** The first timestamp that is set. *)
Definition first_some {A} (l : list (option A)) : option A :=
  foldl (λ acc x, match acc with Some _ => acc | None => x end) None l.

Definition node_key (r : PoolRow) : string * string := (nea_Name (row_Node r), "").
Definition pool_key (r : PoolRow) : string * string :=
  (nea_Name (row_Node r), pec_Name (row_Pool r)).

(** The rows of a query that concern a key. *)
Definition concerning (key : PoolRow → string * string) (rows : list PoolRow)
    (k : string * string) : list PoolRow := filter (λ r, key r = k) rows.

Definition condition (name : string) (rows : list PoolRow) : list string :=
  match rows with [] => [] | _ :: _ => [name] end.

(** The entry of a key: the conditions some row reports for it, and the first
    timestamp of each. *)
Definition pressure_entry (mem sysDisk poolDisk : list PoolRow) (k : string * string)
    : PressuredNode :=
  let m := concerning node_key mem k in
  let s := concerning node_key sysDisk k in
  let d := concerning pool_key poolDisk k in
  MkPressuredNode k.1 k.2
    (condition "memory_pressure" m ++ condition "system_disk_pressure" s ++
     condition "disk_pressure" d)
    (first_some (map (λ r, nea_MemoryPressureSince (row_Node r)) m))
    (first_some (map (λ r, nea_SystemDiskPressureSince (row_Node r)) s))
    (first_some (map (λ r, pec_DiskPressureSince (row_Pool r)) d)).

Definition pressure_keys (mem sysDisk poolDisk : list PoolRow) : list (string * string) :=
  first_occurrences (map node_key mem ++ map node_key sysDisk ++ map pool_key poolDisk).

Definition pressure_report (mem sysDisk poolDisk : list PoolRow) : list PressuredNode :=
  map (pressure_entry mem sysDisk poolDisk) (pressure_keys mem sysDisk poolDisk).

Lemma first_occurrences_snoc {A} `{EqDecision A} (l : list A) x :
  first_occurrences (l ++ [x]) =
    if bool_decide (x ∈ first_occurrences l) then first_occurrences l
    else first_occurrences l ++ [x].
Proof. unfold first_occurrences. by rewrite foldl_app. Qed.

Lemma first_some_snoc {A} (l : list (option A)) x :
  first_some (l ++ [x]) = match first_some l with Some y => Some y | None => x end.
Proof. unfold first_some. rewrite foldl_app. simpl. by case_match. Qed.

Lemma NoDup_first_occurrences {A} `{EqDecision A} (l : list A) : NoDup (first_occurrences l).
Proof.
  induction l as [|x l IH] using rev_ind; [constructor|].
  rewrite first_occurrences_snoc. case_bool_decide as Hx; [done|].
  apply NoDup_app. split_and!; [done| |apply NoDup_singleton]. set_solver.
Qed.

Lemma elem_of_first_occurrences {A} `{EqDecision A} (l : list A) x :
  x ∈ first_occurrences l ↔ x ∈ l.
Proof.
  induction l as [|y l IH] using rev_ind; [done|].
  rewrite first_occurrences_snoc. case_bool_decide; set_solver.
Qed.

(** An upsert of one key, over the entries of distinct keys. *)
Lemma pressure_upsert_map k f g g' ks :
  (∀ k', pressure_key (g k') = k') →
  (∀ k', k' ≠ k → g' k' = g k') →
  g' k = f (g k) →
  (k ∉ ks → g k = MkPressuredNode k.1 k.2 [] None None None) →
  NoDup ks →
  pressure_upsert k f (map g ks) =
    map g' (if bool_decide (k ∈ ks) then ks else ks ++ [k]).
Proof.
  intros Hkey Hne Hk Hnew. induction 1 as [|k0 ks Hk0 Hnd IH]; simpl.
  - by rewrite Hk, Hnew by set_solver.
  - rewrite Hkey. destruct (decide (k0 = k)) as [Heq|Heq].
    + rewrite (bool_decide_eq_true_2 (k0 = k)) by done. subst k0. rewrite bool_decide_eq_true_2 by by left. simpl. rewrite Hk. f_equal.
      apply map_ext_in. intros k' Hk'%list_elem_of_In. symmetry. apply Hne. by intros ->.
    + rewrite (bool_decide_eq_false_2 (k0 = k)) by done.
      rewrite IH by set_solver. rewrite <-(Hne k0) by done.
      repeat case_bool_decide; set_solver.
Qed.

Lemma concerning_snoc key rows r k :
  concerning key (rows ++ [r]) k =
    concerning key rows k ++ (if bool_decide (key r = k) then [r] else []).
Proof. unfold concerning. rewrite filter_app, filter_cons. by repeat case_decide; repeat case_bool_decide. Qed.

Lemma condition_snoc name rows r : condition name (rows ++ [r]) = [name].
Proof. by destruct rows. Qed.

Lemma concerning_nil key rows k : k ∉ map key rows → concerning key rows k = [].
Proof.
  intros Hk. unfold concerning. destruct (filter _ rows) as [|r l] eqn:E; [done|].
  exfalso. assert (r ∈ filter (λ r, key r = k) rows) as Hr by (rewrite E; by left).
  apply list_elem_of_filter in Hr as [<- Hr]. apply Hk. by apply list_elem_of_fmap_2.
Qed.

Lemma pressure_entry_new mem sysDisk poolDisk k :
  k ∉ pressure_keys mem sysDisk poolDisk →
  pressure_entry mem sysDisk poolDisk k = MkPressuredNode k.1 k.2 [] None None None.
Proof.
  unfold pressure_keys. rewrite elem_of_first_occurrences, !elem_of_app. intros H.
  unfold pressure_entry. by rewrite !concerning_nil by tauto.
Qed.

(** Adding one row extends the report of the rows seen so far. *)
Lemma pressure_report_snoc add (key : PoolRow → string * string) f mem sys disk mem' sys' disk' r :
  (∀ l, add l r = pressure_upsert (key r) f l) →
  pressure_keys mem' sys' disk' =
    (if bool_decide (key r ∈ pressure_keys mem sys disk) then pressure_keys mem sys disk
     else pressure_keys mem sys disk ++ [key r]) →
  (∀ k, k ≠ key r → pressure_entry mem' sys' disk' k = pressure_entry mem sys disk k) →
  pressure_entry mem' sys' disk' (key r) = f (pressure_entry mem sys disk (key r)) →
  add (pressure_report mem sys disk) r = pressure_report mem' sys' disk'.
Proof.
  intros Hadd Hkeys Hne Heq. unfold pressure_report. rewrite Hadd, Hkeys.
  apply pressure_upsert_map; [by intros []|done|done| |apply NoDup_first_occurrences].
  apply pressure_entry_new.
Qed.

Lemma keep_first_snoc (l : list (option time)) x :
  first_some (l ++ [x]) = keep_first (first_some l) x.
Proof. rewrite first_some_snoc. unfold keep_first. by case_match. Qed.

Ltac solve_pressure_step :=
  intros; unfold pressure_entry; rewrite concerning_snoc;
  (rewrite bool_decide_eq_false_2 by congruence) || rewrite bool_decide_eq_true_2 by done;
  rewrite ?app_nil_r, ?condition_snoc, ?map_app; simpl; rewrite ?keep_first_snoc; [].

Lemma add_memory_report mem r :
  add_memory_pressure (pressure_report mem [] []) r = pressure_report (mem ++ [r]) [] [].
Proof.
  eapply (pressure_report_snoc add_memory_pressure node_key); [done| | |].
  - unfold pressure_keys. rewrite map_app. simpl.
    by rewrite ?app_nil_r, ?app_assoc, first_occurrences_snoc.
  - by solve_pressure_step.
  - solve_pressure_step. f_equal. by destruct (concerning node_key mem (node_key r)).
Qed.

Lemma add_system_disk_report mem sys r :
  add_system_disk_pressure (pressure_report mem sys []) r = pressure_report mem (sys ++ [r]) [].
Proof.
  eapply (pressure_report_snoc add_system_disk_pressure node_key); [done| | |].
  - unfold pressure_keys. rewrite map_app. simpl.
    by rewrite ?app_nil_r, ?app_assoc, first_occurrences_snoc.
  - by solve_pressure_step.
  - solve_pressure_step. f_equal.
    by destruct (concerning node_key mem _), (concerning node_key sys _).
Qed.

Lemma add_disk_report mem sys disk r :
  add_disk_pressure (pressure_report mem sys disk) r = pressure_report mem sys (disk ++ [r]).
Proof.
  eapply (pressure_report_snoc add_disk_pressure pool_key); [done| | |].
  - unfold pressure_keys. rewrite map_app. simpl.
    by rewrite ?app_nil_r, ?app_assoc, first_occurrences_snoc.
  - by solve_pressure_step.
  - solve_pressure_step. f_equal.
    by destruct (concerning node_key mem _), (concerning node_key sys _),
                (concerning pool_key disk _).
Qed.

(** The pressure payload computed by upserts is the declarative report: one
    entry per affected node (or node and pool), in order of first occurrence,
    with the conditions reported for it and the first timestamp of each. *)
Theorem buildNodePressureDetail_report mem sysDisk poolDisk :
  npd_Nodes (buildNodePressureDetail mem sysDisk poolDisk) =
    pressure_report mem sysDisk poolDisk.
Proof.
  unfold buildNodePressureDetail. simpl.
  assert (foldl add_memory_pressure [] mem = pressure_report mem [] []) as ->.
  { induction mem as [|r mem IH] using rev_ind; [done|].
    by rewrite foldl_app, IH, <-add_memory_report. }
  assert (foldl add_system_disk_pressure (pressure_report mem [] []) sysDisk
          = pressure_report mem sysDisk []) as ->.
  { induction sysDisk as [|r l IH] using rev_ind; [done|].
    by rewrite foldl_app, IH, <-add_system_disk_report. }
  induction poolDisk as [|r l IH] using rev_ind; [done|].
  by rewrite foldl_app, IH, <-add_disk_report.
Qed.

(** ** A concrete cluster

    Three nodes with the pool ["fast"]: [beta] is loaded, [alpha] and [gamma]
    are not, the overlay network is not ready on [alpha], and a memory demand
    of 64 GiB fits nowhere. *)
Module Cluster.
Definition parse : string → option uuid := λ _, None.
Definition caps : bytes → option (option Z) := λ _, Some (Some 512).
Definition undef : float64 → Z := λ _, 0.

Definition node (id : N) (name : string) (cpu mem : Z) : NodeEffectiveAvailability :=
  MkNEA (Uuid id) name NodeStatusReady None (Some 16) (Some cpu) (Some cpu) (Some 32768) (Some mem) (Some mem)
    "{}" None None.

Definition pool (id : N) : PoolEffectiveCapacity :=
  MkPEC (Uuid (100 + id)) (Uuid id) "fast" "local_dir" (Some 1000000) (Some 900000) (Some 900000) None.

Definition row (id : N) (name : string) (cpu mem : Z) : PoolRow :=
  MkPoolRow (pool id) (node id name cpu mem).

Definition rows : list PoolRow :=
  [row 2 "beta" 4 8192; row 1 "alpha" 16 32768; row 3 "gamma" 16 32768].

Definition net : uuid := Uuid 50.

Definition q : Querier idM := {|
  ListEligiblePoolsByName := λ _, Ok rows;
  ListMemoryPressuredCandidatesByName := λ _, Ok [];
  ListSystemDiskPressuredCandidatesByName := λ _, Ok [];
  ListDiskPressuredPoolsByName := λ _, Ok [];
  ListStoragePoolsByName := λ name,
    Ok (map (λ r, MkStoragePool (pec_ID (row_Pool r)) (pec_NodeID (row_Pool r)) name "local_dir" "/pools"
                    (Some 1000000) (Some 900000) None "" None 0 "ready" None None 0 0 None) rows);
  CountRunningVMsByNode := λ _, Ok 1;
  ListNetworkNodeStatusByNode := λ n,
    Ok [MkNetworkNodeStatus net n (if bool_decide (n = Uuid 1) then "pending" else "ready") None None 0 0] |}.

Definition req (mem : Z) : PlacementRequest :=
  MkPlacementRequest "fast" None None 2 mem 4096 [net].

Definition cfg : PlacementConfig := MkPlacementConfig ""
  (MkResourcesConfig (MkResourceConfig true (f64_of_Z 2))
     (MkMemoryResourceConfig true (f64_of_Z 2) 256 (f64_of_Z 1))
     (MkResourceConfig true (f64_of_Z 1))).

Definition decision : PlacementDecision :=
  MkPlacementDecision (node 3 "gamma" 16 32768) (pool 3).

Definition schedule (mem : Z) : result sched_error PlacementDecision :=
  SchedulePlacement parse caps undef q (req mem) cfg.

Definition shortage : InsufficientResourcesDetail :=
  match schedule 65536 with
  | Err (insufficientResourcesError d) => d
  | _ => MkInsufficientResourcesDetail 0 0 0 0 0 []
  end.
End Cluster.

Lemma SchedulePlacement_sound_witness :
  ∃ r, r ∈ Cluster.rows ∧ Cluster.decision = MkPlacementDecision (row_Node r) (row_Pool r).
Proof.
  destruct (SchedulePlacement_sound Cluster.parse Cluster.caps Cluster.undef Cluster.q
    (Cluster.req 2048) Cluster.cfg Cluster.decision) as (rows & r & Hl & Hr & Hd & _).
  - vm_compute. reflexivity.
  - exists r. injection Hl as <-. by split.
Defined.

Lemma SchedulePlacement_optimal_witness :
  ∃ r s, row_score Cluster.caps Cluster.undef Cluster.q (Cluster.req 2048) Cluster.cfg r = Ok s ∧
    Cluster.decision = MkPlacementDecision (row_Node r) (row_Pool r).
Proof.
  destruct (SchedulePlacement_optimal Cluster.parse Cluster.caps Cluster.undef Cluster.q
    (Cluster.req 2048) Cluster.cfg Cluster.decision) as (rows & r & s & _ & _ & Hd & Hs & _).
  - vm_compute. reflexivity.
  - exists r, s. by split.
Defined.

Lemma SchedulePlacement_complete_witness : ∃ d, Cluster.schedule 2048 = Ok d.
Proof.
  apply (SchedulePlacement_complete Cluster.parse Cluster.caps Cluster.undef Cluster.q
    (Cluster.req 2048) Cluster.cfg Cluster.rows).
  - done.
  - by left.
  - done.
  - intros n. by exists 1.
  - intros n. by eexists.
  - exists (Cluster.row 3 "gamma" 16 32768). constructor.
    + split; [simpl; set_solver|done].
    + intros _. constructor.
      * intros _. exists 16. split; vm_compute; reflexivity.
      * intros _. exists 32768. split; vm_compute; reflexivity.
      * intros _ _. exists 900000. split; vm_compute; reflexivity.
    + right. eexists. split; [reflexivity|]. intros n ->%list_elem_of_singleton.
      vm_compute. reflexivity.
Defined.

Lemma SchedulePlacement_insufficient_witness :
  ird_CandidatesConsidered Cluster.shortage = 3%nat ∧
  ∃ rs, ird_CandidatesConsidered Cluster.shortage = length rs ∧
    ∀ r, r ∈ rs → ¬ resources_suffice Cluster.caps Cluster.undef r (Cluster.req 65536)
                      (pc_Resources Cluster.cfg).
Proof.
  destruct (SchedulePlacement_insufficient Cluster.parse Cluster.caps Cluster.undef Cluster.q
    (Cluster.req 65536) Cluster.cfg Cluster.shortage) as (rows & _ & rs & _ & Hlen & _ & Hrs).
  - vm_compute. reflexivity.
  - split; [vm_compute; reflexivity|]. exists rs. split; [done|]. intros r Hr. by apply Hrs.
Defined.
