(* ===== verification/Strconv.v ===== *)
(** * Decimal integers as text

    The decimal conversions the store uses: [strconv.FormatInt] and
    [strconv.ParseInt] in base 10 for the sequence counters, and the zero-padded
    [fmt.Sprintf("%020d")] of the job keys.  The lemmas are the round trips and
    the fact the job queue rests on: padded keys sort lexically as the numbers
    sort. *)

From Stdlib Require Import Ascii.
From S2P Require Import Prelude.
Local Open Scope string_scope.
Local Open Scope Z_scope.

Module Strconv.

Definition digit (d : Z) : Ascii.ascii := Ascii.ascii_of_N (Z.to_N (48 + d)).

Definition digit_val (c : Ascii.ascii) : option Z :=
  let n := Z.of_N (Ascii.N_of_ascii c) in
  if (48 <=? n) && (n <=? 57) then Some (n - 48) else None.

(** The low [w] decimal digits of [n], most significant first. *)
Fixpoint fixed_digits (w : nat) (n : Z) : string :=
  match w with
  | O => ""
  | S w => String (digit (n / 10 ^ Z.of_nat w mod 10)) (fixed_digits w n)
  end.

(** The number of decimal digits of [n], at least one. *)
Fixpoint count_digits (fuel : nat) (n : Z) : nat :=
  match fuel with
  | O => 1
  | S fuel => if n <? 10 then 1%nat else S (count_digits fuel (n / 10))
  end.

Definition format_nat (n : Z) : string := fixed_digits (count_digits 19 n) n.

Definition FormatInt (n : Z) : string :=
  if n <? 0 then "-" +:+ format_nat (- n) else format_nat n.

(** [fmt.Sprintf("%020d", n)] of an int64: the sign counts towards the width. *)
Definition Sprintf020d (n : Z) : string :=
  if n <? 0 then "-" +:+ fixed_digits 19 (- n) else fixed_digits 20 n.

(** The value of a digit string, continuing [acc]. *)
Fixpoint digits_val (s : string) (acc : Z) : option Z :=
  match s with
  | "" => Some acc
  | String c s => match digit_val c with
                  | Some d => digits_val s (10 * acc + d)
                  | None => None
                  end
  end.

Definition parse_nat (s : string) : option Z :=
  match s with "" => None | _ => digits_val s 0 end.

(** [strconv.ParseInt(s, 10, 64)]; [None] is a syntax or range error. *)
Definition ParseInt (s : string) : option Z :=
  let v := match s with
           | String "-"%char s' => Z.opp <$> parse_nat s'
           | String "+"%char s' => parse_nat s'
           | _ => parse_nat s
           end in
  match v with
  | Some n => if (- 2 ^ 63 <=? n) && (n <=? max_i64) then Some n else None
  | None => None
  end.

(** ** Digits *)

Lemma digit_val_digit d : 0 ≤ d < 10 → digit_val (digit d) = Some d.
Proof.
  intros Hd. unfold digit_val, digit. rewrite Ascii.N_ascii_embedding by lia.
  rewrite Z2N.id by lia. rewrite (proj2 (Z.leb_le 48 (48 + d))) by lia.
  rewrite (proj2 (Z.leb_le (48 + d) 57)) by lia. simpl. f_equal. lia.
Qed.

Lemma digits_val_fixed w n acc :
  0 ≤ n → digits_val (fixed_digits w n) acc = Some (acc * 10 ^ Z.of_nat w + n mod 10 ^ Z.of_nat w).
Proof.
  revert acc. induction w as [|w IH]; intros acc Hn.
  { simpl. rewrite Z.mod_1_r. f_equal. lia. }
  cbn [fixed_digits digits_val].
  assert (0 < 10 ^ Z.of_nat w) by (apply Z.pow_pos_nonneg; lia).
  rewrite digit_val_digit by (apply Z.mod_pos_bound; lia). rewrite IH by done. f_equal.
  replace (Z.of_nat (S w)) with (Z.of_nat w + 1) by lia.
  rewrite Z.pow_add_r, Z.pow_1_r by lia.
  rewrite (Z.rem_mul_r n (10 ^ Z.of_nat w) 10) by lia. ring.
Qed.

Lemma fixed_digits_nonempty w n : w ≠ 0%nat → fixed_digits w n ≠ "".
Proof. by destruct w. Qed.

Lemma parse_nat_fixed w n :
  w ≠ 0%nat → 0 ≤ n < 10 ^ Z.of_nat w → parse_nat (fixed_digits w n) = Some n.
Proof.
  intros Hw Hn. unfold parse_nat. pose proof (digits_val_fixed w n 0 ltac:(lia)) as Hv.
  rewrite Z.mod_small in Hv by lia. rewrite Z.mul_0_l, Z.add_0_l in Hv.
  destruct w; [done|]. exact Hv.
Qed.

Lemma count_digits_bound fuel n :
  0 ≤ n < 10 ^ (Z.of_nat fuel + 1) → n < 10 ^ Z.of_nat (count_digits fuel n).
Proof.
  revert n. induction fuel as [|fuel IH]; intros n Hn; [simpl in *; lia|].
  cbn [count_digits]. destruct (Z.ltb_spec n 10); [lia|].
  replace (Z.of_nat (S (count_digits fuel (n / 10)))) with
    (1 + Z.of_nat (count_digits fuel (n / 10))) by lia.
  replace (Z.of_nat (S fuel) + 1) with (1 + (Z.of_nat fuel + 1)) in Hn by lia.
  rewrite Z.pow_add_r in Hn |- * by lia.
  assert (n / 10 < 10 ^ Z.of_nat (count_digits fuel (n / 10))) as Hd.
  { apply IH. split; [apply Z.div_pos; lia|]. apply Z.div_lt_upper_bound; lia. }
  pose proof (Z.mod_pos_bound n 10 ltac:(lia)). pose proof (Z.div_mod n 10 ltac:(lia)). lia.
Qed.

Lemma parse_nat_format n : 0 ≤ n < 10 ^ 20 → parse_nat (format_nat n) = Some n.
Proof.
  intros Hn. apply parse_nat_fixed; [by destruct (n <? 10) eqn:E; simpl; rewrite E|].
  split; [lia|]. by apply count_digits_bound.
Qed.

(** A digit string starts with neither sign. *)
Lemma fixed_digits_not_sign w n c s :
  fixed_digits w n = String c s → c ≠ "-"%char ∧ c ≠ "+"%char.
Proof.
  destruct w as [|w]; [done|]. cbn [fixed_digits]. intros [= <- _].
  pose proof (Z.mod_pos_bound (n / 10 ^ Z.of_nat w) 10 ltac:(lia)) as Hd.
  split; intros E; apply (f_equal digit_val) in E;
    by rewrite digit_val_digit in E by lia.
Qed.

Lemma parse_unsigned {A} w n (f g h : string → A) :
  w ≠ 0%nat →
  match fixed_digits w n with
  | String "-"%char s' => f s'
  | String "+"%char s' => g s'
  | _ => h (fixed_digits w n)
  end = h (fixed_digits w n).
Proof.
  intros Hw. destruct (fixed_digits w n) as [|c s] eqn:E; [by destruct w|].
  apply fixed_digits_not_sign in E as [H1 H2].
  destruct c as [[] [] [] [] [] [] [] []]; done.
Qed.

Lemma ParseInt_FormatInt n : in_i64 n → ParseInt (FormatInt n) = Some n.
Proof.
  unfold in_i64, max_i64. intros Hn. unfold ParseInt, FormatInt.
  destruct (Z.ltb_spec n 0).
  - change ("-" +:+ format_nat (- n)) with (String "-"%char (format_nat (- n))). lazy iota beta.
    rewrite parse_nat_format by lia. cbn [fmap option_fmap option_map].
    rewrite Z.opp_involutive.
    by rewrite (proj2 (Z.leb_le (- 2 ^ 63) n)), (proj2 (Z.leb_le n max_i64)) by (unfold max_i64; lia).
  - unfold format_nat. rewrite parse_unsigned by (by destruct (n <? 10) eqn:E; simpl; rewrite E).
    fold (format_nat n). rewrite parse_nat_format by lia.
    by rewrite (proj2 (Z.leb_le (- 2 ^ 63) n)), (proj2 (Z.leb_le n max_i64)) by (unfold max_i64; lia).
Qed.

Lemma ParseInt_Sprintf020d n : in_i64 n → ParseInt (Sprintf020d n) = Some n.
Proof.
  unfold in_i64, max_i64. intros Hn. unfold ParseInt, Sprintf020d.
  destruct (Z.ltb_spec n 0).
  - change ("-" +:+ fixed_digits 19 (- n)) with (String "-"%char (fixed_digits 19 (- n))).
    lazy iota beta. rewrite parse_nat_fixed by (done || lia).
    cbn [fmap option_fmap option_map]. rewrite Z.opp_involutive.
    by rewrite (proj2 (Z.leb_le (- 2 ^ 63) n)), (proj2 (Z.leb_le n max_i64)) by (unfold max_i64; lia).
  - rewrite parse_unsigned by done. rewrite parse_nat_fixed by (done || lia).
    by rewrite (proj2 (Z.leb_le (- 2 ^ 63) n)), (proj2 (Z.leb_le n max_i64)) by (unfold max_i64; lia).
Qed.

(** ** Order *)

Lemma digit_compare d1 d2 :
  0 ≤ d1 < 10 → 0 ≤ d2 < 10 → Ascii.compare (digit d1) (digit d2) = Z.compare d1 d2.
Proof.
  intros H1 H2. unfold Ascii.compare, digit. rewrite !Ascii.N_ascii_embedding by lia.
  rewrite (Z2N.inj_compare (48 + d1) (48 + d2)) by lia. apply Z.add_compare_mono_l.
Qed.

Lemma fixed_digits_compare w n1 n2 :
  0 ≤ n1 → 0 ≤ n2 →
  String.compare (fixed_digits w n1) (fixed_digits w n2) =
    Z.compare (n1 mod 10 ^ Z.of_nat w) (n2 mod 10 ^ Z.of_nat w).
Proof.
  intros Hn1 Hn2. induction w as [|w IH]; [by rewrite !Z.mod_1_r|].
  cbn [fixed_digits String.compare].
  rewrite digit_compare by (apply Z.mod_pos_bound; lia). rewrite IH.
  replace (Z.of_nat (S w)) with (Z.of_nat w + 1) by lia.
  set (p := 10 ^ Z.of_nat w). assert (0 < p) by (apply Z.pow_pos_nonneg; lia).
  rewrite Z.pow_add_r, Z.pow_1_r by lia. fold p.
  rewrite (Z.rem_mul_r n1 p 10), (Z.rem_mul_r n2 p 10) by lia.
  pose proof (Z.mod_pos_bound n1 p ltac:(lia)). pose proof (Z.mod_pos_bound n2 p ltac:(lia)).
  destruct (Z.compare_spec (n1 / p mod 10) (n2 / p mod 10)) as [E|E|E].
  - rewrite E. symmetry.
    destruct (Z.compare_spec (n1 mod p) (n2 mod p)).
    all: first [apply Z.compare_eq_iff | apply Z.compare_lt_iff | apply Z.compare_gt_iff]; nia.
  - symmetry. apply Z.compare_lt_iff. nia.
  - symmetry. apply Z.compare_gt_iff. nia.
Qed.

(** The padded form of non-negative int64s sorts as the numbers do. *)
Lemma Sprintf020d_ltb n1 n2 :
  0 ≤ n1 ≤ max_i64 → 0 ≤ n2 ≤ max_i64 →
  str_ltb (Sprintf020d n1) (Sprintf020d n2) = (n1 <? n2).
Proof.
  unfold max_i64. intros H1 H2. unfold Sprintf020d, str_ltb, String.ltb.
  rewrite (proj2 (Z.ltb_ge n1 0)), (proj2 (Z.ltb_ge n2 0)) by lia.
  rewrite fixed_digits_compare by lia. rewrite !Z.mod_small by (simpl; lia).
  unfold Z.ltb. by destruct (n1 ?= n2).
Qed.

End Strconv.
