(* ===== verification/Netip.v ===== *)
(** * IPv4 addresses and prefixes: what the store uses of net/netip

    An IPv4 [netip.Addr] is its 32-bit value and a [netip.Prefix] an address with
    a number of bits.  [Addr_String] and [ParseAddr] are the dotted decimal text
    form; [ParseAddr] gives the IPv4 addresses among what [netip.ParseAddr]
    accepts. *)

From Stdlib Require Import Ascii.
From S2P Require Import Prelude Models Strconv.
Import Strconv.
Local Open Scope Z_scope.

Definition addr_ok (ip : Z) : Prop := 0 ≤ ip < 2 ^ 32.

(** ** Text *)

(** [Addr.As4], most significant octet first. *)
Definition As4 (ip : Z) : list Z := [ip / 2 ^ 24 mod 256; ip / 2 ^ 16 mod 256; ip / 2 ^ 8 mod 256; ip mod 256].

Definition AddrFrom4 (b : list Z) : Z := foldl (λ acc o, 256 * acc + o) 0 b.

Definition Addr_String (ip : Z) : string := str_join "." (map format_nat (As4 ip)).

(** The loop of [netip.parseIPv4Fields]: [val] and [digLen] of the field that is
    being read, and the fields before it. *)
Fixpoint parseIPv4Fields (s : string) (fields : list Z) (val : Z) (digLen : nat) : option (list Z) :=
  match s with
  | "" => if (length fields <? 3)%nat then None else Some (fields ++ [val])
  | String c s =>
    match digit_val c with
    | Some d =>
      if (digLen =? 1)%nat && (val =? 0) then None
      else let val := val * 10 + d in
           if 255 <? val then None else parseIPv4Fields s fields val (S digLen)
    | None =>
      if Ascii.eqb c "."%char then
        if (digLen =? 0)%nat || bool_decide (s = "") then None
        else if (length fields =? 3)%nat then None
        else parseIPv4Fields s (fields ++ [val]) 0 0
      else None
    end
  end.

(** [netip.ParseAddr] looks for the first of dot, colon and percent sign; only a
    dot makes it an IPv4 address. *)
Fixpoint dotted (s : string) : bool :=
  match s with
  | "" => false
  | String c s =>
    if Ascii.eqb c "."%char then true
    else if Ascii.eqb c ":"%char || Ascii.eqb c "%"%char then false
    else dotted s
  end.

Definition ParseAddr (s : string) : option Z :=
  if dotted s then AddrFrom4 <$> parseIPv4Fields s [] 0 0 else None.

(** ** Prefixes *)

Definition host_bits (p : Prefix) : Z := 32 - prefix_Bits p.

(** [Prefix.Masked().Addr()]. *)
Definition Masked (p : Prefix) : Z := Z.shiftl (Z.shiftr (prefix_Addr p) (host_bits p)) (host_bits p).

(** [Prefix.Contains] of a valid IPv4 address. *)
Definition Contains (p : Prefix) (ip : Z) : bool := Z.shiftr (Z.lxor ip (prefix_Addr p)) (host_bits p) =? 0.

(** [Addr.Next]; the zero [Addr], which is not valid, past the last address. *)
Definition Next (ip : Z) : option Z := if ip + 1 <? 2 ^ 32 then Some (ip + 1) else None.

(** ** Lemmas *)

#[local] Ltac Zify.zify_post_hook ::= Z.to_euclidean_division_equations.

Lemma As4_octets ip : Forall (λ o, 0 ≤ o < 256) (As4 ip).
Proof. repeat constructor; apply Z.mod_pos_bound; lia. Qed.

Lemma AddrFrom4_As4 ip : addr_ok ip → AddrFrom4 (As4 ip) = ip.
Proof.
  unfold addr_ok, AddrFrom4, As4. simpl foldl. intros H.
  pose proof (Z.div_mod ip 256 ltac:(lia)). pose proof (Z.div_mod (ip / 256) 256 ltac:(lia)).
  pose proof (Z.div_mod (ip / 256 / 256) 256 ltac:(lia)).
  change (2 ^ 24) with (256 * 256 * 256). change (2 ^ 16) with (256 * 256). change (2 ^ 8) with 256.
  rewrite <-!Z.div_div by lia.
  rewrite (Z.mod_small (ip / 256 / 256 / 256)); [lia|].
  split; [repeat apply Z.div_pos; lia|]. rewrite !Z.div_div by lia. apply Z.div_lt_upper_bound; lia.
Qed.

(** The text of an octet, and reading it. *)
Lemma format_octet o :
  0 ≤ o < 256 →
  format_nat o = String (digit o) "" ∧ o < 10 ∨
  format_nat o = String (digit (o / 10)) (String (digit (o mod 10)) "") ∧ 10 ≤ o < 100 ∨
  format_nat o = String (digit (o / 100)) (String (digit (o / 10 mod 10)) (String (digit (o mod 10)) "")) ∧ 100 ≤ o.
Proof.
  intros Ho. unfold format_nat. destruct (Z.ltb_spec o 10) as [H1|H1].
  { left. split; [|done]. change (count_digits 19 o) with (if o <? 10 then 1%nat else S (count_digits 18 (o / 10))).
    rewrite (proj2 (Z.ltb_lt _ _) H1). cbn [fixed_digits]. change (10 ^ Z.of_nat 0) with 1.
    rewrite Z.div_1_r, Z.mod_small by lia. done. }
  change (count_digits 19 o) with (if o <? 10 then 1%nat else S (count_digits 18 (o / 10))).
  rewrite (proj2 (Z.ltb_ge _ _) H1).
  change (count_digits 18 (o / 10)) with (if o / 10 <? 10 then 1%nat else S (count_digits 17 (o / 10 / 10))).
  destruct (Z.ltb_spec (o / 10) 10) as [H2|H2].
  { right; left. assert (10 ≤ o < 100) by lia. split; [|done]. cbn [fixed_digits].
    change (10 ^ Z.of_nat 1) with 10. change (10 ^ Z.of_nat 0) with 1. rewrite Z.div_1_r.
    by rewrite (Z.mod_small (o / 10)) by lia. }
  right; right. assert (100 ≤ o) by lia. split; [|done].
  change (count_digits 17 (o / 10 / 10)) with (if o / 10 / 10 <? 10 then 1%nat else S (count_digits 16 (o / 10 / 10 / 10))).
  destruct (Z.ltb_spec (o / 10 / 10) 10) as [H3|H3]; [|lia]. cbn [fixed_digits].
  change (10 ^ Z.of_nat 2) with 100. change (10 ^ Z.of_nat 1) with 10. change (10 ^ Z.of_nat 0) with 1. rewrite Z.div_1_r.
  by rewrite (Z.mod_small (o / 100)) by lia.
Qed.

Lemma parse_digit d s fields val n :
  0 ≤ d < 10 → (n = 1%nat → val ≠ 0) → val * 10 + d ≤ 255 →
  parseIPv4Fields (String (digit d) s) fields val n = parseIPv4Fields s fields (val * 10 + d) (S n).
Proof.
  intros Hd Hn Hv. cbn [parseIPv4Fields]. rewrite digit_val_digit by done.
  destruct (Nat.eqb_spec n 1), (Z.eqb_spec val 0); try (by destruct (Hn _)); simpl;
    destruct (Z.ltb_spec 255 (val * 10 + d)); lia || done.
Qed.

Lemma parse_octet o fields rest :
  0 ≤ o < 256 →
  ∃ n, n ≠ 0%nat ∧ parseIPv4Fields (format_nat o +:+ rest) fields 0 0 = parseIPv4Fields rest fields o n.
Proof.
  intros Ho. destruct (format_octet o Ho) as [[-> Hd]|[[-> Hd]|[-> Hd]]].
  - exists 1%nat. split; [done|]. change (String ?c "" +:+ rest) with (String c rest).
    by rewrite parse_digit by lia.
  - exists 2%nat. split; [done|]. change (String ?c (String ?c' "") +:+ rest) with (String c (String c' rest)).
    rewrite parse_digit by lia. rewrite parse_digit by lia. f_equal; lia.
  - exists 3%nat. split; [done|].
    change (String ?c (String ?c' (String ?c2 "")) +:+ rest) with (String c (String c' (String c2 rest))).
    rewrite parse_digit by lia. rewrite parse_digit by lia. rewrite parse_digit by lia. f_equal; lia.
Qed.

Lemma parse_field o fields rest :
  0 ≤ o < 256 → (length fields < 3)%nat → rest ≠ "" →
  parseIPv4Fields (format_nat o +:+ "." +:+ rest) fields 0 0 = parseIPv4Fields rest (fields ++ [o]) 0 0.
Proof.
  intros Ho Hf Hr. destruct (parse_octet o fields ("." +:+ rest) Ho) as (n & Hn & ->).
  destruct n as [|n]; [done|]. simpl. rewrite bool_decide_eq_false_2 by done.
  destruct (Nat.eqb_spec (length fields) 3); [lia|done].
Qed.

Lemma digit_plain d : 0 ≤ d < 10 → digit_val (digit d) = Some d ∧ ∀ s, dotted (String (digit d) s) = dotted s.
Proof.
  intros Hd. split; [by apply digit_val_digit|]. intros s. assert (d ∈ [0; 1; 2; 3; 4; 5; 6; 7; 8; 9]) as Hin by (set_unfold; lia).
  repeat (apply elem_of_cons in Hin as [->|Hin]; [reflexivity|]). by apply elem_of_nil in Hin.
Qed.

Lemma dotted_octet o rest : 0 ≤ o < 256 → dotted (format_nat o +:+ "." +:+ rest) = true.
Proof.
  intros Ho. destruct (format_octet o Ho) as [[-> Hd]|[[-> Hd]|[-> Hd]]].
  - change (String ?c "" +:+ ?r) with (String c r). by rewrite (proj2 (digit_plain o ltac:(lia))).
  - change (String ?c (String ?c' "") +:+ ?r) with (String c (String c' r)).
    rewrite (proj2 (digit_plain (o / 10) ltac:(lia))). by rewrite (proj2 (digit_plain (o mod 10) ltac:(lia))).
  - change (String ?c (String ?c' (String ?c2 "")) +:+ ?r) with (String c (String c' (String c2 r))).
    rewrite (proj2 (digit_plain (o / 100) ltac:(lia))), (proj2 (digit_plain (o / 10 mod 10) ltac:(lia))).
    by rewrite (proj2 (digit_plain (o mod 10) ltac:(lia))).
Qed.

Lemma string_app_empty (s : string) : s +:+ "" = s.
Proof. induction s as [|c s IH]; [done|]. change (String c (s +:+ "") = String c s). by rewrite IH. Qed.

Lemma format_nonempty o s : 0 ≤ o < 256 → format_nat o +:+ s ≠ "".
Proof.
  intros Ho. by destruct (format_octet o Ho) as [[-> _]|[[-> _]|[-> _]]].
Qed.

(** The text of an address reads back as the address. *)
Lemma ParseAddr_String ip : addr_ok ip → ParseAddr (Addr_String ip) = Some ip.
Proof.
  intros Hip. rewrite <-(AddrFrom4_As4 ip) at 2 by done. pose proof (As4_octets ip) as Ho.
  unfold Addr_String, ParseAddr. unfold As4 in *.
  set (a := ip / 2 ^ 24 mod 256) in *. set (b := ip / 2 ^ 16 mod 256) in *.
  set (c := ip / 2 ^ 8 mod 256) in *. set (d := ip mod 256) in *.
  inversion_clear Ho as [|? ? Ha Ho']. inversion_clear Ho' as [|? ? Hb Ho'']. inversion_clear Ho'' as [|? ? Hc Hd].
  apply Forall_inv in Hd. simpl map. simpl str_join.
  rewrite dotted_octet by done.
  rewrite parse_field by (simpl; first [done|lia|by apply format_nonempty]).
  rewrite parse_field by (simpl; first [done|lia|by apply format_nonempty]).
  rewrite parse_field by (simpl; first [done|lia|rewrite <-(string_app_empty (format_nat d)); by apply format_nonempty]).
  rewrite <-(string_app_empty (format_nat d)). by destruct (parse_octet d ((([] ++ [a]) ++ [b]) ++ [c]) "" Hd) as (n & _ & ->).
Qed.

Lemma Addr_String_inj ip1 ip2 : addr_ok ip1 → addr_ok ip2 → Addr_String ip1 = Addr_String ip2 → ip1 = ip2.
Proof. intros H1 H2 E. apply (f_equal ParseAddr) in E. rewrite !ParseAddr_String in E by done. congruence. Qed.

(** ** Prefixes in arithmetic *)

Definition prefix_ok (p : Prefix) : Prop := addr_ok (prefix_Addr p) ∧ 0 ≤ prefix_Bits p ≤ 32.

Definition hosts (p : Prefix) : Z := 2 ^ host_bits p.

Lemma hosts_pos p : prefix_ok p → 0 < hosts p.
Proof. intros [_ ?]. unfold hosts, host_bits. apply Z.pow_pos_nonneg; lia. Qed.

Lemma Masked_div p : prefix_ok p → Masked p = prefix_Addr p / hosts p * hosts p.
Proof.
  intros [_ Hb]. unfold Masked, hosts. assert (0 ≤ host_bits p) by (unfold host_bits; lia).
  by rewrite Z.shiftl_mul_pow2, Z.shiftr_div_pow2.
Qed.

(** An address is in the prefix when it is between the network address and the
    last one. *)
Lemma Contains_spec p ip :
  prefix_ok p → 0 ≤ ip → Contains p ip = true ↔ Masked p ≤ ip < Masked p + hosts p.
Proof.
  intros Hp Hip. rewrite Masked_div by done. pose proof (hosts_pos p Hp) as Hh. destruct Hp as [[Ha _] Hb].
  unfold Contains. assert (0 ≤ host_bits p) by (unfold host_bits; lia). rewrite Z.eqb_eq.
  rewrite Z.shiftr_lxor, !Z.shiftr_div_pow2 by done. fold (hosts p). rewrite Z.lxor_eq_0_iff. split.
  - intros E. rewrite <-E. pose proof (Z.div_mod ip (hosts p) ltac:(lia)).
    pose proof (Z.mod_pos_bound ip (hosts p) Hh). lia.
  - intros H1. symmetry. apply (Z.div_unique _ _ _ (ip - prefix_Addr p / hosts p * hosts p)); lia.
Qed.

Lemma Masked_bounds p : prefix_ok p → 0 ≤ Masked p ∧ Masked p + hosts p ≤ 2 ^ 32.
Proof.
  intros Hp. rewrite Masked_div by done. pose proof (hosts_pos p Hp) as Hh. destruct Hp as [[Ha1 Ha2] Hb].
  assert (2 ^ 32 = 2 ^ prefix_Bits p * hosts p) as E.
  { unfold hosts, host_bits. rewrite <-Z.pow_add_r by lia. f_equal. lia. }
  split; [apply Z.mul_nonneg_nonneg; [apply Z.div_pos; lia|lia]|].
  assert (prefix_Addr p / hosts p < 2 ^ prefix_Bits p) by (apply Z.div_lt_upper_bound; lia). nia.
Qed.
