(* ===== verification/Base64.v ===== *)
(** * base64.RawURLEncoding

    The unpadded URL-safe base64 of Go's standard library.  Decoding skips line
    breaks, refuses any other character outside the alphabet and a last group of
    one character, and ignores the unused low bits of a shorter last group.
    [decode_encode] is the round trip; [decode_canonical] says which texts a
    payload of whole groups has. *)

From Stdlib Require Import Ascii.
From S2P Require Import Prelude.
Local Open Scope string_scope.
Local Open Scope Z_scope.

Module Base64.

Definition alphabet : string :=
  "ABCDEFGHIJKLMNOPQRSTUVWXYZabcdefghijklmnopqrstuvwxyz0123456789-_".

Definition char_of (n : Z) : ascii := default "A"%char (String.get (Z.to_nat n) alphabet).

Fixpoint find_char (c : ascii) (s : string) (n : Z) : option Z :=
  match s with
  | "" => None
  | String c' s => if Ascii.eqb c c' then Some n else find_char c s (n + 1)
  end.

Definition val_of (c : ascii) : option Z := find_char c alphabet 0.

Definition byte_val (c : ascii) : Z := Z.of_N (N_of_ascii c).
Definition byte_of (n : Z) : ascii := ascii_of_N (Z.to_N n).

(** [EncodeToString]: three bytes are four characters. *)
Fixpoint EncodeToString (s : string) : string :=
  match s with
  | String a (String b (String c s)) =>
    let a := byte_val a in let b := byte_val b in let c := byte_val c in
    String (char_of (a / 4)) (String (char_of (a mod 4 * 16 + b / 16))
      (String (char_of (b mod 16 * 4 + c / 64)) (String (char_of (c mod 64)) (EncodeToString s))))
  | String a (String b "") =>
    let a := byte_val a in let b := byte_val b in
    String (char_of (a / 4)) (String (char_of (a mod 4 * 16 + b / 16))
      (String (char_of (b mod 16 * 4)) ""))
  | String a "" =>
    let a := byte_val a in
    String (char_of (a / 4)) (String (char_of (a mod 4 * 16)) "")
  | "" => ""
  end.

Definition is_newline (c : ascii) : bool := Ascii.eqb c "010"%char || Ascii.eqb c "013"%char.

Fixpoint skip_newlines (s : string) : string :=
  match s with
  | "" => ""
  | String c s => if is_newline c then skip_newlines s else String c (skip_newlines s)
  end.

(** The bytes of groups of four characters. *)
Fixpoint decode_groups (s : string) : option string :=
  match s with
  | String a (String b (String c (String d s))) =>
    a ← val_of a; b ← val_of b; c ← val_of c; d ← val_of d; r ← decode_groups s;
    Some (String (byte_of (a * 4 + b / 16)) (String (byte_of (b mod 16 * 16 + c / 4))
            (String (byte_of (c mod 4 * 64 + d)) r)))
  | String a (String b (String c "")) =>
    a ← val_of a; b ← val_of b; c ← val_of c;
    Some (String (byte_of (a * 4 + b / 16)) (String (byte_of (b mod 16 * 16 + c / 4)) ""))
  | String a (String b "") =>
    a ← val_of a; b ← val_of b;
    Some (String (byte_of (a * 4 + b / 16)) "")
  | String _ "" => None
  | "" => Some ""
  end.

Definition DecodeString (s : string) : option string := decode_groups (skip_newlines s).

(** ** Characters *)

Lemma byte_val_range c : 0 ≤ byte_val c < 256.
Proof. unfold byte_val. pose proof (N_ascii_bounded c). lia. Qed.

Lemma byte_of_val c : byte_of (byte_val c) = c.
Proof. unfold byte_of, byte_val. rewrite N2Z.id. apply ascii_N_embedding. Qed.

Lemma byte_val_of n : 0 ≤ n < 256 → byte_val (byte_of n) = n.
Proof. intros Hn. unfold byte_val, byte_of. rewrite N_ascii_embedding; lia. Qed.

Lemma sextets (P : Z → Prop) :
  Forall P (map Z.of_nat (seq 0 64)) → ∀ n, 0 ≤ n < 64 → P n.
Proof.
  intros HP n Hn. rewrite Forall_forall in HP. apply HP. apply list_elem_of_fmap.
  exists (Z.to_nat n). split; [lia|]. apply elem_of_seq. lia.
Qed.

Lemma val_of_char n : 0 ≤ n < 64 → val_of (char_of n) = Some n.
Proof. revert n. apply sextets. repeat constructor. Qed.

Lemma char_not_newline n : 0 ≤ n < 64 → is_newline (char_of n) = false.
Proof. revert n. apply sextets. repeat constructor. Qed.

Lemma val_of_inv c n : val_of c = Some n → 0 ≤ n < 64 ∧ char_of n = c.
Proof. destruct c as [[] [] [] [] [] [] [] []]; vm_compute; intros; by simplify_eq. Qed.

(** ** Round trips *)

(** Induction over groups of a string. *)
Lemma string_ind3 (P : string → Prop) :
  P "" → (∀ a, P (String a "")) → (∀ a b, P (String a (String b ""))) →
  (∀ a b c s, P s → P (String a (String b (String c s)))) → ∀ s, P s.
Proof.
  intros H0 H1 H2 H3. fix IH 1. intros [|a [|b [|c s]]]; [done..|]. apply H3, IH.
Qed.

Lemma string_ind4 (P : string → Prop) :
  P "" → (∀ a, P (String a "")) → (∀ a b, P (String a (String b ""))) →
  (∀ a b c, P (String a (String b (String c "")))) →
  (∀ a b c d s, P s → P (String a (String b (String c (String d s))))) → ∀ s, P s.
Proof.
  intros H0 H1 H2 H3 H4. fix IH 1. intros [|a [|b [|c [|d s]]]]; [done..|]. apply H4, IH.
Qed.

Lemma skip_encode s : skip_newlines (EncodeToString s) = EncodeToString s.
Proof.
  induction s as [|a|a b|a b c s IH] using string_ind3; [done|..];
    cbn [EncodeToString skip_newlines]; rewrite ?char_not_newline, ?IH; try done;
    pose proof (byte_val_range a); try pose proof (byte_val_range b); try pose proof (byte_val_range c);
    Z.to_euclidean_division_equations; lia.
Qed.

Lemma decode_groups_encode s : decode_groups (EncodeToString s) = Some s.
Proof.
  induction s as [|a|a b|a b c s IH] using string_ind3; [done|..];
    cbn [EncodeToString decode_groups];
    pose proof (byte_val_range a); try pose proof (byte_val_range b); try pose proof (byte_val_range c);
    rewrite !val_of_char by (Z.to_euclidean_division_equations; lia); cbn [mbind option_bind];
    rewrite ?IH; cbn [mbind option_bind]; repeat f_equal;
    match goal with |- byte_of _ = ?x => trans (byte_of (byte_val x)); [f_equal|apply byte_of_val] end;
    Z.to_euclidean_division_equations; lia.
Qed.

Lemma decode_encode s : DecodeString (EncodeToString s) = Some s.
Proof. unfold DecodeString. by rewrite skip_encode, decode_groups_encode. Qed.

(** A payload of whole groups has one text, up to line breaks. *)
Lemma decode_canonical s b :
  (String.length b mod 3 = 0)%nat → DecodeString s = Some b → EncodeToString b = skip_newlines s.
Proof.
  unfold DecodeString. generalize (skip_newlines s) as t. clear s. intros t. revert b.
  induction t as [|a|a b|a b c|a b c d t IH] using string_ind4; intros r Hlen; cbn [decode_groups].
  - by intros [= <-].
  - done.
  - destruct (val_of a), (val_of b); [|done..]. intros [= <-]. done.
  - destruct (val_of a), (val_of b), (val_of c); [|done..]. intros [= <-]. done.
  - destruct (val_of a) as [na|] eqn:Ea, (val_of b) as [nb|] eqn:Eb, (val_of c) as [nc|] eqn:Ec,
      (val_of d) as [nd|] eqn:Ed; [|done..]. cbn [mbind option_bind].
    destruct (decode_groups t) as [r'|] eqn:Er; [|done]. intros [= <-]. cbn [EncodeToString].
    apply val_of_inv in Ea as [? <-], Eb as [? <-], Ec as [? <-], Ed as [? <-].
    rewrite !byte_val_of by (Z.to_euclidean_division_equations; lia).
    cbn [String.length] in Hlen.
    replace (S (S (S (String.length r')))) with (String.length r' + 1 * 3)%nat in Hlen by lia.
    rewrite Nat.Div0.mod_add in Hlen. rewrite (IH r' Hlen eq_refl).
    repeat f_equal; Z.to_euclidean_division_equations; lia.
Qed.
End Base64.
