(* ===== verification/Pagination.v ===== *)
(** * List cursors and limits: internal/api/pagination/pagination.go

    A cursor packs the creation time and the id of the last row of a page into
    24 bytes, sent as base64.  [cursor_roundtrip] is the agreement of the two
    directions; [limit_bounds] the range of a requested page size. *)

From Stdlib Require Import Ascii.
From S2P Require Import Prelude Models Strconv Base64.
Import Strconv Base64.
Local Open Scope string_scope.
Local Open Scope Z_scope.

Module Pagination.

Definition cursorPayloadLen : nat := 24.

Definition Limit (raw : Z) : Z :=
  let def := 50 in
  let maxLimit := 200 in
  if raw <=? 0 then def else if maxLimit <? raw then maxLimit else i32 raw.

(** [strconv.Atoi] on a 64-bit platform is [ParseInt]. *)
Definition ParseLimit (raw : string) : Z :=
  if bool_decide (raw = "") then 0
  else match ParseInt raw with
       | None => 0
       | Some n => if n <? 0 then 0 else n
       end.

Record Cursor := MkCursor { cur_CreatedAt : time; cur_ID : uuid }.

(** [binary.BigEndian.PutUint64] and [Uint64], for any width. *)
Fixpoint put_be (w : nat) (n : Z) : string :=
  match w with
  | O => ""
  | S w => String (byte_of (n / 256 ^ Z.of_nat w mod 256)) (put_be w n)
  end.

Fixpoint be_val (s : string) : Z :=
  match s with
  | "" => 0
  | String c s => byte_val c * 256 ^ Z.of_nat (String.length s) + be_val s
  end.

Definition u64 (z : Z) : Z := z mod 2 ^ 64.

(** The sixteen bytes of a uuid. *)
Definition uuid_bytes (u : uuid) : string := put_be 16 (Z.of_N (uuid_bits u)).
Definition uuid_of_bytes (s : string) : uuid := Uuid (Z.to_N (be_val s)).

(** A time is its [UnixNano]. *)
Definition Encode (c : option Cursor) : string :=
  match c with
  | None => ""
  | Some c => EncodeToString (put_be 8 (u64 (i64 (cur_CreatedAt c))) +:+ uuid_bytes (cur_ID c))
  end.

Inductive cursor_error := BadBase64 | UnexpectedLength (n : nat) | MissingID.

Definition Decode (s : string) : result cursor_error (option Cursor) :=
  if bool_decide (s = "") then Ok None
  else match DecodeString s with
  | None => Err BadBase64
  | Some raw =>
    if negb (bool_decide (String.length raw = cursorPayloadLen)) then Err (UnexpectedLength (String.length raw))
    else
      let nanos := i64 (be_val (String.substring 0 8 raw)) in
      let id := uuid_of_bytes (String.substring 8 16 raw) in
      if bool_decide (id = uuid_nil) then Err MissingID
      else Ok (Some (MkCursor nanos id))
  end.

(** ** Fixed-width numbers *)

Lemma put_be_length w n : String.length (put_be w n) = w.
Proof. induction w; simpl; congruence. Qed.

Lemma be_val_put w n : 0 ≤ n → be_val (put_be w n) = n mod 256 ^ Z.of_nat w.
Proof.
  intros Hn. induction w as [|w IH]; [by rewrite Z.mod_1_r|].
  cbn [put_be be_val]. rewrite put_be_length, IH.
  rewrite byte_val_of by (apply Z.mod_pos_bound; lia).
  replace (Z.of_nat (S w)) with (Z.of_nat w + 1) by lia. rewrite Z.pow_add_r, Z.pow_1_r by lia.
  rewrite (Z.rem_mul_r n (256 ^ Z.of_nat w) 256) by lia. ring.
Qed.

Lemma be_val_range s : 0 ≤ be_val s < 256 ^ Z.of_nat (String.length s).
Proof.
  induction s as [|c s IH]; [done|]. cbn [be_val String.length].
  replace (Z.of_nat (S (String.length s))) with (Z.of_nat (String.length s) + 1) by lia.
  rewrite Z.pow_add_r, Z.pow_1_r by lia. pose proof (byte_val_range c). nia.
Qed.

Lemma put_be_mod w n : put_be w (n mod 256 ^ Z.of_nat w) = put_be w n.
Proof.
  assert (∀ v, (v ≤ w)%nat → put_be v (n mod 256 ^ Z.of_nat w) = put_be v n) as Hv; [|by apply Hv].
  induction v as [|v IH]; intros Hvw; [done|]. cbn [put_be]. rewrite IH by lia. do 2 f_equal.
  replace (Z.of_nat w) with (Z.of_nat v + 1 + Z.of_nat (w - S v)) by lia.
  rewrite !Z.pow_add_r, Z.pow_1_r by lia.
  set (a := 256 ^ Z.of_nat v). set (b := 256 ^ Z.of_nat (w - S v)).
  assert (0 < a) by (apply Z.pow_pos_nonneg; lia). assert (0 < b) by (apply Z.pow_pos_nonneg; lia).
  rewrite <-Z.mul_assoc, Z.rem_mul_r by lia. rewrite Z.mul_comm, Z.div_add, Z.div_small by (try apply Z.mod_pos_bound; lia).
  rewrite Z.add_0_l. rewrite Z.rem_mul_r by lia. rewrite Z.mul_comm, Z.mod_add by lia. by rewrite Z.mod_mod by lia.
Qed.

Lemma put_be_val s : put_be (String.length s) (be_val s) = s.
Proof.
  induction s as [|c s IH]; [done|]. cbn [put_be be_val String.length].
  set (p := 256 ^ Z.of_nat (String.length s)). pose proof (be_val_range s) as Hr. fold p in Hr.
  pose proof (byte_val_range c).
  f_equal.
  - rewrite Z.add_comm, Z.div_add, Z.div_small, Z.add_0_l, Z.mod_small, byte_of_val by lia. done.
  - rewrite <-put_be_mod. fold p. rewrite Z.add_comm, Z.mod_add, Z.mod_small by lia. done.
Qed.

Lemma substring_app s t n :
  String.length s = n → String.substring 0 n (s +:+ t) = s.
Proof. intros <-. induction s as [|c s IH]; [by destruct t|]. simpl. by rewrite IH. Qed.

Lemma substring_whole s : String.substring 0 (String.length s) s = s.
Proof. induction s as [|c s IH]; [done|]. simpl. by rewrite IH. Qed.

Lemma substring_skip s t n m :
  String.length s = n → String.length t = m → String.substring n m (s +:+ t) = t.
Proof.
  intros <- <-. induction s as [|c s IH]; [apply substring_whole|]. simpl. exact IH.
Qed.

Lemma substring_split s n m :
  String.length s = (n + m)%nat → String.substring 0 n s +:+ String.substring n m s = s ∧
    String.length (String.substring 0 n s) = n ∧ String.length (String.substring n m s) = m.
Proof.
  revert n. induction s as [|c s IH]; intros n Hlen.
  - simpl in Hlen. assert (n = 0%nat ∧ m = 0%nat) as [-> ->] by lia. done.
  - destruct n as [|n].
    + simpl in Hlen. subst m. clear IH. simpl. split; [|split; [done|]].
      * by rewrite substring_whole.
      * by rewrite substring_whole.
    + simpl in Hlen. destruct (IH n) as (E & L1 & L2); [lia|]. simpl. split_and!; [|by rewrite L1|done].
      by rewrite <-E at 3.
Qed.

Lemma u64_i64 z : in_i64 z → i64 (u64 z) = z.
Proof.
  intros Hz. unfold u64, i64, wrap_signed, in_i64, max_i64 in *. change (64 - 1) with 63.
  rewrite Z.add_mod_idemp_l by lia. rewrite Z.mod_small; lia.
Qed.

Lemma i64_u64 z : 0 ≤ z < 2 ^ 64 → u64 (i64 z) = z.
Proof.
  intros Hz. unfold u64, i64, wrap_signed. change (64 - 1) with 63.
  rewrite Zminus_mod_idemp_l. replace (z + 2 ^ 63 - 2 ^ 63) with z by lia. by apply Z.mod_small.
Qed.

(** ** The page size *)

(** C35. Whatever the query string holds, the page size is between 1 and 200. *)
Theorem limit_bounds raw : 1 ≤ Limit (ParseLimit raw) ≤ 200.
Proof.
  unfold Limit. destruct (Z.leb_spec (ParseLimit raw) 0); [lia|].
  destruct (Z.ltb_spec 200 (ParseLimit raw)); [lia|].
  rewrite i32_id; [lia|]. unfold in_i32, max_i32. lia.
Qed.

(** ** The cursor *)

(** A cursor that can be sent: its time is in range, it names a row. *)
Definition cursor_ok (c : Cursor) : Prop :=
  in_i64 (cur_CreatedAt c) ∧ (uuid_bits (cur_ID c) < 2 ^ 128)%N ∧ cur_ID c ≠ uuid_nil.

Lemma Decode_Encode c : cursor_ok c → Decode (Encode (Some c)) = Ok (Some c).
Proof.
  intros (Ht & Hid & Hnil). destruct c as [t id]. cbn [cur_CreatedAt cur_ID] in *.
  unfold Encode, Decode. cbn [cur_CreatedAt cur_ID].
  set (p := put_be 8 (u64 (i64 t)) +:+ uuid_bytes id).
  assert (EncodeToString p ≠ "") as Hne by done. rewrite bool_decide_eq_false_2 by done.
  rewrite decode_encode. rewrite bool_decide_eq_true_2 by done. cbn [negb].
  unfold p. rewrite substring_app by apply put_be_length.
  rewrite substring_skip by apply put_be_length.
  rewrite (i64_id t) by done. rewrite be_val_put by (apply Z.mod_pos_bound; lia).
  change (256 ^ Z.of_nat 8) with (2 ^ 64). rewrite Z.mod_small by (apply Z.mod_pos_bound; lia).
  rewrite u64_i64 by done. unfold uuid_of_bytes, uuid_bytes. rewrite be_val_put by lia.
  change (256 ^ Z.of_nat 16) with (2 ^ 128). rewrite Z.mod_small by lia. rewrite N2Z.id.
  destruct id as [b]. cbn [uuid_bits] in *. by rewrite bool_decide_eq_false_2.
Qed.

Lemma Decode_inv s c :
  Decode s = Ok (Some c) → cursor_ok c ∧ Encode (Some c) = skip_newlines s.
Proof.
  unfold Decode. case_bool_decide; [done|]. destruct (DecodeString s) as [raw|] eqn:Ed; [|done].
  case_bool_decide as Hlen; [|done]. cbn [negb]. case_bool_decide as Hnil; [done|]. intros [= <-].
  destruct (substring_split raw 8 16 Hlen) as (E & L1 & L2).
  set (a := String.substring 0 8 raw) in *. set (b := String.substring 8 16 raw) in *.
  pose proof (be_val_range a) as Ha. pose proof (be_val_range b) as Hb. rewrite L1 in Ha. rewrite L2 in Hb.
  change (256 ^ Z.of_nat 8) with (2 ^ 64) in Ha. change (256 ^ Z.of_nat 16) with (2 ^ 128) in Hb.
  split; [split_and!; cbn [cur_CreatedAt cur_ID]; [apply i64_range|unfold uuid_of_bytes; cbn [uuid_bits]; lia|done]|].
  rewrite <-(decode_canonical s raw) by (try done; by rewrite Hlen). unfold Encode. f_equal.
  cbn [cur_CreatedAt cur_ID].
  rewrite (i64_id (i64 _)) by apply i64_range. rewrite i64_u64 by done.
  unfold uuid_bytes, uuid_of_bytes. cbn [uuid_bits]. rewrite Z2N.id by lia.
  rewrite <-L1 at 1. rewrite put_be_val. rewrite <-L2. by rewrite put_be_val.
Qed.

(** C34. A cursor whose time fits 64-bit nanoseconds and whose id is not nil
    ([cursor_ok]) survives the trip through its token, and a token that decodes to a
    cursor is the token of that cursor, which is such a one, but for line breaks: no
    two tokens of different text name the same position. *)
Theorem cursor_roundtrip s c :
  (cursor_ok c ∧ skip_newlines s = Encode (Some c)) ↔ Decode s = Ok (Some c).
Proof.
  split; [|intros Hd; destruct (Decode_inv s c Hd); done].
  intros [Hc Hs]. pose proof (Decode_Encode c Hc) as Hd. unfold Decode in *.
  assert (DecodeString s = DecodeString (Encode (Some c))) as ->.
  { unfold DecodeString. rewrite Hs. f_equal. symmetry. apply skip_encode. }
  rewrite bool_decide_eq_false_2; [|intros ->; done]. by rewrite bool_decide_eq_false_2 in Hd.
Qed.
End Pagination.
