(* ===== verification/Etcd.v ===== *)
(** * The etcd server as the store sees it

    etcd is not part of the repository: the server is the parameter [Etcd], a
    function from an observable state and a request to a new state and a reply.
    What the store relies on is [EtcdLaws]: linearizable reads, prefix ranges in
    key order, and atomic compare-and-set transactions over create and
    modification revisions, as etcd documents them.  The laws are phrased with
    the executable descriptions [scan], [accepts] and [commit]; [ReferenceEtcd]
    is a server that satisfies them.

    The rest of the file is what follows from the laws: every request is an
    [estep], and the modification revision of a key identifies its value, which
    is why a compare on a revision read earlier protects a read-modify-write. *)

From S2P Require Import Prelude Models.
Local Open Scope Z_scope.

(** ** State, requests and replies *)

(** A key's value with its create and modification revisions. *)
Record entry := Entry { e_val : doc; e_create : Z; e_mod : Z }.

Record estate := EState { es_map : gmap string entry; es_rev : Z }.

(** The compares of [clientv3.Compare(_, "=", _)]. *)
Inductive cmp :=
| CmpMod (k : string) (r : Z)
| CmpCreate (k : string) (r : Z)
| CmpValue (k : string) (v : doc).

Inductive op := OpPut (k : string) (v : doc) | OpDelete (k : string) | OpGet (k : string).

Record txn := Txn { t_If : list cmp; t_Then : list op; t_Else : list op }.

Inductive op_reply := RPut | RDelete (deleted : Z) | RGet (kv : option entry).

Record txn_reply := TxnReply {
  tr_Succeeded : bool;
  tr_Revision : Z;
  tr_Responses : list op_reply
}.

(** A single-key get, a prefix range sorted by key, a transaction.  A plain put
    or delete is the transaction with that one operation. *)
Inductive request := RqGet (k : string) | RqRange (prefix : string) | RqTxn (t : txn).

Definition reply (rq : request) : Type :=
  match rq with
  | RqGet _ => option entry
  | RqRange _ => list (string * entry)
  | RqTxn _ => txn_reply
  end.

(** ** The documented behaviour *)

(** An absent key has create and modification revision 0, and no value. *)
Definition cmp_holds (m : gmap string entry) (c : cmp) : bool :=
  match c with
  | CmpMod k r => bool_decide (from_option e_mod 0 (m !! k) = r)
  | CmpCreate k r => bool_decide (from_option e_create 0 (m !! k) = r)
  | CmpValue k v => bool_decide (e_val <$> m !! k = Some v)
  end.

(** One operation of a transaction that commits at revision [rev]. *)
Definition apply_op (rev : Z) (o : op) (m : gmap string entry)
    : gmap string entry * op_reply :=
  match o with
  | OpPut k v => (<[k := Entry v (from_option e_create rev (m !! k)) rev]> m, RPut)
  | OpDelete k => (delete k m, RDelete (if bool_decide (is_Some (m !! k)) then 1 else 0))
  | OpGet k => (m, RGet (m !! k))
  end.

Fixpoint apply_ops (rev : Z) (ops : list op) (m : gmap string entry)
    : gmap string entry * list op_reply :=
  match ops with
  | [] => (m, [])
  | o :: ops =>
    let '(m, r) := apply_op rev o m in
    let '(m, rs) := apply_ops rev ops m in
    (m, r :: rs)
  end.

Definition changes (r : op_reply) : bool :=
  match r with RPut => true | RDelete n => 0 <? n | RGet _ => false end.

(** The revision advances when some operation wrote. *)
Definition commit (st : estate) (t : txn) : estate * txn_reply :=
  let ok := forallb (cmp_holds (es_map st)) (t_If t) in
  let ops := if ok then t_Then t else t_Else t in
  let '(m, rs) := apply_ops (es_rev st + 1) ops (es_map st) in
  let rev := if existsb changes rs then es_rev st + 1 else es_rev st in
  (EState m rev, TxnReply ok rev rs).

Definition put_keys (ops : list op) : list string :=
  omap (λ o, match o with OpPut k _ => Some k | _ => None end) ops.

Definition delete_keys (ops : list op) : list string :=
  omap (λ o, match o with OpDelete k => Some k | _ => None end) ops.

(** The default [--max-txn-ops]. *)
Definition server_max_txn_ops : nat := 128.

(** A branch may not put a key twice, nor put and delete it. *)
Definition branch_valid (ops : list op) : bool :=
  bool_decide (NoDup (put_keys ops)) &&
  forallb (λ k, bool_decide (k ∉ delete_keys ops)) (put_keys ops) &&
  (length ops <=? server_max_txn_ops)%nat.

Definition txn_valid (t : txn) : bool :=
  (length (t_If t) <=? server_max_txn_ops)%nat && branch_valid (t_Then t) &&
  branch_valid (t_Else t).

(** Revisions are int64: a server out of revisions commits nothing. *)
Definition accepts (st : estate) (t : txn) : bool := txn_valid t && (es_rev st <? max_i64).

Definition key_ltb (a b : string * entry) : bool := str_ltb a.1 b.1.

(** The keys under a prefix, ascending. *)
Definition scan (prefix : string) (m : gmap string entry) : list (string * entry) :=
  stable_sort key_ltb (filter (λ kv, String.prefix prefix kv.1 = true) (map_to_list m)).

(** ** The server *)

(** [None] is a request the server rejects. *)
Class Etcd := etcd_exec : ∀ (st : estate) (rq : request), option (estate * reply rq).

Class EtcdLaws `{Etcd} : Prop := {
  etcd_get : ∀ st k, etcd_exec st (RqGet k) = Some (st, es_map st !! k);
  etcd_range : ∀ st p, etcd_exec st (RqRange p) = Some (st, scan p (es_map st));
  etcd_txn : ∀ st t, accepts st t = true → etcd_exec st (RqTxn t) = Some (commit st t);
  etcd_txn_rejected : ∀ st t, accepts st t = false → etcd_exec st (RqTxn t) = None
}.

Definition ReferenceEtcd : Etcd := λ st rq,
  match rq return option (estate * reply rq) with
  | RqGet k => Some (st, es_map st !! k)
  | RqRange p => Some (st, scan p (es_map st))
  | RqTxn t => if accepts st t then Some (commit st t) else None
  end.

Lemma ReferenceEtcd_laws : @EtcdLaws ReferenceEtcd.
Proof. split; [done|done|..]; intros st t Ht; unfold etcd_exec; simpl; by rewrite Ht. Qed.

(** ** Consequences *)

(** Revisions of stored entries lie between 1 and the store's revision, an
    int64. *)
Definition estate_wf (st : estate) : Prop :=
  0 ≤ es_rev st ≤ max_i64 ∧
  ∀ k e, es_map st !! k = Some e → 0 < e_create e ≤ e_mod e ∧ e_mod e ≤ es_rev st.

(** How any request may change the state: a changed key gets the new revision
    as its modification revision, and keeps its create revision while it
    exists. *)
Definition estep (st st' : estate) : Prop :=
  es_rev st ≤ es_rev st' ≤ Z.max (es_rev st) max_i64 ∧
  ∀ k, es_map st' !! k = es_map st !! k ∨
    (es_rev st < es_rev st' ∧
     ∀ e', es_map st' !! k = Some e' → e_mod e' = es_rev st' ∧
       (e_create e' = es_rev st' ∨
        ∃ e, es_map st !! k = Some e ∧ e_create e' = e_create e)).

#[export] Instance estep_refl : Reflexive estep.
Proof. intros st. split; [lia|]. intros k. by left. Qed.

(** What is left of an entry that was read: while the key keeps its
    modification revision, it keeps the entry. *)
Definition seen (k : string) (e : entry) (st : estate) : Prop :=
  0 < e_mod e ≤ es_rev st ∧ ∀ e', es_map st !! k = Some e' → e_mod e' = e_mod e → e' = e.

Lemma seen_lookup st k e : estate_wf st → es_map st !! k = Some e → seen k e st.
Proof. intros [_ Hwf] Hk. apply Hwf in Hk as ?. split; [lia|]. intros; simplify_eq; done. Qed.

Lemma seen_estep k e st st' : estep st st' → seen k e st → seen k e st'.
Proof.
  intros [Hrev Hk] [Hm Hs]. split; [lia|]. intros e' He' Hmod.
  destruct (Hk k) as [Heq|[Hlt Hnew]].
  - apply Hs; [congruence|done].
  - apply Hnew in He' as [He' _]. lia.
Qed.

Lemma seen_cmp k e st :
  seen k e st → cmp_holds (es_map st) (CmpMod k (e_mod e)) = true → es_map st !! k = Some e.
Proof.
  intros [Hm Hs] Hc%bool_decide_eq_true. destruct (es_map st !! k) as [e'|] eqn:E; simpl in Hc.
  - f_equal. by apply Hs.
  - lia.
Qed.

Lemma cmp_absent k st :
  estate_wf st → cmp_holds (es_map st) (CmpCreate k 0) = true → es_map st !! k = None.
Proof.
  intros [_ Hwf] Hc%bool_decide_eq_true. destruct (es_map st !! k) as [e'|] eqn:E; [|done].
  apply Hwf in E. simpl in Hc. lia.
Qed.

Lemma cmp_value k v st :
  cmp_holds (es_map st) (CmpValue k v) = true ↔ ∃ e, es_map st !! k = Some e ∧ e_val e = v.
Proof.
  unfold cmp_holds. rewrite bool_decide_eq_true.
  destruct (es_map st !! k); simpl; naive_solver.
Qed.

(** *** Transactions *)

Lemma apply_op_lookup_ne rev o m k :
  match o with OpPut k' _ | OpDelete k' => k' ≠ k | OpGet _ => True end →
  (apply_op rev o m).1 !! k = m !! k.
Proof. destruct o; simpl; intros; by simplify_map_eq. Qed.

Lemma apply_ops_lookup_ne rev ops m k :
  k ∉ put_keys ops → k ∉ delete_keys ops → (apply_ops rev ops m).1 !! k = m !! k.
Proof.
  revert m. induction ops as [|o ops IH]; intros m Hp Hd; [done|]. simpl.
  destruct (apply_op rev o m) as [m1 r] eqn:E1.
  destruct (apply_ops rev ops m1) as [m2 rs] eqn:E2. simpl.
  change m2 with (m2, rs).1. rewrite <-E2, IH.
  - change m1 with (m1, r).1. rewrite <-E1. apply apply_op_lookup_ne.
    destruct o; simpl in *; set_solver.
  - destruct o; simpl in *; set_solver.
  - destruct o; simpl in *; set_solver.
Qed.

(** Every key a branch changes ends up with the commit revision, and something
    was written. *)
Lemma apply_ops_changed rev ops m k :
  let '(m', rs) := apply_ops rev ops m in
  m' !! k = m !! k ∨
  (existsb changes rs = true ∧
   ∀ e', m' !! k = Some e' → e_mod e' = rev ∧
     (e_create e' = rev ∨ ∃ e, m !! k = Some e ∧ e_create e' = e_create e)).
Proof.
  revert m. induction ops as [|o ops IH]; intros m; simpl; [by left|].
  destruct (apply_op rev o m) as [m1 r] eqn:E1. specialize (IH m1).
  destruct (apply_ops rev ops m1) as [m2 rs] eqn:E2.
  assert (m1 !! k = m !! k ∨ (changes r = true ∧ ∀ e', m1 !! k = Some e' → e_mod e' = rev ∧
    (e_create e' = rev ∨ ∃ e, m !! k = Some e ∧ e_create e' = e_create e))) as H1.
  { destruct o as [k' v|k'|k']; simplify_eq/=; [| |by left].
    - destruct (decide (k' = k)) as [->|?]; [right|left; by rewrite lookup_insert_ne].
      split; [done|]. intros e' ?. simplify_map_eq. split; [done|].
      destruct (m !! k); simpl; eauto.
    - destruct (decide (k' = k)) as [->|?]; [|left; by rewrite lookup_delete_ne].
      case_bool_decide as Hs.
      + right. split; [done|]. intros e' ?. by simplify_map_eq.
      + left. rewrite lookup_delete_eq. symmetry. by apply eq_None_not_Some. }
  destruct IH as [Heq|[Hch Hnew]].
  - rewrite Heq. destruct H1 as [?|[Hr ?]]; [by left|]. right. split; [simpl; by rewrite Hr|done].
  - right. split; [simpl; by rewrite Hch, orb_true_r|]. intros e' He'.
    destruct (Hnew e' He') as [Hm Hc]. split; [done|].
    destruct Hc as [?|(e & He & Hc)]; [by left|].
    destruct H1 as [H1|[_ H1]]; [right; exists e; split; congruence|].
    destruct (H1 e He) as [_ [?|(e0 & ? & ?)]]; [left; congruence|].
    right. exists e0. split; congruence.
Qed.

Lemma commit_estep st t : es_rev st < max_i64 → estep st (commit st t).1.
Proof.
  intros Hmax. unfold commit. generalize (if forallb (cmp_holds (es_map st)) (t_If t) then t_Then t else t_Else t).
  intros ops. destruct (apply_ops (es_rev st + 1) ops (es_map st)) as [m rs] eqn:E. split; simpl.
  { destruct (existsb changes rs); lia. }
  intros k. pose proof (apply_ops_changed (es_rev st + 1) ops (es_map st) k) as Hk.
  rewrite E in Hk. destruct Hk as [?|[-> Hk]]; [by left|]. right. split; [lia|done].
Qed.

Lemma estep_wf st st' : estep st st' → estate_wf st → estate_wf st'.
Proof.
  intros [Hrev Hk] [H0 Hwf]. split; [lia|]. intros k e He.
  destruct (Hk k) as [Heq|[Hlt Hnew]].
  - rewrite Heq in He. apply Hwf in He. lia.
  - destruct (Hnew e He) as [-> [->|(e0 & He0 & ->)]]; [lia|]. apply Hwf in He0. lia.
Qed.

(** A transaction leaves alone the keys neither branch writes. *)
Lemma commit_lookup_ne st t k :
  k ∉ put_keys (t_Then t) → k ∉ delete_keys (t_Then t) →
  k ∉ put_keys (t_Else t) → k ∉ delete_keys (t_Else t) →
  es_map (commit st t).1 !! k = es_map st !! k.
Proof.
  intros ????. unfold commit. set (ok := forallb _ _). clearbody ok.
  destruct (apply_ops _ _ _) as [m rs] eqn:E. simpl. change m with (m, rs).1.
  rewrite <-E. destruct ok; by apply apply_ops_lookup_ne.
Qed.

(** *** Transactions, operation by operation *)

Lemma apply_ops_cons rev o l m :
  (apply_ops rev (o :: l) m).1 = (apply_ops rev l (apply_op rev o m).1).1.
Proof. cbn [apply_ops]. destruct (apply_op rev o m) as [m1 r]. cbn [fst]. by destruct (apply_ops rev l m1). Qed.

Lemma apply_ops_app rev l1 l2 m :
  (apply_ops rev (l1 ++ l2) m).1 = (apply_ops rev l2 (apply_ops rev l1 m).1).1.
Proof.
  revert m. induction l1 as [|o l1 IH]; intros m; [done|].
  rewrite <-app_comm_cons, !apply_ops_cons. apply IH.
Qed.

(** What a branch leaves at a key: what was there, the value of a put, or
    nothing after a delete. *)
Lemma apply_ops_cases rev ops m k :
  ((apply_ops rev ops m).1 !! k = m !! k) ∨
  (∃ e, (apply_ops rev ops m).1 !! k = Some e ∧ OpPut k (e_val e) ∈ ops) ∨
  ((apply_ops rev ops m).1 !! k = None ∧ OpDelete k ∈ ops).
Proof.
  revert m. induction ops as [|o ops IH]; intros m; [by left|]. rewrite apply_ops_cons.
  destruct (IH (apply_op rev o m).1) as [E|[(e & E & Hin)|[E Hin]]].
  - rewrite E. destruct o as [k' v|k'|k']; simpl; [..|by left].
    + destruct (decide (k' = k)) as [->|Hne]; [|left; by rewrite lookup_insert_ne].
      right. left. eexists. rewrite lookup_insert_eq. split; [done|]. by left.
    + destruct (decide (k' = k)) as [->|Hne]; [|left; by rewrite lookup_delete_ne].
      right. right. rewrite lookup_delete_eq. split; [done|]. by left.
  - right. left. exists e. split; [done|]. by right.
  - right. right. split; [done|]. by right.
Qed.

(** A key that is only deleted is gone. *)
Lemma apply_ops_deleted rev ops m k :
  OpDelete k ∈ ops → k ∉ put_keys ops → (apply_ops rev ops m).1 !! k = None.
Proof.
  revert m. induction ops as [|o ops IH]; intros m Hin Hp; [by apply not_elem_of_nil in Hin|].
  rewrite apply_ops_cons. apply elem_of_cons in Hin as [<-|Hin].
  - destruct (apply_ops_cases rev ops (apply_op rev (OpDelete k) m).1 k) as [E|[(e & _ & Hin)|[E _]]];
      [rewrite E; apply lookup_delete_eq| |done].
    destruct Hp. apply list_elem_of_omap. eexists. split; [by right|done].
  - apply IH; [done|]. intros Hk. apply Hp. apply list_elem_of_omap in Hk as (o' & ? & ?).
    apply list_elem_of_omap. exists o'. split; [by right|done].
Qed.

(** *** Prefix ranges *)

Lemma elem_of_scan p m k e :
  (k, e) ∈ scan p m ↔ m !! k = Some e ∧ String.prefix p k = true.
Proof.
  unfold scan. rewrite stable_sort_perm, list_elem_of_filter, elem_of_map_to_list. tauto.
Qed.

Lemma scan_keys p m : NoDup (map fst (scan p m)).
Proof.
  unfold scan. rewrite (fmap_Permutation fst _ _ (stable_sort_perm key_ltb _)).
  apply NoDup_map_filter, NoDup_fst_map_to_list.
Qed.

Lemma scan_sorted p m : StronglySorted (λ a b, str_ltb a.1 b.1 = true) (scan p m).
Proof.
  eapply (StronglySorted_strict fst); [|apply scan_keys|].
  2: { apply (stable_sort_sorted key_ltb (λ _, True)); [apply (str_ltb_swo fst)|by apply Forall_true]. }
  intros x y Hxy Hne. apply str_ltb_total; [done|]. exact Hxy.
Qed.

(** *** Accepted transactions *)

Lemma branch_valid_true ops :
  branch_valid ops = true ↔
  NoDup (put_keys ops) ∧ (∀ k, k ∈ put_keys ops → k ∉ delete_keys ops) ∧
  (length ops ≤ server_max_txn_ops)%nat.
Proof.
  unfold branch_valid. rewrite !andb_true_iff, bool_decide_eq_true, forallb_forall, Nat.leb_le.
  setoid_rewrite <-list_elem_of_In. setoid_rewrite bool_decide_eq_true. tauto.
Qed.

Lemma accepts_txn st t :
  es_rev st < max_i64 → (length (t_If t) ≤ server_max_txn_ops)%nat →
  branch_valid (t_Then t) = true → branch_valid (t_Else t) = true → accepts st t = true.
Proof.
  intros Hmax%Z.ltb_lt Hif Hthen Helse. unfold accepts, txn_valid.
  by rewrite Hmax, Hthen, Helse, (proj2 (Nat.leb_le _ _) Hif).
Qed.

Lemma branch_valid_nil : branch_valid [] = true.
Proof. done. Qed.

Lemma branch_valid_put k v : branch_valid [OpPut k v] = true.
Proof. apply branch_valid_true. split_and!; [apply NoDup_singleton|set_solver|vm_compute; lia]. Qed.

Lemma branch_valid_deletes ks :
  (length ks ≤ server_max_txn_ops)%nat → branch_valid (map OpDelete ks) = true.
Proof.
  intros Hlen. assert (put_keys (map OpDelete ks) = []) as Hp by (clear; by induction ks).
  apply branch_valid_true. rewrite Hp, length_map. split_and!; [constructor|set_solver|done].
Qed.
