(* ===== verification/Prog.v ===== *)
(** * Store programs, their interleavings, and a logic for them

    A method of the store is a program that talks to etcd, reads the clock and
    draws random uuids.  [prog] is the tree of such programs; [M] adds Go's
    error return.  Programs are run in two ways: [run] is one program alone
    against a server that answers, and [cstep] interleaves any number of
    programs (the API replicas and workers), each request of which may be lost
    before or after it takes effect.

    [wp] is a rely/guarantee logic for the interleavings: it states what a
    program does against any interference the rely relation allows, and carries
    the resources the program alone is entitled to (keys it may create, uuids it
    drew).  [pool_guar] is its soundness: if every program of a system is
    verified against the others' guarantee, every step of every interleaving
    satisfies the guarantee, and what finished programs own is disjoint.
    [open_guar] is the variant for one program in an arbitrary environment. *)

From S2P Require Import Prelude Models Scheduler Etcd.
Local Open Scope Z_scope.

(** ** Programs *)

Inductive prog (R : Type) : Type :=
| Ret (r : R)
| Call (rq : request) (k : option (reply rq) → prog R)
| Now (k : Z → prog R)
| NewUuid (k : uuid → prog R).
Global Arguments Ret {R} r.
Global Arguments Call {R} rq k.
Global Arguments Now {R} k.
Global Arguments NewUuid {R} k.

Fixpoint prog_bind {A B} (f : A → prog B) (p : prog A) : prog B :=
  match p with
  | Ret a => f a
  | Call rq k => Call rq (λ r, prog_bind f (k r))
  | Now k => Now (λ t, prog_bind f (k t))
  | NewUuid k => NewUuid (λ u, prog_bind f (k u))
  end.

(** The errors of the store: its sentinels, a failed etcd request, a value over
    the size cap, a value that does not decode, and the remaining messages; and the
    errors of the plan of a bind, which the store returns as they are. *)
Inductive err :=
| ErrNotFound | ErrTaskNotCancellable | ErrIdempotencyKeyMismatch | ErrMigrationActiveExists
| ErrConcurrentUpdate | ErrMigrationTerminal | ErrMigrationNotCancelable
| ErrMigrationTargetConflict | ErrResourceDeleting | ErrNodeNameExists | ErrNodeNotDrainable
| ErrUserUsernameExists | ErrUserEmailExists | ErrRefreshTokenConflict
| ErrVMNameInUse | ErrVMNotUnscheduled | ErrVMNicMACConflict | ErrSubnetExhausted
| ErrInvalidCredentials | ErrInvalidToken | ErrTokenReplay | ErrTokenExpired
| ErrEtcd | ErrValueTooLarge | ErrDecode | ErrOther (msg : string)
| ErrPlacement (e : Scheduler.sched_error) | errNetworkNotFound | poolNotWritableError (poolType : string).
#[local] Existing Instance Scheduler.sched_error_eq_dec.
#[export] Instance err_eq_dec : EqDecision err.
Proof. solve_decision. Defined.

(** A Go method that returns [(A, error)]. *)
Definition M (A : Type) : Type := prog (result err A).

#[export] Instance M_ret : MRet M := λ A a, Ret (Ok a).
#[export] Instance M_bind : MBind M := λ A B f m,
  prog_bind (λ r, match r with Ok a => f a | Err e => Ret (Err e) end) m.

Definition fail {A} (e : err) : M A := Ret (Err e).

(** [v, err := m] with the error handled by the caller. *)
Definition attempt {A} (m : M A) : M (result err A) := prog_bind (λ r, Ret (Ok r)) m.

(** A request whose transport error is returned as [ErrEtcd]. *)
Definition call (rq : request) : M (reply rq) :=
  Call rq (λ r, match r with Some a => Ret (Ok a) | None => Ret (Err ErrEtcd) end).

Definition now : M Z := Now (λ t, Ret (Ok t)).
Definition new_uuid : M uuid := NewUuid (λ u, Ret (Ok u)).

(** A loop over a slice that stops at the first error. *)
Fixpoint for_each {A S} (l : list A) (s : S) (body : A → S → M S) : M S :=
  match l with
  | [] => mret s
  | x :: l => s ← body x s; for_each l s body
  end.

(** ** One program alone

    The server answers every request, the clock reads [now], and fresh uuids
    come from a supply. *)
Section Run.
Context `{Etcd} (clock : Z) (supply : nat → uuid).

Fixpoint run {R} (p : prog R) (st : estate) (n : nat) : R * estate * nat :=
  match p with
  | Ret r => (r, st, n)
  | Call rq k =>
    match etcd_exec st rq with
    | Some (st', r) => run (k (Some r)) st' n
    | None => run (k None) st n
    end
  | Now k => run (k clock) st n
  | NewUuid k => run (k (supply n)) st (S n)
  end.

Definition run_result {R} (p : prog R) (st : estate) (n : nat) : R := (run p st n).1.1.
Definition run_state {R} (p : prog R) (st : estate) (n : nat) : estate := (run p st n).1.2.

Lemma run_bind {A B} (f : A → prog B) (p : prog A) st n :
  run (prog_bind f p) st n = let '(a, st', n') := run p st n in run (f a) st' n'.
Proof.
  revert st n. induction p as [r|rq k IH|k IH|k IH]; intros st n; simpl; auto.
  destruct (etcd_exec st rq) as [[st' r]|]; auto.
Qed.
End Run.

(** ** Interleavings *)

(** What a program can own: a key only it may create, a prefix under which only
    it may create the first key, a uuid only it knows. *)
Inductive resource := OwnKey (k : string) | OwnPrefix (p : string) | OwnUuid (u : uuid).
#[export] Instance resource_eq_dec : EqDecision resource.
Proof. solve_decision. Defined.
#[export] Instance resource_countable : Countable resource.
Proof.
  refine (inj_countable'
    (λ r, match r with OwnKey k => inl k | OwnPrefix p => inr (inl p) | OwnUuid u => inr (inr u) end)
    (λ s, match s with inl k => OwnKey k | inr (inl p) => OwnPrefix p | inr (inr u) => OwnUuid u end)
    _); by intros [].
Defined.

(** The state of etcd with its history, and the uuids drawn so far. *)
Record world := World {
  w_st : estate;
  w_hist : list estate;
  w_issued : gset uuid
}.

Definition w_map (w : world) : gmap string entry := es_map (w_st w).
Definition w_rev (w : world) : Z := es_rev (w_st w).

(** Every state etcd has been in. *)
Definition states (w : world) : list estate := w_st w :: w_hist w.

(** A key nobody has created yet, or a prefix with no such key. *)
Definition unused (w : world) (r : resource) : Prop :=
  match r with
  | OwnKey k => ∀ st, st ∈ states w → es_map st !! k = None
  | OwnPrefix p => ∀ st k, st ∈ states w → String.prefix p k = true → es_map st !! k = None
  | OwnUuid _ => True
  end.

(** The world is the same up to a repetition of the current state. *)
Definition same (w w' : world) : Prop :=
  w_st w' = w_st w ∧ w_issued w' = w_issued w ∧
  (w_hist w' = w_hist w ∨ w_hist w' = w_st w :: w_hist w).

Definition advance (st : estate) (w : world) : world :=
  World st (w_st w :: w_hist w) (w_issued w).
Definition issue (u : uuid) (w : world) : world :=
  World (w_st w) (w_hist w) ({[u]} ∪ w_issued w).

Lemma same_refl w : same w w.
Proof. split_and!; auto. Qed.

Lemma same_unused w w' r : same w w' → unused w r → unused w' r.
Proof.
  intros (Hs & _ & Hh) Hu.
  assert (∀ st, st ∈ states w' → st ∈ states w) as Hst.
  { unfold states. intros st. rewrite Hs. destruct Hh as [Hh|Hh]; rewrite Hh; set_solver. }
  destruct r as [k|p|]; [..|done]; simpl in *; eauto.
Qed.

(** One step of one program: the request is answered, is lost, or takes effect
    with its answer lost; a uuid that was never drawn is drawn. *)
Inductive pstep `{Etcd} {R} : world → prog R → world → prog R → Prop :=
| pstep_call w rq k st r :
    etcd_exec (w_st w) rq = Some (st, r) → pstep w (Call rq k) (advance st w) (k (Some r))
| pstep_lost w rq k : pstep w (Call rq k) w (k None)
| pstep_unacked w rq k st r :
    etcd_exec (w_st w) rq = Some (st, r) → pstep w (Call rq k) (advance st w) (k None)
| pstep_now w k t : pstep w (Now k) w (k t)
| pstep_uuid w k u : u ∉ w_issued w → pstep w (NewUuid k) (issue u w) (k u).

(** A running program, annotated with what its result says about the resources
    it ends up owning. *)
Record thread := Thread {
  th_result : Type;
  th_post : th_result → gset resource → Prop;
  th_prog : prog th_result
}.

Definition config : Type := world * list thread.

(** A system starts any of its programs at any time and interleaves their
    steps. *)
Inductive cstep `{Etcd} (P : thread → Prop) : config → config → Prop :=
| cstep_spawn w ts th : P th → cstep P (w, ts) (w, ts ++ [th])
| cstep_thread w ts i R post (p p' : prog R) w' :
    ts !! i = Some (Thread R post p) → pstep w p w' p' →
    cstep P (w, ts) (w', <[i := Thread R post p']> ts).

(** ** Rely and guarantee *)

(** A protocol: an invariant of the world, the steps others may take, the steps
    a program may take, and the resources a program can own. *)
Record protocol := Protocol {
  pr_inv : world → Prop;
  pr_rely : world → world → Prop;
  pr_guar : world → world → Prop;
  pr_ownable : world → resource → Prop
}.

Class ProtocolLaws (pr : protocol) : Prop := {
  pr_stutter : ∀ w w', same w w' → pr_guar pr w w';
  pr_inv_rely : ∀ w w', pr_inv pr w → pr_rely pr w w' → pr_inv pr w';
  pr_inv_guar : ∀ w w', pr_inv pr w → pr_guar pr w w' → pr_inv pr w';
  pr_ownable_guar : ∀ w w' k,
    pr_inv pr w → pr_guar pr w w' → pr_ownable pr w k → pr_ownable pr w' k
}.

Section WP.
Context `{Etcd} (pr : protocol).

(** Others do not create the keys the program owns. *)
Definition rely_step (O : gset resource) (w w' : world) : Prop :=
  pr_rely pr w w' ∧ ∀ k, k ∈ O → unused w k → unused w' k.

(** The program creates no ownable key it does not own. *)
Definition respects (O : gset resource) (w w' : world) : Prop :=
  ∀ k, pr_ownable pr w k → k ∉ O → unused w k → unused w' k.

(** A resource becomes owned by the program whose step makes it ownable; a key
    stays owned until it is created. *)
Definition gains (O O' : gset resource) (w w' : world) : Prop :=
  ∀ k, k ∈ O' → unused w' k ∧
    (k ∈ O ∨ (pr_ownable pr w' k ∧ ¬ pr_ownable pr w k)).

Definition own_step (O O' : gset resource) (w w' : world) : Prop :=
  pr_guar pr w w' ∧ respects O w w' ∧ gains O O' w w'.

Definition owns (O : gset resource) (w : world) : Prop :=
  ∀ k, k ∈ O → pr_ownable pr w k ∧ unused w k.

(** Interference up to the program's next step. *)
Definition reaches (O : gset resource) (w w1 : world) : Prop :=
  rtc (rely_step O) w w1 ∧ pr_inv pr w1 ∧ ∀ k, k ∈ O → unused w1 k.

Fixpoint wp {R} (p : prog R) (O : gset resource) (Q : R → gset resource → world → Prop)
    (w : world) : Prop :=
  match p with
  | Ret r => Q r O w
  | Call rq k => ∀ w1, reaches O w w1 →
      wp (k None) O Q w1 ∧
      ∀ st r, etcd_exec (w_st w1) rq = Some (st, r) →
        (∃ O', own_step O O' w1 (advance st w1) ∧ wp (k (Some r)) O' Q (advance st w1)) ∧
        (∃ O', own_step O O' w1 (advance st w1) ∧ wp (k None) O' Q (advance st w1))
  | Now k => ∀ w1 t, reaches O w w1 → wp (k t) O Q w1
  | NewUuid k => ∀ w1 u, reaches O w w1 → u ∉ w_issued w1 →
      ∃ O', own_step O O' w1 (issue u w1) ∧ wp (k u) O' Q (issue u w1)
  end.

Lemma wp_mono {R} (p : prog R) O (Q Q' : R → gset resource → world → Prop) w :
  (∀ r O w, Q r O w → Q' r O w) → wp p O Q w → wp p O Q' w.
Proof.
  intros HQ. revert O w. induction p as [r|rq k IH|k IH|k IH]; intros O w; simpl; auto.
  - intros Hp w1 Hw1. destruct (Hp w1 Hw1) as [H1 H2]. split; [by apply IH|].
    intros st r Hr. destruct (H2 st r Hr) as [(O1 & ? & ?) (O2 & ? & ?)]. eauto 10.
  - intros Hp w1 u Hw1 Hu. destruct (Hp w1 u Hw1 Hu) as (O' & ? & ?). eauto.
Qed.

Lemma wp_bind {A B} (f : A → prog B) (p : prog A) O Q w :
  wp p O (λ a O w, wp (f a) O Q w) w → wp (prog_bind f p) O Q w.
Proof.
  revert O w. induction p as [r|rq k IH|k IH|k IH]; intros O w; simpl; auto.
  - intros Hp w1 Hw1. destruct (Hp w1 Hw1) as [H1 H2]. split; [by apply IH|].
    intros st r Hr. destruct (H2 st r Hr) as [(O1 & ? & ?) (O2 & ? & ?)]. eauto 10.
  - intros Hp w1 u Hw1 Hu. destruct (Hp w1 u Hw1 Hu) as (O' & ? & ?). eauto.
Qed.

(** The two ways a bind in [M] continues. *)
Lemma wp_bindM {A B} (f : A → M B) (m : M A) O Q w :
  wp m O (λ r O w, match r with Ok a => wp (f a) O Q w | Err e => Q (Err e) O w end) w →
  wp (m ≫= f) O Q w.
Proof. intros H'. apply wp_bind. eapply wp_mono; [|exact H']. by intros []. Qed.

(** A program may be given more than it needs. *)
Lemma wp_more_own {R} (p : prog R) O1 O2 Q w : O1 ⊆ O2 → wp p O1 Q w → wp p O2 (λ r _ w, ∃ O, Q r O w) w.
Proof.
  revert O1 O2 w. induction p as [r|rq k IH|k IH|k IH]; intros O1 O2 w Hsub; simpl; [by eauto|..].
  all: assert (∀ w1, reaches O2 w w1 → reaches O1 w w1) as Hr by
    (intros w1 (Hrtc & Hi & Hu); split_and!; [|done|by auto];
     eapply rtc_subrel; [|exact Hrtc]; intros a b [? ?]; split; auto).
  all: assert (∀ O' w1 w2, own_step O1 O' w1 w2 → own_step O2 O' w1 w2) as Hs by
    (intros O' w1 w2 (Hg & Hres & Hgain); split_and!; [done| |];
     [intros r ? Hn ?; apply Hres; [done|set_solver|done]
     |intros r Hin; destruct (Hgain r Hin) as [? [?|?]]; split; auto]).
  - intros Hwp w1 Hw1. destruct (Hwp w1 (Hr w1 Hw1)) as [Hn Hc]. split; [by eapply IH|].
    intros st r Hexec. destruct (Hc st r Hexec) as [(O' & S1 & W1) (O'' & S2 & W2)].
    split; [exists O'|exists O'']; (split; [by apply Hs|]); by eapply IH.
  - intros Hwp w1 t Hw1. eapply IH; [done|by apply Hwp, Hr].
  - intros Hwp w1 u Hw1 Hu. destruct (Hwp w1 u (Hr w1 Hw1) Hu) as (O' & S & W). exists O'.
    split; [by apply Hs|]. by eapply IH.
Qed.

(** Interference before a program is part of its interference. *)
Lemma wp_reaches {R} (p : prog R) O Q w w1 :
  match p with Ret _ => False | _ => True end →
  rely_step O w w1 → wp p O Q w → wp p O Q w1.
Proof.
  intros Hp Hr. destruct p as [r|rq k|k|k]; [done|..]; simpl.
  - intros Hw w2 (Hrtc & ? & ?). apply Hw. split; [by eapply rtc_l|done].
  - intros Hw w2 t (Hrtc & ? & ?). apply Hw. split; [by eapply rtc_l|done].
  - intros Hw w2 u (Hrtc & ? & ?). apply Hw. split; [by eapply rtc_l|done].
Qed.
End WP.

(** ** Soundness *)
Section Pool.
Context `{Etcd} (pr : protocol) {Hpr : ProtocolLaws pr}.
Context (guar_rely : ∀ w w', pr_guar pr w w' → pr_rely pr w w').

(** A program verified from every world that satisfies the invariant. *)
Definition verified (th : thread) : Prop :=
  ∀ w, pr_inv pr w → wp pr (th_prog th) ∅ (λ r O _, th_post th r O) w.

Definition thread_ok (w : world) (th : thread) (O : gset resource) : Prop :=
  owns pr O w ∧ wp pr (th_prog th) O (λ r O _, th_post th r O) w.

Definition pool_ok (c : config) : Prop :=
  pr_inv pr c.1 ∧ ∃ Os : list (gset resource), length Os = length c.2 ∧
    (∀ i th O, c.2 !! i = Some th → Os !! i = Some O → thread_ok c.1 th O) ∧
    (∀ i j Oi Oj, Os !! i = Some Oi → Os !! j = Some Oj → i ≠ j → Oi ## Oj).

Lemma reaches_refl O w : pr_inv pr w → owns pr O w → reaches pr O w w.
Proof. intros Hi Ho. split_and!; [done|done|]. intros k Hk. by apply Ho. Qed.

(** What the step of a program does to its ownership, by the kind of step. *)
Lemma wp_pstep {R} (p p' : prog R) O Q w w' :
  pr_inv pr w → owns pr O w → wp pr p O Q w → pstep w p w' p' →
  ∃ O', own_step pr O O' w w' ∧ wp pr p' O' Q w'.
Proof.
  intros Hi Ho Hwp Hs.
  assert (own_step pr O O w w) as Hstay.
  { split_and!; [by apply pr_stutter, same_refl|by intros ?|]. intros k Hk. split; [by apply Ho|by left]. }
  pose proof (reaches_refl O w Hi Ho) as Hr.
  destruct Hs as [w rq k st r Hr'|w rq k|w rq k st r Hr'|w k t|w k u Hu]; simpl in Hwp.
  - destruct (Hwp w Hr) as [_ Hc]. by destruct (Hc st r Hr') as [(O' & ? & ?) _]; eauto.
  - destruct (Hwp w Hr) as [Hn _]. eauto.
  - destruct (Hwp w Hr) as [_ Hc]. by destruct (Hc st r Hr') as [_ (O' & ? & ?)]; eauto.
  - eauto.
  - eauto.
Qed.

(** The other programs, across a step. *)
Lemma thread_ok_other w w' th O O1 O1' :
  pr_inv pr w → own_step pr O1 O1' w w' → O ## O1 → thread_ok w th O →
  thread_ok w' th O ∧ O ## O1'.
Proof.
  intros Hi (Hg & Hres & Hgain) Hd [Ho Hwp].
  assert (∀ k, k ∈ O → unused w' k) as Habs.
  { intros k Hk. apply Hres; [by apply Ho|set_solver|by apply Ho]. }
  split.
  - split.
    + intros k Hk. split; [|auto]. eapply pr_ownable_guar; [done|done|]. by apply Ho.
    + destruct (th_prog th) eqn:E; [done|..].
      all: eapply wp_reaches; [done| |exact Hwp]; split; [by apply guar_rely|auto].
  - intros k Hk Hk'. apply Hgain in Hk' as [_ [?|[_ Hn]]]; [set_solver|].
    apply Hn. by apply Ho.
Qed.

Lemma pool_ok_step P c c' :
  (∀ th, P th → verified th) → pool_ok c → cstep P c c' → pool_ok c' ∧ pr_guar pr c.1 c'.1.
Proof.
  intros HP (Hi & Os & Hlen & Hth & Hdis) Hs. destruct Hs as [w ts th Hp|w ts i R post p p' w' Hlk Hps].
  - split; [|by apply pr_stutter, same_refl]. split; [done|]. exists (Os ++ [∅]). simpl in *.
    split; [rewrite !length_app; simpl; lia|]. split.
    + intros i th' O Hi1 Hi2. apply lookup_snoc_Some in Hi1 as [[? ?]|[-> ->]];
        apply lookup_snoc_Some in Hi2 as [[? ?]|[? <-]]; try lia; [by eapply Hth|].
      split; [intros k Hk; set_solver|]. by apply HP.
    + intros i j Oi Oj [[? ?]|[? <-]]%lookup_snoc_Some [[? ?]|[? <-]]%lookup_snoc_Some;
        [by eauto|set_solver..].
  - simpl in *. destruct (lookup_lt_is_Some_2 Os i) as [O HO].
    { rewrite Hlen. by eapply lookup_lt_Some. }
    destruct (Hth i _ O Hlk HO) as [Hown Hwp]. simpl in Hwp.
    destruct (wp_pstep p p' O _ w w' Hi Hown Hwp Hps) as (O' & Hstep & Hwp').
    destruct Hstep as (Hg & Hres & Hgain) eqn:Estep. split; [|done]. split; simpl.
    { by eapply pr_inv_guar. }
    assert (Hst : own_step pr O O' w w') by (by split_and!).
    exists (<[i := O']> Os). split; [by rewrite !length_insert|]. split.
    + intros j th Oj Hj HOj. destruct (decide (i = j)) as [<-|Hij].
      * rewrite list_lookup_insert_eq in Hj by (by eapply lookup_lt_Some).
        rewrite list_lookup_insert_eq in HOj by (by eapply lookup_lt_Some). simplify_eq.
        split; [|done]. intros k Hk. destruct (Hgain k Hk) as [Habs [Hk'|[? _]]]; [|by split].
        split; [|done]. eapply pr_ownable_guar; [done|done|]. by apply Hown.
      * rewrite list_lookup_insert_ne in Hj by done. rewrite list_lookup_insert_ne in HOj by done.
        eapply thread_ok_other; [done|exact Hst| |by eapply Hth]. by eapply Hdis.
    + intros j1 j2 O1 O2 H1 H2 Hne.
      assert (∀ j Oj, j ≠ i → Os !! j = Some Oj → Oj ## O') as Hother.
      { intros j Oj Hj HOj. destruct (lookup_lt_is_Some_2 ts j) as [th Hth'].
        { rewrite <-Hlen. by eapply lookup_lt_Some. }
        eapply thread_ok_other; [done|exact Hst| |by eapply Hth]. by eapply Hdis. }
      apply list_lookup_insert_Some in H1 as [(<- & <- & _)|[? H1]];
        apply list_lookup_insert_Some in H2 as [(? & <- & _)|[? H2]]; try done.
      * symmetry. by eapply Hother.
      * by eapply Hother.
      * by eapply Hdis.
Qed.

(** Every world a system of verified programs reaches satisfies the invariant,
    every step it takes from there is one the guarantee allows, and its finished
    programs own disjoint resources that satisfy their postconditions. *)
Theorem pool_guar P w0 c :
  (∀ th, P th → verified th) → pr_inv pr w0 → rtc (cstep P) (w0, []) c →
  pool_ok c ∧ ∀ c', cstep P c c' → pr_guar pr c.1 c'.1.
Proof.
  intros HP Hi Hrtc. assert (pool_ok c) as Hok.
  { remember (w0, []) as c0 eqn:E0. assert (pool_ok c0) as Hc0.
    { subst. split; [done|]. exists []. split_and!; [done|..]; intros; by simplify_eq. }
    clear E0. induction Hrtc as [|c1 c2 c3 Hs _ IH]; [done|].
    apply IH. by eapply pool_ok_step. }
  split; [done|]. intros c' Hs. by eapply pool_ok_step.
Qed.

Lemma pool_ok_finished w ts i j R1 R2 post1 post2 (r1 : R1) (r2 : R2) :
  pool_ok (w, ts) → i ≠ j →
  ts !! i = Some (Thread R1 post1 (Ret r1)) → ts !! j = Some (Thread R2 post2 (Ret r2)) →
  ∃ O1 O2, O1 ## O2 ∧ post1 r1 O1 ∧ post2 r2 O2.
Proof.
  intros (_ & Os & Hlen & Hth & Hdis) Hne H1 H2. simpl in *.
  destruct (lookup_lt_is_Some_2 Os i) as [O1 HO1]; [rewrite Hlen; by eapply lookup_lt_Some|].
  destruct (lookup_lt_is_Some_2 Os j) as [O2 HO2]; [rewrite Hlen; by eapply lookup_lt_Some|].
  exists O1, O2. split_and!; [by eapply Hdis|by eapply (Hth i _ O1 H1 HO1)|].
  by eapply (Hth j _ O2 H2 HO2).
Qed.
End Pool.

(** ** One program in an arbitrary environment *)

(** The program's own steps, between steps of the environment. *)
Inductive open_run `{Etcd} (env : world → world → Prop) {R}
    : world → prog R → list (world * world) → world → prog R → Prop :=
| open_refl w p : open_run env w p [] w p
| open_env w w1 p evs w' p' :
    env w w1 → open_run env w1 p evs w' p' → open_run env w p evs w' p'
| open_own w w1 p p1 evs w' p' :
    pstep w p w1 p1 → open_run env w1 p1 evs w' p' → open_run env w p ((w, w1) :: evs) w' p'.

Lemma open_run_rtc `{Etcd} (env : world → world → Prop) {R} w (p : prog R) evs w' p' :
  open_run env w p evs w' p' → Forall (λ s, env s.1 s.2) evs → rtc env w w'.
Proof.
  induction 1 as [|w w1 p evs w' p' He _ IH|w w1 p p1 evs w' p' _ _ IH]; intros Hevs.
  - done.
  - eapply rtc_l; [done|by apply IH].
  - inversion Hevs as [|?? Hs Hevs']; subst. eapply rtc_l; [exact Hs|by apply IH].
Qed.

Lemma open_run_inv `{Etcd} (I : world → Prop) (env : world → world → Prop) {R} w (p : prog R) evs w' p' :
  (∀ w w', env w w' → I w → I w') → open_run env w p evs w' p' →
  Forall (λ s, I s.1 → I s.2) evs → I w → I w' ∧ Forall (λ s, I s.2) evs.
Proof.
  intros HI. induction 1 as [|w w1 p evs w' p' He _ IH|w w1 p p1 evs w' p' _ _ IH]; intros Hevs Hw; [done|..].
  - apply IH; [done|by eapply HI].
  - apply Forall_cons in Hevs as [Hs Hevs]. destruct IH as [? ?]; [done|by apply Hs|]. split; [done|].
    constructor; [by apply Hs|done].
Qed.

Section Open.
Context `{Etcd} (pr : protocol) {Hpr : ProtocolLaws pr}.

(** Without resources: every own step satisfies the guarantee, and the result
    the postcondition, if interference preserves it. *)
Theorem open_guar {R} (p : prog R) (Q : R → world → Prop) w evs w' p' :
  (∀ w r, ¬ pr_ownable pr w r) →
  (∀ r w w', pr_inv pr w → pr_rely pr w w' → Q r w → Q r w') →
  pr_inv pr w → wp pr p ∅ (λ r _ w, Q r w) w → open_run (pr_rely pr) w p evs w' p' →
  Forall (λ s, pr_guar pr s.1 s.2) evs ∧ wp pr p' ∅ (λ r _ w, Q r w) w'.
Proof.
  intros Hno Hst Hi Hwp Hrun.
  induction Hrun as [w p|w w1 p evs w' p' He _ IH|w w1 p p1 evs w' p' Hs _ IH]; [done|..].
  - apply IH; [by eapply pr_inv_rely|]. destruct p; [by eapply Hst|..];
      (eapply wp_reaches; [done|split; [done|set_solver]|done]).
  - destruct (wp_pstep pr p p1 ∅ (λ r _ w, Q r w) w w1) as (O' & (Hg & _ & Hgain) & Hwp');
      [done|set_solver|done..|].
    assert (O' = ∅) as ->.
    { apply elem_of_equiv_empty_L. intros k Hk. destruct (Hgain k Hk) as [_ [?|[Ho _]]];
        [set_solver|]. by eapply Hno. }
    destruct IH as [IH1 IH2]; [by eapply pr_inv_guar|done|]. split; [by constructor|done].
Qed.
End Open.
