(* ===== verification/Keys.v ===== *)
(** * The key schema of the store

    [etcd.Key] and the key functions of [internal/etcdstore], with what the
    store relies on: keys of different kinds never coincide, and a key
    determines the identifiers it was built from.  The uuid library (parsing and
    printing uuids) and the size of a JSON encoding are parameters. *)

From Stdlib Require Import Ascii.
From S2P Require Import Prelude Models Strconv Netip.
Import Strconv.
Local Open Scope string_scope.
Local Open Scope Z_scope.

(** ** Parameters *)

Fixpoint has_slash (s : string) : bool :=
  match s with "" => false | String c s => Ascii.eqb c "/"%char || has_slash s end.

(** [uuid.UUID.String], [uuid.Parse], and the length of [json.Marshal]'s
    result. *)
Class Libs := {
  uuid_string : uuid → string;
  uuid_parse : string → option uuid;
  json_len : doc → Z
}.

(** The canonical text of a uuid parses back to it, is not empty and contains no
    slash (it is 36 hexadecimal digits and dashes). *)
Class LibsLaws `{Libs} : Prop := {
  uuid_parse_string : ∀ u, uuid_parse (uuid_string u) = Some u;
  uuid_string_no_slash : ∀ u, has_slash (uuid_string u) = false;
  uuid_string_nonempty : ∀ u, uuid_string u ≠ ""
}.

(** [hex.EncodeToString]. *)
Definition hex_digit (n : nat) : ascii :=
  ascii_of_nat (if (n <? 10)%nat then 48 + n else 87 + n).

Fixpoint hex_EncodeToString (b : bytes) : string :=
  match b with
  | "" => ""
  | String c b =>
    let n := nat_of_ascii c in
    String (hex_digit (n / 16)) (String (hex_digit (n mod 16)) (hex_EncodeToString b))
  end.

(** ** Keys *)

Definition KeyPrefix : string := "/otherix/".

Definition Key (parts : list string) : string := KeyPrefix +:+ str_join "/" parts.

Section Keys.
Context `{Libs}.

Definition jobSeqKey : string := Key ["seq"; "jobs"].
Definition jobKey (seq : Z) : string := Key ["jobs"; Sprintf020d seq].
Definition jobsPrefix : string := Key ["jobs"] +:+ "/".

Definition taskKey (id : uuid) : string := Key ["tasks"; uuid_string id].
Definition taskPrefix : string := Key ["tasks"] +:+ "/".
Definition taskCreatedByKey (user id : uuid) : string :=
  Key ["index"; "tasks"; "created_by"; uuid_string user; uuid_string id].

Definition idempotencyTaskIndexKey (userID : uuid) (key : string) : string :=
  Key ["index"; "idempotency_task"; uuid_string userID; key].
Definition idempotencyTaskIndexPrefix : string := Key ["index"; "idempotency_task"] +:+ "/".

Definition idempotencyKeyKey (userID : uuid) (key : string) : string :=
  Key ["idempotency_keys"] +:+ "/" +:+ uuid_string userID +:+ "/" +:+ key.
Definition idempotencyPrefix : string := Key ["idempotency_keys"] +:+ "/".

Definition migrationActiveVMGuard (vmID : uuid) : string :=
  Key ["uniq"; "migration_active_vm"; uuid_string vmID].
Definition migrationNodeIndexKey (node id : uuid) : string :=
  Key ["index"; "migrations"; "node"; uuid_string node; uuid_string id].
Definition migrationsNodeIndexPrefix (node : uuid) : string :=
  Key ["index"; "migrations"; "node"; uuid_string node] +:+ "/".
Definition migrationVMIndexKey (vm id : uuid) : string :=
  Key ["index"; "migrations"; "vm"; uuid_string vm; uuid_string id].
Definition migrationsVMIndexPrefix (vm : uuid) : string :=
  Key ["index"; "migrations"; "vm"; uuid_string vm] +:+ "/".
Definition migrationKey (id : uuid) : string := Key ["migrations"; uuid_string id].
Definition migrationPrefix : string := Key ["migrations"] +:+ "/".

Definition vmKey (id : uuid) : string := Key ["vms"; uuid_string id].
Definition vmPinnedNodeIndexKey (node vm : uuid) : string :=
  Key ["index"; "vms"; "pinned_node"; uuid_string node; uuid_string vm].
Definition vmRuntimeKey (vmID : uuid) : string := Key ["vm_runtime"; uuid_string vmID].
Definition vmRuntimeNodeIndexKey (node vmID : uuid) : string :=
  Key ["index"; "vm_runtime"; "node"; uuid_string node; uuid_string vmID].

Definition vmNameGuard (name : string) : string := Key ["uniq"; "vms"; "name"; to_lower name].
Definition vmUnscheduledIndexKey (id : uuid) : string := Key ["index"; "vms"; "unscheduled"; uuid_string id].
Definition vmUnscheduledIndexPrefix : string := Key ["index"; "vms"; "unscheduled"] +:+ "/".
Definition vmOwnerIndexKey (owner vm : uuid) : string :=
  Key ["index"; "vms"; "owner"; uuid_string owner; uuid_string vm].
Definition vmFirmwareIndexKey (firmware vm : uuid) : string :=
  Key ["index"; "vms"; "firmware"; uuid_string firmware; uuid_string vm].
Definition vmDiskKey (id : uuid) : string := Key ["vm_disks"; uuid_string id].
Definition vmDiskVMIndexKey (vm disk : uuid) : string :=
  Key ["index"; "vm_disks"; "vm"; uuid_string vm; uuid_string disk].
Definition vmDisksVMIndexPrefix (vm : uuid) : string :=
  Key ["index"; "vm_disks"; "vm"; uuid_string vm] +:+ "/".
Definition vmDiskPoolIndexKey (pool disk : uuid) : string :=
  Key ["index"; "vm_disks"; "pool"; uuid_string pool; uuid_string disk].
Definition vmNicKey (id : uuid) : string := Key ["vm_nics"; uuid_string id].
Definition vmNicVMIndexKey (vm nic : uuid) : string :=
  Key ["index"; "vm_nics"; "vm"; uuid_string vm; uuid_string nic].
Definition vmNicVMIndexPrefix (vm : uuid) : string := Key ["index"; "vm_nics"; "vm"; uuid_string vm] +:+ "/".
Definition vmNicNetworkIndexKey (network nic : uuid) : string :=
  Key ["index"; "vm_nics"; "network"; uuid_string network; uuid_string nic].
Definition vmNicMACGuard (network : uuid) (mac : string) : string :=
  Key ["uniq"; "vm_nics"; "mac"; uuid_string network; mac].
Definition vmNicIPv4ReservationKey (network : uuid) (ip : Z) : string :=
  Key ["uniq"; "vm_nics"; "ipv4"; uuid_string network; Addr_String ip].
Definition vmNicIPv4ReservationPrefix (network : uuid) : string :=
  Key ["uniq"; "vm_nics"; "ipv4"; uuid_string network] +:+ "/".
Definition networkKey (id : uuid) : string := Key ["networks"; uuid_string id].
Definition networkNameGuard (name : string) : string := Key ["uniq"; "networks"; "name"; to_lower name].
Definition networkNodeStatusPrefix : string := "/otherix/index/network_node_status/".
Definition networkNodeStatusKey (net node : uuid) : string :=
  Key ["index"; "network_node_status"; uuid_string net; uuid_string node].

Definition storagePoolKey (id : uuid) : string := Key ["storage_pools"; uuid_string id].
Definition storagePoolNameIndexKey (name : string) (id : uuid) : string :=
  Key ["index"; "storage_pools"; "name"; to_lower name; uuid_string id].
Definition storagePoolNameIndexPrefix (name : string) : string :=
  Key ["index"; "storage_pools"; "name"; to_lower name] +:+ "/".
Definition vmDisksPoolIndexPrefix (pool : uuid) : string :=
  Key ["index"; "vm_disks"; "pool"; uuid_string pool] +:+ "/".
Definition vmsPinnedNodeIndexPrefix (node : uuid) : string :=
  Key ["index"; "vms"; "pinned_node"; uuid_string node] +:+ "/".
Definition agentWireguardKey (node : uuid) : string := Key ["agent_wireguard"; uuid_string node].
Definition agentWireguardPrefix : string := Key ["agent_wireguard"] +:+ "/".

Definition nodeKey (id : uuid) : string := Key ["nodes"; uuid_string id].
Definition nodePrefix : string := Key ["nodes"] +:+ "/".
Definition nodeNameGuard (name : string) : string := Key ["uniq"; "nodes"; "name"; to_lower name].
Definition drainCancelKey (taskID : uuid) : string := Key ["node_drain_cancel"; uuid_string taskID].

Definition userKey (id : uuid) : string := Key ["users"; uuid_string id].
Definition userPrefix : string := Key ["users"] +:+ "/".
Definition userUsernameGuard (username : string) : string :=
  Key ["uniq"; "users"; "username"; username].
Definition userEmailGuard (email : string) : string :=
  Key ["uniq"; "users"; "email"; to_lower email].
Definition vmsOwnerPrefix (id : uuid) : string := Key ["index"; "vms"; "owner"; uuid_string id] +:+ "/".
Definition snapshotsOwnerPrefix (id : uuid) : string :=
  Key ["index"; "snapshots"; "owner"; uuid_string id] +:+ "/".

Definition apiTokenKey (id : uuid) : string := Key ["api_tokens"; uuid_string id].
Definition apiTokenUserIndexKey (userID id : uuid) : string :=
  Key ["index"; "api_tokens"; "user"; uuid_string userID; uuid_string id].
Definition apiTokenUserIndexPrefix (userID : uuid) : string :=
  Key ["index"; "api_tokens"; "user"; uuid_string userID] +:+ "/".
Definition apiTokenHashIndexKey (hash : bytes) : string :=
  Key ["index"; "api_tokens"; "hash"; hex_EncodeToString hash].

Definition refreshTokenKey (id : uuid) : string := Key ["refresh_tokens"; uuid_string id].
Definition refreshTokenPrefix : string := Key ["refresh_tokens"] +:+ "/".
Definition refreshTokenHashIndexKey (hash : bytes) : string :=
  Key ["index"; "refresh_tokens"; "hash"; hex_EncodeToString hash].
Definition refreshTokenFamilyIndexKey (familyID id : uuid) : string :=
  Key ["index"; "refresh_tokens"; "family"; uuid_string familyID; uuid_string id].
Definition refreshTokenFamilyIndexPrefix (familyID : uuid) : string :=
  Key ["index"; "refresh_tokens"; "family"; uuid_string familyID] +:+ "/".
Definition refreshTokenUserIndexKey (userID id : uuid) : string :=
  Key ["index"; "refresh_tokens"; "user"; uuid_string userID; uuid_string id].
Definition refreshTokenUserIndexPrefix (userID : uuid) : string :=
  Key ["index"; "refresh_tokens"; "user"; uuid_string userID] +:+ "/".
Definition refreshFamilyBarrierKey (familyID : uuid) : string :=
  Key ["barrier"; "refresh_tokens"; "family"; uuid_string familyID].
Definition refreshFamilyBarrierPrefix : string := Key ["barrier"; "refresh_tokens"; "family"] +:+ "/".

(** The resources a delete intent exists for. *)
Inductive deletable := DelNetwork | DelFirmware | DelStoragePool | DelNode.
Definition deletable_string (r : deletable) : string :=
  match r with
  | DelNetwork => "networks"
  | DelFirmware => "firmwares"
  | DelStoragePool => "storage_pools"
  | DelNode => "nodes"
  end.
Definition deletingKey (resource : string) (id : uuid) : string :=
  Key ["deleting"; resource; uuid_string id].
Definition networkDeletingKey (id : uuid) : string := deletingKey "networks" id.
Definition firmwareDeletingKey (id : uuid) : string := deletingKey "firmwares" id.
Definition storagePoolDeletingKey (id : uuid) : string := deletingKey "storage_pools" id.
Definition nodeDeletingKey (id : uuid) : string := deletingKey "nodes" id.
Definition deletingPrefix : string := Key ["deleting"] +:+ "/".
End Keys.

(** ** Reading keys back *)

(** The rest of a string after a prefix. *)
Fixpoint strip (p s : string) : option string :=
  match p, s with
  | "", _ => Some s
  | String c p, String c' s => if Ascii.eqb c c' then strip p s else None
  | String _ _, "" => None
  end.

(** The string up to its first slash, and the rest. *)
Fixpoint split_slash (s : string) : option (string * string) :=
  match s with
  | "" => None
  | String c s =>
    if Ascii.eqb c "/"%char then Some ("", s)
    else '(a, b) ← split_slash s; Some (String c a, b)
  end.

Inductive family :=
| FJobSeq | FJob | FTask | FTaskCreatedBy | FIdempotencyTask | FIdempotencyKey | FMigrationGuard
| FMigrationNode | FMigrationVM | FMigration | FVM | FVMPinned | FVMRuntime | FVMRuntimeNode
| FNode | FNodeName | FDrainCancel | FDeleting | FUser | FUserName | FUserEmail | FAPIToken
| FAPITokenUser | FAPITokenHash | FRefreshToken | FRefreshHash | FRefreshFamily | FRefreshUser
| FRefreshBarrier | FVMName | FVMUnscheduled | FVMOwner | FVMFirmware | FVMDisk | FVMDiskVM | FVMDiskPool
| FVMNic | FVMNicVM | FVMNicNetwork | FVMNicMAC | FVMNicIPv4 | FNetwork.
#[export] Instance family_eq_dec : EqDecision family.
Proof. solve_decision. Defined.

Definition families : list (string * family) :=
  [("/otherix/seq/jobs", FJobSeq); ("/otherix/jobs/", FJob); ("/otherix/tasks/", FTask);
   ("/otherix/index/tasks/created_by/", FTaskCreatedBy);
   ("/otherix/index/idempotency_task/", FIdempotencyTask);
   ("/otherix/idempotency_keys/", FIdempotencyKey);
   ("/otherix/uniq/migration_active_vm/", FMigrationGuard);
   ("/otherix/index/migrations/node/", FMigrationNode);
   ("/otherix/index/migrations/vm/", FMigrationVM); ("/otherix/migrations/", FMigration);
   ("/otherix/vms/", FVM); ("/otherix/index/vms/pinned_node/", FVMPinned);
   ("/otherix/vm_runtime/", FVMRuntime); ("/otherix/index/vm_runtime/node/", FVMRuntimeNode);
   ("/otherix/nodes/", FNode); ("/otherix/uniq/nodes/name/", FNodeName);
   ("/otherix/node_drain_cancel/", FDrainCancel); ("/otherix/deleting/", FDeleting);
   ("/otherix/users/", FUser); ("/otherix/uniq/users/username/", FUserName);
   ("/otherix/uniq/users/email/", FUserEmail); ("/otherix/api_tokens/", FAPIToken);
   ("/otherix/index/api_tokens/user/", FAPITokenUser);
   ("/otherix/index/api_tokens/hash/", FAPITokenHash);
   ("/otherix/refresh_tokens/", FRefreshToken);
   ("/otherix/index/refresh_tokens/hash/", FRefreshHash);
   ("/otherix/index/refresh_tokens/family/", FRefreshFamily);
   ("/otherix/index/refresh_tokens/user/", FRefreshUser);
   ("/otherix/barrier/refresh_tokens/family/", FRefreshBarrier);
   ("/otherix/uniq/vms/name/", FVMName); ("/otherix/index/vms/unscheduled/", FVMUnscheduled);
   ("/otherix/index/vms/owner/", FVMOwner); ("/otherix/index/vms/firmware/", FVMFirmware);
   ("/otherix/vm_disks/", FVMDisk); ("/otherix/index/vm_disks/vm/", FVMDiskVM);
   ("/otherix/index/vm_disks/pool/", FVMDiskPool); ("/otherix/vm_nics/", FVMNic);
   ("/otherix/index/vm_nics/vm/", FVMNicVM); ("/otherix/index/vm_nics/network/", FVMNicNetwork);
   ("/otherix/uniq/vm_nics/mac/", FVMNicMAC); ("/otherix/uniq/vm_nics/ipv4/", FVMNicIPv4);
   ("/otherix/networks/", FNetwork)].

(** The kind of a key and the part of it that identifies the resource. *)
Fixpoint classify (fs : list (string * family)) (s : string) : option (family * string) :=
  match fs with
  | [] => None
  | (p, f) :: fs => match strip p s with Some t => Some (f, t) | None => classify fs s end
  end.

Definition key_class (s : string) : option (family * string) := classify families s.
Definition key_family (s : string) : option family := fst <$> key_class s.

Lemma split_slash_app a b :
  has_slash a = false → split_slash (a +:+ "/" +:+ b) = Some (a, b).
Proof.
  induction a as [|c a IH]; [done|]. intros [Hc Ha]%orb_false_iff.
  change (String c a +:+ "/" +:+ b) with (String c (a +:+ "/" +:+ b)).
  cbn [split_slash]. by rewrite Hc, (IH Ha).
Qed.

Section Classes.
Context `{LibsLaws}.

Lemma class_jobSeqKey : key_class jobSeqKey = Some (FJobSeq, "").
Proof. done. Qed.
Lemma class_jobKey n : key_class (jobKey n) = Some (FJob, Sprintf020d n).
Proof. done. Qed.
Lemma class_taskKey u : key_class (taskKey u) = Some (FTask, uuid_string u).
Proof. done. Qed.
Lemma class_taskCreatedByKey u v :
  key_class (taskCreatedByKey u v) = Some (FTaskCreatedBy, uuid_string u +:+ "/" +:+ uuid_string v).
Proof. done. Qed.
Lemma class_idempotencyTaskIndexKey u k :
  key_class (idempotencyTaskIndexKey u k) = Some (FIdempotencyTask, uuid_string u +:+ "/" +:+ k).
Proof. done. Qed.
Lemma class_idempotencyKeyKey u k :
  key_class (idempotencyKeyKey u k) = Some (FIdempotencyKey, uuid_string u +:+ "/" +:+ k).
Proof. done. Qed.
Lemma class_migrationActiveVMGuard u :
  key_class (migrationActiveVMGuard u) = Some (FMigrationGuard, uuid_string u).
Proof. done. Qed.
Lemma class_migrationNodeIndexKey u v :
  key_class (migrationNodeIndexKey u v) = Some (FMigrationNode, uuid_string u +:+ "/" +:+ uuid_string v).
Proof. done. Qed.
Lemma class_migrationVMIndexKey u v :
  key_class (migrationVMIndexKey u v) = Some (FMigrationVM, uuid_string u +:+ "/" +:+ uuid_string v).
Proof. done. Qed.
Lemma class_migrationKey u : key_class (migrationKey u) = Some (FMigration, uuid_string u).
Proof. done. Qed.
Lemma class_vmKey u : key_class (vmKey u) = Some (FVM, uuid_string u).
Proof. done. Qed.
Lemma class_vmPinnedNodeIndexKey u v :
  key_class (vmPinnedNodeIndexKey u v) = Some (FVMPinned, uuid_string u +:+ "/" +:+ uuid_string v).
Proof. done. Qed.
Lemma class_vmRuntimeKey u : key_class (vmRuntimeKey u) = Some (FVMRuntime, uuid_string u).
Proof. done. Qed.
Lemma class_vmRuntimeNodeIndexKey u v :
  key_class (vmRuntimeNodeIndexKey u v) = Some (FVMRuntimeNode, uuid_string u +:+ "/" +:+ uuid_string v).
Proof. done. Qed.
Lemma class_nodeKey u : key_class (nodeKey u) = Some (FNode, uuid_string u).
Proof. done. Qed.
Lemma class_nodeNameGuard name : key_class (nodeNameGuard name) = Some (FNodeName, to_lower name).
Proof. done. Qed.
Lemma class_drainCancelKey u : key_class (drainCancelKey u) = Some (FDrainCancel, uuid_string u).
Proof. done. Qed.
Lemma class_deletingKey r u :
  key_class (deletingKey r u) = Some (FDeleting, r +:+ "/" +:+ uuid_string u).
Proof. done. Qed.
Lemma class_userKey u : key_class (userKey u) = Some (FUser, uuid_string u).
Proof. done. Qed.
Lemma class_userUsernameGuard name : key_class (userUsernameGuard name) = Some (FUserName, name).
Proof. done. Qed.
Lemma class_userEmailGuard email : key_class (userEmailGuard email) = Some (FUserEmail, to_lower email).
Proof. done. Qed.
Lemma class_apiTokenKey u : key_class (apiTokenKey u) = Some (FAPIToken, uuid_string u).
Proof. done. Qed.
Lemma class_apiTokenUserIndexKey u v :
  key_class (apiTokenUserIndexKey u v) = Some (FAPITokenUser, uuid_string u +:+ "/" +:+ uuid_string v).
Proof. done. Qed.
Lemma class_apiTokenHashIndexKey h :
  key_class (apiTokenHashIndexKey h) = Some (FAPITokenHash, hex_EncodeToString h).
Proof. done. Qed.
Lemma class_refreshTokenKey u : key_class (refreshTokenKey u) = Some (FRefreshToken, uuid_string u).
Proof. done. Qed.
Lemma class_refreshTokenHashIndexKey h :
  key_class (refreshTokenHashIndexKey h) = Some (FRefreshHash, hex_EncodeToString h).
Proof. done. Qed.
Lemma class_refreshTokenFamilyIndexKey u v :
  key_class (refreshTokenFamilyIndexKey u v) =
    Some (FRefreshFamily, uuid_string u +:+ "/" +:+ uuid_string v).
Proof. done. Qed.
Lemma class_refreshTokenUserIndexKey u v :
  key_class (refreshTokenUserIndexKey u v) =
    Some (FRefreshUser, uuid_string u +:+ "/" +:+ uuid_string v).
Proof. done. Qed.
Lemma class_refreshFamilyBarrierKey u :
  key_class (refreshFamilyBarrierKey u) = Some (FRefreshBarrier, uuid_string u).
Proof. done. Qed.
Lemma class_vmUnscheduledIndexKey u : key_class (vmUnscheduledIndexKey u) = Some (FVMUnscheduled, uuid_string u).
Proof. done. Qed.
Lemma class_vmDiskKey u : key_class (vmDiskKey u) = Some (FVMDisk, uuid_string u).
Proof. done. Qed.
Lemma class_vmNicKey u : key_class (vmNicKey u) = Some (FVMNic, uuid_string u).
Proof. done. Qed.
Lemma class_networkKey u : key_class (networkKey u) = Some (FNetwork, uuid_string u).
Proof. done. Qed.
Lemma class_vmOwnerIndexKey u v :
  key_class (vmOwnerIndexKey u v) = Some (FVMOwner, uuid_string u +:+ "/" +:+ uuid_string v).
Proof. done. Qed.
Lemma class_vmFirmwareIndexKey u v :
  key_class (vmFirmwareIndexKey u v) = Some (FVMFirmware, uuid_string u +:+ "/" +:+ uuid_string v).
Proof. done. Qed.
Lemma class_vmDiskVMIndexKey u v :
  key_class (vmDiskVMIndexKey u v) = Some (FVMDiskVM, uuid_string u +:+ "/" +:+ uuid_string v).
Proof. done. Qed.
Lemma class_vmDiskPoolIndexKey u v :
  key_class (vmDiskPoolIndexKey u v) = Some (FVMDiskPool, uuid_string u +:+ "/" +:+ uuid_string v).
Proof. done. Qed.
Lemma class_vmNicVMIndexKey u v :
  key_class (vmNicVMIndexKey u v) = Some (FVMNicVM, uuid_string u +:+ "/" +:+ uuid_string v).
Proof. done. Qed.
Lemma class_vmNicNetworkIndexKey u v :
  key_class (vmNicNetworkIndexKey u v) = Some (FVMNicNetwork, uuid_string u +:+ "/" +:+ uuid_string v).
Proof. done. Qed.
Lemma class_vmNameGuard name : key_class (vmNameGuard name) = Some (FVMName, to_lower name).
Proof. done. Qed.
Lemma class_vmNicMACGuard u mac : key_class (vmNicMACGuard u mac) = Some (FVMNicMAC, uuid_string u +:+ "/" +:+ mac).
Proof. done. Qed.
Lemma class_vmNicIPv4ReservationKey u ip :
  key_class (vmNicIPv4ReservationKey u ip) = Some (FVMNicIPv4, uuid_string u +:+ "/" +:+ Addr_String ip).
Proof. done. Qed.

(** A key determines its identifiers. *)
#[export] Instance uuid_string_inj : Inj (=) (=) uuid_string.
Proof.
  intros u v E. apply (f_equal uuid_parse) in E. rewrite !uuid_parse_string in E. congruence.
Qed.

Lemma pair_inj u v s t : uuid_string u +:+ "/" +:+ s = uuid_string v +:+ "/" +:+ t → u = v ∧ s = t.
Proof.
  intros E. apply (f_equal split_slash) in E.
  rewrite !(split_slash_app (uuid_string _)) in E by apply uuid_string_no_slash.
  injection E as Eu Es. split; [by apply (inj uuid_string)|done].
Qed.

Lemma jobKey_inj n1 n2 : in_i64 n1 → in_i64 n2 → jobKey n1 = jobKey n2 → n1 = n2.
Proof.
  intros H1 H2 E. apply (f_equal key_class) in E. rewrite !class_jobKey in E.
  injection E as E. apply (f_equal ParseInt) in E. rewrite !ParseInt_Sprintf020d in E by done.
  congruence.
Qed.

Lemma class_inj (key : uuid → string) f :
  (∀ u, key_class (key u) = Some (f, uuid_string u)) → Inj (=) (=) key.
Proof.
  intros Hc u v E. apply (f_equal key_class) in E. rewrite !Hc in E. injection E as E.
  by apply (inj uuid_string).
Qed.

Lemma class_inj_pair (key : uuid → string → string) f :
  (∀ u s, key_class (key u s) = Some (f, uuid_string u +:+ "/" +:+ s)) → Inj2 (=) (=) (=) key.
Proof.
  intros Hc u k v l E. apply (f_equal key_class) in E. rewrite !Hc in E. injection E as E.
  by apply pair_inj.
Qed.

Lemma class_inj2 (key : uuid → uuid → string) f :
  (∀ u v, key_class (key u v) = Some (f, uuid_string u +:+ "/" +:+ uuid_string v)) →
  Inj2 (=) (=) (=) key.
Proof.
  intros Hc u k v l E. apply (f_equal key_class) in E. rewrite !Hc in E. injection E as E.
  apply pair_inj in E as [-> E]. split; [done|by apply (inj uuid_string)].
Qed.

#[export] Instance taskKey_inj : Inj (=) (=) taskKey := class_inj _ _ class_taskKey.
#[export] Instance migrationKey_inj : Inj (=) (=) migrationKey := class_inj _ _ class_migrationKey.
#[export] Instance migrationActiveVMGuard_inj : Inj (=) (=) migrationActiveVMGuard := class_inj _ _ class_migrationActiveVMGuard.
#[export] Instance vmKey_inj : Inj (=) (=) vmKey := class_inj _ _ class_vmKey.
#[export] Instance vmRuntimeKey_inj : Inj (=) (=) vmRuntimeKey := class_inj _ _ class_vmRuntimeKey.
#[export] Instance nodeKey_inj : Inj (=) (=) nodeKey := class_inj _ _ class_nodeKey.
#[export] Instance userKey_inj : Inj (=) (=) userKey := class_inj _ _ class_userKey.
#[export] Instance apiTokenKey_inj : Inj (=) (=) apiTokenKey := class_inj _ _ class_apiTokenKey.
#[export] Instance refreshTokenKey_inj : Inj (=) (=) refreshTokenKey := class_inj _ _ class_refreshTokenKey.
#[export] Instance refreshFamilyBarrierKey_inj : Inj (=) (=) refreshFamilyBarrierKey := class_inj _ _ class_refreshFamilyBarrierKey.
#[export] Instance idempotencyTaskIndexKey_inj : Inj2 (=) (=) (=) idempotencyTaskIndexKey :=
  class_inj_pair _ _ class_idempotencyTaskIndexKey.
#[export] Instance idempotencyKeyKey_inj : Inj2 (=) (=) (=) idempotencyKeyKey :=
  class_inj_pair _ _ class_idempotencyKeyKey.
#[export] Instance migrationNodeIndexKey_inj : Inj2 (=) (=) (=) migrationNodeIndexKey :=
  class_inj2 _ _ class_migrationNodeIndexKey.
#[export] Instance migrationVMIndexKey_inj : Inj2 (=) (=) (=) migrationVMIndexKey :=
  class_inj2 _ _ class_migrationVMIndexKey.
#[export] Instance apiTokenUserIndexKey_inj : Inj2 (=) (=) (=) apiTokenUserIndexKey :=
  class_inj2 _ _ class_apiTokenUserIndexKey.
#[export] Instance refreshTokenFamilyIndexKey_inj : Inj2 (=) (=) (=) refreshTokenFamilyIndexKey :=
  class_inj2 _ _ class_refreshTokenFamilyIndexKey.
#[export] Instance refreshTokenUserIndexKey_inj : Inj2 (=) (=) (=) refreshTokenUserIndexKey :=
  class_inj2 _ _ class_refreshTokenUserIndexKey.
#[export] Instance vmUnscheduledIndexKey_inj : Inj (=) (=) vmUnscheduledIndexKey := class_inj _ _ class_vmUnscheduledIndexKey.
#[export] Instance vmDiskKey_inj : Inj (=) (=) vmDiskKey := class_inj _ _ class_vmDiskKey.
#[export] Instance vmNicKey_inj : Inj (=) (=) vmNicKey := class_inj _ _ class_vmNicKey.
#[export] Instance networkKey_inj : Inj (=) (=) networkKey := class_inj _ _ class_networkKey.
#[export] Instance vmNicMACGuard_inj : Inj2 (=) (=) (=) vmNicMACGuard := class_inj_pair _ _ class_vmNicMACGuard.
#[export] Instance vmOwnerIndexKey_inj : Inj2 (=) (=) (=) vmOwnerIndexKey :=
  class_inj2 _ _ class_vmOwnerIndexKey.
#[export] Instance vmFirmwareIndexKey_inj : Inj2 (=) (=) (=) vmFirmwareIndexKey :=
  class_inj2 _ _ class_vmFirmwareIndexKey.
#[export] Instance vmDiskVMIndexKey_inj : Inj2 (=) (=) (=) vmDiskVMIndexKey :=
  class_inj2 _ _ class_vmDiskVMIndexKey.
#[export] Instance vmDiskPoolIndexKey_inj : Inj2 (=) (=) (=) vmDiskPoolIndexKey :=
  class_inj2 _ _ class_vmDiskPoolIndexKey.
#[export] Instance vmNicVMIndexKey_inj : Inj2 (=) (=) (=) vmNicVMIndexKey :=
  class_inj2 _ _ class_vmNicVMIndexKey.
#[export] Instance vmNicNetworkIndexKey_inj : Inj2 (=) (=) (=) vmNicNetworkIndexKey :=
  class_inj2 _ _ class_vmNicNetworkIndexKey.

Lemma vmNicIPv4ReservationKey_inj n1 ip1 n2 ip2 :
  0 ≤ ip1 < 2 ^ 32 → 0 ≤ ip2 < 2 ^ 32 → vmNicIPv4ReservationKey n1 ip1 = vmNicIPv4ReservationKey n2 ip2 →
  n1 = n2 ∧ ip1 = ip2.
Proof.
  intros H1 H2 E. apply (f_equal key_class) in E. rewrite !class_vmNicIPv4ReservationKey in E. injection E as E.
  apply pair_inj in E as [-> E]. split; [done|]. by apply Addr_String_inj.
Qed.
End Classes.

(** The keys under a prefix are of one kind. *)
Lemma prefix_app p s : String.prefix p s = true → ∃ t, s = p +:+ t.
Proof.
  revert s. induction p as [|c p IH]; intros s; [by exists s|]. destruct s as [|c' s]; [done|].
  simpl. destruct (Ascii.ascii_dec c c') as [->|]; [|done]. intros [t ->]%IH. by exists t.
Qed.

Lemma string_app_assoc (a b c : string) : a +:+ (b +:+ c) = (a +:+ b) +:+ c.
Proof.
  induction a as [|x a IH]; [done|].
  change (String x (a +:+ (b +:+ c)) = String x ((a +:+ b) +:+ c)). by rewrite IH.
Qed.

Lemma app_prefix p t : String.prefix p (p +:+ t) = true.
Proof.
  induction p as [|c p IH]; [by destruct t|]. simpl. by destruct (Ascii.ascii_dec c c).
Qed.

Lemma prefix_jobs k : String.prefix jobsPrefix k = true → key_family k = Some FJob.
Proof. by intros [t ->]%prefix_app. Qed.
Lemma prefix_tasks k : String.prefix taskPrefix k = true → key_family k = Some FTask.
Proof. by intros [t ->]%prefix_app. Qed.
Lemma prefix_migrations k : String.prefix migrationPrefix k = true → key_family k = Some FMigration.
Proof. by intros [t ->]%prefix_app. Qed.
Lemma prefix_nodes k : String.prefix nodePrefix k = true → key_family k = Some FNode.
Proof. by intros [t ->]%prefix_app. Qed.
Lemma prefix_deleting k : String.prefix deletingPrefix k = true → key_family k = Some FDeleting.
Proof. by intros [t ->]%prefix_app. Qed.
Lemma prefix_idempotency k :
  String.prefix idempotencyPrefix k = true → key_family k = Some FIdempotencyKey.
Proof. by intros [t ->]%prefix_app. Qed.
Lemma prefix_idempotency_task k :
  String.prefix idempotencyTaskIndexPrefix k = true → key_family k = Some FIdempotencyTask.
Proof. by intros [t ->]%prefix_app. Qed.
Lemma prefix_refresh_tokens k :
  String.prefix refreshTokenPrefix k = true → key_family k = Some FRefreshToken.
Proof. by intros [t ->]%prefix_app. Qed.
Lemma prefix_refresh_barriers k :
  String.prefix refreshFamilyBarrierPrefix k = true → key_family k = Some FRefreshBarrier.
Proof. by intros [t ->]%prefix_app. Qed.

(** Keys of different kinds differ: [key_neq] proves it. *)
Create Rewrite HintDb keys.
#[export] Hint Rewrite @class_jobSeqKey @class_jobKey @class_taskKey @class_taskCreatedByKey
  @class_idempotencyTaskIndexKey @class_idempotencyKeyKey @class_migrationActiveVMGuard
  @class_migrationNodeIndexKey @class_migrationVMIndexKey @class_migrationKey @class_vmKey
  @class_vmPinnedNodeIndexKey @class_vmRuntimeKey @class_vmRuntimeNodeIndexKey @class_nodeKey
  @class_nodeNameGuard @class_drainCancelKey @class_deletingKey @class_userKey
  @class_userUsernameGuard @class_userEmailGuard @class_apiTokenKey @class_apiTokenUserIndexKey
  @class_apiTokenHashIndexKey @class_refreshTokenKey @class_refreshTokenHashIndexKey
  @class_refreshTokenFamilyIndexKey @class_refreshTokenUserIndexKey @class_refreshFamilyBarrierKey
  @class_vmUnscheduledIndexKey @class_vmDiskKey @class_vmNicKey @class_networkKey @class_vmOwnerIndexKey @class_vmFirmwareIndexKey
  @class_vmDiskVMIndexKey @class_vmDiskPoolIndexKey @class_vmNicVMIndexKey @class_vmNicNetworkIndexKey @class_vmNameGuard @class_vmNicMACGuard @class_vmNicIPv4ReservationKey
  : keys.

Ltac key_neq :=
  let E := fresh in
  intros E; apply (f_equal key_class) in E; unfold nodeDeletingKey in E;
  autorewrite with keys in E; discriminate E.

Global Arguments jobKey : simpl never.
Global Arguments jobSeqKey : simpl never.
Global Arguments taskKey : simpl never.
Global Arguments taskCreatedByKey : simpl never.
Global Arguments idempotencyTaskIndexKey : simpl never.
Global Arguments idempotencyKeyKey : simpl never.
Global Arguments migrationActiveVMGuard : simpl never.
Global Arguments migrationNodeIndexKey : simpl never.
Global Arguments migrationVMIndexKey : simpl never.
Global Arguments migrationKey : simpl never.
Global Arguments vmKey : simpl never.
Global Arguments vmPinnedNodeIndexKey : simpl never.
Global Arguments vmRuntimeKey : simpl never.
Global Arguments vmRuntimeNodeIndexKey : simpl never.
Global Arguments nodeKey : simpl never.
Global Arguments nodeNameGuard : simpl never.
Global Arguments drainCancelKey : simpl never.
Global Arguments deletingKey : simpl never.
Global Arguments userKey : simpl never.
Global Arguments userUsernameGuard : simpl never.
Global Arguments userEmailGuard : simpl never.
Global Arguments apiTokenKey : simpl never.
Global Arguments apiTokenUserIndexKey : simpl never.
Global Arguments apiTokenHashIndexKey : simpl never.
Global Arguments refreshTokenKey : simpl never.
Global Arguments refreshTokenHashIndexKey : simpl never.
Global Arguments refreshTokenFamilyIndexKey : simpl never.
Global Arguments refreshTokenUserIndexKey : simpl never.
Global Arguments refreshFamilyBarrierKey : simpl never.
Global Arguments vmUnscheduledIndexKey : simpl never.
Global Arguments vmDiskKey : simpl never.
Global Arguments vmNicKey : simpl never.
Global Arguments networkKey : simpl never.
Global Arguments vmOwnerIndexKey : simpl never.
Global Arguments vmFirmwareIndexKey : simpl never.
Global Arguments vmDiskVMIndexKey : simpl never.
Global Arguments vmDiskPoolIndexKey : simpl never.
Global Arguments vmNicVMIndexKey : simpl never.
Global Arguments vmNicNetworkIndexKey : simpl never.
Global Arguments vmNameGuard : simpl never.
Global Arguments vmNicMACGuard : simpl never.
Global Arguments vmNicIPv4ReservationKey : simpl never.

(** ** The order of the queue

    Job keys sort as their sequence numbers do. *)
Section JobOrder.
Context `{Libs}.

Lemma str_ltb_app p s t : str_ltb (p +:+ s) (p +:+ t) = str_ltb s t.
Proof.
  unfold str_ltb, String.ltb. induction p as [|c p IH]; [done|]. simpl.
  unfold Ascii.compare. by rewrite N.compare_refl.
Qed.

Lemma jobKey_prefix n : String.prefix jobsPrefix (jobKey n) = true.
Proof. exact (app_prefix "/otherix/jobs/" (Sprintf020d n)). Qed.
Lemma taskKey_prefix u : String.prefix taskPrefix (taskKey u) = true.
Proof. exact (app_prefix "/otherix/tasks/" (uuid_string u)). Qed.
Lemma migrationKey_prefix u : String.prefix migrationPrefix (migrationKey u) = true.
Proof. exact (app_prefix "/otherix/migrations/" (uuid_string u)). Qed.

Lemma jobKey_ltb n1 n2 :
  0 ≤ n1 ≤ max_i64 → 0 ≤ n2 ≤ max_i64 → str_ltb (jobKey n1) (jobKey n2) = (n1 <? n2).
Proof.
  intros H1 H2. rewrite <-(Sprintf020d_ltb n1 n2 H1 H2).
  apply (str_ltb_app "/otherix/jobs/").
Qed.
End JobOrder.
