(* ===== verification/Client.v ===== *)
(** * The KV client and the store's shared helpers

    [internal/etcd/client.go] (the facade over [clientv3]), the fence compare of
    [internal/etcd/leader.go] and [internal/etcdstore/helpers.go], as programs
    of [Prog].  A value read from etcd is a [doc]; decoding it as a row type is
    [decode_doc], and a decoding error is [ErrDecode]. *)

From S2P Require Import Prelude Models Strconv Etcd Prog Keys.
Import Strconv.
Local Open Scope Z_scope.

(** ** internal/etcd/client.go *)

Definition MaxValueBytes : Z := 1024 * 1024.

Section Client.
Context `{Libs}.

Definition capValue (d : doc) : M unit :=
  if MaxValueBytes <? json_len d then fail ErrValueTooLarge else mret tt.

Definition Marshal {A} `{Codec A} (v : A) : M doc :=
  _ ← capValue (encode_doc v); mret (encode_doc v).

(** [c.Raw().Get] of one key, and [c.Raw().Txn(ctx).If().Then().Else().Commit()]. *)
Definition raw_get (k : string) : M (option entry) := call (RqGet k).
Definition raw_range (prefix : string) : M (list (string * entry)) := call (RqRange prefix).
Definition raw_txn (conds : list cmp) (thens elses : list op) : M txn_reply :=
  call (RqTxn (Txn conds thens elses)).

Definition Put (key : string) (value : doc) : M unit :=
  _ ← capValue value;
  _ ← raw_txn [] [OpPut key value] [];
  mret tt.

Definition PutJSON {A} `{Codec A} (key : string) (v : A) : M unit := Put key (encode_doc v).

Definition Get (key : string) : M (option doc) :=
  r ← raw_get key; mret (e_val <$> r).

Definition GetJSON {A} `{Codec A} (key : string) : M (option A) :=
  r ← raw_get key;
  match r with
  | None => mret None
  | Some e => match decode_doc (e_val e) with
              | Some v => mret (Some v)
              | None => fail ErrDecode
              end
  end.

Definition Delete (key : string) : M bool :=
  r ← raw_txn [] [OpDelete key] [];
  mret (match tr_Responses r with [RDelete n] => 0 <? n | _ => false end).

Definition PutIfAbsent (key : string) (value : doc) : M bool :=
  _ ← capValue value;
  r ← raw_txn [CmpCreate key 0] [OpPut key value] [];
  mret (tr_Succeeded r).

Definition Range (prefix : string) : M (list (string * doc)) :=
  kvs ← raw_range prefix; mret (map (λ kv, (kv.1, e_val kv.2)) kvs).

(** ** internal/etcd/leader.go *)

(** The leader key and its create revision a worker's context carries. *)
Record fence := Fence { fence_key : string; fence_rev : Z }.

Definition FenceCmps (ctx : option fence) : list cmp :=
  match ctx with
  | None => []
  | Some f => [CmpCreate (fence_key f) (fence_rev f)]
  end.

(** ** internal/etcdstore/helpers.go *)

(** The value, unless it does not decode: then the item is skipped. *)
Definition decodeOrQuarantine {A} `{Codec A} (val : doc) : option A := decode_doc val.

Definition resolveGuard (key : string) : M (option uuid) :=
  r ← Get key;
  match r with
  | None => mret None
  | Some (DStr s) => match uuid_parse s with
                     | Some u => mret (Some u)
                     | None => fail ErrDecode
                     end
  | Some _ => fail ErrDecode
  end.

(** The first page of a listing. *)
Definition limit {A} (n : Z) (l : list A) : list A :=
  if 0 <? n then take (Z.to_nat n) l else l.

(** One round of the counter loop: the allocated value, or [None] when the
    compare lost. *)
Definition nextSeq_round (key : string) : M (option Z) :=
  cur ← Get key;
  n ← match cur with
      | None => mret 0
      | Some (DStr s) => match ParseInt s with
                         | Some n => mret n
                         | None => fail ErrDecode
                         end
      | Some _ => fail ErrDecode
      end;
  let next := i64 (n + 1) in
  let c := match cur with
           | Some v => CmpValue key v
           | None => CmpCreate key 0
           end in
  resp ← raw_txn [c] [OpPut key (DStr (FormatInt next))] [];
  mret (if tr_Succeeded resp then Some next else None).

Fixpoint nextSeq_loop (rounds : nat) (key : string) : M Z :=
  match rounds with
  | O => fail (ErrOther "sequence contention exceeded retry budget")
  | S rounds =>
    r ← nextSeq_round key;
    match r with Some n => mret n | None => nextSeq_loop rounds key end
  end.

Definition nextSeq (key : string) : M Z := nextSeq_loop 64 key.

(** ** Chunked commits (internal/etcdstore/maintenance.go) *)

Definition maxTxnOps : nat := 120.

(** Each iteration takes at least one operation, so as many iterations as there
    are operations are enough. *)
Fixpoint commit_chunks (fuel : nat) (ops : list op) : M unit :=
  match fuel, ops with
  | _, [] => mret tt
  | O, _ => mret tt
  | S fuel, _ =>
    _ ← raw_txn [] (take maxTxnOps ops) [];
    commit_chunks fuel (drop maxTxnOps ops)
  end.

Definition commitInChunks (ops : list op) : M unit := commit_chunks (length ops) ops.

End Client.

(** ** Scans of rows

    What the list operations work on: the rows under a prefix that decode, in key
    order. *)
Section Scans.
Context {A : Type} `{Codec A}.

Definition decoded (p : string) (m : gmap string entry) : list A :=
  omap (λ kv, decodeOrQuarantine kv.2) (map (λ kv, (kv.1, e_val kv.2)) (scan p m)).

Lemma decoded_eq p m : decoded p m = omap (λ kv, decodeOrQuarantine (e_val kv.2)) (scan p m).
Proof.
  unfold decoded. induction (scan p m) as [|kv l IH]; [done|]. cbn. cbn in IH. by rewrite IH.
Qed.

Lemma elem_of_decoded p m a :
  a ∈ decoded p m ↔ ∃ k e, m !! k = Some e ∧ String.prefix p k = true ∧ e_val e = encode_doc a.
Proof.
  rewrite decoded_eq, list_elem_of_omap. split.
  - intros ([k e] & [Hk Hp]%elem_of_scan & Hd). exists k, e. split_and!; [done|done|].
    by apply decode_doc_inv.
  - intros (k & e & Hk & Hp & He). exists (k, e). split; [by apply elem_of_scan|].
    unfold decodeOrQuarantine. simpl. by rewrite He, decode_encode_doc.
Qed.

(** Rows that lie under their own keys come in the order of those keys. *)
Lemma decoded_sorted (key : A → string) p m :
  (∀ k e a, m !! k = Some e → String.prefix p k = true → e_val e = encode_doc a → k = key a) →
  StronglySorted (λ a b, str_ltb (key a) (key b) = true) (decoded p m).
Proof.
  intros Hkey. rewrite decoded_eq. eapply StronglySorted_omap; [|apply scan_sorted].
  intros [k1 e1] [k2 e2] a b [Hk1 Hp1]%elem_of_scan [Hk2 Hp2]%elem_of_scan Hlt Ha Hb.
  apply decode_doc_inv in Ha, Hb. by rewrite <-(Hkey k1 e1 a), <-(Hkey k2 e2 b).
Qed.

Lemma decoded_distinct {B} (id : A → B) (key : B → string) p m :
  (∀ k e a, m !! k = Some e → String.prefix p k = true → e_val e = encode_doc a → k = key (id a)) →
  NoDup (map id (decoded p m)).
Proof.
  intros Hkey. eapply StronglySorted_NoDup; [|exact (decoded_sorted (λ a, key (id a)) p m Hkey)].
  intros a b Hlt E. simpl in Hlt. rewrite E in Hlt. by rewrite (proj2 (str_ltb_false _ _)) in Hlt.
Qed.
End Scans.
