(* ===== verification/Instances.v ===== *)
(** * A concrete setting

    A server and a uuid library that satisfy the laws the development assumes:
    the reference etcd, and uuids printed as their bits.  Concrete runs are
    evaluated in it. *)

From Stdlib Require Import Ascii.
From S2P Require Import Prelude Models Etcd Prog Keys.
Local Open Scope string_scope.
Local Open Scope Z_scope.

Module Concrete.

Fixpoint bits (p : positive) : string :=
  match p with
  | xH => ""
  | xO p => String "0" (bits p)
  | xI p => String "1" (bits p)
  end.

Fixpoint of_bits (s : string) : option positive :=
  match s with
  | "" => Some xH
  | String c s =>
    if Ascii.eqb c "0" then xO <$> of_bits s
    else if Ascii.eqb c "1" then xI <$> of_bits s
    else None
  end.

Definition print (u : uuid) : string :=
  match uuid_bits u with N0 => "z" | Npos p => String "p" (bits p) end.

Definition parse (s : string) : option uuid :=
  match s with
  | "" => None
  | String c s =>
    if Ascii.eqb c "z" then match s with "" => Some (Uuid 0) | _ => None end
    else if Ascii.eqb c "p" then (λ p, Uuid (Npos p)) <$> of_bits s
    else None
  end.

#[export] Instance libs : Libs := {|
  uuid_string := print;
  uuid_parse := parse;
  json_len _ := 1
|}.

Lemma of_bits_bits p : of_bits (bits p) = Some p.
Proof. induction p as [p IH|p IH|]; simpl; by rewrite ?IH. Qed.

Lemma has_slash_bits p : has_slash (bits p) = false.
Proof. by induction p. Qed.

#[export] Instance libs_laws : LibsLaws.
Proof.
  split; intros [[|p]]; try done; simpl.
  - by rewrite of_bits_bits.
  - apply has_slash_bits.
Qed.

#[export] Instance etcd : Etcd := ReferenceEtcd.
#[export] Instance etcd_laws : EtcdLaws := ReferenceEtcd_laws.

(** An empty store. *)
Definition empty_store : estate := EState ∅ 0.
Definition empty_world : world := World empty_store [] ∅.

(** The [n]-th uuid, and a supply of fresh ones. *)
Definition id (n : N) : uuid := Uuid n.
Definition supply (n : nat) : uuid := Uuid (1000 + N.of_nat n).

Lemma empty_store_wf : estate_wf empty_store.
Proof. split; [done|]. intros k e. simpl. by rewrite lookup_empty. Qed.

(** A store that holds the given rows, all written by its first write. *)
Definition stored (rows : list (string * doc)) : estate :=
  EState (list_to_map (map (λ kd, (kd.1, Entry kd.2 1 1)) rows)) 5.
Definition stored_world (rows : list (string * doc)) : world := World (stored rows) [] ∅.

Lemma stored_lookup rows k e :
  es_map (stored rows) !! k = Some e → (k, e_val e) ∈ rows ∧ e_create e = 1 ∧ e_mod e = 1.
Proof.
  intros Hk%elem_of_list_to_map_2. apply list_elem_of_fmap in Hk as ([k' d] & [= -> ->] & Hin). done.
Qed.

Lemma stored_wf rows : estate_wf (stored rows).
Proof. split; [done|]. intros k e (_ & -> & ->)%stored_lookup. simpl. lia. Qed.

(** ** Schedules

    One step of a program whose requests are answered, at time [clock]. *)
Definition next {R} (clock : Z) (w : world) (p : prog R) : option (world * prog R) :=
  match p with
  | Ret _ => None
  | Call rq k =>
    match etcd_exec (w_st w) rq with
    | Some (st, r) => Some (advance st w, k (Some r))
    | None => Some (w, k None)
    end
  | Now k => Some (w, k clock)
  | NewUuid k =>
    let u := supply (size (w_issued w)) in
    if bool_decide (u ∈ w_issued w) then None else Some (issue u w, k u)
  end.

Lemma next_pstep {R} clock w (p : prog R) w' p' :
  next clock w p = Some (w', p') → pstep w p w' p'.
Proof.
  destruct p as [r|rq k|k|k]; simpl; [done|..].
  - destruct (etcd_exec (w_st w) rq) as [[st r]|] eqn:E; intros; simplify_eq; by econstructor.
  - intros; simplify_eq. constructor.
  - case_bool_decide; [done|]. intros; simplify_eq. by constructor.
Qed.

(** A step of the [i]-th program. *)
Definition step_at (clock : Z) (c : config) (i : nat) : config :=
  match c.2 !! i with
  | None => c
  | Some (Thread R post p) =>
    match next clock c.1 p with
    | None => c
    | Some (w', p') => (w', <[i := Thread R post p']> c.2)
    end
  end.

Definition schedule (clock : Z) (l : list nat) (c : config) : config :=
  foldl (step_at clock) c l.

Lemma schedule_rtc P clock l c : rtc (cstep P) c (schedule clock l c).
Proof.
  revert c. induction l as [|i l IH]; intros c; [done|]. cbn [schedule foldl].
  etrans; [|apply IH]. unfold step_at. destruct c as [w ts]; simpl.
  destruct (ts !! i) as [[R post p]|] eqn:Ei; [|done].
  destruct (next clock w p) as [[w' p']|] eqn:En; [|done].
  apply rtc_once. eapply cstep_thread; [done|by eapply next_pstep].
Qed.

(** Whether the [i]-th program can take a step. *)
Definition running (c : config) (i : nat) : bool :=
  match c.2 !! i with
  | Some (Thread R _ p) => match next 0 c.1 p with Some _ => true | None => false end
  | None => false
  end.

Lemma step_at_cstep P clock c i : running c i = true → cstep P c (step_at clock c i).
Proof.
  unfold running, step_at. destruct c as [w ts]; simpl.
  destruct (ts !! i) as [[R post p]|] eqn:Ei; [|done]. intros Hn.
  assert (is_Some (next clock w p)) as [[w' p'] En].
  { destruct p as [r|rq k|k|k]; simpl in *; [done| |done|].
    - destruct (etcd_exec (w_st w) rq) as [[st r]|]; by eexists.
    - case_bool_decide; [done|]. by eexists. }
  rewrite En. eapply cstep_thread; [done|by eapply next_pstep].
Qed.

(** All programs of a list started at once. *)
Lemma spawn_rtc P w ts : Forall P ts → rtc (cstep P) (w, []) (w, ts).
Proof.
  induction ts as [|th ts IH] using rev_ind; [done|]. intros [Hts Hth]%Forall_app.
  eapply rtc_r; [by apply IH|]. apply cstep_spawn. by inversion Hth.
Qed.

(** A program's own steps, with no interference. *)
Fixpoint drive {R} (fuel : nat) (clock : Z) (w : world) (p : prog R)
    : list (world * world) * world * prog R :=
  match fuel with
  | O => ([], w, p)
  | S fuel =>
    match next clock w p with
    | None => ([], w, p)
    | Some (w1, p1) =>
      let '(evs, w', p') := drive fuel clock w1 p1 in ((w, w1) :: evs, w', p')
    end
  end.

Lemma drive_open_run env {R} fuel clock w (p : prog R) :
  open_run env w p (drive fuel clock w p).1.1 (drive fuel clock w p).1.2 (drive fuel clock w p).2.
Proof.
  revert w p. induction fuel as [|fuel IH]; intros w p; [constructor|]. simpl.
  destruct (next clock w p) as [[w1 p1]|] eqn:En; [|constructor].
  specialize (IH w1 p1). destruct (drive fuel clock w1 p1) as [[evs w'] p']. simpl in *.
  eapply open_own; [by eapply next_pstep|done].
Qed.

End Concrete.
