(* ===== verification/Sequential.v ===== *)
(** * One operation alone

    What [run] computes for each primitive: the equations used to work out the
    result and the final state of an operation that runs without interference
    and whose requests are answered. *)

From S2P Require Import Prelude Models Etcd Prog Keys Client.
Local Open Scope Z_scope.

(** A put of one row into a store that has room for it. *)
Definition put_row (k : string) (v : doc) (st : estate) : estate :=
  EState (<[k := Entry v (from_option e_create (es_rev st + 1) (es_map st !! k)) (es_rev st + 1)]>
            (es_map st)) (es_rev st + 1).

Section Sequential.
Context `{Etcd, !EtcdLaws, !Libs} (clock : Z) (supply : nat → uuid).

Abbreviation run := (run clock supply).

Lemma run_bindM {A B} (f : A → M B) (m : M A) st n :
  run (m ≫= f) st n =
    match run m st n with
    | (Ok a, st', n') => run (f a) st' n'
    | (Err e, st', n') => (Err e, st', n')
    end.
Proof.
  unfold mbind, M_bind. rewrite run_bind. by destruct (run m st n) as [[[a|e] st'] n'].
Qed.

Lemma run_mret {A} (a : A) st n : run (mret a : M A) st n = (Ok a, st, n).
Proof. done. Qed.

Lemma run_fail {A} e st n : run (fail e : M A) st n = (Err e, st, n).
Proof. done. Qed.

Lemma run_now st n : run now st n = (Ok clock, st, n).
Proof. done. Qed.

Lemma run_new_uuid st n : run new_uuid st n = (Ok (supply n), st, S n).
Proof. done. Qed.

Lemma run_raw_get k st n : run (raw_get k) st n = (Ok (es_map st !! k), st, n).
Proof. unfold raw_get, call. cbn [Prog.run]. by rewrite etcd_get. Qed.

Lemma run_raw_range p st n : run (raw_range p) st n = (Ok (scan p (es_map st)), st, n).
Proof. unfold raw_range, call. cbn [Prog.run]. by rewrite etcd_range. Qed.

Lemma run_raw_txn conds thens elses st n :
  accepts st (Txn conds thens elses) = true →
  run (raw_txn conds thens elses) st n =
    (Ok (commit st (Txn conds thens elses)).2, (commit st (Txn conds thens elses)).1, n).
Proof.
  intros Ha. unfold raw_txn, call. cbn [Prog.run]. rewrite etcd_txn by done.
  by destruct (commit _ _).
Qed.

Lemma run_Get k st n : run (Get k) st n = (Ok (e_val <$> es_map st !! k), st, n).
Proof. unfold Get. by rewrite run_bindM, run_raw_get. Qed.

Lemma run_Range p st n :
  run (Range p) st n = (Ok (map (λ kv, (kv.1, e_val kv.2)) (scan p (es_map st))), st, n).
Proof. unfold Range. by rewrite run_bindM, run_raw_range. Qed.

(** The value fits the cap. *)
Definition fits {A} `{Codec A} (v : A) : Prop := json_len (encode_doc v) ≤ MaxValueBytes.

Lemma run_Marshal {A} `{Codec A} (v : A) st n :
  fits v → run (Marshal v) st n = (Ok (encode_doc v), st, n).
Proof.
  intros Hf. unfold Marshal, capValue. unfold fits in Hf.
  by destruct (Z.ltb_spec MaxValueBytes (json_len (encode_doc v))); [lia|].
Qed.

Lemma run_attempt {A} (m : M A) st n :
  run (attempt m) st n = (Ok (run m st n).1.1, (run m st n).1.2, (run m st n).2).
Proof. unfold attempt. rewrite run_bind. by destruct (run m st n) as [[r st'] n']. Qed.

Lemma run_GetJSON {A} `{Codec A} k st n :
  run (GetJSON (A := A) k) st n =
    (match es_map st !! k with
     | None => Ok None
     | Some e => match decode_doc (e_val e) with Some v => Ok (Some v) | None => Err ErrDecode end
     end, st, n).
Proof.
  unfold GetJSON. rewrite run_bindM, run_raw_get. destruct (es_map st !! k) as [e|]; [|done].
  by destruct (decode_doc (e_val e)).
Qed.

(** A transaction of one put whose compares hold. *)
Lemma run_put_txn conds k v st n :
  es_rev st < max_i64 →
  (length conds ≤ server_max_txn_ops)%nat → forallb (cmp_holds (es_map st)) conds = true →
  run (raw_txn conds [OpPut k v] []) st n =
    (Ok (TxnReply true (es_rev st + 1) [RPut]), put_row k v st, n).
Proof.
  intros Hmax Hlen Hc. rewrite run_raw_txn.
  - unfold commit. cbn [t_If t_Then t_Else]. by rewrite Hc.
  - apply accepts_txn; [done|done|apply branch_valid_put|apply branch_valid_nil].
Qed.

Lemma run_PutJSON {A} `{Codec A} k (v : A) st n :
  fits v → es_rev st < max_i64 →
  run (PutJSON k v) st n = (Ok tt, put_row k (encode_doc v) st, n).
Proof.
  intros Hf Hmax. unfold PutJSON, Put, capValue. unfold fits in Hf.
  destruct (Z.ltb_spec MaxValueBytes (json_len (encode_doc v))); [lia|].
  rewrite run_bindM, run_mret, run_bindM, run_put_txn; [done|done|simpl; lia|done].
Qed.

Lemma run_Delete k e st n :
  es_rev st < max_i64 → es_map st !! k = Some e →
  run (Delete k) st n = (Ok true, EState (delete k (es_map st)) (es_rev st + 1), n).
Proof.
  intros Hmax Hk. unfold Delete. rewrite run_bindM, run_raw_txn.
  - unfold commit. cbn [t_If t_Then t_Else forallb apply_ops apply_op]. rewrite Hk.
    rewrite bool_decide_eq_true_2 by by eexists. done.
  - apply accepts_txn; [done|simpl; lia|by apply (branch_valid_deletes [k]); vm_compute; lia|apply branch_valid_nil].
Qed.
End Sequential.

Create Rewrite HintDb run.
#[export] Hint Rewrite @run_bindM @run_mret @run_fail @run_now @run_new_uuid
  @run_raw_get @run_raw_range @run_Get @run_Range using (typeclasses eauto) : run.
