(* ===== verification/Rules.v ===== *)
(** * Proof rules for store programs

    The [wp] of each primitive under the laws of etcd, and the facts that
    survive interference.  A read is followed by a world that differs at most by
    interference and history ([settled]); a transaction either loses its compare
    and changes nothing, or takes the step its then branch describes. *)

From S2P Require Import Prelude Models Etcd Prog Keys Client.
Local Open Scope Z_scope.

(** Any step of any program: an etcd step that the history records, or a draw of
    a uuid. *)
Definition any_env (w w' : world) : Prop :=
  estep (w_st w) (w_st w') ∧ w_issued w ⊆ w_issued w' ∧
  ∀ st, st ∈ states w' ↔ st = w_st w' ∨ st ∈ states w.

Lemma any_env_same w w' : same w w' → any_env w w'.
Proof.
  intros (Hs & Hi & Hh). split_and!; [by rewrite Hs|by rewrite Hi|].
  unfold states. rewrite Hs. destruct Hh as [-> | ->]; set_solver.
Qed.

Lemma any_env_issue u w : any_env w (issue u w).
Proof. split_and!; [done|simpl; set_solver|]. unfold states. simpl. set_solver. Qed.

Class EtcdProtocol (pr : protocol) : Prop := {
  ep_laws :: ProtocolLaws pr;
  ep_wf : ∀ w, pr_inv pr w → estate_wf (w_st w);
  ep_env : ∀ w w', pr_rely pr w w' → any_env w w'
}.

#[export] Hint Extern 0 (EtcdProtocol _) => apply _ : core.

Section Rules.
Context `{Etcd, !EtcdLaws, !Libs} (pr : protocol) {Hep : EtcdProtocol pr}.

(** A world the program may find itself in when its read returns. *)
Definition settled (O : gset resource) (w w' : world) : Prop :=
  ∃ w1, reaches pr O w w1 ∧ same w1 w'.

Lemma reaches_settled O w w1 : reaches pr O w w1 → settled O w w1.
Proof. intros Hr. exists w1. split; [done|apply same_refl]. Qed.

Lemma settled_inv O w w' : settled O w w' → pr_inv pr w'.
Proof.
  intros (w1 & (_ & Hi & _) & Hs). eapply pr_inv_guar; [done|]. by apply pr_stutter.
Qed.

Lemma settled_unused O w w' k : settled O w w' → k ∈ O → unused w' k.
Proof. intros (w1 & (_ & _ & Hu) & Hs) Hk. eapply same_unused; [done|auto]. Qed.

Lemma settled_refl O w w' : settled O w w' → settled O w' w'.
Proof.
  intros Hw. apply reaches_settled. split_and!; [done|by eapply settled_inv|].
  intros k Hk. by eapply settled_unused.
Qed.

(** *** Facts that survive interference *)

Lemma settled_stable (P : world → Prop) O w w' :
  (∀ w w', pr_inv pr w → pr_rely pr w w' → P w → P w') → (∀ w w', pr_inv pr w → same w w' → P w → P w') →
  settled O w w' → pr_inv pr w → P w → P w'.
Proof.
  intros HP Hs (w1 & (Hr & Hi1 & _) & Hsame) Hi Hw. apply (Hs w1); [done|done|]. clear Hsame Hi1 w'.
  induction Hr as [|w w1 w2 [Hrely _] _ IH]; [done|]. apply IH; [by eapply pr_inv_rely|by eapply HP].
Qed.

(** A fact that every step keeps holds at the end of a program. *)
Lemma wp_stable (P : world → Prop) {R} (p : prog R) O Q w :
  (∀ w w', pr_inv pr w → pr_rely pr w w' → P w → P w') →
  (∀ w w', pr_inv pr w → pr_guar pr w w' → P w → P w') →
  pr_inv pr w → P w → wp pr p O Q w → wp pr p O (λ r O w, Q r O w ∧ pr_inv pr w ∧ P w) w.
Proof.
  intros HPr HPg.
  assert (∀ O w w1, pr_inv pr w → P w → reaches pr O w w1 → pr_inv pr w1 ∧ P w1) as Hreach.
  { intros O0 w0 w1 Hi HP (Hr & Hi1 & _). split; [done|]. clear Hi1.
    induction Hr as [|a b c [Hrely _] _ IH]; [done|]. apply IH; [by eapply pr_inv_rely|by eapply HPr]. }
  revert O w. induction p as [r|rq k IH|k IH|k IH]; intros O w Hi HP; simpl; [done|..].
  - intros Hwp w1 Hw1. destruct (Hreach O w w1 Hi HP Hw1) as [Hi1 HP1].
    destruct (Hwp w1 Hw1) as [Hn Hs]. split; [by apply IH|]. intros st r Hexec.
    destruct (Hs st r Hexec) as [(O1 & S1 & W1) (O2 & S2 & W2)].
    pose proof S1 as (Hg & _). assert (pr_inv pr (advance st w1)) by (by apply (pr_inv_guar w1)).
    assert (P (advance st w1)) by (by apply (HPg w1)). split; [exists O1|exists O2]; (split; [done|]); by apply IH.
  - intros Hwp w1 t Hw1. destruct (Hreach O w w1 Hi HP Hw1) as [Hi1 HP1]. by apply IH, Hwp.
  - intros Hwp w1 u Hw1 Hu. destruct (Hreach O w w1 Hi HP Hw1) as [Hi1 HP1].
    destruct (Hwp w1 u Hw1 Hu) as (O' & S & W). pose proof S as (Hg & _). exists O'. split; [done|].
    apply IH; [by apply (pr_inv_guar w1)|by apply (HPg w1)|done].
Qed.

Lemma seen_settled O w w' k e : settled O w w' → seen k e (w_st w) → seen k e (w_st w').
Proof.
  intros (w1 & (Hr & _) & -> & _) Hseen. clear w'.
  induction Hr as [|w w1 w2 [Hrely _] _ IH]; [done|]. apply IH.
  eapply seen_estep; [by apply (ep_env _ _ Hrely)|done].
Qed.

Lemma issued_settled O w w' u : settled O w w' → u ∈ w_issued w → u ∈ w_issued w'.
Proof.
  intros (w1 & (Hr & _) & _ & -> & _) Hu. clear w'.
  induction Hr as [|w w1 w2 [Hrely _] _ IH]; [done|]. apply IH.
  by apply (ep_env _ _ Hrely).
Qed.

(** *** Steps *)

Lemma same_advance w : same w (advance (w_st w) w).
Proof. split_and!; simpl; auto. Qed.

Lemma own_step_same O w w' : (∀ k, k ∈ O → unused w k) → same w w' → own_step pr O O w w'.
Proof.
  intros Hu Hs. split_and!.
  - by apply pr_stutter.
  - intros k _ _ ?. by eapply same_unused.
  - intros k Hk. split; [eapply same_unused; eauto|by left].
Qed.

Lemma wp_call_read (rq : request) O Q w (r : world → reply rq) :
  (∀ w1, etcd_exec (w_st w1) rq = Some (w_st w1, r w1)) →
  (∀ w1 w2, w_st w1 = w_st w2 → r w1 = r w2) →
  (∀ w2, settled O w w2 → Q (Err ErrEtcd) O w2 ∧ Q (Ok (r w2)) O w2) →
  wp pr (call rq) O Q w.
Proof.
  intros Hexec Hr HQ. simpl. intros w1 Hw1. split; [by apply HQ, reaches_settled|].
  intros st rep. rewrite Hexec. intros [= <- <-].
  assert (settled O w (advance (w_st w1) w1)) as Hset by (exists w1; split; [done|apply same_advance]).
  destruct Hw1 as (_ & _ & Hu).
  split; exists O; (split; [by apply own_step_same, same_advance|]); destruct (HQ _ Hset) as [HE HO].
  - by rewrite (Hr w1 (advance (w_st w1) w1)).
  - done.
Qed.

Lemma wp_raw_get k O Q w :
  (∀ w2, settled O w w2 → Q (Err ErrEtcd) O w2 ∧ Q (Ok (w_map w2 !! k)) O w2) →
  wp pr (raw_get k) O Q w.
Proof.
  intros HQ. apply (wp_call_read (RqGet k) O Q w (λ w, w_map w !! k)); [..|done].
  - intros w1. by rewrite etcd_get.
  - intros w1 w2. unfold w_map. by intros ->.
Qed.

(** A read row is known until the key is written again. *)
Lemma wp_raw_get_seen k O Q w :
  (∀ w2, settled O w w2 → Q (Err ErrEtcd) O w2) →
  (∀ w2, settled O w w2 → w_map w2 !! k = None → Q (Ok None) O w2) →
  (∀ w2 e, settled O w w2 → w_map w2 !! k = Some e → seen k e (w_st w2) → Q (Ok (Some e)) O w2) →
  wp pr (raw_get k) O Q w.
Proof.
  intros HE HN HS. apply wp_raw_get. intros w2 Hw2. split; [by apply HE|].
  destruct (w_map w2 !! k) as [e|] eqn:Hk; [|by apply HN].
  apply HS; [done|done|]. apply seen_lookup; [|done]. eapply ep_wf, settled_inv, Hw2.
Qed.

Lemma wp_GetJSON {A} `{Codec A} k O Q w :
  (∀ w2 e, settled O w w2 → Q (Err e) O w2) →
  (∀ w2, settled O w w2 → w_map w2 !! k = None → Q (Ok None) O w2) →
  (∀ w2 e a, settled O w w2 → w_map w2 !! k = Some e → e_val e = encode_doc a →
     Q (Ok (Some a)) O w2) →
  wp pr (GetJSON (A := A) k) O Q w.
Proof.
  intros HE HN HS. apply wp_bindM, wp_raw_get. intros w2 Hw2. split; [by apply HE|].
  destruct (w_map w2 !! k) as [e|] eqn:Hk; [|by apply HN].
  destruct (decode_doc (e_val e)) as [a|] eqn:Ed; [|by apply HE].
  eapply HS; [done|done|]. by apply decode_doc_inv.
Qed.

Lemma wp_raw_range p O Q w :
  (∀ w2, settled O w w2 → Q (Err ErrEtcd) O w2 ∧ Q (Ok (scan p (w_map w2))) O w2) →
  wp pr (raw_range p) O Q w.
Proof.
  intros HQ. apply (wp_call_read (RqRange p) O Q w (λ w, scan p (w_map w))); [..|done].
  - intros w1. by rewrite etcd_range.
  - intros w1 w2. unfold w_map. by intros ->.
Qed.

Lemma wp_now O Q w : (∀ w2 t, settled O w w2 → Q (Ok t) O w2) → wp pr now O Q w.
Proof. intros HQ w1 t Hw1. by apply HQ, reaches_settled. Qed.

Lemma wp_ret {A} (r : result err A) O (Q : result err A → gset resource → world → Prop) w :
  Q r O w → wp pr (Ret r) O Q w.
Proof. done. Qed.

Lemma wp_mret {A} (a : A) O (Q : result err A → gset resource → world → Prop) w :
  Q (Ok a) O w → wp pr (mret a : M A) O Q w.
Proof. done. Qed.

Lemma wp_fail {A} e O (Q : result err A → gset resource → world → Prop) w :
  Q (Err e) O w → wp pr (fail e : M A) O Q w.
Proof. done. Qed.

(** *** Transactions *)

(** The state after a then branch. *)
Definition applied (w : world) (ops : list op) : world :=
  let '(m, rs) := apply_ops (w_rev w + 1) ops (w_map w) in
  advance (EState m (if existsb changes rs then w_rev w + 1 else w_rev w)) w.

Lemma applied_map w ops : w_map (applied w ops) = (apply_ops (w_rev w + 1) ops (w_map w)).1.
Proof. unfold applied. by destruct (apply_ops _ _ _). Qed.

Lemma applied_issued w ops : w_issued (applied w ops) = w_issued w.
Proof. unfold applied. by destruct (apply_ops _ _ _). Qed.

Lemma applied_estep w ops : w_rev w < max_i64 → estep (w_st w) (w_st (applied w ops)).
Proof.
  intros Hmax. pose proof (commit_estep (w_st w) (Txn [] ops []) Hmax) as Hc. unfold commit in Hc. simpl in Hc.
  unfold applied, w_rev, w_map. by destruct (apply_ops _ _ _).
Qed.

Lemma commit_else conds thens st :
  forallb (cmp_holds (es_map st)) conds = false →
  commit st (Txn conds thens []) = (st, TxnReply false (es_rev st) []).
Proof. intros Hc. unfold commit. simpl. rewrite Hc. simpl. by destruct st. Qed.

Lemma accepts_then st conds thens elses :
  accepts st (Txn conds thens elses) = true → branch_valid thens = true ∧ es_rev st < max_i64.
Proof.
  unfold accepts, txn_valid. simpl. intros [[[_ Hb]%andb_true_iff _]%andb_true_iff Hr]%andb_true_iff.
  split; [done|]. by apply Z.ltb_lt.
Qed.

(** A transaction without else branch. *)
Lemma wp_raw_txn conds thens O Q w :
  (∀ w2, settled O w w2 → Q (Err ErrEtcd) O w2) →
  (∀ w2, settled O w w2 → forallb (cmp_holds (w_map w2)) conds = false →
     Q (Ok (TxnReply false (w_rev w2) [])) O w2) →
  (∀ w1, reaches pr O w w1 → forallb (cmp_holds (w_map w1)) conds = true →
     branch_valid thens = true → w_rev w1 < max_i64 →
     ∃ O', own_step pr O O' w1 (applied w1 thens) ∧
       Q (Err ErrEtcd) O' (applied w1 thens) ∧
       ∀ rev rs, Q (Ok (TxnReply true rev rs)) O' (applied w1 thens)) →
  wp pr (raw_txn conds thens []) O Q w.
Proof.
  intros HE Hlost Hwin. simpl. intros w1 Hw1. split; [by apply HE, reaches_settled|].
  intros st r Hexec.
  destruct (accepts (w_st w1) (Txn conds thens [])) eqn:Hv.
  2: { by rewrite etcd_txn_rejected in Hexec. }
  rewrite etcd_txn in Hexec by done. injection Hexec as Hexec.
  destruct (forallb (cmp_holds (w_map w1)) conds) eqn:Hc.
  - apply accepts_then in Hv as [Hb Hrev].
    destruct (Hwin w1 Hw1 Hc Hb Hrev) as (O' & Hst & HQE & HQ).
    unfold commit in Hexec. simpl in Hexec. unfold w_map in Hc. rewrite Hc in Hexec.
    unfold applied, w_rev, w_map in *. destruct (apply_ops _ _ _) as [m rs]. simplify_eq. eauto 10.
  - unfold w_map in Hc. rewrite commit_else in Hexec by done. simplify_eq.
    assert (settled O w (advance (w_st w1) w1)) as Hset by (exists w1; split; [done|apply same_advance]).
    destruct Hw1 as (_ & _ & Hu).
    split; exists O; (split; [by apply own_step_same, same_advance|]); [exact (Hlost _ Hset Hc)|by apply HE].
Qed.

(** A transaction whose else branch only reads one key. *)
Lemma wp_raw_txn_get conds thens k O Q w :
  (∀ w2, settled O w w2 → Q (Err ErrEtcd) O w2) →
  (∀ w2, settled O w w2 → forallb (cmp_holds (w_map w2)) conds = false →
     Q (Ok (TxnReply false (w_rev w2) [RGet (w_map w2 !! k)])) O w2) →
  (∀ w1, reaches pr O w w1 → forallb (cmp_holds (w_map w1)) conds = true →
     branch_valid thens = true → w_rev w1 < max_i64 →
     ∃ O', own_step pr O O' w1 (applied w1 thens) ∧
       Q (Err ErrEtcd) O' (applied w1 thens) ∧
       ∀ rs, Q (Ok (TxnReply true (w_rev (applied w1 thens)) rs)) O' (applied w1 thens)) →
  wp pr (raw_txn conds thens [OpGet k]) O Q w.
Proof.
  intros HE Hlost Hwin. simpl. intros w1 Hw1. split; [by apply HE, reaches_settled|].
  intros st r Hexec.
  destruct (accepts (w_st w1) (Txn conds thens [OpGet k])) eqn:Hv.
  2: { by rewrite etcd_txn_rejected in Hexec. }
  rewrite etcd_txn in Hexec by done. injection Hexec as Hexec.
  unfold commit in Hexec. simpl in Hexec.
  destruct (forallb (cmp_holds (w_map w1)) conds) eqn:Hc.
  - apply accepts_then in Hv as [Hb Hrev].
    destruct (Hwin w1 Hw1 Hc Hb Hrev) as (O' & Hst & HQE & HQ).
    unfold w_map in Hc. rewrite Hc in Hexec.
    unfold applied, w_rev, w_map in *. destruct (apply_ops _ _ _) as [m rs]. simplify_eq. eauto 10.
  - pose proof Hc as Hc'. unfold w_map in Hc'. rewrite Hc' in Hexec. simpl in Hexec. simplify_eq.
    assert (EState (es_map (w_st w1)) (es_rev (w_st w1)) = w_st w1) as -> by (by destruct (w_st w1)).
    assert (settled O w (advance (w_st w1) w1)) as Hset by (exists w1; split; [done|apply same_advance]).
    destruct Hw1 as (_ & _ & Hu).
    split; exists O; (split; [by apply own_step_same, same_advance|]); [exact (Hlost _ Hset Hc)|by apply HE].
Qed.

(** A compare of a revision read earlier holds only while the row is there. *)
Lemma cas_lookup O w w1 k e :
  reaches pr O w w1 → seen k e (w_st w) → cmp_holds (w_map w1) (CmpMod k (e_mod e)) = true →
  w_map w1 !! k = Some e.
Proof. intros Hw1 Hseen Hc. apply seen_cmp; [|done]. by eapply seen_settled; [apply reaches_settled|]. Qed.

(** Marshalling either fails or returns the encoding. *)
Lemma wp_Marshal {A} `{Codec A} (v : A) O Q w :
  Q (Err ErrValueTooLarge) O w → Q (Ok (encode_doc v)) O w → wp pr (Marshal v) O Q w.
Proof. intros HE HO. unfold Marshal, capValue. by case_match. Qed.

(** A loop, with an invariant over what remains. *)
Lemma wp_for_each_rest {A S} (l : list A) (s : S) (body : A → S → M S) O (I : list A → S → world → Prop) Q w :
  I l s w →
  (∀ x l s w, I (x :: l) s w → wp pr (body x s) O
     (λ r O' w', O' = O ∧ match r with Ok s' => I l s' w' | Err e => Q (Err e) O w' end) w) →
  (∀ s w, I [] s w → Q (Ok s) O w) →
  wp pr (for_each l s body) O Q w.
Proof.
  intros HI Hb HQ. revert s w HI. induction l as [|x l IH]; intros s w HI; [by apply HQ|].
  apply wp_bindM. eapply wp_mono; [|by apply Hb].
  intros [s'|e] O' w' [-> Hr]; [|done]. by apply IH.
Qed.

Lemma wp_for_each {A S} (l : list A) (s : S) (body : A → S → M S) O (I : S → world → Prop) Q w :
  I s w →
  (∀ x s w, x ∈ l → I s w → wp pr (body x s) O
     (λ r O' w', O' = O ∧ match r with Ok s' => I s' w' | Err e => Q (Err e) O w' end) w) →
  (∀ s w, I s w → Q (Ok s) O w) →
  wp pr (for_each l s body) O Q w.
Proof.
  intros HI Hb HQ. apply (wp_for_each_rest l s body O (λ l' s w, l' ⊆ l ∧ I s w)); [done| |by intros ?? [_ ?]; apply HQ].
  intros x l' s' w' [Hsub HI']. eapply wp_mono; [|apply Hb; [apply Hsub; by left|done]].
  intros [s''|e] O' w'' [-> Hr]; [|done]. split_and!; [done| |done]. intros y Hy. apply Hsub. by right.
Qed.
End Rules.

(** ** An arbitrary environment

    The environment may take any etcd step and draw any uuid; the program's own
    steps leave etcd as it is or satisfy [G]. *)
Definition open_protocol (G : estate → estate → Prop) : protocol := {|
  pr_inv w := estate_wf (w_st w);
  pr_rely := any_env;
  pr_guar w w' := any_env w w' ∧ (w_st w' = w_st w ∨ G (w_st w) (w_st w'));
  pr_ownable _ _ := False
|}.

#[export] Instance open_protocol_laws G : EtcdProtocol (open_protocol G).
Proof.
  split; [split|..]; simpl.
  - intros w w' Hs. split; [by apply any_env_same|]. left. by destruct Hs.
  - intros w w' Hi [He _]. by eapply estep_wf.
  - intros w w' Hi [[He _] _]. by eapply estep_wf.
  - done.
  - done.
  - done.
Qed.

(** Every own step of the program, whatever the environment does, leaves etcd
    as it is or satisfies [G]. *)
Definition steps_within `{Etcd} (G : estate → estate → Prop) {R} (p : prog R) : Prop :=
  ∀ w evs w' p', estate_wf (w_st w) → open_run any_env w p evs w' p' →
    Forall (λ s, w_st s.2 = w_st s.1 ∨ G (w_st s.1) (w_st s.2)) evs.

Section OpenRules.
Context `{Etcd, !EtcdLaws}.

Lemma steps_within_wp G {R} (p : prog R) :
  (∀ w, wp (open_protocol G) p ∅ (λ _ _ _, True) w) → steps_within G p.
Proof.
  intros Hwp w evs w' p' Hi Hrun.
  destruct (open_guar (open_protocol G) p (λ _ _, True) w evs w' p') as [Hf _];
    [by intros ?? []|done|done|apply Hwp|done|].
  eapply Forall_impl; [exact Hf|]. by intros s [_ Hs].
Qed.

Lemma own_step_open G w w' :
  any_env w w' → G (w_st w) (w_st w') → own_step (open_protocol G) ∅ ∅ w w'.
Proof. intros Ha HG. split_and!; [by split; [|right]|by intros ?|set_solver]. Qed.

(** What holds in an arbitrary environment holds in a protocol that allows the
    program's steps. *)
Lemma wp_open_lift (pr : protocol) {Hep : EtcdProtocol pr} G {R} (p : prog R) Q w :
  (∀ w w', pr_inv pr w → any_env w w' → G (w_st w) (w_st w') → own_step pr ∅ ∅ w w') →
  (∀ w u, pr_inv pr w → own_step pr ∅ ∅ w (issue u w)) →
  wp (open_protocol G) p ∅ Q w → wp pr p ∅ Q w.
Proof.
  intros HG Hu.
  assert (∀ w w1, reaches pr ∅ w w1 → reaches (open_protocol G) ∅ w w1) as Hreach.
  { intros w0 w1 (Hr & Hi & _). split_and!; [|by eapply ep_wf|set_solver].
    eapply rtc_subrel; [|exact Hr]. intros a b [Hab _]. split; [by apply ep_env|set_solver]. }
  assert (∀ O' w1 st, pr_inv pr w1 → own_step (open_protocol G) ∅ O' w1 (advance st w1) →
    O' = ∅ ∧ own_step pr ∅ ∅ w1 (advance st w1)) as Hstep.
  { intros O' w1 st Hi ((Henv & Hg) & _ & Hgain). split.
    - apply elem_of_equiv_empty_L. intros k Hk. destruct (Hgain k Hk) as [_ [?|[[] _]]]. set_solver.
    - destruct Hg as [Heq|Hg]; [|by apply HG]. simpl in Heq. subst st.
      apply own_step_same; [done|set_solver|apply same_advance]. }
  revert w. induction p as [r|rq k IH|k IH|k IH]; intros w; simpl; [done|..].
  - intros Hwp w1 Hw1. destruct (Hwp w1 (Hreach _ _ Hw1)) as [Hn Hs]. split; [by apply IH|].
    intros st r Hexec. destruct (Hs st r Hexec) as [(O1 & H1 & W1) (O2 & H2 & W2)].
    destruct Hw1 as (_ & Hi & _).
    apply Hstep in H1 as [-> H1]; [|done]. apply Hstep in H2 as [-> H2]; [|done]. eauto 10.
  - intros Hwp w1 t Hw1. by apply IH, Hwp, Hreach.
  - intros Hwp w1 u Hw1 Hu1. destruct (Hwp w1 u (Hreach _ _ Hw1) Hu1) as (O' & (_ & _ & Hgain) & W).
    assert (O' = ∅) as ->.
    { apply elem_of_equiv_empty_L. intros k0 Hk. destruct (Hgain k0 Hk) as [_ [?|[[] _]]]. set_solver. }
    exists ∅. split; [|by apply IH]. apply Hu. by destruct Hw1 as (_ & ? & _).
Qed.

Lemma wp_new_uuid_open G Q w :
  (∀ w1 u, settled (open_protocol G) ∅ w w1 → u ∉ w_issued w1 → Q (Ok u) ∅ (issue u w1)) →
  wp (open_protocol G) new_uuid ∅ Q w.
Proof.
  intros HQ w1 u Hw1 Hu. exists ∅. split; [|by apply HQ; [apply reaches_settled|]].
  split_and!; [|by intros ?|set_solver]. split; [apply any_env_issue|by left].
Qed.

Lemma any_env_applied w ops : w_rev w < max_i64 → any_env w (applied w ops).
Proof.
  intros Hmax. split_and!; [by apply applied_estep|by rewrite applied_issued|].
  unfold states, applied. destruct (apply_ops _ _ _). simpl. set_solver.
Qed.
End OpenRules.

(** ** Writes of one row *)

(** The step replaces the row at [k] by one related to it, and nothing else. *)
Definition row_write {A} `{Codec A} (k : string) (P : A → A → Prop) (st st' : estate) : Prop :=
  (∀ k', k' ≠ k → es_map st' !! k' = es_map st !! k') ∧
  ∃ e e' a a', es_map st !! k = Some e ∧ e_val e = encode_doc a ∧
    es_map st' !! k = Some e' ∧ e_val e' = encode_doc a' ∧ P a a'.

Lemma applied_put w k v :
  w_map (applied w [OpPut k v]) =
    <[k := Entry v (from_option e_create (w_rev w + 1) (w_map w !! k)) (w_rev w + 1)]> (w_map w).
Proof. by rewrite applied_map. Qed.

Section RowRules.
Context `{Etcd, !EtcdLaws, !Libs}.

(** A compare-and-set of a row read earlier, in an arbitrary environment. *)
Lemma wp_cas_row {A} `{Codec A} (G : estate → estate → Prop) (P : A → A → Prop) k e a a' Q w :
  (∀ st st', row_write k P st st' → G st st') →
  seen k e (w_st w) → e_val e = encode_doc a → P a a' → (∀ r w', Q r ∅ w') →
  wp (open_protocol G) (raw_txn [CmpMod k (e_mod e)] [OpPut k (encode_doc a')] []) ∅ Q w.
Proof.
  intros HG Hseen Ha HP HQ.
  apply (wp_raw_txn (open_protocol G)); [by intros; apply HQ..|]. intros w1 Hw1 Hc _ Hmax.
  exists ∅. split; [|by split; intros; apply HQ]. apply own_step_open; [by apply any_env_applied|].
  apply HG. apply andb_true_iff in Hc as [Hc _].
  assert (w_map w1 !! k = Some e) as Hk by (by eapply (cas_lookup (open_protocol G))).
  split.
  - intros k' Hk'. fold (w_map (applied w1 [OpPut k (encode_doc a')])).
    rewrite applied_put. by rewrite lookup_insert_ne.
  - fold (w_map (applied w1 [OpPut k (encode_doc a')])). fold (w_map w1). rewrite applied_put.
    eexists e, _, a, a'. split_and!; [done|done|by rewrite lookup_insert_eq|done|done].
Qed.
End RowRules.

(** ** An environment that keeps an invariant of the rows

    As [open_protocol], but every program preserves [I]. *)
Definition inv_protocol (I : estate → Prop) (G : estate → estate → Prop) : protocol := {|
  pr_inv w := estate_wf (w_st w) ∧ I (w_st w);
  pr_rely w w' := any_env w w' ∧ (I (w_st w) → I (w_st w'));
  pr_guar w w' := any_env w w' ∧ (I (w_st w) → I (w_st w')) ∧ (w_st w' = w_st w ∨ G (w_st w) (w_st w'));
  pr_ownable _ _ := False
|}.

#[export] Instance inv_protocol_laws I G : EtcdProtocol (inv_protocol I G).
Proof.
  split; [split|..]; simpl.
  - intros w w' Hs. pose proof Hs as (-> & _). split_and!; [by apply any_env_same|done|by left].
  - intros w w' [Hwf HI] [[He _] Hk]. split; [by eapply estep_wf|auto].
  - intros w w' [Hwf HI] [[He _] [Hk _]]. split; [by eapply estep_wf|auto].
  - done.
  - by intros w [? _].
  - by intros w w' [? _].
Qed.

Definition steps_within_inv `{Etcd} (I : estate → Prop) (G : estate → estate → Prop) {R} (p : prog R)
    : Prop :=
  ∀ w evs w' p', estate_wf (w_st w) → I (w_st w) →
    open_run (λ w w', any_env w w' ∧ (I (w_st w) → I (w_st w'))) w p evs w' p' →
    Forall (λ s, w_st s.2 = w_st s.1 ∨ (I (w_st s.2) ∧ G (w_st s.1) (w_st s.2))) evs.

Lemma steps_within_inv_wp `{Etcd, !EtcdLaws} I G {R} (p : prog R) :
  (∀ w, estate_wf (w_st w) → I (w_st w) →
     wp (inv_protocol I (λ st st', I st' ∧ G st st')) p ∅ (λ _ _ _, True) w) →
  steps_within_inv I G p.
Proof.
  intros Hwp w evs w' p' Hi HI Hrun.
  destruct (open_guar (inv_protocol I (λ st st', I st' ∧ G st st')) p (λ _ _, True) w evs w' p') as [Hf _];
    [by intros ?? []|done|done|by apply Hwp|done|].
  eapply Forall_impl; [exact Hf|]. by intros s (_ & _ & Hs).
Qed.

Lemma own_step_inv `{Etcd} I G w w' :
  any_env w w' → I (w_st w') → G (w_st w) (w_st w') →
  own_step (inv_protocol I (λ st st', I st' ∧ G st st')) ∅ ∅ w w'.
Proof. intros Ha HI HG. split_and!; [split_and!; [done|done|by right]|by intros ?|set_solver]. Qed.

(** The program ends with the invariant, owns nothing, and only etcd steps have
    happened. *)
Lemma wp_inv_keep `{Etcd} I G {R} (p : prog R) Q w :
  pr_inv (inv_protocol I G) w → wp (inv_protocol I G) p ∅ Q w →
  wp (inv_protocol I G) p ∅
    (λ r O w', O = ∅ ∧ pr_inv (inv_protocol I G) w' ∧ rtc any_env w w' ∧ Q r ∅ w') w.
Proof.
  assert (∀ O' w1 w2, pr_inv (inv_protocol I G) w1 → own_step (inv_protocol I G) ∅ O' w1 w2 →
    O' = ∅ ∧ pr_inv (inv_protocol I G) w2 ∧ any_env w1 w2) as Hstep.
  { intros O' w1 w2 Hi (Hg & _ & Hgain). split_and!.
    - apply elem_of_equiv_empty_L. intros k Hk. destruct (Hgain k Hk) as [_ [?|[[] _]]]. set_solver.
    - by eapply pr_inv_guar.
    - by destruct Hg. }
  assert (∀ w w1, reaches (inv_protocol I G) ∅ w w1 → rtc any_env w w1) as Hreach.
  { intros w0 w1 (Hr & _). eapply rtc_subrel; [|exact Hr]. by intros a b [[? _] _]. }
  intros Hi Hp. pose proof (rtc_refl any_env w) as H0. revert H0 Hi Hp. generalize w at 1 5 as w0.
  revert w. induction p as [r|rq k IH|k IH|k IH]; intros w w0 H0 Hi; simpl; [done|..].
  - intros Hwp w1 Hw1. destruct (Hwp w1 Hw1) as [Hn Hs]. pose proof Hw1 as (_ & Hi1 & _).
    apply Hreach in Hw1. assert (rtc any_env w0 w1) as H1 by (by etrans).
    split; [by apply IH|]. intros st r Hexec. destruct (Hs st r Hexec) as [(O1 & S1 & W1) (O2 & S2 & W2)].
    destruct (Hstep _ _ _ Hi1 S1) as (-> & Hi2 & Ha). destruct (Hstep _ _ _ Hi1 S2) as [-> _].
    assert (rtc any_env w0 (advance st w1)) by (by eapply rtc_r). split; exists ∅; auto.
  - intros Hwp w1 t Hw1. pose proof Hw1 as (_ & Hi1 & _). apply IH; [|done|by apply Hwp].
    etrans; [done|by apply Hreach].
  - intros Hwp w1 u Hw1 Hu. pose proof Hw1 as (_ & Hi1 & _).
    destruct (Hwp w1 u Hw1 Hu) as (O' & S & W). destruct (Hstep _ _ _ Hi1 S) as (-> & Hi2 & Ha).
    exists ∅. split; [done|]. apply IH; [|done|done]. eapply rtc_r; [|done]. etrans; [done|by apply Hreach].
Qed.

Lemma seen_rtc w w' k e : rtc any_env w w' → seen k e (w_st w) → seen k e (w_st w').
Proof. induction 1 as [|a b c [He _] _ IH]; [done|]. intros Hs. apply IH. by eapply seen_estep. Qed.

(** A stronger invariant that the program's steps preserve, and a weaker
    guarantee. *)
Lemma wp_inv_lift `{Etcd} (I I' : estate → Prop) G G' {R} (p : prog R) Q w :
  (∀ st, I' st → I st) → (∀ st st', I' st → I st' → G st st' → I' st' ∧ G' st st') →
  pr_inv (inv_protocol I' G') w → wp (inv_protocol I G) p ∅ Q w → wp (inv_protocol I' G') p ∅ Q w.
Proof.
  intros Hsub Hpres.
  assert (∀ w w1, pr_inv (inv_protocol I' G') w → reaches (inv_protocol I' G') ∅ w w1 →
    pr_inv (inv_protocol I' G') w1 ∧ reaches (inv_protocol I G) ∅ w w1) as Hreach.
  { intros w0 w1 Hi (Hr & Hi1 & _). split; [done|]. destruct Hi1 as [Hwf1 HI1].
    split_and!; [|by split; [|apply Hsub]|set_solver]. clear Hwf1 HI1.
    induction Hr as [|a b c [[Henv Hk] _] _ IH]; [done|]. destruct Hi as [Hwf HI].
    eapply rtc_l; [split; [split; [done|auto]|set_solver]|]. apply IH. split; [|auto].
    destruct Henv as (He & _). by eapply estep_wf. }
  assert (∀ O' w1 w2, pr_inv (inv_protocol I' G') w1 → own_step (inv_protocol I G) ∅ O' w1 w2 →
    O' = ∅ ∧ own_step (inv_protocol I' G') ∅ ∅ w1 w2 ∧ pr_inv (inv_protocol I' G') w2) as Hstep.
  { intros O' w1 w2 [Hwf HI] ((Henv & HI2 & Hg) & _ & Hgain).
    assert (O' = ∅) as ->.
    { apply elem_of_equiv_empty_L. intros k Hk. destruct (Hgain k Hk) as [_ [?|[[] _]]]. set_solver. }
    assert (I' (w_st w2) ∧ (w_st w2 = w_st w1 ∨ G' (w_st w1) (w_st w2))) as [HI' Hg'].
    { destruct Hg as [->|Hg]; [by auto|]. destruct (Hpres (w_st w1) (w_st w2)); auto. }
    split; [done|]. split.
    - split_and!; [split_and!; [done|done|done]|by intros ?|set_solver].
    - split; [|done]. destruct Henv as (He & _). by eapply estep_wf. }
  revert w. induction p as [r|rq k IH|k IH|k IH]; intros w Hi; simpl; [done|..].
  - intros Hwp w1 Hw1. destruct (Hreach w w1 Hi Hw1) as [Hi1 Hw1'].
    destruct (Hwp w1 Hw1') as [Hn Hs]. split; [by apply IH|].
    intros st r Hexec. destruct (Hs st r Hexec) as [(O1 & S1 & W1) (O2 & S2 & W2)].
    apply Hstep in S1 as (-> & S1 & Hi2); [|done]. apply Hstep in S2 as (-> & S2 & _); [|done]. eauto 10.
  - intros Hwp w1 t Hw1. destruct (Hreach w w1 Hi Hw1) as [Hi1 Hw1']. by apply IH, Hwp.
  - intros Hwp w1 u Hw1 Hu. destruct (Hreach w w1 Hi Hw1) as [Hi1 Hw1'].
    destruct (Hwp w1 u Hw1' Hu) as (O' & S & W). apply Hstep in S as (-> & S & Hi2); [|done]. eauto.
Qed.
