(* ===== verification/Footprint.v ===== *)
(** * Which kinds of keys a program writes

    Most operations of the store write a few kinds of keys and cannot disturb
    the others.  [writes fs p] says that every transaction [p] may issue,
    whatever the server answers, writes only keys of the kinds [fs]; [wp_frame]
    turns it into a proof for any protocol that does not constrain those keys. *)

From S2P Require Import Prelude Models Etcd Prog Keys Client Rules.
Local Open Scope Z_scope.

Definition key_in (fs : list family) (k : string) : Prop :=
  match key_family k with Some f => f ∈ fs | None => False end.

Definition op_in (fs : list family) (o : op) : Prop :=
  match o with OpPut k _ | OpDelete k => key_in fs k | OpGet _ => True end.

Lemma op_in_mono fs fs' l : fs ⊆ fs' → Forall (op_in fs) l → Forall (op_in fs') l.
Proof.
  intros Hsub Hl. eapply Forall_impl; [exact Hl|].
  intros [k v|k|k]; simpl; unfold key_in; [..|done]; by case_match; auto.
Qed.

(** A range only returns keys under its prefix. *)
Definition plausible (rq : request) : reply rq → Prop :=
  match rq return reply rq → Prop with
  | RqRange p => λ kvs, ∀ kv, kv ∈ kvs → String.prefix p kv.1 = true
  | _ => λ _, True
  end.

Fixpoint writes (fs : list family) {R} (p : prog R) : Prop :=
  match p with
  | Ret _ => True
  | Call rq k =>
    match rq with
    | RqTxn t => Forall (op_in fs) (t_Then t) ∧ Forall (op_in fs) (t_Else t)
    | _ => True
    end ∧
    writes fs (k None) ∧ ∀ r, plausible rq r → writes fs (k (Some r))
  | Now k => ∀ t, writes fs (k t)
  | NewUuid k => ∀ u, writes fs (k u)
  end.

(** Every result the program may return satisfies [Q]. *)
Fixpoint returns {R} (Q : R → Prop) (p : prog R) : Prop :=
  match p with
  | Ret r => Q r
  | Call rq k => returns Q (k None) ∧ ∀ r, plausible rq r → returns Q (k (Some r))
  | Now k => ∀ t, returns Q (k t)
  | NewUuid k => ∀ u, returns Q (k u)
  end.

Definition on_ok {A} (Q : A → Prop) (r : result err A) : Prop :=
  match r with Ok a => Q a | Err _ => True end.

(** ** Programs built from others *)

Lemma writes_bind fs {A B} (f : A → prog B) (p : prog A) :
  writes fs p → (∀ a, writes fs (f a)) → writes fs (prog_bind f p).
Proof.
  intros Hp Hf. induction p as [r|rq k IH|k IH|k IH]; simpl in *; [auto| |auto..].
  destruct Hp as (Ht & Hn & Hs). split_and!; [done|auto|]. intros r Hr. apply IH; auto.
Qed.

Lemma writes_bindM fs {A B} (f : A → M B) (m : M A) :
  writes fs m → (∀ a, writes fs (f a)) → writes fs (m ≫= f).
Proof. intros Hm Hf. apply writes_bind; [done|]. by intros []. Qed.

(** With what the first part returns. *)
Lemma writes_bindM_returns fs {A B} (Q : A → Prop) (f : A → M B) (m : M A) :
  writes fs m → returns (on_ok Q) m → (∀ a, Q a → writes fs (f a)) → writes fs (m ≫= f).
Proof.
  intros Hm HQ Hf. unfold mbind, M_bind.
  induction m as [[a|e]|rq k IH|k IH|k IH]; simpl in *; [auto|done| |auto..].
  destruct Hm as (Ht & Hn & Hs), HQ as [HQn HQs].
  split_and!; [done|auto|]. intros r Hr. apply IH; auto.
Qed.

Lemma returns_bindM {A B} (Q : B → Prop) (f : A → M B) (m : M A) :
  returns (on_ok (λ a, returns (on_ok Q) (f a))) m → returns (on_ok Q) (m ≫= f).
Proof.
  unfold mbind, M_bind. induction m as [[a|e]|rq k IH|k IH|k IH]; simpl; [done|done| |auto..].
  intros [Hn Hs]. split; auto.
Qed.

Lemma returns_mono {R} (Q Q' : R → Prop) (p : prog R) :
  (∀ r, Q r → Q' r) → returns Q p → returns Q' p.
Proof.
  intros HQ. induction p as [r|rq k IH|k IH|k IH]; simpl; [auto| |auto..].
  intros [Hn Hs]. split; auto.
Qed.

Lemma returns_True {R} (p : prog R) : returns (λ _, True) p.
Proof. induction p; simpl; auto. Qed.

Lemma returns_any {A} (Q : A → Prop) (m : M A) : (∀ a, Q a) → returns (on_ok Q) m.
Proof. intros HQ. eapply returns_mono; [|apply returns_True]. intros [] _; simpl; auto. Qed.

Lemma returns_for_each {A S} (Q : S → Prop) (l : list A) (s : S) (body : A → S → M S) :
  Q s → (∀ x s, x ∈ l → Q s → returns (on_ok Q) (body x s)) → returns (on_ok Q) (for_each l s body).
Proof.
  revert s. induction l as [|x l IH]; intros s Hs Hb; simpl; [done|].
  apply returns_bindM. eapply returns_mono; [|by apply Hb; [left|]].
  intros [s'|e]; simpl; [|done]. intros Hs'. apply IH; [done|]. intros. apply Hb; [by right|done].
Qed.

Lemma writes_mret fs {A} (a : A) : writes fs (mret a : M A).
Proof. done. Qed.
Lemma writes_fail fs {A} e : writes fs (fail e : M A).
Proof. done. Qed.
Lemma writes_now fs : writes fs now.
Proof. done. Qed.
Lemma writes_new_uuid fs : writes fs new_uuid.
Proof. done. Qed.
Lemma writes_attempt fs {A} (m : M A) : writes fs m → writes fs (attempt m).
Proof. intros Hm. by apply writes_bind. Qed.

Lemma writes_for_each fs {A S} (l : list A) (s : S) (body : A → S → M S) :
  (∀ x s, x ∈ l → writes fs (body x s)) → writes fs (for_each l s body).
Proof.
  revert s. induction l as [|x l IH]; intros s Hb; simpl; [done|].
  apply writes_bindM; [by apply Hb; left|]. intros s'. apply IH. intros. apply Hb. by right.
Qed.

Lemma writes_mono fs fs' {R} (p : prog R) : fs ⊆ fs' → writes fs p → writes fs' p.
Proof.
  intros Hsub. induction p as [r|rq k IH|k IH|k IH]; simpl in *; [done| |auto..].
  intros (Ht & Hn & Hs). split_and!; [|auto..].
  destruct rq; [done..|]. destruct Ht. split; by eapply op_in_mono.
Qed.

(** Alone, a program leaves the other keys as they were. *)
Lemma op_in_keys fs l k : Forall (op_in fs) l → (¬ key_in fs k) → (k ∉ put_keys l) ∧ (k ∉ delete_keys l).
Proof.
  intros Hl Hk. rewrite Forall_forall in Hl. unfold put_keys, delete_keys.
  split; intros (o & Ho & Ek)%list_elem_of_omap; specialize (Hl o Ho); destruct o; by simplify_eq.
Qed.

Lemma run_writes `{Etcd, !EtcdLaws} fs clock supply {R} (p : prog R) st n k :
  writes fs p → (¬ key_in fs k) →
  es_map (run_state clock supply p st n) !! k = es_map st !! k.
Proof.
  unfold run_state. revert st n. induction p as [r|rq f IH|f IH|f IH]; intros st n Hp Hk; simpl in *; [done| |auto..].
  destruct Hp as (Ht & Hn & Hs). destruct rq as [k'|p|t].
  - rewrite etcd_get. by apply IH; [apply Hs|].
  - rewrite etcd_range. apply IH; [|done]. apply Hs. intros [k' e] Hin. by apply elem_of_scan in Hin as [_ ?].
  - destruct (accepts st t) eqn:Ha; [|rewrite etcd_txn_rejected by done; by apply IH].
    rewrite etcd_txn by done. destruct (commit st t) as [st' r] eqn:Ec. rewrite IH by (try apply Hs; done).
    change st' with (st', r).1. rewrite <-Ec. destruct Ht as [Ht He].
    apply (op_in_keys _ _ k) in Ht as [??]; [|done]. apply (op_in_keys _ _ k) in He as [??]; [|done].
    by apply commit_lookup_ne.
Qed.

(** ** The client *)
Section Client.
Context `{Libs} (fs : list family).

Lemma writes_raw_get k : writes fs (raw_get k).
Proof. done. Qed.
Lemma writes_raw_range p : writes fs (raw_range p).
Proof. done. Qed.
Lemma writes_raw_txn conds thens elses :
  Forall (op_in fs) thens → Forall (op_in fs) elses → writes fs (raw_txn conds thens elses).
Proof. done. Qed.

Lemma writes_Get k : writes fs (Get k).
Proof. done. Qed.
Lemma writes_Range p : writes fs (Range p).
Proof. done. Qed.
Lemma writes_GetJSON {A} `{Codec A} k : writes fs (GetJSON (A := A) k).
Proof. apply writes_bindM; [done|]. intros []; [|done]. by case_match. Qed.
Lemma writes_Marshal {A} `{Codec A} (v : A) : writes fs (Marshal v).
Proof. unfold Marshal, capValue. by case_match. Qed.
Lemma writes_PutJSON {A} `{Codec A} k (v : A) : key_in fs k → writes fs (PutJSON k v).
Proof. intros Hk. unfold PutJSON, Put, capValue. case_match; [done|]. simpl. by repeat constructor. Qed.
Lemma writes_Delete k : key_in fs k → writes fs (Delete k).
Proof. intros Hk. simpl. by repeat constructor. Qed.

Lemma writes_commitInChunks ops : Forall (op_in fs) ops → writes fs (commitInChunks ops).
Proof.
  unfold commitInChunks. generalize (length ops) as n. intros n. revert ops.
  induction n as [|n IH]; intros ops Hops; [by destruct ops|]. destruct ops as [|o ops]; [done|].
  unfold commit_chunks; fold commit_chunks. apply writes_bindM.
  - apply writes_raw_txn; [by apply Forall_take|done].
  - intros _. apply IH. by apply Forall_drop.
Qed.

(** The range hands its continuation the keys under the prefix. *)
Lemma writes_Range_bind {B} p (f : list (string * doc) → M B) :
  (∀ items, (∀ kv, kv ∈ items → String.prefix p kv.1 = true) → writes fs (f items)) →
  writes fs (items ← Range p; f items).
Proof.
  intros Hf. simpl. split_and!; [done|done|]. intros kvs Hp. apply Hf.
  intros kv Hkv. apply list_elem_of_fmap in Hkv as ([k e] & -> & Hke). by apply (Hp (k, e)).
Qed.
End Client.

(** ** Automation *)

Ltac key_in_solve :=
  unfold key_in, key_family, nodeDeletingKey; autorewrite with keys; cbn [fmap option_fmap option_map fst];
  set_solver.

Create HintDb writes.
#[export] Hint Resolve writes_mret writes_fail writes_now writes_new_uuid writes_raw_get
  writes_raw_range writes_Get writes_Range writes_GetJSON writes_Marshal writes_attempt
  : writes.

(** Decomposes a program along its binds, matches and conditionals. *)
Ltac writes_solve :=
  repeat first
    [ solve [auto with writes nocore]
    | progress intros
    | match goal with
      | |- writes _ (PutJSON _ _) => apply writes_PutJSON; key_in_solve
      | |- writes _ (Delete _) => apply writes_Delete; key_in_solve
      | |- writes _ (raw_txn _ _ _) => apply writes_raw_txn
      | |- writes _ (commitInChunks _) => apply writes_commitInChunks
      | |- writes _ (for_each _ _ _) => apply writes_for_each
      | |- writes _ (attempt _) => apply writes_attempt
      | |- writes ?fs (mbind ?f (mret ?a)) => change (writes fs (f a)); cbn beta
      | |- writes _ (mbind _ (fail _)) => exact I
      | |- writes _ (mbind _ _) => apply writes_bindM
      | |- writes _ (prog_bind _ _) => apply writes_bind
      | |- writes _ (Ret _) => exact I
      | |- writes _ (match ?x with _ => _ end) => destruct x
      | |- Forall _ (_ ++ _) => apply Forall_app; split
      | |- Forall _ (_ :: _) => apply Forall_cons; split; [simpl; first [exact I|key_in_solve]|]
      | |- Forall _ [] => constructor
      | |- True => exact I
      end ].

(** ** Framing *)
Section Frame.
Context `{Etcd, !EtcdLaws, !Libs} (pr : protocol) {Hep : EtcdProtocol pr} (fs : list family).

(** A resource that no key of the kinds [fs] belongs to. *)
Definition apart (r : resource) : Prop :=
  match r with
  | OwnKey k => ¬ key_in fs k
  | OwnPrefix p => ∀ k, String.prefix p k = true → ¬ key_in fs k
  | OwnUuid _ => True
  end.

(** The protocol allows every etcd step that changes only keys of the kinds
    [fs], and owns none of them. *)
Class Frame : Prop := {
  frame_guar : ∀ w w', pr_inv pr w → any_env w w' →
    (∀ k, ¬ key_in fs k → w_map w' !! k = w_map w !! k) → pr_guar pr w w';
  frame_own : ∀ w r, pr_ownable pr w r → apart r
}.
Context {Hframe : Frame}.

Lemma apply_ops_outside rev ops m k :
  Forall (op_in fs) ops → ¬ key_in fs k → (apply_ops rev ops m).1 !! k = m !! k.
Proof.
  intros Hops Hk. apply apply_ops_lookup_ne.
  - intros Hp. apply list_elem_of_omap in Hp as (o & Ho & E). destruct o; simplify_eq.
    rewrite Forall_forall in Hops. by apply Hk, (Hops _ Ho).
  - intros Hp. apply list_elem_of_omap in Hp as (o & Ho & E). destruct o; simplify_eq.
    rewrite Forall_forall in Hops. by apply Hk, (Hops _ Ho).
Qed.

Lemma apart_unused w w' r :
  any_env w w' → (∀ k, ¬ key_in fs k → w_map w' !! k = w_map w !! k) → apart r →
  unused w r → unused w' r.
Proof.
  intros (_ & _ & Hst) Hk Ha Hu. destruct r as [k|p|u]; [..|done].
  - intros st [->|Hin]%Hst; [|by apply Hu]. fold (w_map w'). rewrite Hk by done. apply Hu. by left.
  - intros st k [->|Hin]%Hst Hp; [|by apply Hu]. fold (w_map w'). rewrite Hk by by apply Ha.
    apply Hu; [by left|done].
Qed.

(** A step that changes only keys outside the protocol. *)
Lemma own_step_frame O w w' :
  (∀ r, r ∈ O → apart r) → (∀ r, r ∈ O → unused w r) → pr_inv pr w → any_env w w' →
  (∀ k, ¬ key_in fs k → w_map w' !! k = w_map w !! k) → own_step pr O O w w'.
Proof.
  intros Ha Hu Hi Henv Hk. split_and!; [by apply frame_guar|..].
  - intros r Ho _. apply apart_unused; [done|done|by eapply frame_own].
  - intros r Hr. split; [|by left]. by eapply apart_unused; [..|apply Ha|apply Hu].
Qed.

Lemma commit_outside st t k :
  Forall (op_in fs) (t_Then t) → Forall (op_in fs) (t_Else t) → ¬ key_in fs k →
  es_map (commit st t).1 !! k = es_map st !! k.
Proof.
  intros Ht He Hk. unfold commit.
  assert (∀ ops, Forall (op_in fs) ops →
    (apply_ops (es_rev st + 1) ops (es_map st)).1 !! k = es_map st !! k) as Hops.
  { intros ops Hops. by apply apply_ops_outside. }
  destruct (forallb _ _); [specialize (Hops _ Ht)|specialize (Hops _ He)];
    by destruct (apply_ops _ _ _).
Qed.

(** The request of a program that writes only [fs]. *)
Lemma request_outside w rq st r :
  match rq with
  | RqTxn t => Forall (op_in fs) (t_Then t) ∧ Forall (op_in fs) (t_Else t)
  | _ => True
  end → etcd_exec (w_st w) rq = Some (st, r) →
  any_env w (advance st w) ∧ (∀ k, ¬ key_in fs k → w_map (advance st w) !! k = w_map w !! k) ∧ plausible rq r.
Proof.
  intros Ht Hexec. destruct rq as [k|p|t].
  - rewrite etcd_get in Hexec. simplify_eq. split_and!; [apply any_env_same, same_advance|done|done].
  - rewrite etcd_range in Hexec. simplify_eq. split_and!; [apply any_env_same, same_advance|done|].
    intros [k e] Hke. by apply elem_of_scan in Hke as [_ ?].
  - destruct (accepts (w_st w) t) eqn:Hac.
    2: { by rewrite etcd_txn_rejected in Hexec. }
    rewrite etcd_txn in Hexec by done. destruct Ht as [Ht He].
    assert (es_rev (w_st w) < max_i64) as Hmax.
    { apply andb_true_iff in Hac as [_ Hac]. by apply Z.ltb_lt. }
    pose proof (commit_estep (w_st w) t Hmax) as Hes. pose proof (commit_outside (w_st w) t) as Hout.
    destruct (commit (w_st w) t) as [st' r']. simplify_eq. simpl in *.
    split_and!; [|by auto|done]. split_and!; [done|done|]. unfold states. simpl. set_solver.
Qed.

(** With what the program owns and returns, and what its steps and the
    environment's keep. *)
Lemma wp_frame_keep (P : world → Prop) {R} (Q : R → Prop) (p : prog R) O w :
  (∀ w w', pr_inv pr w → pr_rely pr w w' → P w → P w') →
  (∀ w w', pr_inv pr w → any_env w w' → (∀ k, ¬ key_in fs k → w_map w' !! k = w_map w !! k) → P w → P w') →
  (∀ r, r ∈ O → apart r) → writes fs p → returns Q p → pr_inv pr w → P w →
  wp pr p O (λ r O' w', O' = O ∧ Q r ∧ pr_inv pr w' ∧ P w') w.
Proof.
  intros HPr HPs Ha.
  assert (∀ w w1, pr_inv pr w → P w → reaches pr O w w1 → pr_inv pr w1 ∧ P w1 ∧ ∀ r, r ∈ O → unused w1 r) as Hreach.
  { intros w0 w1 Hi HP (Hr & Hi1 & Hu). split_and!; [done| |done]. clear Hi1 Hu.
    induction Hr as [|a b c [Hrely _] _ IH]; [done|]. apply IH; [by eapply pr_inv_rely|by eapply HPr]. }
  assert (∀ w1 w2, pr_inv pr w1 → (∀ r, r ∈ O → unused w1 r) → P w1 → any_env w1 w2 →
    (∀ k, ¬ key_in fs k → w_map w2 !! k = w_map w1 !! k) →
    own_step pr O O w1 w2 ∧ pr_inv pr w2 ∧ P w2) as Hstep.
  { intros w1 w2 Hi1 Hu1 HP1 He Hk. assert (own_step pr O O w1 w2) as Hs by by apply own_step_frame.
    split_and!; [done| |by apply (HPs w1)]. apply (pr_inv_guar w1); [done|apply Hs]. }
  revert w. induction p as [r|rq k IH|k IH|k IH]; intros w Hw HQ Hi HP; simpl in *; [done|..].
  - destruct Hw as (Ht & Hn & Hs), HQ as [HQn HQs]. intros w1 Hw1.
    destruct (Hreach w w1 Hi HP Hw1) as (Hi1 & HP1 & Hu1). split; [by apply IH|].
    intros st r Hexec. destruct (request_outside w1 rq st r Ht Hexec) as (He & Hk & Hp).
    destruct (Hstep w1 (advance st w1) Hi1 Hu1 HP1 He Hk) as (Hown & Hi2 & HP2).
    split; exists O; (split; [done|]); apply IH; auto.
  - intros w1 t Hw1. destruct (Hreach w w1 Hi HP Hw1) as (Hi1 & HP1 & _). by apply IH.
  - intros w1 u Hw1 Hu. destruct (Hreach w w1 Hi HP Hw1) as (Hi1 & HP1 & Hu1).
    destruct (Hstep w1 (issue u w1) Hi1 Hu1 HP1 (any_env_issue u w1)) as (Hown & Hi2 & HP2); [done|].
    exists O. split; [done|]. by apply IH.
Qed.

Lemma wp_frame_own {R} (Q : R → Prop) (p : prog R) O w :
  (∀ r, r ∈ O → apart r) → writes fs p → returns Q p → wp pr p O (λ r O' _, O' = O ∧ Q r) w.
Proof.
  intros Ha. revert w. induction p as [r|rq k IH|k IH|k IH]; intros w Hw HQ; simpl in *; [done|..].
  - destruct Hw as (Ht & Hn & Hs), HQ as [HQn HQs]. intros w1 (Hr & Hi & Hu). split; [by apply IH|].
    intros st r Hexec. destruct (request_outside w1 rq st r Ht Hexec) as (He & Hk & Hp).
    assert (own_step pr O O w1 (advance st w1)) as Hown by by apply own_step_frame.
    split; exists O; (split; [done|]); apply IH; auto.
  - intros w1 t _. by apply IH.
  - intros w1 u (_ & Hi & Hu') Hu. exists O. split; [|by apply IH].
    apply own_step_frame; [done|done|done|apply any_env_issue|done].
Qed.

Lemma wp_frame_returns {R} (Q : R → Prop) (p : prog R) w :
  writes fs p → returns Q p → wp pr p ∅ (λ r O _, O = ∅ ∧ Q r) w.
Proof. apply wp_frame_own. set_solver. Qed.

Lemma wp_frame {R} (p : prog R) w : writes fs p → wp pr p ∅ (λ _ O _, O = ∅) w.
Proof.
  intros Hp. eapply wp_mono; [|by apply (wp_frame_returns (λ _, True)); [|apply returns_True]].
  by intros r O w' [-> _].
Qed.

Lemma wp_frame_bind_returns {A B} (P : A → Prop) (f : A → M B) (m : M A) Q w :
  writes fs m → returns (on_ok P) m → (∀ e w', Q (Err e) ∅ w') →
  (∀ a w', P a → wp pr (f a) ∅ Q w') → wp pr (m ≫= f) ∅ Q w.
Proof.
  intros Hm HP HE Hf. apply wp_bindM. eapply wp_mono; [|by apply wp_frame_returns].
  intros [a|e] O w' [-> Ha]; auto.
Qed.

Lemma wp_frame_bind {A B} (f : A → M B) (m : M A) Q w :
  writes fs m → (∀ e w', Q (Err e) ∅ w') → (∀ a w', wp pr (f a) ∅ Q w') → wp pr (m ≫= f) ∅ Q w.
Proof.
  intros Hm HE Hf. apply wp_bindM. eapply wp_mono; [|by apply wp_frame]. intros [a|e] O w' ->; auto.
Qed.
End Frame.

(** What was read before a framed program may still be relied on after it. *)
Lemma wp_frame_bind_seen `{Etcd, !EtcdLaws, !Libs} I G fs `{!Frame (inv_protocol I G) fs} {A B}
    (P : A → Prop) (f : A → M B) (m : M A) Q w :
  pr_inv (inv_protocol I G) w → writes fs m → returns (on_ok P) m → (∀ e w', Q (Err e) ∅ w') →
  (∀ a w', pr_inv (inv_protocol I G) w' → rtc any_env w w' → P a → wp (inv_protocol I G) (f a) ∅ Q w') →
  wp (inv_protocol I G) (m ≫= f) ∅ Q w.
Proof.
  intros Hi Hm HP HE Hf. apply wp_bindM.
  eapply wp_mono; [|by apply wp_inv_keep, (wp_frame_returns _ fs (on_ok P))].
  intros [a|e] O w' (-> & Hi' & Hr & _ & Ha); auto.
Qed.

(** The value of the last put of a key, when what follows writes other kinds of
    keys. *)
Lemma apply_ops_put fs rev l1 l2 k v m :
  Forall (op_in fs) l2 → ¬ key_in fs k →
  e_val <$> (apply_ops rev (l1 ++ OpPut k v :: l2) m).1 !! k = Some v.
Proof.
  intros Hl2 Hk. rewrite apply_ops_app, apply_ops_cons, (apply_ops_outside fs) by done.
  simpl. by rewrite lookup_insert_eq.
Qed.

Lemma apply_ops_delete fs rev l1 l2 k m :
  Forall (op_in fs) l2 → ¬ key_in fs k → (apply_ops rev (l1 ++ OpDelete k :: l2) m).1 !! k = None.
Proof.
  intros Hl2 Hk. rewrite apply_ops_app, apply_ops_cons, (apply_ops_outside fs) by done.
  simpl. by rewrite lookup_delete_eq.
Qed.
