(* ===== verification/Guards.v ===== *)
(** * Uniqueness guards and transactions of many operations

    A guard key holds the id of the row it belongs to.  The lemmas read off the
    effect of a valid transaction from the operations it has, wherever they are in
    it, and give the rule of a transaction both branches of which write. *)

From S2P Require Import Prelude Models Etcd Prog Keys Client Rules Footprint.
Local Open Scope Z_scope.

Section Guards.
Context `{Etcd, !EtcdLaws, !Libs, !LibsLaws}.

(** The guard key [k] is the row's. *)
Definition guards (st : estate) (k : string) (id : uuid) : Prop :=
  e_val <$> es_map st !! k = Some (DStr (uuid_string id)).

Lemma guards_inj st k id1 id2 : guards st k id1 → guards st k id2 → id1 = id2.
Proof.
  unfold guards. intros -> [= E]. apply (f_equal uuid_parse) in E. rewrite !uuid_parse_string in E. by simplify_eq.
Qed.

Lemma guards_present st k id : guards st k id → es_map st !! k ≠ None.
Proof. unfold guards. intros Hg E. by rewrite E in Hg. Qed.

Lemma applied_es_map w ops :
  es_map (w_st (applied w ops)) = (apply_ops (w_rev w + 1) ops (w_map w)).1.
Proof. exact (applied_map w ops). Qed.

(** The value of a put that nothing overwrites, and of a key that is left alone. *)
Lemma applied_put_val w fs l1 l2 k v :
  Forall (op_in fs) l2 → ¬ key_in fs k →
  e_val <$> es_map (w_st (applied w (l1 ++ OpPut k v :: l2))) !! k = Some v.
Proof. intros Hl Hk. rewrite applied_es_map. by eapply apply_ops_put. Qed.

Lemma applied_outside w fs ops k :
  Forall (op_in fs) ops → ¬ key_in fs k →
  es_map (w_st (applied w ops)) !! k = es_map (w_st w) !! k.
Proof. intros Hl Hk. rewrite applied_es_map. by eapply apply_ops_outside. Qed.

(** *** Operations of a valid transaction *)

Lemma put_eq k v k' v' : OpPut k v = OpPut k' v' → k = k' ∧ v = v'.
Proof. by intros [= -> ->]. Qed.

(** What a transaction leaves at a key: what was there, or what one of its
    operations says. *)
Lemma applied_cases w ops k :
  es_map (w_st (applied w ops)) !! k = es_map (w_st w) !! k ∨
  (∃ v, e_val <$> es_map (w_st (applied w ops)) !! k = Some v ∧ OpPut k v ∈ ops) ∨
  (es_map (w_st (applied w ops)) !! k = None ∧ OpDelete k ∈ ops).
Proof.
  rewrite applied_es_map. destruct (apply_ops_cases (w_rev w + 1) ops (w_map w) k) as [E|[(e & E & Hin)|?]];
    [by left| |by right; right].
  right. left. exists (e_val e). by rewrite E.
Qed.

Lemma elem_of_put_keys k v ops : OpPut k v ∈ ops → k ∈ put_keys ops.
Proof. intros Hin. apply list_elem_of_omap. by exists (OpPut k v). Qed.

Lemma elem_of_delete_keys k ops : OpDelete k ∈ ops → k ∈ delete_keys ops.
Proof. intros Hin. apply list_elem_of_omap. by exists (OpDelete k). Qed.

(** A valid branch puts a key at most once. *)
Lemma put_once ops k v v' : NoDup (put_keys ops) → OpPut k v ∈ ops → OpPut k v' ∈ ops → v = v'.
Proof.
  induction ops as [|o ops IH]; intros Hnd Hv Hv'; [by apply not_elem_of_nil in Hv|].
  assert (NoDup (put_keys ops)) as Hnd' by (destruct o; simpl in Hnd; [by apply NoDup_cons in Hnd as [_ ?]|done..]).
  apply elem_of_cons in Hv as [E|Hv]; apply elem_of_cons in Hv' as [E'|Hv'].
  - congruence.
  - rewrite <-E in Hnd. apply NoDup_cons in Hnd as [Hn _]. destruct Hn. by eapply elem_of_put_keys.
  - rewrite <-E' in Hnd. apply NoDup_cons in Hnd as [Hn _]. destruct Hn. by eapply elem_of_put_keys.
  - by apply IH.
Qed.

Lemma applied_deleted w ops k :
  branch_valid ops = true → OpDelete k ∈ ops → es_map (w_st (applied w ops)) !! k = None.
Proof.
  intros (_ & Hd & _)%branch_valid_true Hin. rewrite applied_es_map. apply apply_ops_deleted; [done|].
  intros Hp. apply (Hd _ Hp). by apply elem_of_delete_keys.
Qed.

Lemma applied_put_in w ops k v :
  branch_valid ops = true → OpPut k v ∈ ops → e_val <$> es_map (w_st (applied w ops)) !! k = Some v.
Proof.
  intros (Hnd & Hd & _)%branch_valid_true. rewrite applied_es_map. generalize (w_map w). generalize (w_rev w + 1).
  intros rev. induction ops as [|o ops IH]; intros m Hin; [by apply not_elem_of_nil in Hin|].
  rewrite apply_ops_cons. destruct (apply_ops_cases rev ops (apply_op rev o m).1 k) as [E|[(e & E & Hin')|[_ Hdel]]].
  - apply elem_of_cons in Hin as [<-|Hin].
    + rewrite E. simpl. by rewrite lookup_insert_eq.
    + apply IH; [..|done].
      * destruct o; simpl in Hnd; [by apply NoDup_cons in Hnd as [_ ?]|done..].
      * intros k' Hk' Hdk. apply (Hd k').
        -- destruct o; simpl; [by right|done..].
        -- destruct o; simpl; [done|by right|done].
  - rewrite E. simpl. f_equal. apply (put_once (o :: ops) k); [done|by right|done].
  - exfalso. apply (Hd k); [by eapply elem_of_put_keys|]. apply elem_of_delete_keys. by right.
Qed.

(** The key an operation writes. *)
Definition written (o : op) : option string :=
  match o with OpPut k _ | OpDelete k => Some k | OpGet _ => None end.

Lemma written_cases w ops k :
  es_map (w_st (applied w ops)) !! k = es_map (w_st w) !! k ∨ ∃ o, o ∈ ops ∧ written o = Some k.
Proof. destruct (applied_cases w ops k) as [?|[(v & _ & Hin)|[_ Hin]]]; [by left|right..]; by eexists. Qed.

(** The operation does not write the key. *)
Definition avoids (k : string) (o : op) : Prop :=
  match o with OpPut k' _ | OpDelete k' => k' ≠ k | OpGet _ => True end.

Lemma applied_avoids w ops k :
  Forall (avoids k) ops → es_map (w_st (applied w ops)) !! k = es_map (w_st w) !! k.
Proof.
  intros Hops. rewrite Forall_forall in Hops.
  destruct (applied_cases w ops k) as [?|[(v & _ & Hin)|[_ Hin]]]; [done|..]; by destruct (Hops _ Hin).
Qed.

Lemma op_in_avoid fs k o : op_in fs o → ¬ key_in fs k → avoids k o.
Proof. intros Ho Hk. destruct o; simpl in *; [..|done]; by intros ->. Qed.

Lemma op_in_avoids fs k ops : Forall (op_in fs) ops → ¬ key_in fs k → Forall (avoids k) ops.
Proof. intros Hops Hk. eapply Forall_impl; [exact Hops|]. intros o Ho. by eapply op_in_avoid. Qed.

Lemma op_in_sub fs fs' o : fs ⊆ fs' → op_in fs o → op_in fs' o.
Proof. intros Hs. destruct o; simpl; [..|done]; unfold key_in; destruct (key_family _); auto. Qed.

Lemma guards_avoids w ops k id :
  Forall (avoids k) ops → guards (w_st w) k id → guards (w_st (applied w ops)) k id.
Proof. intros Hops. unfold guards. by rewrite applied_avoids. Qed.

(** A compare among those that hold. *)
Lemma forallb_in {A} (f : A → bool) l x : forallb f l = true → x ∈ l → f x = true.
Proof. intros Hf Hx. rewrite forallb_forall in Hf. by apply Hf, list_elem_of_In. Qed.

(** *** A transaction both branches of which write *)
Lemma wp_raw_txn_else (pr : protocol) {Hep : EtcdProtocol pr} conds thens elses O Q w :
  (∀ w2, settled pr O w w2 → Q (Err ErrEtcd) O w2) →
  (∀ w1 b, reaches pr O w w1 → forallb (cmp_holds (w_map w1)) conds = b → w_rev w1 < max_i64 →
     let ops := if b then thens else elses in
     branch_valid ops = true →
     own_step pr O O w1 (applied w1 ops) ∧ Q (Err ErrEtcd) O (applied w1 ops) ∧
     ∀ rev rs, Q (Ok (TxnReply b rev rs)) O (applied w1 ops)) →
  wp pr (raw_txn conds thens elses) O Q w.
Proof.
  intros HE Hstep. simpl. intros w1 Hw1. split; [by apply HE, reaches_settled|]. intros st r Hexec.
  destruct (accepts (w_st w1) (Txn conds thens elses)) eqn:Hv; [|by rewrite etcd_txn_rejected in Hexec].
  rewrite etcd_txn in Hexec by done. injection Hexec as Hexec.
  assert (w_rev w1 < max_i64 ∧ branch_valid thens = true ∧ branch_valid elses = true) as (Hmax & Ht & He).
  { unfold accepts, txn_valid in Hv. rewrite !andb_true_iff in Hv. destruct Hv as [[[_ Ht] He] Hm].
    apply Z.ltb_lt in Hm. done. }
  destruct (Hstep w1 (forallb (cmp_holds (w_map w1)) conds) Hw1 eq_refl Hmax) as (Hown & HQE & HQ);
    [by destruct (forallb _ _)|].
  unfold commit in Hexec. simpl in Hexec. unfold applied, w_rev, w_map in *.
  destruct (forallb (cmp_holds (es_map (w_st w1))) conds); destruct (apply_ops _ _ _) as [m rs]; simplify_eq; eauto 10.
Qed.
End Guards.

(** Membership in an explicit list of operations. *)
Ltac op_elem :=
  rewrite ?elem_of_app, ?elem_of_cons, ?elem_of_nil; tauto.

(** An explicit list of operations avoids a key of another kind. *)
Ltac avoid_solve :=
  repeat match goal with
    | |- Forall _ (_ ++ _) => apply Forall_app; split
    | |- Forall _ (_ :: _) => apply Forall_cons; split; [simpl; first [exact I|key_neq]|]
    | |- Forall _ [] => constructor
    | |- Forall (avoids _) _ => eapply op_in_avoids; [eassumption|key_in_solve]
    end.
