(* ===== verification/Jobs.v ===== *)
(** * The job queue: internal/etcdstore/jobs.go and jobs_consume.go

    Jobs are rows under [/otherix/jobs/], keyed by a zero-padded sequence
    number.  The producer allocates a number and puts a pending job in the
    transaction of its task; workers claim a job (pending to running, with a
    fresh claim token), renew its lease, complete it by deletion, or hand it
    back; the reaper returns jobs whose lease is stale. *)

From S2P Require Import Prelude Models Strconv Etcd Prog Keys Client.
Local Open Scope Z_scope.

(** [queue.JobArgs]: the kind of the job and its JSON form, [None] when it does
    not marshal. *)
Record JobArgs := MkJobArgs { ja_Kind : string; ja_Payload : option bytes }.

Section Jobs.
Context `{Libs}.

(** ** Producer *)

Definition nextJobSeq : M Z := nextSeq jobSeqKey.

Definition pending_job (seq : Z) (kind : string) (payload : bytes) : Job :=
  {| job_ID := seq; job_Kind := kind; job_Args := payload; job_State := JobStatePending;
     job_Attempts := 0; job_FailedAt := None; job_ClaimedAt := None; job_ClaimToken := "" |}.

Definition enqueueJobOp (args : JobArgs) : M (Z * op) :=
  seq ← nextJobSeq;
  payload ← match ja_Payload args with
            | Some p => mret p
            | None => fail (ErrOther "marshal job args")
            end;
  val ← Marshal (pending_job seq (ja_Kind args) payload);
  mret (seq, OpPut (jobKey seq) val).

(** ** Consumer *)

Definition claimFenceRetries : nat := 3.

Definition jobWithRev (id : Z) : M (option (Job * Z)) :=
  r ← raw_get (jobKey id);
  match r with
  | None => mret None
  | Some e => match decode_doc (e_val e) with
              | Some j => mret (Some (j, e_mod e))
              | None => fail ErrDecode
              end
  end.

(** Put the job under a compare of the revision it was read at. *)
Definition cas_job (id modRev : Z) (job : Job) : M bool :=
  val ← Marshal job;
  resp ← raw_txn [CmpMod (jobKey id) modRev] [OpPut (jobKey id) val] [];
  mret (tr_Succeeded resp).

Definition decode_jobs (items : list (string * doc)) : list Job :=
  omap (λ kv, decodeOrQuarantine kv.2) items.

Definition PendingJobs : M (list Job) :=
  items ← Range jobsPrefix;
  mret (filter (λ j, job_State j = JobStatePending) (decode_jobs items)).

Definition ClaimJob (id : Z) : M (bool * string) :=
  r ← jobWithRev id;
  match r with
  | None => mret (false, "")
  | Some (job, modRev) =>
    if negb (bool_decide (job_State job = JobStatePending)) then mret (false, "")
    else
      u ← new_uuid;
      let token := uuid_string u in
      t ← now;
      let job := job <| job_State := JobStateRunning |> <| job_ClaimedAt := Some t |>
                     <| job_ClaimToken := token |> in
      ok ← cas_job id modRev job;
      mret (if ok : bool then (true, token) else (false, ""))
  end.

(** The job is the running claim identified by [token]. *)
Definition holds_claim (token : string) (job : Job) : bool :=
  bool_decide (job_State job = JobStateRunning) && negb (bool_decide (token = "")) &&
  bool_decide (job_ClaimToken job = token).

Definition RenewJobLease (id : Z) (token : string) : M bool :=
  r ← jobWithRev id;
  match r with
  | None => mret false
  | Some (job, modRev) =>
    if negb (holds_claim token job) then mret false
    else
      t ← now;
      cas_job id modRev (job <| job_ClaimedAt := Some t |>)
  end.

Definition CompleteJob (id : Z) : M unit :=
  _ ← Delete (jobKey id); mret tt.

(** The job after a failed attempt, and whether it is retried. *)
Definition retried (job : Job) (maxAttempts t : Z) : Job * bool :=
  let job := job <| job_Attempts := i32 (job_Attempts job + 1) |> in
  let requeued := job_Attempts job <? maxAttempts in
  if requeued then
    (job <| job_State := JobStatePending |> <| job_ClaimedAt := None |>
         <| job_ClaimToken := "" |>, true)
  else
    (job <| job_State := JobStateFailed |> <| job_FailedAt := Some t |>
         <| job_ClaimToken := "" |>, false).

Fixpoint retry_loop (rounds : nat) (id : Z) (token : string) (maxAttempts : Z) : M bool :=
  match rounds with
  | O => fail (ErrOther "retry job: claim fence exhausted")
  | S rounds =>
    r ← jobWithRev id;
    match r with
    | None => mret false
    | Some (job, modRev) =>
      if negb (holds_claim token job) then mret false
      else
        t ← (if i32 (job_Attempts job + 1) <? maxAttempts then mret 0 else now);
        let '(job, requeued) := retried job maxAttempts t in
        ok ← cas_job id modRev job;
        if ok : bool then mret requeued else retry_loop rounds id token maxAttempts
    end
  end.

Definition RetryJob (id : Z) (token : string) (maxAttempts : Z) : M bool :=
  retry_loop claimFenceRetries id token maxAttempts.

(** The job back in the queue, with its attempts as they are. *)
Definition requeued (job : Job) : Job :=
  job <| job_State := JobStatePending |> <| job_ClaimedAt := None |> <| job_ClaimToken := "" |>.

Fixpoint requeue_loop (rounds : nat) (id : Z) (token : string) : M unit :=
  match rounds with
  | O => fail (ErrOther "requeue job: claim fence exhausted")
  | S rounds =>
    r ← jobWithRev id;
    match r with
    | None => mret tt
    | Some (job, modRev) =>
      if negb (holds_claim token job) then mret tt
      else
        ok ← cas_job id modRev (requeued job);
        if ok : bool then mret tt else requeue_loop rounds id token
    end
  end.

Definition RequeueJob (id : Z) (token : string) : M unit :=
  requeue_loop claimFenceRetries id token.

(** ** Sweeps (internal/etcdstore/maintenance.go) *)

Definition failed_before (olderThan : Z) (j : Job) : bool :=
  bool_decide (job_State j = JobStateFailed) &&
  match job_FailedAt j with Some f => f <? olderThan | None => false end.

Definition DeleteFailedJobs (olderThan : Z) : M Z :=
  items ← Range jobsPrefix;
  let expired := filter (λ j, Is_true (failed_before olderThan j)) (decode_jobs items) in
  _ ← commitInChunks (map (λ j, OpDelete (jobKey (job_ID j))) expired);
  mret (Z.of_nat (length expired)).

(** A running job without a lease, or with one older than the bound. *)
Definition stale (olderThan : Z) (j : Job) : bool :=
  bool_decide (job_State j = JobStateRunning) &&
  match job_ClaimedAt j with Some c => c <? olderThan | None => true end.

(** The reclaim of one scanned job: whether it was returned to the queue. *)
Definition reclaim_one (olderThan : Z) (j : Job) : M bool :=
  if negb (stale olderThan j) then mret false
  else
    r ← jobWithRev (job_ID j);
    match r with
    | None => mret false
    | Some (job, modRev) =>
      if negb (stale olderThan job) then mret false
      else cas_job (job_ID j) modRev (requeued job)
    end.

(** The count so far is returned with an error. *)
Fixpoint reclaim_loop (olderThan : Z) (l : list Job) (reclaimed : Z) : prog (Z * option err) :=
  match l with
  | [] => Ret (reclaimed, None)
  | j :: l =>
    prog_bind (λ r, match r with
                    | Ok b => reclaim_loop olderThan l (if b : bool then reclaimed + 1 else reclaimed)
                    | Err e => Ret (reclaimed, Some e)
                    end) (reclaim_one olderThan j)
  end.

Definition ReclaimStaleRunningJobs (olderThan : Z) : prog (Z * option err) :=
  prog_bind (λ r, match r with
                  | Ok items => reclaim_loop olderThan (decode_jobs items) 0
                  | Err e => Ret (0, Some e)
                  end) (Range jobsPrefix).

Definition JobLease : Z := 90 * 10 ^ 9.
Definition FailedJobRetention : Z := 7 * 24 * 3600 * 10 ^ 9.

(** The periodic functions the scheduler registers. *)
Definition ReclaimStaleJobsFunc (lease : Z) : M unit :=
  t ← now;
  prog_bind (λ r, match r.2 with
                  | None => (mret tt : M unit)
                  | Some e => fail e
                  end) (ReclaimStaleRunningJobs (t - lease)).

Definition JobsCleanupFunc : M unit :=
  t ← now; _ ← DeleteFailedJobs (t - FailedJobRetention); mret tt.
End Jobs.
