(* ===== verification/JobFence.v ===== *)
(** * The claim fence

    A worker's renewals, retries and requeues carry the token of its claim.
    Whatever else happens to etcd, they only ever rewrite the worker's own
    running job: a worker that lost its claim cannot disturb the next one. *)

From S2P Require Import Prelude Models Etcd Prog Keys Client Rules Jobs.
Local Open Scope Z_scope.

Section JobFence.
Context `{Etcd, !EtcdLaws, !Libs}.

(** The writes of each operation on the row of job [id]. *)
Definition renews (token : string) (j j' : Job) : Prop :=
  holds_claim token j = true ∧ ∃ t, j' = j <| job_ClaimedAt := Some t |>.
Definition retries (token : string) (maxAttempts : Z) (j j' : Job) : Prop :=
  holds_claim token j = true ∧ ∃ t, j' = (retried j maxAttempts t).1.
Definition requeues (token : string) (j j' : Job) : Prop :=
  holds_claim token j = true ∧ j' = requeued j.
Definition claims (j j' : Job) : Prop :=
  job_State j = JobStatePending ∧ ∃ u t,
    j' = j <| job_State := JobStateRunning |> <| job_ClaimedAt := Some t |>
           <| job_ClaimToken := uuid_string u |>.
Definition reclaims (olderThan : Z) (j j' : Job) : Prop :=
  stale olderThan j = true ∧ j' = requeued j.

Lemma wp_jobWithRev (pr : protocol) `{!EtcdProtocol pr} id O Q w :
  (∀ w2 e, settled pr O w w2 → Q (Err e) O w2) →
  (∀ w2, settled pr O w w2 → w_map w2 !! jobKey id = None → Q (Ok None) O w2) →
  (∀ w2 e j, settled pr O w w2 → w_map w2 !! jobKey id = Some e → e_val e = encode_doc j →
     seen (jobKey id) e (w_st w2) → Q (Ok (Some (j, e_mod e))) O w2) →
  wp pr (jobWithRev id) O Q w.
Proof.
  intros HE HN HS. apply wp_bindM. apply (wp_raw_get_seen pr).
  - intros w2 Hw2. by apply HE.
  - intros w2 Hw2 Hk. simpl. by apply HN.
  - intros w2 e Hw2 Hk Hseen. destruct (decode_doc (e_val e)) as [j|] eqn:Ed; [|by apply HE].
    apply HS; [done..| |done]. by apply decode_doc_inv.
Qed.

(** A compare-and-set of the job just read. *)
Lemma wp_cas_job G P id e j j' Q w :
  (∀ st st', row_write (jobKey id) P st st' → G st st') →
  seen (jobKey id) e (w_st w) → e_val e = encode_doc j → P j j' → (∀ r w', Q r ∅ w') →
  wp (open_protocol G) (cas_job id (e_mod e) j') ∅ Q w.
Proof.
  intros HG Hs He HP HQ. apply wp_bindM, wp_Marshal; [done|]. apply wp_bindM.
  eapply wp_cas_row; [done..|]. intros [r|e'] w'; simpl; auto.
Qed.

(** The shape every fenced operation has: read the job, stop unless it is the
    claim, rewrite it. *)
Ltac fence_read :=
  apply wp_bindM; apply (wp_jobWithRev (open_protocol _));
  [by intros|intros; by apply wp_mret|];
  let w2 := fresh "w2" in let e := fresh "e" in let j := fresh "j" in
  intros w2 e j ? ? ? ?; cbn beta iota;
  match goal with |- context [negb ?c] =>
    destruct c eqn:?; cbn [negb]; [|by apply wp_mret] end.

Lemma RenewJobLease_wp id token w :
  wp (open_protocol (row_write (jobKey id) (renews token))) (RenewJobLease id token) ∅
     (λ _ _ _, True) w.
Proof.
  fence_read. apply wp_bindM, (wp_now (open_protocol _)). intros w3 t Hw3.
  eapply wp_cas_job; [done|by eapply (seen_settled (open_protocol _))|done| |done]. by split; eauto.
Qed.

Lemma RetryJob_wp id token maxAttempts w :
  wp (open_protocol (row_write (jobKey id) (retries token maxAttempts)))
     (RetryJob id token maxAttempts) ∅ (λ _ _ _, True) w.
Proof.
  unfold RetryJob. generalize claimFenceRetries as n. intros n.
  revert w. induction n as [|n IH]; intros w; [done|]. simpl retry_loop. fence_read.
  apply wp_bindM.
  assert (∀ w3 t, settled (open_protocol (row_write (jobKey id) (retries token maxAttempts))) ∅ w2 w3 →
    wp (open_protocol (row_write (jobKey id) (retries token maxAttempts)))
      (let '(job, req) := retried j maxAttempts t in
       ok ← cas_job id (e_mod e) job;
       if ok : bool then mret req else retry_loop n id token maxAttempts) ∅ (λ _ _ _, True) w3) as Hcont.
  { intros w3 t Hw3. destruct (retried j maxAttempts t) as [j' req] eqn:Er.
    apply wp_bindM. eapply wp_cas_job; [done|by eapply (seen_settled (open_protocol _))|done| |].
    - split; [done|]. exists t. by rewrite Er.
    - intros [[]|] w'; [done|apply IH|done]. }
  destruct (_ <? maxAttempts).
  - apply wp_mret, Hcont. by eapply (settled_refl (open_protocol _)).
  - apply (wp_now (open_protocol _)). intros w3 t Hw3. by apply Hcont.
Qed.

Lemma RequeueJob_wp id token w :
  wp (open_protocol (row_write (jobKey id) (requeues token))) (RequeueJob id token) ∅
     (λ _ _ _, True) w.
Proof.
  unfold RequeueJob. generalize claimFenceRetries as n. intros n.
  revert w. induction n as [|n IH]; intros w; [done|]. simpl requeue_loop. fence_read.
  apply wp_bindM. eapply wp_cas_job; [done..|by split|].
  intros [[]|] w'; [done|apply IH|done].
Qed.

Lemma ClaimJob_wp id w :
  wp (open_protocol (row_write (jobKey id) claims)) (ClaimJob id) ∅ (λ _ _ _, True) w.
Proof.
  fence_read. apply bool_decide_eq_true in Heqb. apply wp_bindM, wp_new_uuid_open.
  intros w3 u Hw3 Hu. apply wp_bindM, (wp_now (open_protocol _)). intros w4 t Hw4.
  apply wp_bindM. eapply wp_cas_job; [done| |done| |].
  - eapply (seen_settled (open_protocol _)); [done|].
    change (w_st (issue u w3)) with (w_st w3). by eapply (seen_settled (open_protocol _)).
  - split; [done|]. by exists u, t.
  - by intros [[]|] w'.
Qed.

(** The reaper, over everything it scanned. *)
Lemma reclaim_loop_wp olderThan l n w :
  wp (open_protocol (λ st st', ∃ id, row_write (jobKey id) (reclaims olderThan) st st'))
     (reclaim_loop olderThan l n) ∅ (λ _ _ _, True) w.
Proof.
  revert n w. induction l as [|j l IH]; intros n w; [done|]. apply wp_bind.
  unfold reclaim_one. destruct (stale olderThan j); [|apply wp_mret, IH].
  cbn [negb]. apply wp_bindM. apply (wp_jobWithRev (open_protocol _)); [done|intros; apply wp_mret, IH|].
  intros w2 e j2 Hw2 Hk He Hseen. cbn beta iota.
  destruct (stale olderThan j2) eqn:Est; [|apply wp_mret, IH].
  cbn [negb]. eapply wp_cas_job; [by eauto|done|done|by split|].
  intros [[]|] w'; [apply IH..|done].
Qed.

(** The reaper respects renewals: in any environment, the only writes of a
    reclaim pass return to the queue a job that is running with a stale lease at
    the moment of the write, without consuming an attempt. *)
Theorem ReclaimStaleRunningJobs_safe olderThan :
  steps_within (λ st st', ∃ id, row_write (jobKey id) (reclaims olderThan) st st')
    (ReclaimStaleRunningJobs olderThan).
Proof.
  apply steps_within_wp. intros w. apply wp_bind, wp_bindM. apply (wp_raw_range (open_protocol _)).
  intros w2 Hw2. split; [done|]. apply wp_mret, reclaim_loop_wp.
Qed.

(** The claim fence: in any environment, the only write of a claim takes a
    job that is pending at that moment to running under a fresh token, and the
    only writes of a renewal, a retry or a requeue replace the row of its job
    while the job is running under the caller's token. *)
Theorem bookkeeping_fenced id token maxAttempts :
  steps_within (row_write (jobKey id) claims) (ClaimJob id) ∧
  steps_within (row_write (jobKey id) (renews token)) (RenewJobLease id token) ∧
  steps_within (row_write (jobKey id) (retries token maxAttempts)) (RetryJob id token maxAttempts) ∧
  steps_within (row_write (jobKey id) (requeues token)) (RequeueJob id token).
Proof.
  split_and!; apply steps_within_wp; intros w.
  - apply ClaimJob_wp.
  - apply RenewJobLease_wp.
  - apply RetryJob_wp.
  - apply RequeueJob_wp.
Qed.
End JobFence.
