(* ===== verification/Tasks.v ===== *)
(** * Tasks: internal/etcdstore/tasks.go and idempotency_task.go

    A task row is written in the same transaction as its backing job.  An
    enqueue that carries an idempotency descriptor also writes, under a
    create-revision guard, an index entry from (user, key) to the task it
    produced; a replay reads that entry in the guard's else branch. *)

From S2P Require Import Prelude Models Etcd Prog Keys Client Jobs.
Local Open Scope Z_scope.

Record UpdateTaskFinalizedParams := MkUpdateTaskFinalizedParams {
  utf_ID : uuid;
  utf_Status : TaskStatus;
  utf_Result : bytes;
  utf_Error : bytes
}.

Record UpdateTaskAgentTaskIDParams := MkUpdateTaskAgentTaskIDParams {
  uta_ID : uuid;
  uta_AgentTaskID : option uuid
}.

(** The filter of [listTasks]; the parameters of [ListTasksAny] and
    [ListTasksOwn] carry the same fields. *)
Record taskFilter := MkTaskFilter {
  tf_createdBy : option uuid;
  tf_statusFilter : option string;
  tf_typeFilter : option string;
  tf_resourceTypeFilter : option string;
  tf_resourceIDFilter : option uuid;
  tf_cursorCreatedAt : option time;
  tf_cursorID : option uuid;
  tf_limitCount : Z
}.
#[export] Instance eta_taskFilter : Eta taskFilter := λ f,
  MkTaskFilter (tf_createdBy f) (tf_statusFilter f) (tf_typeFilter f) (tf_resourceTypeFilter f)
    (tf_resourceIDFilter f) (tf_cursorCreatedAt f) (tf_cursorID f) (tf_limitCount f).

Record DeleteExpiredTasksParams := MkDeleteExpiredTasksParams {
  det_CompletedCutoff : time;
  det_FailedCutoff : time
}.

(** A pointer filter: unset, or equal to the value. *)
Definition opt_filter {A} `{EqDecision A} (f : option A) (v : A) : bool :=
  match f with None => true | Some x => bool_decide (v = x) end.

(** A pointer filter on a pointer column. *)
Definition opt_filter_ptr {A} `{EqDecision A} (f v : option A) : bool :=
  match f with None => true | Some _ => bool_decide (v = f) end.

Definition isTerminalTaskStatus (s : TaskStatus) : bool :=
  match s with TaskStatusSuccess | TaskStatusFailed | TaskStatusCancelled => true | _ => false end.

Definition isCommittedTerminal (s : TaskStatus) : bool :=
  match s with TaskStatusSuccess | TaskStatusCancelled => true | _ => false end.

Definition in_flight (s : TaskStatus) : bool :=
  match s with TaskStatusPending | TaskStatusRunning => true | _ => false end.

Definition idempotencyTaskIndexTTL : Z := 24 * 3600 * 10 ^ 9.

Section Tasks.
Context `{Libs}.

(** ** Reads *)

Definition TaskByID (id : uuid) : M Task :=
  r ← GetJSON (taskKey id);
  match r with Some t => mret t | None => fail ErrNotFound end.

Definition taskWithRev (id : uuid) : M (Task * Z) :=
  r ← raw_get (taskKey id);
  match r with
  | None => fail ErrNotFound
  | Some e => match decode_doc (e_val e) with
              | Some t => mret (t, e_mod e)
              | None => fail ErrDecode
              end
  end.

(** ** Enqueue *)

Definition taskFromParams (p : CreateTaskParams) (jobSeq createdAt : Z) : Task :=
  {| task_ID := ctp_ID p; task_Type := ctp_Type p; task_Status := ctp_Status p;
     task_ResourceType := ctp_ResourceType p; task_ResourceID := ctp_ResourceID p;
     task_Progress := None; task_Args := ctp_Args p; task_Result := ""; task_Error := "";
     task_Attempts := 0; task_MaxAttempts := ctp_MaxAttempts p; task_JobID := Some jobSeq;
     task_AgentTaskID := None; task_CreatedBy := ctp_CreatedBy p; task_CreatedAt := createdAt;
     task_StartedAt := None; task_FinishedAt := None |}.

Definition taskIndexOps (t : Task) : list op :=
  match task_CreatedBy t with
  | None => []
  | Some user => [OpPut (taskCreatedByKey user (task_ID t)) (DStr (uuid_string (task_ID t)))]
  end.

(** What a replay returns for the index entry its guard found. *)
Definition replay (hash : bytes) (responses : list op_reply) : M uuid :=
  match responses with
  | RGet (Some e) :: _ =>
    match decode_doc (e_val e) with
    | None => fail ErrDecode
    | Some prior =>
      if negb (bool_decide (iti_RequestHash prior = hash)) then fail ErrIdempotencyKeyMismatch
      else mret (iti_TaskID prior)
    end
  | _ => fail ErrIdempotencyKeyMismatch
  end.

Definition EnqueueTask (params : CreateTaskParams) (args : JobArgs) : M uuid :=
  '(seq, jobOp) ← enqueueJobOp args;
  createdAt ← now;
  let task := taskFromParams params seq createdAt in
  val ← Marshal task;
  let ops := taskIndexOps task ++ [OpPut (taskKey (task_ID task)) val; jobOp] in
  match ctp_IdempotencyUserID params, ctp_IdempotencyKey params with
  | Some user, Some key =>
    let idxKey := idempotencyTaskIndexKey user key in
    t ← now;
    let idxVal := encode_doc {| iti_TaskID := task_ID task;
                                iti_RequestHash := ctp_IdempotencyHash params;
                                iti_ExpiresAt := t + idempotencyTaskIndexTTL |} in
    resp ← raw_txn [CmpCreate idxKey 0] (ops ++ [OpPut idxKey idxVal]) [OpGet idxKey];
    if tr_Succeeded resp then mret (ctp_ID params)
    else replay (ctp_IdempotencyHash params) (tr_Responses resp)
  | _, _ =>
    _ ← raw_txn [] ops [];
    mret (ctp_ID params)
  end.

(** ** Cancel *)

Definition CancelPendingTask (id : uuid) (jobRef : option Z) : M Task :=
  t ← TaskByID id;
  if negb (bool_decide (task_Status t = TaskStatusPending)) then fail ErrTaskNotCancellable
  else
    n ← now;
    let t := t <| task_Status := TaskStatusCancelled |> <| task_FinishedAt := Some n |> in
    taskVal ← Marshal t;
    match jobRef with
    | None => _ ← PutJSON (taskKey id) t; mret t
    | Some ref =>
      r ← jobWithRev ref;
      match r with
      | None => fail ErrTaskNotCancellable
      | Some (job, jobModRev) =>
        if negb (bool_decide (job_State job = JobStatePending)) then fail ErrTaskNotCancellable
        else
          resp ← raw_txn [CmpMod (jobKey ref) jobModRev]
                   [OpPut (taskKey id) taskVal; OpDelete (jobKey ref)] [];
          if tr_Succeeded resp then mret t else fail ErrTaskNotCancellable
      end
    end.

(** ** Worker updates *)

Definition updateTask (id : uuid) (mutate : Task → M Task) : M unit :=
  t ← TaskByID id;
  t ← mutate t;
  PutJSON (taskKey id) t.

Definition UpdateTaskRunning (id : uuid) : M bool :=
  t ← TaskByID id;
  if isCommittedTerminal (task_Status t) then mret true
  else
    let t := t <| task_Status := TaskStatusRunning |> in
    t ← match task_StartedAt t with
        | Some _ => mret t
        | None => n ← now; mret (t <| task_StartedAt := Some n |>)
        end;
    let t := t <| task_Attempts := i32 (task_Attempts t + 1) |> in
    _ ← PutJSON (taskKey id) t;
    mret false.

Definition UpdateTaskFinalized (arg : UpdateTaskFinalizedParams) : M unit :=
  updateTask (utf_ID arg) (λ t,
    let t := t <| task_Status := utf_Status arg |> <| task_Result := utf_Result arg |>
               <| task_Error := utf_Error arg |> in
    n ← now; mret (t <| task_FinishedAt := Some n |>)).

Definition UpdateTaskAgentTaskID (arg : UpdateTaskAgentTaskIDParams) : M unit :=
  updateTask (uta_ID arg) (λ t, mret (t <| task_AgentTaskID := uta_AgentTaskID arg |>)).

Definition ClearTaskAgentTaskID (id : uuid) : M unit :=
  updateTask id (λ t, mret (t <| task_AgentTaskID := None |>)).

(** ** Lists *)

Definition decode_tasks (items : list (string * doc)) : list Task :=
  omap (λ kv, decodeOrQuarantine kv.2) items.

Definition ActiveVMDeleteTaskVMIDs : M (gset uuid) :=
  items ← Range taskPrefix;
  mret (list_to_set (omap (λ t,
    if bool_decide (task_Type t = "vm.delete") && in_flight (task_Status t)
    then task_ResourceID t else None) (decode_tasks items))).

(** [unmarshal_source] is the decoding of the [source_snapshot_id] member of a
    task's arguments, [None] when they do not decode. *)
Definition ActiveCreatesReferencingSnapshot (unmarshal_source : bytes → option (option uuid))
    (snapshotID : uuid) : M Z :=
  items ← Range taskPrefix;
  mret (Z.of_nat (length (filter (λ t, Is_true (
    bool_decide (task_Type t = "vm.create") && in_flight (task_Status t) &&
    match unmarshal_source (task_Args t) with
    | None => true
    | Some src => bool_decide (src = Some snapshotID)
    end)) (decode_tasks items)))).

(** [beforeCursor] of vms.go. *)
Definition beforeCursor (createdAt : time) (id : uuid) (cursorCreatedAt : option time)
    (cursorID : option uuid) : bool :=
  match cursorCreatedAt, cursorID with
  | Some c, Some i =>
    if negb (createdAt =? c) then createdAt <? c
    else str_ltb (uuid_string id) (uuid_string i)
  | _, _ => true
  end.

(** The descending order of the list endpoints. *)
Definition newer (t1 : time) (id1 : uuid) (t2 : time) (id2 : uuid) : bool :=
  if negb (t1 =? t2) then t2 <? t1 else str_ltb (uuid_string id2) (uuid_string id1).

Definition taskMatches (t : Task) (f : taskFilter) : bool :=
  opt_filter_ptr (tf_createdBy f) (task_CreatedBy t) &&
  opt_filter (tf_statusFilter f) (TaskStatus_string (task_Status t)) &&
  opt_filter (tf_typeFilter f) (task_Type t) &&
  opt_filter (tf_resourceTypeFilter f) (task_ResourceType t) &&
  opt_filter_ptr (tf_resourceIDFilter f) (task_ResourceID t) &&
  beforeCursor (task_CreatedAt t) (task_ID t) (tf_cursorCreatedAt f) (tf_cursorID f).

Definition task_newer (a b : Task) : bool :=
  newer (task_CreatedAt a) (task_ID a) (task_CreatedAt b) (task_ID b).

Definition listTasks (f : taskFilter) : M (list Task) :=
  items ← Range taskPrefix;
  mret (limit (tf_limitCount f)
    (stable_sort task_newer
      (filter (λ t, Is_true (taskMatches t f)) (decode_tasks items)))).

Definition ListTasksAny (arg : taskFilter) : M (list Task) :=
  listTasks (arg <| tf_createdBy := None |>).
Definition ListTasksOwn (arg : taskFilter) : M (list Task) := listTasks arg.

(** ** Retention (internal/etcdstore/maintenance.go) *)

Definition taskRetentionExpired (t : Task) (arg : DeleteExpiredTasksParams) : bool :=
  match task_FinishedAt t with
  | None => false
  | Some f =>
    match task_Status t with
    | TaskStatusSuccess => f <? det_CompletedCutoff arg
    | TaskStatusFailed | TaskStatusCancelled => f <? det_FailedCutoff arg
    | _ => false
    end
  end.

Definition expired_task_ops (t : Task) : list op :=
  OpDelete (taskKey (task_ID t)) ::
  match task_CreatedBy t with
  | None => []
  | Some user => [OpDelete (taskCreatedByKey user (task_ID t))]
  end.

Definition DeleteExpiredTasks (arg : DeleteExpiredTasksParams) : M Z :=
  items ← Range taskPrefix;
  let expired := filter (λ t, Is_true (taskRetentionExpired t arg)) (decode_tasks items) in
  _ ← commitInChunks (expired ≫= expired_task_ops);
  mret (Z.of_nat (length expired)).

(** [poolsWithInflightScan] of maintenance.go. *)
Definition poolsWithInflightScan : M (gset uuid) :=
  items ← Range taskPrefix;
  mret (list_to_set (omap (λ t,
    if bool_decide (task_Type t = "storage_pool.scan") && in_flight (task_Status t)
    then task_ResourceID t else None) (decode_tasks items))).
End Tasks.
