(* ===== verification/Nodes.v ===== *)
(** * Nodes: internal/etcdstore/nodes.go, node_row.go, heartbeat.go and maintenance.go

    The node and VM lookups the other parts use, the writers of a node row
    (creation, cordon, gateway role, heartbeat, pressure) and the periodic
    reconciliation that moves nodes between ready and unreachable.  Every writer
    of an existing row re-reads it and commits under a compare of its
    modification revision; the status writers refuse a node that carries a
    drain. *)

From S2P Require Import Prelude Models Etcd Prog Keys Client.
Local Open Scope Z_scope.

Record PromoteHealthyNodesRow := MkPromoteHealthyNodesRow {
  phr_ID : uuid;
  phr_Name : string;
  phr_Status : NodeStatus;
  phr_GatewayRole : bool
}.

Record MarkNodesUnreachableRow := MkMarkNodesUnreachableRow {
  mur_ID : uuid;
  mur_Name : string;
  mur_LastHeartbeatAt : option time
}.

Record CreateNodeParams := MkCreateNodeParams {
  cnp_ID : uuid;
  cnp_Name : string;
  cnp_Gateway : bool;
  cnp_Architecture : string;
  cnp_AdvertisedEndpoint : string;
  cnp_IngressAdvertisedEndpoint : string;
  cnp_MigrationHost : string;
  cnp_MigrationPortRangeStart : Z;
  cnp_MigrationPortRangeEnd : Z;
  cnp_Status : NodeStatus
}.

Record UpdateNodeHeartbeatParams := MkUpdateNodeHeartbeatParams {
  unh_Report : NodeReport;
  unh_IngressAdvertisedEndpoint : string;
  unh_ControlListenPort : Z;
  unh_ID : uuid
}.

(** [UpdateNodeMemoryPressureParams] and [UpdateNodeSystemDiskPressureParams]. *)
Record UpdateNodePressureParams := MkUpdateNodePressureParams {
  unp_PressureSince : option time;
  unp_PressureCount : Z;
  unp_ID : uuid
}.

Section Nodes.
Context `{Libs}.

(** ** Lookups *)

Definition VMByID (id : uuid) : M VM :=
  r ← GetJSON (vmKey id);
  match r with
  | Some v => if bool_decide (vm_DeletedAt v = None) then mret v else fail ErrNotFound
  | None => fail ErrNotFound
  end.

Definition NodeByID (id : uuid) : M Node :=
  r ← GetJSON (nodeKey id);
  match r with
  | Some n => if bool_decide (node_DeletedAt n = None) then mret n else fail ErrNotFound
  | None => fail ErrNotFound
  end.

Definition nodeWithRev (id : uuid) : M (Node * Z) :=
  r ← raw_get (nodeKey id);
  match r with
  | None => fail ErrNotFound
  | Some e =>
    match decode_doc (e_val e) with
    | None => fail ErrDecode
    | Some n => if bool_decide (node_DeletedAt n = None) then mret (n, e_mod e) else fail ErrNotFound
    end
  end.

Definition liveNodes : M (list Node) :=
  items ← Range nodePrefix;
  mret (filter (λ n, node_DeletedAt n = None) (omap (λ kv, decodeOrQuarantine kv.2) items)).

Definition NodeByName (name : string) : M Node :=
  r ← resolveGuard (nodeNameGuard name);
  match r with
  | None => fail ErrNotFound
  | Some id => NodeByID id
  end.

(** Fails on the first row that does not decode. *)
Definition AllNodes : M (list Node) :=
  items ← Range nodePrefix;
  for_each items [] (λ kv out,
    match decode_doc kv.2 with
    | None => fail ErrDecode
    | Some n => mret (if bool_decide (node_DeletedAt n = None) then out ++ [n] else out)
    end).

(** ** Row writers *)

Definition new_node (arg : CreateNodeParams) (t : Z) : Node :=
  {| node_ID := cnp_ID arg; node_Name := cnp_Name arg; node_GatewayRole := cnp_Gateway arg;
     node_Architecture := cnp_Architecture arg;
     node_AdvertisedEndpoint := cnp_AdvertisedEndpoint arg;
     node_IngressAdvertisedEndpoint := cnp_IngressAdvertisedEndpoint arg;
     node_ControlListenPort := 0;
     node_Report := no_report (cnp_MigrationHost arg) (cnp_MigrationPortRangeStart arg)
                      (cnp_MigrationPortRangeEnd arg);
     node_Status := cnp_Status arg; node_CordonedAt := None; node_DrainTaskID := None;
     node_LastHeartbeatAt := None; node_Labels := ""; node_MemoryPressureSince := None;
     node_MemoryPressureCount := 0; node_SystemDiskPressureSince := None;
     node_SystemDiskPressureCount := 0; node_CreatedAt := t; node_UpdatedAt := t;
     node_DeletedAt := None |}.

Definition CreateNode (arg : CreateNodeParams) : M Node :=
  t ← now;
  let n := new_node arg t in
  val ← Marshal n;
  let guard := nodeNameGuard (node_Name n) in
  resp ← raw_txn [CmpCreate guard 0]
           [OpPut guard (DStr (uuid_string (node_ID n))); OpPut (nodeKey (node_ID n)) val] [];
  if tr_Succeeded resp then mret n else fail ErrNodeNameExists.

Definition setNodeCordon (id : uuid) (status : NodeStatus) (cordon : bool) : M Node :=
  '(n, modRev) ← nodeWithRev id;
  if negb (bool_decide (node_DrainTaskID n = None)) then fail ErrConcurrentUpdate
  else
    t ← now;
    let n := n <| node_Status := status |>
               <| node_CordonedAt := if cordon then Some t else None |>
               <| node_UpdatedAt := t |> in
    val ← Marshal n;
    resp ← raw_txn [CmpMod (nodeKey id) modRev] [OpPut (nodeKey id) val] [];
    if tr_Succeeded resp then mret n else fail ErrConcurrentUpdate.

Definition CordonNode (id : uuid) : M Node := setNodeCordon id NodeStatusCordoned true.
Definition UncordonNode (id : uuid) : M Node := setNodeCordon id NodeStatusReady false.

Definition SetNodeGatewayRole (id : uuid) (enabled : bool) : M Node :=
  '(n, modRev) ← nodeWithRev id;
  if bool_decide (node_GatewayRole n = enabled) then mret n
  else
    t ← now;
    let n := n <| node_GatewayRole := enabled |> <| node_UpdatedAt := t |> in
    val ← Marshal n;
    resp ← raw_txn [CmpMod (nodeKey id) modRev] [OpPut (nodeKey id) val] [];
    if tr_Succeeded resp then mret n else fail ErrConcurrentUpdate.

(** The update function reads the clock itself. *)
Fixpoint cas_update_attempts (attempts : nat) (id : uuid) (mutate : Node → M Node) : M Node :=
  match attempts with
  | O => fail ErrConcurrentUpdate
  | S attempts =>
    '(n, modRev) ← nodeWithRev id;
    n ← mutate n;
    val ← Marshal n;
    resp ← raw_txn [CmpMod (nodeKey id) modRev] [OpPut (nodeKey id) val] [];
    if tr_Succeeded resp then mret n else cas_update_attempts attempts id mutate
  end.

Definition casNodeUpdate (id : uuid) (mutate : Node → M Node) : M Node :=
  cas_update_attempts 5 id mutate.

(** An empty endpoint and a zero port leave the stored values alone. *)
Definition heartbeat_row (arg : UpdateNodeHeartbeatParams) (t : Z) (n : Node) : Node :=
  n <| node_Report := unh_Report arg |>
    <| node_IngressAdvertisedEndpoint :=
         if bool_decide (unh_IngressAdvertisedEndpoint arg = "") then node_IngressAdvertisedEndpoint n
         else unh_IngressAdvertisedEndpoint arg |>
    <| node_ControlListenPort :=
         if 0 <? unh_ControlListenPort arg then unh_ControlListenPort arg
         else node_ControlListenPort n |>
    <| node_LastHeartbeatAt := Some t |> <| node_UpdatedAt := t |>.

Definition UpdateNodeHeartbeat (arg : UpdateNodeHeartbeatParams) : M unit :=
  _ ← casNodeUpdate (unh_ID arg) (λ n, t ← now; mret (heartbeat_row arg t n));
  mret tt.

Definition UpdateNodeMemoryPressure (arg : UpdateNodePressureParams) : M unit :=
  _ ← casNodeUpdate (unp_ID arg) (λ n,
        t ← now;
        mret (n <| node_MemoryPressureSince := unp_PressureSince arg |>
                <| node_MemoryPressureCount := unp_PressureCount arg |> <| node_UpdatedAt := t |>));
  mret tt.

Definition UpdateNodeSystemDiskPressure (arg : UpdateNodePressureParams) : M unit :=
  _ ← casNodeUpdate (unp_ID arg) (λ n,
        t ← now;
        mret (n <| node_SystemDiskPressureSince := unp_PressureSince arg |>
                <| node_SystemDiskPressureCount := unp_PressureCount arg |> <| node_UpdatedAt := t |>));
  mret tt.

(** ** Status writes *)

(** Put the node under a compare of the revision it was read at: the node when
    the write committed. *)
Definition cas_node (id : uuid) (modRev : Z) (n : Node) : M (option Node) :=
  val ← Marshal n;
  resp ← raw_txn [CmpMod (nodeKey id) modRev] [OpPut (nodeKey id) val] [];
  mret (if tr_Succeeded resp then Some n else None).

(** [nodeWithRev] with a missing node reported as no node. *)
Definition live_node_with_rev (id : uuid) : M (option (Node * Z)) :=
  r ← attempt (nodeWithRev id);
  match r with
  | Ok nr => mret (Some nr)
  | Err ErrNotFound => mret None
  | Err e => fail e
  end.

Definition casNodeStatus (id : uuid) (status : NodeStatus) : M (option Node) :=
  r ← live_node_with_rev id;
  match r with
  | None => mret None
  | Some (n, modRev) =>
    if negb (bool_decide (node_DrainTaskID n = None)) then mret None
    else
      t ← now;
      cas_node id modRev (n <| node_Status := status |> <| node_UpdatedAt := t |>)
  end.

Definition casGoneToUnreachable (id : uuid) : M (option Node) :=
  r ← live_node_with_rev id;
  match r with
  | None => mret None
  | Some (n, modRev) =>
    if negb (bool_decide (node_Status n = legacyGoneStatus)) then mret None
    else
      t ← now;
      cas_node id modRev (n <| node_Status := NodeStatusUnreachable |> <| node_UpdatedAt := t |>)
  end.

(** ** Sweeps *)

Definition promotable (freshAfter : Z) (n : Node) : bool :=
  match node_Status n with NodeStatusPending | NodeStatusUnreachable => true | _ => false end &&
  match node_LastHeartbeatAt n with None => false | Some h => negb (h <? freshAfter) end.

Definition PromoteHealthyNodes (freshAfter : Z) : M (list PromoteHealthyNodesRow) :=
  nodes ← liveNodes;
  for_each nodes [] (λ n rows,
    if negb (promotable freshAfter n) then mret rows
    else
      committed ← casNodeStatus (node_ID n) NodeStatusReady;
      match committed with
      | None => mret rows
      | Some c => mret (rows ++ [MkPromoteHealthyNodesRow (node_ID n) (node_Name n) NodeStatusReady
                                   (node_GatewayRole c)])
      end).

Definition demotable (staleBefore : Z) (n : Node) : bool :=
  match node_Status n with NodeStatusReady | NodeStatusPending => true | _ => false end &&
  match node_LastHeartbeatAt n with None => true | Some h => h <? staleBefore end.

Definition MarkNodesUnreachable (staleBefore : Z) : M (list MarkNodesUnreachableRow) :=
  nodes ← liveNodes;
  for_each nodes [] (λ n rows,
    if negb (demotable staleBefore n) then mret rows
    else
      committed ← casNodeStatus (node_ID n) NodeStatusUnreachable;
      match committed with
      | None => mret rows
      | Some _ => mret (rows ++ [MkMarkNodesUnreachableRow (node_ID n) (node_Name n)
                                   (node_LastHeartbeatAt n)])
      end).

Definition RewriteGoneNodesToUnreachable : M (list MarkNodesUnreachableRow) :=
  nodes ← liveNodes;
  for_each nodes [] (λ n rows,
    if negb (bool_decide (node_Status n = legacyGoneStatus)) then mret rows
    else
      committed ← casGoneToUnreachable (node_ID n);
      match committed with
      | None => mret rows
      | Some c => mret (rows ++ [MkMarkNodesUnreachableRow (node_ID c) (node_Name c)
                                   (node_LastHeartbeatAt c)])
      end).

Definition nodeScannable (status : NodeStatus) : bool :=
  match status with
  | NodeStatusPending | NodeStatusReady | NodeStatusCordoned => true
  | _ => false
  end.
End Nodes.
