(* ===== verification/Drains.v ===== *)
(** * Node drains: internal/etcdstore/nodes.go

    Draining a node flips it to draining and enqueues the drain task and its job
    in one transaction; finishing the drain stamps the task and takes the node
    back to cordoned; a backstop does the same for a node whose drain has lost
    its job.  A cooperative cancel is a marker key. *)

From S2P Require Import Prelude Models Etcd Prog Keys Client Jobs Tasks Nodes.
Local Open Scope Z_scope.

Section Drains.
Context `{Libs}.

Definition drainable (s : NodeStatus) : bool :=
  match s with NodeStatusReady | NodeStatusCordoned => true | _ => false end.

Definition drain_started (n : Node) (task : uuid) (t : Z) : Node :=
  n <| node_Status := NodeStatusDraining |> <| node_DrainTaskID := Some task |> <| node_UpdatedAt := t |>.

Definition StartNodeDrain (nodeID : uuid) (taskParams : CreateTaskParams) (args : JobArgs) : M Task :=
  '(node, modRev) ← nodeWithRev nodeID;
  if negb (drainable (node_Status node)) then fail ErrNodeNotDrainable
  else
    t ← now;
    let node := drain_started node (ctp_ID taskParams) t in
    nodeVal ← Marshal node;
    '(seq, jobOp) ← enqueueJobOp args;
    createdAt ← now;
    let task := taskFromParams taskParams seq createdAt in
    taskVal ← Marshal task;
    let ops := [OpPut (nodeKey (node_ID node)) nodeVal; OpPut (taskKey (task_ID task)) taskVal; jobOp] ++
               taskIndexOps task in
    resp ← raw_txn [CmpMod (nodeKey (node_ID node)) modRev] ops [];
    if tr_Succeeded resp then mret task else fail ErrConcurrentUpdate.

(** The node row a finished drain writes, when it writes one. *)
Definition drain_ended (n : Node) (t : Z) : option Node :=
  if bool_decide (node_Status n = NodeStatusDraining) then
    Some (n <| node_Status := NodeStatusCordoned |> <| node_DrainTaskID := None |> <| node_UpdatedAt := t |>)
  else if negb (bool_decide (node_DrainTaskID n = None)) then
    Some (n <| node_DrainTaskID := None |> <| node_UpdatedAt := t |>)
  else None.

Definition FinishNodeDrain (nodeID taskID : uuid) (status : TaskStatus) (result : bytes) : M unit :=
  '(node, modRev) ← nodeWithRev nodeID;
  task ← TaskByID taskID;
  if isTerminalTaskStatus (task_Status task) then mret tt
  else
    t ← now;
    let task := task <| task_Status := status |> <| task_Result := result |>
                     <| task_FinishedAt := Some t |> in
    taskVal ← Marshal task;
    let ops := [OpPut (taskKey (task_ID task)) taskVal; OpDelete (drainCancelKey taskID)] in
    '(cmps, ops) ← match drain_ended node t with
                   | None => mret ([], ops)
                   | Some node =>
                     nodeVal ← Marshal node;
                     mret ([CmpMod (nodeKey (node_ID node)) modRev],
                           ops ++ [OpPut (nodeKey (node_ID node)) nodeVal])
                   end;
    resp ← raw_txn cmps ops [];
    if tr_Succeeded resp then mret tt else fail ErrConcurrentUpdate.

(** ** The cancel marker *)

Definition RequestDrainCancel (taskID : uuid) : M unit := Put (drainCancelKey taskID) (DStr "1").

Definition DeleteDrainCancel (taskID : uuid) : M unit := _ ← Delete (drainCancelKey taskID); mret tt.

Definition DrainCancelRequested (taskID : uuid) : M bool :=
  r ← Get (drainCancelKey taskID); mret (bool_decide (is_Some r)).

(** ** The backstop *)

Definition listNodesByStatus (status : NodeStatus) : M (list Node) :=
  nodes ← liveNodes; mret (filter (λ n, node_Status n = status) nodes).

Definition CountDrainingNodes : M Z :=
  nodes ← listNodesByStatus NodeStatusDraining; mret (Z.of_nat (length nodes)).

Definition drainJobLive (jobID : option Z) : M bool :=
  match jobID with
  | None => mret false
  | Some id =>
    r ← jobWithRev id;
    match r with
    | None => mret false
    | Some (job, _) => mret (bool_decide (job_State job = JobStatePending) ||
                             bool_decide (job_State job = JobStateRunning))
    end
  end.

Definition drainStillLive (n : Node) : M bool :=
  match node_DrainTaskID n with
  | None => mret false
  | Some id =>
    r ← attempt (TaskByID id);
    match r with
    | Err ErrNotFound => mret false
    | Err e => fail e
    | Ok t => if negb (in_flight (task_Status t)) then mret false else drainJobLive (task_JobID t)
    end
  end.

Definition stuck_drain_cordoned (n : Node) (t : Z) : Node :=
  n <| node_Status := NodeStatusCordoned |> <| node_DrainTaskID := None |> <| node_UpdatedAt := t |>.

(** Any error of the read means that nothing is done. *)
Definition cordonStuckDrain (id : uuid) : M bool :=
  r ← attempt (nodeWithRev id);
  match r with
  | Err _ => mret false
  | Ok (node, modRev) =>
    if negb (bool_decide (node_Status node = NodeStatusDraining)) then mret false
    else
      t ← now;
      let node := stuck_drain_cordoned node t in
      val ← Marshal node;
      resp ← raw_txn [CmpMod (nodeKey (node_ID node)) modRev] [OpPut (nodeKey (node_ID node)) val] [];
      mret (tr_Succeeded resp)
  end.

Definition finalizeStuckDrainTask (taskID : uuid) (reconciledResult : bytes) : M unit :=
  r ← attempt (taskWithRev taskID);
  match r with
  | Err ErrNotFound => mret tt
  | Err e => fail e
  | Ok (t, modRev) =>
    if isTerminalTaskStatus (task_Status t) then mret tt
    else
      n ← now;
      let t := t <| task_Status := TaskStatusFailed |> <| task_Result := reconciledResult |>
                 <| task_FinishedAt := Some n |> in
      val ← Marshal t;
      _ ← raw_txn [CmpMod (taskKey taskID) modRev] [OpPut (taskKey taskID) val] [];
      mret tt
  end.

(** One draining node of the snapshot: whether it was taken back to cordoned. *)
Definition reconcile_one (reconciledResult : bytes) (n : Node) : M bool :=
  live ← drainStillLive n;
  if live : bool then mret false
  else
    _ ← match node_DrainTaskID n with
        | None => mret tt
        | Some id => finalizeStuckDrainTask id reconciledResult
        end;
    cordonStuckDrain (node_ID n).

(** The count so far is returned with an error. *)
Fixpoint reconcile_loop (reconciledResult : bytes) (nodes : list Node) (fixed : Z)
    : prog (Z * option err) :=
  match nodes with
  | [] => Ret (fixed, None)
  | n :: nodes =>
    prog_bind (λ r, match r with
                    | Ok b => reconcile_loop reconciledResult nodes (if b : bool then fixed + 1 else fixed)
                    | Err e => Ret (fixed, Some e)
                    end) (reconcile_one reconciledResult n)
  end.

Definition ReconcileStuckDrain (reconciledResult : bytes) : prog (Z * option err) :=
  prog_bind (λ r, match r with
                  | Ok nodes => reconcile_loop reconciledResult nodes 0
                  | Err e => Ret (0, Some e)
                  end) (listNodesByStatus NodeStatusDraining).
End Drains.
