(* ===== verification/Migrations.v ===== *)
(** * Migrations: internal/etcdstore/migrations.go

    A migration row is created pending together with its per-VM guard, its
    indexes, its task and its job; progress updates, target binding and
    cancellation compare the row's modification revision; the cutover re-pins
    the VM, moves its runtime row and completes the migration in one
    transaction.  A terminal transition releases the guard and the per-node
    indexes.  The retention sweep and the node-delete cascade are included. *)

From S2P Require Import Prelude Models Etcd Prog Keys Client Jobs Tasks Nodes.
Local Open Scope Z_scope.

Record ListMigrationsParams := MkListMigrationsParams {
  lmp_LimitCount : Z;
  lmp_CursorCreatedAt : option time;
  lmp_CursorID : option uuid;
  lmp_VmID : option uuid;
  lmp_NodeID : option uuid
}.

Record DeleteExpiredMigrationsParams := MkDeleteExpiredMigrationsParams {
  dem_CompletedCutoff : time;
  dem_FailedCutoff : time;
  dem_CancelledCutoff : time
}.

Definition isTerminalMigration (p : MigrationPhase) : bool :=
  match p with
  | MigrationPhaseCompleted | MigrationPhaseFailed | MigrationPhaseCancelled => true
  | _ => false
  end.

(** The rows a cutover validated, with their revisions. *)
Record cutoverState := MkCutoverState {
  cs_m : Migration;
  cs_mRev : Z;
  cs_vm : VM;
  cs_vRev : Z;
  cs_rt : option (VMRuntime * Z)
}.

Section Migrations.
Context `{Libs}.

(** ** Create *)

Definition new_migration (p : CreateMigrationParams) (t : Z) : Migration :=
  {| mig_ID := cmp_ID p; mig_VmID := cmp_VmID p; mig_SourceNodeID := cmp_SourceNodeID p;
     mig_TargetNodeID := cmp_TargetNodeID p; mig_InitiatedByUserID := cmp_InitiatedByUserID p;
     mig_Reason := cmp_Reason p; mig_Phase := MigrationPhasePending; mig_ProgressPercent := 0;
     mig_BytesTotal := None; mig_BytesTransferred := 0; mig_BytesRemaining := None;
     mig_PagesTotal := None; mig_PagesTransferred := None; mig_DowntimeMs := None;
     mig_SetupTimeMs := None; mig_QmpCapabilities := "";
     mig_MaxBandwidthBytes := cmp_MaxBandwidthBytes p; mig_MaxDowntimeMs := cmp_MaxDowntimeMs p;
     mig_Live := cmp_Live p; mig_AllowPostcopy := cmp_AllowPostcopy p;
     mig_TargetPoolName := cmp_TargetPoolName p; mig_StartedAt := None; mig_CompletedAt := None;
     mig_ErrorMessage := None; mig_SchedulingReason := None; mig_LastScheduleAttemptAt := None;
     mig_Stats := None; mig_CreatedAt := t; mig_UpdatedAt := t |}.

(** [OpPut] of a node index leaf when the node is set. *)
Definition node_index_puts (node : option uuid) (id : uuid) : list op :=
  match node with
  | None => []
  | Some n => [OpPut (migrationNodeIndexKey n id) (DStr (uuid_string id))]
  end.

Definition CreateMigration (p : CreateMigrationParams) (args : JobArgs) : M Migration :=
  t ← now;
  let m := new_migration p t in
  val ← Marshal m;
  '(seq, jobOp) ← enqueueJobOp args;
  createdAt ← now;
  let task := taskFromParams (cmp_Task p) seq createdAt in
  taskVal ← Marshal task;
  let guard := migrationActiveVMGuard (cmp_VmID p) in
  let ops :=
    [OpPut guard (DStr (uuid_string (cmp_ID p)));
     OpPut (migrationKey (mig_ID m)) val;
     OpPut (migrationVMIndexKey (cmp_VmID p) (mig_ID m)) (DStr (uuid_string (mig_ID m)));
     OpPut (taskKey (task_ID task)) taskVal;
     jobOp] ++
    node_index_puts (cmp_SourceNodeID p) (mig_ID m) ++
    node_index_puts (cmp_TargetNodeID p) (mig_ID m) ++
    taskIndexOps task in
  resp ← raw_txn [CmpCreate guard 0] ops [];
  if tr_Succeeded resp then mret m else fail ErrMigrationActiveExists.

(** ** Terminal transitions *)

Definition node_index_deletes (node : option uuid) (id : uuid) : list op :=
  match node with
  | None => []
  | Some n => [OpDelete (migrationNodeIndexKey n id)]
  end.

Definition terminalCleanupOps (m : Migration) : list op :=
  OpDelete (migrationActiveVMGuard (mig_VmID m)) ::
  node_index_deletes (mig_SourceNodeID m) (mig_ID m) ++
  node_index_deletes (mig_TargetNodeID m) (mig_ID m).

(** Read a migration row with its revision. *)
Definition migration_with_rev (id : uuid) : M (Migration * Z) :=
  r ← raw_get (migrationKey id);
  match r with
  | None => fail ErrNotFound
  | Some e => match decode_doc (e_val e) with
              | Some m => mret (m, e_mod e)
              | None => fail ErrDecode
              end
  end.

(** ** Cutover *)

Definition cutoverRefused (m : Migration) : bool :=
  match mig_Phase m with
  | MigrationPhaseFailed => true
  | MigrationPhaseCancelled => negb (mig_Live m)
  | _ => false
  end.

(** [None] is an already committed cutover. *)
Definition loadCutoverState (migID : uuid) : M (option cutoverState) :=
  '(m, mRev) ← migration_with_rev migID;
  if bool_decide (mig_Phase m = MigrationPhaseCompleted) then mret None
  else if cutoverRefused m then fail ErrMigrationTerminal
  else match mig_TargetNodeID m with
  | None => fail (ErrOther "cutover without target")
  | Some target =>
    n ← attempt (NodeByID target);
    match n with
    | Err ErrNotFound => fail ErrMigrationTerminal
    | Err e => fail e
    | Ok _ =>
      v ← raw_get (vmKey (mig_VmID m));
      match v with
      | None => fail ErrNotFound
      | Some ve =>
        match decode_doc (e_val ve) with
        | None => fail ErrDecode
        | Some vm =>
          r ← raw_get (vmRuntimeKey (mig_VmID m));
          match r with
          | None => mret (Some (MkCutoverState m mRev vm (e_mod ve) None))
          | Some re =>
            match decode_doc (e_val re) with
            | None => fail ErrDecode
            | Some rt => mret (Some (MkCutoverState m mRev vm (e_mod ve) (Some (rt, e_mod re))))
            end
          end
        end
      end
    end
  end.

Definition pinnedNodeIndexOps (old : option uuid) (target vmID : uuid) : list op :=
  match old with
  | Some o => if bool_decide (o = target) then [] else [OpDelete (vmPinnedNodeIndexKey o vmID)]
  | None => []
  end ++ [OpPut (vmPinnedNodeIndexKey target vmID) (DStr (uuid_string vmID))].

Definition cutoverRuntimeOps (rt : option (VMRuntime * Z)) (source : option uuid) (target : uuid)
    : M (list op) :=
  match rt with
  | None => mret []
  | Some (rt, _) =>
    let rt := rt <| rt_CurrentNodeID := Some target |> in
    val ← Marshal rt;
    mret (OpPut (vmRuntimeKey (rt_VmID rt)) val ::
          match source with
          | Some o => if bool_decide (o = target) then []
                      else [OpDelete (vmRuntimeNodeIndexKey o (rt_VmID rt))]
          | None => []
          end ++
          [OpPut (vmRuntimeNodeIndexKey target (rt_VmID rt)) (DStr (uuid_string (rt_VmID rt)))])
  end.

(** The rows a cutover writes. *)
Definition repinned (vm : VM) (target : uuid) (t : Z) : VM :=
  vm <| vm_PinnedNodeID := Some target |> <| vm_UpdatedAt := t |>.

Definition completed (m : Migration) (t : Z) : Migration :=
  m <| mig_Phase := MigrationPhaseCompleted |> <| mig_CompletedAt := Some t |>
    <| mig_ProgressPercent := 100 |> <| mig_SchedulingReason := None |> <| mig_UpdatedAt := t |>.

Definition CommitMigrationCutover (migID : uuid) : M unit :=
  r ← loadCutoverState migID;
  match r with
  | None => mret tt
  | Some cs =>
    t ← now;
    match mig_TargetNodeID (cs_m cs) with
    | None => fail (ErrOther "nil dereference")
    | Some target =>
      let old := vm_PinnedNodeID (cs_vm cs) in
      let vm := repinned (cs_vm cs) target t in
      let m := completed (cs_m cs) t in
      vmVal ← Marshal vm;
      mVal ← Marshal m;
      rtOps ← cutoverRuntimeOps (cs_rt cs) old target;
      let ops := [OpPut (vmKey (vm_ID vm)) vmVal; OpPut (migrationKey (mig_ID m)) mVal] ++
                 pinnedNodeIndexOps old target (vm_ID vm) ++ rtOps ++ terminalCleanupOps m in
      let conds :=
        [CmpMod (migrationKey (mig_ID m)) (cs_mRev cs);
         CmpMod (vmKey (vm_ID vm)) (cs_vRev cs);
         CmpCreate (nodeDeletingKey target) 0;
         match cs_rt cs with
         | Some (_, rtRev) => CmpMod (vmRuntimeKey (mig_VmID m)) rtRev
         | None => CmpCreate (vmRuntimeKey (mig_VmID m)) 0
         end] in
      resp ← raw_txn conds ops [];
      if tr_Succeeded resp then mret tt else fail ErrConcurrentUpdate
    end
  end.

(** ** Progress *)

(** Set the field when the update carries it. *)
Definition override {A} (new : option A) (old : A) : A :=
  match new with Some v => v | None => old end.
Definition override_ptr {A} (new old : option A) : option A :=
  match new with Some v => Some v | None => old end.

Definition applyMigrationProgress (m : Migration) (upd : MigrationProgressUpdate) : Migration :=
  let m := m <| mig_Phase := override (upd_Phase upd) (mig_Phase m) |> in
  let m := m <| mig_ProgressPercent := override (upd_ProgressPercent upd) (mig_ProgressPercent m) |> in
  let m := m <| mig_BytesTotal := override_ptr (upd_BytesTotal upd) (mig_BytesTotal m) |> in
  let m := m <| mig_BytesTransferred := override (upd_BytesTransferred upd) (mig_BytesTransferred m) |> in
  let m := m <| mig_BytesRemaining := override_ptr (upd_BytesRemaining upd) (mig_BytesRemaining m) |> in
  let m := m <| mig_ErrorMessage := override_ptr (upd_ErrorMessage upd) (mig_ErrorMessage m) |> in
  let m := m <| mig_StartedAt := override_ptr (upd_StartedAt upd) (mig_StartedAt m) |> in
  let m := m <| mig_LastScheduleAttemptAt :=
                  override_ptr (upd_LastScheduleAttemptAt upd) (mig_LastScheduleAttemptAt m) |> in
  if upd_ClearSchedulingReason upd then m <| mig_SchedulingReason := None |>
  else m <| mig_SchedulingReason := override_ptr (upd_SchedulingReason upd) (mig_SchedulingReason m) |>.

(** Put the row, with more operations, under a compare of its revision. *)
Definition cas_migration (m : Migration) (rev : Z) (conds : list cmp) (more : list op) : M unit :=
  val ← Marshal m;
  resp ← raw_txn (CmpMod (migrationKey (mig_ID m)) rev :: conds)
           (OpPut (migrationKey (mig_ID m)) val :: more) [];
  if tr_Succeeded resp then mret tt else fail ErrConcurrentUpdate.

(** The phase an update moves to, when it is terminal. *)
Definition terminal_update (upd : MigrationProgressUpdate) : bool :=
  match upd_Phase upd with Some p => isTerminalMigration p | None => false end.

Definition UpdateMigrationProgress (migID : uuid) (upd : MigrationProgressUpdate) : M unit :=
  '(m, rev) ← migration_with_rev migID;
  if isTerminalMigration (mig_Phase m) then fail ErrMigrationTerminal
  else if bool_decide (upd_Phase upd = Some MigrationPhaseCompleted) then
    fail (ErrOther "completed is committed by the cutover, not by a progress update")
  else
    t ← now;
    let m := (applyMigrationProgress m upd) <| mig_UpdatedAt := t |> in
    let m := if terminal_update upd then m <| mig_CompletedAt := Some t |> else m in
    cas_migration m rev [] (if terminal_update upd then terminalCleanupOps m else []).

Definition UpdateMigrationStats (migID : uuid) (stats : MigrationStats) : M unit :=
  '(m, rev) ← migration_with_rev migID;
  t ← now;
  cas_migration (m <| mig_Stats := Some stats |> <| mig_UpdatedAt := t |>) rev [] [].

(** ** Cancel *)

Definition cancelled (m : Migration) (reason : string) (t : Z) : Migration :=
  m <| mig_Phase := MigrationPhaseCancelled |> <| mig_ErrorMessage := Some reason |>
    <| mig_CompletedAt := Some t |> <| mig_SchedulingReason := None |> <| mig_UpdatedAt := t |>.

(** The row is returned also with [ErrMigrationNotCancelable]. *)
Definition CancelMigration (id : uuid) (reason : string) : M (Migration * option err) :=
  '(m, rev) ← migration_with_rev id;
  if isTerminalMigration (mig_Phase m) then mret (m, Some ErrMigrationNotCancelable)
  else
    t ← now;
    let m := cancelled m reason t in
    _ ← cas_migration m rev [] (terminalCleanupOps m);
    mret (m, None).

(** ** Target binding *)

Definition bound (m : Migration) (target : uuid) (poolName : string) (t : Z) : Migration :=
  m <| mig_TargetNodeID := Some target |> <| mig_TargetPoolName := poolName |>
    <| mig_SchedulingReason := None |> <| mig_UpdatedAt := t |>.

Definition BindMigrationTarget (ctx : option fence) (migID targetNodeID : uuid)
    (poolName : string) : M unit :=
  '(m, rev) ← migration_with_rev migID;
  if isTerminalMigration (mig_Phase m) then fail ErrMigrationTerminal
  else match mig_TargetNodeID m with
  | Some t => if bool_decide (t = targetNodeID) then mret tt else fail ErrMigrationTargetConflict
  | None =>
    t ← now;
    let m := bound m targetNodeID poolName t in
    cas_migration m rev (FenceCmps ctx) (node_index_puts (Some targetNodeID) (mig_ID m))
  end.

(** ** Reads *)

(** The migration id an index entry points to. *)
Definition index_id (v : doc) : option uuid :=
  match v with DStr s => uuid_parse s | _ => None end.

Fixpoint first_active (items : list (string * doc)) : M (option Migration) :=
  match items with
  | [] => mret None
  | kv :: items =>
    match index_id kv.2 with
    | None => fail ErrDecode
    | Some id =>
      r ← GetJSON (migrationKey id);
      match r with
      | Some m => if isTerminalMigration (mig_Phase m) then first_active items else mret (Some m)
      | None => first_active items
      end
    end
  end.

Definition ActiveMigrationForVM (vmID : uuid) : M (option Migration) :=
  items ← Range (migrationsVMIndexPrefix vmID);
  first_active items.

(** The migration named the node and has not completed. *)
Definition tried_to_land (nodeID : uuid) (m : Migration) : bool :=
  negb (bool_decide (mig_Phase m = MigrationPhaseCompleted)) &&
  bool_decide (mig_TargetNodeID m = Some nodeID).

Fixpoint any_tried (nodeID : uuid) (items : list (string * doc)) : M bool :=
  match items with
  | [] => mret false
  | kv :: items =>
    match index_id kv.2 with
    | None => fail ErrDecode
    | Some id =>
      r ← GetJSON (migrationKey id);
      match r with
      | Some m => if tried_to_land nodeID m then mret true else any_tried nodeID items
      | None => any_tried nodeID items
      end
    end
  end.

Definition MigrationTriedToLandOn (vmID nodeID : uuid) : M bool :=
  items ← Range (migrationsVMIndexPrefix vmID);
  any_tried nodeID items.

Definition abandoned_offline (targetID : uuid) (m : Migration) : bool :=
  negb (mig_Live m) && bool_decide (mig_TargetNodeID m = Some targetID) &&
  match mig_Phase m with MigrationPhaseFailed | MigrationPhaseCancelled => true | _ => false end.

Definition AbandonedOfflineMigrations (vmID targetID exclude : uuid) : M (list uuid) :=
  items ← Range (migrationsVMIndexPrefix vmID);
  for_each items [] (λ kv ids,
    match index_id kv.2 with
    | None => mret ids
    | Some id =>
      if bool_decide (id = exclude) then mret ids
      else
        r ← attempt (GetJSON (migrationKey id));
        match r with
        | Ok (Some m) => if abandoned_offline targetID m then mret (ids ++ [id]) else mret ids
        | _ => mret ids
        end
    end).

Definition MigrationByID (id : uuid) : M Migration :=
  r ← GetJSON (migrationKey id);
  match r with Some m => mret m | None => fail ErrNotFound end.

Definition migrationsByIndex (prefix : string) : M (list Migration) :=
  items ← Range prefix;
  for_each items [] (λ kv out,
    match index_id kv.2 with
    | None => fail ErrDecode
    | Some id =>
      r ← attempt (MigrationByID id);
      match r with
      | Ok m => mret (out ++ [m])
      | Err ErrNotFound => mret out
      | Err e => fail e
      end
    end).

Definition decode_migrations (items : list (string * doc)) : M (list Migration) :=
  for_each items [] (λ kv out,
    match decode_doc kv.2 with Some m => mret (out ++ [m]) | None => fail ErrDecode end).

Definition migrationsByPrimaryPrefix : M (list Migration) :=
  items ← Range migrationPrefix; decode_migrations items.

Definition migration_newer (a b : Migration) : bool :=
  newer (mig_CreatedAt a) (mig_ID a) (mig_CreatedAt b) (mig_ID b).

Definition ListMigrations (p : ListMigrationsParams) : M (list Migration) :=
  migs ← match lmp_VmID p, lmp_NodeID p with
         | Some vm, _ => migrationsByIndex (migrationsVMIndexPrefix vm)
         | None, Some node => migrationsByIndex (migrationsNodeIndexPrefix node)
         | None, None => migrationsByPrimaryPrefix
         end;
  mret (limit (lmp_LimitCount p) (stable_sort migration_newer
    (filter (λ m, Is_true (beforeCursor (mig_CreatedAt m) (mig_ID m)
                             (lmp_CursorCreatedAt p) (lmp_CursorID p))) migs))).

(** The scan stops at the second match. *)
Fixpoint first_two (items : list (string * doc)) (out : list Migration) : M (list Migration) :=
  match items with
  | [] => mret out
  | kv :: items =>
    match decode_doc kv.2 with
    | None => fail ErrDecode
    | Some m =>
      let out := out ++ [m] in
      if (length out =? 2)%nat then mret out else first_two items out
    end
  end.

Definition MigrationsByIDPrefix (prefix : string) : M (list Migration) :=
  items ← Range (Key ["migrations"] +:+ "/" +:+ prefix);
  first_two items [].

(** ** Retention (internal/etcdstore/maintenance.go) *)

Definition migrationRetentionExpired (m : Migration) (arg : DeleteExpiredMigrationsParams) : bool :=
  let terminalAt := override (mig_CompletedAt m) (mig_UpdatedAt m) in
  match mig_Phase m with
  | MigrationPhaseCompleted => terminalAt <? dem_CompletedCutoff arg
  | MigrationPhaseFailed => terminalAt <? dem_FailedCutoff arg
  | MigrationPhaseCancelled => terminalAt <? dem_CancelledCutoff arg
  | _ => false
  end.

Definition migrationRecordsAnUnresolvedIncident (m : Migration) : M bool :=
  if bool_decide (mig_Phase m = MigrationPhaseCompleted) then mret false
  else
    r ← attempt (VMByID (mig_VmID m));
    match r with
    | Ok _ => mret true
    | Err ErrNotFound => mret false
    | Err e => fail e
    end.

Definition expired_migration_ops (m : Migration) : list op :=
  [OpDelete (migrationKey (mig_ID m)); OpDelete (migrationVMIndexKey (mig_VmID m) (mig_ID m))] ++
  terminalCleanupOps m.

(** One iteration of the sweep's loop: the operations and the count so far. *)
Definition sweep_one (arg : DeleteExpiredMigrationsParams) (m : Migration) (acc : list op * Z)
    : M (list op * Z) :=
  let '(ops, deleted) := acc in
  if negb (migrationRetentionExpired m arg) then mret acc
  else
    keep ← migrationRecordsAnUnresolvedIncident m;
    if keep : bool then mret acc
    else mret (ops ++ expired_migration_ops m, deleted + 1).

Definition DeleteExpiredMigrations (arg : DeleteExpiredMigrationsParams) : M Z :=
  items ← Range migrationPrefix;
  '(ops, deleted) ← for_each (omap (λ kv, decodeOrQuarantine kv.2) items) ([], 0) (sweep_one arg);
  _ ← commitInChunks ops;
  mret deleted.

(** ** Node deletion (internal/etcdstore/nodes.go) *)

Definition nodeDeleteCASAttempts : nat := 5.

Definition activeMigrationsOnNode (nodeID : uuid) : M (list Migration) :=
  items ← Range (migrationsNodeIndexPrefix nodeID);
  for_each items [] (λ kv active,
    match index_id kv.2 with
    | None => fail ErrDecode
    | Some id =>
      r ← GetJSON (migrationKey id);
      match r with
      | Some m => if isTerminalMigration (mig_Phase m) then mret active else mret (active ++ [m])
      | None => mret active
      end
    end).

(** The bounded retries for one migration: whether it was cancelled. *)
Fixpoint cancel_attempts (attempts : nat) (id : uuid) (reason : string) : M bool :=
  match attempts with
  | O => fail ErrConcurrentUpdate
  | S attempts =>
    r ← attempt (CancelMigration id reason);
    match r with
    | Ok (_, None) => mret true
    | Ok (_, Some _) => mret false
    | Err ErrNotFound => mret false
    | Err ErrConcurrentUpdate => cancel_attempts attempts id reason
    | Err e => fail e
    end
  end.

(** The count so far is returned with an error. *)
Fixpoint cancel_loop (migs : list Migration) (reason : string) (n : Z) : prog (Z * option err) :=
  match migs with
  | [] => Ret (n, None)
  | m :: migs =>
    prog_bind (λ r, match r with
                    | Ok b => cancel_loop migs reason (if b : bool then n + 1 else n)
                    | Err e => Ret (n, Some e)
                    end) (cancel_attempts nodeDeleteCASAttempts (mig_ID m) reason)
  end.

Definition cancelNodeMigrations (migs : list Migration) (reason : string) : prog (Z * option err) :=
  cancel_loop migs reason 0.

Fixpoint orphan_attempts (attempts : nat) (vmID nodeID : uuid) (indexKey : string) : M bool :=
  match attempts with
  | O => fail ErrConcurrentUpdate
  | S attempts =>
    r ← raw_get (vmRuntimeKey vmID);
    match r with
    | None => _ ← Delete indexKey; mret false
    | Some e =>
      match decode_doc (e_val e) with
      | None => fail ErrDecode
      | Some rt =>
        if negb (bool_decide (rt_CurrentNodeID rt = Some nodeID)) then _ ← Delete indexKey; mret false
        else
          let rt := rt <| rt_Phase := VmPhaseOrphaned |> <| rt_CurrentNodeID := None |> in
          val ← Marshal rt;
          resp ← raw_txn [CmpMod (vmRuntimeKey vmID) (e_mod e)]
                   [OpPut (vmRuntimeKey vmID) val; OpDelete indexKey] [];
          if tr_Succeeded resp then mret true else orphan_attempts attempts vmID nodeID indexKey
      end
    end
  end.

Definition orphanOneVMRuntime (vmID nodeID : uuid) (indexKey : string) : M bool :=
  orphan_attempts nodeDeleteCASAttempts vmID nodeID indexKey.
End Migrations.
