(* ===== verification/DeleteIntent.v ===== *)
(** * Delete intents: internal/etcdstore/deleting_intent.go

    A delete of an infrastructure resource first creates an intent key, then
    counts references, then finalizes under a compare of the intent's create
    revision.  Every create of a reference compares that the intent is absent.
    A reaper sweeps intents left behind by crashed deletes. *)

From S2P Require Import Prelude Models Etcd Prog Keys Client.
Local Open Scope Z_scope.

Section DeleteIntent.
Context `{Libs}.

(** [now.UTC().Format(time.RFC3339)]: whole seconds. *)
Definition rfc3339 (t : Z) : doc := DTime (t / 10 ^ 9).

Definition setDeleteIntent (key : string) (t : Z) : M Z :=
  resp ← raw_txn [CmpCreate key 0] [OpPut key (rfc3339 t)] [OpGet key];
  if tr_Succeeded resp then mret (tr_Revision resp)
  else match tr_Responses resp with
  | [RGet (Some e)] => mret (e_create e)
  | _ =>
    got ← raw_get key;
    match got with
    | None => mret 0
    | Some e => mret (e_create e)
    end
  end.

Definition deleteIntentGuard (key : string) (myRev : Z) : cmp := CmpCreate key myRev.

(** Best effort: the outcome is ignored. *)
Definition clearDeleteIntent (key : string) (myRev : Z) : M unit :=
  _ ← attempt (raw_txn [deleteIntentGuard key myRev] [OpDelete key] []);
  mret tt.

Definition deleteIntentPresent (key : string) : M bool :=
  r ← raw_get key; mret (bool_decide (is_Some r)).

Fixpoint anyDeleteIntentPresent (keys : list string) : M bool :=
  match keys with
  | [] => mret false
  | k :: keys =>
    present ← deleteIntentPresent k;
    if present : bool then mret true else anyDeleteIntentPresent keys
  end.

Definition DefaultDeleteIntentStaleAfter : Z := 5 * 60 * 10 ^ 9.

(** The instant of an intent; a corrupt value is the zero time, before any
    cutoff. *)
Definition intent_after (v : doc) (cutoff : Z) : bool :=
  match v with DTime s => cutoff <? s * 10 ^ 9 | _ => false end.

(** The count so far is returned with an error. *)
Fixpoint reap_loop (items : list (string * entry)) (cutoff reaped : Z) : prog (Z * option err) :=
  match items with
  | [] => Ret (reaped, None)
  | (k, e) :: items =>
    if intent_after (e_val e) cutoff then reap_loop items cutoff reaped
    else
      prog_bind (λ r, match r with
                      | Ok _ => reap_loop items cutoff (reaped + 1)
                      | Err e => Ret (reaped, Some e)
                      end) (raw_txn [CmpMod k (e_mod e)] [OpDelete k] [])
  end.

Definition ReapStaleDeleteIntents (t staleAfter : Z) : prog (Z * option err) :=
  prog_bind (λ r, match r with
                  | Ok items => reap_loop items (t - staleAfter) 0
                  | Err e => Ret (0, Some e)
                  end) (raw_range deletingPrefix).

Definition DeleteIntentReaperFunc (staleAfter : Z) : M unit :=
  t ← now;
  prog_bind (λ r, match r.2 with
                  | None => (mret tt : M unit)
                  | Some e => fail e
                  end) (ReapStaleDeleteIntents t staleAfter).
End DeleteIntent.
