(* ===== verification/Idempotency.v ===== *)
(** * Idempotency keys: internal/etcdstore/idempotency.go and
    internal/api/middleware/idempotency.go

    A mutating request may carry an [Idempotency-Key].  The middleware claims
    the row of (user, key) before it runs the handler, stores the response on
    success and deletes the row otherwise; a later request with the same key
    replays the stored response, or is refused when it differs from the first.
    The handler, the hash and the header codec are parameters. *)

From S2P Require Import Prelude Models Etcd Prog Keys Client.
Local Open Scope Z_scope.

(** The parameters of the begin and reclaim writes carry the same fields. *)
Record ClaimIdempotencyKeyParams := MkClaimIdempotencyKeyParams {
  cik_Key : string;
  cik_UserID : option uuid;
  cik_RequestMethod : string;
  cik_RequestPath : string;
  cik_RequestHash : bytes;
  cik_ExpiresAt : time
}.

Record CompleteIdempotencyKeyParams := MkCompleteIdempotencyKeyParams {
  cip_UserID : option uuid;
  cip_ResponseStatus : option Z;
  cip_ResponseHeaders : bytes;
  cip_ResponseBody : bytes;
  cip_ExpiresAt : time;
  cip_Key : string
}.

Section Store.
Context `{Libs}.

Definition idempotencyParamsKey (userID : option uuid) (key : string) : M string :=
  match userID with
  | None => fail (ErrOther "idempotency key requires a user id")
  | Some u => mret (idempotencyKeyKey u key)
  end.

Definition GetIdempotencyKey (userID : uuid) (key : string) : M IdempotencyKey :=
  r ← GetJSON (idempotencyKeyKey userID key);
  match r with Some row => mret row | None => fail ErrNotFound end.

(** A fresh claim. *)
Definition in_flight_row (arg : ClaimIdempotencyKeyParams) (t : Z) : IdempotencyKey :=
  {| ik_Key := cik_Key arg; ik_UserID := cik_UserID arg;
     ik_RequestMethod := cik_RequestMethod arg; ik_RequestPath := cik_RequestPath arg;
     ik_RequestHash := cik_RequestHash arg; ik_ResponseStatus := None; ik_ResponseHeaders := "";
     ik_ResponseBody := ""; ik_State := "in_flight"; ik_CreatedAt := t; ik_CompletedAt := None;
     ik_ExpiresAt := cik_ExpiresAt arg |}.

Definition BeginIdempotencyKey (arg : ClaimIdempotencyKeyParams) : M IdempotencyKey :=
  k ← idempotencyParamsKey (cik_UserID arg) (cik_Key arg);
  t ← now;
  let row := in_flight_row arg t in
  val ← Marshal row;
  resp ← raw_txn [CmpCreate k 0] [OpPut k val] [];
  if tr_Succeeded resp then mret row else fail ErrNotFound.

Definition idempotencyWithRev (userID : uuid) (key : string) : M (option (IdempotencyKey * Z)) :=
  r ← raw_get (idempotencyKeyKey userID key);
  match r with
  | None => mret None
  | Some e => match decode_doc (e_val e) with
              | Some row => mret (Some (row, e_mod e))
              | None => fail ErrDecode
              end
  end.

Definition ReclaimIdempotencyKey (arg : ClaimIdempotencyKeyParams) : M IdempotencyKey :=
  k ← idempotencyParamsKey (cik_UserID arg) (cik_Key arg);
  match cik_UserID arg with
  | None => fail (ErrOther "nil dereference")
  | Some user =>
    r ← idempotencyWithRev user (cik_Key arg);
    t ← now;
    match r with
    | None => fail ErrNotFound
    | Some (existing, modRev) =>
      if negb (ik_ExpiresAt existing <? t) then fail ErrNotFound
      else
        let row := in_flight_row arg t in
        val ← Marshal row;
        resp ← raw_txn [CmpMod k modRev] [OpPut k val] [];
        if tr_Succeeded resp then mret row else fail ErrNotFound
    end
  end.

(** The row with the response recorded. *)
Definition completed_row (row : IdempotencyKey) (arg : CompleteIdempotencyKeyParams) (t : Z)
    : IdempotencyKey :=
  row <| ik_State := "completed" |> <| ik_ResponseStatus := cip_ResponseStatus arg |>
      <| ik_ResponseHeaders := cip_ResponseHeaders arg |>
      <| ik_ResponseBody := cip_ResponseBody arg |> <| ik_ExpiresAt := cip_ExpiresAt arg |>
      <| ik_CompletedAt := Some t |>.

Definition CompleteIdempotencyKey (arg : CompleteIdempotencyKeyParams) : M unit :=
  k ← idempotencyParamsKey (cip_UserID arg) (cip_Key arg);
  match cip_UserID arg with
  | None => fail (ErrOther "nil dereference")
  | Some user =>
    r ← attempt (GetIdempotencyKey user (cip_Key arg));
    match r with
    | Err _ => mret tt
    | Ok row =>
      if negb (bool_decide (ik_State row = "in_flight")) then mret tt
      else
        t ← now;
        PutJSON k (completed_row row arg t)
    end
  end.

Definition DeleteIdempotencyKey (userID : uuid) (key : string) : M unit :=
  r ← attempt (GetIdempotencyKey userID key);
  match r with
  | Err _ => mret tt
  | Ok row =>
    if negb (bool_decide (ik_State row = "in_flight")) then mret tt
    else _ ← Delete (idempotencyKeyKey userID key); mret tt
  end.

(** A sweep over decoded rows fails on the first that does not decode. *)
Definition expired_keys {A} `{Codec A} (expires : A → Z) (t : Z) (items : list (string * doc))
    : M (list op) :=
  for_each items [] (λ kv ops,
    match decode_doc kv.2 with
    | None => fail ErrDecode
    | Some row => mret (if expires row <? t then ops ++ [OpDelete kv.1] else ops)
    end).

Definition DeleteExpiredIdempotencyKeys : M Z :=
  items ← Range idempotencyPrefix;
  t ← now;
  ops ← expired_keys ik_ExpiresAt t items;
  _ ← commitInChunks ops;
  mret (Z.of_nat (length ops)).

Definition DeleteExpiredIdempotencyTaskIndex : M Z :=
  items ← Range idempotencyTaskIndexPrefix;
  t ← now;
  ops ← expired_keys iti_ExpiresAt t items;
  _ ← commitInChunks ops;
  mret (Z.of_nat (length ops)).
End Store.

(** ** The middleware *)

Definition IdempotencyKeyMaxLength : nat := 255.
Definition IdempotencyTTL : Z := 24 * 3600 * 10 ^ 9.
Definition IdempotencyInFlightLease : Z := 2 * 60 * 10 ^ 9.

(** Headers: a map from names to values. *)
Abbreviation header := (gmap string (list string)).

(** A request as the middleware sees it; the body is [None] when reading it
    fails. *)
Record request_in := MkRequest {
  rq_Method : string;
  rq_Path : string;
  rq_Key : string;
  rq_User : option uuid;
  rq_Body : option bytes
}.

(** A response. *)
Record response := MkResponse {
  rs_Status : Z;
  rs_Header : header;
  rs_Body : bytes
}.

Record IdempotencyDescriptor := MkIdempotencyDescriptor { idd_Key : string; idd_Hash : bytes }.

Inductive idemAction := actionProceed | actionReplay | actionMismatch | actionInFlight.
#[export] Instance idemAction_eq_dec : EqDecision idemAction.
Proof. solve_decision. Defined.

Definition isMutatingMethod (m : string) : bool :=
  bool_decide (m ∈ ["POST"; "PUT"; "PATCH"; "DELETE"]).

Definition hopByHopHeaders : list string :=
  ["Connection"; "Content-Length"; "Date"; "Keep-Alive"; "Transfer-Encoding";
   "Proxy-Authenticate"; "Proxy-Authorization"; "Te"; "Trailer"; "Upgrade"].

Definition determineAction (row : IdempotencyKey) (userID : uuid) (method path : string)
    (hash : bytes) : idemAction :=
  if negb (bool_decide (ik_UserID row = Some userID)) then actionMismatch
  else if negb (bool_decide (ik_RequestMethod row = method)) ||
          negb (bool_decide (ik_RequestPath row = path)) then actionMismatch
  else if negb (bool_decide (ik_RequestHash row = hash)) then actionMismatch
  else if bool_decide (ik_State row = "in_flight") then actionInFlight
  else if bool_decide (ik_State row = "completed") then actionReplay
  else actionMismatch.

(** *** The recorder *)

(** What a handler does with its response writer: change the header map, or call
    [WriteHeader] or [Write]. *)
Inductive writer_call :=
| CallHeader (f : header → header)
| CallWriteHeader (status : Z)
| CallWrite (b : bytes).

(** What the middleware does with the real writer: a whole response, the error
    document [response.WriteError] renders for a status and a code, or the
    handler's own calls. *)
Inductive outcome :=
| Wrote (r : response)
| WroteError (status : Z) (code : string)
| PassedThrough (calls : list writer_call).

Record recorder := MkRecorder {
  rec_statusCode : Z;
  rec_body : bytes;
  rec_headers : header;
  rec_wroteHeader : bool
}.
#[export] Instance eta_recorder : Eta recorder := λ r,
  MkRecorder (rec_statusCode r) (rec_body r) (rec_headers r) (rec_wroteHeader r).

Definition newRecorder : recorder := MkRecorder 200 "" ∅ false.

Definition WriteHeader (r : recorder) (status : Z) : recorder :=
  if rec_wroteHeader r then r
  else r <| rec_wroteHeader := true |> <| rec_statusCode := status |>.

Definition Write (r : recorder) (b : bytes) : recorder :=
  let r := if rec_wroteHeader r then r else WriteHeader r 200 in
  r <| rec_body := rec_body r +:+ b |>.

Definition record_call (r : recorder) (c : writer_call) : recorder :=
  match c with
  | CallHeader f => r <| rec_headers := f (rec_headers r) |>
  | CallWriteHeader status => WriteHeader r status
  | CallWrite b => Write r b
  end.

Definition record (calls : list writer_call) : recorder := foldl record_call newRecorder calls.

Section Middleware.
Context `{Libs}.
(** [sha256.Sum256]; [http.CanonicalHeaderKey]; the JSON form of a header map;
    the downstream handler, which may use the store; the order in which a loop
    over a header map visits its entries, which Go leaves open. *)
Context (sha256 : bytes → bytes) (canonical : string → string)
        (marshal_header : header → option bytes) (unmarshal_header : bytes → option header)
        (next : option IdempotencyDescriptor → request_in → prog (list writer_call))
        (iter : header → list (string * list string)).

Definition tryBegin (key : string) (userID : uuid) (method path : string) (hash : bytes)
    : M (IdempotencyKey * idemAction) :=
  t ← now;
  r ← attempt (BeginIdempotencyKey (MkClaimIdempotencyKeyParams key (Some userID) method path hash
                                      (t + IdempotencyInFlightLease)));
  match r with
  | Ok row => mret (row, actionProceed)
  | Err ErrNotFound =>
    row ← GetIdempotencyKey userID key;
    mret (row, determineAction row userID method path hash)
  | Err e => fail e
  end.

Definition acquireKey (key : string) (userID : uuid) (method path : string) (hash : bytes)
    : M (IdempotencyKey * idemAction) :=
  r ← attempt (GetIdempotencyKey userID key);
  match r with
  | Err ErrNotFound => tryBegin key userID method path hash
  | Err e => fail e
  | Ok row =>
    t ← now;
    if ik_ExpiresAt row <? t then
      t2 ← now;
      r ← attempt (ReclaimIdempotencyKey (MkClaimIdempotencyKeyParams key (Some userID) method path
                                            hash (t2 + IdempotencyInFlightLease)));
      match r with
      | Ok row => mret (row, actionProceed)
      | Err ErrNotFound =>
        row ← GetIdempotencyKey userID key;
        mret (row, determineAction row userID method path hash)
      | Err e => fail e
      end
    else mret (row, determineAction row userID method path hash)
  end.

Definition encodeHeaders (h : header) : option bytes :=
  if bool_decide (h = ∅) then Some "{}" else marshal_header h.

Definition decodeHeaders (b : bytes) : option header :=
  match b with EmptyString => Some ∅ | _ => unmarshal_header b end.

(** Errors of the settle are logged, not returned. *)
Definition finalizeKey (userID : uuid) (key : string) (rec : recorder) : M unit :=
  if (200 <=? rec_statusCode rec) && (rec_statusCode rec <? 300) then
    match encodeHeaders (rec_headers rec) with
    | None => mret tt
    | Some hdr =>
      t ← now;
      _ ← attempt (CompleteIdempotencyKey (MkCompleteIdempotencyKeyParams (Some userID)
             (Some (i32 (rec_statusCode rec))) hdr (rec_body rec) (t + IdempotencyTTL) key));
      mret tt
    end
  else
    _ ← attempt (DeleteIdempotencyKey userID key); mret tt.

(** [http.Header.Add]. *)
Definition header_add (k : string) (h : header) (v : string) : header :=
  <[canonical k := default [] (h !! canonical k) ++ [v]]> h.

(** The copy loop of [replayCachedResponse] and [flush]: every value of every
    header that is not hop-by-hop is added. *)
Definition copy_header (dst : header) (kvs : string * list string) : header :=
  if bool_decide (canonical kvs.1 ∈ hopByHopHeaders) then dst
  else foldl (header_add kvs.1) dst kvs.2.

Definition end_to_end (dst h : header) : header := foldl copy_header dst (iter h).

(** [dst] is the header map of the real writer. *)
Definition replayCachedResponse (dst : header) (row : IdempotencyKey) : response :=
  {| rs_Status := default 200 (ik_ResponseStatus row);
     rs_Header := match decodeHeaders (ik_ResponseHeaders row) with
                  | Some h => end_to_end dst h
                  | None => dst
                  end;
     rs_Body := ik_ResponseBody row |}.

Definition flush (dst : header) (rec : recorder) : response :=
  MkResponse (rec_statusCode rec) (end_to_end dst (rec_headers rec)) (rec_body rec).

Definition pass_through (r : request_in) : prog outcome :=
  prog_bind (λ calls, Ret (PassedThrough calls)) (next None r).

(** The middleware around [next]. *)
Definition Idempotency (dst : header) (r : request_in) : prog outcome :=
  if negb (isMutatingMethod (rq_Method r)) then pass_through r
  else if bool_decide (rq_Key r = "") then pass_through r
  else if (IdempotencyKeyMaxLength <? String.length (rq_Key r))%nat then
    Ret (WroteError 400 "validation_failed")
  else match rq_User r with
  | None => Ret (WroteError 401 "unauthenticated")
  | Some user =>
    match rq_Body r with
    | None => Ret (WroteError 400 "validation_failed")
    | Some body =>
      let hash := sha256 body in
      prog_bind (λ a, match a with
        | Err _ => Ret (WroteError 500 "internal")
        | Ok (row, actionReplay) => Ret (Wrote (replayCachedResponse dst row))
        | Ok (_, actionMismatch) => Ret (WroteError 409 "idempotency_key_mismatch")
        | Ok (_, actionInFlight) => Ret (WroteError 409 "conflict")
        | Ok (_, actionProceed) =>
          prog_bind (λ calls,
            let rec := record calls in
            prog_bind (λ _, Ret (Wrote (flush dst rec))) (finalizeKey user (rq_Key r) rec))
            (next (Some (MkIdempotencyDescriptor (rq_Key r) hash)) r)
        end) (acquireKey (rq_Key r) user (rq_Method r) (rq_Path r) hash)
    end
  end.
End Middleware.
