(* ===== verification/Accounts.v ===== *)
(** * Users and API tokens: internal/etcdstore/users.go and api_tokens.go

    A user row is found by its id; a guard key per username, and one per email
    when the user has one, holds the id of the live user with that name.  API
    tokens are indexed by owner and by the hash of their secret. *)

From S2P Require Import Prelude Models Etcd Prog Keys Client.
Local Open Scope Z_scope.

Record CreateUserParams := MkCreateUserParams {
  cup_ID : uuid;
  cup_Username : string;
  cup_Email : string;
  cup_PasswordHash : string;
  cup_DisplayName : string;
  cup_Role : string
}.

Record UpdateUserParams := MkUpdateUserParams {
  uup_Email : string;
  uup_PasswordHash : string;
  uup_DisplayName : string;
  uup_Role : string;
  uup_ID : uuid
}.

Record ListUsersParams := MkListUsersParams {
  lup_CursorCreatedAt : option time;
  lup_CursorID : option uuid;
  lup_LimitCount : Z
}.

Record CountUserResourcesRow := MkCountUserResourcesRow { cur_Vms : Z; cur_Snapshots : Z }.

Record CreateApiTokenParams := MkCreateApiTokenParams {
  catp_ID : uuid;
  catp_UserID : uuid;
  catp_Name : string;
  catp_TokenHash : bytes;
  catp_Prefix : string;
  catp_ExpiresAt : option time
}.

Record ListApiTokensByUserParams := MkListApiTokensByUserParams {
  latp_UserID : uuid;
  latp_IncludeRevoked : bool;
  latp_CursorCreatedAt : option time;
  latp_CursorID : option uuid;
  latp_LimitCount : Z
}.

Section Accounts.
Context `{Libs}.

(** ** Order of listings *)

Definition afterCursor (createdAt : time) (id : uuid) (cursorCreatedAt : option time)
    (cursorID : option uuid) : bool :=
  match cursorCreatedAt, cursorID with
  | Some c, Some cid =>
    if negb (createdAt =? c) then c <? createdAt else str_ltb (uuid_string cid) (uuid_string id)
  | _, _ => true
  end.

Definition older (t1 : time) (id1 : uuid) (t2 : time) (id2 : uuid) : bool :=
  if negb (t1 =? t2) then t1 <? t2 else str_ltb (uuid_string id1) (uuid_string id2).

Definition sortByCreatedAtID {A} (key : A → time * uuid) (items : list A) : list A :=
  stable_sort (λ a b, older (key a).1 (key a).2 (key b).1 (key b).2) items.

(** ** API tokens *)

Definition APITokenByID (id : uuid) : M ApiToken :=
  r ← GetJSON (apiTokenKey id);
  match r with Some tok => mret tok | None => fail ErrNotFound end.

Definition new_api_token (arg : CreateApiTokenParams) (t : Z) : ApiToken :=
  {| at_ID := catp_ID arg; at_UserID := catp_UserID arg; at_Name := catp_Name arg;
     at_TokenHash := catp_TokenHash arg; at_Prefix := catp_Prefix arg; at_Scopes := [];
     at_LastUsedAt := None; at_ExpiresAt := catp_ExpiresAt arg; at_RevokedAt := None;
     at_CreatedAt := t |}.

Definition CreateAPIToken (arg : CreateApiTokenParams) : M ApiToken :=
  t ← now;
  let tok := new_api_token arg t in
  val ← Marshal tok;
  _ ← raw_txn []
        [OpPut (apiTokenKey (at_ID tok)) val;
         OpPut (apiTokenUserIndexKey (at_UserID tok) (at_ID tok)) (DStr (uuid_string (at_ID tok)));
         OpPut (apiTokenHashIndexKey (at_TokenHash tok)) (DStr (uuid_string (at_ID tok)))] [];
  mret tok.

(** The id an index entry holds. *)
Definition indexed_id (v : doc) : option uuid :=
  match v with DStr s => uuid_parse s | _ => None end.

Definition ListAPITokensByUser (arg : ListApiTokensByUserParams) : M (list ApiToken) :=
  items ← Range (apiTokenUserIndexPrefix (latp_UserID arg));
  out ← for_each items [] (λ kv out,
    match indexed_id kv.2 with
    | None => fail ErrDecode
    | Some id =>
      r ← attempt (APITokenByID id);
      match r with
      | Err _ => mret out
      | Ok tok =>
        if negb (bool_decide (at_RevokedAt tok = None)) && negb (latp_IncludeRevoked arg) then mret out
        else if negb (afterCursor (at_CreatedAt tok) (at_ID tok) (latp_CursorCreatedAt arg)
                        (latp_CursorID arg)) then mret out
        else mret (out ++ [tok])
      end
    end);
  mret (limit (latp_LimitCount arg) (sortByCreatedAtID (λ t, (at_CreatedAt t, at_ID t)) out)).

Definition RevokeAPIToken (id : uuid) : M unit :=
  r ← attempt (APITokenByID id);
  match r with
  | Err ErrNotFound => mret tt
  | Err e => fail e
  | Ok tok =>
    if negb (bool_decide (at_RevokedAt tok = None)) then mret tt
    else t ← now; PutJSON (apiTokenKey id) (tok <| at_RevokedAt := Some t |>)
  end.

(** A token that authenticates. *)
Definition api_token_valid (tok : ApiToken) (t : Z) : bool :=
  bool_decide (at_RevokedAt tok = None) &&
  match at_ExpiresAt tok with None => true | Some e => t <? e end.

Definition APITokenByHash (hash : bytes) : M ApiToken :=
  r ← resolveGuard (apiTokenHashIndexKey hash);
  match r with
  | None => fail ErrNotFound
  | Some id =>
    r ← GetJSON (apiTokenKey id);
    match r with
    | None => fail ErrNotFound
    | Some tok => t ← now; if api_token_valid tok t then mret tok else fail ErrNotFound
    end
  end.

Definition TouchAPIToken (id : uuid) : M unit :=
  r ← GetJSON (apiTokenKey id);
  match r with
  | None => mret tt
  | Some tok => t ← now; PutJSON (apiTokenKey id) (tok <| at_LastUsedAt := Some t |>)
  end.

(** ** Users *)

Definition UserByID (id : uuid) : M User :=
  r ← GetJSON (userKey id);
  match r with
  | Some u => if bool_decide (user_DeletedAt u = None) then mret u else fail ErrNotFound
  | None => fail ErrNotFound
  end.

(** [UserByEmail] and [UserByUsername] resolve a guard to a user. *)
Definition user_by_guard (guard : string) : M User :=
  r ← Get guard;
  match r with
  | None => fail ErrNotFound
  | Some v => match indexed_id v with
              | None => fail ErrDecode
              | Some id => UserByID id
              end
  end.

Definition UserByEmail (email : string) : M User := user_by_guard (userEmailGuard email).
Definition UserByUsername (username : string) : M User := user_by_guard (userUsernameGuard username).

Definition new_user (arg : CreateUserParams) (t : Z) : User :=
  {| user_ID := cup_ID arg; user_Username := cup_Username arg; user_Email := cup_Email arg;
     user_PasswordHash := cup_PasswordHash arg; user_DisplayName := cup_DisplayName arg;
     user_Role := cup_Role arg; user_LastLoginAt := None; user_CreatedAt := t; user_UpdatedAt := t;
     user_DeletedAt := None |}.

(** Whether a guard exists, a failed read counting as no. *)
Definition guard_taken (guard : string) : M bool :=
  r ← attempt (Get guard);
  mret (match r with Ok (Some _) => true | _ => false end).

Definition CreateUser (arg : CreateUserParams) : M User :=
  t ← now;
  let u := new_user arg t in
  val ← Marshal u;
  let usernameGuard := userUsernameGuard (user_Username u) in
  let emailGuard := userEmailGuard (user_Email u) in
  let has_email := negb (bool_decide (user_Email u = "")) in
  let id := DStr (uuid_string (user_ID u)) in
  resp ← raw_txn (CmpCreate usernameGuard 0 :: if has_email then [CmpCreate emailGuard 0] else [])
           ([OpPut (userKey (user_ID u)) val; OpPut usernameGuard id] ++
            if has_email then [OpPut emailGuard id] else []) [];
  if tr_Succeeded resp then mret u
  else
    taken ← guard_taken usernameGuard;
    if taken : bool then fail ErrUserUsernameExists
    else if has_email then
      taken ← guard_taken emailGuard;
      if taken : bool then fail ErrUserEmailExists else fail ErrUserUsernameExists
    else fail ErrUserUsernameExists.

Definition updated_user (u : User) (arg : UpdateUserParams) (t : Z) : User :=
  u <| user_Email := uup_Email arg |> <| user_PasswordHash := uup_PasswordHash arg |>
    <| user_DisplayName := uup_DisplayName arg |> <| user_Role := uup_Role arg |>
    <| user_UpdatedAt := t |>.

Definition UpdateUser (arg : UpdateUserParams) : M User :=
  existing ← UserByID (uup_ID arg);
  t ← now;
  let updated := updated_user existing arg t in
  val ← Marshal updated;
  if bool_decide (user_Email existing = uup_Email arg) then
    _ ← Put (userKey (uup_ID arg)) val; mret updated
  else
    let newGuard := userEmailGuard (uup_Email arg) in
    let has_email := negb (bool_decide (uup_Email arg = "")) in
    resp ← raw_txn (if has_email then [CmpCreate newGuard 0] else [])
             (OpPut (userKey (uup_ID arg)) val ::
              (if has_email then [OpPut newGuard (DStr (uuid_string (uup_ID arg)))] else []) ++
              if negb (bool_decide (user_Email existing = ""))
              then [OpDelete (userEmailGuard (user_Email existing))] else []) [];
    if tr_Succeeded resp then mret updated else fail ErrUserEmailExists.

(** The rows of a listing: a row that does not decode fails it. *)
Definition decode_all {A} `{Codec A} (items : list (string * doc)) : M (list A) :=
  for_each items [] (λ kv out,
    match decode_doc kv.2 with Some a => mret (out ++ [a]) | None => fail ErrDecode end).

Definition ListUsers (arg : ListUsersParams) : M (list User) :=
  items ← Range userPrefix;
  users ← decode_all items;
  mret (limit (lup_LimitCount arg) (sortByCreatedAtID (λ u, (user_CreatedAt u, user_ID u))
    (filter (λ u, user_DeletedAt u = None ∧
       Is_true (afterCursor (user_CreatedAt u) (user_ID u) (lup_CursorCreatedAt arg) (lup_CursorID arg)))
       users))).

Definition countPrefix (prefix : string) : M Z :=
  items ← Range prefix; mret (Z.of_nat (length items)).

Definition CountUserResources (id : uuid) : M CountUserResourcesRow :=
  vms ← countPrefix (vmsOwnerPrefix id);
  snapshots ← countPrefix (snapshotsOwnerPrefix id);
  mret (MkCountUserResourcesRow vms snapshots).

(** One token of the cascade of a user delete. *)
Definition revoke_op (t : Z) (v : doc) (ops : list op) : M (list op) :=
  match indexed_id v with
  | None => fail ErrDecode
  | Some tokenID =>
    r ← attempt (APITokenByID tokenID);
    match r with
    | Err ErrNotFound => mret ops
    | Err e => fail e
    | Ok tok =>
      if negb (bool_decide (at_RevokedAt tok = None)) then mret ops
      else
        val ← Marshal (tok <| at_RevokedAt := Some t |>);
        mret (ops ++ [OpPut (apiTokenKey tokenID) val])
    end
  end.

Definition revokeUserAPITokenOps (userID : uuid) (revokedAt : Z) : M (list op) :=
  items ← Range (apiTokenUserIndexPrefix userID);
  for_each items [] (λ kv ops, revoke_op revokedAt kv.2 ops).

Definition DeleteUser (id : uuid) : M unit :=
  existing ← UserByID id;
  t ← now;
  val ← Marshal (existing <| user_DeletedAt := Some t |>);
  revokeOps ← revokeUserAPITokenOps id t;
  _ ← raw_txn []
        ([OpPut (userKey id) val; OpDelete (userUsernameGuard (user_Username existing))] ++
         (if negb (bool_decide (user_Email existing = ""))
          then [OpDelete (userEmailGuard (user_Email existing))] else []) ++ revokeOps) [];
  mret tt.

Definition CountAdmins : M Z :=
  items ← Range userPrefix;
  users ← decode_all items;
  mret (Z.of_nat (length
    (filter (λ u, user_DeletedAt u = None ∧ user_Role u = "admin") (users : list User)))).

Fixpoint cas_user_attempts (attempts : nat) (id : uuid) (mutate : User → User) : M User :=
  match attempts with
  | O => fail ErrConcurrentUpdate
  | S attempts =>
    r ← raw_get (userKey id);
    match r with
    | None => fail ErrNotFound
    | Some e =>
      match decode_doc (e_val e) with
      | None => fail ErrDecode
      | Some u =>
        if negb (bool_decide (user_DeletedAt u = None)) then fail ErrNotFound
        else
          val ← Marshal (mutate u);
          resp ← raw_txn [CmpMod (userKey id) (e_mod e)] [OpPut (userKey id) val] [];
          if tr_Succeeded resp then mret (mutate u) else cas_user_attempts attempts id mutate
      end
    end
  end.

Definition casUserUpdate (id : uuid) (mutate : User → User) : M User := cas_user_attempts 5 id mutate.

Definition TouchUserLastLogin (id : uuid) : M unit :=
  t ← now;
  r ← attempt (casUserUpdate id (λ u, u <| user_LastLoginAt := Some t |>));
  match r with
  | Ok _ | Err ErrNotFound => mret tt
  | Err e => fail e
  end.
End Accounts.
