(* ===== verification/RefreshTokens.v ===== *)
(** * Refresh tokens: internal/etcdstore/refresh_tokens.go

    Refresh tokens rotate: presenting one revokes it and issues its child in the
    same family.  A family is burned by writing its barrier, which keeps
    rotations out, and then revoking every token the family index lists. *)

From S2P Require Import Prelude Models Etcd Prog Keys Client Accounts.
Local Open Scope Z_scope.

Record CreateRefreshTokenParams := MkCreateRefreshTokenParams {
  crt_ID : uuid;
  crt_UserID : uuid;
  crt_TokenHash : bytes;
  crt_FamilyID : uuid;
  crt_ParentID : option uuid;
  crt_UserAgent : option string;
  crt_IpAddress : option string;
  crt_ExpiresAt : time
}.

Definition barrierSkew : Z := 24 * 3600 * 10 ^ 9.

Section RefreshTokens.
Context `{Libs} (refreshTokenTTL : Z).

Definition refreshTokenFromParams (arg : CreateRefreshTokenParams) (t : Z) : RefreshToken :=
  {| rft_ID := crt_ID arg; rft_UserID := crt_UserID arg; rft_TokenHash := crt_TokenHash arg;
     rft_FamilyID := crt_FamilyID arg; rft_ParentID := crt_ParentID arg;
     rft_UserAgent := crt_UserAgent arg; rft_IpAddress := crt_IpAddress arg; rft_IssuedAt := t;
     rft_ExpiresAt := crt_ExpiresAt arg; rft_RevokedAt := None; rft_LastUsedAt := None |}.

Definition refreshTokenWriteOps (row : RefreshToken) (val : doc) : list op :=
  let id := DStr (uuid_string (rft_ID row)) in
  [OpPut (refreshTokenKey (rft_ID row)) val;
   OpPut (refreshTokenHashIndexKey (rft_TokenHash row)) id;
   OpPut (refreshTokenFamilyIndexKey (rft_FamilyID row) (rft_ID row)) id;
   OpPut (refreshTokenUserIndexKey (rft_UserID row) (rft_ID row)) id].

Definition CreateRefreshToken (arg : CreateRefreshTokenParams) : M RefreshToken :=
  t ← now;
  let row := refreshTokenFromParams arg t in
  val ← Marshal row;
  _ ← raw_txn [] (refreshTokenWriteOps row val) [];
  mret row.

Definition RefreshTokenByHash (hash : bytes) : M RefreshToken :=
  r ← resolveGuard (refreshTokenHashIndexKey hash);
  match r with
  | None => fail ErrNotFound
  | Some id =>
    r ← GetJSON (refreshTokenKey id);
    match r with Some row => mret row | None => fail ErrNotFound end
  end.

Definition revoked (row : RefreshToken) (t : Z) : RefreshToken := row <| rft_RevokedAt := Some t |>.
Definition is_revoked (row : RefreshToken) : bool := negb (bool_decide (rft_RevokedAt row = None)).

Definition RevokeRefreshToken (id : uuid) : M unit :=
  r ← GetJSON (refreshTokenKey id);
  match r with
  | None => mret tt
  | Some row =>
    if is_revoked row then mret tt
    else t ← now; PutJSON (refreshTokenKey id) (revoked row t)
  end.

Definition putFamilyBarrier (familyID : uuid) : M unit :=
  t ← now;
  val ← Marshal (MkFamilyBarrier (t + (refreshTokenTTL + barrierSkew)));
  Put (refreshFamilyBarrierKey familyID) val.

(** One entry of the index. *)
Definition revoke_indexed_op (t : Z) (v : doc) (ops : list op) : M (list op) :=
  match indexed_id v with
  | None => fail ErrDecode
  | Some id =>
    r ← GetJSON (refreshTokenKey id);
    match r with
    | None => mret ops
    | Some row =>
      if is_revoked row then mret ops
      else
        val ← Marshal (revoked row t);
        mret (ops ++ [OpPut (refreshTokenKey id) val])
    end
  end.

Definition revokeIndexed (indexPrefix : string) : M unit :=
  items ← Range indexPrefix;
  t ← now;
  ops ← for_each items [] (λ kv ops, revoke_indexed_op t kv.2 ops);
  commitInChunks ops.

Definition burnFamiliesAndSweep (families : list uuid) : M unit :=
  _ ← for_each families tt (λ f _, putFamilyBarrier f);
  for_each families tt (λ f _, revokeIndexed (refreshTokenFamilyIndexPrefix f)).

Definition RevokeRefreshTokenFamily (familyID : uuid) : M unit := burnFamiliesAndSweep [familyID].

(** The families seen so far are those collected. *)
Definition userTokenFamilies (userID : uuid) : M (list uuid) :=
  items ← Range (refreshTokenUserIndexPrefix userID);
  for_each items [] (λ kv families,
    match indexed_id kv.2 with
    | None => fail ErrDecode
    | Some id =>
      r ← GetJSON (refreshTokenKey id);
      match r with
      | None => mret families
      | Some row =>
        if bool_decide (rft_FamilyID row ∈ families) then mret families
        else mret (families ++ [rft_FamilyID row])
      end
    end).

Definition RevokeAllUserRefreshTokens (userID : uuid) : M unit :=
  families ← userTokenFamilies userID;
  burnFamiliesAndSweep families.

Fixpoint cas_refresh_attempts (attempts : nat) (id : uuid) (mutate : RefreshToken → RefreshToken)
    : M RefreshToken :=
  match attempts with
  | O => fail ErrConcurrentUpdate
  | S attempts =>
    r ← raw_get (refreshTokenKey id);
    match r with
    | None => fail ErrNotFound
    | Some e =>
      match decode_doc (e_val e) with
      | None => fail ErrDecode
      | Some row =>
        val ← Marshal (mutate row);
        resp ← raw_txn [CmpMod (refreshTokenKey id) (e_mod e)] [OpPut (refreshTokenKey id) val] [];
        if tr_Succeeded resp then mret (mutate row) else cas_refresh_attempts attempts id mutate
      end
    end
  end.

Definition casRefreshTokenUpdate (id : uuid) (mutate : RefreshToken → RefreshToken) : M RefreshToken :=
  cas_refresh_attempts 5 id mutate.

Definition TouchRefreshToken (id : uuid) : M unit :=
  t ← now;
  r ← attempt (casRefreshTokenUpdate id (λ row, row <| rft_LastUsedAt := Some t |>));
  match r with
  | Ok _ | Err ErrNotFound => mret tt
  | Err e => fail e
  end.

Definition RotateRefreshToken (parentID : uuid) (child : CreateRefreshTokenParams) : M RefreshToken :=
  r ← raw_get (refreshTokenKey parentID);
  match r with
  | None => fail ErrNotFound
  | Some e =>
    match decode_doc (e_val e) with
    | None => fail ErrDecode
    | Some parent =>
      if is_revoked parent then fail ErrRefreshTokenConflict
      else if negb (bool_decide (crt_FamilyID child = rft_FamilyID parent)) then
        fail (ErrOther "rotate refresh token: child family differs from parent family")
      else
        t ← now;
        parentVal ← Marshal (revoked parent t);
        let childRow := refreshTokenFromParams child t in
        childVal ← Marshal childRow;
        resp ← raw_txn [CmpMod (refreshTokenKey parentID) (e_mod e);
                        CmpCreate (refreshFamilyBarrierKey (rft_FamilyID parent)) 0]
                 (OpPut (refreshTokenKey parentID) parentVal ::
                  refreshTokenWriteOps childRow childVal) [];
        if tr_Succeeded resp then mret childRow else fail ErrRefreshTokenConflict
    end
  end.

(** ** The sweep of expired tokens and barriers *)

Definition expired_token_ops (row : RefreshToken) : list op :=
  [OpDelete (refreshTokenKey (rft_ID row));
   OpDelete (refreshTokenHashIndexKey (rft_TokenHash row));
   OpDelete (refreshTokenFamilyIndexKey (rft_FamilyID row) (rft_ID row));
   OpDelete (refreshTokenUserIndexKey (rft_UserID row) (rft_ID row))].

Definition expired_tokens (cutoff : Z) (items : list (string * doc)) : M (list op * Z) :=
  for_each items ([], 0) (λ kv s,
    match decode_doc kv.2 with
    | None => fail ErrDecode
    | Some row =>
      if negb (rft_ExpiresAt row <? cutoff) then mret s
      else mret (s.1 ++ expired_token_ops row, s.2 + 1)
    end).

Definition expired_barriers (cutoff : Z) (items : list (string * doc)) (ops : list op) : M (list op) :=
  for_each items ops (λ kv ops,
    match decode_doc kv.2 with
    | None => fail ErrDecode
    | Some b => mret (if fb_ExpiresAt b <? cutoff then ops ++ [OpDelete kv.1] else ops)
    end).

Definition DeleteExpiredRefreshTokens (cutoff : Z) : M Z :=
  items ← Range refreshTokenPrefix;
  '(ops, deleted) ← expired_tokens cutoff items;
  barriers ← Range refreshFamilyBarrierPrefix;
  ops ← expired_barriers cutoff barriers ops;
  _ ← commitInChunks ops;
  mret deleted.
End RefreshTokens.
