(* ===== verification/AuthService.v ===== *)
(** * Sessions: internal/auth/service.go, refresh.go, tokens.go, roles.go, jwt.go

    Login, refresh, logout and the verification of credentials, as programs over
    the stores of users and tokens.  The password hash, SHA-256, the JWT library
    and the source of random bytes are parameters. *)

From S2P Require Import Prelude Models Etcd Prog Keys Client Base64 Accounts RefreshTokens.
Import Base64.
Local Open Scope Z_scope.

Inductive Role := RoleAdmin | RoleOperator | RoleDeveloper | RoleViewer.
#[export] Instance Role_eq_dec : EqDecision Role.
Proof. solve_decision. Defined.

Definition Role_string (r : Role) : string :=
  match r with
  | RoleAdmin => "admin"
  | RoleOperator => "operator"
  | RoleDeveloper => "developer"
  | RoleViewer => "viewer"
  end.

Definition ParseRole (s : string) : option Role :=
  if bool_decide (s = "admin") then Some RoleAdmin
  else if bool_decide (s = "operator") then Some RoleOperator
  else if bool_decide (s = "developer") then Some RoleDeveloper
  else if bool_decide (s = "viewer") then Some RoleViewer
  else None.

Record AccessClaims := MkAccessClaims {
  ac_Role : string;
  ac_Subject : string;
  ac_Issuer : string;
  ac_IssuedAt : Z;
  ac_NotBefore : Z;
  ac_ExpiresAt : Z;
  ac_ID : string
}.

(** What [jwt.ParseWithClaims] reports, with the options of [ParseAccessToken]. *)
Inductive jwt_outcome :=
| JwtParsed (claims : AccessClaims)
| JwtExpired
| JwtInvalid.

Record Config := MkConfig { cfg_JWTSecret : bytes; cfg_JWTAccessTTL : Z; cfg_RefreshTTL : Z }.

(** An invalid [netip.Addr] is [None]. *)
Record Credentials := MkCredentials {
  cr_Username : string;
  cr_Password : string;
  cr_UserAgent : string;
  cr_IP : option string
}.

Record TokenPair := MkTokenPair {
  tp_AccessToken : string;
  tp_AccessExpiresIn : Z;
  tp_RefreshToken : string
}.

Inductive AuthType := TypeJWT | TypeAPIToken.

(** The principal, [auth.User]. *)
Record Principal := MkPrincipal {
  prin_ID : uuid;
  prin_Role : Role;
  prin_Type : AuthType;
  prin_JWTID : option uuid;
  prin_APITokenID : option uuid
}.

Definition jwtIssuer : string := "otherix".
Definition apiTokenPrefix : string := "otx_".

Definition nullableString (s : string) : option string :=
  if bool_decide (s = "") then None else Some s.

(** [fmt.Errorf("msg: %v", err)] keeps the message and drops the sentinel. *)
Definition wrapped {A} (msg : string) (m : M A) : M A :=
  r ← attempt m;
  match r with Ok a => mret a | Err _ => fail (ErrOther msg) end.

Section Service.
Context `{Libs}.
(** [VerifyPassword] (argon2id), [None] for an error; [sha256.Sum256]; HS256 signing; JWT parsing at a time;
    thirty-two bytes of [crypto/rand], which may fail. *)
Context (VerifyPassword : string → string → option bool)
        (sha256 : bytes → bytes) (sign : bytes → AccessClaims → option string)
        (jwt_parse : bytes → string → Z → jwt_outcome) (rand_read : M bytes) (cfg : Config).

Definition HashToken (plaintext : string) : bytes := sha256 plaintext.

Definition GenerateRefreshToken : M (string * bytes) :=
  buf ← rand_read;
  let plaintext := EncodeToString buf in
  mret (plaintext, HashToken plaintext).

(** A [NumericDate] has whole seconds. *)
Definition numeric_date (t : Z) : Z := t / 10 ^ 9.

Definition IssueAccessToken (userID : uuid) (role : Role) : M string :=
  t ← now;
  jti ← new_uuid;
  let claims := MkAccessClaims (Role_string role) (uuid_string userID) jwtIssuer (numeric_date t)
    (numeric_date t) (numeric_date (t + cfg_JWTAccessTTL cfg)) (uuid_string jti) in
  match sign (cfg_JWTSecret cfg) claims with
  | Some signed => mret signed
  | None => fail (ErrOther "sign access token")
  end.

Definition buildTokenPair (userID : uuid) (role : Role) (familyID : uuid) (parentID : option uuid)
    (ua : string) (ip : option string) : M (TokenPair * CreateRefreshTokenParams) :=
  access ← IssueAccessToken userID role;
  '(plainRefresh, refreshHash) ← GenerateRefreshToken;
  id ← new_uuid;
  t ← now;
  let params := MkCreateRefreshTokenParams id userID refreshHash familyID parentID
    (nullableString ua) ip (t + cfg_RefreshTTL cfg) in
  mret (MkTokenPair access (cfg_JWTAccessTTL cfg / 10 ^ 9) plainRefresh, params).

Definition Login (creds : Credentials) : M TokenPair :=
  r ← attempt (UserByUsername (cr_Username creds));
  match r with
  | Err ErrNotFound => fail ErrInvalidCredentials
  | Err _ => fail (ErrOther "lookup user")
  | Ok user =>
    match VerifyPassword (user_PasswordHash user) (cr_Password creds) with
    | Some true =>
      match ParseRole (user_Role user) with
      | None => fail ErrInvalidCredentials
      | Some role =>
        familyID ← new_uuid;
        '(tokens, params) ← buildTokenPair (user_ID user) role familyID None (cr_UserAgent creds) (cr_IP creds);
        _ ← wrapped "persist refresh token" (CreateRefreshToken params);
        _ ← attempt (TouchUserLastLogin (user_ID user));
        mret tokens
      end
    | _ => fail ErrInvalidCredentials
    end
  end.

Definition burnFamily {A} (familyID : uuid) : M A :=
  _ ← wrapped "revoke family on replay" (RevokeRefreshTokenFamily (cfg_RefreshTTL cfg) familyID);
  fail ErrTokenReplay.

(** What [Refresh] does with a presented token that is neither revoked nor
    expired, once its user is known. *)
Definition rotate (row : RefreshToken) (user : User) (ua : string) (ip : option string) : M TokenPair :=
  match ParseRole (user_Role user) with
  | None => fail ErrInvalidToken
  | Some role =>
    '(tokens, childParams) ← buildTokenPair (user_ID user) role (rft_FamilyID row) (Some (rft_ID row)) ua ip;
    r ← attempt (RotateRefreshToken (rft_ID row) childParams);
    match r with
    | Err ErrRefreshTokenConflict => burnFamily (rft_FamilyID row)
    | Err _ => fail (ErrOther "rotate refresh token")
    | Ok _ => _ ← attempt (TouchRefreshToken (rft_ID row)); mret tokens
    end
  end.

Definition Refresh (plaintext ua : string) (ip : option string) : M TokenPair :=
  r ← attempt (RefreshTokenByHash (HashToken plaintext));
  match r with
  | Err ErrNotFound => fail ErrInvalidToken
  | Err _ => fail (ErrOther "lookup refresh token")
  | Ok row =>
    if is_revoked row then burnFamily (rft_FamilyID row)
    else
      t ← now;
      if rft_ExpiresAt row <? t then fail ErrTokenExpired
      else
        r ← attempt (UserByID (rft_UserID row));
        match r with
        | Err ErrNotFound => _ ← attempt (RevokeRefreshToken (rft_ID row)); fail ErrInvalidToken
        | Err _ => fail (ErrOther "lookup user")
        | Ok user => rotate row user ua ip
        end
  end.

Definition Logout (plaintext : string) : M unit :=
  r ← attempt (RefreshTokenByHash (HashToken plaintext));
  match r with
  | Err ErrNotFound => mret tt
  | Err _ => fail (ErrOther "lookup refresh token")
  | Ok row => RevokeRefreshToken (rft_ID row)
  end.

Definition LogoutAll (userID : uuid) : M unit :=
  RevokeAllUserRefreshTokens (cfg_RefreshTTL cfg) userID.

Definition ParseAccessToken (raw : string) (t : Z) : result err AccessClaims :=
  match jwt_parse (cfg_JWTSecret cfg) raw t with
  | JwtParsed claims => Ok claims
  | JwtExpired => Err ErrTokenExpired
  | JwtInvalid => Err ErrInvalidToken
  end.

Definition VerifyAccessToken (raw : string) : M Principal :=
  t ← now;
  match ParseAccessToken raw t with
  | Err e => fail e
  | Ok claims =>
    match uuid_parse (ac_Subject claims), uuid_parse (ac_ID claims), ParseRole (ac_Role claims) with
    | Some uid, Some jid, Some role => mret (MkPrincipal uid role TypeJWT (Some jid) None)
    | _, _, _ => fail ErrInvalidToken
    end
  end.

Definition IsAPITokenFormat (s : string) : bool := String.prefix apiTokenPrefix s.

Definition VerifyAPIToken (plaintext : string) : M Principal :=
  if negb (IsAPITokenFormat plaintext) then fail ErrInvalidToken
  else
    r ← attempt (APITokenByHash (HashToken plaintext));
    match r with
    | Err ErrNotFound => fail ErrInvalidToken
    | Err _ => fail (ErrOther "lookup api token")
    | Ok row =>
      r ← attempt (UserByID (at_UserID row));
      match r with
      | Err ErrNotFound => fail ErrInvalidToken
      | Err _ => fail (ErrOther "lookup user")
      | Ok user =>
        match ParseRole (user_Role user) with
        | None => fail ErrInvalidToken
        | Some role =>
          _ ← attempt (TouchAPIToken (at_ID row));
          mret (MkPrincipal (user_ID user) role TypeAPIToken None (Some (at_ID row)))
        end
      end
    end.
End Service.
