(* ===== verification/VMs.v ===== *)
(** * Virtual machines: internal/etcdstore/vms.go, vms_schedule.go, vms_create.go,
    vms_project.go and vm_nics.go

    A VM is admitted unscheduled, bound to a node by the scheduler (with its disk,
    its interface and that interface's address, its task and its job in one
    transaction), and written by the workers that run its create, lifecycle and
    delete tasks.  The address of an interface is the lowest free one of the
    network's subnet, fixed by a reservation key. *)

From Stdlib Require Import Ascii.
From S2P Require Import Prelude Models Strconv Netip Etcd Prog Keys Client Jobs Tasks Nodes Migrations DeleteIntent.
Local Open Scope Z_scope.

(** What the scheduler decided: the node, the rows and the job of a bind. *)
Record VMBindWrites := MkVMBindWrites {
  vbw_PinnedNodeID : uuid;
  vbw_Disk : CreateVMDiskParams;
  vbw_Nic : option CreateVMNicParams;
  vbw_Task : CreateTaskParams;
  vbw_Job : JobArgs
}.

Section VMs.
Context `{Libs}.

(** ** Lookups *)

Definition vmWithRev (id : uuid) : M (VM * Z) :=
  r ← raw_get (vmKey id);
  match r with
  | None => fail ErrNotFound
  | Some e =>
    match decode_doc (e_val e) with
    | None => fail ErrDecode
    | Some v => if bool_decide (vm_DeletedAt v = None) then mret (v, e_mod e) else fail ErrNotFound
    end
  end.

Definition VMByName (name : string) : M VM :=
  r ← resolveGuard (vmNameGuard name);
  match r with None => fail ErrNotFound | Some id => VMByID id end.

Definition VMRuntimeByID (vmID : uuid) : M VMRuntime :=
  r ← GetJSON (vmRuntimeKey vmID);
  match r with Some rt => mret rt | None => fail ErrNotFound end.

Definition NetworkByID (id : uuid) : M Network :=
  r ← GetJSON (networkKey id);
  match r with
  | Some n => if bool_decide (net_DeletedAt n = None) then mret n else fail ErrNotFound
  | None => fail ErrNotFound
  end.

Definition disksOfVM (vmID : uuid) : M (list VMDisk) :=
  items ← Range (vmDisksVMIndexPrefix vmID);
  for_each items [] (λ kv out,
    match index_id kv.2 with
    | None => fail ErrDecode
    | Some id =>
      r ← GetJSON (vmDiskKey id);
      match r with
      | Some d => if bool_decide (disk_DeletedAt d = None) then mret (out ++ [d]) else mret out
      | None => mret out
      end
    end).

(** ** Rows and indexes (vms_create.go, vm_nics.go) *)

Definition ImagePullPolicyIfNotPresent : string := "if_not_present".

(** A snapshot-sourced VM has no image; an empty pull policy is the default. *)
Definition vmFromCreateParams (p : CreateVMParams) (t : Z) : VM :=
  let spec := cvp_Spec p in
  let sourced := bool_decide (is_Some (spec_SourceSnapshotID spec)) in
  {| vm_ID := cvp_ID p; vm_OwnerID := cvp_OwnerID p; vm_Name := cvp_Name p;
     vm_Spec :=
       {| spec_Description := spec_Description spec; spec_Architecture := spec_Architecture spec;
          spec_ImageURL := if sourced then "" else spec_ImageURL spec;
          spec_ImageFormat := spec_ImageFormat spec;
          spec_ImagePullPolicy :=
            if bool_decide (spec_ImagePullPolicy spec = "") then ImagePullPolicyIfNotPresent
            else spec_ImagePullPolicy spec;
          spec_CpuCores := spec_CpuCores spec; spec_MemoryMib := spec_MemoryMib spec;
          spec_CPUModel := spec_CPUModel spec; spec_MachineType := spec_MachineType spec;
          spec_SourceSnapshotID := spec_SourceSnapshotID spec; spec_UserData := spec_UserData spec;
          spec_CloudInitDisabled := spec_CloudInitDisabled spec;
          spec_SSHIngressEnabled := spec_SSHIngressEnabled spec;
          spec_NetworkConfig := spec_NetworkConfig spec; spec_Labels := spec_Labels spec;
          spec_SchedulingSpec := spec_SchedulingSpec spec |};
     vm_DesiredPhase := VmDesiredPhaseRunning;
     vm_ImageSHA256 := if sourced then "" else cvp_ImageSHA256 p;
     vm_FirmwareID := cvp_FirmwareID p; vm_PinnedNodeID := cvp_PinnedNodeID p;
     vm_SchedulingStatus := VMSchedulingUnset; vm_SchedulingReason := None; vm_SchedulingMessage := None;
     vm_SchedulingDetails := ""; vm_LastScheduleAttemptAt := None; vm_Generation := 1;
     vm_CreatedAt := t; vm_UpdatedAt := t; vm_DeletedAt := None |}.

(** The disk's id is drawn here. *)
Definition vmDiskFromCreateParams (p : CreateVMDiskParams) (t : Z) : M VMDisk :=
  u ← new_uuid;
  mret {| disk_ID := u; disk_VmID := cdp_VmID p; disk_StoragePoolID := cdp_StoragePoolID p;
          disk_DeviceOrder := cdp_DeviceOrder p; disk_Bus := cdp_Bus p; disk_SizeGib := cdp_SizeGib p;
          disk_SourceKind := "image"; disk_Format := cdp_Format p; disk_ReadOnly := cdp_ReadOnly p;
          disk_CacheMode := cdp_CacheMode p; disk_Discard := cdp_Discard p; disk_BootOrder := cdp_BootOrder p;
          disk_Generation := 1; disk_CreatedAt := t; disk_UpdatedAt := t; disk_DeletedAt := None |}.

Definition vmNicFromCreateParams (p : CreateVMNicParams) (t : Z) : VMNic :=
  {| nic_ID := cvn_ID p; nic_VmID := cvn_VmID p; nic_NetworkID := cvn_NetworkID p;
     nic_DeviceOrder := cvn_DeviceOrder p; nic_Model := cvn_Model p; nic_MacAddress := cvn_MacAddress p;
     nic_Ipv4Address := cvn_Ipv4Address p; nic_Ipv6Address := cvn_Ipv6Address p; nic_Generation := 1;
     nic_CreatedAt := t; nic_UpdatedAt := t; nic_DeletedAt := None |}.

Definition id_value (u : uuid) : doc := DStr (uuid_string u).

Definition vmIndexOps (vm : VM) : list op :=
  OpPut (vmOwnerIndexKey (vm_OwnerID vm) (vm_ID vm)) (id_value (vm_ID vm)) ::
  (match vm_FirmwareID vm with Some f => [OpPut (vmFirmwareIndexKey f (vm_ID vm)) (id_value (vm_ID vm))] | None => [] end) ++
  (match vm_PinnedNodeID vm with Some n => [OpPut (vmPinnedNodeIndexKey n (vm_ID vm)) (id_value (vm_ID vm))] | None => [] end).

Definition vmIndexDeleteOps (vm : VM) : list op :=
  OpDelete (vmOwnerIndexKey (vm_OwnerID vm) (vm_ID vm)) ::
  (match vm_FirmwareID vm with Some f => [OpDelete (vmFirmwareIndexKey f (vm_ID vm))] | None => [] end) ++
  (match vm_PinnedNodeID vm with Some n => [OpDelete (vmPinnedNodeIndexKey n (vm_ID vm))] | None => [] end).

Definition vmDiskIndexOps (d : VMDisk) : list op :=
  [OpPut (vmDiskVMIndexKey (disk_VmID d) (disk_ID d)) (id_value (disk_ID d));
   OpPut (vmDiskPoolIndexKey (disk_StoragePoolID d) (disk_ID d)) (id_value (disk_ID d))].

Definition vmNicCreateOps (n : VMNic) : M (list op) :=
  val ← Marshal n;
  mret ([OpPut (vmNicKey (nic_ID n)) val;
         OpPut (vmNicVMIndexKey (nic_VmID n) (nic_ID n)) (id_value (nic_ID n));
         OpPut (vmNicNetworkIndexKey (nic_NetworkID n) (nic_ID n)) (id_value (nic_ID n));
         OpPut (vmNicMACGuard (nic_NetworkID n) (nic_MacAddress n)) (id_value (nic_ID n))] ++
        match nic_Ipv4Address n with
        | Some ip => [OpPut (vmNicIPv4ReservationKey (nic_NetworkID n) ip) (id_value (nic_ID n))]
        | None => []
        end).

(** ** Addresses (vm_nics.go) *)

(** The network address with every host bit set. *)
Fixpoint set_low_bits (n : nat) (b : Z) : Z :=
  match n with O => b | S n => Z.setbit (set_low_bits n b) (Z.of_nat n) end.

Definition lastAddr4 (p : Prefix) : Z := set_low_bits (Z.to_nat (host_bits p)) (Masked p).

(** [kv.Key[strings.LastIndexByte(kv.Key, '/')+1:]]. *)
Fixpoint after_last_slash (s : string) : string :=
  match s with
  | "" => ""
  | String c s' =>
    if has_slash s' then after_last_slash s'
    else if Ascii.eqb c "/"%char then s' else s
  end.

(** The scan for the first gap.  Every iteration but the last passes over a taken
    address, so there are at most as many as taken addresses, and one. *)
Fixpoint first_gap (fuel : nat) (subnet : Prefix) (broadcast : Z) (taken : list Z) (ip : option Z) : option Z :=
  match fuel, ip with
  | S fuel, Some a =>
    if negb (Contains subnet a) then None
    else if a =? broadcast then None
    else if bool_decide (a ∈ taken) then first_gap fuel subnet broadcast taken (Next a)
    else Some a
  | _, _ => None
  end.

Definition allocateNICIPv4 (networkID : uuid) (subnet : Prefix) (gateway : option Z) : M Z :=
  items ← Range (vmNicIPv4ReservationPrefix networkID);
  let taken := omap (λ kv, ParseAddr (after_last_slash kv.1)) items ++ option_list gateway in
  match first_gap (S (length taken)) subnet (lastAddr4 subnet) taken (Next (Masked subnet)) with
  | Some ip => mret ip
  | None => fail ErrSubnetExhausted
  end.

(** ** Admission and binding (vms_schedule.go) *)

Definition SchedReasonPendingSchedule : string := "pending_schedule".

Definition unscheduled_vm (p : CreateVMParams) (t : Z) : VM :=
  (vmFromCreateParams p t) <| vm_SchedulingStatus := VMSchedulingUnscheduled |>
    <| vm_SchedulingReason := Some SchedReasonPendingSchedule |> <| vm_PinnedNodeID := None |>.

Definition CreateUnscheduledVM (p : CreateVMParams) : M uuid :=
  t ← now;
  let vm := unscheduled_vm p t in
  vmVal ← Marshal vm;
  let guard := vmNameGuard (vm_Name vm) in
  let ops := [OpPut guard (id_value (vm_ID vm)); OpPut (vmKey (vm_ID vm)) vmVal;
              OpPut (vmUnscheduledIndexKey (vm_ID vm)) (id_value (vm_ID vm))] ++ vmIndexOps vm in
  let conds := CmpCreate guard 0 ::
    match vm_FirmwareID vm with Some f => [CmpCreate (firmwareDeletingKey f) 0] | None => [] end in
  resp ← raw_txn conds ops [];
  if tr_Succeeded resp then mret (vm_ID vm)
  else
    match vm_FirmwareID vm with
    | None => fail ErrVMNameInUse
    | Some f =>
      deleting ← deleteIntentPresent (firmwareDeletingKey f);
      if deleting : bool then fail ErrResourceDeleting else fail ErrVMNameInUse
    end.

(** Up to [n] VMs; a row that is gone is skipped. *)
Fixpoint list_unscheduled (items : list (string * doc)) (n : Z) (out : list VM) : M (list VM) :=
  match items with
  | [] => mret out
  | kv :: items =>
    match index_id kv.2 with
    | None => list_unscheduled items n out
    | Some id =>
      r ← attempt (VMByID id);
      match r with
      | Err _ => list_unscheduled items n out
      | Ok vm =>
        let out := out ++ [vm] in
        if (0 <? n) && (n <=? Z.of_nat (length out)) then mret out else list_unscheduled items n out
      end
    end
  end.

Definition ListUnscheduledVMs (n : Z) : M (list VM) :=
  items ← Range vmUnscheduledIndexPrefix; list_unscheduled items n [].

Definition UpdateVMSchedulingReason (vmID : uuid) (reason message : string) (details : bytes) : M unit :=
  '(vm, rev) ← vmWithRev vmID;
  if negb (bool_decide (vm_SchedulingStatus vm = VMSchedulingUnscheduled)) then mret tt
  else
    t ← now;
    val ← Marshal (vm <| vm_SchedulingReason := Some reason |> <| vm_SchedulingMessage := Some message |>
                      <| vm_SchedulingDetails := details |> <| vm_LastScheduleAttemptAt := Some t |>
                      <| vm_UpdatedAt := t |>);
    _ ← raw_txn [CmpMod (vmKey vmID) rev] [OpPut (vmKey vmID) val] [];
    mret tt.

Definition DeleteUnscheduledVM (vmID : uuid) : M unit :=
  '(vm, rev) ← vmWithRev vmID;
  if negb (bool_decide (vm_SchedulingStatus vm = VMSchedulingUnscheduled)) then fail ErrVMNotUnscheduled
  else
    t ← now;
    let vm := vm <| vm_DeletedAt := Some t |> <| vm_UpdatedAt := t |> in
    vmVal ← Marshal vm;
    let ops := [OpPut (vmKey (vm_ID vm)) vmVal; OpDelete (vmNameGuard (vm_Name vm));
                OpDelete (vmUnscheduledIndexKey (vm_ID vm))] ++ vmIndexDeleteOps vm in
    resp ← raw_txn [CmpMod (vmKey (vm_ID vm)) rev] ops [];
    if tr_Succeeded resp then mret tt else fail ErrVMNotUnscheduled.

(** The interface of a bind: its address, the compares that guard it, and its
    writes. *)
Definition bind_nic (nic : CreateVMNicParams) (t : Z) : M (list op * list cmp) :=
  net ← NetworkByID (cvn_NetworkID nic);
  '(nic, conds) ←
    match net_DhcpEnabled net, net_Subnet net with
    | true, Some subnet =>
      ip ← allocateNICIPv4 (cvn_NetworkID nic) subnet (net_Gateway net);
      mret (MkCreateVMNicParams (cvn_ID nic) (cvn_VmID nic) (cvn_NetworkID nic) (cvn_DeviceOrder nic)
              (cvn_Model nic) (cvn_MacAddress nic) (Some ip) (cvn_Ipv6Address nic),
            [CmpCreate (vmNicIPv4ReservationKey (cvn_NetworkID nic) ip) 0])
    | _, _ => mret (nic, [])
    end;
  nicOps ← vmNicCreateOps (vmNicFromCreateParams nic t);
  mret (nicOps, conds ++ [CmpCreate (vmNicMACGuard (cvn_NetworkID nic) (cvn_MacAddress nic)) 0]).

Definition bind_mac_guard (writes : VMBindWrites) : option string :=
  nic ← vbw_Nic writes; Some (vmNicMACGuard (cvn_NetworkID nic) (cvn_MacAddress nic)).

Definition buildBindTxn (vm : VM) (writes : VMBindWrites) (rev t : Z) : M (list op * list cmp) :=
  disk ← vmDiskFromCreateParams (vbw_Disk writes) t;
  '(seq, jobOp) ← enqueueJobOp (vbw_Job writes);
  createdAt ← now;
  let task := taskFromParams (vbw_Task writes) seq createdAt in
  vmVal ← Marshal vm;
  diskVal ← Marshal disk;
  taskVal ← Marshal task;
  let ops := [OpPut (vmKey (vm_ID vm)) vmVal; OpDelete (vmUnscheduledIndexKey (vm_ID vm));
              OpPut (vmPinnedNodeIndexKey (vbw_PinnedNodeID writes) (vm_ID vm)) (id_value (vm_ID vm));
              OpPut (vmDiskKey (disk_ID disk)) diskVal; OpPut (taskKey (task_ID task)) taskVal; jobOp] ++
             vmDiskIndexOps disk ++ taskIndexOps task in
  let conds := [CmpMod (vmKey (vm_ID vm)) rev; CmpCreate (nodeDeletingKey (vbw_PinnedNodeID writes)) 0;
                CmpCreate (storagePoolDeletingKey (disk_StoragePoolID disk)) 0] in
  match vbw_Nic writes with
  | None => mret (ops, conds)
  | Some nic =>
    '(nicOps, nicConds) ← bind_nic nic t;
    mret (ops ++ nicOps, conds ++ CmpCreate (networkDeletingKey (cvn_NetworkID nic)) 0 :: nicConds)
  end.

(** A lost bind: the MAC is taken, or the VM is left for the next tick. *)
Definition classifyBindFailure {A} (macGuard : option string) : M A :=
  match macGuard with
  | None => fail ErrVMNotUnscheduled
  | Some guard =>
    chk ← attempt (raw_txn [CmpCreate guard 0] [] []);
    match chk with
    | Ok resp => if tr_Succeeded resp then fail ErrVMNotUnscheduled else fail ErrVMNicMACConflict
    | Err _ => fail ErrVMNotUnscheduled
    end
  end.

Definition scheduled_vm (vm : VM) (node : uuid) (t : Z) : VM :=
  vm <| vm_SchedulingStatus := VMSchedulingScheduled |> <| vm_SchedulingReason := None |>
     <| vm_SchedulingMessage := None |> <| vm_SchedulingDetails := "" |>
     <| vm_LastScheduleAttemptAt := Some t |> <| vm_PinnedNodeID := Some node |> <| vm_UpdatedAt := t |>.

Definition BindScheduledVM (ctx : option fence) (vmID : uuid) (plan : M VMBindWrites) : M unit :=
  '(vm, rev) ← vmWithRev vmID;
  if negb (bool_decide (vm_SchedulingStatus vm = VMSchedulingUnscheduled)) then fail ErrVMNotUnscheduled
  else
    writes ← plan;
    t ← now;
    '(ops, conds) ← buildBindTxn (scheduled_vm vm (vbw_PinnedNodeID writes) t) writes rev t;
    resp ← raw_txn (conds ++ FenceCmps ctx) ops [];
    if tr_Succeeded resp then mret tt else classifyBindFailure (bind_mac_guard writes).

(** ** Worker projections (vms_project.go) *)

Definition finalizedTaskValue (fin : UpdateTaskFinalizedParams) : M doc :=
  t ← TaskByID (utf_ID fin);
  let t := t <| task_Status := utf_Status fin |> <| task_Result := utf_Result fin |>
             <| task_Error := utf_Error fin |> in
  n ← now;
  Marshal (t <| task_FinishedAt := Some n |>).

Definition vmRuntimeFromUpsert (p : UpsertVMRuntimeParams) (t : Z) : VMRuntime :=
  {| rt_VmID := uvr_VmID p; rt_CurrentNodeID := uvr_CurrentNodeID p; rt_Phase := uvr_Phase p;
     rt_ObservedGeneration := uvr_ObservedGeneration p; rt_QEMUPID := uvr_QEMUPID p;
     rt_LastStartedAt := uvr_LastStartedAt p; rt_LastErrorMessage := uvr_LastErrorMessage p;
     rt_MemoryUsedMib := uvr_MemoryUsedMib p; rt_LastObservedAt := Some t; rt_UpdatedAt := t;
     rt_OtherColumns := "" |}.

(** The put that records the image digest, if there is one to record. *)
Definition digestOpFromVM (vm : VM) (imageSHA256 : bytes) (t : Z) : M (list op) :=
  if bool_decide (imageSHA256 = "") || bool_decide (vm_ImageSHA256 vm = imageSHA256) then mret []
  else
    val ← Marshal (vm <| vm_ImageSHA256 := imageSHA256 |> <| vm_UpdatedAt := t |>);
    mret [OpPut (vmKey (vm_ID vm)) val].

Fixpoint project_create_attempts (attempts : nat) (rt : UpsertVMRuntimeParams) (fin : UpdateTaskFinalizedParams)
    (imageSHA256 : bytes) : M unit :=
  match attempts with
  | O => fail (ErrOther "project vm create: vm row CAS exhausted")
  | S attempts =>
    taskVal ← finalizedTaskValue fin;
    r ← attempt (vmWithRev (uvr_VmID rt));
    match r with
    | Err ErrNotFound => _ ← raw_txn [] [OpPut (taskKey (utf_ID fin)) taskVal] []; mret tt
    | Err e => fail e
    | Ok (vm, vmRev) =>
      t ← now;
      runtimeVal ← Marshal (vmRuntimeFromUpsert rt t);
      digestOp ← digestOpFromVM vm imageSHA256 t;
      resp ← raw_txn [CmpMod (vmKey (uvr_VmID rt)) vmRev]
               ([OpPut (vmRuntimeKey (uvr_VmID rt)) runtimeVal; OpPut (taskKey (utf_ID fin)) taskVal] ++ digestOp) [];
      if tr_Succeeded resp then mret tt else project_create_attempts attempts rt fin imageSHA256
    end
  end.

Definition projectVMCreateCASAttempts : nat := 5.

Definition ProjectVMCreateSuccess (rt : UpsertVMRuntimeParams) (fin : UpdateTaskFinalizedParams)
    (imageSHA256 : bytes) : M unit :=
  project_create_attempts projectVMCreateCASAttempts rt fin imageSHA256.

(** The rounds of the desired-phase put; [ops] are the writes still owed. *)
Fixpoint lifecycle_attempts (attempts : nat) (vmID : uuid) (row : VM) (rowRev : Z) (desired : VMDesiredPhase)
    (t : Z) (ops : list op) : M unit :=
  match attempts with
  | O => mret tt
  | S attempts =>
    val ← Marshal (row <| vm_DesiredPhase := desired |> <| vm_UpdatedAt := t |>);
    resp ← raw_txn [CmpMod (vmKey vmID) rowRev] (OpPut (vmKey vmID) val :: ops) ops;
    if tr_Succeeded resp then mret tt
    else
      r ← attempt (vmWithRev vmID);
      match r with
      | Err ErrNotFound => mret tt
      | Err e => fail e
      | Ok (fresh, freshRev) => lifecycle_attempts attempts vmID fresh freshRev desired t []
      end
  end.

Definition projectVMLifecycleCASAttempts : nat := 5.

Definition projectVMLifecycle (vmID : uuid) (vm : option (VM * Z)) (runtimePhase : VMPhase)
    (fin : UpdateTaskFinalizedParams) : M unit :=
  t ← now;
  r ← GetJSON (vmRuntimeKey vmID);
  ops ← match r with
        | Some runtime =>
          val ← Marshal (runtime <| rt_Phase := runtimePhase |> <| rt_LastObservedAt := Some t |>);
          mret [OpPut (vmRuntimeKey vmID) val]
        | None => mret []
        end;
  taskVal ← finalizedTaskValue fin;
  let ops := ops ++ [OpPut (taskKey (utf_ID fin)) taskVal] in
  match vm with
  | None => _ ← raw_txn [] ops []; mret tt
  | Some (row, rowRev) =>
    lifecycle_attempts projectVMLifecycleCASAttempts vmID row rowRev (vm_DesiredPhase row) t ops
  end.

Definition ProjectVMLifecycleSuccess (vmID : uuid) (desiredPhase : option VMDesiredPhase) (runtimePhase : VMPhase)
    (fin : UpdateTaskFinalizedParams) : M unit :=
  vm ← match desiredPhase with
       | None => mret None
       | Some desired =>
         r ← attempt (vmWithRev vmID);
         match r with
         | Err ErrNotFound => mret None
         | Err e => fail e
         | Ok (v, rev) => mret (Some (v <| vm_DesiredPhase := desired |>, rev))
         end
       end;
  projectVMLifecycle vmID vm runtimePhase fin.

(** What a delete of an interface releases besides its row. *)
Definition nic_release_ops (vmID id : uuid) (n : VMNic) : list op :=
  [OpDelete (vmNicVMIndexKey vmID id); OpDelete (vmNicNetworkIndexKey (nic_NetworkID n) id);
   OpDelete (vmNicMACGuard (nic_NetworkID n) (nic_MacAddress n))] ++
  match nic_Ipv4Address n with
  | Some ip => [OpDelete (vmNicIPv4ReservationKey (nic_NetworkID n) ip)]
  | None => []
  end.

Definition vmNicDeleteOps (vmID : uuid) (t : Z) : M (list op) :=
  items ← Range (vmNicVMIndexPrefix vmID);
  for_each items [] (λ kv ops,
    match index_id kv.2 with
    | None => mret ops
    | Some id =>
      r ← GetJSON (vmNicKey id);
      match r with
      | None => mret (ops ++ [OpDelete (vmNicVMIndexKey vmID id)])
      | Some n =>
        if negb (bool_decide (nic_DeletedAt n = None)) then mret (ops ++ nic_release_ops vmID id n)
        else
          val ← Marshal (n <| nic_DeletedAt := Some t |> <| nic_UpdatedAt := t |>);
          mret (ops ++ OpPut (vmNicKey id) val :: nic_release_ops vmID id n)
      end
    end).

Definition disk_delete_ops (t : Z) (disks : list VMDisk) : M (list op) :=
  for_each disks [] (λ d ops,
    val ← Marshal (d <| disk_DeletedAt := Some t |> <| disk_UpdatedAt := t |>);
    mret (ops ++ [OpPut (vmDiskKey (disk_ID d)) val; OpDelete (vmDiskVMIndexKey (disk_VmID d) (disk_ID d));
                  OpDelete (vmDiskPoolIndexKey (disk_StoragePoolID d) (disk_ID d))])).

Definition vmDeleteBaseOps (vm : VM) (t : Z) (taskVal : doc) (taskID : uuid) : M (list op) :=
  let vm := vm <| vm_DeletedAt := Some t |> <| vm_UpdatedAt := t |> in
  vmVal ← Marshal vm;
  let ops := [OpPut (vmKey (vm_ID vm)) vmVal; OpDelete (vmNameGuard (vm_Name vm)); OpDelete (vmRuntimeKey (vm_ID vm))] ++
             vmIndexDeleteOps vm in
  r ← attempt (VMRuntimeByID (vm_ID vm));
  runtimeOps ← match r with
               | Err ErrNotFound => mret []
               | Err e => fail e
               | Ok rt => match rt_CurrentNodeID rt with
                          | Some node => mret [OpDelete (vmRuntimeNodeIndexKey node (vm_ID vm))]
                          | None => mret []
                          end
               end;
  disks ← disksOfVM (vm_ID vm);
  diskOps ← disk_delete_ops t disks;
  nicOps ← vmNicDeleteOps (vm_ID vm) t;
  mret (ops ++ runtimeOps ++ diskOps ++ nicOps ++ [OpPut (taskKey taskID) taskVal]).

Definition ProjectVMDeleteSuccess (vm : VM) (fin : UpdateTaskFinalizedParams) : M unit :=
  t ← now;
  taskVal ← finalizedTaskValue fin;
  ops ← vmDeleteBaseOps vm t taskVal (utf_ID fin);
  _ ← raw_txn [] ops [];
  mret tt.
End VMs.
