(* ===== verification/Placement.v ===== *)
(** * What placement reads: internal/etcdstore/vms_create.go, storage_pools.go, nodes.go,
    agent_wireguard.go and networks.go

    The queries of the scheduler over the store.  The effective view of a node is what
    its agent reported, less the VMs pinned to it since and the VMs that migrate to it;
    that of a pool is what was scanned, less the disks committed since.  A row is a
    candidate when its node is ready, not cordoned, not being deleted, under no pressure,
    and the control plane can reach it. *)

From S2P Require Import Prelude Models Scheduler Etcd Prog Keys Client Nodes Migrations DeleteIntent VMs.
Import Scheduler.
Local Open Scope Z_scope.

Definition bytesPerGiB : Z := 1073741824.

(** [t.Sub(u)], which saturates. *)
Definition time_Sub (t u : Z) : Z := Z.max (- 2 ^ 63) (Z.min max_i64 (t - u)).

Section Placement.
Context `{Libs}.

(** ** Storage pools (storage_pools.go) *)

Definition StoragePoolByID (id : uuid) : M StoragePool :=
  r ← GetJSON (storagePoolKey id);
  match r with
  | Some p => if bool_decide (sp_DeletedAt p = None) then mret p else fail ErrNotFound
  | None => fail ErrNotFound
  end.

(** One instance per node, in the order of the nodes. *)
Definition StoragePoolsByName (name : string) : M (list StoragePool) :=
  items ← Range (storagePoolNameIndexPrefix name);
  pools ← for_each items [] (λ kv pools,
    match index_id kv.2 with
    | None => fail ErrDecode
    | Some id =>
      r ← attempt (StoragePoolByID id);
      match r with
      | Ok p => mret (pools ++ [p])
      | Err ErrNotFound => mret pools
      | Err e => fail e
      end
    end);
  mret (stable_sort (λ a b, String.ltb (uuid_string (sp_NodeID a)) (uuid_string (sp_NodeID b))) pools).

(** Whether a disk of the pool came after its last scan. *)
Definition pending_disk (p : StoragePool) (d : VMDisk) : bool :=
  bool_decide (disk_DeletedAt d = None) &&
  match sp_ReportedAt p with Some t => negb (disk_CreatedAt d <=? t) | None => true end.

Definition pendingCommittedBytes (p : StoragePool) : M Z :=
  items ← Range (vmDisksPoolIndexPrefix (sp_ID p));
  for_each items 0 (λ kv total,
    match index_id kv.2 with
    | None => fail ErrDecode
    | Some id =>
      r ← GetJSON (vmDiskKey id);
      match r with
      | Some d => mret (if pending_disk p d then i64 (total + disk_SizeGib d * bytesPerGiB) else total)
      | None => mret total
      end
    end).

Definition pool_view (p : StoragePool) (effective : option Z) : PoolEffectiveCapacity :=
  {| pec_ID := sp_ID p; pec_NodeID := sp_NodeID p; pec_Name := sp_Name p; pec_Type := sp_Type p;
     pec_CapacityBytes := sp_CapacityBytes p; pec_AvailableBytes := sp_AvailableBytes p;
     pec_AvailableBytesEffective := effective; pec_DiskPressureSince := sp_DiskPressureSince p |}.

Definition poolEffective (p : StoragePool) : M PoolEffectiveCapacity :=
  match sp_AvailableBytes p with
  | None => mret (pool_view p None)
  | Some available =>
    pending ← pendingCommittedBytes p;
    mret (pool_view p (Some (Z.max (i64 (available - pending)) 0)))
  end.

(** ** Nodes (nodes.go) *)

(** Whether a VM pinned to the node came after its last heartbeat. *)
Definition pending_vm (n : Node) (v : VM) : bool :=
  bool_decide (vm_DeletedAt v = None) && negb (bool_decide (vm_DesiredPhase v = VmDesiredPhaseDeleted)) &&
  match node_LastHeartbeatAt n with Some t => negb (vm_CreatedAt v <=? t) | None => true end.

Definition reserve (r : Z * Z) (v : VM) : Z * Z :=
  (i32 (r.1 + spec_CpuCores (vm_Spec v)), i64 (r.2 + spec_MemoryMib (vm_Spec v))).

Definition pendingReservations (n : Node) : M (Z * Z) :=
  items ← Range (vmsPinnedNodeIndexPrefix (node_ID n));
  for_each items (0, 0) (λ kv sum,
    match index_id kv.2 with
    | None => fail ErrDecode
    | Some id =>
      r ← GetJSON (vmKey id);
      match r with
      | Some v => mret (if pending_vm n v then reserve sum v else sum)
      | None => mret sum
      end
    end).

Definition migrationTargetReservations (nodeID : uuid) : M (Z * Z) :=
  migs ← activeMigrationsOnNode nodeID;
  for_each migs (0, 0) (λ m sum,
    if negb (bool_decide (mig_TargetNodeID m = Some nodeID)) then mret sum
    else
      r ← attempt (VMByID (mig_VmID m));
      match r with
      | Ok v => mret (reserve sum v)
      | Err ErrNotFound => mret sum
      | Err e => fail e
      end).

Definition node_view (n : Node) (cpu mem : option Z) : NodeEffectiveAvailability :=
  let r := node_Report n in
  {| nea_ID := node_ID n; nea_Name := node_Name n; nea_Status := node_Status n; nea_CordonedAt := node_CordonedAt n;
     nea_CPUCoresTotal := rep_CPUCoresTotal r; nea_CPUCoresAvailable := rep_CPUCoresAvailable r;
     nea_CPUCoresEffective := cpu; nea_MemoryTotalMib := rep_MemoryTotalMib r;
     nea_MemoryAvailableMib := rep_MemoryAvailableMib r; nea_MemoryEffectiveMib := mem;
     nea_Capabilities := rep_Capabilities r; nea_MemoryPressureSince := node_MemoryPressureSince n;
     nea_SystemDiskPressureSince := node_SystemDiskPressureSince n |}.

Definition nodeEffective (n : Node) : M NodeEffectiveAvailability :=
  '(pendCPU, pendMem) ← pendingReservations n;
  '(resvCPU, resvMem) ← migrationTargetReservations (node_ID n);
  mret (node_view n
    ((λ a, Z.max (i32 (i32 (a - pendCPU) - resvCPU)) 0) <$> rep_CPUCoresAvailable (node_Report n))
    ((λ a, Z.max (i64 (i64 (a - pendMem) - resvMem)) 0) <$> rep_MemoryAvailableMib (node_Report n))).

(** ** Reaching a node (vms_create.go, agent_wireguard.go) *)

Definition ListAgentWireguard : M (list AgentWireguard) :=
  items ← Range agentWireguardPrefix;
  for_each items [] (λ kv out,
    match decode_doc kv.2 with Some rec => mret (out ++ [rec]) | None => fail ErrDecode end).

Definition public_gateway (n : Node) : bool :=
  node_GatewayRole n && negb (bool_decide (node_AdvertisedEndpoint n = "")) &&
  negb (bool_decide (node_IngressAdvertisedEndpoint n = "")) && (0 <? node_ControlListenPort n).

Definition downPathReachability : M (gmap uuid AgentWireguard * gmap uuid Z) :=
  wgs ← ListAgentWireguard;
  nodes ← AllNodes;
  mret (foldl (λ byNode rec, <[aw_NodeID rec := rec]> byNode) ∅ wgs,
        foldl (λ gws n, if public_gateway n then <[node_ID n := node_ControlListenPort n]> gws else gws) ∅ nodes).

Definition downPathReachable (natd : bool) (established : list string) (reportedAt controlPort : Z)
    (publicGateways : gmap uuid Z) (t staleness : Z) : bool :=
  if negb natd then true
  else if (staleness <? time_Sub t reportedAt) || (controlPort <=? 0) then false
  else existsb (λ s, match uuid_parse s with
                     | Some id => default 0 (publicGateways !! id) =? controlPort
                     | None => false
                     end) established.

(** With the record of the node's agent, if there is one. *)
Definition node_reachable (n : Node) (rec : option AgentWireguard) (publicGateways : gmap uuid Z) (t staleness : Z) : bool :=
  match rec with
  | None => true
  | Some rec =>
    downPathReachable (bool_decide (aw_Endpoint rec = "")) (aw_EstablishedPeers rec) (aw_UpdatedAt rec)
      (node_ControlListenPort n) publicGateways t staleness
  end.

Definition nodeSchedulable (n : NodeEffectiveAvailability) : bool :=
  bool_decide (nea_Status n = NodeStatusReady) && bool_decide (nea_CordonedAt n = None).

(** ** The queries (vms_create.go) *)

(** How old the report of a node behind NAT may be; the text of an error. *)
Context (downPathStaleness : Z) (err_text : err → string).

Definition poolNodePairs (name : string) (keep : PoolEffectiveCapacity → NodeEffectiveAvailability → bool)
    : M (list PoolRow) :=
  pools ← StoragePoolsByName name;
  '(wgByNode, publicGateways) ← downPathReachability;
  t ← now;
  for_each pools [] (λ p out,
    deleting ← deleteIntentPresent (nodeDeletingKey (sp_NodeID p));
    if deleting : bool then mret out
    else
      r ← attempt (NodeByID (sp_NodeID p));
      match r with
      | Err ErrNotFound => mret out
      | Err e => fail e
      | Ok node =>
        poolEff ← poolEffective p;
        nodeEff ← nodeEffective node;
        if negb (keep poolEff nodeEff) then mret out
        else if negb (node_reachable node (wgByNode !! node_ID node) publicGateways t downPathStaleness) then mret out
        else mret (out ++ [MkPoolRow poolEff nodeEff])
      end).

Definition unset (t : option Z) : bool := bool_decide (t = None).

Definition eligible (p : PoolEffectiveCapacity) (n : NodeEffectiveAvailability) : bool :=
  nodeSchedulable n && unset (nea_MemoryPressureSince n) && unset (nea_SystemDiskPressureSince n) &&
  unset (pec_DiskPressureSince p).
Definition memory_pressured (p : PoolEffectiveCapacity) (n : NodeEffectiveAvailability) : bool :=
  nodeSchedulable n && negb (unset (nea_MemoryPressureSince n)) && unset (nea_SystemDiskPressureSince n) &&
  unset (pec_DiskPressureSince p).
Definition system_disk_pressured (p : PoolEffectiveCapacity) (n : NodeEffectiveAvailability) : bool :=
  nodeSchedulable n && negb (unset (nea_SystemDiskPressureSince n)) && unset (nea_MemoryPressureSince n) &&
  unset (pec_DiskPressureSince p).
Definition disk_pressured (p : PoolEffectiveCapacity) (n : NodeEffectiveAvailability) : bool :=
  negb (unset (pec_DiskPressureSince p)).

(** A VM that is gone is not counted. *)
Definition count_vms (nodeID : uuid) : M Z :=
  items ← Range (vmsPinnedNodeIndexPrefix nodeID);
  for_each items 0 (λ kv n,
    match index_id kv.2 with
    | None => mret n
    | Some id =>
      r ← attempt (VMByID id);
      match r with
      | Ok v => mret (if bool_decide (vm_DesiredPhase v = VmDesiredPhaseDeleted) then n else n + 1)
      | Err ErrNotFound => mret n
      | Err e => fail e
      end
    end).

Definition network_statuses (nodeID : uuid) : M (list NetworkNodeStatus) :=
  items ← Range networkNodeStatusPrefix;
  out ← for_each items [] (λ kv out,
    match decode_doc kv.2 with
    | Some st => mret (if bool_decide (nns_NodeID st = nodeID) then out ++ [st] else out)
    | None => fail ErrDecode
    end);
  mret (stable_sort (λ a b, String.ltb (uuid_string (nns_NetworkID a)) (uuid_string (nns_NetworkID b))) out).

(** An error of the store is its text to the scheduler. *)
Definition as_query {A} (x : M A) : prog (result string A) :=
  prog_bind (λ r, Ret (match r with Ok a => Ok a | Err e => Err (err_text e) end)) x.

Definition placementReader : Querier prog := {|
  ListEligiblePoolsByName name := as_query (poolNodePairs name eligible);
  ListMemoryPressuredCandidatesByName name := as_query (poolNodePairs name memory_pressured);
  ListSystemDiskPressuredCandidatesByName name := as_query (poolNodePairs name system_disk_pressured);
  ListDiskPressuredPoolsByName name := as_query (poolNodePairs name disk_pressured);
  ListStoragePoolsByName name := as_query (StoragePoolsByName name);
  CountRunningVMsByNode nodeID := as_query (count_vms nodeID);
  ListNetworkNodeStatusByNode nodeID := as_query (network_statuses nodeID)
|}.

(** Networks, by name (networks.go). *)
Definition NetworkByName (name : string) : M Network :=
  r ← resolveGuard (networkNameGuard name);
  match r with None => fail ErrNotFound | Some id => NetworkByID id end.
End Placement.
