(* ===== verification/VMAddresses.v ===== *)
(** * The addresses of VM interfaces

    [allocateNICIPv4] hands out the lowest assignable address of the subnet that
    is neither reserved nor the gateway's, and reports exhaustion exactly when
    there is none.  Its scan stops after one address more than are taken. *)

From Stdlib Require Import Ascii.
From S2P Require Import Prelude Models Strconv Netip Etcd Prog Keys Client Instances Sequential VMs.
Local Open Scope Z_scope.

(** ** The broadcast address *)

Lemma testbit_small a n i : 0 ≤ n → 0 ≤ a < 2 ^ n → n ≤ i → Z.testbit a i = false.
Proof.
  intros Hn Ha Hi. rewrite <-(Z.mod_small a (2 ^ n)) by done.
  by apply Z.mod_pow2_bits_high.
Qed.

Lemma testbit_multiple a n i : 0 ≤ i < n → Z.testbit (a * 2 ^ n) i = false.
Proof. intros Hi. rewrite Z.mul_pow2_bits by lia. apply Z.testbit_neg_r. lia. Qed.

Lemma setbit_add b i : 0 ≤ i → Z.testbit b i = false → Z.setbit b i = b + 2 ^ i.
Proof.
  intros Hi Hb. rewrite Z.setbit_spec'. symmetry. apply Z.add_nocarry_lor, Z.bits_inj'. intros j Hj.
  rewrite Z.land_spec, Z.pow2_bits_eqb, Z.bits_0 by done.
  destruct (Z.eqb_spec i j) as [->|_]; [by rewrite Hb|apply andb_false_r].
Qed.

Lemma set_low_bits_multiple a (n h : nat) :
  (h ≤ n)%nat → set_low_bits h (a * 2 ^ Z.of_nat n) = a * 2 ^ Z.of_nat n + (2 ^ Z.of_nat h - 1).
Proof.
  induction h as [|h IH]; intros Hh; [simpl; lia|]. cbn [set_low_bits]. rewrite IH by lia.
  rewrite setbit_add; [rewrite Nat2Z.inj_succ, Z.pow_succ_r by lia; lia|lia|].
  assert (a * 2 ^ Z.of_nat n + (2 ^ Z.of_nat h - 1) =
          Z.lor (a * 2 ^ Z.of_nat n) (2 ^ Z.of_nat h - 1)) as ->.
  { apply Z.add_nocarry_lor, Z.bits_inj'. intros j Hj. rewrite Z.land_spec, Z.bits_0.
    destruct (decide (j < Z.of_nat n)); [by rewrite testbit_multiple by lia|].
    rewrite (testbit_small (2 ^ Z.of_nat h - 1) (Z.of_nat h)); [apply andb_false_r|lia| |lia].
    assert (0 < 2 ^ Z.of_nat h) by (apply Z.pow_pos_nonneg; lia). lia. }
  rewrite Z.lor_spec, testbit_multiple by lia.
  apply (testbit_small _ (Z.of_nat h)); [lia| |lia].
  assert (0 < 2 ^ Z.of_nat h) by (apply Z.pow_pos_nonneg; lia). lia.
Qed.

(** The last address of the block. *)
Lemma lastAddr4_spec p : prefix_ok p → lastAddr4 p = Masked p + hosts p - 1.
Proof.
  intros Hp. unfold lastAddr4. rewrite Masked_div by done. unfold hosts.
  destruct Hp as [_ Hb]. assert (0 ≤ host_bits p) by (unfold host_bits; lia).
  rewrite <-(Z2Nat.id (host_bits p)) at 2 3 4 by done. rewrite set_low_bits_multiple by lia.
  rewrite Z2Nat.id by done. lia.
Qed.

(** ** The scan *)

(** An address that can be assigned: not the network's, not the broadcast one. *)
Definition assignable (p : Prefix) (ip : Z) : Prop := Masked p < ip < lastAddr4 p.

(** The outcome of the scan. *)
Definition lowest_gap (p : Prefix) (taken : list Z) (r : option Z) : Prop :=
  match r with
  | Some ip => assignable p ip ∧ (ip ∉ taken) ∧ ∀ b, assignable p b → b ∉ taken → ip ≤ b
  | None => ∀ b, assignable p b → b ∈ taken
  end.

Lemma interval_length a (n : nat) (l : list Z) : (∀ b, a < b ≤ a + Z.of_nat n → b ∈ l) →
  (n ≤ length l)%nat.
Proof.
  intros Hl. assert (length (seqZ (a + 1) (Z.of_nat n)) = n) as <- by (rewrite length_seqZ; lia).
  apply submseteq_length, NoDup_submseteq; [apply NoDup_seqZ|].
  intros b Hb%elem_of_seqZ. apply Hl. lia.
Qed.

(** The addresses passed over are taken, so the fuel lasts. *)
Lemma first_gap_spec p (taken : list Z) (fuel : nat) (a : Z) :
  prefix_ok p → Masked p < a < 2 ^ 32 → (∀ b, Masked p < b < a → b ∈ taken) →
  Z.of_nat fuel + (a - Masked p - 1) = Z.of_nat (S (length taken)) →
  lowest_gap p taken (first_gap fuel p (lastAddr4 p) taken (Some a)).
Proof.
  intros Hp. pose proof (Masked_bounds p Hp) as [H0 H32]. pose proof (lastAddr4_spec p Hp) as Hlast.
  revert a. induction fuel as [|fuel IH]; intros a Ha Hpass Hf.
  { exfalso. assert (S (length taken) ≤ length taken)%nat; [|lia].
    apply (interval_length (Masked p)). intros b Hb. apply Hpass. lia. }
  cbn [first_gap]. destruct (Contains p a) eqn:Hc; simpl.
  2: { intros b [? ?]. apply Hpass. apply not_true_iff_false in Hc. rewrite Contains_spec in Hc by (done || lia). lia. }
  apply Contains_spec in Hc; [|done|lia]. destruct (Z.eqb_spec a (lastAddr4 p)) as [->|Hne].
  { intros b [? ?]. by apply Hpass. }
  case_bool_decide as Hin; [|split_and!; [by split; lia|done|]].
  - unfold Next. destruct (Z.ltb_spec (a + 1) (2 ^ 32)); [|lia]. apply IH; [lia| |lia].
    intros b Hb. destruct (decide (b = a)) as [->|]; [done|]. apply Hpass. lia.
  - intros b [? ?] Hb. destruct (decide (a ≤ b)); [done|]. destruct Hb. apply Hpass. lia.
Qed.

Lemma first_gap_lowest p taken :
  prefix_ok p →
  lowest_gap p taken (first_gap (S (length taken)) p (lastAddr4 p) taken (Next (Masked p))).
Proof.
  intros Hp. pose proof (Masked_bounds p Hp) as [H0 H32]. pose proof (lastAddr4_spec p Hp) as Hlast.
  unfold Next. destruct (Z.ltb_spec (Masked p + 1) (2 ^ 32)).
  - apply first_gap_spec; [done|lia|lia|lia].
  - intros b [? ?]. lia.
Qed.

(** ** The taken set *)

Lemma has_slash_app s t : has_slash (s +:+ t) = has_slash s || has_slash t.
Proof. induction s as [|c s IH]; [done|]. change (has_slash (String c s +:+ t)) with (Ascii.eqb c "/" || has_slash (s +:+ t)). by rewrite IH, orb_assoc. Qed.

Lemma fixed_digits_no_slash w n : has_slash (Strconv.fixed_digits w n) = false.
Proof.
  induction w as [|w IH]; [done|]. cbn [Strconv.fixed_digits has_slash]. rewrite IH.
  pose proof (Z.mod_pos_bound (n / 10 ^ Z.of_nat w) 10 ltac:(lia)) as Hm.
  set (d := (n / 10 ^ Z.of_nat w) mod 10) in *. clearbody d. clear IH.
  assert (d ∈ [0; 1; 2; 3; 4; 5; 6; 7; 8; 9]) as Hin by (set_unfold; lia).
  repeat (apply elem_of_cons in Hin as [->|Hin]; [reflexivity|]). by apply elem_of_nil in Hin.
Qed.

Lemma Addr_String_no_slash ip : has_slash (Addr_String ip) = false.
Proof.
  unfold Addr_String, As4. simpl map. simpl str_join. unfold Strconv.format_nat.
  by rewrite !has_slash_app, !fixed_digits_no_slash.
Qed.

Lemma after_last_slash_app s t : has_slash t = false → after_last_slash (s +:+ "/" +:+ t) = t.
Proof.
  intros Ht. induction s as [|c s IH]; [|].
  { change ((if has_slash t then after_last_slash t else t) = t). by rewrite Ht. }
  change (after_last_slash (String c (s +:+ "/" +:+ t)) = t). cbn [after_last_slash].
  by rewrite has_slash_app, orb_true_r.
Qed.

Section Allocate.
Context `{Etcd, !EtcdLaws, !Libs, !LibsLaws} (clock : Z) (supply : nat → uuid).

Lemma reservation_key_app networkID ip :
  vmNicIPv4ReservationKey networkID ip = vmNicIPv4ReservationPrefix networkID +:+ Addr_String ip.
Proof.
  unfold vmNicIPv4ReservationKey, vmNicIPv4ReservationPrefix, Key. cbn [str_join]. by rewrite <-!string_app_assoc.
Qed.

Lemma reservation_address networkID ip :
  addr_ok ip → ParseAddr (after_last_slash (vmNicIPv4ReservationKey networkID ip)) = Some ip.
Proof.
  intros Hip. rewrite reservation_key_app. unfold vmNicIPv4ReservationPrefix. rewrite <-string_app_assoc.
  rewrite after_last_slash_app by apply Addr_String_no_slash. by apply ParseAddr_String.
Qed.

(** The reservations of a network are under the keys of IPv4 addresses. *)
Definition reservations_wf (st : estate) (networkID : uuid) : Prop :=
  ∀ k, String.prefix (vmNicIPv4ReservationPrefix networkID) k = true → is_Some (es_map st !! k) →
    ∃ ip, addr_ok ip ∧ k = vmNicIPv4ReservationKey networkID ip.

(** The addresses that are neither reserved nor the gateway's. *)
Definition free (st : estate) (networkID : uuid) (subnet : Prefix) (gateway : option Z) (ip : Z) : Prop :=
  assignable subnet ip ∧ gateway ≠ Some ip ∧ es_map st !! vmNicIPv4ReservationKey networkID ip = None.

Lemma taken_spec st networkID ip :
  reservations_wf st networkID → addr_ok ip →
  ip ∈ omap (λ kv, ParseAddr (after_last_slash kv.1))
         (map (λ kv, (kv.1, e_val kv.2)) (scan (vmNicIPv4ReservationPrefix networkID) (es_map st))) ↔
  is_Some (es_map st !! vmNicIPv4ReservationKey networkID ip).
Proof.
  intros Hwf Hip. rewrite list_elem_of_omap. split.
  - intros (kv & Hin & Hparse). apply list_elem_of_fmap in Hin as ([k e] & -> & Hin). simpl in Hparse.
    apply elem_of_scan in Hin as [Hk Hp]. destruct (Hwf k Hp) as (ip' & Hip' & ->); [by eexists|].
    rewrite reservation_address in Hparse by done. simplify_eq. by eexists.
  - intros [e He]. exists (vmNicIPv4ReservationKey networkID ip, e_val e).
    split; [|by apply reservation_address]. apply list_elem_of_fmap. exists (vmNicIPv4ReservationKey networkID ip, e).
    split; [done|]. apply elem_of_scan. split; [done|]. rewrite reservation_key_app. apply app_prefix.
Qed.

(** C15. The allocator is total: it returns the lowest free address of the subnet, or
    [ErrSubnetExhausted] when every address between the network's and the broadcast
    one is reserved or the gateway's. *)
Theorem allocateNICIPv4_lowest_free networkID subnet gateway st n :
  prefix_ok subnet → reservations_wf st networkID →
  match run_result clock supply (allocateNICIPv4 networkID subnet gateway) st n with
  | Ok ip => free st networkID subnet gateway ip ∧ ∀ b, free st networkID subnet gateway b → ip ≤ b
  | Err e => e = ErrSubnetExhausted ∧ ∀ b, ¬ free st networkID subnet gateway b
  end.
Proof.
  intros Hp Hwf. unfold run_result, allocateNICIPv4. rewrite run_bindM, run_Range. cbv zeta.
  set (taken := _ ++ option_list gateway).
  assert (∀ b, assignable subnet b → b ∉ taken ↔ free st networkID subnet gateway b) as Hfree.
  { intros b Hb. pose proof (Masked_bounds _ Hp) as [? ?]. pose proof (lastAddr4_spec _ Hp).
    assert (addr_ok b) as Hok by (unfold assignable, addr_ok in *; lia).
    unfold taken, free. rewrite elem_of_app, taken_spec by done. rewrite eq_None_not_Some.
    destruct gateway as [g|]; simpl; [rewrite list_elem_of_singleton|rewrite elem_of_nil]; naive_solver. }
  pose proof (first_gap_lowest subnet taken Hp) as Hgap.
  destruct (first_gap _ _ _ _ _) as [ip|]; simpl in *.
  - destruct Hgap as (Ha & Hn & Hmin). split; [by apply Hfree|]. intros b Hb. pose proof Hb as [Hab _].
    apply Hmin; [done|]. by apply Hfree.
  - split; [done|]. intros b Hb. pose proof Hb as [Hab _]. apply Hfree in Hb; [|done]. by apply Hb, Hgap.
Qed.
End Allocate.

Module AddressRuns.
Import Concrete.

(** 10.0.0.0/29, with 10.0.0.1 for the gateway and 10.0.0.2 reserved. *)
Definition net : Z := 10 * 2 ^ 24.
Definition store : estate := stored [(vmNicIPv4ReservationKey (id 1) (net + 2), DStr (uuid_string (id 7)))].

Lemma store_reservations : reservations_wf store (id 1).
Proof.
  intros k _ [e (Hin & _ & _)%stored_lookup]. apply list_elem_of_singleton in Hin. injection Hin as -> _.
  exists (net + 2). split; [unfold addr_ok, net; lia|done].
Qed.

Lemma subnet_ok bits : 0 ≤ bits ≤ 32 → prefix_ok (MkPrefix net bits).
Proof. intros. split; [unfold addr_ok, net; simpl; lia|done]. Qed.

(** The next address is 10.0.0.3; a /31 has none to assign. *)
Lemma allocateNICIPv4_lowest_free_witness :
  run_result 0 supply (allocateNICIPv4 (id 1) (MkPrefix net 29) (Some (net + 1))) store 0 = Ok (net + 3) ∧
  free store (id 1) (MkPrefix net 29) (Some (net + 1)) (net + 3) ∧
  run_result 0 supply (allocateNICIPv4 (id 1) (MkPrefix net 31) None) store 0 = Err ErrSubnetExhausted ∧
  ∀ b, ¬ free store (id 1) (MkPrefix net 31) None b.
Proof.
  assert (run_result 0 supply (allocateNICIPv4 (id 1) (MkPrefix net 29) (Some (net + 1))) store 0 = Ok (net + 3)) as E1
    by (vm_compute; reflexivity).
  assert (run_result 0 supply (allocateNICIPv4 (id 1) (MkPrefix net 31) None) store 0 = Err ErrSubnetExhausted) as E2
    by (vm_compute; reflexivity).
  pose proof (allocateNICIPv4_lowest_free 0 supply (id 1) (MkPrefix net 29) (Some (net + 1)) store 0
    (subnet_ok 29 ltac:(lia)) store_reservations) as H1. rewrite E1 in H1.
  pose proof (allocateNICIPv4_lowest_free 0 supply (id 1) (MkPrefix net 31) None store 0
    (subnet_ok 31 ltac:(lia)) store_reservations) as H2. rewrite E2 in H2.
  split; [exact E1|]. split; [exact (proj1 H1)|]. split; [exact E2|exact (proj2 H2)].
Defined.
End AddressRuns.
