(* ===== verification/VMWorkers.v ===== *)
(** * VM workers: internal/api/handlers/vms/run.go, agent_executors.go and
    agent_executors_lifecycle.go

    The handlers of the vm.delete, vm.start, vm.stop, vm.poweroff and vm.reboot
    jobs.  A handler marks the task running, has the agent of the VM's node do the
    work (or resumes the agent's task a previous attempt started), and projects the
    outcome; a handler that returns nil completes the job, one that fails has it
    retried.  The agent is an interface; the texts of errors and of the error
    envelope are parameters. *)

From Stdlib Require Import Ascii.
From S2P Require Import Prelude Models Float64 Etcd Prog Keys Client Tasks Nodes Migrations VMs.
Local Open Scope Z_scope.

(** ** The agent (agentclient) *)

(** [TimeoutError] is an exhausted polling budget, [Canceled] wraps [context.Canceled];
    other errors are their text. *)
Inductive agent_error :=
| AgentError (Status : Z) (Code Message : string)
| TimeoutError (text : string)
| Canceled (text : string)
| OtherError (text : string).

(** A value of type [any], by what type switches distinguish. *)
Inductive any :=
| AnyFloat64 (f : float64)
| AnyNumber (n : string)
| AnyInt64 (z : Z)
| AnyInt (z : Z)
| AnyString (s : string)
| AnyMap (m : list (string * any))
| AnyOther.

(** A nil result is [None]. *)
Record TaskTerminal := MkTaskTerminal {
  tt_Status : string;
  tt_Result : option (list (string * any));
  tt_Error : option (Z * string * string)
}.

(** The calls take the node's URL; a request also has the name of the VM and an
    idempotency key, and returns the agent's task. *)
Record agent_client := MkAgentClient {
  StartVM : string → string → string → result agent_error uuid;
  StopVM : string → string → string → result agent_error uuid;
  PoweroffVM : string → string → string → result agent_error uuid;
  RebootVM : string → string → string → result agent_error uuid;
  DeleteVM : string → string → string → result agent_error uuid;
  PollTask : string → uuid → result agent_error TaskTerminal
}.

Definition NodeIdentitySAN (nodeName : string) : string := "node-" +:+ nodeName +:+ ".agents.otherix.local".
Definition DialURL (nodeName : string) : string := "https://" +:+ NodeIdentitySAN nodeName.

Definition isAgentTaskGone (e : agent_error) : bool :=
  match e with AgentError status _ _ => status =? 404 | _ => false end.

Definition errCodeVMNotFound : string := "vm_not_found".
Definition errCodeVMNodeMissing : string := "node_not_found".
Definition errCodeVMAgentUnreachable : string := "agent_unreachable".
Definition errCodeVMTimeout : string := "request_timeout".
Definition errCodeVMDeleteFailed : string := "vm_delete_failed".

Definition classifyVMError (e : agent_error) (fallback : string) : string :=
  match e with
  | AgentError _ code _ => if bool_decide (code = "") then errCodeVMAgentUnreachable else code
  | TimeoutError _ => errCodeVMTimeout
  | Canceled _ | OtherError _ => fallback
  end.

Definition classifyLoadErr (e : err) (notFoundCode : string) : string :=
  match e with ErrNotFound => notFoundCode | _ => "internal" end.

(** The arguments every VM job carries. *)
Record VMJobArgs := MkVMJobArgs { vja_TaskID : uuid; vja_VMID : uuid; vja_NodeID : uuid }.

(** What differs between the lifecycle operations. *)
Record LifecycleKind := MkLifecycleKind {
  lk_Kind : string;
  lk_Op : string;
  lk_DesiredPhase : option VMDesiredPhase;
  lk_RuntimePhase : VMPhase;
  lk_FailureCode : string
}.

Definition LifecycleKinds : list LifecycleKind :=
  [MkLifecycleKind "vm.start" "start" (Some VmDesiredPhaseRunning) VmPhaseRunning "vm_start_failed";
   MkLifecycleKind "vm.stop" "stop" (Some VmDesiredPhaseStopped) VmPhaseStopped "vm_stop_failed";
   MkLifecycleKind "vm.poweroff" "poweroff" (Some VmDesiredPhaseStopped) VmPhaseStopped "vm_poweroff_failed";
   MkLifecycleKind "vm.reboot" "reboot" None VmPhaseRunning "vm_reboot_failed"].

Section Workers.
Context `{Libs} (err_text : err → string) (agent_text : agent_error → string).
Context (marshalTaskError : string → string → bytes) (client : agent_client).

(** [fmt.Errorf("what: %v", err)] around the error of a call. *)
Definition wrapped {A} (what : string) (m : M A) : M A :=
  r ← attempt m;
  match r with Ok a => mret a | Err e => fail (ErrOther (what +:+ ": " +:+ err_text e)) end.

(** ** Outcomes of a job *)

Definition finalizeFailed (taskID : uuid) (code : string) (cause : err) : M unit :=
  r ← attempt (UpdateTaskFinalized
        (MkUpdateTaskFinalizedParams taskID TaskStatusFailed "" (marshalTaskError code (err_text cause))));
  match r with
  | Ok _ => mret tt
  | Err e => fail (ErrOther ("finalize failed: " +:+ err_text e +:+ " (cause: " +:+ err_text cause +:+ ")"))
  end.

Definition failRun (taskID : uuid) (code : string) (cause : err) : M unit :=
  _ ← finalizeFailed taskID code cause; fail cause.

Definition failTerminal (taskID : uuid) (code : string) (cause : err) : M unit :=
  finalizeFailed taskID code cause.

Definition onAgentTaskID (taskID agentTaskID : uuid) : M unit :=
  UpdateTaskAgentTaskID (MkUpdateTaskAgentTaskIDParams taskID (Some agentTaskID)).

Definition clearAgentTaskIDIfGone (taskID : uuid) (execErr : agent_error) : M unit :=
  if isAgentTaskGone execErr then wrapped "clear agent_task_id" (ClearTaskAgentTaskID taskID) else mret tt.

(** [node] is the lookup of the node, [ErrNotFound] included. *)
Definition nodeTerminallyDead (node : option Node) (staleGrace : Z) : M bool :=
  match node with
  | None => mret true
  | Some node =>
    match node_LastHeartbeatAt node with
    | None => mret true
    | Some seen => n ← now; mret (seen <? n - staleGrace)
    end
  end.

(** ** Executors *)

(** The request to the agent, unless an earlier attempt made it; the agent's task is
    recorded before it is polled. *)
Definition post_or_resume (request : result agent_error uuid) (taskID : uuid) (agentTaskID : option uuid)
    : M (result agent_error uuid) :=
  match agentTaskID with
  | Some a => mret (Ok a)
  | None =>
    match request with
    | Err e => mret (Err e)
    | Ok a =>
      r ← attempt (onAgentTaskID taskID a);
      match r with
      | Ok _ => mret (Ok a)
      | Err e => mret (Err (OtherError ("persist agent_task_id: " +:+ err_text e)))
      end
    end
  end.

Definition dispatch (op endpoint vmName idemKey : string) : result agent_error uuid :=
  if bool_decide (op = "start") then StartVM client endpoint vmName idemKey
  else if bool_decide (op = "stop") then StopVM client endpoint vmName idemKey
  else if bool_decide (op = "poweroff") then PoweroffVM client endpoint vmName idemKey
  else if bool_decide (op = "reboot") then RebootVM client endpoint vmName idemKey
  else Err (OtherError ("unknown async lifecycle op " +:+ op)).

(** The outcome of the agent's task; [gone_ok] is the delete's reading of a 404. *)
Definition terminal_outcome (gone_ok : bool) (terminal : TaskTerminal) : result agent_error unit :=
  if bool_decide (tt_Status terminal = "success") then Ok tt
  else if bool_decide (tt_Status terminal = "failed") || bool_decide (tt_Status terminal = "cancelled") then
    match tt_Error terminal with
    | Some (status, code, message) =>
      if gone_ok && (status =? 404) then Ok tt else Err (AgentError status code message)
    | None => Err (OtherError ("agent task " +:+ tt_Status terminal +:+ " without error envelope"))
    end
  else Err (OtherError ("unexpected agent terminal status " +:+ tt_Status terminal)).

Definition poll_outcome (gone_ok : bool) (endpoint : string) (agentTaskID : uuid) : result agent_error unit :=
  match PollTask client endpoint agentTaskID with
  | Err e => Err e
  | Ok terminal => terminal_outcome gone_ok terminal
  end.

Definition lifecycle_Execute (op : string) (taskID : uuid) (agentTaskID : option uuid) (vm : VM) (node : Node)
    : M (result agent_error unit) :=
  let url := DialURL (node_Name node) in
  r ← post_or_resume (dispatch op url (vm_Name vm) (uuid_string taskID)) taskID agentTaskID;
  match r with Err e => mret (Err e) | Ok a => mret (poll_outcome false url a) end.

(** The agent does not have the VM: deleted already. *)
Definition delete_Execute (taskID : uuid) (agentTaskID : option uuid) (vmName : string) (node : Node)
    : M (result agent_error unit) :=
  let url := DialURL (node_Name node) in
  let request := DeleteVM client url vmName (uuid_string taskID) in
  match agentTaskID, request with
  | None, Err (AgentError 404 _ _) => mret (Ok tt)
  | _, _ =>
    r ← post_or_resume request taskID agentTaskID;
    match r with Err e => mret (Err e) | Ok a => mret (poll_outcome true url a) end
  end.

(** ** Handlers *)

Definition quoted (s : string) : string := let q := String (ascii_of_nat 34) "" in q +:+ s +:+ q.

Definition vm_result (vmID : uuid) : bytes := "{" +:+ quoted "vm_id" +:+ ":" +:+ quoted (uuid_string vmID) +:+ "}".
Definition skipped_result (vmID : uuid) : bytes :=
  "{" +:+ quoted "vm_id" +:+ ":" +:+ quoted (uuid_string vmID) +:+ "," +:+ quoted "skipped_agent" +:+ ":true," +:+
  quoted "reason" +:+ ":" +:+ quoted "owning node not serviceable" +:+ "}".

Definition success (taskID : uuid) (res : bytes) : UpdateTaskFinalizedParams :=
  MkUpdateTaskFinalizedParams taskID TaskStatusSuccess res "".

(** What every handler starts with: nothing to do for a settled task, and the VM and
    its node otherwise. *)
Definition load_vm_node (args : VMJobArgs) (body : VM → option Node → M unit) : M unit :=
  alreadyTerminal ← wrapped "update task running" (UpdateTaskRunning (vja_TaskID args));
  if alreadyTerminal : bool then mret tt
  else
    r ← attempt (VMByID (vja_VMID args));
    match r with
    | Err e =>
      failRun (vja_TaskID args) (classifyLoadErr e errCodeVMNotFound) (ErrOther ("load vm: " +:+ err_text e))
    | Ok vm =>
      r ← attempt (NodeByID (vja_NodeID args));
      match r with
      | Err ErrNotFound => body vm None
      | Err e => failRun (vja_TaskID args) "internal" (ErrOther ("load node: " +:+ err_text e))
      | Ok node => body vm (Some node)
      end
    end.

Definition project_delete (vm : VM) (taskID : uuid) (res : bytes) : M unit :=
  wrapped "project delete success" (ProjectVMDeleteSuccess vm (success taskID res)).

Definition runDelete (staleGrace : Z) (args : VMJobArgs) : M unit :=
  let taskID := vja_TaskID args in
  load_vm_node args (λ vm node,
    dead ← nodeTerminallyDead node staleGrace;
    match dead, node with
    | false, Some node =>
      task ← wrapped "reload task" (TaskByID taskID);
      r ← delete_Execute taskID (task_AgentTaskID task) (vm_Name vm) node;
      match r with
      | Ok _ => project_delete vm taskID (vm_result (vja_VMID args))
      | Err e =>
        _ ← clearAgentTaskIDIfGone taskID e;
        if bool_decide (node_Status node = NodeStatusUnreachable)
        then project_delete vm taskID (skipped_result (vja_VMID args))
        else failRun taskID (classifyVMError e errCodeVMDeleteFailed) (ErrOther (agent_text e))
      end
    | _, _ => project_delete vm taskID (skipped_result (vja_VMID args))
    end).

Definition runLifecycle (kind : LifecycleKind) (staleGrace : Z) (args : VMJobArgs) : M unit :=
  let taskID := vja_TaskID args in
  load_vm_node args (λ vm node,
    dead ← nodeTerminallyDead node staleGrace;
    match dead, node with
    | false, Some node =>
      task ← wrapped "reload task" (TaskByID taskID);
      r ← lifecycle_Execute (lk_Op kind) taskID (task_AgentTaskID task) vm node;
      match r with
      | Err e => failRun taskID (classifyVMError e (lk_FailureCode kind)) (ErrOther (agent_text e))
      | Ok _ =>
        wrapped "project lifecycle success"
          (ProjectVMLifecycleSuccess (vja_VMID args) (lk_DesiredPhase kind) (lk_RuntimePhase kind)
             (success taskID (vm_result (vm_ID vm))))
      end
    | _, _ =>
      failTerminal taskID errCodeVMNodeMissing
        (ErrOther ("owning node " +:+ uuid_string (vja_NodeID args) +:+ " is gone or unreachable; cannot " +:+
                   lk_Op kind +:+ " vm"))
    end).
End Workers.
