(* ===== verification/Footprints.v ===== *)
(** * The footprints of the store's operations

    For every operation, the kinds of keys its transactions write. *)

From S2P Require Import Prelude Models Etcd Prog Keys Client Rules Footprint.
From S2P Require Import Jobs Tasks Nodes Drains Migrations DeleteIntent Idempotency.
Local Open Scope Z_scope.

Section Footprints.
Context `{Libs}.

(** ** Operation lists *)

Lemma taskIndexOps_in fs t : FTaskCreatedBy ∈ fs → Forall (op_in fs) (taskIndexOps t).
Proof. intros Hf. unfold taskIndexOps. case_match; repeat constructor. simpl. key_in_solve. Qed.

Lemma node_index_puts_in fs n id : FMigrationNode ∈ fs → Forall (op_in fs) (node_index_puts n id).
Proof. intros Hf. unfold node_index_puts. case_match; repeat constructor. simpl. key_in_solve. Qed.

Lemma node_index_deletes_in fs n id :
  FMigrationNode ∈ fs → Forall (op_in fs) (node_index_deletes n id).
Proof. intros Hf. unfold node_index_deletes. case_match; repeat constructor. simpl. key_in_solve. Qed.

Lemma terminalCleanupOps_in fs m :
  FMigrationNode ∈ fs → FMigrationGuard ∈ fs → Forall (op_in fs) (terminalCleanupOps m).
Proof.
  intros Hn Hg. unfold terminalCleanupOps. constructor; [simpl; key_in_solve|].
  apply Forall_app; split; by apply node_index_deletes_in.
Qed.

Lemma pinnedNodeIndexOps_in fs o t v : FVMPinned ∈ fs → Forall (op_in fs) (pinnedNodeIndexOps o t v).
Proof.
  intros Hf. unfold pinnedNodeIndexOps. apply Forall_app. split.
  - destruct o; [|constructor]. case_bool_decide; repeat constructor. simpl. key_in_solve.
  - repeat constructor. simpl. key_in_solve.
Qed.

(** ** Tasks *)

Definition task_families : list family := [FTask; FTaskCreatedBy].

Lemma TaskByID_writes fs id : writes fs (TaskByID id).
Proof. unfold TaskByID. writes_solve. Qed.
#[local] Hint Resolve TaskByID_writes : writes.

Lemma UpdateTaskRunning_writes id : writes [FTask] (UpdateTaskRunning id).
Proof. unfold UpdateTaskRunning. writes_solve. Qed.
Lemma UpdateTaskFinalized_writes arg : writes [FTask] (UpdateTaskFinalized arg).
Proof. unfold UpdateTaskFinalized, updateTask. writes_solve. Qed.
Lemma UpdateTaskAgentTaskID_writes arg : writes [FTask] (UpdateTaskAgentTaskID arg).
Proof. unfold UpdateTaskAgentTaskID, updateTask. writes_solve. Qed.
Lemma ClearTaskAgentTaskID_writes id : writes [FTask] (ClearTaskAgentTaskID id).
Proof. unfold ClearTaskAgentTaskID, updateTask. writes_solve. Qed.

Lemma DeleteExpiredTasks_writes arg : writes task_families (DeleteExpiredTasks arg).
Proof.
  unfold DeleteExpiredTasks. apply writes_bindM; [done|]. intros items. apply writes_bindM; [|done].
  apply writes_commitInChunks, Forall_forall. intros o (t & Ho & _)%list_elem_of_bind.
  unfold expired_task_ops in Ho. apply elem_of_cons in Ho as [->|Ho]; [simpl; key_in_solve|].
  case_match; [|by apply elem_of_nil in Ho]. apply list_elem_of_singleton in Ho as ->.
  simpl. key_in_solve.
Qed.

(** ** Nodes *)

Lemma casNodeStatus_writes id s : writes [FNode] (casNodeStatus id s).
Proof. unfold casNodeStatus, live_node_with_rev, nodeWithRev, cas_node. writes_solve. Qed.
Lemma casGoneToUnreachable_writes id : writes [FNode] (casGoneToUnreachable id).
Proof. unfold casGoneToUnreachable, live_node_with_rev, nodeWithRev, cas_node. writes_solve. Qed.
#[local] Hint Resolve casNodeStatus_writes casGoneToUnreachable_writes : writes.

Lemma PromoteHealthyNodes_writes t : writes [FNode] (PromoteHealthyNodes t).
Proof. unfold PromoteHealthyNodes, liveNodes. writes_solve. Qed.
Lemma MarkNodesUnreachable_writes t : writes [FNode] (MarkNodesUnreachable t).
Proof. unfold MarkNodesUnreachable, liveNodes. writes_solve. Qed.
Lemma RewriteGoneNodesToUnreachable_writes : writes [FNode] RewriteGoneNodesToUnreachable.
Proof. unfold RewriteGoneNodesToUnreachable, liveNodes. writes_solve. Qed.

Lemma nodeWithRev_writes fs id : writes fs (nodeWithRev id).
Proof. unfold nodeWithRev. writes_solve. Qed.
#[local] Hint Resolve nodeWithRev_writes : writes.

Lemma CreateNode_writes arg : writes [FNode; FNodeName] (CreateNode arg).
Proof. unfold CreateNode. writes_solve. Qed.
Lemma setNodeCordon_writes id s c : writes [FNode] (setNodeCordon id s c).
Proof. unfold setNodeCordon. writes_solve. Qed.
Lemma CordonNode_writes id : writes [FNode] (CordonNode id).
Proof. exact (setNodeCordon_writes id _ _). Qed.
Lemma UncordonNode_writes id : writes [FNode] (UncordonNode id).
Proof. exact (setNodeCordon_writes id _ _). Qed.
Lemma SetNodeGatewayRole_writes id b : writes [FNode] (SetNodeGatewayRole id b).
Proof. unfold SetNodeGatewayRole. writes_solve. Qed.
Lemma casNodeUpdate_writes id mutate : (∀ n, writes [FNode] (mutate n)) → writes [FNode] (casNodeUpdate id mutate).
Proof.
  intros Hm. unfold casNodeUpdate. generalize 5%nat. intros k. induction k as [|k IH]; [done|]. cbn [cas_update_attempts].
  writes_solve; auto.
Qed.
Lemma UpdateNodeHeartbeat_writes arg : writes [FNode] (UpdateNodeHeartbeat arg).
Proof. apply writes_bindM; [apply casNodeUpdate_writes|done]. intros n. writes_solve. Qed.
Lemma UpdateNodeMemoryPressure_writes arg : writes [FNode] (UpdateNodeMemoryPressure arg).
Proof. apply writes_bindM; [apply casNodeUpdate_writes|done]. intros n. writes_solve. Qed.
Lemma UpdateNodeSystemDiskPressure_writes arg : writes [FNode] (UpdateNodeSystemDiskPressure arg).
Proof. apply writes_bindM; [apply casNodeUpdate_writes|done]. intros n. writes_solve. Qed.

(** ** Drains *)

Definition drain_families : list family := [FNode; FTask; FDrainCancel].

Lemma FinishNodeDrain_writes id task status result :
  writes drain_families (FinishNodeDrain id task status result).
Proof.
  unfold FinishNodeDrain, drain_families. apply writes_bindM; [auto with writes|]. intros [n rev].
  apply writes_bindM; [auto with writes|]. intros t. destruct (isTerminalTaskStatus _); [done|].
  apply writes_bindM; [done|]. intros now. apply writes_bindM; [auto with writes|]. intros v.
  destruct (drain_ended n now) as [n'|]; [|simpl; split_and!; writes_solve].
  unfold Marshal at 1, capValue. case_match; [done|]. simpl. split_and!; writes_solve.
Qed.
Lemma RequestDrainCancel_writes task : writes [FDrainCancel] (RequestDrainCancel task).
Proof. unfold RequestDrainCancel, Put, capValue. case_match; [done|]. simpl. split_and!; writes_solve. Qed.
Lemma DeleteDrainCancel_writes task : writes [FDrainCancel] (DeleteDrainCancel task).
Proof. unfold DeleteDrainCancel. writes_solve. Qed.

Lemma taskWithRev_writes fs id : writes fs (taskWithRev id).
Proof. unfold taskWithRev. writes_solve. Qed.
Lemma jobWithRev_writes fs id : writes fs (jobWithRev id).
Proof. unfold jobWithRev. writes_solve. Qed.
#[local] Hint Resolve taskWithRev_writes jobWithRev_writes : writes.

Lemma finalizeStuckDrainTask_writes id r : writes [FNode; FTask] (finalizeStuckDrainTask id r).
Proof. unfold finalizeStuckDrainTask. writes_solve. Qed.
Lemma cordonStuckDrain_writes id : writes [FNode; FTask] (cordonStuckDrain id).
Proof. unfold cordonStuckDrain. writes_solve. Qed.
#[local] Hint Resolve finalizeStuckDrainTask_writes cordonStuckDrain_writes : writes.

Lemma ReconcileStuckDrain_writes r : writes [FNode; FTask] (ReconcileStuckDrain r).
Proof.
  unfold ReconcileStuckDrain. apply writes_bind; [unfold listNodesByStatus, liveNodes; writes_solve|].
  intros [nodes|e]; [|done]. generalize 0. induction nodes as [|n nodes IH]; intros k; [done|].
  apply writes_bind; [|intros [[]|]; [apply IH..|done]]. unfold reconcile_one, drainStillLive, drainJobLive. writes_solve.
Qed.

(** ** Migrations *)

Definition migration_families : list family := [FMigration; FMigrationGuard; FMigrationNode].
Definition cutover_families : list family :=
  migration_families ++ [FVM; FVMPinned; FVMRuntime; FVMRuntimeNode].

Lemma migration_with_rev_writes fs id : writes fs (migration_with_rev id).
Proof. unfold migration_with_rev. writes_solve. Qed.
Lemma cas_migration_writes m rev conds more :
  Forall (op_in migration_families) more → writes migration_families (cas_migration m rev conds more).
Proof.
  intros Hm. unfold cas_migration. writes_solve.
Qed.
#[local] Hint Resolve migration_with_rev_writes : writes.

Lemma terminal_in m : Forall (op_in migration_families) (terminalCleanupOps m).
Proof. apply terminalCleanupOps_in; set_solver. Qed.

Lemma UpdateMigrationProgress_writes id upd :
  writes migration_families (UpdateMigrationProgress id upd).
Proof.
  unfold UpdateMigrationProgress. writes_solve. apply cas_migration_writes.
  case_match; [apply terminal_in|constructor].
Qed.
Lemma UpdateMigrationStats_writes id stats : writes migration_families (UpdateMigrationStats id stats).
Proof. unfold UpdateMigrationStats. writes_solve. by apply cas_migration_writes. Qed.
Lemma CancelMigration_writes id reason : writes migration_families (CancelMigration id reason).
Proof. unfold CancelMigration. writes_solve. apply cas_migration_writes, terminal_in. Qed.
Lemma BindMigrationTarget_writes ctx id n pool :
  writes migration_families (BindMigrationTarget ctx id n pool).
Proof.
  unfold BindMigrationTarget. writes_solve.
  apply cas_migration_writes, node_index_puts_in. set_solver.
Qed.
#[local] Hint Resolve CancelMigration_writes : writes.

Lemma loadCutoverState_writes fs id : writes fs (loadCutoverState id).
Proof. unfold loadCutoverState, NodeByID. writes_solve. Qed.
#[local] Hint Resolve loadCutoverState_writes : writes.

Lemma cutoverRuntimeOps_returns rt source target :
  returns (on_ok (Forall (op_in cutover_families))) (cutoverRuntimeOps rt source target).
Proof.
  unfold cutoverRuntimeOps. destruct rt as [[rt rev]|]; [|by constructor].
  apply returns_bindM, returns_any. intros val. unfold cutover_families, migration_families.
  simpl. writes_solve. destruct source; [|constructor]. case_bool_decide; writes_solve.
Qed.

Lemma CommitMigrationCutover_writes id : writes cutover_families (CommitMigrationCutover id).
Proof.
  unfold CommitMigrationCutover. apply writes_bindM; [apply loadCutoverState_writes|].
  intros [cs|]; [|done]. apply writes_bindM; [done|]. intros t. destruct (mig_TargetNodeID _); [|done].
  apply writes_bindM; [apply writes_Marshal|]. intros v1.
  apply writes_bindM; [apply writes_Marshal|]. intros v2.
  eapply writes_bindM_returns; [|apply cutoverRuntimeOps_returns|].
  { unfold cutoverRuntimeOps. writes_solve. }
  intros rtOps Hrt. unfold cutover_families, migration_families in *. writes_solve.
  - apply pinnedNodeIndexOps_in. set_solver.
  - apply terminalCleanupOps_in; set_solver.
Qed.

Lemma first_active_writes fs items : writes fs (first_active items).
Proof. induction items; cbn [first_active]; writes_solve. Qed.
Lemma any_tried_writes fs n items : writes fs (any_tried n items).
Proof. induction items; cbn [any_tried]; writes_solve. Qed.

Definition sweep_families : list family := FMigrationVM :: migration_families.

Lemma expired_migration_ops_in m : Forall (op_in sweep_families) (expired_migration_ops m).
Proof.
  unfold expired_migration_ops. apply Forall_app. split.
  - repeat constructor; simpl; unfold sweep_families, migration_families; key_in_solve.
  - apply terminalCleanupOps_in; set_solver.
Qed.

(** The sweep's loop collects operations of the swept kinds. *)
Lemma DeleteExpiredMigrations_writes arg : writes sweep_families (DeleteExpiredMigrations arg).
Proof.
  unfold DeleteExpiredMigrations. apply writes_bindM; [done|]. intros items.
  eapply (writes_bindM_returns _ (λ acc, Forall (op_in sweep_families) acc.1)).
  - unfold sweep_one, migrationRecordsAnUnresolvedIncident, VMByID. writes_solve.
  - apply returns_for_each; [by constructor|]. intros m [ops n] _ Hops. simpl in Hops.
    unfold sweep_one. destruct (migrationRetentionExpired m arg); [|done]. cbn [negb].
    apply returns_bindM, returns_any. intros []; [done|]. simpl.
    apply Forall_app. split; [done|apply expired_migration_ops_in].
  - intros [ops n] Hops. apply writes_bindM; [by apply writes_commitInChunks|done].
Qed.

Lemma cancel_attempts_writes n id reason : writes migration_families (cancel_attempts n id reason).
Proof. induction n; cbn [cancel_attempts]; writes_solve. Qed.
#[local] Hint Resolve cancel_attempts_writes : writes.
Lemma cancelNodeMigrations_writes migs reason :
  writes migration_families (cancelNodeMigrations migs reason).
Proof.
  unfold cancelNodeMigrations. generalize 0%Z as n. induction migs; intros n; cbn [cancel_loop]; writes_solve.
Qed.

Lemma orphanOneVMRuntime_writes vm node k :
  key_in [FVMRuntimeNode] k → writes [FVMRuntime; FVMRuntimeNode] (orphanOneVMRuntime vm node k).
Proof.
  intros Hk. assert (key_in [FVMRuntime; FVMRuntimeNode] k) as Hk'.
  { unfold key_in in *. case_match; set_solver. }
  unfold orphanOneVMRuntime. generalize nodeDeleteCASAttempts as n. intros n.
  induction n; cbn [orphan_attempts]; [done|]. apply writes_bindM; [done|]. intros [e|].
  2: { apply writes_bindM; [by apply writes_Delete|done]. }
  destruct (decode_doc (e_val e)) as [rt|]; [|done]. case_bool_decide; cbn [negb].
  - writes_solve.
  - apply writes_bindM; [by apply writes_Delete|done].
Qed.

(** ** Delete intents *)

Lemma setDeleteIntent_writes k t : key_in [FDeleting] k → writes [FDeleting] (setDeleteIntent k t).
Proof.
  intros Hk. unfold setDeleteIntent. apply writes_bindM; [by apply writes_raw_txn; repeat constructor|].
  writes_solve.
Qed.
Lemma clearDeleteIntent_writes k r : key_in [FDeleting] k → writes [FDeleting] (clearDeleteIntent k r).
Proof.
  intros Hk. unfold clearDeleteIntent. apply writes_bindM; [|done].
  apply writes_attempt, writes_raw_txn; by repeat constructor.
Qed.

Lemma ReapStaleDeleteIntents_writes t stale : writes [FDeleting] (ReapStaleDeleteIntents t stale).
Proof.
  unfold ReapStaleDeleteIntents. simpl. split_and!; [done|done|]. intros items Hp.
  assert (∀ k e, (k, e) ∈ items → key_in [FDeleting] k) as Hk.
  { intros k e Hke%Hp. unfold key_in. simpl in Hke. rewrite (prefix_deleting k Hke). set_solver. }
  clear Hp. revert Hk. generalize 0%Z as n. induction items as [|[k e] items IH]; intros n Hk; [done|].
  simpl. case_match; [apply IH; set_solver|]. simpl. split_and!.
  - repeat constructor. apply (Hk k e). by left.
  - constructor.
  - done.
  - intros r _. apply IH. set_solver.
Qed.

(** ** Idempotency *)

Lemma GetIdempotencyKey_writes fs u k : writes fs (GetIdempotencyKey u k).
Proof. unfold GetIdempotencyKey. writes_solve. Qed.
#[local] Hint Resolve GetIdempotencyKey_writes : writes.

Lemma BeginIdempotencyKey_writes arg : writes [FIdempotencyKey] (BeginIdempotencyKey arg).
Proof. unfold BeginIdempotencyKey, idempotencyParamsKey. destruct (cik_UserID arg); writes_solve. Qed.
Lemma ReclaimIdempotencyKey_writes arg : writes [FIdempotencyKey] (ReclaimIdempotencyKey arg).
Proof.
  unfold ReclaimIdempotencyKey, idempotencyParamsKey, idempotencyWithRev.
  destruct (cik_UserID arg); writes_solve.
Qed.
Lemma CompleteIdempotencyKey_writes arg : writes [FIdempotencyKey] (CompleteIdempotencyKey arg).
Proof. unfold CompleteIdempotencyKey, idempotencyParamsKey. destruct (cip_UserID arg); writes_solve. Qed.
Lemma DeleteIdempotencyKey_writes u k : writes [FIdempotencyKey] (DeleteIdempotencyKey u k).
Proof. unfold DeleteIdempotencyKey. writes_solve. Qed.

Lemma expired_keys_returns {A} `{Codec A} fs (expires : A → Z) t items :
  (∀ kv, kv ∈ items → key_in fs kv.1) → returns (on_ok (Forall (op_in fs))) (expired_keys expires t items).
Proof.
  intros Hk. apply returns_for_each; [constructor|]. intros kv ops Hkv Hops.
  destruct (decode_doc kv.2); [|done]. simpl. case_match; [|done].
  apply Forall_app. split; [done|]. repeat constructor. simpl. auto.
Qed.

Lemma DeleteExpiredIdempotencyKeys_writes : writes [FIdempotencyKey] DeleteExpiredIdempotencyKeys.
Proof.
  unfold DeleteExpiredIdempotencyKeys. apply writes_Range_bind. intros items Hp.
  apply writes_bindM; [done|]. intros t. eapply writes_bindM_returns.
  - unfold expired_keys. writes_solve.
  - apply (expired_keys_returns [FIdempotencyKey]). intros kv Hkv%Hp. unfold key_in.
    rewrite (prefix_idempotency kv.1 Hkv). set_solver.
  - intros ops Hops. apply writes_bindM; [by apply writes_commitInChunks|done].
Qed.

Lemma DeleteExpiredIdempotencyTaskIndex_writes :
  writes [FIdempotencyTask] DeleteExpiredIdempotencyTaskIndex.
Proof.
  unfold DeleteExpiredIdempotencyTaskIndex. apply writes_Range_bind. intros items Hp.
  apply writes_bindM; [done|]. intros t. eapply writes_bindM_returns.
  - unfold expired_keys. writes_solve.
  - apply (expired_keys_returns [FIdempotencyTask]). intros kv Hkv%Hp. unfold key_in.
    rewrite (prefix_idempotency_task kv.1 Hkv). set_solver.
  - intros ops Hops. apply writes_bindM; [by apply writes_commitInChunks|done].
Qed.
End Footprints.

#[export] Hint Resolve TaskByID_writes migration_with_rev_writes loadCutoverState_writes
  GetIdempotencyKey_writes : writes.
