(* ===== verification/JobProtocol.v ===== *)
(** * The life of a job

    Under any interleaving of the store's operations, a job row is created once,
    under a sequence number nobody else was given, and then only moves along the
    edges of [job_lifecycle].  Every edge but the first names the call that takes
    it, with its token or its cutoff.  The file defines the protocol (its
    invariant and its steps) and shows that each operation follows it. *)

From S2P Require Import Prelude Models Strconv Etcd Prog Keys Client Rules Footprint.
From S2P Require Import Jobs JobFence Tasks Migrations Footprints.
Import Strconv.
Local Open Scope Z_scope.

(** The calls that change the row of a job, with the arguments that matter to
    it. *)
Inductive job_call :=
| CallClaim (id : Z)
| CallRenew (id : Z) (token : string)
| CallRetry (id : Z) (token : string) (maxAttempts : Z)
| CallRequeue (id : Z) (token : string)
| CallReclaim (olderThan : Z)
| CallComplete (id : Z)
| CallCancel (id : Z)
| CallSweep (olderThan : Z).

Section JobProtocol.
Context `{Etcd, !EtcdLaws, !Libs, !LibsLaws}.

(** The calls that processes make. *)
Context (made : job_call → Prop).

(** ** The protocol *)

(** The value of the sequence counter. *)
Definition counter (st : estate) : Z :=
  match e_val <$> es_map st !! jobSeqKey with
  | Some (DStr s) => default 0 (ParseInt s)
  | _ => 0
  end.

Definition job_row (w : world) (n : Z) : option doc := e_val <$> w_map w !! jobKey n.

Record job_inv (w : world) : Prop := {
  ji_wf : estate_wf (w_st w);
  ji_bound : 0 ≤ counter (w_st w) ≤ w_rev w;
  ji_counter : ∀ e, w_map w !! jobSeqKey = Some e → e_val e = DStr (FormatInt (counter (w_st w)));
  ji_used : ∀ st n, st ∈ states w → in_i64 n → is_Some (es_map st !! jobKey n) →
    1 ≤ n ≤ counter (w_st w);
  ji_rows : ∀ k e j, w_map w !! k = Some e → key_family k = Some FJob → e_val e = DJob j →
    in_i64 (job_ID j) ∧ k = jobKey (job_ID j)
}.

(** The edges of a job's life.  Each is taken by a call that was made, and only
    on a row that satisfies the condition of that call: a renewal, a retry and a
    requeue hold the token of the running claim, a reclaim finds the lease stale,
    a cancellation finds the job pending, the sweep finds it failed before the
    cutoff. *)
Inductive job_lifecycle (w : world) (n : Z) : option doc → option doc → Prop :=
| jl_same d : job_lifecycle w n d d
| jl_enqueue kind payload :
    unused w (OwnKey (jobKey n)) →
    job_lifecycle w n None (Some (DJob (pending_job n kind payload)))
| jl_claim j j' :
    made (CallClaim n) → claims j j' → job_lifecycle w n (Some (DJob j)) (Some (DJob j'))
| jl_renew token j j' :
    made (CallRenew n token) → renews token j j' →
    job_lifecycle w n (Some (DJob j)) (Some (DJob j'))
| jl_retry token m j j' :
    made (CallRetry n token m) → retries token m j j' →
    job_lifecycle w n (Some (DJob j)) (Some (DJob j'))
| jl_requeue token j j' :
    made (CallRequeue n token) → requeues token j j' →
    job_lifecycle w n (Some (DJob j)) (Some (DJob j'))
| jl_reclaim olderThan j j' :
    made (CallReclaim olderThan) → reclaims olderThan j j' →
    job_lifecycle w n (Some (DJob j)) (Some (DJob j'))
| jl_complete d : made (CallComplete n) → job_lifecycle w n (Some d) None
| jl_cancel j :
    made (CallCancel n) → job_State j = JobStatePending → job_lifecycle w n (Some (DJob j)) None
| jl_sweep olderThan j :
    made (CallSweep olderThan) → failed_before olderThan j = true →
    job_lifecycle w n (Some (DJob j)) None.

Definition job_step (w w' : world) : Prop :=
  any_env w w' ∧ (job_inv w → job_inv w') ∧ counter (w_st w) ≤ counter (w_st w') ∧
  ∀ n, in_i64 n → job_lifecycle w n (job_row w n) (job_row w' n).

Definition job_ownable (w : world) (r : resource) : Prop :=
  match r with
  | OwnKey k => ∃ n, k = jobKey n ∧ 1 ≤ n ≤ counter (w_st w)
  | OwnPrefix _ => False
  | OwnUuid u => u ∈ w_issued w
  end.

Definition job_protocol : protocol := {|
  pr_inv := job_inv;
  pr_rely := job_step;
  pr_guar := job_step;
  pr_ownable := job_ownable
|}.

(** ** Laws *)

Lemma counter_same st st' :
  es_map st' !! jobSeqKey = es_map st !! jobSeqKey → counter st' = counter st.
Proof. intros Hk. unfold counter. by rewrite Hk. Qed.

Lemma family_jobKey n : key_family (jobKey n) = Some FJob.
Proof. unfold key_family. by rewrite class_jobKey. Qed.

Lemma counter_in_i64 w n : job_inv w → 0 ≤ n ≤ counter (w_st w) → in_i64 n.
Proof.
  intros Hi Hn. pose proof (ji_bound w Hi). destruct (ji_wf w Hi) as [? _].
  unfold w_rev in *. unfold in_i64, max_i64 in *. lia.
Qed.

(** The edges keep a job's number. *)
Lemma job_lifecycle_id w n d j' :
  job_lifecycle w n d (Some (DJob j')) → (∀ j, d = Some (DJob j) → job_ID j = n) → job_ID j' = n.
Proof.
  intros Hl Hd. inversion Hl as [|kind payload Hu|j j1 _ Hc|token j j1 _ Hc|token m j j1 _ Hc|token j j1 _ Hc
    |cutoff j j1 _ Hc| | |]; subst; [by eauto|done|..]; destruct Hc as [_ Hc].
  - destruct Hc as (u & t & ->). exact (Hd _ eq_refl).
  - destruct Hc as (t & ->). exact (Hd _ eq_refl).
  - destruct Hc as (t & ->). unfold retried. case_match; exact (Hd _ eq_refl).
  - subst. exact (Hd _ eq_refl).
  - subst. exact (Hd _ eq_refl).
Qed.

(** A step that leaves the counter alone and takes job rows along the edges. *)
Lemma job_step_rows w w' :
  job_inv w → any_env w w' → w_map w' !! jobSeqKey = w_map w !! jobSeqKey →
  (∀ k, key_family k = Some FJob → w_map w' !! k = w_map w !! k ∨
     ∃ n, in_i64 n ∧ k = jobKey n ∧ job_lifecycle w n (job_row w n) (job_row w' n) ∧
       (w_map w !! k = None → 1 ≤ n ≤ counter (w_st w))) →
  job_step w w'.
Proof.
  intros Hi Henv Hc Hk. pose proof (counter_same (w_st w) (w_st w') Hc) as Hcnt.
  pose proof Henv as (He & _ & Hst). pose proof Hi as [Hwf Hb Hcv Hu Hrows].
  split_and!; [done| |lia|].
  - intros _. constructor; [by eapply estep_wf| |by rewrite Hc, Hcnt|..].
    + destruct He as [? _]. unfold w_rev in *. lia.
    + intros st n [->|Hin]%Hst Hn Hs; rewrite Hcnt; [|by eapply Hu].
      destruct (Hk (jobKey n) (family_jobKey n)) as [Heq|(n' & Hn' & E & _ & Hnew)].
      * apply (Hu (w_st w)); [by left|done|]. unfold w_map in Heq. by rewrite <-Heq.
      * apply jobKey_inj in E as <-; [|done..].
        destruct (w_map w !! jobKey n) eqn:Eo; [|by apply Hnew].
        apply (Hu (w_st w)); [by left|done|]. by eexists.
    + intros k e j Hke Hf Hj. destruct (Hk k Hf) as [Heq|(n & Hn & -> & Hl & _)].
      { rewrite Heq in Hke. by eapply Hrows. }
      unfold job_row at 2 in Hl. rewrite Hke in Hl. simpl in Hl. rewrite Hj in Hl.
      apply job_lifecycle_id in Hl; [by subst n|]. intros j0 Hj0. unfold job_row in Hj0.
      apply fmap_Some in Hj0 as (e0 & He0 & Hd0). symmetry in Hd0.
      destruct (Hrows _ _ _ He0 Hf Hd0) as [? E]. symmetry. by apply jobKey_inj.
  - intros n Hn. destruct (Hk (jobKey n) (family_jobKey n)) as [Heq|(n' & Hn' & E & Hl & _)].
    + unfold job_row. rewrite Heq. constructor.
    + by apply jobKey_inj in E as <-.
Qed.

#[export] Instance job_protocol_laws : EtcdProtocol job_protocol.
Proof.
  split; [split|..]; simpl.
  - intros w w' Hs. pose proof (any_env_same w w' Hs) as Henv. destruct Hs as (Hst & _).
    assert (w_map w' = w_map w) as Hm by (unfold w_map; by rewrite Hst).
    split_and!; [done| |by rewrite Hst|].
    + intros Hi. apply (job_step_rows w w'); [done|done|by rewrite Hm| |done].
      intros k _. left. by rewrite Hm.
    + intros n _. unfold job_row. rewrite Hm. constructor.
  - intros w w' ? (_ & ? & _); auto.
  - intros w w' ? (_ & ? & _); auto.
  - intros w w' [k|p|u] _ (Henv & _ & Hc & _); simpl; [|done|].
    + intros (n & -> & Hn). exists n. split; [done|lia].
    + destruct Henv as (_ & ? & _). set_solver.
  - by intros w [].
  - by intros w w' [? _].
Qed.

(** Operations on other kinds of keys follow the protocol. *)
Lemma job_frame fs : FJob ∉ fs → FJobSeq ∉ fs → Frame job_protocol fs.
Proof.
  intros Hj Hs. split; simpl.
  - intros w w' Hi Henv Hk. apply job_step_rows; [done|done|..].
    + apply Hk. unfold key_in, key_family. by rewrite class_jobSeqKey.
    + intros k Hf. left. apply Hk. unfold key_in. by rewrite Hf.
  - intros w [k|p|u]; [|done..]. intros (n & -> & _). simpl. unfold key_in. by rewrite family_jobKey.
Qed.

(** ** Ownership *)

(** A step that creates no job row. *)
Lemma own_step_job O O' w w' :
  job_inv w → job_step w w' → O' ⊆ O → (∀ r, r ∈ O' → unused w' r) →
  (∀ n, in_i64 n → OwnKey (jobKey n) ∉ O → w_map w !! jobKey n = None →
     w_map w' !! jobKey n = None) →
  own_step job_protocol O O' w w'.
Proof.
  intros Hi Hs Hsub Hun Hnone. split_and!; [done| |].
  - intros [k|p|u] Ho Hnot Hu; [|done..]. destruct Ho as (n & -> & Hn). intros st Hin.
    destruct Hs as ((_ & _ & Hst) & _). apply Hst in Hin as [->|Hin]; [|by apply Hu].
    apply Hnone; [eapply counter_in_i64; [done|lia]|done|]. apply Hu. by left.
  - intros r Hr. split; [by apply Hun|]. left. set_solver.
Qed.

Lemma own_step_job_nil w w' :
  job_inv w → job_step w w' →
  (∀ n, in_i64 n → w_map w !! jobKey n = None → w_map w' !! jobKey n = None) →
  own_step job_protocol ∅ ∅ w w'.
Proof. intros Hi Hs Hn. apply own_step_job; [done|done|done|set_solver|auto]. Qed.

Lemma job_step_issue w u : job_inv w → job_step w (issue u w).
Proof.
  intros Hi. apply job_step_rows; [done|apply any_env_issue|done|]. intros k _. by left.
Qed.

(** A program that draws a uuid is the only one to know it. *)
Lemma wp_new_uuid_job O Q w :
  (∀ w1 u, settled job_protocol O w w1 → Q (Ok u) ({[OwnUuid u]} ∪ O) (issue u w1)) →
  wp job_protocol new_uuid O Q w.
Proof.
  intros HQ w1 u Hw1 Hu. exists ({[OwnUuid u]} ∪ O). split; [|by apply HQ, reaches_settled].
  destruct Hw1 as (_ & Hi & Hun). split_and!; [by apply job_step_issue|by intros ?|].
  intros r [->%elem_of_singleton|Hr]%elem_of_union; [|split; [by apply Hun|by left]].
  split; [done|right]. split; [simpl; set_solver|done].
Qed.

Lemma counter_settled O w w' n :
  settled job_protocol O w w' → n ≤ counter (w_st w) → n ≤ counter (w_st w').
Proof.
  intros (w1 & (Hr & _) & -> & _) Hn. clear w'.
  induction Hr as [|w w1 w2 [Hrely _] _ IH]; [done|]. apply IH.
  destruct Hrely as (_ & _ & ? & _). lia.
Qed.

(** ** The fenced operations *)

Lemma lift_row_write (P : Job → Job → Prop) id w w' :
  (∀ w j j', P j j' → job_lifecycle w id (Some (DJob j)) (Some (DJob j'))) →
  in_i64 id → job_inv w → any_env w w' → row_write (jobKey id) P (w_st w) (w_st w') →
  own_step job_protocol ∅ ∅ w w'.
Proof.
  intros HP Hid Hi Henv [Hne (e & e' & j & j' & He & Hv & He' & Hv' & HPj)].
  fold (w_map w) in *. fold (w_map w') in *.
  apply own_step_job_nil; [done| |].
  - apply job_step_rows; [done|done|by apply Hne; key_neq|]. intros k Hk.
    destruct (decide (k = jobKey id)) as [->|Hneq]; [right|left; by apply Hne].
    exists id. split_and!; [done|done| |by rewrite He].
    unfold job_row. rewrite He, He'. simpl. rewrite Hv, Hv'. by apply HP.
  - intros n Hn Hnone. destruct (decide (jobKey n = jobKey id)) as [E|?]; [|by rewrite Hne].
    rewrite E in Hnone. congruence.
Qed.

(** A program whose writes, in any environment, rewrite job rows along edges. *)
Lemma wp_lift_job (G : estate → estate → Prop) {R} (p : prog R) w :
  (∀ w w', job_inv w → G (w_st w) (w_st w') → ∃ id P, in_i64 id ∧
     (∀ w j j', P j j' → job_lifecycle w id (Some (DJob j)) (Some (DJob j'))) ∧
     row_write (jobKey id) P (w_st w) (w_st w')) →
  wp (open_protocol G) p ∅ (λ _ _ _, True) w → wp job_protocol p ∅ (λ _ _ _, True) w.
Proof.
  intros HG. apply (wp_open_lift job_protocol).
  - intros w1 w2 Hi Henv Hg. destruct (HG w1 w2 Hi Hg) as (id & P & ? & ? & ?).
    by eapply (lift_row_write P).
  - intros w1 u Hi. apply own_step_job_nil; [done|by apply job_step_issue|done].
Qed.

Lemma RenewJobLease_job id token w :
  made (CallRenew id token) → in_i64 id →
  wp job_protocol (RenewJobLease id token) ∅ (λ _ _ _, True) w.
Proof.
  intros Hm Hid. eapply wp_lift_job; [|apply RenewJobLease_wp]. intros w1 w2 _ Hw.
  exists id, (renews token). split_and!; [done| |done]. intros. by eapply jl_renew.
Qed.

Lemma RetryJob_job id token m w :
  made (CallRetry id token m) → in_i64 id →
  wp job_protocol (RetryJob id token m) ∅ (λ _ _ _, True) w.
Proof.
  intros Hm Hid. eapply wp_lift_job; [|apply RetryJob_wp]. intros w1 w2 _ Hw.
  exists id, (retries token m). split_and!; [done| |done]. intros. by eapply jl_retry.
Qed.

Lemma RequeueJob_job id token w :
  made (CallRequeue id token) → in_i64 id →
  wp job_protocol (RequeueJob id token) ∅ (λ _ _ _, True) w.
Proof.
  intros Hm Hid. eapply wp_lift_job; [|apply RequeueJob_wp]. intros w1 w2 _ Hw.
  exists id, (requeues token). split_and!; [done| |done]. intros. by eapply jl_requeue.
Qed.

Lemma ReclaimStaleRunningJobs_job olderThan w :
  made (CallReclaim olderThan) →
  wp job_protocol (ReclaimStaleRunningJobs olderThan) ∅ (λ _ _ _, True) w.
Proof.
  intros Hm. eapply (wp_lift_job
    (λ st st', ∃ id, row_write (jobKey id) (reclaims olderThan) st st')).
  - intros w1 w2 Hi [id Hw]. pose proof Hw as [_ (e & e' & j & j' & He & Hv & _)].
    destruct (ji_rows w1 Hi (jobKey id) e j) as [Hj E]; [done|apply family_jobKey|done|].
    exists (job_ID j), (reclaims olderThan). split_and!; [done| |by rewrite <-E].
    intros. by eapply jl_reclaim.
  - apply wp_bind, wp_bindM. apply (wp_raw_range (open_protocol _)).
    intros w2 Hw2. split; [done|]. apply wp_mret, reclaim_loop_wp.
Qed.

(** ** Claims *)

Lemma wp_cas_job_own O id e j j' Q w :
  in_i64 id → seen (jobKey id) e (w_st w) → e_val e = encode_doc j →
  (∀ w, job_lifecycle w id (Some (DJob j)) (Some (DJob j'))) →
  (∀ r, r ∈ O → ∃ u, r = OwnUuid u) → (∀ r w', Q r O w') →
  wp job_protocol (cas_job id (e_mod e) j') O Q w.
Proof.
  intros Hid Hseen Hv Hl HO HQ. apply wp_bindM, wp_Marshal; [done|]. apply wp_bindM.
  apply (wp_raw_txn job_protocol); [intros; apply HQ|intros; simpl; apply HQ|].
  intros w1 Hw1 Hc _ Hmax. exists O. split; [|by split; intros; simpl; apply HQ].
  apply andb_true_iff in Hc as [Hc _].
  assert (w_map w1 !! jobKey id = Some e) as Hk by (by eapply (cas_lookup job_protocol)).
  destruct Hw1 as (_ & Hi & Hun). apply own_step_job; [done| |done|..].
  - apply job_step_rows; [done|by apply any_env_applied|..].
    + rewrite applied_put, lookup_insert_ne; [done|key_neq].
    + intros k Hf. rewrite applied_put.
      destruct (decide (k = jobKey id)) as [->|?]; [right|left; by rewrite lookup_insert_ne].
      exists id. split_and!; [done|done| |by rewrite Hk].
      unfold job_row. rewrite applied_put, lookup_insert_eq, Hk. simpl. rewrite Hv. apply Hl.
  - intros r Hr. by destruct (HO r Hr) as [u ->].
  - intros n Hn _ Hnone. rewrite applied_put, lookup_insert_ne; [done|]. congruence.
Qed.

(** A successful claim returns a token only the claimant knows. *)
Definition claim_post (r : result err (bool * string)) (O : gset resource) : Prop :=
  match r with
  | Ok (true, token) => ∃ u, token = uuid_string u ∧ OwnUuid u ∈ O
  | _ => True
  end.

Lemma ClaimJob_job id w :
  made (CallClaim id) → in_i64 id → wp job_protocol (ClaimJob id) ∅ (λ r O _, claim_post r O) w.
Proof.
  intros Hm Hid. apply wp_bindM. apply (wp_jobWithRev job_protocol); [done|by intros; apply wp_mret|].
  intros w2 e j Hw2 Hk He Hseen. cbn beta iota.
  destruct (bool_decide _) eqn:Hp; cbn [negb]; [|by apply wp_mret].
  apply bool_decide_eq_true in Hp. apply wp_bindM, wp_new_uuid_job. intros w3 u Hw3.
  apply wp_bindM, (wp_now job_protocol). intros w4 t Hw4. apply wp_bindM.
  eapply wp_cas_job_own; [done| |done|..].
  - eapply (seen_settled job_protocol); [done|].
    change (w_st (issue u w3)) with (w_st w3). by eapply (seen_settled job_protocol).
  - intros w5. apply jl_claim; [done|]. split; [done|]. by exists u, t.
  - intros r. rewrite union_empty_r_L. intros ->%elem_of_singleton. eauto.
  - intros [[]|] w'; [|done|done]. simpl. exists u. split; [done|set_solver].
Qed.

(** ** Deletions *)

Section Deletes.
Context (fs : list family) (Hj : FJob ∉ fs) (Hs : FJobSeq ∉ fs).

(** An operation on another kind of key, or the deletion of a job along an
    edge. *)
Definition job_delete_op (w : world) (o : op) : Prop :=
  op_in fs o ∨ ∃ n, in_i64 n ∧ o = OpDelete (jobKey n) ∧
    (job_row w n = None ∨ job_lifecycle w n (job_row w n) None).

Lemma op_in_neq o k : op_in fs o → key_family k = Some FJob ∨ k = jobSeqKey →
  match o with OpPut k' _ | OpDelete k' => k' ≠ k | OpGet _ => True end.
Proof.
  intros Ho Hk. assert (¬ key_in fs k) as Hnot.
  { unfold key_in. destruct Hk as [-> | ->]; [done|]. unfold key_family. by rewrite class_jobSeqKey. }
  destruct o; simpl in *; [..|done]; by intros ->.
Qed.

Lemma apply_ops_deletes w rev ops m k :
  Forall (job_delete_op w) ops → key_family k = Some FJob ∨ k = jobSeqKey →
  (apply_ops rev ops m).1 !! k = m !! k ∨
  ((apply_ops rev ops m).1 !! k = None ∧ ∃ n, in_i64 n ∧ k = jobKey n ∧
    (job_row w n = None ∨ job_lifecycle w n (job_row w n) None)).
Proof.
  intros Hops Hk. revert m. induction Hops as [|o ops Ho _ IH]; intros m; [by left|].
  rewrite apply_ops_cons. destruct (IH (apply_op rev o m).1) as [->|?]; [|by right].
  destruct Ho as [Ho|(n & Hn & -> & Hl)].
  - left. by apply apply_op_lookup_ne, op_in_neq.
  - simpl. destruct (decide (jobKey n = k)) as [<-|?].
    + right. rewrite lookup_delete_eq. eauto 10.
    + left. by rewrite lookup_delete_ne.
Qed.

Lemma own_step_deletes w ops :
  job_inv w → w_rev w < max_i64 → Forall (job_delete_op w) ops →
  own_step job_protocol ∅ ∅ w (applied w ops).
Proof.
  intros Hi Hmax Hops. pose proof (λ k, apply_ops_deletes w (w_rev w + 1) ops (w_map w) k Hops) as Hd.
  apply own_step_job_nil; [done| |].
  - apply job_step_rows; [done|by apply any_env_applied|..]; rewrite applied_map.
    + destruct (Hd jobSeqKey) as [?|(_ & n & _ & E & _)]; [by right|done|]. by revert E; key_neq.
    + intros k Hk. destruct (Hd k) as [?|(Hnone & n & Hn & -> & Hl)]; [by left|by left|].
      destruct (w_map w !! jobKey n) eqn:E; [|by left; rewrite Hnone].
      assert (job_row w n ≠ None) as Hrow by (unfold job_row; by rewrite E).
      destruct Hl as [?|Hl]; [done|].
      right. exists n. split_and!; [done|done| |done].
      unfold job_row at 2. rewrite applied_map, Hnone. exact Hl.
  - intros n Hn Hnone. rewrite applied_map.
    destruct (Hd (jobKey n)) as [->|[-> _]]; [left; apply family_jobKey|done..].
Qed.

Lemma wp_deletes conds ops Q w :
  (∀ w1, reaches job_protocol ∅ w w1 → forallb (cmp_holds (w_map w1)) conds = true →
     Forall (job_delete_op w1) ops) →
  (∀ r w', Q r ∅ w') → wp job_protocol (raw_txn conds ops []) ∅ Q w.
Proof.
  intros Hops HQ. apply (wp_raw_txn job_protocol); [intros; apply HQ..|].
  intros w1 Hw1 Hc _ Hmax. exists ∅. split; [|by split; intros; apply HQ].
  pose proof Hw1 as (_ & Hi & _). apply own_step_deletes; [done|done|by apply Hops].
Qed.
End Deletes.

Lemma CompleteJob_job id w :
  made (CallComplete id) → in_i64 id → wp job_protocol (CompleteJob id) ∅ (λ _ _ _, True) w.
Proof.
  intros Hm Hid. apply wp_bindM, wp_bindM. apply (wp_deletes []); [set_solver..| |by intros []].
  intros w1 _ _. apply Forall_singleton. right. exists id. split_and!; [done|done|].
  destruct (job_row w1 id); [right; by apply jl_complete|by left].
Qed.

Lemma CancelPendingTask_job id ref w :
  (∀ n, ref = Some n → made (CallCancel n) ∧ in_i64 n) →
  wp job_protocol (CancelPendingTask id ref) ∅ (λ _ _ _, True) w.
Proof.
  intros Href. pose proof (job_frame [FTask]) as Hf.
  assert (Frame job_protocol [FTask]) by (apply Hf; set_solver). clear Hf.
  apply (wp_frame_bind job_protocol [FTask]); [by writes_solve|done|]. intros t w1.
  destruct (bool_decide _); cbn [negb]; [|by apply wp_fail].
  apply (wp_frame_bind job_protocol [FTask]); [by writes_solve|done|]. intros n w2.
  apply (wp_frame_bind job_protocol [FTask]); [by writes_solve|done|]. intros val w3.
  destruct ref as [ref|].
  2: { eapply wp_mono; [|apply (wp_frame job_protocol [FTask]); by writes_solve]. done. }
  destruct (Href ref eq_refl) as [Hm Hn].
  apply wp_bindM. apply (wp_jobWithRev job_protocol); [done|by intros; apply wp_fail|].
  intros w4 e j Hw4 Hk He Hseen. cbn beta iota.
  destruct (bool_decide _) eqn:Hp; cbn [negb]; [|by apply wp_fail]. apply bool_decide_eq_true in Hp.
  apply wp_bindM. apply (wp_deletes [FTask]); [set_solver..| |by intros [[[] ??]|]].
  intros w5 Hw5 Hc. apply andb_true_iff in Hc as [Hc _].
  assert (w_map w5 !! jobKey ref = Some e) as Hk5 by (by eapply (cas_lookup job_protocol)).
  apply Forall_cons. split; [left; simpl; key_in_solve|]. apply Forall_singleton. right.
  exists ref. split_and!; [done|done|right]. unfold job_row. rewrite Hk5. simpl. rewrite He.
  by apply jl_cancel.
Qed.

(** ** The sweep of failed jobs *)

(** A job row that existed and is gone. *)
Definition retired (n : Z) (w : world) : Prop :=
  job_row w n = None ∧ ∃ st, st ∈ states w ∧ is_Some (es_map st !! jobKey n).

Lemma retired_step n w w' : in_i64 n → job_step w w' → retired n w → retired n w'.
Proof.
  intros Hn ((_ & _ & Hst) & _ & _ & Hl) [Hnone (st & Hin & Hs)]. specialize (Hl n Hn).
  assert (∃ st, st ∈ states w' ∧ is_Some (es_map st !! jobKey n)) as Hh.
  { exists st. split; [|done]. apply Hst. by right. }
  split; [|done]. rewrite Hnone in Hl. inversion Hl as [d E|kind payload Hun| | | | | | | |]; [done|].
  exfalso. rewrite (Hun st Hin) in Hs. by destruct Hs.
Qed.

(** A scanned failed job is still that job, or is gone for good. *)
Definition failed_or_retired (j : Job) (w : world) : Prop :=
  job_row w (job_ID j) = Some (DJob j) ∨ retired (job_ID j) w.

Lemma failed_stays w n j d :
  job_State j = JobStateFailed → job_lifecycle w n (Some (DJob j)) (Some d) → d = DJob j.
Proof.
  intros Hf Hl. assert (∀ token, holds_claim token j = false) as Hh.
  { intros token. unfold holds_claim. by rewrite Hf. }
  inversion Hl as [| |j0 j' _ Hc|token j0 j' _ Hc|token m j0 j' _ Hc|token j0 j' _ Hc|cutoff j0 j' _ Hc| | |];
    subst; [done|destruct Hc as [Hc _]..].
  - congruence.
  - by rewrite Hh in Hc.
  - by rewrite Hh in Hc.
  - by rewrite Hh in Hc.
  - unfold stale in Hc. by rewrite Hf in Hc.
Qed.

Lemma failed_or_retired_step j w w' :
  job_State j = JobStateFailed → in_i64 (job_ID j) → job_step w w' →
  failed_or_retired j w → failed_or_retired j w'.
Proof.
  intros Hf Hn Hs [Hrow|Hr]; [|right; by eapply retired_step].
  pose proof Hs as (Henv & _ & _ & Hl). specialize (Hl _ Hn). rewrite Hrow in Hl.
  destruct (job_row w' (job_ID j)) as [d|] eqn:Erow'.
  - left. rewrite Erow'. f_equal. by eapply failed_stays.
  - right. split; [done|]. exists (w_st w). destruct Henv as (_ & _ & Hst). split.
    + apply Hst. right. by left.
    + unfold job_row in Hrow. apply fmap_Some in Hrow as (e & He & _). by exists e.
Qed.

Lemma failed_or_retired_settled O j w w' :
  job_State j = JobStateFailed → in_i64 (job_ID j) →
  settled job_protocol O w w' → failed_or_retired j w → failed_or_retired j w'.
Proof.
  intros Hf Hn (w1 & (Hr & _) & Hs). assert (failed_or_retired j w → failed_or_retired j w1) as Hw1.
  { clear Hs. induction Hr as [|w w1 w2 [Hrely _] _ IH]; [done|]. intros Hj. apply IH.
    by apply (failed_or_retired_step j w w1). }
  intros Hj%Hw1. eapply failed_or_retired_step; [done..| |done].
  by apply (pr_stutter (pr := job_protocol)).
Qed.

(** A job the sweep may delete. *)
Definition doomed (olderThan : Z) (w : world) (j : Job) : Prop :=
  in_i64 (job_ID j) ∧ failed_before olderThan j = true ∧ failed_or_retired j w.

Lemma failed_before_failed olderThan j : failed_before olderThan j = true → job_State j = JobStateFailed.
Proof. intros [Hf _]%andb_true_iff. by apply bool_decide_eq_true in Hf. Qed.

Lemma doomed_settled olderThan O w w' js :
  settled job_protocol O w w' → Forall (doomed olderThan w) js → Forall (doomed olderThan w') js.
Proof.
  intros Hw' Hjs. eapply Forall_impl; [exact Hjs|]. intros j (Hn & Hf & Hr). split_and!; [done|done|].
  eapply failed_or_retired_settled; [by eapply failed_before_failed|done|exact Hw'|done].
Qed.

Lemma doomed_step olderThan w w' js :
  job_step w w' → Forall (doomed olderThan w) js → Forall (doomed olderThan w') js.
Proof.
  intros Hw' Hjs. eapply Forall_impl; [exact Hjs|]. intros j (Hn & Hf & Hr). split_and!; [done|done|].
  eapply failed_or_retired_step; [by eapply failed_before_failed|done|exact Hw'|done].
Qed.

Lemma doomed_deletes olderThan w js :
  made (CallSweep olderThan) → Forall (doomed olderThan w) js →
  Forall (job_delete_op [] w) (map (λ j, OpDelete (jobKey (job_ID j))) js).
Proof.
  intros Hm Hjs. apply Forall_fmap. eapply Forall_impl; [exact Hjs|]. intros j (Hn & Hf & Hr).
  right. exists (job_ID j). split_and!; [done|done|].
  destruct Hr as [-> | [? _]]; [right; by eapply jl_sweep|by left].
Qed.

Lemma sweep_chunks olderThan fuel js Q w :
  made (CallSweep olderThan) → (∀ r w', Q r ∅ w') → Forall (doomed olderThan w) js →
  wp job_protocol (commit_chunks fuel (map (λ j, OpDelete (jobKey (job_ID j))) js)) ∅ Q w.
Proof.
  intros Hm HQ. revert js w. induction fuel as [|fuel IH]; intros js w Hjs; [by destruct js; apply HQ|].
  destruct js as [|j0 js0]; [apply HQ|]. remember (j0 :: js0) as js eqn:Ejs.
  assert (commit_chunks (S fuel) (map (λ j, OpDelete (jobKey (job_ID j))) js) =
    (_ ← raw_txn [] (map (λ j, OpDelete (jobKey (job_ID j))) (take maxTxnOps js)) [];
     commit_chunks fuel (map (λ j, OpDelete (jobKey (job_ID j))) (drop maxTxnOps js)))) as ->.
  { rewrite Ejs. unfold commit_chunks at 1. fold commit_chunks. simpl map at 1.
    rewrite <-fmap_take, <-fmap_drop. done. }
  apply wp_bindM. apply (wp_raw_txn job_protocol); [intros; apply HQ|..].
  - intros w1 Hw1 _. apply IH, Forall_drop. by eapply doomed_settled.
  - intros w1 Hw1 _ _ Hmax. apply reaches_settled in Hw1 as Hs. destruct Hw1 as (_ & Hi & _).
    apply (doomed_settled _ _ _ _ _ Hs) in Hjs.
    assert (own_step job_protocol ∅ ∅ w1
      (applied w1 (map (λ j, OpDelete (jobKey (job_ID j))) (take maxTxnOps js)))) as Hown.
    { apply (own_step_deletes []); [set_solver..|done|done|].
      by apply (doomed_deletes olderThan), Forall_take. }
    exists ∅. split; [done|]. split; [apply HQ|]. intros _ _. apply IH, Forall_drop.
    destruct Hown as [Hstep _]. by eapply doomed_step.
Qed.

(** The scan finds a job under its own number. *)
Lemma scanned_job w j :
  job_inv w → j ∈ decode_jobs (map (λ kv, (kv.1, e_val kv.2)) (scan jobsPrefix (w_map w))) →
  in_i64 (job_ID j) ∧ job_row w (job_ID j) = Some (DJob j).
Proof.
  intros Hi Hj. apply list_elem_of_omap in Hj as ([k d] & Hin & Hd).
  apply list_elem_of_fmap in Hin as ([k' e] & [= -> ->] & [Hk Hp]%elem_of_scan).
  assert (e_val e = DJob j) as He by (simpl in Hd; by destruct (e_val e); simplify_eq).
  destruct (ji_rows w Hi _ _ _ Hk (prefix_jobs _ Hp) He) as [Hn Ek]. split; [done|].
  unfold job_row. rewrite <-Ek. unfold w_map in *. rewrite Hk. simpl. by rewrite He.
Qed.

Lemma DeleteFailedJobs_job olderThan w :
  made (CallSweep olderThan) →
  wp job_protocol (DeleteFailedJobs olderThan) ∅ (λ _ _ _, True) w.
Proof.
  intros Hm. apply wp_bindM, wp_bindM. apply (wp_raw_range job_protocol). intros w2 Hw2. split; [done|].
  apply wp_mret, wp_bindM, (sweep_chunks olderThan); [done|by intros []|].
  apply Forall_forall. intros j [Hj Hin]%list_elem_of_filter.
  destruct (scanned_job w2 j) as [Hn Hr]; [by eapply (settled_inv job_protocol)|done|].
  split_and!; [done|by apply Is_true_true|by left].
Qed.

(** ** The producer *)

Lemma applied_put_rev w k v : w_rev (applied w [OpPut k v]) = w_rev w + 1.
Proof. done. Qed.

(** The counter moves on, and the new number's key is the caller's. *)
Lemma own_step_next w e :
  job_inv w → w_rev w < max_i64 →
  let n := counter (w_st w) + 1 in
  e = OpPut jobSeqKey (DStr (FormatInt n)) →
  own_step job_protocol ∅ {[OwnKey (jobKey n)]} w (applied w [e]) ∧
  counter (w_st (applied w [e])) = n.
Proof.
  intros Hi Hmax n ->. pose proof (ji_bound w Hi) as Hb.
  assert (in_i64 n) as Hn by (unfold n, in_i64, max_i64 in *; lia).
  set (w' := applied w _). pose proof (any_env_applied w [OpPut jobSeqKey (DStr (FormatInt n))] Hmax) as Henv.
  fold w' in Henv.
  assert (counter (w_st w') = n) as Hc.
  { unfold counter. fold (w_map w'). unfold w'. rewrite applied_put, lookup_insert_eq. simpl.
    by rewrite ParseInt_FormatInt. }
  assert (∀ k, k ≠ jobSeqKey → w_map w' !! k = w_map w !! k) as Hk.
  { intros k Hk. unfold w'. rewrite applied_put. by rewrite lookup_insert_ne. }
  assert (∀ m, w_map w' !! jobKey m = w_map w !! jobKey m) as Hrow by (intros m; apply Hk; key_neq).
  assert (∀ st, st ∈ states w' → es_map st !! jobKey n = None) as Hunused.
  { intros st Hin. apply eq_None_not_Some. intros Hs. destruct Henv as (_ & _ & Hst).
    assert (1 ≤ n ≤ counter (w_st w)) as Hle; [|unfold n in Hle; lia].
    apply Hst in Hin as [->|Hin]; [|by eapply (ji_used w Hi)].
    apply (ji_used w Hi (w_st w)); [by left|done|]. fold (w_map w). by rewrite <-Hrow. }
  split; [|done]. split_and!.
  - split_and!; [done| |lia|].
    + intros _. destruct Henv as (He & _ & Hst). constructor.
      * eapply estep_wf; [done|apply Hi].
      * rewrite Hc. unfold w'. rewrite applied_put_rev. unfold n. lia.
      * intros e. rewrite Hc. unfold w'. rewrite applied_put, lookup_insert_eq. by intros [= <-].
      * intros st m [->|Hin]%Hst Hm Hs; rewrite Hc; unfold n.
        -- assert (1 ≤ m ≤ counter (w_st w)); [|lia]. apply (ji_used w Hi (w_st w)); [by left|done|].
           fold (w_map w) (w_map w') in *. by rewrite <-Hrow.
        -- assert (1 ≤ m ≤ counter (w_st w)); [|lia]. by eapply (ji_used w Hi).
      * intros k e j Hke Hf. rewrite Hk in Hke; [by eapply (ji_rows w Hi)|].
        intros ->. unfold key_family in Hf. by rewrite class_jobSeqKey in Hf.
    + intros m _. unfold job_row. rewrite Hrow. constructor.
  - intros [k|p|u] Ho _ Hu; [|done..]. destruct Ho as (m & -> & _). intros st Hin.
    destruct Henv as (_ & _ & Hst). apply Hst in Hin as [->|Hin]; [|by apply Hu].
    fold (w_map w'). rewrite Hrow. apply Hu. by left.
  - intros r ->%elem_of_singleton. split; [done|]. right. split.
    + exists n. split; [done|]. unfold n in *. lia.
    + intros (m & E & Hm). apply jobKey_inj in E as <-; [unfold n in Hm; lia|done|].
      eapply counter_in_i64; [done|lia].
Qed.

Lemma nextSeq_round_job Q w :
  (∀ e O w', Q (Err e) O w') → (∀ w', Q (Ok None) ∅ w') →
  (∀ n w', job_inv w' → 1 ≤ n ≤ counter (w_st w') → Q (Ok (Some n)) {[OwnKey (jobKey n)]} w') →
  wp job_protocol (nextSeq_round jobSeqKey) ∅ Q w.
Proof.
  intros HE HN HS. apply wp_bindM, wp_bindM. apply (wp_raw_get job_protocol).
  intros w2 _. split; [apply HE|]. apply wp_mret. set (cur := e_val <$> _). clearbody cur.
  assert (∀ n c w1, c = match cur with Some v => CmpValue jobSeqKey v | None => CmpCreate jobSeqKey 0 end →
    match cur with Some (DStr s) => ParseInt s = Some n | Some _ => False | None => n = 0 end →
    wp job_protocol (resp ← raw_txn [c] [OpPut jobSeqKey (DStr (FormatInt (i64 (n + 1))))] [];
      mret (if tr_Succeeded resp then Some (i64 (n + 1)) else None)) ∅ Q w1) as Htxn.
  { intros n c w1 Hc Hn. apply wp_bindM, (wp_raw_txn job_protocol); [intros; apply HE|intros; apply HN|].
    intros w3 (_ & Hi & _) Hcmp _ Hmax. pose proof (ji_bound w3 Hi).
    apply andb_true_iff in Hcmp as [Hcmp _]. assert (counter (w_st w3) = n) as <-.
    { unfold counter. destruct cur as [v|]; subst c.
      - apply cmp_value in Hcmp as (e & -> & Hv). simpl. rewrite Hv.
        destruct v; [by rewrite Hn|done..].
      - apply cmp_absent in Hcmp; [|apply Hi]. fold (w_map w3) in *. by rewrite Hcmp. }
    rewrite i64_id by (unfold in_i64, max_i64 in *; lia).
    destruct (own_step_next w3 _ Hi Hmax eq_refl) as [Hown Hcnt].
    eexists. split; [exact Hown|]. split; [apply HE|]. intros rev rs. apply HS; [|lia].
    destruct Hown as [(_ & Hinv & _) _]. by apply Hinv. }
  destruct cur as [[]|]; try (by apply HE); [|by apply Htxn].
  apply wp_bindM. destruct (ParseInt s) as [n|] eqn:Hp; [|by apply HE]. by apply wp_mret, Htxn.
Qed.

Lemma nextJobSeq_job Q w :
  (∀ e O w', Q (Err e) O w') →
  (∀ n w', job_inv w' → 1 ≤ n ≤ counter (w_st w') → Q (Ok n) {[OwnKey (jobKey n)]} w') →
  wp job_protocol nextJobSeq ∅ Q w.
Proof.
  intros HE HS. unfold nextJobSeq, nextSeq. generalize 64%nat as rounds. intros rounds. revert w.
  induction rounds as [|rounds IH]; intros w; [apply HE|]. cbn [nextSeq_loop].
  apply wp_bindM, nextSeq_round_job; [auto|auto|]. intros n w' Hi Hn. by apply wp_mret, HS.
Qed.

Lemma enqueueJobOp_job args Q w :
  (∀ e O w', Q (Err e) O w') →
  (∀ n payload w', job_inv w' → 1 ≤ n ≤ counter (w_st w') →
     Q (Ok (n, OpPut (jobKey n) (DJob (pending_job n (ja_Kind args) payload)))) {[OwnKey (jobKey n)]} w') →
  wp job_protocol (enqueueJobOp args) ∅ Q w.
Proof.
  intros HE HS. apply wp_bindM, nextJobSeq_job; [auto|]. intros n w' Hi Hn. apply wp_bindM.
  destruct (ja_Payload args) as [p|]; [|apply HE]. apply wp_mret, wp_bindM, wp_Marshal; [apply HE|].
  by apply wp_mret, HS.
Qed.

(** The transaction that puts the job, with the writes of other kinds around
    it. *)
Lemma own_step_enqueue fs n kind payload l1 l2 w :
  FJob ∉ fs → FJobSeq ∉ fs → Forall (op_in fs) (l1 ++ l2) →
  job_inv w → w_rev w < max_i64 → 1 ≤ n ≤ counter (w_st w) → unused w (OwnKey (jobKey n)) →
  own_step job_protocol {[OwnKey (jobKey n)]} ∅ w
    (applied w (l1 ++ OpPut (jobKey n) (DJob (pending_job n kind payload)) :: l2)).
Proof.
  intros Hj Hs Hops Hi Hmax Hn Hun. apply Forall_app in Hops as [Hl1 Hl2].
  set (o := OpPut _ _). set (w' := applied w (l1 ++ o :: l2)).
  assert (in_i64 n) as Hni by (eapply counter_in_i64; [done|lia]).
  assert (w_map w !! jobKey n = None) as Hnone by (apply Hun; by left).
  assert (∀ k, key_family k = Some FJob ∨ k = jobSeqKey →
    w_map w' !! k = (apply_op (w_rev w + 1) o (w_map w)).1 !! k ∨
    w_map w' !! k = w_map w !! k ∧ k ≠ jobKey n) as Hk.
  { intros k Hk. assert (¬ key_in fs k) as Hnot.
    { unfold key_in. destruct Hk as [-> | ->]; [done|]. unfold key_family. by rewrite class_jobSeqKey. }
    unfold w'. rewrite applied_map, apply_ops_app, apply_ops_cons.
    rewrite (apply_ops_outside fs _ l2) by done. destruct (decide (jobKey n = k)) as [<-|?].
    - left. simpl. rewrite !lookup_insert_eq. by rewrite (apply_ops_outside fs _ l1) by done.
    - right. simpl. rewrite lookup_insert_ne by done. by rewrite (apply_ops_outside fs _ l1). }
  apply own_step_job; [done| |set_solver|set_solver|].
  - apply job_step_rows; [done|by apply any_env_applied|..]; fold w'.
    + destruct (Hk jobSeqKey) as [->|[-> _]]; [by right| |done]. simpl.
      rewrite lookup_insert_ne; [done|key_neq].
    + intros k Hf. destruct (Hk k) as [Heq|[? _]]; [by left| |by left].
      destruct (decide (k = jobKey n)) as [->|?].
      * right. exists n. split_and!; [done|done| |done]. unfold job_row.
        rewrite Heq, Hnone. simpl. rewrite lookup_insert_eq. simpl. by apply jl_enqueue.
      * left. rewrite Heq. simpl. by rewrite lookup_insert_ne.
  - intros m Hm Hnot Hmn.
    destruct (Hk (jobKey m)) as [->|[-> _]]; [left; apply family_jobKey| |done]. simpl.
    rewrite lookup_insert_ne; [done|]. intros E. rewrite E in Hnot. set_solver.
Qed.

Section EnqueueTxn.
Context (fs : list family) (Hj : FJob ∉ fs) (Hs : FJobSeq ∉ fs).
Context (n : Z) (kind : string) (payload : bytes) (ops l1 l2 : list op).
Context (Hops : ops = l1 ++ OpPut (jobKey n) (DJob (pending_job n kind payload)) :: l2).
Context (Hin : Forall (op_in fs) (l1 ++ l2)).

Lemma own_step_enqueue_reaches w w1 :
  1 ≤ n ≤ counter (w_st w) → reaches job_protocol {[OwnKey (jobKey n)]} w w1 → w_rev w1 < max_i64 →
  own_step job_protocol {[OwnKey (jobKey n)]} ∅ w1 (applied w1 ops).
Proof.
  intros Hn Hw1 Hmax. pose proof (reaches_settled _ _ _ _ Hw1) as Hset.
  apply (counter_settled _ _ _ n) in Hset; [|lia]. destruct Hw1 as (_ & Hi & Hun).
  rewrite Hops. eapply own_step_enqueue; [exact Hj|exact Hs|done|done|done|lia|]. apply Hun. set_solver.
Qed.

Lemma wp_enqueue_txn conds (Q : result err txn_reply → gset resource → world → Prop) w :
  1 ≤ n ≤ counter (w_st w) → (∀ r O w', O ⊆ {[OwnKey (jobKey n)]} → Q r O w') →
  wp job_protocol (raw_txn conds ops []) {[OwnKey (jobKey n)]} Q w.
Proof.
  intros Hn HQ. apply (wp_raw_txn job_protocol); [by auto|by auto|]. intros w1 Hw1 _ _ Hmax.
  exists ∅. split; [by eapply own_step_enqueue_reaches|]. split; intros; apply HQ; set_solver.
Qed.

Lemma wp_enqueue_txn_get conds k (Q : result err txn_reply → gset resource → world → Prop) w :
  1 ≤ n ≤ counter (w_st w) → (∀ r O w', O ⊆ {[OwnKey (jobKey n)]} → Q r O w') →
  wp job_protocol (raw_txn conds ops [OpGet k]) {[OwnKey (jobKey n)]} Q w.
Proof.
  intros Hn HQ. apply (wp_raw_txn_get job_protocol); [auto|auto|]. intros w1 Hw1 _ _ Hmax.
  exists ∅. split; [by eapply own_step_enqueue_reaches|]. split; intros; apply HQ; set_solver.
Qed.
End EnqueueTxn.
End JobProtocol.
