(* ===== verification/JobSystem.v ===== *)
(** * The job queue under every interleaving

    The operations of the store, run by any number of replicas and workers at
    once, with requests that may be lost before or after they take effect: every
    step takes every job along an edge of its life that some process asked for,
    job numbers are never reused, and claim tokens are never shared. *)

From S2P Require Import Prelude Models Etcd Prog Keys Client Rules Footprint.
From S2P Require Import Jobs JobFence Tasks Nodes Drains Migrations DeleteIntent Idempotency VMs.
From S2P Require Import Footprints JobProtocol Instances.
Local Open Scope Z_scope.

Section JobSystem.
Context `{Etcd, !EtcdLaws, !Libs, !LibsLaws}.
Context (made : job_call → Prop).
Local Abbreviation job_protocol := (JobProtocol.job_protocol made).
Local Abbreviation job_step := (JobProtocol.job_step made).
Local Abbreviation job_lifecycle := (JobProtocol.job_lifecycle made).

(** ** The producers *)

Definition enqueue_families : list family :=
  [FTask; FTaskCreatedBy; FIdempotencyTask; FMigration; FMigrationGuard; FMigrationNode; FMigrationVM;
   FNode; FVM; FVMUnscheduled; FVMPinned; FVMDisk; FVMDiskVM; FVMDiskPool; FVMNic; FVMNicVM; FVMNicNetwork;
   FVMNicMAC; FVMNicIPv4].

Lemma enqueue_no_job : FJob ∉ enqueue_families.
Proof. set_solver. Qed.
Lemma enqueue_no_seq : FJobSeq ∉ enqueue_families.
Proof. set_solver. Qed.

Ltac enqueue_ops :=
  first [set_solver
        |unfold enqueue_families; writes_solve; first [apply taskIndexOps_in|apply node_index_puts_in]; set_solver].

Lemma EnqueueTask_job params args w :
  wp job_protocol (EnqueueTask params args) ∅ (λ _ _ _, True) w.
Proof.
  apply wp_bindM, enqueueJobOp_job; [done|]. intros n payload w1 Hi Hn.
  apply wp_bindM, (wp_now job_protocol). intros w2 t Hw2. apply (counter_settled made _ _ _ n) in Hw2; [|lia].
  cbv zeta. set (task := taskFromParams params n t). apply wp_bindM, wp_Marshal; [done|].
  assert (∀ w3, n ≤ counter (w_st w3) → wp job_protocol
    (_ ← raw_txn [] (taskIndexOps task ++ [OpPut (taskKey (task_ID task)) (encode_doc task);
       OpPut (jobKey n) (DJob (pending_job n (ja_Kind args) payload))]) [];
     mret (ctp_ID params)) {[OwnKey (jobKey n)]} (λ _ _ _, True) w3) as Hplain.
  { intros w3 Hw3. apply wp_bindM.
    eapply (wp_enqueue_txn made enqueue_families enqueue_no_job enqueue_no_seq _ _ _ _ (taskIndexOps task ++ [_]) []);
      [by rewrite <-app_assoc|enqueue_ops|lia|by intros []]. }
  destruct (ctp_IdempotencyUserID params) as [user|]; [|by apply Hplain].
  destruct (ctp_IdempotencyKey params) as [key|]; [|by apply Hplain].
  apply wp_bindM, (wp_now job_protocol). intros w3 t' Hw3. apply (counter_settled made _ _ _ n) in Hw3; [|done].
  apply wp_bindM. eapply (wp_enqueue_txn_get made enqueue_families enqueue_no_job enqueue_no_seq _ _ _ _ (taskIndexOps task ++ [_]) [_]);
    [by rewrite <-!app_assoc|enqueue_ops|lia|].
  intros [r|e] O w'; [|done]. destruct (tr_Succeeded r); [done|]. unfold replay. by repeat case_match.
Qed.

Lemma CreateMigration_job p args w :
  wp job_protocol (CreateMigration p args) ∅ (λ _ _ _, True) w.
Proof.
  apply wp_bindM, (wp_now job_protocol). intros w0 t0 _. apply wp_bindM, wp_Marshal; [done|].
  apply wp_bindM, enqueueJobOp_job; [done|]. intros n payload w1 Hi Hn.
  apply wp_bindM, (wp_now job_protocol). intros w2 t Hw2. apply (counter_settled made _ _ _ n) in Hw2; [|lia].
  cbv zeta. set (task := taskFromParams _ n t). apply wp_bindM, wp_Marshal; [done|].
  apply wp_bindM. eapply (wp_enqueue_txn made enqueue_families enqueue_no_job enqueue_no_seq _ _ _ _ [_; _; _; _] (_ ++ _ ++ _));
    [done|enqueue_ops|lia|].
  intros [r|e] O w'; [|done]. by destruct (tr_Succeeded r).
Qed.

Lemma StartNodeDrain_job id params args w :
  wp job_protocol (StartNodeDrain id params args) ∅ (λ _ _ _, True) w.
Proof.
  pose proof (job_frame made [] ltac:(set_solver) ltac:(set_solver)) as Hfr.
  apply (wp_frame_bind job_protocol []); [apply nodeWithRev_writes|done|]. intros [n rev] w0.
  destruct (negb (drainable (node_Status n))); [done|].
  apply wp_bindM, (wp_now job_protocol). intros w1 t _. cbv zeta. apply wp_bindM, wp_Marshal; [done|].
  apply wp_bindM, enqueueJobOp_job; [done|]. intros k payload w2 Hi Hk.
  apply wp_bindM, (wp_now job_protocol). intros w3 t' Hw3. apply (counter_settled made _ _ _ k) in Hw3; [|lia].
  set (task := taskFromParams _ k t'). apply wp_bindM, wp_Marshal; [done|].
  apply wp_bindM. eapply (wp_enqueue_txn made enqueue_families enqueue_no_job enqueue_no_seq _ _ _ _ [_; _] _);
    [done|enqueue_ops|lia|].
  intros [r|e] O w'; [|done]. by destruct (tr_Succeeded r).
Qed.

(** The writes of a bind: the row of the job, and rows of other kinds. *)
Definition enqueues (n : Z) (ops : list op) : Prop := ∃ kind payload l1 l2,
  ops = l1 ++ OpPut (jobKey n) (DJob (pending_job n kind payload)) :: l2 ∧
  Forall (op_in enqueue_families) (l1 ++ l2).

Lemma bind_nic_in nic t :
  returns (on_ok (λ p, Forall (op_in enqueue_families) p.1)) (bind_nic nic t).
Proof.
  unfold bind_nic. apply returns_bindM, returns_any. intros net. apply returns_bindM, returns_any.
  intros [nic' conds]. apply returns_bindM. unfold vmNicCreateOps. apply returns_bindM, returns_any.
  intros val. simpl. unfold enqueue_families.
  case_match; repeat (apply Forall_cons; split; [simpl; key_in_solve|]); done.
Qed.

(** A program that reads leaves the number it holds alone. *)
Lemma wp_holding {R} (P : R → Prop) (p : prog R) n w :
  writes [] p → returns P p → job_inv w → 1 ≤ n ≤ counter (w_st w) →
  wp job_protocol p {[OwnKey (jobKey n)]}
    (λ r O w', O = {[OwnKey (jobKey n)]} ∧ P r ∧ 1 ≤ n ≤ counter (w_st w')) w.
Proof.
  intros Hw HP Hi Hn. pose proof (job_frame made [] ltac:(set_solver) ltac:(set_solver)) as Hfr.
  eapply wp_mono; [|apply (wp_frame_keep job_protocol [] (λ w, 1 ≤ n ≤ counter (w_st w)) P p); [..|done|done|done|done]].
  - by intros r O w' (-> & HPr & _ & Hn').
  - intros w1 w2 _ (_ & _ & Hc & _) Hle. lia.
  - intros w1 w2 _ _ Hk Hle. rewrite (counter_same (w_st w1) (w_st w2)); [done|].
    apply Hk. unfold key_in, key_family. rewrite class_jobSeqKey. set_solver.
  - intros r ->%elem_of_singleton. simpl. unfold key_in. rewrite family_jobKey. set_solver.
Qed.

Lemma buildBindTxn_job v ws rev t w :
  wp job_protocol (buildBindTxn v ws rev t) ∅
    (λ r O w', ∀ ops conds, r = Ok (ops, conds) → ∃ n,
       O = {[OwnKey (jobKey n)]} ∧ enqueues n ops ∧ 1 ≤ n ≤ counter (w_st w')) w.
Proof.
  pose proof (job_frame made [] ltac:(set_solver) ltac:(set_solver)) as Hfr.
  unfold buildBindTxn. apply (wp_frame_bind job_protocol []); [unfold vmDiskFromCreateParams; writes_solve|done|].
  intros disk w0. apply wp_bindM, enqueueJobOp_job; [done|]. intros n payload w1 Hi Hn.

  eapply wp_mono; [|apply (wp_holding (on_ok (λ p, enqueues n p.1))); [| |done|done]].
  - intros [[ops conds]|e] O w' (-> & Hops & Hn') ?? E; simplify_eq. by exists n.
  - unfold bind_nic, NetworkByID, allocateNICIPv4, vmNicCreateOps. writes_solve.
  - apply returns_bindM, returns_any. intros createdAt. cbv zeta.
    set (task := taskFromParams _ _ _). do 3 (apply returns_bindM, returns_any; intros ?).
    set (puts := [_; _; _; _; _; _] ++ vmDiskIndexOps disk ++ taskIndexOps task).
    assert (∀ l, Forall (op_in enqueue_families) l → enqueues n (puts ++ l)) as Hputs.
    { intros l Hl. exists (ja_Kind (vbw_Job ws)), payload, (take 5 puts), (drop 6 puts ++ l).
      split; [done|]. rewrite app_assoc. apply Forall_app. split; [|done].
      repeat (apply Forall_cons; split; [unfold enqueue_families; simpl; key_in_solve|]).
      apply taskIndexOps_in. set_solver. }
    destruct (vbw_Nic ws) as [nic|].
    + apply returns_bindM. eapply returns_mono; [|apply bind_nic_in].
      intros [[nicOps nicConds]|e] Hl; [|done]. by apply Hputs.
    + specialize (Hputs [] ltac:(done)). by rewrite app_nil_r in Hputs.
Qed.

Lemma BindScheduledVM_job ctx vmID plan w :
  writes [] plan → wp job_protocol (BindScheduledVM ctx vmID plan) ∅ (λ _ _ _, True) w.
Proof.
  intros Hplan. pose proof (job_frame made [] ltac:(set_solver) ltac:(set_solver)) as Hfr.
  apply (wp_frame_bind job_protocol []); [unfold vmWithRev; writes_solve|done|]. intros [v rev] w0.
  destruct (negb _); [done|]. apply (wp_frame_bind job_protocol []); [done|done|]. intros ws w1.
  apply wp_bindM, (wp_now job_protocol). intros w2 t _.
  apply wp_bindM. eapply wp_mono; [|apply buildBindTxn_job].
  intros [[ops conds]|e] O w3 Hpost; [|done].
  destruct (Hpost ops conds eq_refl) as (n & -> & (kind & payload & l1 & l2 & Hops & Hin) & Hn). clear Hpost.
  apply wp_bindM. eapply (wp_enqueue_txn made enqueue_families enqueue_no_job enqueue_no_seq); [done|done|done|].
  intros [r|e] O w4 HO; [|done]. destruct (tr_Succeeded r); [done|].
  eapply wp_mono; [|apply (wp_frame_own job_protocol [] (λ _, True)); [| |apply returns_True]]; [done|..].
  - intros x ->%HO%elem_of_singleton. simpl. unfold key_in. rewrite family_jobKey. set_solver.
  - unfold classifyBindFailure. case_match; [|done]. apply writes_bindM; [|intros []; [case_match|]; done].
    by apply writes_attempt, writes_raw_txn.
Qed.

(** ** The system *)

Definition any_result {R} (p : prog R) : thread := Thread R (λ _ _, True) p.

(** The operations a process may start at any time: the producers of jobs, the
    calls on the queue that are made, and any program that writes neither job
    rows nor the counter. *)
Inductive store_op : thread → Prop :=
| so_EnqueueTask params args : store_op (any_result (EnqueueTask params args))
| so_CreateMigration p args : store_op (any_result (CreateMigration p args))
| so_StartNodeDrain id params args : store_op (any_result (StartNodeDrain id params args))
| so_BindScheduledVM ctx vmID plan :
    writes [] plan → store_op (any_result (BindScheduledVM ctx vmID plan))
| so_ClaimJob id :
    made (CallClaim id) → in_i64 id → store_op (Thread _ claim_post (ClaimJob id))
| so_RenewJobLease id token :
    made (CallRenew id token) → in_i64 id → store_op (any_result (RenewJobLease id token))
| so_CompleteJob id : made (CallComplete id) → in_i64 id → store_op (any_result (CompleteJob id))
| so_RetryJob id token m :
    made (CallRetry id token m) → in_i64 id → store_op (any_result (RetryJob id token m))
| so_RequeueJob id token :
    made (CallRequeue id token) → in_i64 id → store_op (any_result (RequeueJob id token))
| so_CancelPendingTask id ref :
    (∀ n, ref = Some n → made (CallCancel n) ∧ in_i64 n) →
    store_op (any_result (CancelPendingTask id ref))
| so_ReclaimStaleRunningJobs t :
    made (CallReclaim t) → store_op (any_result (ReclaimStaleRunningJobs t))
| so_DeleteFailedJobs t : made (CallSweep t) → store_op (any_result (DeleteFailedJobs t))
| so_other {R} fs (p : prog R) :
    FJob ∉ fs → FJobSeq ∉ fs → writes fs p → store_op (any_result p).

(** The other operations of the store are among them. *)
Lemma so_operations :
  (∀ id, store_op (any_result (UpdateTaskRunning id))) ∧
  (∀ arg, store_op (any_result (UpdateTaskFinalized arg))) ∧
  (∀ arg, store_op (any_result (UpdateTaskAgentTaskID arg))) ∧
  (∀ arg, store_op (any_result (DeleteExpiredTasks arg))) ∧
  (∀ id upd, store_op (any_result (UpdateMigrationProgress id upd))) ∧
  (∀ id stats, store_op (any_result (UpdateMigrationStats id stats))) ∧
  (∀ id reason, store_op (any_result (CancelMigration id reason))) ∧
  (∀ ctx id n pool, store_op (any_result (BindMigrationTarget ctx id n pool))) ∧
  (∀ id, store_op (any_result (CommitMigrationCutover id))) ∧
  (∀ arg, store_op (any_result (DeleteExpiredMigrations arg))) ∧
  (∀ migs reason, store_op (any_result (cancelNodeMigrations migs reason))) ∧
  (∀ t, store_op (any_result (PromoteHealthyNodes t))) ∧
  (∀ t, store_op (any_result (MarkNodesUnreachable t))) ∧
  store_op (any_result RewriteGoneNodesToUnreachable) ∧
  (∀ arg, store_op (any_result (CreateNode arg))) ∧
  (∀ id, store_op (any_result (CordonNode id))) ∧
  (∀ id, store_op (any_result (UncordonNode id))) ∧
  (∀ id b, store_op (any_result (SetNodeGatewayRole id b))) ∧
  (∀ arg, store_op (any_result (UpdateNodeHeartbeat arg))) ∧
  (∀ id task s r, store_op (any_result (FinishNodeDrain id task s r))) ∧
  (∀ r, store_op (any_result (ReconcileStuckDrain r))) ∧
  (∀ arg, store_op (any_result (BeginIdempotencyKey arg))) ∧
  (∀ arg, store_op (any_result (ReclaimIdempotencyKey arg))) ∧
  (∀ arg, store_op (any_result (CompleteIdempotencyKey arg))) ∧
  (∀ u k, store_op (any_result (DeleteIdempotencyKey u k))) ∧
  store_op (any_result DeleteExpiredIdempotencyKeys) ∧
  store_op (any_result DeleteExpiredIdempotencyTaskIndex).
Proof.
  split_and!; intros.
  - eapply so_other, UpdateTaskRunning_writes; set_solver.
  - eapply so_other, UpdateTaskFinalized_writes; set_solver.
  - eapply so_other, UpdateTaskAgentTaskID_writes; set_solver.
  - eapply so_other, DeleteExpiredTasks_writes; set_solver.
  - eapply so_other, UpdateMigrationProgress_writes; set_solver.
  - eapply so_other, UpdateMigrationStats_writes; set_solver.
  - eapply so_other, CancelMigration_writes; set_solver.
  - eapply so_other, BindMigrationTarget_writes; set_solver.
  - eapply so_other, CommitMigrationCutover_writes; set_solver.
  - eapply so_other, DeleteExpiredMigrations_writes; set_solver.
  - eapply so_other, cancelNodeMigrations_writes; set_solver.
  - eapply so_other, PromoteHealthyNodes_writes; set_solver.
  - eapply so_other, MarkNodesUnreachable_writes; set_solver.
  - eapply so_other, RewriteGoneNodesToUnreachable_writes; set_solver.
  - eapply so_other, CreateNode_writes; set_solver.
  - eapply so_other, CordonNode_writes; set_solver.
  - eapply so_other, UncordonNode_writes; set_solver.
  - eapply so_other, SetNodeGatewayRole_writes; set_solver.
  - eapply so_other, UpdateNodeHeartbeat_writes; set_solver.
  - eapply so_other, FinishNodeDrain_writes; set_solver.
  - eapply so_other, ReconcileStuckDrain_writes; set_solver.
  - eapply so_other, BeginIdempotencyKey_writes; set_solver.
  - eapply so_other, ReclaimIdempotencyKey_writes; set_solver.
  - eapply so_other, CompleteIdempotencyKey_writes; set_solver.
  - eapply so_other, DeleteIdempotencyKey_writes; set_solver.
  - eapply so_other, DeleteExpiredIdempotencyKeys_writes; set_solver.
  - eapply so_other, DeleteExpiredIdempotencyTaskIndex_writes; set_solver.
Qed.

Lemma store_op_verified th : store_op th → verified job_protocol th.
Proof.
  intros Hop w _. destruct Hop as [params args|p args|n params args|ctx vmID plan ?|id ??|id token ??|id ??
    |id token m ??|id token ??|id ref ?|t ?|t ?|R fs p Hj Hs Hw]; simpl.
  - apply EnqueueTask_job.
  - apply CreateMigration_job.
  - apply StartNodeDrain_job.
  - by apply BindScheduledVM_job.
  - by apply ClaimJob_job.
  - by apply RenewJobLease_job.
  - by apply CompleteJob_job.
  - by apply RetryJob_job.
  - by apply RequeueJob_job.
  - by apply CancelPendingTask_job.
  - by apply ReclaimStaleRunningJobs_job.
  - by apply DeleteFailedJobs_job.
  - pose proof (job_frame made fs Hj Hs). eapply wp_mono; [|by apply (wp_frame job_protocol fs)]. done.
Qed.

Lemma store_pool w0 c :
  job_inv w0 → rtc (cstep store_op) (w0, []) c →
  pool_ok job_protocol c ∧ ∀ c', cstep store_op c c' → job_step c.1 c'.1.
Proof.
  intros Hi Hr. eapply (pool_guar job_protocol); [done|apply store_op_verified|done|done].
Qed.

(** C1. The life of a job, under every interleaving of the operations on the queue
    (the enqueues of tasks, migrations, drains and scheduled VMs; claims,
    renewals, completions, retries, requeues, cancellations, reclaims and sweeps)
    and of programs that write neither job rows nor the counter, with any request
    lost before or after it takes effect.  Each step leaves a job's row alone or
    takes it along an edge of its life, and an edge is taken only by a call that
    some process makes: the row is born pending under a number never used
    before; a claim finds it pending; a renewal, a retry or a requeue of that job
    carries the very token the running row holds; a reclaim finds the lease of
    the running row missing or older than its cutoff; and the row is deleted by
    the completion of that job, by the cancellation of a pending job, or by the
    sweep of a job that failed before its cutoff.  The jobs that snapshots
    enqueue, and the rollback of creates when a node is deleted, are not among
    the operations. *)
Theorem job_queue_lifecycle w0 c c' n :
  job_inv w0 → rtc (cstep store_op) (w0, []) c → cstep store_op c c' → in_i64 n →
  job_lifecycle c.1 n (job_row c.1 n) (job_row c'.1 n).
Proof. intros Hi Hr Hs Hn. by apply (store_pool w0 c Hi Hr). Qed.

(** Claim tokens are fencing tokens: two different claims that succeeded, of
    whatever jobs and however interleaved, returned different tokens. *)
Theorem claim_tokens_unique w0 w ts i1 i2 token1 token2 :
  job_inv w0 → rtc (cstep store_op) (w0, []) (w, ts) → i1 ≠ i2 →
  ts !! i1 = Some (Thread _ claim_post (Ret (Ok (true, token1)))) →
  ts !! i2 = Some (Thread _ claim_post (Ret (Ok (true, token2)))) →
  token1 ≠ token2.
Proof.
  intros Hi Hr Hne Ht1 Ht2. destruct (store_pool w0 _ Hi Hr) as [Hok _].
  destruct (pool_ok_finished job_protocol w ts i1 i2 _ _ _ _ _ _ Hok Hne Ht1 Ht2)
    as (O1 & O2 & Hd & (u1 & -> & Hu1) & (u2 & -> & Hu2)).
  intros E%(inj uuid_string). subst u2. set_solver.
Qed.

(** A job number is used once: when the row of a job is gone, it is gone in
    every later state of every interleaving, so a worker that acts late on a
    finished job can never touch another one. *)
Theorem job_numbers_never_reused w0 c c' n :
  job_inv w0 → rtc (cstep store_op) (w0, []) c → rtc (cstep store_op) c c' → in_i64 n →
  retired n c.1 → retired n c'.1.
Proof.
  intros Hi Hr Hr' Hn. revert Hr.
  induction Hr' as [|c c1 c2 Hs _ IH]; intros Hr Hret; [done|].
  apply IH; [by eapply rtc_r|]. destruct (store_pool w0 c Hi Hr) as [_ Hstep].
  eapply retired_step; [done|by apply Hstep|done].
Qed.
End JobSystem.

(** ** A concrete run

    Two tasks are enqueued, two workers claim their jobs, one completes, the
    other exhausts its attempts. *)
Module QueueRun.
Import Concrete.

Lemma empty_job_inv : job_inv empty_world.
Proof.
  split; simpl.
  - apply empty_store_wf.
  - done.
  - intros e. unfold w_map. simpl. by rewrite lookup_empty.
  - intros st n [->|Hin]%elem_of_cons _ [e He]; [by simpl in He; rewrite lookup_empty in He|by apply elem_of_nil in Hin].
  - intros k e j. unfold w_map. simpl. by rewrite lookup_empty.
Qed.

Definition task_params (n : N) : CreateTaskParams :=
  {| ctp_ID := id n; ctp_Type := "vm.create"; ctp_Status := TaskStatusPending;
     ctp_ResourceType := "vm"; ctp_ResourceID := None; ctp_Args := ""; ctp_MaxAttempts := 3;
     ctp_CreatedBy := Some (id 7); ctp_IdempotencyUserID := None; ctp_IdempotencyKey := None;
     ctp_IdempotencyHash := "" |}.

Definition token1 : string := uuid_string (supply 0).
Definition token2 : string := uuid_string (supply 1).

Definition threads : list thread :=
  [any_result (EnqueueTask (task_params 1) (MkJobArgs "vm.create" (Some "{}")));
   any_result (EnqueueTask (task_params 2) (MkJobArgs "vm.create" (Some "{}")));
   Thread _ claim_post (ClaimJob 1); Thread _ claim_post (ClaimJob 2);
   any_result (CompleteJob 1); any_result (RenewJobLease 1 token1);
   any_result (RetryJob 2 token2 1)].

(** The calls these threads make. *)
Definition calls (c : job_call) : Prop :=
  c ∈ [CallClaim 1; CallClaim 2; CallComplete 1; CallRenew 1 token1; CallRetry 2 token2 1].

Lemma threads_ok : Forall (store_op calls) threads.
Proof.
  assert (in_i64 1 ∧ in_i64 2) as [??] by done. unfold threads, calls.
  repeat (apply Forall_cons; split); [..|done].
  - apply so_EnqueueTask.
  - apply so_EnqueueTask.
  - apply so_ClaimJob; [set_solver|done].
  - apply so_ClaimJob; [set_solver|done].
  - apply so_CompleteJob; [set_solver|done].
  - apply so_RenewJobLease; [set_solver|done].
  - apply so_RetryJob; [set_solver|done].
Qed.

(** The enqueues interleave, and so do the claims. *)
Definition enqueued : config :=
  schedule 5 [0; 1; 0; 1; 1; 0; 0; 0; 0; 1; 1; 1; 1; 1; 1]%nat (empty_world, threads).
Definition claiming : config := schedule 6 [2; 3; 2; 3; 2; 3; 3]%nat enqueued.
Definition claimed : config := step_at 7 claiming 2.
Definition completed : config := step_at 8 claimed 4.
Definition renewed : config := schedule 9 [5; 5; 5]%nat completed.

Lemma reach_claiming : rtc (cstep (store_op calls)) (empty_world, []) claiming.
Proof.
  etrans; [apply spawn_rtc, threads_ok|]. etrans; [|apply schedule_rtc]. apply schedule_rtc.
Qed.

Lemma claim_step : cstep (store_op calls) claiming claimed.
Proof. apply step_at_cstep. by vm_compute. Qed.

Lemma complete_step : cstep (store_op calls) claimed completed.
Proof. apply step_at_cstep. by vm_compute. Qed.

Lemma reach_completed : rtc (cstep (store_op calls)) (empty_world, []) completed.
Proof. eapply rtc_r; [eapply rtc_r; [apply reach_claiming|apply claim_step]|apply complete_step]. Qed.

Lemma job_queue_lifecycle_witness :
  job_row claiming.1 1 ≠ job_row claimed.1 1 ∧
  job_lifecycle calls claiming.1 1 (job_row claiming.1 1) (job_row claimed.1 1).
Proof.
  split; [by vm_compute|].
  apply (job_queue_lifecycle calls empty_world claiming claimed 1);
    [apply empty_job_inv|apply reach_claiming|apply claim_step|done].
Defined.

Lemma claim_tokens_unique_witness : token1 ≠ token2.
Proof.
  apply (claim_tokens_unique calls empty_world claimed.1 claimed.2 2 3 token1 token2).
  - apply empty_job_inv.
  - rewrite <-(surjective_pairing claimed). eapply rtc_r; [apply reach_claiming|apply claim_step].
  - lia.
  - vm_compute. reflexivity.
  - vm_compute. reflexivity.
Defined.

Lemma job_numbers_never_reused_witness : retired 1 completed.1 ∧ retired 1 renewed.1.
Proof.
  assert (retired 1 completed.1) as Hr.
  { split; [by vm_compute|]. exists (w_st claimed.1). split; [|by vm_compute; eexists].
    vm_compute. right. left. }
  split; [done|].
  apply (job_numbers_never_reused calls empty_world completed renewed 1);
    [apply empty_job_inv|apply reach_completed|apply schedule_rtc|done|done].
Defined.

(** The fences, in this run: the retry of the second worker, and a reclaim. *)
Lemma bookkeeping_fenced_witness :
  Forall (λ s, w_st s.2 = w_st s.1 ∨ row_write (jobKey 2) (retries token2 1) (w_st s.1) (w_st s.2))
    (drive 5 10 renewed.1 (RetryJob 2 token2 1)).1.1.
Proof.
  destruct (bookkeeping_fenced 2 token2 1) as (_ & _ & Hretry & _).
  eapply (Hretry renewed.1); [|apply drive_open_run].
  destruct (store_pool calls empty_world renewed) as [[Hi _] _]; [apply empty_job_inv| |apply Hi].
  etrans; [apply reach_completed|]. apply schedule_rtc.
Defined.

Lemma ReclaimStaleRunningJobs_safe_witness :
  job_row (drive 9 100 renewed.1 (ReclaimStaleRunningJobs 50)).1.2 2 ≠ job_row renewed.1 2 ∧
  Forall (λ s, w_st s.2 = w_st s.1 ∨
      ∃ id, row_write (jobKey id) (reclaims 50) (w_st s.1) (w_st s.2))
    (drive 9 100 renewed.1 (ReclaimStaleRunningJobs 50)).1.1.
Proof.
  split; [by vm_compute|].
  eapply (ReclaimStaleRunningJobs_safe 50 renewed.1); [|apply drive_open_run].
  destruct (store_pool calls empty_world renewed) as [[Hi _] _]; [apply empty_job_inv| |apply Hi].
  etrans; [apply reach_completed|]. apply schedule_rtc.
Defined.
End QueueRun.
