(* ===== verification/JobQueue.v ===== *)
(** * The job queue, one operation at a time

    What the operations of the queue return and leave behind when nothing
    interferes: the order in which pending jobs are offered, the outcome of
    claims and retries on every branch, and that a reclaim pass leaves no stale
    job behind. *)

From S2P Require Import Prelude Models Etcd Prog Keys Client Rules Sequential Instances.
From S2P Require Import Jobs JobFence JobProtocol JobSystem.
Local Open Scope Z_scope.

Section JobQueue.
Context `{Etcd, !EtcdLaws, !Libs, !LibsLaws} (clock : Z) (supply : nat → uuid).

(** ** The order of the queue *)

Definition stored_jobs (w : world) : list Job :=
  decoded jobsPrefix (w_map w).

Lemma elem_of_stored_jobs w j :
  job_inv w → j ∈ stored_jobs w ↔ job_row w (job_ID j) = Some (DJob j).
Proof.
  intros Hi. unfold stored_jobs. rewrite elem_of_decoded. split.
  - intros (k & e & Hk & Hp & He). destruct (ji_rows w Hi _ _ _ Hk (prefix_jobs _ Hp) He) as [_ Ek].
    unfold job_row. rewrite <-Ek, Hk. simpl. by rewrite He.
  - intros (e & He & Hd)%fmap_Some. exists (jobKey (job_ID j)), e. split_and!; [done|apply jobKey_prefix|done].
Qed.

Lemma stored_job_range w j :
  job_inv w → job_row w (job_ID j) = Some (DJob j) → 1 ≤ job_ID j ≤ max_i64 ∧ in_i64 (job_ID j).
Proof.
  intros Hi (e & He & Hd)%fmap_Some. symmetry in Hd.
  destruct (ji_rows w Hi _ _ _ He (family_jobKey _) Hd) as [Hn _]. split; [|done].
  pose proof (ji_used w Hi (w_st w) (job_ID j)) as Hu. pose proof (ji_bound w Hi).
  destruct (ji_wf w Hi) as [? _]. unfold w_rev, w_map in *.
  assert (1 ≤ job_ID j ≤ counter (w_st w)); [|lia]. apply Hu; [by left|done|by eexists].
Qed.

Lemma stored_jobs_sorted w :
  job_inv w → StronglySorted (λ j1 j2, job_ID j1 < job_ID j2) (stored_jobs w).
Proof.
  intros Hi.
  assert (StronglySorted (λ a b, str_ltb (jobKey (job_ID a)) (jobKey (job_ID b)) = true) (stored_jobs w))
    as Hs.
  { apply decoded_sorted. intros k e j Hk Hp He. by destruct (ji_rows w Hi _ _ _ Hk (prefix_jobs _ Hp) He). }
  assert (∀ j, j ∈ stored_jobs w → 0 ≤ job_ID j ≤ max_i64) as Hr.
  { intros j Hj%elem_of_stored_jobs; [|done]. destruct (stored_job_range w j Hi Hj). lia. }
  revert Hr. induction Hs as [|j l Hs IH Hj]; intros Hr; constructor.
  - apply IH. intros j' Hj'. apply Hr. by right.
  - rewrite Forall_forall in *. intros j' Hj'. apply Z.ltb_lt. rewrite <-(jobKey_ltb (job_ID j) (job_ID j'));
      [by apply Hj|apply Hr; by left|apply Hr; by right].
Qed.

(** The queue is first in, first out: the pending jobs are returned by
    ascending sequence number, each exactly once, and they are exactly the jobs
    that are pending. *)
Theorem PendingJobs_fifo w n :
  job_inv w → ∃ l, run_result clock supply PendingJobs (w_st w) n = Ok l ∧
    StronglySorted (λ j1 j2, job_ID j1 < job_ID j2) l ∧
    ∀ j, j ∈ l ↔ job_State j = JobStatePending ∧ job_row w (job_ID j) = Some (DJob j).
Proof.
  intros Hi. exists (filter (λ j, job_State j = JobStatePending) (stored_jobs w)). split_and!.
  - unfold run_result, PendingJobs. by rewrite run_bindM, run_Range.
  - by apply StronglySorted_filter, stored_jobs_sorted.
  - intros j. rewrite list_elem_of_filter, elem_of_stored_jobs by done. done.
Qed.

(** ** Claims and retries *)

Lemma run_cas_job id e j st n :
  es_map st !! jobKey id = Some e → fits j → es_rev st < max_i64 →
  run clock supply (cas_job id (e_mod e) j) st n = (Ok true, put_row (jobKey id) (DJob j) st, n).
Proof.
  intros He Hf Hmax. unfold cas_job. rewrite run_bindM, run_Marshal by done.
  rewrite run_bindM, run_put_txn; [done|done|vm_compute; lia|].
  cbn [forallb cmp_holds]. rewrite He. cbn [from_option]. by rewrite bool_decide_eq_true_2.
Qed.

Lemma run_jobWithRev id st n :
  run clock supply (jobWithRev id) st n =
    (match es_map st !! jobKey id with
     | None => Ok None
     | Some e => match decode_doc (e_val e) with
                 | Some j => Ok (Some (j, e_mod e))
                 | None => Err ErrDecode
                 end
     end, st, n).
Proof.
  unfold jobWithRev. rewrite run_bindM, run_raw_get. destruct (es_map st !! jobKey id) as [e|]; [|done].
  by destruct (decode_doc (e_val e)).
Qed.

(** The claimed form of a job. *)
Definition claimed_job (j : Job) (t : Z) (token : string) : Job :=
  j <| job_State := JobStateRunning |> <| job_ClaimedAt := Some t |> <| job_ClaimToken := token |>.

(** A claim without interference, on every branch: a pending job becomes
    running under a new token, which is returned; an absent job or one in another
    state is refused and nothing is written; a row that does not decode is an
    error and stays. *)
Theorem ClaimJob_run id st n :
  es_rev st < max_i64 →
  (∀ e j, es_map st !! jobKey id = Some e → decode_doc (e_val e) = Some j →
     fits (claimed_job j clock (uuid_string (supply n)))) →
  run clock supply (ClaimJob id) st n =
    match es_map st !! jobKey id with
    | None => (Ok (false, ""), st, n)
    | Some e =>
      match decode_doc (e_val e) with
      | None => (Err ErrDecode, st, n)
      | Some j =>
        if bool_decide (job_State j = JobStatePending) then
          (Ok (true, uuid_string (supply n)),
           put_row (jobKey id) (DJob (claimed_job j clock (uuid_string (supply n)))) st, S n)
        else (Ok (false, ""), st, n)
      end
    end.
Proof.
  intros Hmax Hf. unfold ClaimJob. rewrite run_bindM, run_jobWithRev.
  destruct (es_map st !! jobKey id) as [e|] eqn:He; [|done].
  destruct (decode_doc (e_val e)) as [j|] eqn:Hd; [|done]. case_bool_decide; cbn [negb]; [|done].
  rewrite run_bindM, run_new_uuid, run_bindM, run_now.
  rewrite run_bindM. rewrite (run_cas_job id e _ st (S n) He); [done|by apply (Hf e)|done].
Qed.

Lemma retried_again j m t : (retried j m t).2 = (i32 (job_Attempts j + 1) <? m).
Proof. unfold retried. cbn [job_Attempts set]. by case_match. Qed.

Lemma retried_time j m t t' :
  (i32 (job_Attempts j + 1) <? m) = true → retried j m t = retried j m t'.
Proof. intros Hlt. unfold retried. cbn. by rewrite Hlt. Qed.

(** A retry without interference, on every branch: the holder of the claim
    moves the job back to the queue, or to failed when the attempt was the last
    one, and is told which; anyone else changes nothing. *)
Theorem RetryJob_run id token maxAttempts st n :
  es_rev st < max_i64 →
  (∀ e j, es_map st !! jobKey id = Some e → decode_doc (e_val e) = Some j →
     fits (retried j maxAttempts clock).1) →
  run clock supply (RetryJob id token maxAttempts) st n =
    match es_map st !! jobKey id with
    | None => (Ok false, st, n)
    | Some e =>
      match decode_doc (e_val e) with
      | None => (Err ErrDecode, st, n)
      | Some j =>
        if holds_claim token j then
          (Ok (i32 (job_Attempts j + 1) <? maxAttempts),
           put_row (jobKey id) (DJob (retried j maxAttempts clock).1) st, n)
        else (Ok false, st, n)
      end
    end.
Proof.
  intros Hmax Hf. unfold RetryJob, claimFenceRetries. generalize 2%nat as rounds. intros rounds.
  cbn [retry_loop]. rewrite run_bindM, run_jobWithRev.
  destruct (es_map st !! jobKey id) as [e|] eqn:He; [|done].
  destruct (decode_doc (e_val e)) as [j|] eqn:Hd; [|done].
  destruct (holds_claim token j); cbn [negb]; [|done].
  assert (∀ t, retried j maxAttempts t = retried j maxAttempts clock →
    run clock supply (let '(job, requeued) := retried j maxAttempts t in
      ok ← cas_job id (e_mod e) job;
      if ok : bool then mret requeued else retry_loop rounds id token maxAttempts) st n =
    (Ok (i32 (job_Attempts j + 1) <? maxAttempts),
     put_row (jobKey id) (DJob (retried j maxAttempts clock).1) st, n)) as Hrest.
  { intros t ->. specialize (Hf e j eq_refl Hd). rewrite <-(retried_again j maxAttempts clock).
    destruct (retried j maxAttempts clock) as [j' b]. cbn [fst snd] in *.
    by rewrite run_bindM, (run_cas_job id e j' st n He Hf Hmax). }
  rewrite run_bindM. destruct (i32 (job_Attempts j + 1) <? maxAttempts) eqn:Hlt.
  - rewrite run_mret. by apply Hrest, retried_time.
  - rewrite run_now. by apply Hrest.
Qed.

(** ** Reclaims *)

(** The store after the stale jobs of [l] were returned to the queue. *)
Definition reclaimed (olderThan : Z) (l : list Job) (st st' : estate) : Prop :=
  (∀ j, j ∈ l → stale olderThan j = true →
     e_val <$> es_map st' !! jobKey (job_ID j) = Some (DJob (requeued j))) ∧
  (∀ k, (∀ j, j ∈ l → stale olderThan j = true → jobKey (job_ID j) ≠ k) →
     es_map st' !! k = es_map st !! k).

Lemma reclaim_one_run olderThan j e st n :
  es_map st !! jobKey (job_ID j) = Some e → e_val e = DJob j → fits (requeued j) →
  es_rev st < max_i64 →
  run clock supply (reclaim_one olderThan j) st n =
    (Ok (stale olderThan j),
     if stale olderThan j then put_row (jobKey (job_ID j)) (DJob (requeued j)) st else st, n).
Proof.
  intros He Hv Hf Hmax. unfold reclaim_one. destruct (stale olderThan j) eqn:Hs; cbn [negb]; [|done].
  rewrite run_bindM, run_jobWithRev, He, Hv. simpl decode_doc. cbn beta iota.
  rewrite Hs. cbn [negb]. by apply run_cas_job.
Qed.

Lemma reclaim_loop_run olderThan l st n c :
  (∀ j, j ∈ l → in_i64 (job_ID j) ∧ (∃ e, es_map st !! jobKey (job_ID j) = Some e ∧ e_val e = DJob j)) →
  NoDup (map job_ID l) → (∀ j, j ∈ l → fits (requeued j)) → es_rev st + Z.of_nat (length l) ≤ max_i64 →
  ∃ st', run clock supply (reclaim_loop olderThan l c) st n =
      ((c + Z.of_nat (length (filter (λ j, stale olderThan j = true) l)), None), st', n) ∧
    reclaimed olderThan l st st'.
Proof.
  intros Hl Hnd Hf. revert st c Hl Hf. induction l as [|j l IH]; intros st c Hl Hf Hmax.
  { exists st. split; [by rewrite Z.add_0_r|]. split; [set_solver|done]. }
  cbn [reclaim_loop]. rewrite run_bind. apply NoDup_cons in Hnd as [Hnot Hnd].
  destruct (Hl j) as [Hn (e & He & Hv)]; [by left|]. simpl length in Hmax.
  rewrite (reclaim_one_run olderThan j e st n He Hv (Hf j ltac:(by left))) by lia.
  set (st1 := if stale olderThan j then _ else st).
  assert (∀ k, k ≠ jobKey (job_ID j) → es_map st1 !! k = es_map st !! k) as Hk.
  { intros k Hk. unfold st1. case_match; [|done]. simpl. by rewrite lookup_insert_ne. }
  assert (∀ j', j' ∈ l → jobKey (job_ID j') ≠ jobKey (job_ID j)) as Hneq.
  { intros j' Hj' E%jobKey_inj; [|by apply Hl; right|done].
    apply Hnot. rewrite <-E. by apply list_elem_of_fmap_2. }
  destruct (IH Hnd st1 (if stale olderThan j then c + 1 else c)) as (st' & Hrun & Hval & Hother).
  - intros j' Hj'. destruct (Hl j') as [Hn' (e' & He' & Hv')]; [by right|]. split; [done|].
    exists e'. by rewrite Hk by auto.
  - intros j' Hj'. apply Hf. by right.
  - unfold st1, put_row. case_match; simpl; lia.
  - exists st'. split; [|split].
    + rewrite Hrun, filter_cons. case_decide as Hs.
      * rewrite Hs. simpl. f_equal. f_equal. f_equal. lia.
      * apply not_true_is_false in Hs. by rewrite Hs.
    + intros j' [->|Hj']%elem_of_cons Hs; [|by apply Hval].
      rewrite Hother by (intros; by apply Hneq). unfold st1. rewrite Hs. simpl.
      by rewrite lookup_insert_eq.
    + intros k Hno. rewrite Hother by (intros j' Hj'; apply Hno; by right).
      destruct (decide (k = jobKey (job_ID j))) as [->|?]; [|by apply Hk].
      unfold st1. destruct (stale olderThan j) eqn:Hs; [|done].
      exfalso. apply (Hno j); [by left|done|done].
Qed.

(** C31. A reclaim pass without interference is complete: it returns exactly the
    running jobs whose lease is missing or stale to the queue, keeping their
    attempts, reports their number, touches nothing else, and leaves no stale
    job behind.  The requeued form of each stored job fits the store's size
    limit, and the revisions left are enough for one write per job. *)
Theorem ReclaimStaleRunningJobs_complete olderThan w n :
  job_inv w → (∀ j, j ∈ stored_jobs w → fits (requeued j)) → w_rev w + Z.of_nat (length (stored_jobs w)) ≤ max_i64 →
  ∃ st', run clock supply (ReclaimStaleRunningJobs olderThan) (w_st w) n =
      ((Z.of_nat (length (filter (λ j, stale olderThan j = true) (stored_jobs w))), None), st', n) ∧
    reclaimed olderThan (stored_jobs w) (w_st w) st' ∧
    ∀ k e j, es_map st' !! k = Some e → key_family k = Some FJob → e_val e = DJob j →
      stale olderThan j = false.
Proof.
  intros Hi Hf Hmax.
  destruct (reclaim_loop_run olderThan (stored_jobs w) (w_st w) n 0) as (st' & Hrun & Hrec).
  - intros j Hj. apply elem_of_stored_jobs in Hj; [|done]. split; [by apply (stored_job_range w)|].
    apply fmap_Some in Hj as (e & ? & ?). eauto.
  - eapply StronglySorted_NoDup; [|by apply stored_jobs_sorted]. simpl. lia.
  - done.
  - done.
  - exists st'. split_and!; [|done|].
    + unfold ReclaimStaleRunningJobs. rewrite run_bind, run_Range. exact Hrun.
    + intros k e j He Hfam Hv. destruct Hrec as [Hval Hother].
      destruct (decide (Exists (λ j', stale olderThan j' = true ∧ jobKey (job_ID j') = k) (stored_jobs w)))
        as [Hex|Hnex].
      * apply Exists_exists in Hex as (j' & Hj' & Hs & <-). specialize (Hval j' Hj' Hs).
        rewrite He in Hval. simpl in Hval. rewrite Hv in Hval. by injection Hval as ->.
      * rewrite Hother in He; [|intros j' Hj' Hs E; apply Hnex, Exists_exists; eauto].
        apply not_true_is_false. intros Hs. apply Hnex, Exists_exists. exists j.
        destruct (ji_rows w Hi _ _ _ He Hfam Hv) as [_ Ek]. split_and!; [|done|done].
        apply elem_of_stored_jobs; [done|]. unfold job_row, w_map. rewrite <-Ek, He. simpl. by rewrite Hv.
Qed.
End JobQueue.

(** ** The concrete run *)
Module QueueReads.
Import Concrete QueueRun.

Lemma reachable_inv c : rtc (cstep (store_op calls)) (empty_world, []) c → job_inv c.1.
Proof. intros Hr. by destruct (store_pool calls empty_world c empty_job_inv Hr) as [[Hi _] _]. Qed.

Lemma enqueued_inv : job_inv enqueued.1.
Proof. apply reachable_inv. etrans; [apply spawn_rtc, threads_ok|]. apply schedule_rtc. Qed.

Lemma renewed_inv : job_inv renewed.1.
Proof. apply reachable_inv. etrans; [apply reach_completed|]. apply schedule_rtc. Qed.

Lemma PendingJobs_fifo_witness : ∃ j1 j2,
  run_result 9 supply PendingJobs (w_st enqueued.1) 0 = Ok [j1; j2] ∧ job_ID j1 < job_ID j2.
Proof.
  destruct (PendingJobs_fifo 9 supply enqueued.1 0 enqueued_inv) as (l & Hrun & Hsorted & _).
  assert (∃ j1 j2, run_result 9 supply PendingJobs (w_st enqueued.1) 0 = Ok [j1; j2]) as (j1 & j2 & E).
  { vm_compute. eexists _, _. reflexivity. }
  exists j1, j2. split; [exact E|]. rewrite E in Hrun. injection Hrun as <-.
  inversion Hsorted as [|??? Hall]; subst. by inversion Hall.
Defined.

Lemma ClaimJob_run_witness :
  run_result 9 supply (ClaimJob 1) (w_st enqueued.1) 0 = Ok (true, uuid_string (supply 0)).
Proof.
  unfold run_result. rewrite (ClaimJob_run 9 supply 1 (w_st enqueued.1) 0).
  - vm_compute. reflexivity.
  - vm_compute. reflexivity.
  - intros e j _ _. vm_compute. discriminate.
Defined.

Lemma RetryJob_run_witness :
  run_result 9 supply (RetryJob 2 token2 3) (w_st renewed.1) 0 = Ok true ∧
  run_result 9 supply (RetryJob 2 token2 1) (w_st renewed.1) 0 = Ok false.
Proof.
  split; (unfold run_result; rewrite (RetryJob_run 9 supply 2 token2 _ (w_st renewed.1) 0);
    [vm_compute; reflexivity|vm_compute; reflexivity|intros e j _ _; vm_compute; discriminate]).
Defined.

Lemma ReclaimStaleRunningJobs_complete_witness : ∃ st',
  run 9 supply (ReclaimStaleRunningJobs 8) (w_st renewed.1) 0 = ((1, None), st', 0%nat) ∧
  reclaimed 8 (stored_jobs renewed.1) (w_st renewed.1) st'.
Proof.
  destruct (ReclaimStaleRunningJobs_complete 9 supply 8 renewed.1 0) as (st' & Hrun & Hrec & _).
  - apply renewed_inv.
  - intros j _. vm_compute. discriminate.
  - vm_compute. discriminate.
  - exists st'. split; [|exact Hrec]. rewrite Hrun. f_equal.
Defined.
End QueueReads.
