(* ===== verification/TaskProps.v ===== *)
(** * Enqueue and cancel

    An enqueue writes the task, its job and its idempotency entry in one
    transaction; enqueues under one idempotency key agree on one task; a cancel
    never takes a job that a worker has claimed. *)

From S2P Require Import Prelude Models Etcd Prog Keys Client Rules Footprint Instances.
From S2P Require Import Jobs JobFence Tasks Footprints.
Local Open Scope Z_scope.

Section TaskProps.
Context `{Etcd, !EtcdLaws, !Libs, !LibsLaws}.

(** ** Allocation of the job *)

Lemma enqueueJobOp_writes args : writes [FJobSeq] (enqueueJobOp args).
Proof.
  unfold enqueueJobOp. apply writes_bindM.
  - unfold nextJobSeq, nextSeq. generalize 64%nat as n. intros n.
    induction n as [|n IH]; cbn [nextSeq_loop]; [done|]. apply writes_bindM; [|intros []; [done|apply IH]].
    unfold nextSeq_round. writes_solve.
  - writes_solve.
Qed.

Definition job_put (args : JobArgs) (p : Z * op) : Prop :=
  ∃ payload, p.2 = OpPut (jobKey p.1) (DJob (pending_job p.1 (ja_Kind args) payload)).

Lemma enqueueJobOp_returns args : returns (on_ok (job_put args)) (enqueueJobOp args).
Proof.
  unfold enqueueJobOp. apply returns_bindM, returns_any. intros seq. apply returns_bindM, returns_any.
  intros payload. apply returns_bindM. unfold Marshal, capValue. case_match; simpl; [done|].
  by exists payload.
Qed.

(** ** One transaction *)

(** The idempotency descriptor an enqueue acts on. *)
Definition descriptor (params : CreateTaskParams) : option string :=
  match ctp_IdempotencyUserID params, ctp_IdempotencyKey params with
  | Some user, Some key => Some (idempotencyTaskIndexKey user key)
  | _, _ => None
  end.

(** The index entry under [k] names the task and the hash. *)
Definition names (k : string) (id : uuid) (hash : bytes) (st : estate) : Prop :=
  ∃ t, e_val <$> es_map st !! k =
    Some (DIdempotencyTaskIndex {| iti_TaskID := id; iti_RequestHash := hash; iti_ExpiresAt := t |}).

(** The step creates the task, its job and its index entries. *)
Definition enqueues (params : CreateTaskParams) (args : JobArgs) (st st' : estate) : Prop :=
  ∃ seq payload t,
    e_val <$> es_map st' !! taskKey (ctp_ID params) = Some (DTask (taskFromParams params seq t)) ∧
    e_val <$> es_map st' !! jobKey seq = Some (DJob (pending_job seq (ja_Kind args) payload)) ∧
    (∀ k, descriptor params = Some k →
       es_map st !! k = None ∧ names k (ctp_ID params) (ctp_IdempotencyHash params) st') ∧
    ∀ k, k ≠ taskKey (ctp_ID params) → k ≠ jobKey seq → descriptor params ≠ Some k →
      ¬ key_in [FTaskCreatedBy] k → es_map st' !! k = es_map st !! k.

(** The step only moves the counter. *)
Definition allocates (st st' : estate) : Prop :=
  ∀ k, ¬ key_in [FJobSeq] k → es_map st' !! k = es_map st !! k.

(** The index entry an enqueue adds. *)
Definition index_entry (params : CreateTaskParams) (t : Z) : idempotencyTaskIndex :=
  {| iti_TaskID := ctp_ID params; iti_RequestHash := ctp_IdempotencyHash params;
     iti_ExpiresAt := t + idempotencyTaskIndexTTL |}.
Definition index_puts (params : CreateTaskParams) (t : Z) : list op :=
  match descriptor params with
  | Some k => [OpPut k (DIdempotencyTaskIndex (index_entry params t))]
  | None => []
  end.

Lemma descriptor_family params k : descriptor params = Some k → key_family k = Some FIdempotencyTask.
Proof.
  unfold descriptor. destruct (ctp_IdempotencyUserID params), (ctp_IdempotencyKey params);
    intros; simplify_eq. unfold key_family. by rewrite class_idempotencyTaskIndexKey.
Qed.

Lemma index_puts_in params t : Forall (op_in [FIdempotencyTask]) (index_puts params t).
Proof.
  unfold index_puts. destruct (descriptor params) as [k|] eqn:Hd; [|constructor].
  apply Forall_singleton. simpl. unfold key_in. rewrite (descriptor_family params k Hd). set_solver.
Qed.

(** The rows after the enqueue's transaction. *)
Lemma enqueue_applied params args seq payload t t' w :
  let task := taskFromParams params seq t in
  (∀ k, descriptor params = Some k → w_map w !! k = None) →
  enqueues params args (w_st w)
    (w_st (applied w ((taskIndexOps task ++
      [OpPut (taskKey (task_ID task)) (DTask task);
       OpPut (jobKey seq) (DJob (pending_job seq (ja_Kind args) payload))]) ++ index_puts params t'))).
Proof.
  intros task Hd. exists seq, payload, t. set (ops := (taskIndexOps task ++ _) ++ _).
  pose proof (index_puts_in params t') as Hidx.
  fold (w_map (applied w ops)) (w_map w). rewrite applied_map. split_and!.
  - unfold ops. rewrite <-app_assoc.
    apply (apply_ops_put [FJob; FIdempotencyTask]); [|key_in_solve]. writes_solve.
    eapply op_in_mono; [|exact Hidx]. set_solver.
  - assert (ops = (taskIndexOps task ++ [OpPut (taskKey (task_ID task)) (DTask task)]) ++
      OpPut (jobKey seq) (DJob (pending_job seq (ja_Kind args) payload)) :: index_puts params t') as ->
      by (unfold ops; by rewrite <-!app_assoc).
    apply (apply_ops_put [FIdempotencyTask]); [done|key_in_solve].
  - intros k Hk. split; [by apply Hd|]. exists (t' + idempotencyTaskIndexTTL).
    fold (w_map (applied w ops)). rewrite applied_map. unfold ops, index_puts. rewrite Hk.
    rewrite (apply_ops_put []); [done|constructor|unfold key_in; by case_match; set_solver].
  - intros k Hk1 Hk2 Hk3 Hk4. unfold ops. rewrite !apply_ops_app, !apply_ops_cons.
    unfold index_puts. destruct (descriptor params) as [k'|]; simpl;
      rewrite !lookup_insert_ne by congruence;
      (apply (apply_ops_outside [FTaskCreatedBy]); [apply taskIndexOps_in; set_solver|done]).
Qed.

(** An enqueue under any protocol that allows its steps. *)
Lemma EnqueueTask_wp (pr : protocol) `{!EtcdProtocol pr, !Frame pr [FJobSeq] } params args Q w :
  (∀ w w', pr_inv pr w → any_env w w' → enqueues params args (w_st w) (w_st w') →
     own_step pr ∅ ∅ w w') →
  (∀ e w, Q (Err e) ∅ w) →
  (∀ w, (∀ k, descriptor params = Some k →
     names k (ctp_ID params) (ctp_IdempotencyHash params) (w_st w)) → Q (Ok (ctp_ID params)) ∅ w) →
  (∀ w k u, descriptor params = Some k → names k u (ctp_IdempotencyHash params) (w_st w) →
     Q (Ok u) ∅ w) →
  wp pr (EnqueueTask params args) ∅ Q w.
Proof.
  intros Hstep HE HO HR.
  apply (wp_frame_bind_returns pr [FJobSeq] (job_put args));
    [apply enqueueJobOp_writes|apply enqueueJobOp_returns|done|].
  intros [seq o] w1 [payload Ho]. simpl in Ho. subst o.
  apply wp_bindM, (wp_now pr). intros w2 t _. cbv zeta. apply wp_bindM, wp_Marshal; [apply HE|].
  pose proof (enqueue_applied params args seq payload t) as Happ. cbv zeta in Happ.
  set (task := taskFromParams params seq t) in *. set (ops := taskIndexOps task ++ _) in *.
  assert (∀ t' w3, pr_inv pr w3 → w_rev w3 < max_i64 →
    (∀ k, descriptor params = Some k → w_map w3 !! k = None) →
    own_step pr ∅ ∅ w3 (applied w3 (ops ++ index_puts params t'))) as Hown.
  { intros t' w3 Hi Hmax Hnone. apply Hstep; [done|by apply any_env_applied|by apply Happ]. }
  assert (descriptor params = None → ∀ w3,
    wp pr (_ ← raw_txn [] ops []; mret (ctp_ID params)) ∅ Q w3) as Hplain.
  { intros Hd w3. apply wp_bindM, (wp_raw_txn pr); [auto|done|]. intros w4 (_ & Hi & _) _ _ Hmax.
    specialize (Hown 0 w4 Hi Hmax). unfold index_puts in Hown. rewrite Hd, app_nil_r in Hown.
    exists ∅. split; [by apply Hown|]. split; [apply HE|]. intros _ _. apply wp_mret, HO.
    intros k. by rewrite Hd. }
  assert (descriptor params = match ctp_IdempotencyUserID params, ctp_IdempotencyKey params with
    | Some user, Some key => Some (idempotencyTaskIndexKey user key) | _, _ => None end) as Hd by done.
  destruct (ctp_IdempotencyUserID params) as [user|]; [|by apply Hplain].
  destruct (ctp_IdempotencyKey params) as [key|]; [|by apply Hplain].
  apply wp_bindM, (wp_now pr). intros w3 t' _. apply wp_bindM, (wp_raw_txn_get pr); [auto|..].
  - intros w4 Hw4 _. cbn [tr_Succeeded tr_Responses]. unfold replay.
    destruct (w_map w4 !! _) as [e|] eqn:He; [|apply HE].
    destruct (decode_doc (e_val e)) as [prior|] eqn:Edec; [|apply HE].
    case_bool_decide as Hh; cbn [negb]; [|apply HE]. apply wp_mret. eapply HR; [done|].
    exists (iti_ExpiresAt prior). unfold w_map in He. rewrite He. simpl. apply decode_doc_inv in Edec.
    rewrite Edec, <-Hh. by destruct prior.
  - intros w4 (_ & Hi & _) Hc _ Hmax. apply andb_true_iff in Hc as [Hc _].
    assert (∀ k, descriptor params = Some k → w_map w4 !! k = None) as Hnone.
    { intros k. rewrite Hd. intros [= <-]. apply cmp_absent; [by apply ep_wf|done]. }
    specialize (Hown t' w4 Hi Hmax Hnone). specialize (Happ t' w4 Hnone).
    unfold index_puts in Hown, Happ. rewrite Hd in Hown, Happ.
    exists ∅. split; [exact Hown|]. split; [apply HE|]. intros rs. cbn [tr_Succeeded]. apply wp_mret, HO.
    intros k Hk. destruct Happ as (? & ? & ? & _ & _ & Hn & _). by apply Hn.
Qed.

Lemma open_frame (G : estate → estate → Prop) fs :
  (∀ st st', (∀ k, ¬ key_in fs k → es_map st' !! k = es_map st !! k) → G st st') →
  Frame (open_protocol G) fs.
Proof. intros HG. split; simpl; [|done]. intros w w' _ Henv Hk. split; [done|]. right. by apply HG. Qed.

(** An enqueue is atomic: in any environment, each of its writes either
    only moves the sequence counter, or creates at once the task row, the pending
    job row its [JobID] names and, for an idempotent request, the index entry
    that was absent until then. *)
Theorem EnqueueTask_atomic params args :
  steps_within (λ st st', allocates st st' ∨ enqueues params args st st') (EnqueueTask params args).
Proof.
  apply steps_within_wp. intros w. set (G := λ st st', _).
  assert (Frame (open_protocol G) [FJobSeq]) by (apply open_frame; by left).
  apply (EnqueueTask_wp (open_protocol G)); [|done..].
  intros w1 w2 _ Henv Hen. apply own_step_open; [done|]. by right.
Qed.

(** Others may do anything but remove or change an idempotency entry. *)
Definition index_kept (w w' : world) : Prop :=
  any_env w w' ∧ ∀ k e, key_family k = Some FIdempotencyTask → w_map w !! k = Some e → w_map w' !! k = Some e.

Definition index_protocol : protocol := {|
  pr_inv w := estate_wf (w_st w);
  pr_rely := index_kept;
  pr_guar := index_kept;
  pr_ownable _ _ := False
|}.

#[export] Instance index_protocol_laws : EtcdProtocol index_protocol.
Proof.
  split; [split|..]; simpl.
  - intros w w' Hs. split; [by apply any_env_same|]. unfold w_map. by destruct Hs as [-> _].
  - intros w w' Hi [[He _] _]. by eapply estep_wf.
  - intros w w' Hi [[He _] _]. by eapply estep_wf.
  - done.
  - done.
  - by intros w w' [? _].
Qed.

Lemma index_frame : Frame index_protocol [FJobSeq].
Proof.
  split; simpl; [|done]. intros w w' _ Henv Hk. split; [done|]. intros k e Hf He.
  rewrite Hk; [done|]. unfold key_in. rewrite Hf. set_solver.
Qed.

(** What an enqueue under an idempotency key leaves behind. *)
Lemma EnqueueTask_indexed params args k w evs w' u :
  descriptor params = Some k → estate_wf (w_st w) →
  open_run index_kept w (EnqueueTask params args) evs w' (Ret (Ok u)) →
  Forall (λ s, index_kept s.1 s.2) evs ∧ names k u (ctp_IdempotencyHash params) (w_st w').
Proof.
  intros Hd Hwf Hrun. pose proof index_frame.
  destruct (open_guar index_protocol (EnqueueTask params args)
    (λ r w, match r with Ok u => names k u (ctp_IdempotencyHash params) (w_st w) | Err _ => True end)
    w evs w' (Ret (Ok u))) as [Hevs Hpost]; [by intros ?? []| |done| |exact Hrun|done].
  - intros [u'|e] w1 w2 _ [_ Hkept] Hn; [|done]. destruct Hn as [t Ht]. exists t.
    apply fmap_Some in Ht as (e & He & ->). unfold w_map in Hkept.
    by rewrite (Hkept k e (descriptor_family _ _ Hd) He).
  - apply (EnqueueTask_wp index_protocol); [|done|by auto|].
    + intros w1 w2 _ Henv (seq & payload & t & _ & _ & Hnew & Hother).
      split_and!; [split; [done|]|by intros ?|set_solver]. intros k' e Hf He.
      assert (descriptor params ≠ Some k') as Hne.
      { intros Hk'. destruct (Hnew k' Hk') as [Hnone _]. unfold w_map in He. congruence. }
      unfold w_map. rewrite Hother; [done| | |done|].
      * intros ->. unfold key_family in Hf. by rewrite class_taskKey in Hf.
      * intros ->. unfold key_family in Hf. by rewrite class_jobKey in Hf.
      * unfold key_in. rewrite Hf. set_solver.
    + intros w1 k' u' Hk' Hn. by simplify_eq.
Qed.

(** C4. Enqueues under one idempotency key produce one task: as long as the
    index entry is kept, whatever else happens in between, two enqueues of the
    same user and key that both succeed carried the same request hash and return
    the same task, and neither disturbs an existing entry. *)
Theorem EnqueueTask_idempotent params1 args1 params2 args2 k w1 evs1 w1' u1 w2 evs2 w2' u2 :
  descriptor params1 = Some k → descriptor params2 = Some k →
  estate_wf (w_st w1) → estate_wf (w_st w2) →
  open_run index_kept w1 (EnqueueTask params1 args1) evs1 w1' (Ret (Ok u1)) →
  open_run index_kept w2 (EnqueueTask params2 args2) evs2 w2' (Ret (Ok u2)) →
  rtc index_kept w1' w2' →
  u1 = u2 ∧ ctp_IdempotencyHash params1 = ctp_IdempotencyHash params2 ∧
  Forall (λ s, index_kept s.1 s.2) (evs1 ++ evs2).
Proof.
  intros Hd1 Hd2 Hwf1 Hwf2 Hr1 Hr2 Hrtc.
  destruct (EnqueueTask_indexed _ _ _ _ _ _ _ Hd1 Hwf1 Hr1) as [Hev1 [t1 Hn1]].
  destruct (EnqueueTask_indexed _ _ _ _ _ _ _ Hd2 Hwf2 Hr2) as [Hev2 [t2 Hn2]].
  assert (e_val <$> es_map (w_st w2') !! k = e_val <$> es_map (w_st w1') !! k) as E.
  { apply fmap_Some in Hn1 as (e & He & _). rewrite He.
    assert (es_map (w_st w2') !! k = Some e) as ->; [|done].
    clear -Hrtc He Hd1 H2. revert He. induction Hrtc as [|a b c [_ Hkept] _ IH]; [done|]. intros He.
    apply IH. by apply (Hkept k e (descriptor_family _ _ Hd1)). }
  rewrite Hn1, Hn2 in E. simplify_eq. split_and!; [done|done|]. by apply Forall_app.
Qed.

(** ** Cancel *)

(** The step cancels the task and deletes its pending job. *)
Definition cancels (id : uuid) (ref : Z) (st st' : estate) : Prop :=
  ∃ e j t, es_map st !! jobKey ref = Some e ∧ e_val e = DJob j ∧ job_State j = JobStatePending ∧
    es_map st' !! jobKey ref = None ∧
    e_val <$> es_map st' !! taskKey id = Some (DTask t) ∧ task_Status t = TaskStatusCancelled ∧
    ∀ k, k ≠ jobKey ref → k ≠ taskKey id → es_map st' !! k = es_map st !! k.

(** C29. A cancel and a claim exclude each other: in any environment, the only
    write of the cancel of a task with a job marks the task cancelled and deletes
    the job in one step, at a moment at which the job is pending; a job that a
    worker has claimed is never taken away. *)
Theorem CancelPendingTask_exclusive id ref :
  steps_within (cancels id ref) (CancelPendingTask id (Some ref)).
Proof.
  apply steps_within_wp. intros w.
  set (pr := open_protocol (cancels id ref)).
  apply wp_bindM, wp_bindM, (wp_GetJSON pr); [done|by intros; apply wp_fail|].
  intros w1 e0 t Hw1 _ _. cbv beta iota. apply wp_mret.
  destruct (bool_decide _); cbn [negb]; [|by apply wp_fail].
  apply wp_bindM, (wp_now pr). intros w2 n _. cbv zeta. apply wp_bindM, wp_Marshal; [done|].
  apply wp_bindM, (wp_jobWithRev pr); [done|by intros; apply wp_fail|].
  intros w3 e j _ _ He Hseen. cbn beta iota.
  destruct (bool_decide (job_State j = _)) eqn:Hp; cbn [negb]; [|by apply wp_fail].
  apply bool_decide_eq_true in Hp.
  apply wp_bindM, (wp_raw_txn pr); [done|by intros; simpl|].
  intros w4 Hw4 Hc _ Hmax. exists ∅. split; [|by split].
  apply andb_true_iff in Hc as [Hc _].
  assert (w_map w4 !! jobKey ref = Some e) as Hk by (by eapply (cas_lookup pr)).
  apply own_step_open; [by apply any_env_applied|].
  exists e, j, (t <| task_Status := TaskStatusCancelled |> <| task_FinishedAt := Some n |>).
  set (w5 := applied w4 _). fold (w_map w4) (w_map w5). unfold w5. rewrite applied_map. simpl.
  split_and!; [done|done|done|by rewrite lookup_delete_eq| |done|].
  - rewrite lookup_delete_ne by key_neq. by rewrite lookup_insert_eq.
  - intros k Hk1 Hk2. by rewrite lookup_delete_ne, lookup_insert_ne.
Qed.
End TaskProps.

(** ** Concrete runs *)
Module TaskRuns.
Import Concrete.

Definition params (n : N) (hash : bytes) : CreateTaskParams :=
  {| ctp_ID := id n; ctp_Type := "vm.create"; ctp_Status := TaskStatusPending;
     ctp_ResourceType := "vm"; ctp_ResourceID := None; ctp_Args := ""; ctp_MaxAttempts := 3;
     ctp_CreatedBy := Some (id 7); ctp_IdempotencyUserID := Some (id 7);
     ctp_IdempotencyKey := Some "key"; ctp_IdempotencyHash := hash |}.
Definition args : JobArgs := MkJobArgs "vm.create" (Some "{}").
Definition index_key : string := idempotencyTaskIndexKey (id 7) "key".

(** A request and its replay with another task id. *)
Definition first := drive 20 5 empty_world (EnqueueTask (params 1 "h") args).
Definition second := drive 20 9 first.1.2 (EnqueueTask (params 2 "h") args).

Lemma first_run env :
  open_run env empty_world (EnqueueTask (params 1 "h") args) first.1.1 first.1.2 (Ret (Ok (id 1))).
Proof.
  pose proof (drive_open_run env 20 5 empty_world (EnqueueTask (params 1 "h") args)) as Hr.
  fold first in Hr. assert (first.2 = Ret (Ok (id 1))) as E by (vm_compute; reflexivity).
  by rewrite E in Hr.
Qed.

Lemma second_run env :
  open_run env first.1.2 (EnqueueTask (params 2 "h") args) second.1.1 second.1.2 (Ret (Ok (id 1))).
Proof.
  pose proof (drive_open_run env 20 9 first.1.2 (EnqueueTask (params 2 "h") args)) as Hr.
  fold second in Hr. assert (second.2 = Ret (Ok (id 1))) as E by (vm_compute; reflexivity).
  by rewrite E in Hr.
Qed.

Lemma first_wf : estate_wf (w_st first.1.2).
Proof.
  pose proof (first_run index_kept) as Hr.
  destruct (EnqueueTask_indexed (params 1 "h") args index_key empty_world _ _ _ eq_refl empty_store_wf Hr) as [Hev _].
  pose proof (open_run_rtc index_kept _ _ _ _ _ Hr Hev) as Hrtc.
  assert (estate_wf (w_st empty_world)) as Hwf by apply empty_store_wf. revert Hwf.
  generalize first.1.2 Hrtc. clear. intros w Hrtc.
  induction Hrtc as [|a b c [[He _] _] _ IH]; [done|]. intros Hwf. apply IH. by eapply estep_wf.
Qed.

Lemma EnqueueTask_atomic_witness :
  Forall (λ s, w_st s.2 = w_st s.1 ∨
      allocates (w_st s.1) (w_st s.2) ∨ enqueues (params 1 "h") args (w_st s.1) (w_st s.2)) first.1.1 ∧
  is_Some (w_map first.1.2 !! taskKey (id 1)).
Proof.
  split; [|by vm_compute; eexists].
  eapply (EnqueueTask_atomic (params 1 "h") args empty_world); [apply empty_store_wf|apply first_run].
Defined.

Lemma EnqueueTask_idempotent_witness :
  Forall (λ s, index_kept s.1 s.2) (first.1.1 ++ second.1.1).
Proof.
  eapply (EnqueueTask_idempotent (params 1 "h") args (params 2 "h") args index_key
    empty_world first.1.1 first.1.2 (id 1) first.1.2 second.1.1 second.1.2 (id 1)).
  - reflexivity.
  - reflexivity.
  - apply empty_store_wf.
  - apply first_wf.
  - apply first_run.
  - apply second_run.
  - eapply open_run_rtc; [apply second_run|].
    apply (EnqueueTask_indexed (params 2 "h") args index_key _ _ _ _ eq_refl first_wf (second_run _)).
Defined.

(** The cancel of the first task, whose job is number 1. *)
Definition cancel := drive 20 9 first.1.2 (CancelPendingTask (id 1) (Some 1)).

Lemma CancelPendingTask_exclusive_witness :
  w_map cancel.1.2 !! jobKey 1 = None ∧
  Forall (λ s, w_st s.2 = w_st s.1 ∨ cancels (id 1) 1 (w_st s.1) (w_st s.2)) cancel.1.1.
Proof.
  split; [vm_compute; reflexivity|].
  eapply (CancelPendingTask_exclusive (id 1) 1 first.1.2); [apply first_wf|apply drive_open_run].
Defined.
End TaskRuns.
