(* ===== verification/Lists.v ===== *)
(** * List endpoints

    The task list is sorted newest first, and paging through it with the cursor
    of the last row of each page visits every matching task exactly once. *)

From S2P Require Import Prelude Models Etcd Prog Keys Client Sequential Instances.
From S2P Require Import Jobs Tasks.
Local Open Scope Z_scope.

Section Lists.
Context `{Etcd, !EtcdLaws, !Libs, !LibsLaws} (clock : Z) (supply : nat → uuid).

(** ** The order *)

Lemma newer_true t1 i1 t2 i2 :
  newer t1 i1 t2 i2 = true ↔
  t2 < t1 ∨ (t1 = t2 ∧ str_ltb (uuid_string i2) (uuid_string i1) = true).
Proof.
  unfold newer. destruct (Z.eqb_spec t1 t2); simpl; [|rewrite Z.ltb_lt]; [|lia].
  split; [by right|]. intros [?|[_ ?]]; [lia|done].
Qed.

Lemma newer_false t1 i1 t2 i2 :
  newer t1 i1 t2 i2 = false ↔
  t1 < t2 ∨ (t1 = t2 ∧ String.le (uuid_string i1) (uuid_string i2)).
Proof.
  rewrite <-str_ltb_false. unfold newer. destruct (Z.eqb_spec t1 t2); simpl; [|rewrite Z.ltb_ge; lia].
  split; [by right|]. intros [?|[_ ?]]; [lia|done].
Qed.

Lemma newer_asym t1 i1 t2 i2 : newer t1 i1 t2 i2 = true → newer t2 i2 t1 i1 = false.
Proof.
  rewrite newer_true, newer_false. intros [?|[-> Hlt%str_ltb_spec]]; [by left|]. right. split; [done|].
  by destruct (total String.le (uuid_string i2) (uuid_string i1)).
Qed.

Lemma newer_total t1 i1 t2 i2 : i1 ≠ i2 → newer t2 i2 t1 i1 = false → newer t1 i1 t2 i2 = true.
Proof.
  rewrite newer_true, newer_false. intros Hne [?|[-> Hle]]; [by left|]. right. split; [done|].
  apply str_ltb_spec. intros Hle'. apply Hne, (inj uuid_string), (anti_symm String.le); done.
Qed.

Lemma newer_swo {A} (created : A → time) (id : A → uuid) :
  strict_weak_on (λ a b, newer (created a) (id a) (created b) (id b)) (λ _, True).
Proof.
  split.
  - intros x _. apply newer_false. by right.
  - intros x y _ _. apply newer_asym.
  - intros x y z _ _ _. rewrite !newer_false. intros [?|[-> H1']] [?|[-> H2']]; [left; lia..|by left|].
    right. split; [done|]. by transitivity (uuid_string (id y)).
Qed.

(** The cursor keeps what comes after it. *)
Lemma beforeCursor_newer t1 i1 t2 i2 : beforeCursor t1 i1 (Some t2) (Some i2) = newer t2 i2 t1 i1.
Proof. unfold beforeCursor, newer. by rewrite Z.eqb_sym. Qed.

(** ** Tasks *)

Definition stored_tasks (st : estate) : list Task :=
  decoded taskPrefix (es_map st).

(** Every task row lies under its own key. *)
Definition tasks_wf (st : estate) : Prop :=
  ∀ k e t, es_map st !! k = Some e → key_family k = Some FTask → e_val e = DTask t →
    k = taskKey (task_ID t).

Lemma stored_tasks_distinct st : tasks_wf st → NoDup (map task_ID (stored_tasks st)).
Proof.
  intros Hwf. apply (decoded_distinct task_ID taskKey). intros k e t Hk Hp%prefix_tasks. by apply Hwf.
Qed.

Lemma listTasks_run f st n :
  run_result clock supply (listTasks f) st n =
    Ok (limit (tf_limitCount f)
      (stable_sort task_newer (filter (λ t, Is_true (taskMatches t f)) (stored_tasks st)))).
Proof. unfold run_result, listTasks. by rewrite run_bindM, run_Range. Qed.

Lemma sorted_tasks st (P : Task → Prop) `{∀ t, Decision (P t)} :
  tasks_wf st →
  StronglySorted (λ a b, task_newer a b = true) (stable_sort task_newer (filter P (stored_tasks st))).
Proof.
  intros Hwf. eapply (StronglySorted_strict task_ID).
  3: { apply (stable_sort_sorted task_newer (λ _, True)); [apply newer_swo|by apply Forall_true]. }
  - intros x y Hxy Hne. by apply newer_total.
  - rewrite (fmap_Permutation task_ID _ _ (stable_sort_perm task_newer _)).
    by apply NoDup_map_filter, stored_tasks_distinct.
Qed.

(** The task list under the filter of [f] alone, and the page after a cursor. *)
Definition whole (f : taskFilter) : taskFilter :=
  f <| tf_cursorCreatedAt := None |> <| tf_cursorID := None |> <| tf_limitCount := 0 |>.
Definition page (f : taskFilter) (after : Task) (size : Z) : taskFilter :=
  f <| tf_cursorCreatedAt := Some (task_CreatedAt after) |> <| tf_cursorID := Some (task_ID after) |>
    <| tf_limitCount := size |>.

Lemma taskMatches_page f t after size :
  taskMatches t (page f after size) = task_newer after t && taskMatches t (whole f).
Proof.
  unfold taskMatches, page, whole. cbn -[beforeCursor]. rewrite beforeCursor_newer.
  unfold beforeCursor, task_newer. rewrite andb_true_r. apply andb_comm.
Qed.

(** Cursor pagination is exact: with the whole matching list sorted newest
    first, the page requested with the cursor of its [i]-th row is the next
    [size] rows, so following the cursors visits every matching task once and in
    order. *)
Theorem listTasks_pagination f st n :
  tasks_wf st → ∃ all,
    run_result clock supply (listTasks (whole f)) st n = Ok all ∧
    StronglySorted (λ a b, task_newer a b = true) all ∧
    (∀ t, t ∈ all ↔ t ∈ stored_tasks st ∧ taskMatches t (whole f) = true) ∧
    ∀ i t size, all !! i = Some t → 0 < size →
      run_result clock supply (listTasks (page f t size)) st n =
        Ok (take (Z.to_nat size) (drop (S i) all)).
Proof.
  intros Hwf. set (all := stable_sort task_newer
    (filter (λ t, Is_true (taskMatches t (whole f))) (stored_tasks st))).
  assert (StronglySorted (λ a b, task_newer a b = true) all) as Hall by (by apply sorted_tasks).
  exists all. split_and!; [by rewrite listTasks_run|done|..].
  - intros t. unfold all. rewrite stable_sort_perm, list_elem_of_filter, Is_true_true. tauto.
  - intros i t size Hi Hsize. rewrite listTasks_run. f_equal. unfold limit.
    assert (tf_limitCount (page f t size) = size) as -> by done.
    rewrite (proj2 (Z.ltb_lt _ _) Hsize). f_equal.
    rewrite <-(StronglySorted_after task_newer all i t); [|intros ??; apply newer_asym|done|done].
    eapply (StronglySorted_perm_eq (λ a b, task_newer a b = true)).
    + intros x y Hxy Hyx. apply newer_asym in Hxy. unfold task_newer in Hyx. congruence.
    + by apply sorted_tasks.
    + by apply StronglySorted_filter.
    + rewrite stable_sort_perm. unfold all. rewrite stable_sort_perm, list_filter_filter.
      apply reflexive_eq, list_filter_iff. intros x. rewrite taskMatches_page, andb_True. done.
Qed.
End Lists.

(** Three tasks, two of them of one user. *)
Module TaskPages.
Import Concrete.

Definition task (n : N) (t : Z) (user : N) : Task :=
  {| task_ID := id n; task_Type := "vm.create"; task_Status := TaskStatusPending;
     task_ResourceType := "vm"; task_ResourceID := None; task_Progress := None; task_Args := "";
     task_Result := ""; task_Error := ""; task_Attempts := 0; task_MaxAttempts := 3;
     task_JobID := None; task_AgentTaskID := None; task_CreatedBy := Some (id user);
     task_CreatedAt := t; task_StartedAt := None; task_FinishedAt := None |}.

Definition rows : list Task := [task 1 10 7; task 2 20 7; task 3 30 8; task 4 20 7].
Definition store : estate :=
  EState (list_to_map (map (λ t, (taskKey (task_ID t), Entry (DTask t) 1 1)) rows)) 5.
Definition own : taskFilter :=
  MkTaskFilter (Some (id 7)) None None None None None None 0.

Lemma store_wf : tasks_wf store.
Proof.
  intros k e t Hk _ Ht. apply elem_of_list_to_map_2 in Hk.
  apply list_elem_of_fmap in Hk as (t' & [= -> ->] & _). simpl in Ht. congruence.
Qed.

Lemma listTasks_pagination_witness : ∃ t,
  run_result 0 supply (listTasks (page own t 2)) store 0 = Ok [task 2 20 7; task 1 10 7].
Proof.
  destruct (listTasks_pagination 0 supply own store 0 store_wf) as (all & Hrun & _ & _ & Hpage).
  assert (run_result 0 supply (listTasks (whole own)) store 0 =
    Ok [task 4 20 7; task 2 20 7; task 1 10 7]) as E by (vm_compute; reflexivity).
  rewrite E in Hrun. injection Hrun as <-. exists (task 4 20 7).
  rewrite (Hpage 0%nat (task 4 20 7) 2); [reflexivity|reflexivity|lia].
Defined.
End TaskPages.
