(* ===== verification/Retention.v ===== *)
(** * Retention sweeps

    Deletions are committed in chunks that the server accepts whatever their
    number; the task sweep removes exactly the expired tasks; the migration sweep
    never removes a migration that is in flight or that records an unresolved
    incident.  It does remove the guard of another migration: [sweep_drops_guard]. *)

From S2P Require Import Prelude Models Etcd Prog Keys Client Sequential Instances.
From S2P Require Import Jobs Tasks Nodes Migrations Lists.
Local Open Scope Z_scope.

Section Retention.
Context `{Etcd, !EtcdLaws, !Libs, !LibsLaws} (clock : Z) (supply : nat → uuid).

(** ** Chunks *)

(** The store without the keys [ks]. *)
Definition without (ks : list string) (st st' : estate) : Prop :=
  es_rev st ≤ es_rev st' ∧
  ∀ k, es_map st' !! k = if decide (k ∈ ks) then None else es_map st !! k.

Lemma apply_deletes rev ks m k :
  (apply_ops rev (map OpDelete ks) m).1 !! k = if decide (k ∈ ks) then None else m !! k.
Proof.
  revert m. induction ks as [|k0 ks IH]; intros m; [by rewrite decide_False by set_solver|].
  simpl map. rewrite apply_ops_cons, IH. simpl. destruct (decide (k ∈ ks)).
  - by rewrite decide_True by set_solver.
  - destruct (decide (k = k0)) as [->|?].
    + by rewrite decide_True, lookup_delete_eq by set_solver.
    + by rewrite decide_False, lookup_delete_ne by set_solver.
Qed.

Lemma run_delete_txn ks st n :
  (length ks ≤ server_max_txn_ops)%nat → es_rev st < max_i64 →
  ∃ r st', run clock supply (raw_txn [] (map OpDelete ks) []) st n = (Ok r, st', n) ∧
    without ks st st' ∧ es_rev st' ≤ es_rev st + 1.
Proof.
  intros Hlen Hmax. rewrite run_raw_txn.
  2: { apply accepts_txn; [done|vm_compute; lia|by apply branch_valid_deletes|apply branch_valid_nil]. }
  eexists _, _. split; [done|]. unfold commit, without. simpl.
  pose proof (apply_deletes (es_rev st + 1) ks (es_map st)) as Hd.
  destruct (apply_ops _ _ _) as [m rs]. simpl in *. split_and!; [|done|]; destruct (existsb changes rs); lia.
Qed.

Lemma without_app ks1 ks2 st st1 st2 :
  without ks1 st st1 → without ks2 st1 st2 → without (ks1 ++ ks2) st st2.
Proof.
  intros [Hr1 H1'] [Hr2 H2']. split; [lia|]. intros k. rewrite H2', H1'.
  destruct (decide (k ∈ ks2)), (decide (k ∈ ks1)); by rewrite ?decide_True, ?decide_False by set_solver.
Qed.

Lemma commit_chunks_run fuel ks st n :
  (length ks ≤ fuel)%nat → es_rev st + Z.of_nat (length ks) ≤ max_i64 →
  ∃ st', run clock supply (commit_chunks fuel (map OpDelete ks)) st n = (Ok tt, st', n) ∧
    without ks st st'.
Proof.
  revert ks st. induction fuel as [|fuel IH]; intros ks st Hfuel Hmax.
  { destruct ks; [|simpl in Hfuel; lia]. exists st. split; [done|]. split; [lia|]. intros k.
    by rewrite decide_False by set_solver. }
  destruct ks as [|k0 ks0] eqn:E.
  { exists st. split; [done|]. split; [lia|]. intros k. by rewrite decide_False by set_solver. }
  rewrite <-E in *. assert (commit_chunks (S fuel) (map OpDelete ks) =
    (_ ← raw_txn [] (map OpDelete (take maxTxnOps ks)) [];
     commit_chunks fuel (map OpDelete (drop maxTxnOps ks)))) as ->.
  { rewrite E. unfold commit_chunks at 1. fold commit_chunks. simpl map at 1.
    rewrite <-fmap_take, <-fmap_drop. done. }
  rewrite run_bindM.
  assert (0 < length ks)%nat as Hpos by (rewrite E; simpl; lia).
  destruct (run_delete_txn (take maxTxnOps ks) st n) as (r & st1 & -> & Hw1 & Hrev); [|lia|].
  { rewrite length_take. unfold maxTxnOps, server_max_txn_ops. lia. }
  assert (length (drop maxTxnOps ks) + 1 ≤ length ks)%nat as Hlen.
  { rewrite length_drop. unfold maxTxnOps. lia. }
  destruct (IH (drop maxTxnOps ks) st1) as (st2 & Hrun & Hw2); [lia|lia|].
  exists st2. split; [done|]. rewrite <-(take_drop maxTxnOps ks). by eapply without_app.
Qed.

(** Chunked deletes always go through: any number of keys is deleted in
    transactions that stay within the server's operation limit, and nothing else
    changes. *)
Theorem commitInChunks_deletes ks st n :
  es_rev st + Z.of_nat (length ks) ≤ max_i64 →
  ∃ st', run clock supply (commitInChunks (map OpDelete ks)) st n = (Ok tt, st', n) ∧ without ks st st'.
Proof. intros Hmax. unfold commitInChunks. rewrite length_map. by apply commit_chunks_run. Qed.

(** ** Tasks *)

Definition expired_task_keys (t : Task) : list string :=
  taskKey (task_ID t) ::
  match task_CreatedBy t with Some user => [taskCreatedByKey user (task_ID t)] | None => [] end.

Lemma expired_task_ops_keys t : expired_task_ops t = map OpDelete (expired_task_keys t).
Proof. unfold expired_task_ops, expired_task_keys. by destruct (task_CreatedBy t). Qed.

Lemma bind_deletes {A} (ops : A → list op) (keys : A → list string) l :
  (∀ a, ops a = map OpDelete (keys a)) → l ≫= ops = map OpDelete (l ≫= keys).
Proof. intros E. induction l as [|a l IH]; [done|]. cbn [mbind list_bind]. by rewrite E, IH, map_app. Qed.

Definition expired_tasks (arg : DeleteExpiredTasksParams) (st : estate) : list Task :=
  filter (λ t, Is_true (taskRetentionExpired t arg)) (stored_tasks st).

(** The task sweep is exact: it deletes the rows and index entries of the
    tasks that finished before the cutoff of their outcome, reports how many, and
    leaves every other key alone; a task that is pending, running or not yet old
    enough keeps its row. *)
Theorem DeleteExpiredTasks_run arg st n :
  tasks_wf st → es_rev st + Z.of_nat (length (expired_tasks arg st ≫= expired_task_keys)) ≤ max_i64 →
  ∃ st', run clock supply (DeleteExpiredTasks arg) st n =
      (Ok (Z.of_nat (length (expired_tasks arg st))), st', n) ∧
    without (expired_tasks arg st ≫= expired_task_keys) st st' ∧
    ∀ t, t ∈ stored_tasks st → taskRetentionExpired t arg = false →
      es_map st' !! taskKey (task_ID t) = es_map st !! taskKey (task_ID t).
Proof.
  intros Hwf Hmax. unfold DeleteExpiredTasks. rewrite run_bindM, run_Range. cbv zeta.
  change (filter _ (decode_tasks _)) with (expired_tasks arg st).
  rewrite (bind_deletes expired_task_ops expired_task_keys _ expired_task_ops_keys), run_bindM.
  unfold commitInChunks. rewrite length_map.
  destruct (commit_chunks_run (length (expired_tasks arg st ≫= expired_task_keys))
    (expired_tasks arg st ≫= expired_task_keys) st n) as (st' & -> & Hw); [done|done|].
  exists st'. split_and!; [done|done|]. intros t Ht Hexp. destruct Hw as [_ ->].
  rewrite decide_False; [done|]. intros (t' & Hk & [Hexp' Ht']%list_elem_of_filter)%list_elem_of_bind.
  apply elem_of_cons in Hk as [E%(inj taskKey)|Hk].
  - assert (t' = t) as ->; [|by rewrite Hexp in Hexp'].
    by eapply (NoDup_map_eq task_ID); [apply stored_tasks_distinct|..].
  - destruct (task_CreatedBy t'); [|by apply elem_of_nil in Hk].
    apply list_elem_of_singleton in Hk. by revert Hk; key_neq.
Qed.

(** ** Migrations *)

Definition stored_migrations (st : estate) : list Migration :=
  decoded migrationPrefix (es_map st).

Definition expired_migration_keys (m : Migration) : list string :=
  [migrationKey (mig_ID m); migrationVMIndexKey (mig_VmID m) (mig_ID m);
   migrationActiveVMGuard (mig_VmID m)] ++
  match mig_SourceNodeID m with Some n => [migrationNodeIndexKey n (mig_ID m)] | None => [] end ++
  match mig_TargetNodeID m with Some n => [migrationNodeIndexKey n (mig_ID m)] | None => [] end.

Lemma expired_migration_ops_keys m : expired_migration_ops m = map OpDelete (expired_migration_keys m).
Proof.
  unfold expired_migration_ops, expired_migration_keys, terminalCleanupOps, node_index_deletes.
  by destruct (mig_SourceNodeID m), (mig_TargetNodeID m).
Qed.

(** The VM of the migration is live. *)
Definition vm_live (st : estate) (u : uuid) : bool :=
  match es_map st !! vmKey u with
  | Some e => match decode_doc (e_val e) with
              | Some vm => bool_decide (vm_DeletedAt vm = None)
              | None => false
              end
  | None => false
  end.

(** Every VM row decodes. *)
Definition vms_decode (st : estate) : Prop :=
  ∀ u e, es_map st !! vmKey u = Some e → ∃ vm : VM, decode_doc (e_val e) = Some vm.

(** A migration that ended without a cutover while its VM lives. *)
Definition unresolved (st : estate) (m : Migration) : bool :=
  negb (bool_decide (mig_Phase m = MigrationPhaseCompleted)) && vm_live st (mig_VmID m).

Lemma incident_run m st n :
  vms_decode st →
  run clock supply (migrationRecordsAnUnresolvedIncident m) st n = (Ok (unresolved st m), st, n).
Proof.
  intros Hvm. unfold migrationRecordsAnUnresolvedIncident, unresolved. case_bool_decide; [done|].
  unfold vm_live. rewrite run_bindM. unfold attempt. rewrite run_bind. unfold VMByID, GetJSON.
  rewrite !run_bindM, run_raw_get. destruct (es_map st !! vmKey (mig_VmID m)) as [e|] eqn:He; [|done].
  destruct (Hvm _ _ He) as [vm Hdec]. rewrite Hdec. cbn [negb andb]. simpl. by case_bool_decide.
Qed.

(** The migrations the sweep removes. *)
Definition swept (arg : DeleteExpiredMigrationsParams) (st : estate) : list Migration :=
  filter (λ m, Is_true (migrationRetentionExpired m arg && negb (unresolved st m))) (stored_migrations st).

Lemma sweep_loop_run arg l ops c st n :
  vms_decode st →
  run clock supply (for_each l (ops, c) (sweep_one arg)) st n =
    (let ms := filter (λ m, Is_true (migrationRetentionExpired m arg && negb (unresolved st m))) l in
     Ok (ops ++ (ms ≫= expired_migration_ops), c + Z.of_nat (length ms)), st, n).
Proof.
  intros Hvm. revert ops c. induction l as [|m l IH]; intros ops c.
  { cbn. by rewrite app_nil_r, Z.add_0_r. }
  cbn [for_each]. rewrite run_bindM. unfold sweep_one at 1. rewrite filter_cons.
  destruct (migrationRetentionExpired m arg); cbn [negb andb].
  2: { rewrite run_mret, IH, decide_False by (by intros []). done. }
  rewrite run_bindM, incident_run by done. destruct (unresolved st m); cbn [negb].
  { rewrite run_mret, IH, decide_False by (by intros []). done. }
  rewrite run_mret, IH, decide_True by done. cbv zeta. cbn [mbind list_bind length].
  by rewrite <-app_assoc, Nat2Z.inj_succ, <-Z.add_assoc, Z.add_1_l.
Qed.

(** Every migration row lies under its own key. *)
Definition migrations_wf (st : estate) : Prop :=
  ∀ k e m, es_map st !! k = Some e → key_family k = Some FMigration → e_val e = DMigration m →
    k = migrationKey (mig_ID m).

Lemma stored_migrations_distinct st : migrations_wf st → NoDup (map mig_ID (stored_migrations st)).
Proof.
  intros Hwf. apply (decoded_distinct mig_ID migrationKey).
  intros k e m Hk Hp%prefix_migrations. by apply Hwf.
Qed.

(** The migration sweep is safe: it removes the rows and index entries of
    old migrations that completed, or that ended otherwise and whose VM is gone,
    and reports how many; a migration that is in flight, that is recent, or that
    ended without a cutover while its VM is live, keeps its row. *)
Theorem DeleteExpiredMigrations_keeps arg st n :
  migrations_wf st → vms_decode st →
  es_rev st + Z.of_nat (length (swept arg st ≫= expired_migration_keys)) ≤ max_i64 →
  ∃ st', run clock supply (DeleteExpiredMigrations arg) st n =
      (Ok (Z.of_nat (length (swept arg st))), st', n) ∧
    without (swept arg st ≫= expired_migration_keys) st st' ∧
    ∀ m, m ∈ stored_migrations st →
      isTerminalMigration (mig_Phase m) = false ∨ migrationRetentionExpired m arg = false ∨
        unresolved st m = true →
      es_map st' !! migrationKey (mig_ID m) = es_map st !! migrationKey (mig_ID m).
Proof.
  intros Hwf Hvm Hmax. unfold DeleteExpiredMigrations. rewrite run_bindM, run_Range.
  rewrite run_bindM, sweep_loop_run by done. cbv zeta.
  change (filter _ (omap _ _)) with (swept arg st). cbn [app].
  rewrite (bind_deletes expired_migration_ops expired_migration_keys _ expired_migration_ops_keys), run_bindM.
  unfold commitInChunks. rewrite length_map.
  destruct (commit_chunks_run (length (swept arg st ≫= expired_migration_keys))
    (swept arg st ≫= expired_migration_keys) st n) as (st' & -> & Hw); [done|done|].
  exists st'. split_and!; [by rewrite run_mret, Z.add_0_l|done|]. intros m Hm Hkeep.
  destruct Hw as [_ ->]. rewrite decide_False; [done|].
  intros (m' & Hk & [Hsw Hm']%list_elem_of_filter)%list_elem_of_bind.
  apply Is_true_true, andb_true_iff in Hsw as [Hexp Hun%negb_true_iff].
  assert (mig_ID m = mig_ID m') as E.
  { unfold expired_migration_keys in Hk. destruct (mig_SourceNodeID m'), (mig_TargetNodeID m');
      simpl in Hk; rewrite ?elem_of_cons, ?elem_of_nil in Hk; destruct_or? Hk; try done;
      try (by revert Hk; key_neq); by apply (inj migrationKey). }
  assert (m' = m) as ->.
  { by eapply (NoDup_map_eq mig_ID); [apply stored_migrations_distinct|..]. }
  assert (isTerminalMigration (mig_Phase m) = true) as Hterm.
  { revert Hexp. unfold migrationRetentionExpired. by destruct (mig_Phase m). }
  destruct Hkeep as [?|[?|?]]; congruence.
Qed.
End Retention.

(** ** Concrete sweeps *)
Module SweepRun.
Import Concrete TaskPages.

Definition put (k : string) (d : doc) : string * entry := (k, Entry d 1 1).

(** Old finished tasks beside the pending ones. *)
Definition finished (n : N) (t : Z) : Task :=
  (task n 5 7) <| task_Status := TaskStatusSuccess |> <| task_FinishedAt := Some t |>.
Definition task_store : estate :=
  EState (list_to_map (map (λ t, put (taskKey (task_ID t)) (DTask t))
    [task 1 10 7; finished 2 20; finished 3 90])) 5.
Definition task_cutoff : DeleteExpiredTasksParams := MkDeleteExpiredTasksParams 50 50.

Lemma task_store_wf : tasks_wf task_store.
Proof.
  intros k e t Hk _ Ht. apply elem_of_list_to_map_2 in Hk.
  apply list_elem_of_fmap in Hk as (t' & [= -> ->] & _). simpl in Ht. congruence.
Qed.

Lemma commitInChunks_deletes_witness : ∃ st',
  run 0 supply (commitInChunks (map OpDelete [taskKey (id 1); taskKey (id 9)])) task_store 0 =
    (Ok tt, st', 0%nat) ∧ without [taskKey (id 1); taskKey (id 9)] task_store st'.
Proof. apply (commitInChunks_deletes 0 supply). vm_compute. discriminate. Defined.

Lemma DeleteExpiredTasks_run_witness : ∃ st',
  run 0 supply (DeleteExpiredTasks task_cutoff) task_store 0 = (Ok 1, st', 0%nat).
Proof.
  destruct (DeleteExpiredTasks_run 0 supply task_cutoff task_store 0) as (st' & Hrun & _).
  - apply task_store_wf.
  - vm_compute. discriminate.
  - exists st'. rewrite Hrun. reflexivity.
Defined.

(** A VM whose first migration completed long ago and whose second is in
    flight. *)
Definition mig_params (n : N) : CreateMigrationParams :=
  {| cmp_ID := id n; cmp_VmID := id 50; cmp_SourceNodeID := Some (id 60);
     cmp_TargetNodeID := Some (id 61); cmp_TargetPoolName := "pool";
     cmp_InitiatedByUserID := None; cmp_Reason := MigrationReasonManual; cmp_Live := true;
     cmp_AllowPostcopy := false; cmp_MaxBandwidthBytes := None; cmp_MaxDowntimeMs := None;
     cmp_Task := {| ctp_ID := id (100 + n); ctp_Type := "vm.migrate"; ctp_Status := TaskStatusPending;
       ctp_ResourceType := "vm"; ctp_ResourceID := Some (id 50); ctp_Args := ""; ctp_MaxAttempts := 3;
       ctp_CreatedBy := None; ctp_IdempotencyUserID := None; ctp_IdempotencyKey := None;
       ctp_IdempotencyHash := "" |} |}.
Definition old_migration : Migration := completed (new_migration (mig_params 1) 5) 10.
Definition active_migration : Migration :=
  (new_migration (mig_params 2) 900) <| mig_Phase := MigrationPhaseActive |>.
Definition guard : string := migrationActiveVMGuard (id 50).
Definition migration_store : estate :=
  EState (list_to_map
    [put (migrationKey (id 1)) (DMigration old_migration);
     put (migrationKey (id 2)) (DMigration active_migration);
     put guard (DStr (uuid_string (id 2)))]) 5.
Definition migration_cutoff : DeleteExpiredMigrationsParams :=
  MkDeleteExpiredMigrationsParams 500 500 500.

Lemma migration_store_rows k e :
  es_map migration_store !! k = Some e →
  (k, e_val e) ∈ [(migrationKey (id 1), DMigration old_migration);
    (migrationKey (id 2), DMigration active_migration); (guard, DStr (uuid_string (id 2)))].
Proof.
  intros Hk. apply elem_of_list_to_map_2 in Hk. unfold put in Hk. set_solver.
Qed.

Lemma migration_store_wf : migrations_wf migration_store ∧ vms_decode migration_store.
Proof.
  split.
  - intros k e m Hk%migration_store_rows _ Hm. rewrite Hm in Hk. set_unfold in Hk.
    destruct Hk as [Hk|[Hk|[Hk|[]]]]; [..|done]; injection Hk as -> ->; reflexivity.
  - intros u e Hk%migration_store_rows. set_unfold in Hk. exfalso.
    destruct Hk as [Hk|[Hk|[Hk|[]]]]; apply (f_equal fst) in Hk; by revert Hk; key_neq.
Qed.

Lemma DeleteExpiredMigrations_keeps_witness : ∃ st',
  run 1000 supply (DeleteExpiredMigrations migration_cutoff) migration_store 0 = (Ok 1, st', 0%nat) ∧
  es_map st' !! migrationKey (id 2) = es_map migration_store !! migrationKey (id 2).
Proof.
  destruct (DeleteExpiredMigrations_keeps 1000 supply migration_cutoff migration_store 0)
    as (st' & Hrun & _ & Hkeep).
  - apply migration_store_wf.
  - apply migration_store_wf.
  - vm_compute. discriminate.
  - exists st'. split; [rewrite Hrun; reflexivity|]. apply (Hkeep active_migration).
    + vm_compute. right. left.
    + left. reflexivity.
Defined.

End SweepRun.
