(* ===== verification/MigrationProps.v ===== *)
(** * Migrations in any environment

    Whatever other programs do, as long as rows stay under their own keys: a
    migration's terminal phase is final (a cancelled live migration may still
    commit its cutover), its target is bound at most once, and a cutover re-pins
    the VM, moves its runtime row and completes the migration in one step. *)

From S2P Require Import Prelude Models Etcd Prog Keys Client Rules Footprint Instances.
From S2P Require Import Jobs Tasks Nodes Migrations Footprints Lists Retention.
Local Open Scope Z_scope.

Section MigrationProps.
Context `{Etcd, !EtcdLaws, !Libs, !LibsLaws}.

(** ** Rows *)

(** The rows of VMs and runtimes lie under their own keys, too. *)
Definition rows_wf (st : estate) : Prop :=
  migrations_wf st ∧
  (∀ k e vm, es_map st !! k = Some e → key_family k = Some FVM → e_val e = DVM vm →
     k = vmKey (vm_ID vm)) ∧
  (∀ k e rt, es_map st !! k = Some e → key_family k = Some FVMRuntime → e_val e = DVMRuntime rt →
     k = vmRuntimeKey (rt_VmID rt)).

Lemma migration_at st id e m :
  migrations_wf st → es_map st !! migrationKey id = Some e → e_val e = DMigration m → mig_ID m = id.
Proof.
  intros Hwf He Hm. symmetry. apply (inj migrationKey).
  eapply Hwf; [exact He| |exact Hm]. unfold key_family. by rewrite class_migrationKey.
Qed.

(** The migration ends with this write. *)
Definition ends (m m' : Migration) : Prop :=
  isTerminalMigration (mig_Phase m) = false ∧ isTerminalMigration (mig_Phase m') = true.

(** The row of migration [id] goes from one migration to the other, no key of
    other kinds than [fs] changes, and only the end of the migration releases a
    guard, that of its VM. *)
Definition mig_step (fs : list family) (id : uuid) (P : Migration → Migration → Prop)
    (st st' : estate) : Prop :=
  (∀ k, ¬ key_in fs k → k ≠ migrationKey id → es_map st' !! k = es_map st !! k) ∧
  ∃ e m m', es_map st !! migrationKey id = Some e ∧ e_val e = DMigration m ∧
    e_val <$> es_map st' !! migrationKey id = Some (DMigration m') ∧ P m m' ∧
    ∀ vm, es_map st' !! migrationActiveVMGuard vm = es_map st !! migrationActiveVMGuard vm ∨
      (vm = mig_VmID m ∧ ends m m').

(** ** The edges *)

(** What no operation changes, and what a terminal phase allows. *)
Record edge (m m' : Migration) : Prop := {
  edge_ID : mig_ID m' = mig_ID m;
  edge_VmID : mig_VmID m' = mig_VmID m;
  edge_SourceNodeID : mig_SourceNodeID m' = mig_SourceNodeID m;
  edge_Live : mig_Live m' = mig_Live m;
  edge_TargetNodeID : mig_TargetNodeID m = None ∨ mig_TargetNodeID m' = mig_TargetNodeID m;
  edge_terminal : isTerminalMigration (mig_Phase m) = true → mig_Phase m' = mig_Phase m
}.

(** An update other than a cutover: it completes nothing. *)
Definition update_edge (m m' : Migration) : Prop :=
  edge m m' ∧ (mig_Phase m' = MigrationPhaseCompleted → mig_Phase m = MigrationPhaseCompleted).

Lemma update_edge_progress m upd t :
  isTerminalMigration (mig_Phase m) = false → upd_Phase upd ≠ Some MigrationPhaseCompleted →
  let m1 := (applyMigrationProgress m upd) <| mig_UpdatedAt := t |> in
  update_edge m (if terminal_update upd then m1 <| mig_CompletedAt := Some t |> else m1).
Proof.
  intros Hterm Hne. assert (mig_Phase m ≠ MigrationPhaseCompleted) as Hnc by (intros E; by rewrite E in Hterm).
  unfold applyMigrationProgress. cbv zeta.
  destruct (terminal_update upd), (upd_ClearSchedulingReason upd);
    (split; [split; cbn; [done|done|done|done|by right|congruence]|]);
    cbn; unfold override; destruct (upd_Phase upd) as [p|]; congruence.
Qed.

Lemma update_edge_stats m stats t :
  update_edge m (m <| mig_Stats := Some stats |> <| mig_UpdatedAt := t |>).
Proof. split; [split; cbn; auto|done]. Qed.

Lemma update_edge_cancelled m reason t :
  isTerminalMigration (mig_Phase m) = false → update_edge m (cancelled m reason t).
Proof. intros Hterm. split; [split; cbn; auto; congruence|done]. Qed.

Lemma update_edge_bound m target pool t :
  mig_TargetNodeID m = None → update_edge m (bound m target pool t).
Proof. intros Ht. split; [split; cbn; auto|done]. Qed.

(** ** The compare-and-set of a migration row *)

Definition update_families : list family := [FMigrationGuard; FMigrationNode].

Lemma wp_migration_with_rev (pr : protocol) `{!EtcdProtocol pr} id O Q w :
  (∀ w2 e, settled pr O w w2 → e ≠ ErrMigrationTerminal → Q (Err e) O w2) →
  (∀ w2 e m, settled pr O w w2 → w_map w2 !! migrationKey id = Some e → e_val e = DMigration m →
     seen (migrationKey id) e (w_st w2) → Q (Ok (m, e_mod e)) O w2) →
  wp pr (migration_with_rev id) O Q w.
Proof.
  intros HE HS. apply wp_bindM. apply (wp_raw_get_seen pr).
  - intros w2 Hw2. by apply HE.
  - intros w2 Hw2 Hk. by apply HE.
  - intros w2 e Hw2 Hk Hseen. destruct (decode_doc (e_val e)) as [m|] eqn:Ed; [|by apply HE].
    apply HS; [done..| |done]. by apply decode_doc_inv in Ed.
Qed.

Lemma rows_wf_put fs st st' id m' :
  FMigration ∉ fs → FVM ∉ fs → FVMRuntime ∉ fs →
  rows_wf st → mig_ID m' = id → e_val <$> es_map st' !! migrationKey id = Some (DMigration m') →
  (∀ k, ¬ key_in fs k → k ≠ migrationKey id → es_map st' !! k = es_map st !! k) →
  rows_wf st'.
Proof.
  intros Hfm Hfv Hfr (Hm & Hv & Hr) Hid Hrow Hk.
  assert (∀ k f, key_family k = Some f → f ∉ fs → k ≠ migrationKey id →
    es_map st' !! k = es_map st !! k) as Hk'.
  { intros k f Hf Hnot Hne. apply Hk; [|done]. unfold key_in. by rewrite Hf. }
  split_and!.
  - intros k e m He Hf Hd. destruct (decide (k = migrationKey id)) as [->|Hne].
    + rewrite He in Hrow. simpl in Hrow. rewrite Hd in Hrow. simplify_eq. done.
    + eapply Hm; [|done|done]. rewrite <-He. symmetry. eapply Hk'; [done|done|done].
  - intros k e vm He Hf Hd. eapply Hv; [|done|done]. rewrite <-He. symmetry.
    eapply Hk'; [done|done|]. intros ->. unfold key_family in Hf. by rewrite class_migrationKey in Hf.
  - intros k e vm He Hf Hd. eapply Hr; [|done|done]. rewrite <-He. symmetry.
    eapply Hk'; [done|done|]. intros ->. unfold key_family in Hf. by rewrite class_migrationKey in Hf.
Qed.

(** The operations beside the row release at most the guard of a migration that
    ends. *)
Definition releases (m m' : Migration) (more : list op) : Prop :=
  ∀ vm, (migrationActiveVMGuard vm ∉ put_keys more) ∧
    (migrationActiveVMGuard vm ∈ delete_keys more → vm = mig_VmID m ∧ ends m m').

Lemma releases_nil m m' : releases m m' [].
Proof. intros vm. split; set_solver. Qed.

Lemma releases_puts m m' n i : releases m m' (node_index_puts n i).
Proof.
  intros vm. destruct n; simpl; (split; [|set_solver]); [|set_solver].
  rewrite list_elem_of_singleton. key_neq.
Qed.

Lemma releases_cleanup m m' :
  mig_VmID m' = mig_VmID m → ends m m' → releases m m' (terminalCleanupOps m').
Proof.
  intros Hvm Hends vm. unfold terminalCleanupOps, node_index_deletes. split.
  - destruct (mig_SourceNodeID m'), (mig_TargetNodeID m'); simpl; set_solver.
  - intros Hin. split; [|done]. rewrite <-Hvm.
    destruct (mig_SourceNodeID m'), (mig_TargetNodeID m'); simpl in Hin;
      rewrite ?elem_of_cons, ?elem_of_nil in Hin; destruct_or? Hin; try done;
      try (by revert Hin; key_neq); by apply (inj migrationActiveVMGuard).
Qed.

(** ** The updates *)

Definition updates (id : uuid) (upd : MigrationProgressUpdate) : estate → estate → Prop :=
  mig_step update_families id (λ m m', update_edge m m' ∧
    (mig_Phase m' = mig_Phase m ∨ upd_Phase upd = Some (mig_Phase m'))).
Definition annotates (id : uuid) : estate → estate → Prop :=
  mig_step [] id (λ m m', update_edge m m' ∧ mig_Phase m' = mig_Phase m).
Definition cancels_migration (id : uuid) : estate → estate → Prop :=
  mig_step update_families id (λ m m', update_edge m m' ∧
    isTerminalMigration (mig_Phase m) = false ∧ mig_Phase m' = MigrationPhaseCancelled).
Definition binds (id target : uuid) : estate → estate → Prop :=
  mig_step update_families id (λ m m', update_edge m m' ∧
    isTerminalMigration (mig_Phase m) = false ∧ mig_TargetNodeID m = None ∧
    mig_TargetNodeID m' = Some target ∧ mig_Phase m' = mig_Phase m).

(** Reads the row and names the facts the update relies on. *)
Ltac migration_read pr i HI :=
  apply wp_bindM, (wp_migration_with_rev pr); [try done; by intros ??? ? [= ?]|];
  let w2 := fresh "w2" in let e := fresh "e" in let m := fresh "m" in
  intros w2 e m Hw2 Hrow Hm Hseen;
  assert (mig_ID m = i) as Hid
    by (eapply migration_at; [apply HI, (settled_inv pr _ _ _ Hw2)|exact Hrow|exact Hm]);
  cbv beta iota.

(** The updates keep any invariant that has migrations under their own keys and
    that survives the replacement of a migration row by one with the same id. *)
Definition mig_put (st st' : estate) (id : uuid) (m' : Migration) : Prop :=
  mig_ID m' = id ∧ e_val <$> es_map st' !! migrationKey id = Some (DMigration m') ∧
  ∀ k, ¬ key_in update_families k → k ≠ migrationKey id → es_map st' !! k = es_map st !! k.

Lemma rows_wf_update st st' id m' : rows_wf st → mig_put st st' id m' → rows_wf st'.
Proof. intros Hwf (Hid & Hrow & Hk). eapply (rows_wf_put update_families st _ id m'); try done; set_solver. Qed.

Lemma rows_wf_migrations st : rows_wf st → migrations_wf st.
Proof. by intros [? _]. Qed.

Lemma migrations_wf_update st st' id m' : migrations_wf st → mig_put st st' id m' → migrations_wf st'.
Proof.
  intros Hwf (Hid & Hrow & Hk) k e m He Hf Hd. destruct (decide (k = migrationKey id)) as [->|Hne].
  - rewrite He in Hrow. simpl in Hrow. rewrite Hd in Hrow. by simplify_eq.
  - eapply Hwf; [|done|done]. rewrite <-He. symmetry. apply Hk; [|done]. unfold key_in. rewrite Hf. set_solver.
Qed.

Section Updates.
Context (I : estate → Prop) (HI : ∀ st, I st → migrations_wf st).
Context (Hput : ∀ st st' id m', I st → mig_put st st' id m' → I st').

Lemma wp_cas_migration fs P id e m m' conds more Q w :
  let pr := inv_protocol I (λ st st', I st' ∧ mig_step fs id P st st') in
  fs ⊆ update_families → Forall (op_in fs) more → releases m m' more →
  seen (migrationKey id) e (w_st w) → e_val e = DMigration m → mig_ID m = id → edge m m' → P m m' →
  (∀ r w', r ≠ Err ErrMigrationTerminal → Q r ∅ w') → wp pr (cas_migration m' (e_mod e) conds more) ∅ Q w.
Proof.
  intros pr Hfs Hmore Hrel Hseen Hm Hid Hedge HP HQ. pose proof (edge_ID _ _ Hedge) as Hid'. rewrite Hid in Hid'.
  apply wp_bindM, wp_Marshal; [by apply HQ|]. rewrite Hid'.
  apply wp_bindM, (wp_raw_txn pr); [by intros; apply HQ|by intros; apply HQ|].
  intros w1 Hw1 Hc _ Hmax. exists ∅. split; [|split; [by apply HQ|intros; by apply HQ]].
  apply andb_true_iff in Hc as [Hc _].
  assert (w_map w1 !! migrationKey id = Some e) as Hk by (by eapply (cas_lookup pr)).
  set (w2 := applied w1 _).
  assert (e_val <$> w_map w2 !! migrationKey id = Some (DMigration m')) as Hrow.
  { unfold w2. rewrite applied_map. apply (apply_ops_put fs _ []); [done|].
    unfold key_in, key_family. rewrite class_migrationKey. set_solver. }
  assert (∀ k, ¬ key_in fs k → k ≠ migrationKey id → w_map w2 !! k = w_map w1 !! k) as Hother.
  { intros k Hnot Hne. unfold w2. rewrite applied_map, apply_ops_cons, (apply_ops_outside fs) by done.
    simpl. by rewrite lookup_insert_ne. }
  destruct Hw1 as (_ & [_ Hwf] & _). apply own_step_inv; [by apply any_env_applied|..].
  - eapply (Hput (w_st w1) _ id m'); [done|]. split_and!; [done|exact Hrow|].
    intros k Hnot. apply Hother. unfold key_in in *. case_match; set_solver.
  - split; [exact Hother|]. exists e, m, m'. split_and!; [done..|]. intros vm. destruct (Hrel vm) as [Hnot Hdel].
    destruct (decide (migrationActiveVMGuard vm ∈ delete_keys more)) as [Hin|Hnin]; [right; by apply Hdel|].
    left. fold (w_map w2) (w_map w1). unfold w2. rewrite applied_map, apply_ops_cons, apply_ops_lookup_ne by done.
    simpl. rewrite lookup_insert_ne; [done|key_neq].
Qed.

Lemma UpdateMigrationProgress_wp id upd w :
  wp (inv_protocol I (λ st st', I st' ∧ updates id upd st st'))
    (UpdateMigrationProgress id upd) ∅ (λ _ _ _, True) w.
Proof.
  set (pr := inv_protocol _ _). migration_read pr id HI.
  destruct (isTerminalMigration (mig_Phase m)) eqn:Hterm; [by apply wp_fail|].
  case_bool_decide as Hne; [by apply wp_fail|]. apply wp_bindM, (wp_now pr). intros w3 t Hw3. cbv zeta.
  pose proof (update_edge_progress m upd t Hterm Hne) as Hedge. cbv zeta in Hedge.
  eapply wp_cas_migration; [done| | |by eapply (seen_settled pr)|done|done|apply Hedge|split; [exact Hedge|]|done].
  - case_match; [apply terminalCleanupOps_in; set_solver|constructor].
  - destruct (terminal_update upd) eqn:Hupd; [|apply releases_nil].
    apply releases_cleanup; [apply Hedge|]. split; [done|]. revert Hupd.
    unfold terminal_update, applyMigrationProgress. destruct (upd_Phase upd); [|done].
    by destruct (upd_ClearSchedulingReason upd).
  - unfold applyMigrationProgress. destruct (terminal_update upd), (upd_ClearSchedulingReason upd); cbn;
      unfold override; destruct (upd_Phase upd); by auto.
Qed.

Lemma UpdateMigrationStats_wp id stats w :
  wp (inv_protocol I (λ st st', I st' ∧ annotates id st st'))
    (UpdateMigrationStats id stats) ∅ (λ _ _ _, True) w.
Proof.
  set (pr := inv_protocol _ _). migration_read pr id HI.
  apply wp_bindM, (wp_now pr). intros w3 t Hw3. pose proof (update_edge_stats m stats t) as Hedge.
  eapply wp_cas_migration;
    [set_solver|constructor|apply releases_nil|by eapply (seen_settled pr)|done|done|apply Hedge|by split|done].
Qed.

Lemma CancelMigration_wp id reason w :
  wp (inv_protocol I (λ st st', I st' ∧ cancels_migration id st st'))
    (CancelMigration id reason) ∅ (λ _ _ _, True) w.
Proof.
  set (pr := inv_protocol _ _). migration_read pr id HI.
  destruct (isTerminalMigration (mig_Phase m)) eqn:Hterm; [by apply wp_mret|].
  apply wp_bindM, (wp_now pr). intros w3 t Hw3. cbv zeta.
  pose proof (update_edge_cancelled m reason t Hterm) as Hedge. apply wp_bindM.
  eapply wp_cas_migration; [done| | |by eapply (seen_settled pr)|done|done|apply Hedge|done|by intros []].
  - apply terminalCleanupOps_in; set_solver.
  - by apply releases_cleanup.
Qed.

(** The row of migration [id]. *)
Definition mig_at (st : estate) (id : uuid) (m : Migration) : Prop :=
  e_val <$> es_map st !! migrationKey id = Some (DMigration m).

(** A refusal has seen the row terminal. *)
Lemma BindMigrationTarget_refuses ctx id target pool w :
  wp (inv_protocol I (λ st st', I st' ∧ binds id target st st'))
    (BindMigrationTarget ctx id target pool) ∅
    (λ r _ w', r = Err ErrMigrationTerminal →
       ∃ m, mig_at (w_st w') id m ∧ isTerminalMigration (mig_Phase m) = true) w.
Proof.
  set (pr := inv_protocol _ _). migration_read pr id HI.
  destruct (isTerminalMigration (mig_Phase m)) eqn:Hterm.
  { apply wp_fail. intros _. exists m. split; [|done]. unfold mig_at. fold (w_map w2). by rewrite Hrow; simpl; rewrite Hm. }
  destruct (mig_TargetNodeID m) as [n|] eqn:Ht; [by case_bool_decide|].
  apply wp_bindM, (wp_now pr). intros w3 t Hw3. cbv zeta.
  pose proof (update_edge_bound m target pool t Ht) as Hedge.
  eapply wp_cas_migration; [done| | |by eapply (seen_settled pr)|done|done|apply Hedge|done|done].
  - apply node_index_puts_in; set_solver.
  - apply releases_puts.
Qed.

Lemma BindMigrationTarget_wp ctx id target pool w :
  wp (inv_protocol I (λ st st', I st' ∧ binds id target st st'))
    (BindMigrationTarget ctx id target pool) ∅ (λ _ _ _, True) w.
Proof. eapply wp_mono; [|apply BindMigrationTarget_refuses]. done. Qed.

End Updates.

(** The life of a migration row: whatever other programs do to rows that
    stay under their own keys, each write of a progress update, a statistics
    update, a cancel or a target binding replaces the row it addresses by one
    with the same identity, keeps a terminal phase, never completes the
    migration, cancels only what is not terminal, binds a target only where there
    is none, and touches besides at most the guard and the per-node indexes. *)
Theorem migration_updates_fenced id upd stats reason ctx target pool :
  steps_within_inv rows_wf (updates id upd) (UpdateMigrationProgress id upd) ∧
  steps_within_inv rows_wf (annotates id) (UpdateMigrationStats id stats) ∧
  steps_within_inv rows_wf (cancels_migration id) (CancelMigration id reason) ∧
  steps_within_inv rows_wf (binds id target) (BindMigrationTarget ctx id target pool).
Proof.
  split_and!; apply steps_within_inv_wp; intros w _ _;
    [apply UpdateMigrationProgress_wp|apply UpdateMigrationStats_wp
    |apply CancelMigration_wp|apply BindMigrationTarget_wp]; eauto using rows_wf_migrations, rows_wf_update.
Qed.

(** ** The cutover *)

(** What a cutover has read and may rely on while the revisions stand. *)
Record loaded (id : uuid) (cs : cutoverState) (em ev : entry) (st : estate) : Prop := {
  ld_m : seen (migrationKey id) em st;
  ld_m_val : e_val em = DMigration (cs_m cs);
  ld_m_rev : e_mod em = cs_mRev cs;
  ld_m_id : mig_ID (cs_m cs) = id;
  ld_phase : mig_Phase (cs_m cs) ≠ MigrationPhaseCompleted;
  ld_refused : cutoverRefused (cs_m cs) = false;
  ld_vm : seen (vmKey (mig_VmID (cs_m cs))) ev st;
  ld_vm_val : e_val ev = DVM (cs_vm cs);
  ld_vm_rev : e_mod ev = cs_vRev cs;
  ld_vm_id : vm_ID (cs_vm cs) = mig_VmID (cs_m cs);
  ld_rt : match cs_rt cs with
          | None => True
          | Some (rt, rev) => ∃ er, seen (vmRuntimeKey (mig_VmID (cs_m cs))) er st ∧
              e_val er = DVMRuntime rt ∧ e_mod er = rev ∧ rt_VmID rt = mig_VmID (cs_m cs)
          end
}.

Section Cutover.
Context (id : uuid).
Context (G : estate → estate → Prop).
Let pr := inv_protocol rows_wf G.

Lemma loaded_settled cs em ev w w' :
  settled pr ∅ w w' → loaded id cs em ev (w_st w) → loaded id cs em ev (w_st w').
Proof.
  intros Hw []. constructor; auto; [by eapply (seen_settled pr)..|].
  destruct (cs_rt cs) as [[rt rev]|]; [|done]. destruct ld_rt0 as (er & Hs & ?).
  exists er. split; [by eapply (seen_settled pr)|done].
Qed.

Lemma wp_loadCutoverState Q w :
  (∀ e w2, Q (Err e) ∅ w2) →
  (∀ w2 m, mig_at (w_st w2) id m → mig_Phase m = MigrationPhaseCompleted → Q (Ok None) ∅ w2) →
  (∀ cs em ev w2, loaded id cs em ev (w_st w2) → Q (Ok (Some cs)) ∅ w2) →
  wp pr (loadCutoverState id) ∅ Q w.
Proof.
  intros HE HN HS. unfold loadCutoverState. pose proof rows_wf_migrations as HI. migration_read pr id HI.
  case_bool_decide as Hphase.
  { apply (HN _ m); [|done]. unfold mig_at. fold (w_map w2). rewrite Hrow. simpl. by rewrite Hm. }
  destruct (cutoverRefused m) eqn:Href; [apply HE|].
  destruct (mig_TargetNodeID m) as [target|]; [|apply HE].
  apply wp_bindM. unfold attempt. apply wp_bind. unfold NodeByID.
  apply wp_bindM, (wp_GetJSON pr); [intros w3 e0 Hw3|intros w3 Hw3 _|intros w3 e0 n Hw3 _ _].
  { simpl. by destruct e0; apply HE. }
  { apply HE. }
  case_bool_decide; [|apply HE]. apply wp_mret, wp_ret. cbv beta iota.
  assert (seen (migrationKey id) e (w_st w3)) as Hseen3 by (by eapply (seen_settled pr)).
  apply wp_bindM, (wp_raw_get_seen pr); [intros; apply HE|intros; apply HE|].
  intros w4 ve Hw4 Hve Hvseen. cbv beta iota.
  destruct (decode_doc (e_val ve)) as [vm|] eqn:Evm; [|apply HE].
  apply (decode_doc_inv (A := VM)) in Evm. assert (vm_ID vm = mig_VmID m) as Hvid.
  { destruct (settled_inv pr _ _ _ Hw4) as [_ (_ & Hv & _)]. symmetry. apply (inj vmKey).
    eapply Hv; [exact Hve| |exact Evm]. unfold key_family. by rewrite class_vmKey. }
  assert (seen (migrationKey id) e (w_st w4)) as Hseen4 by (by eapply (seen_settled pr)).
  apply wp_bindM, (wp_raw_get_seen pr); [intros; apply HE|intros w5 Hw5 _|intros w5 re Hw5 Hre Hrseen].
  - apply wp_mret. eapply (HS _ e ve). constructor; simpl; auto; by eapply (seen_settled pr).
  - destruct (decode_doc (e_val re)) as [rt|] eqn:Ert; [|apply HE].
    apply (decode_doc_inv (A := VMRuntime)) in Ert. assert (rt_VmID rt = mig_VmID m) as Hrid.
    { destruct (settled_inv pr _ _ _ Hw5) as [_ (_ & _ & Hr)]. symmetry. apply (inj vmRuntimeKey).
      eapply Hr; [exact Hre| |exact Ert]. unfold key_family. by rewrite class_vmRuntimeKey. }
    apply wp_mret. eapply (HS _ e ve). constructor; simpl; auto; [by eapply (seen_settled pr)..|eauto].
Qed.
End Cutover.

(** The runtime operations of a cutover whose rows fit. *)
Definition runtime_ops (cs : cutoverState) (target : uuid) : list op :=
  match cs_rt cs with
  | None => []
  | Some (rt, _) =>
    OpPut (vmRuntimeKey (rt_VmID rt)) (DVMRuntime (rt <| rt_CurrentNodeID := Some target |>)) ::
    match vm_PinnedNodeID (cs_vm cs) with
    | Some o => if bool_decide (o = target) then [] else [OpDelete (vmRuntimeNodeIndexKey o (rt_VmID rt))]
    | None => []
    end ++ [OpPut (vmRuntimeNodeIndexKey target (rt_VmID rt)) (DStr (uuid_string (rt_VmID rt)))]
  end.

Lemma wp_cutoverRuntimeOps pr cs target Q w :
  (∀ e, Q (Err e) ∅ w) → Q (Ok (runtime_ops cs target)) ∅ w →
  wp pr (cutoverRuntimeOps (cs_rt cs) (vm_PinnedNodeID (cs_vm cs)) target) ∅ Q w.
Proof.
  intros HE HO. unfold cutoverRuntimeOps, runtime_ops in *. destruct (cs_rt cs) as [[rt rev]|]; [|done].
  apply wp_bindM, wp_Marshal; [apply HE|exact HO].
Qed.

(** The secondary indexes a cutover moves. *)
Definition cutover_indexes : list family := [FMigrationNode; FVMPinned; FVMRuntimeNode].

(** The operations of a cutover's transaction. *)
Definition cutover_ops (id : uuid) (cs : cutoverState) (target : uuid) (t : Z) : list op :=
  [OpPut (vmKey (mig_VmID (cs_m cs))) (DVM (repinned (cs_vm cs) target t));
   OpPut (migrationKey id) (DMigration (completed (cs_m cs) t))] ++
  pinnedNodeIndexOps (vm_PinnedNodeID (cs_vm cs)) target (mig_VmID (cs_m cs)) ++
  runtime_ops cs target ++ terminalCleanupOps (completed (cs_m cs) t).

Lemma pinned_in o target vm : Forall (op_in cutover_indexes) (pinnedNodeIndexOps o target vm).
Proof. apply pinnedNodeIndexOps_in. set_solver. Qed.
Lemma cleanup_in m : Forall (op_in (FMigrationGuard :: cutover_indexes)) (terminalCleanupOps m).
Proof. apply terminalCleanupOps_in; set_solver. Qed.
Lemma runtime_ops_in cs target : Forall (op_in (FVMRuntime :: cutover_indexes)) (runtime_ops cs target).
Proof.
  unfold runtime_ops. destruct (cs_rt cs) as [[rt rev]|]; [|constructor].
  unfold cutover_indexes. destruct (vm_PinnedNodeID (cs_vm cs)); [case_bool_decide|]; writes_solve.
Qed.

(** The rows after the transaction. *)
Section CutoverRows.
Context (id : uuid) (cs : cutoverState) (target : uuid) (t rev : Z) (m : gmap string entry).
Let m' := (apply_ops rev (cutover_ops id cs target t) m).1.

Lemma rest_in : Forall (op_in (FVMRuntime :: FMigrationGuard :: cutover_indexes))
  (pinnedNodeIndexOps (vm_PinnedNodeID (cs_vm cs)) target (mig_VmID (cs_m cs)) ++
   runtime_ops cs target ++ terminalCleanupOps (completed (cs_m cs) t)).
Proof.
  apply Forall_app; split; [|apply Forall_app; split];
    (eapply op_in_mono; [|first [apply pinned_in|apply runtime_ops_in|apply cleanup_in]]; set_solver).
Qed.

Lemma cutover_vm : e_val <$> m' !! vmKey (mig_VmID (cs_m cs)) = Some (DVM (repinned (cs_vm cs) target t)).
Proof.
  apply (apply_ops_put (FMigration :: FVMRuntime :: FMigrationGuard :: cutover_indexes) _ []); [|key_in_solve].
  apply Forall_cons; split; [simpl; key_in_solve|]. eapply op_in_mono; [|apply rest_in]. set_solver.
Qed.

Lemma cutover_migration : e_val <$> m' !! migrationKey id = Some (DMigration (completed (cs_m cs) t)).
Proof.
  apply (apply_ops_put (FVMRuntime :: FMigrationGuard :: cutover_indexes) _ [_]);
    [apply rest_in|key_in_solve].
Qed.

Lemma cutover_guard : m' !! migrationActiveVMGuard (mig_VmID (cs_m cs)) = None.
Proof.
  unfold m', cutover_ops, terminalCleanupOps. cbn [mig_VmID completed set].
  rewrite !app_assoc. eapply (apply_ops_delete [FMigrationNode]); [|key_in_solve].
  apply Forall_app; split; apply node_index_deletes_in; set_solver.
Qed.

Lemma cutover_runtime :
  (∀ rt r, cs_rt cs = Some (rt, r) → rt_VmID rt = mig_VmID (cs_m cs)) →
  match cs_rt cs with
  | None => m' !! vmRuntimeKey (mig_VmID (cs_m cs)) = m !! vmRuntimeKey (mig_VmID (cs_m cs))
  | Some (rt, _) => e_val <$> m' !! vmRuntimeKey (mig_VmID (cs_m cs)) =
      Some (DVMRuntime (rt <| rt_CurrentNodeID := Some target |>))
  end.
Proof.
  intros Hid. unfold m', cutover_ops. destruct (cs_rt cs) as [[rt r]|] eqn:E.
  - rewrite <-(Hid rt r eq_refl) at 1. unfold runtime_ops. rewrite E, app_assoc.
    cbn [app]. eapply (apply_ops_put (FMigrationGuard :: cutover_indexes) _ (_ :: _ :: _)); [|key_in_solve].
    apply Forall_app; split; [|apply cleanup_in]. unfold cutover_indexes.
    destruct (vm_PinnedNodeID (cs_vm cs)); [case_bool_decide|]; writes_solve.
  - apply (apply_ops_outside ([FVM; FMigration; FMigrationGuard] ++ cutover_indexes)); [|key_in_solve].
    unfold runtime_ops. rewrite E. cbn [app].
    apply Forall_cons; split; [simpl; key_in_solve|]. apply Forall_cons; split; [simpl; key_in_solve|].
    apply Forall_app; split; (eapply op_in_mono; [|first [apply pinned_in|apply cleanup_in]]; set_solver).
Qed.

Lemma cutover_other k :
  (∀ rt r, cs_rt cs = Some (rt, r) → rt_VmID rt = mig_VmID (cs_m cs)) →
  k ≠ migrationKey id → k ≠ vmKey (mig_VmID (cs_m cs)) → k ≠ vmRuntimeKey (mig_VmID (cs_m cs)) →
  k ≠ migrationActiveVMGuard (mig_VmID (cs_m cs)) → ¬ key_in cutover_indexes k → m' !! k = m !! k.
Proof.
  intros Hid Hk1 Hk2 Hk3 Hk4 Hk. unfold m', cutover_ops. cbn [app]. rewrite !apply_ops_cons, !apply_ops_app.
  unfold terminalCleanupOps at 1. rewrite apply_ops_cons, (apply_ops_outside cutover_indexes); [| |done].
  2: { apply Forall_app; split; apply node_index_deletes_in; set_solver. }
  cbn [apply_op fst mig_VmID completed set]. rewrite lookup_delete_ne by done.
  assert (∀ m0, (apply_ops rev (runtime_ops cs target) m0).1 !! k = m0 !! k) as ->.
  { intros m0. unfold runtime_ops. destruct (cs_rt cs) as [[rt r]|]; [|done].
    rewrite apply_ops_cons, (apply_ops_outside cutover_indexes); [|unfold cutover_indexes|done].
    - simpl. rewrite (Hid rt r eq_refl). by rewrite lookup_insert_ne.
    - destruct (vm_PinnedNodeID (cs_vm cs)); [case_bool_decide|]; writes_solve. }
  rewrite (apply_ops_outside cutover_indexes); [|apply pinned_in|done].
  simpl. by rewrite !lookup_insert_ne.
Qed.
End CutoverRows.

(** The step of a cutover. *)
Definition cutover_step (id : uuid) (st st' : estate) : Prop :=
  ∃ em m ev vm target t,
    (es_map st !! migrationKey id = Some em ∧ e_val em = DMigration m ∧
     mig_Phase m ≠ MigrationPhaseCompleted ∧ cutoverRefused m = false ∧
     mig_TargetNodeID m = Some target) ∧
    (es_map st !! vmKey (mig_VmID m) = Some ev ∧ e_val ev = DVM vm) ∧
    es_map st !! nodeDeletingKey target = None ∧
    e_val <$> es_map st' !! migrationKey id = Some (DMigration (completed m t)) ∧
    e_val <$> es_map st' !! vmKey (mig_VmID m) = Some (DVM (repinned vm target t)) ∧
    match es_map st !! vmRuntimeKey (mig_VmID m) with
    | None => es_map st' !! vmRuntimeKey (mig_VmID m) = None
    | Some er => ∃ rt, e_val er = DVMRuntime rt ∧
        e_val <$> es_map st' !! vmRuntimeKey (mig_VmID m) =
          Some (DVMRuntime (rt <| rt_CurrentNodeID := Some target |>))
    end ∧
    es_map st' !! migrationActiveVMGuard (mig_VmID m) = None ∧
    ∀ k, k ≠ migrationKey id → k ≠ vmKey (mig_VmID m) → k ≠ vmRuntimeKey (mig_VmID m) →
      k ≠ migrationActiveVMGuard (mig_VmID m) → ¬ key_in cutover_indexes k → es_map st' !! k = es_map st !! k.

Lemma cutover_applied id cs em ev target t w :
  estate_wf (w_st w) → loaded id cs em ev (w_st w) → mig_TargetNodeID (cs_m cs) = Some target →
  forallb (cmp_holds (w_map w))
    [CmpMod (migrationKey id) (cs_mRev cs); CmpMod (vmKey (mig_VmID (cs_m cs))) (cs_vRev cs);
     CmpCreate (nodeDeletingKey target) 0;
     match cs_rt cs with
     | Some (_, rtRev) => CmpMod (vmRuntimeKey (mig_VmID (cs_m cs))) rtRev
     | None => CmpCreate (vmRuntimeKey (mig_VmID (cs_m cs))) 0
     end] = true →
  cutover_step id (w_st w) (w_st (applied w (cutover_ops id cs target t))).
Proof.
  intros Hwf Hld Ht Hc. cbn [forallb] in Hc.
  apply andb_true_iff in Hc as [Hcm Hc]. apply andb_true_iff in Hc as [Hcv Hc].
  apply andb_true_iff in Hc as [Hcn Hc]. apply andb_true_iff in Hc as [Hcr _].
  destruct Hld as [Hm Hmv Hmr Hmid Hph Href Hv Hvv Hvr Hvid Hrt].
  rewrite <-Hmr in Hcm. rewrite <-Hvr in Hcv.
  assert (∀ rt r, cs_rt cs = Some (rt, r) → rt_VmID rt = mig_VmID (cs_m cs)) as Hrid.
  { intros rt r E. rewrite E in Hrt. by destruct Hrt as (? & _ & _ & _ & ?). }
  exists em, (cs_m cs), ev, (cs_vm cs), target, t.
  set (w' := applied w _). fold (w_map w) (w_map w'). unfold w'. rewrite applied_map. split_and!.
  - by apply seen_cmp.
  - done.
  - done.
  - done.
  - done.
  - by apply seen_cmp.
  - done.
  - by apply cmp_absent.
  - apply cutover_migration.
  - apply cutover_vm.
  - pose proof (cutover_runtime id cs target t (w_rev w + 1) (w_map w) Hrid) as Hr.
    destruct (cs_rt cs) as [[rt r]|].
    + destruct Hrt as (er & Hs & He & <- & _).
      assert (w_map w !! vmRuntimeKey (mig_VmID (cs_m cs)) = Some er) as -> by (by apply seen_cmp).
      by exists rt.
    + apply cmp_absent in Hcr; [|done]. fold (w_map w) in Hcr. by rewrite Hcr in Hr |- *.
  - apply cutover_guard.
  - intros k. by apply cutover_other.
Qed.

Lemma cutover_rows_wf id st st' : rows_wf st → cutover_step id st st' → rows_wf st'.
Proof.
  intros Hwf (em & m & ev & vm & target & t & (Hem & Hm & _) & (Hev & Hv) & _ & Hm' & Hv' & Hr' & _ & Hk).
  pose proof (migration_at st id em m (proj1 Hwf) Hem Hm) as Hid. pose proof Hwf as (Hwm & Hwv & Hwr).
  assert (vm_ID vm = mig_VmID m) as Hvid.
  { symmetry. apply (inj vmKey). eapply Hwv; [exact Hev| |exact Hv]. unfold key_family. by rewrite class_vmKey. }
  assert (∀ k f, key_family k = Some f → f ∈ [FMigration; FVM; FVMRuntime] → k ≠ migrationKey id →
    k ≠ vmKey (mig_VmID m) → k ≠ vmRuntimeKey (mig_VmID m) → es_map st' !! k = es_map st !! k) as Hk'.
  { intros k f Hf Hin ???. apply Hk; [done..| |unfold key_in; rewrite Hf; set_solver].
    intros ->. unfold key_family in Hf. rewrite class_migrationActiveVMGuard in Hf. set_solver. }
  split_and!; intros k e x He Hf Hd.
  - destruct (decide (k = migrationKey id)) as [->|Hne].
    { rewrite He in Hm'. simpl in Hm'. rewrite Hd in Hm'. simplify_eq. done. }
    eapply Hwm; [|done|done]. rewrite <-He. symmetry. eapply Hk'; [done|set_solver|done|..];
      intros ->; unfold key_family in Hf; by rewrite ?class_vmKey, ?class_vmRuntimeKey in Hf.
  - destruct (decide (k = vmKey (mig_VmID m))) as [->|Hne].
    { rewrite He in Hv'. simpl in Hv'. rewrite Hd in Hv'. simplify_eq. by rewrite <-Hvid. }
    eapply Hwv; [|done|done]. rewrite <-He. symmetry. eapply Hk'; [done|set_solver|..|done|];
      intros ->; unfold key_family in Hf; by rewrite ?class_migrationKey, ?class_vmRuntimeKey in Hf.
  - destruct (decide (k = vmRuntimeKey (mig_VmID m))) as [->|Hne].
    { destruct (es_map st !! vmRuntimeKey (mig_VmID m)) as [er|] eqn:Her; [|congruence].
      destruct Hr' as (rt & Hrt & Hr'). rewrite He in Hr'. simpl in Hr'. rewrite Hd in Hr'. simplify_eq.
      simpl. eapply Hwr; [exact Her|done|exact Hrt]. }
    eapply Hwr; [|done|done]. rewrite <-He. symmetry. eapply Hk'; [done|set_solver|..|done];
      intros ->; unfold key_family in Hf; by rewrite ?class_migrationKey, ?class_vmKey in Hf.
Qed.

(** A cutover that succeeds leaves the migration completed. *)
Lemma CommitMigrationCutover_completes id w :
  wp (inv_protocol rows_wf (λ st st', rows_wf st' ∧ cutover_step id st st')) (CommitMigrationCutover id) ∅
    (λ r _ w', r = Ok tt → ∃ m, mig_at (w_st w') id m ∧ mig_Phase m = MigrationPhaseCompleted) w.
Proof.
  set (pr := inv_protocol _ _).
  apply wp_bindM, wp_loadCutoverState; [done|by intros w1 m Hm Hp _; exists m|]. intros cs em ev w1 Hld.
  apply wp_bindM, (wp_now pr). intros w2 t Hw2. apply (loaded_settled id _ _ _ _ _ _ Hw2) in Hld.
  destruct (mig_TargetNodeID (cs_m cs)) as [target|] eqn:Ht; [|done]. cbv zeta.
  apply wp_bindM, wp_Marshal; [done|]. apply wp_bindM, wp_Marshal; [done|].
  apply wp_bindM, wp_cutoverRuntimeOps; [done|].
  apply wp_bindM, (wp_raw_txn pr); [done|by intros; simpl|].
  intros w3 Hw3 Hc _ Hmax. exists ∅.
  apply reaches_settled in Hw3 as Hs. apply (loaded_settled id _ _ _ _ _ _ Hs) in Hld.
  destruct Hw3 as (_ & [Hwf Hrows] & _).
  pose proof (ld_vm_id _ _ _ _ _ Hld) as Hvid. pose proof (ld_m_id _ _ _ _ _ Hld) as Hmid.
  cbn [vm_ID repinned mig_ID completed mig_VmID set] in Hc.
  assert (cutover_step id (w_st w3) (w_st (applied w3 (cutover_ops id cs target t)))) as Hstep.
  { apply (cutover_applied id cs em ev); [done|done|done|]. rewrite <-Hmid, <-Hvid in *. exact Hc. }
  match goal with |- own_step _ _ _ _ (applied _ ?ops) ∧ _ =>
    assert (ops = cutover_ops id cs target t) as -> end.
  { unfold cutover_ops. cbn [vm_ID repinned mig_ID completed set]. by rewrite Hvid, Hmid. }
  split; [|split; [done|intros rev rs _]].
  - apply own_step_inv; [by apply any_env_applied|by eapply cutover_rows_wf|done].
  - exists (completed (cs_m cs) t). split; [|done]. unfold mig_at. fold (w_map (applied w3 (cutover_ops id cs target t))).
    rewrite applied_map. apply cutover_migration.
Qed.

Lemma cutover_steps id :
  steps_within_inv rows_wf (cutover_step id) (CommitMigrationCutover id).
Proof.
  apply steps_within_inv_wp. intros w _ _. eapply wp_mono; [|apply CommitMigrationCutover_completes]. done.
Qed.

(** C6. A cutover is atomic and fenced: whatever other programs do to rows that
    stay under their own keys, its only write re-pins the VM to the bound target,
    moves the runtime row along if there is one, completes the migration and
    releases the VM's guard, all in one step, from a state in which the migration
    is neither completed nor refused and the target is not being deleted. *)
Theorem CommitMigrationCutover_atomic id :
  steps_within_inv rows_wf (cutover_step id) (CommitMigrationCutover id).
Proof. apply cutover_steps. Qed.
End MigrationProps.

(** ** Concrete runs *)
Module MigrationRuns.
Import Concrete.
Import SweepRun.

Definition vm : VM := 
  MkVM (id 50) (id 7) "vm" (MkVMSpec "" "x86_64" "" "qcow2" "" 1 512 "host" "q35" None None false false None "" "")
    VmDesiredPhaseRunning "" None (Some (id 60)) VMSchedulingScheduled None None "" None 1 0 0 None.
Definition runtime : VMRuntime := MkVMRuntime (id 50) (Some (id 60)) VmPhaseRunning 1 None None None None None 0 "".
Definition target_node : Node :=
  new_node (MkCreateNodeParams (id 61) "target" false "amd64" "" "" "" 0 0 NodeStatusReady) 0.
Definition rows : list (string * doc) :=
  [(migrationKey (id 2), DMigration active_migration); (guard, DStr (uuid_string (id 2)));
   (vmKey (id 50), DVM vm); (vmRuntimeKey (id 50), DVMRuntime runtime);
   (nodeKey (id 61), DNode target_node)].
Definition start : world := stored_world rows.

Lemma start_rows_wf : rows_wf (w_st start).
Proof.
  split_and!; intros k e x [Hk _]%stored_lookup _ Hx; rewrite Hx in Hk;
    unfold rows in Hk; set_unfold in Hk; destruct_or!; try done; by injection Hk as -> ->.
Qed.

Definition cutover_run := drive 30 950 start (CommitMigrationCutover (id 2)).

Lemma CommitMigrationCutover_atomic_witness :
  Forall (λ s, w_st s.2 = w_st s.1 ∨
    (rows_wf (w_st s.2) ∧ cutover_step (id 2) (w_st s.1) (w_st s.2))) cutover_run.1.1 ∧
  e_val <$> w_map cutover_run.1.2 !! migrationKey (id 2) = Some (DMigration (completed active_migration 950)).
Proof.
  split; [|vm_compute; reflexivity].
  eapply (CommitMigrationCutover_atomic (id 2) start); [apply stored_wf|apply start_rows_wf|].
  apply drive_open_run.
Defined.

Definition cancel_run := drive 30 950 start (CancelMigration (id 2) "operator").

Lemma migration_updates_fenced_witness :
  Forall (λ s, w_st s.2 = w_st s.1 ∨
    (rows_wf (w_st s.2) ∧ cancels_migration (id 2) (w_st s.1) (w_st s.2))) cancel_run.1.1 ∧
  w_map cancel_run.1.2 !! guard = None.
Proof.
  split; [|vm_compute; reflexivity].
  destruct (migration_updates_fenced (id 2)
    (MkMigrationProgressUpdate None None None None None None None None None false)
    (MkMigrationStats 0 0 0 0 0 0 0 0) "operator" None (id 61) "pool") as (_ & _ & Hc & _).
  eapply (Hc start); [apply stored_wf|apply start_rows_wf|apply drive_open_run].
Defined.
End MigrationRuns.
