(* ===== verification/MigrationExclusion.v ===== *)
(** * One migration at a time per VM

    The guard key of a VM names the one migration of it that is in flight.  The
    operations that create, update, bind, cancel and cut over migrations keep
    this, under every interleaving with each other and with whatever writes
    neither migrations nor guards, as long as no live migration is both cancelled
    and cut over.  The last part shows what such a cutover does. *)

From S2P Require Import Prelude Models Etcd Prog Keys Client Rules Footprint Instances.
From S2P Require Import Jobs JobSystem Tasks Nodes Migrations Footprints TaskProps Lists Retention MigrationProps.
Local Open Scope Z_scope.

(** What is done with a migration: it is offline, or nobody cancels it, or nobody
    cuts it over. *)
Inductive conduct := Offline | Uncancelled | Uncut.

Section Exclusion.
Context `{Etcd, !EtcdLaws, !Libs, !LibsLaws} (role : uuid → conduct).

(** The row at [migrationKey id] is a migration of [vm] in flight. *)
Definition active (st : estate) (id vm : uuid) : Prop :=
  ∃ e m, es_map st !! migrationKey id = Some e ∧ e_val e = DMigration m ∧
    mig_VmID m = vm ∧ isTerminalMigration (mig_Phase m) = false.

Definition names (st : estate) (vm id : uuid) : Prop :=
  e_val <$> es_map st !! migrationActiveVMGuard vm = Some (DStr (uuid_string id)).

Definition guarded (st : estate) : Prop := ∀ id vm, active st id vm → names st vm id.

(** The rows agree with what is done with them. *)
Definition conducts (id : uuid) (m : Migration) : Prop :=
  match role id with
  | Offline => mig_Live m = false
  | Uncancelled => mig_Phase m ≠ MigrationPhaseCancelled
  | Uncut => True
  end.

Definition conducted (st : estate) : Prop := ∀ id m, mig_at st id m → conducts id m.

Definition exclusive (st : estate) : Prop := migrations_wf st ∧ guarded st ∧ conducted st.

Lemma names_inj st vm id1 id2 : names st vm id1 → names st vm id2 → id1 = id2.
Proof. unfold names. intros -> [= E]. by apply (inj uuid_string). Qed.

Lemma guarded_one st vm id1 id2 : guarded st → active st id1 vm → active st id2 vm → id1 = id2.
Proof. intros Hg Ha1%Hg Ha2%Hg. by eapply names_inj. Qed.

(** ** Steps *)

(** A step that changes neither migrations nor guards. *)
Lemma guarded_frame st st' :
  (∀ id, es_map st' !! migrationKey id = es_map st !! migrationKey id) →
  (∀ vm, es_map st' !! migrationActiveVMGuard vm = es_map st !! migrationActiveVMGuard vm) →
  guarded st → guarded st'.
Proof.
  intros Hm Hv Hg id vm (e & m & He & Hrest). unfold names. rewrite Hv. apply Hg.
  exists e, m. by rewrite <-Hm.
Qed.

Lemma guarded_mig_step fs id P st st' :
  FMigration ∉ fs → (∀ m m', P m m' → edge m m') → mig_step fs id P st st' → guarded st → guarded st'.
Proof.
  intros Hfs HP (Hk & e & m & m' & He & Hm & Hm' & Hedge%HP & Hgd) Hg.
  assert (∀ id2, id2 ≠ id → es_map st' !! migrationKey id2 = es_map st !! migrationKey id2) as Hrow.
  { intros id2 Hne. apply Hk; [|by intros ?%(inj migrationKey)]. unfold key_in, key_family.
    by rewrite class_migrationKey. }
  intros id2 vm (e2 & m2 & He2 & Hm2 & Hvm & Hact).
  assert (active st id2 vm ∧ (id2 = id → ¬ ends m m')) as [Hold Hne].
  { destruct (decide (id2 = id)) as [->|Hne].
    - rewrite He2 in Hm'. simpl in Hm'. rewrite Hm2 in Hm'. simplify_eq.
      split; [|by intros _ [_ E]; congruence]. exists e, m. split_and!; [done|done|by rewrite (edge_VmID _ _ Hedge)|].
      destruct (isTerminalMigration (mig_Phase m)) eqn:Et; [|done].
      by rewrite (edge_terminal _ _ Hedge Et), Et in Hact.
    - split; [|done]. exists e2, m2. by rewrite <-Hrow. }
  unfold names. destruct (Hgd vm) as [->|[-> Hends]]; [by apply Hg|].
  exfalso. destruct (decide (id2 = id)) as [?|Hne2]; [by eapply Hne|]. apply Hne2.
  eapply guarded_one; [exact Hg|exact Hold|]. exists e, m. split_and!; [done|done|done|by destruct Hends].
Qed.

Lemma guarded_create st st' id vm :
  es_map st !! migrationActiveVMGuard vm = None →
  (∀ id2, id2 ≠ id → es_map st' !! migrationKey id2 = es_map st !! migrationKey id2) →
  (∀ vm2, vm2 ≠ vm → es_map st' !! migrationActiveVMGuard vm2 = es_map st !! migrationActiveVMGuard vm2) →
  (∀ vm2, active st' id vm2 → vm2 = vm) → names st' vm id → guarded st → guarded st'.
Proof.
  intros Hnone Hrow Hgd Hnew Hname Hg id2 vm2 Hact.
  destruct (decide (id2 = id)) as [->|Hne]; [by rewrite (Hnew _ Hact)|].
  assert (active st id2 vm2) as Hold.
  { destruct Hact as (e & m & He & Hrest). exists e, m. by rewrite <-Hrow. }
  assert (vm2 ≠ vm) as Hvm.
  { intros ->. apply Hg in Hold. unfold names in Hold. by rewrite Hnone in Hold. }
  unfold names. rewrite Hgd by done. by apply Hg.
Qed.

Lemma conducted_mig_step fs id P st st' :
  FMigration ∉ fs →
  (∀ m m', P m m' → edge m m' ∧ (role id = Uncancelled → mig_Phase m' = MigrationPhaseCancelled →
     mig_Phase m = MigrationPhaseCancelled)) →
  mig_step fs id P st st' → conducted st → conducted st'.
Proof.
  intros Hfs HP (Hk & e & m & m' & He & Hm & Hm' & HPm & _) Hc id2 m2 Hat.
  destruct (decide (id2 = id)) as [->|Hne].
  - unfold mig_at in Hat. rewrite Hm' in Hat. injection Hat as ->. destruct (HP m m2 HPm) as [Hedge Hcancel].
    specialize (Hc id m). unfold mig_at in Hc. rewrite He in Hc. simpl in Hc. rewrite Hm in Hc. specialize (Hc eq_refl).
    unfold conducts in *. destruct (role id); [by rewrite (edge_Live _ _ Hedge)|auto|done].
  - apply Hc. unfold mig_at in *. rewrite <-Hat. f_equal. symmetry. apply Hk; [key_in_solve|].
    by intros ?%(inj migrationKey).
Qed.

(** ** The operations *)

Definition excl : protocol := inv_protocol exclusive (λ _ _, True).

(** A program verified for rows only, whose steps keep the rest. *)
Lemma excl_lift fs id P {R} (p : prog R) w :
  FMigration ∉ fs →
  (∀ m m', P m m' → edge m m' ∧ (role id = Uncancelled → mig_Phase m' = MigrationPhaseCancelled →
     mig_Phase m = MigrationPhaseCancelled)) →
  pr_inv excl w →
  wp (inv_protocol migrations_wf (λ st st', migrations_wf st' ∧ mig_step fs id P st st')) p ∅ (λ _ _ _, True) w →
  wp excl p ∅ (λ _ _ _, True) w.
Proof.
  intros Hfs HP. apply wp_inv_lift; [by intros st []|].
  intros st st' (_ & Hg & Hc) Hr [_ Hs]. split; [|done]. split_and!; [done|..].
  - eapply (guarded_mig_step fs); [done| |done|done]. intros m m' [? _]%HP. done.
  - by eapply (conducted_mig_step fs).
Qed.

(** A program that leaves the rows and guards alone. *)
Definition row_families : list family := [FMigration; FMigrationGuard].

Lemma excl_frame fs : (∀ f, f ∈ row_families → f ∉ fs) → Frame excl fs.
Proof.
  intros Hfs. split; [|done]. intros w w' _ Henv Hk. split_and!; [done| |by right].
  assert (∀ k f, key_family k = Some f → f ∈ row_families →
    es_map (w_st w') !! k = es_map (w_st w) !! k) as Hsame.
  { intros k f Hf Hin. apply Hk. unfold key_in. rewrite Hf. by apply Hfs. }
  assert (∀ id, es_map (w_st w') !! migrationKey id = es_map (w_st w) !! migrationKey id) as Hrow.
  { intros id. eapply Hsame; [unfold key_family; by rewrite class_migrationKey|set_solver]. }
  intros (Hm & Hg & Hc). split_and!.
  - intros k e x He Hf Hd. rewrite (Hsame k _ Hf) in He by set_solver. eauto.
  - eapply guarded_frame; [done| |exact Hg]. intros vm.
    eapply Hsame; [unfold key_family; by rewrite class_migrationActiveVMGuard|set_solver].
  - intros id m Hat. apply Hc. unfold mig_at in *. by rewrite <-Hrow.
Qed.

(** What a create writes besides the guard and the row. *)
Definition create_families : list family :=
  [FMigrationVM; FMigrationNode; FTask; FTaskCreatedBy; FJob].

Lemma CreateMigration_excl p args w :
  (role (cmp_ID p) = Offline → cmp_Live p = false) → wp excl (CreateMigration p args) ∅ (λ _ _ _, True) w.
Proof.
  intros Hlive. pose proof (excl_frame [FJobSeq]) as Hfr. specialize (Hfr ltac:(set_solver)).
  apply wp_bindM, (wp_now excl). intros w1 t _. cbv zeta. apply wp_bindM, wp_Marshal; [done|].
  apply (wp_frame_bind_returns excl [FJobSeq] (job_put args));
    [apply enqueueJobOp_writes|apply enqueueJobOp_returns|done|].
  intros [seq o] w2 [payload Ho]. simpl in Ho. subst o.
  apply wp_bindM, (wp_now excl). intros w3 t' _. apply wp_bindM, wp_Marshal; [done|].
  apply wp_bindM, (wp_raw_txn excl); [done|by intros; simpl|].
  intros w4 (_ & [Hwf (Hrows & Hg & Hcd)] & _) Hc _ Hmax. exists ∅. split; [|by split].
  apply andb_true_iff in Hc as [Hc _]. apply cmp_absent in Hc; [|done].
  set (id := cmp_ID p) in *. set (vm := cmp_VmID p) in *. set (m := new_migration p t) in *.
  cbn [app]. match goal with |- own_step _ _ _ _ (applied _ (_ :: _ :: ?l)) => set (rest := l) end.
  assert (Forall (op_in create_families) rest) as Hrest.
  { unfold rest, create_families. writes_solve; first [apply node_index_puts_in|apply taskIndexOps_in]; set_solver. }
  set (w5 := applied w4 _).
  assert (∀ k, ¬ key_in create_families k → k ≠ migrationKey id → k ≠ migrationActiveVMGuard vm →
    w_map w5 !! k = w_map w4 !! k) as Hk.
  { intros k Hin Hne1 Hne2. unfold w5. rewrite applied_map, !apply_ops_cons, (apply_ops_outside create_families) by done.
    simpl. by rewrite !lookup_insert_ne by done. }
  assert (e_val <$> w_map w5 !! migrationKey id = Some (DMigration m)) as Hrow.
  { unfold w5. rewrite applied_map. by apply (apply_ops_put create_families _ [_]); [|key_in_solve]. }
  assert (names (w_st w5) vm id) as Hname.
  { unfold names. fold (w_map w5). unfold w5. rewrite applied_map.
    apply (apply_ops_put (FMigration :: create_families) _ []); [|key_in_solve].
    constructor; [simpl; key_in_solve|]. eapply op_in_mono; [|exact Hrest]. set_solver. }
  split_and!; [split_and!; [by apply any_env_applied|intros _|by right]|by intros ?|set_solver]. split_and!.
  - intros k e x He Hf Hd. destruct (decide (k = migrationKey id)) as [->|Hne].
    + unfold w_map in Hrow. rewrite He in Hrow. simpl in Hrow. rewrite Hd in Hrow. by simplify_eq.
    + eapply Hrows; [|done|done]. rewrite <-He. symmetry. apply Hk; [unfold key_in; rewrite Hf; set_solver|done|].
      intros ->. unfold key_family in Hf. by rewrite class_migrationActiveVMGuard in Hf.
  - eapply (guarded_create (w_st w4) _ id vm); [done| | |..|done|done].
    + intros id2 Hne. apply Hk; [key_in_solve|by intros ?%(inj migrationKey)|key_neq].
    + intros vm2 Hne. apply Hk; [key_in_solve|key_neq|by intros ?%(inj migrationActiveVMGuard)].
    + intros vm2 (e & m2 & He & Hm2 & Hvm & _). unfold w_map in Hrow. rewrite He in Hrow. simpl in Hrow.
      rewrite Hm2 in Hrow. by simplify_eq.
  - intros id2 m2 Hat. destruct (decide (id2 = id)) as [->|Hne].
    + unfold mig_at in Hat. unfold w_map in Hrow. rewrite Hrow in Hat. injection Hat as <-.
      unfold conducts, id in *. destruct (role (cmp_ID p)); [by apply Hlive|done|done].
    + apply Hcd. unfold mig_at in *. rewrite <-Hat. f_equal. symmetry.
      apply Hk; [key_in_solve|by intros ?%(inj migrationKey)|key_neq].
Qed.

Lemma CancelMigration_excl id reason w :
  role id ≠ Uncancelled → pr_inv excl w → wp excl (CancelMigration id reason) ∅ (λ _ _ _, True) w.
Proof.
  intros Hr Hi. eapply (excl_lift update_families id); [set_solver| |done|apply CancelMigration_wp].
  - intros m m' ((? & _) & _). by split.
  - done.
  - apply migrations_wf_update.
Qed.

Lemma excl_keep {R} (p : prog R) w :
  pr_inv excl w → wp excl p ∅ (λ _ _ _, True) w → wp excl p ∅ (λ _ O w', O = ∅ ∧ pr_inv excl w') w.
Proof.
  intros Hi Hp. eapply wp_mono; [|by apply (wp_inv_keep _ _ _ (λ _ _ _, True))].
  by intros r O w' (-> & ? & _ & _).
Qed.

Lemma cancelNodeMigrations_excl migs reason w :
  Forall (λ m, role (mig_ID m) ≠ Uncancelled) migs → pr_inv excl w → wp excl (cancelNodeMigrations migs reason) ∅ (λ _ _ _, True) w.
Proof.
  unfold cancelNodeMigrations. generalize 0 as n. intros n Hmigs. revert n w.
  induction Hmigs as [|m migs Hm _ IH]; intros n w Hi; [done|]. apply wp_bind.
  eapply (wp_mono excl _ _ (λ r O w', O = ∅ ∧ pr_inv excl w')).
  { intros [b|e] O w' [-> Hi']; [by apply IH|done]. }
  apply excl_keep; [done|]. clear n IH. revert w Hi.
  induction nodeDeleteCASAttempts as [|k IH]; intros w Hi; [done|].
  apply wp_bindM, wp_bind. eapply (wp_mono excl _ _ (λ r O w', O = ∅ ∧ pr_inv excl w')).
  { intros [[m' [?|]]|e] O w' [-> Hi']; [done..|]. destruct e; try done. by apply IH. }
  by apply excl_keep, CancelMigration_excl.
Qed.

(** ** The cutover *)

(** The kinds of keys a cutover writes, besides the migration itself. *)
Definition cutover_families : list family :=
  [FVM; FVMPinned; FVMRuntime; FVMRuntimeNode; FMigrationNode; FMigrationGuard].

Lemma cutoverRuntimeOps_in rt source target :
  returns (on_ok (Forall (op_in [FVMRuntime; FVMRuntimeNode]))) (cutoverRuntimeOps rt source target).
Proof.
  unfold cutoverRuntimeOps. destruct rt as [[rt rev]|]; [|by apply Forall_nil]. apply returns_bindM, returns_any. intros val.
  constructor; [simpl; key_in_solve|]. apply Forall_app. split.
  - destruct source; [|by apply Forall_nil]. case_bool_decide; [by apply Forall_nil|]. apply Forall_singleton. simpl. key_in_solve.
  - apply Forall_singleton. simpl. key_in_solve.
Qed.

(** The state a cutover loads is that of the row it read. *)
Lemma wp_load_excl id Q w :
  pr_inv excl w → (∀ e w', Q (Err e) ∅ w') → (∀ w', Q (Ok None) ∅ w') →
  (∀ cs e w', pr_inv excl w' → seen (migrationKey id) e (w_st w') → e_val e = DMigration (cs_m cs) →
     e_mod e = cs_mRev cs → mig_ID (cs_m cs) = id → mig_Phase (cs_m cs) ≠ MigrationPhaseCompleted →
     cutoverRefused (cs_m cs) = false → Q (Ok (Some cs)) ∅ w') →
  wp excl (loadCutoverState id) ∅ Q w.
Proof.
  intros Hi HE HN HS. unfold loadCutoverState. apply wp_bindM, (wp_migration_with_rev excl); [intros; apply HE|].
  intros w2 e m Hw2 Hrow Hm Hseen. cbv beta iota.
  pose proof (settled_inv excl _ _ _ Hw2) as Hi2.
  assert (mig_ID m = id) as Hid by (eapply migration_at; [apply Hi2|exact Hrow|exact Hm]).
  case_bool_decide as Hphase; [apply HN|]. destruct (cutoverRefused m) eqn:Href; [apply HE|].
  destruct (mig_TargetNodeID m) as [target|]; [|apply HE].
  pose proof (excl_frame [] ltac:(set_solver)) as Hfr.
  eapply wp_mono; [|apply (wp_inv_keep exclusive _ _ (λ r O _, O = ∅ ∧
    on_ok (λ o, ∃ cs, o = Some cs ∧ cs_m cs = m ∧ cs_mRev cs = e_mod e) r)); [exact Hi2|]].
  - intros [o|err] O w' (-> & Hi' & Hrtc & _ & Ho); [|apply HE]. destruct Ho as (cs & -> & Ecs & Erev).
    apply (HS cs e); [done|by eapply seen_rtc|by rewrite Ecs|done|by rewrite Ecs..].
  - apply (wp_frame_returns excl []).
    + unfold NodeByID. writes_solve.
    + apply returns_bindM, returns_any. intros [n|err]; [|by destruct err].
      apply returns_bindM, returns_any. intros [ve|]; [|done]. case_match; [|done].
      apply returns_bindM, returns_any. intros [re|]; [case_match; [|done]|]; simpl; eauto.
Qed.

(** A cutover of a migration that is not both live and cancelled ends a migration
    in flight. *)
Lemma cutover_edge id st m t :
  role id ≠ Uncut → conducted st → mig_at st id m → mig_Phase m ≠ MigrationPhaseCompleted →
  cutoverRefused m = false → edge m (completed m t) ∧ ends m (completed m t).
Proof.
  intros Hrole Hc Hat Hph Href. specialize (Hc id m Hat). unfold conducts in Hc. unfold cutoverRefused in Href.
  assert (isTerminalMigration (mig_Phase m) = false) as Ht.
  { destruct (mig_Phase m); try done. destruct (role id); [by rewrite Hc in Href|done|done]. }
  split; [|by split]. split; cbn; auto; congruence.
Qed.

Lemma own_step_cutover id e m t ops w :
  role id ≠ Uncut → pr_inv excl w → w_rev w < max_i64 → w_map w !! migrationKey id = Some e → e_val e = DMigration m →
  mig_ID m = id → mig_Phase m ≠ MigrationPhaseCompleted → cutoverRefused m = false →
  (∃ k d rest, ops = OpPut (vmKey k) d :: OpPut (migrationKey id) (DMigration (completed m t)) ::
     rest ++ terminalCleanupOps (completed m t) ∧
     Forall (op_in [FVMPinned; FVMRuntime; FVMRuntimeNode]) rest) →
  own_step excl ∅ ∅ w (applied w ops).
Proof.
  intros Hrole [Hwf (Hrows & Hg & Hc)] Hmax Hk Hm Hid Hph Href (k & d & rest & -> & Hrest).
  assert (mig_at (w_st w) id m) as Hat by (unfold mig_at; fold (w_map w); rewrite Hk; simpl; by rewrite Hm).
  destruct (cutover_edge id (w_st w) m t Hrole Hc Hat Hph Href) as [Hedge Hends].
  set (tail := rest ++ _). set (w' := applied w _).
  assert (Forall (op_in cutover_families) tail) as Htail.
  { apply Forall_app. split; [eapply op_in_mono; [|exact Hrest]; set_solver|]. apply terminalCleanupOps_in; set_solver. }
  assert (e_val <$> w_map w' !! migrationKey id = Some (DMigration (completed m t))) as Hrow.
  { unfold w'. rewrite applied_map. by apply (apply_ops_put cutover_families _ [_]); [|key_in_solve]. }
  assert (∀ k, ¬ key_in cutover_families k → k ≠ migrationKey id → w_map w' !! k = w_map w !! k) as Hother.
  { intros k' Hin Hne. unfold w'. rewrite applied_map, !apply_ops_cons, (apply_ops_outside cutover_families) by done.
    simpl. rewrite !lookup_insert_ne; [done| |done]. intros <-. apply Hin. key_in_solve. }
  assert (mig_step cutover_families id (λ m0 m', m0 = m ∧ m' = completed m t) (w_st w) (w_st w')) as Hstep.
  { split; [exact Hother|]. exists e, m, (completed m t). split_and!; [done..|]. intros vm.
    destruct (decide (vm = mig_VmID m)) as [->|Hne]; [by right|left].
    fold (w_map w') (w_map w). unfold w', tail. rewrite applied_map, !apply_ops_cons, apply_ops_app.
    unfold terminalCleanupOps. rewrite apply_ops_cons, (apply_ops_outside [FMigrationNode]);
      [|apply Forall_app; split; apply node_index_deletes_in; set_solver|key_in_solve].
    cbn [apply_op fst mig_VmID completed set]. rewrite lookup_delete_ne by (by intros ?%(inj migrationActiveVMGuard)).
    rewrite (apply_ops_outside [FVMPinned; FVMRuntime; FVMRuntimeNode]) by (first [done|key_in_solve]).
    simpl. rewrite !lookup_insert_ne; [done|key_neq..]. }
  split_and!; [|by intros ?|set_solver]. split_and!; [by apply any_env_applied|intros _|by right]. split_and!.
  - intros k' e' x He' Hf Hd. destruct (decide (k' = migrationKey id)) as [->|Hne].
    + unfold w_map in Hrow. rewrite He' in Hrow. simpl in Hrow. rewrite Hd in Hrow. by simplify_eq.
    + eapply Hrows; [|done|done]. rewrite <-He'. symmetry. apply Hother; [unfold key_in; rewrite Hf; set_solver|done].
  - eapply (guarded_mig_step cutover_families); [set_solver| |exact Hstep|done]. by intros ?? [-> ->].
  - eapply (conducted_mig_step cutover_families); [set_solver| |exact Hstep|done]. by intros ?? [-> ->].
Qed.

Lemma CommitMigrationCutover_excl id w :
  role id ≠ Uncut → pr_inv excl w → wp excl (CommitMigrationCutover id) ∅ (λ _ _ _, True) w.
Proof.
  intros Hrole Hi. apply wp_bindM, wp_load_excl; [done|done|done|]. intros cs e w1 Hi1 Hseen He Hrev Hid Hph Href.
  apply wp_bindM, (wp_now excl). intros w2 t Hw2. destruct (mig_TargetNodeID (cs_m cs)) as [target|]; [|done].
  cbv zeta. apply wp_bindM, wp_Marshal; [done|]. apply wp_bindM, wp_Marshal; [done|].
  pose proof (excl_frame [] ltac:(set_solver)) as Hfr.
  pose proof (settled_inv excl _ _ _ Hw2) as Hi2.
  apply (wp_frame_bind_seen exclusive _ [] (Forall (op_in [FVMRuntime; FVMRuntimeNode])));
    [exact Hi2|unfold cutoverRuntimeOps; writes_solve|apply cutoverRuntimeOps_in|done|].
  intros rtOps w3 Hi3 Hrtc Hops. apply wp_bindM, (wp_raw_txn excl); [done|by intros; simpl|].
  intros w4 Hw4 Hcond _ Hmax. exists ∅. split; [|by split].
  assert (seen (migrationKey id) e (w_st w4)) as Hseen4.
  { eapply (seen_settled excl); [by apply reaches_settled|]. eapply seen_rtc; [done|]. by eapply (seen_settled excl). }
  cbn [forallb mig_ID completed set] in Hcond. apply andb_true_iff in Hcond as [Hcm _]. rewrite Hid, <-Hrev in Hcm.
  eapply (own_step_cutover id e (cs_m cs) t); [done|apply Hw4|done|by apply seen_cmp|done..|].
  cbn [vm_ID repinned mig_ID completed set]. rewrite Hid. eexists _, _, (_ ++ rtOps).
  split; [by rewrite <-app_assoc|]. apply Forall_app. split.
  - apply pinnedNodeIndexOps_in. set_solver.
  - eapply op_in_mono; [|exact Hops]. set_solver.
Qed.

(** ** The system *)

(** The operations a process may start at any time, in any sequence. *)
Inductive migration_op : thread → Prop :=
| mo_CreateMigration p args :
    (role (cmp_ID p) = Offline → cmp_Live p = false) → migration_op (any_result (CreateMigration p args))
| mo_UpdateMigrationProgress id upd :
    (upd_Phase upd = Some MigrationPhaseCancelled → role id ≠ Uncancelled) →
    migration_op (any_result (UpdateMigrationProgress id upd))
| mo_UpdateMigrationStats id stats : migration_op (any_result (UpdateMigrationStats id stats))
| mo_CancelMigration id reason :
    role id ≠ Uncancelled → migration_op (any_result (CancelMigration id reason))
| mo_BindMigrationTarget ctx id n pool : migration_op (any_result (BindMigrationTarget ctx id n pool))
| mo_CommitMigrationCutover id :
    role id ≠ Uncut → migration_op (any_result (CommitMigrationCutover id))
| mo_cancelNodeMigrations migs reason :
    Forall (λ m, role (mig_ID m) ≠ Uncancelled) migs →
    migration_op (any_result (cancelNodeMigrations migs reason))
| mo_other {R} fs (p : prog R) :
    (∀ f, f ∈ row_families → f ∉ fs) → writes fs p → migration_op (any_result p)
| mo_seq {A B} (p : prog A) (k : A → prog B) :
    migration_op (any_result p) → (∀ a, migration_op (any_result (k a))) →
    migration_op (any_result (prog_bind k p)).

Lemma migration_op_verified th : migration_op th → verified excl th.
Proof.
  intros Hop. induction Hop as [p args Hl|id upd Hu|id stats|id reason Hr|ctx id n pool|id Hr|migs reason Hm
    |R fs p Hfs Hw|A B p k _ IHp _ IHk]; intros w Hi; cbn [any_result th_prog th_post].
  - by apply CreateMigration_excl.
  - eapply (excl_lift update_families id); [set_solver| |done
      |apply UpdateMigrationProgress_wp; [done|apply migrations_wf_update]].
    intros m m' [[? _] Hph]. split; [done|]. intros Hrole E. rewrite E in Hph.
    destruct Hph as [?|Hph]; [done|]. by destruct (Hu Hph).
  - eapply (excl_lift [] id); [set_solver| |done|apply UpdateMigrationStats_wp; [done|apply migrations_wf_update]].
    intros m m' [[? _] Hph]. split; [done|]. congruence.
  - by apply CancelMigration_excl.
  - eapply (excl_lift update_families id); [set_solver| |done
      |apply BindMigrationTarget_wp; [done|apply migrations_wf_update]].
    intros m m' ([? _] & _ & _ & _ & Hph). split; [done|]. congruence.
  - by apply CommitMigrationCutover_excl.
  - by apply cancelNodeMigrations_excl.
  - pose proof (excl_frame fs Hfs). eapply wp_mono; [|by apply (wp_frame excl fs)]. done.
  - apply wp_bind. eapply (wp_mono excl _ _ (λ r O w', O = ∅ ∧ pr_inv excl w')).
    + intros a O w' [-> Hi']. by apply (IHk a w').
    + apply excl_keep; [done|]. by apply (IHp w).
Qed.

(** C9. One migration at a time: from a store that keeps migrations under their own
    keys and in which every migration in flight is named by the guard of its VM,
    every interleaving of creates, progress and statistics updates, cancels,
    target bindings, cutovers, the cancellations of a forced node delete, any
    programs that write neither migrations nor guards (whatever they do to VMs,
    runtimes, nodes and the rest), and sequences of all these, with requests lost
    before or after they take effect, keeps it so; in particular two migrations
    of one VM are never in flight at once.  Each migration is offline, or is never
    cancelled, or is never cut over: a cutover of a cancelled live migration is
    excluded, and so is the retention sweep, since both delete the guard of
    whichever migration holds it. *)
Theorem one_migration_per_vm w0 c :
  estate_wf (w_st w0) → exclusive (w_st w0) → rtc (cstep migration_op) (w0, []) c →
  exclusive (w_st c.1) ∧
  ∀ vm id1 id2, active (w_st c.1) id1 vm → active (w_st c.1) id2 vm → id1 = id2.
Proof.
  intros Hwf Hx Hr.
  destruct (pool_guar excl ltac:(by intros ?? (? & ? & _)) migration_op w0 c migration_op_verified)
    as [((_ & Hx') & _) _]; [done|done|]. split; [done|]. intros vm id1 id2. apply guarded_one, Hx'.
Qed.
End Exclusion.

(** ** Concrete runs *)
Module ExclusionRuns.
Import Concrete SweepRun MigrationRuns.

Definition job : JobArgs := MkJobArgs "vm.migrate" (Some "").

(** Two creates of migrations of one VM, interleaved. *)
Definition creators : list thread :=
  [any_result (CreateMigration (mig_params 3) job); any_result (CreateMigration (mig_params 4) job)].
Definition idle : world := stored_world [(vmKey (id 50), DVM vm)].
Definition both : config :=
  schedule 5 [0; 1; 0; 1; 0; 1; 0; 1; 1; 0; 1; 0; 0; 1; 1; 0; 0; 1; 1; 0; 0; 1]%nat (idle, creators).

(** The migration of the first create may be cut over, that of the second
    cancelled. *)
Definition roles (u : uuid) : conduct := if bool_decide (u = id 3) then Uncancelled else Uncut.

Lemma idle_exclusive : exclusive roles (w_st idle).
Proof.
  assert (∀ k e, es_map (w_st idle) !! k = Some e → k = vmKey (id 50) ∧ e_val e = DVM vm) as Hrow.
  { intros k e [Hk _]%stored_lookup. apply list_elem_of_singleton in Hk. by injection Hk. }
  split_and!.
  - intros k e m [-> E]%Hrow _ ?. congruence.
  - intros i v (e & m & [E _]%Hrow & _). by revert E; key_neq.
  - intros i m (e & [E _]%Hrow & _)%fmap_Some. by revert E; key_neq.
Qed.

Lemma one_migration_per_vm_witness :
  active (w_st both.1) (id 3) (id 50) ∧ ¬ active (w_st both.1) (id 4) (id 50).
Proof.
  assert (active (w_st both.1) (id 3) (id 50)) as Hact.
  { eexists _, _. split_and!; vm_compute; reflexivity. }
  split; [done|]. intros Hact4.
  destruct (one_migration_per_vm roles idle both) as [_ Hone].
  - apply stored_wf.
  - apply idle_exclusive.
  - etrans; [apply spawn_rtc|apply schedule_rtc].
    apply Forall_cons; split; [|apply Forall_singleton]; apply mo_CreateMigration; vm_compute; discriminate.
  - by specialize (Hone _ _ _ Hact Hact4).
Defined.

(** A cancelled live migration, then a second one, the cutover of the first and a
    third one. *)
Definition cancelled_start : estate :=
  stored [(migrationKey (id 1), DMigration (cancelled (new_migration (mig_params 1) 5) "operator" 10));
    (vmKey (id 50), DVM vm); (nodeKey (id 61), DNode target_node)].
Definition steps_of {R} (p : prog R) (st : estate) : estate := run_state 950 supply p st 0.
Definition after_second : estate := steps_of (CreateMigration (mig_params 2) job) cancelled_start.
Definition after_cutover : estate := steps_of (CommitMigrationCutover (id 1)) after_second.
Definition after_third : estate := steps_of (CreateMigration (mig_params 3) job) after_cutover.

(** The guard is not compared with its owner: the cutover of a live migration
    that was cancelled releases the guard a newer migration of the VM holds, and a
    third one is then admitted beside it. *)
Lemma cancelled_cutover_drops_guard :
  names after_second (id 50) (id 2) ∧ es_map after_cutover !! guard = None ∧
  active after_third (id 2) (id 50) ∧ active after_third (id 3) (id 50).
Proof.
  split_and!; [vm_compute; reflexivity..| |]; eexists _, _; split_and!; vm_compute; reflexivity.
Qed.
End ExclusionRuns.
