(* ===== verification/DrainProps.v ===== *)
(** * Drains under every interleaving

    A node is draining exactly while it carries the id of its drain task.  A
    drain begins together with its task and its job, and only a call that
    finishes a drain of that node or the backstop for stuck drains takes it away:
    no cordon, heartbeat, gateway-role toggle or health sweep can.  The runs at
    the end show a cordon that loses against a health sweep, and a drain that is
    ended by the late finish of an earlier one. *)

From S2P Require Import Prelude Models Etcd Prog Keys Client Rules Footprint Instances.
From S2P Require Import Jobs Tasks Nodes Drains Footprints TaskProps JobSystem.
Local Open Scope Z_scope.

(** The calls that create a node or end a drain. *)
Inductive drain_call :=
| CallCreate (id : uuid)
| CallFinish (id task : uuid)
| CallReconcile.

Section DrainProps.
Context `{Etcd, !EtcdLaws, !Libs, !LibsLaws}.

(** The calls that processes make. *)
Context (made : drain_call → Prop).

(** ** Rows *)

Definition drain_ok (n : Node) : Prop := node_Status n = NodeStatusDraining ↔ is_Some (node_DrainTaskID n).

(** Node rows lie under their own keys and are consistent. *)
Definition nodes_inv (st : estate) : Prop :=
  ∀ k e n, es_map st !! k = Some e → key_family k = Some FNode → e_val e = DNode n →
    k = nodeKey (node_ID n) ∧ drain_ok n.

Definition node_at (st : estate) (id : uuid) (n : Node) : Prop :=
  e_val <$> es_map st !! nodeKey id = Some (DNode n).

Lemma family_nodeKey id : key_family (nodeKey id) = Some FNode.
Proof. unfold key_family. by rewrite class_nodeKey. Qed.

Lemma nodes_inv_at st id e n :
  nodes_inv st → es_map st !! nodeKey id = Some e → e_val e = DNode n → node_ID n = id ∧ drain_ok n.
Proof.
  intros Hi He Hn. destruct (Hi _ _ _ He (family_nodeKey id) Hn) as [E Hd].
  split; [|done]. symmetry. by apply (inj nodeKey).
Qed.

(** ** The life of a drain *)

(** A write that leaves the drain alone. *)
Definition keeps_drain (n n' : Node) : Prop :=
  node_ID n' = node_ID n ∧ node_DrainTaskID n' = node_DrainTaskID n ∧
  (node_Status n' = NodeStatusDraining ↔ node_Status n = NodeStatusDraining).

Definition ends_drain (n n' : Node) : Prop :=
  node_ID n' = node_ID n ∧ node_Status n = NodeStatusDraining ∧ is_Some (node_DrainTaskID n) ∧
  node_Status n' = NodeStatusCordoned ∧ node_DrainTaskID n' = None.

(** The drain begins with its task and the pending job that will run it. *)
Definition starts_drain (n n' : Node) (st' : estate) : Prop :=
  node_ID n' = node_ID n ∧ drainable (node_Status n) = true ∧ node_DrainTaskID n = None ∧
  node_Status n' = NodeStatusDraining ∧
  ∃ id t seq j, node_DrainTaskID n' = Some id ∧
    e_val <$> es_map st' !! taskKey id = Some (DTask t) ∧ task_JobID t = Some seq ∧
    e_val <$> es_map st' !! jobKey seq = Some (DJob j) ∧ job_State j = JobStatePending.

Inductive drain_edge (st st' : estate) (id : uuid) : Prop :=
| edge_same : es_map st' !! nodeKey id = es_map st !! nodeKey id → drain_edge st st' id
| edge_keep n n' : node_at st id n → node_at st' id n' → keeps_drain n n' → drain_edge st st' id
| edge_start n n' : node_at st id n → node_at st' id n' → starts_drain n n' st' → drain_edge st st' id
| edge_create n' :
    made (CallCreate id) → node_at st' id n' → node_Status n' ≠ NodeStatusDraining →
    node_DrainTaskID n' = None → drain_edge st st' id
| edge_finish task n n' :
    made (CallFinish id task) → node_at st id n → node_at st' id n' → ends_drain n n' → drain_edge st st' id
| edge_stuck n n' :
    made CallReconcile → node_at st id n → node_at st' id n' → ends_drain n n' → drain_edge st st' id.

Definition drain_step (st st' : estate) : Prop := ∀ id, drain_edge st st' id.

Definition drains : protocol := inv_protocol nodes_inv drain_step.

(** ** Steps *)

(** A transaction that writes one node row beside keys of other kinds. *)
Lemma own_step_node fs w l1 l2 id n' :
  FNode ∉ fs → Forall (op_in fs) l1 → Forall (op_in fs) l2 →
  pr_inv drains w → w_rev w < max_i64 →
  node_ID n' = id → drain_ok n' →
  let w' := applied w (l1 ++ OpPut (nodeKey id) (DNode n') :: l2) in
  (node_at (w_st w') id n' → drain_edge (w_st w) (w_st w') id) → own_step drains ∅ ∅ w w'.
Proof.
  intros Hfs Hl1 Hl2 [Hwf Hi] Hmax Hid Hok w' Hedge.
  assert (∀ k, key_family k = Some FNode → k ≠ nodeKey id → w_map w' !! k = w_map w !! k) as Hother.
  { intros k Hf Hne. unfold w'. rewrite applied_map, apply_ops_app, apply_ops_cons.
    assert (¬ key_in fs k) by (unfold key_in; by rewrite Hf).
    rewrite (apply_ops_outside fs) by done. simpl. rewrite lookup_insert_ne by done.
    by rewrite (apply_ops_outside fs). }
  assert (node_at (w_st w') id n') as Hrow.
  { unfold node_at. fold (w_map w'). unfold w'. rewrite applied_map.
    apply (apply_ops_put fs); [done|]. unfold key_in. by rewrite family_nodeKey. }
  split_and!; [split_and!; [by apply any_env_applied| |right]|by intros ?|set_solver].
  - intros _ k e' x He' Hf Hx. destruct (decide (k = nodeKey id)) as [->|Hne].
    + unfold node_at in Hrow. rewrite He' in Hrow. simpl in Hrow. rewrite Hx in Hrow. simplify_eq.
      split; [congruence|done].
    + fold (w_map w') in He'. rewrite Hother in He' by done. by eapply Hi.
  - intros id2. destruct (decide (id2 = id)) as [->|Hne]; [by apply Hedge|].
    apply edge_same. apply Hother; [apply family_nodeKey|by intros ?%(inj nodeKey)].
Qed.

(** A node row read for an update. *)
Lemma wp_nodeWithRev id Q w :
  (∀ e w2, Q (Err e) ∅ w2) →
  (∀ w2 e n, settled drains ∅ w w2 → nodes_inv (w_st w2) → seen (nodeKey id) e (w_st w2) →
     e_val e = DNode n → node_ID n = id → drain_ok n → Q (Ok (n, e_mod e)) ∅ w2) →
  wp drains (nodeWithRev id) ∅ Q w.
Proof.
  intros HE HS. apply wp_bindM. apply (wp_raw_get_seen drains); [by intros; apply HE..|].
  intros w2 e Hw2 He Hseen. destruct (decode_doc (e_val e)) as [n|] eqn:Ed; [|apply HE].
  case_bool_decide; [|apply HE]. apply decode_doc_inv in Ed.
  assert (nodes_inv (w_st w2)) as Hi by (by destruct (settled_inv drains _ _ _ Hw2)).
  destruct (nodes_inv_at _ _ _ _ Hi He Ed). by apply HS.
Qed.

(** The compare-and-set of a row read earlier. *)
Lemma wp_cas_node_row id e n n' Q w :
  seen (nodeKey id) e (w_st w) → e_val e = DNode n → drain_ok n →
  keeps_drain n n' ∨ ends_drain n n' ∧ made CallReconcile → (∀ r w2, Q r ∅ w2) →
  wp drains (raw_txn [CmpMod (nodeKey id) (e_mod e)] [OpPut (nodeKey id) (DNode n')] []) ∅ Q w.
Proof.
  intros Hseen Hn Hok Hedge HQ. apply (wp_raw_txn drains); [by intros; apply HQ..|].
  intros w1 Hw1 Hc _ Hmax. exists ∅. split; [|by split; intros; apply HQ].
  apply andb_true_iff in Hc as [Hc _].
  assert (w_map w1 !! nodeKey id = Some e) as He by (by eapply (cas_lookup drains)).
  assert (node_at (w_st w1) id n) as Hat by (unfold node_at; fold (w_map w1); by rewrite He, <-Hn).
  destruct Hw1 as (_ & Hi & _). destruct (nodes_inv_at _ _ _ _ (proj2 Hi) He Hn) as [Hid _].
  eapply (own_step_node [] _ [] [] id n'); [set_solver|done|done|done|done|..].
  - by destruct Hedge as [(-> & _)|[(-> & _) _]].
  - destruct Hedge as [(_ & Hd & Hs)|[(_ & _ & _ & Hs & Hd) _]]; unfold drain_ok in *.
    + by rewrite Hd, Hs.
    + rewrite Hd, Hs. split; [done|by intros []].
  - intros Hat'. destruct Hedge as [?|[??]]; [by eapply edge_keep|by eapply edge_stuck].
Qed.

(** ** The writers that keep drains *)

Lemma wp_cas_node id e n n' Q w :
  seen (nodeKey id) e (w_st w) → e_val e = DNode n → drain_ok n → keeps_drain n n' →
  (∀ r w2, Q r ∅ w2) → wp drains (cas_node id (e_mod e) n') ∅ Q w.
Proof.
  intros ???? HQ. apply wp_bindM, wp_Marshal; [apply HQ|]. apply wp_bindM.
  eapply wp_cas_node_row; [done..|by left|]. intros [r|] w2; apply HQ.
Qed.

(** A status other than draining, for a node without a drain. *)
Lemma keeps_status n n' :
  drain_ok n → node_DrainTaskID n = None → node_ID n' = node_ID n → node_DrainTaskID n' = None →
  node_Status n' ≠ NodeStatusDraining → keeps_drain n n'.
Proof.
  intros Hok Hd Hid Hd' Hs. split_and!; [done|by rewrite Hd|]. split; [done|].
  intros Hs'%Hok. rewrite Hd in Hs'. by destruct Hs'.
Qed.

Lemma setNodeCordon_wp id s c w :
  s ≠ NodeStatusDraining → wp drains (setNodeCordon id s c) ∅ (λ _ _ _, True) w.
Proof.
  intros Hs. apply wp_bindM, wp_nodeWithRev; [done|]. intros w2 e n _ _ Hseen Hn Hid Hok.
  case_bool_decide as Hd; cbn [negb]; [|done].
  apply wp_bindM, (wp_now drains). intros w3 t Hw3. cbv zeta. apply wp_bindM, wp_Marshal; [done|].
  apply wp_bindM. eapply wp_cas_node_row; [by eapply (seen_settled drains)|done|done| |].
  - left. by apply keeps_status.
  - intros [r|] w4; [|done]. by destruct (tr_Succeeded r).
Qed.

Lemma SetNodeGatewayRole_wp id b w : wp drains (SetNodeGatewayRole id b) ∅ (λ _ _ _, True) w.
Proof.
  apply wp_bindM, wp_nodeWithRev; [done|]. intros w2 e n _ _ Hseen Hn Hid Hok.
  case_bool_decide; [done|]. apply wp_bindM, (wp_now drains). intros w3 t Hw3. cbv zeta.
  apply wp_bindM, wp_Marshal; [done|]. apply wp_bindM.
  eapply wp_cas_node_row; [by eapply (seen_settled drains)|done|done|by left|].
  intros [r|] w4; [|done]. by destruct (tr_Succeeded r).
Qed.

Lemma casNodeUpdate_wp id (f : Z → Node → Node) Q w :
  (∀ t n, keeps_drain n (f t n)) → (∀ r w2, Q r ∅ w2) →
  wp drains (casNodeUpdate id (λ n, t ← now; mret (f t n))) ∅ Q w.
Proof.
  intros Hf HQ. unfold casNodeUpdate. generalize 5%nat. intros k. revert w.
  induction k as [|k IH]; intros w; [apply HQ|]. cbn [cas_update_attempts].
  apply wp_bindM, wp_nodeWithRev; [by intros; apply HQ|]. intros w2 e n _ _ Hseen Hn Hid Hok.
  apply wp_bindM, wp_bindM, (wp_now drains). intros w3 t Hw3. apply wp_mret.
  apply wp_bindM, wp_Marshal; [apply HQ|]. apply wp_bindM.
  eapply wp_cas_node_row; [by eapply (seen_settled drains)|done|done|left; apply Hf|].
  intros [r|] w4; [|apply HQ]. destruct (tr_Succeeded r); [apply HQ|apply IH].
Qed.

Lemma wp_live_node id Q w :
  (∀ r w2, (∀ n rev, r ≠ Ok (Some (n, rev))) → Q r ∅ w2) →
  (∀ w2 e n, seen (nodeKey id) e (w_st w2) → e_val e = DNode n → drain_ok n →
     Q (Ok (Some (n, e_mod e))) ∅ w2) →
  wp drains (live_node_with_rev id) ∅ Q w.
Proof.
  intros HE HS. apply wp_bindM. unfold attempt. apply wp_bind, wp_nodeWithRev.
  - intros e w2. destruct e; (apply HE; congruence).
  - intros w2 e n _ _ Hseen Hn _ Hok. by apply HS.
Qed.

Lemma casNodeStatus_wp id s Q w :
  s ≠ NodeStatusDraining → (∀ r w2, Q r ∅ w2) → wp drains (casNodeStatus id s) ∅ Q w.
Proof.
  intros Hs HQ. apply wp_bindM, wp_live_node.
  - intros [[[n rev]|]|e] w2 Hr; [by destruct (Hr n rev)|apply HQ..].
  - intros w2 e n Hseen Hn Hok. case_bool_decide as Hd; cbn [negb]; [|apply HQ].
    apply wp_bindM, (wp_now drains). intros w3 t Hw3.
    eapply wp_cas_node; [by eapply (seen_settled drains)|done|done|by apply keeps_status|done].
Qed.

Lemma casGoneToUnreachable_wp id Q w :
  (∀ r w2, Q r ∅ w2) → wp drains (casGoneToUnreachable id) ∅ Q w.
Proof.
  intros HQ. apply wp_bindM, wp_live_node.
  - intros [[[n rev]|]|e] w2 Hr; [by destruct (Hr n rev)|apply HQ..].
  - intros w2 e n Hseen Hn Hok. case_bool_decide as Hs; cbn [negb]; [|apply HQ].
    apply wp_bindM, (wp_now drains). intros w3 t Hw3.
    eapply wp_cas_node; [by eapply (seen_settled drains)|done|done| |done].
    split_and!; [done|done|]. simpl. by rewrite Hs.
Qed.

(** A sweep over the live nodes. *)
Lemma node_sweep_wp {S} (s : S) (body : Node → S → M S) w :
  (∀ n s (Q : result err S → gset resource → world → Prop) w,
     (∀ r w2, Q r ∅ w2) → wp drains (body n s) ∅ Q w) →
  wp drains (nodes ← liveNodes; for_each nodes s body) ∅ (λ _ _ _, True) w.
Proof.
  intros Hb. apply wp_bindM, wp_bindM, wp_bindM, (wp_raw_range drains). intros w2 _. split; [done|].
  do 2 apply wp_mret. apply (wp_for_each drains _ _ _ _ (λ _ _, True)); [done| |done].
  intros n s' w3 _ _. apply Hb. by intros [s''|e] w4.
Qed.

(** ** The beginning and the end of a drain *)

Lemma drains_frame fs : FNode ∉ fs → Frame drains fs.
Proof.
  intros Hfs. split; [|done]. intros w1 w2 _ Henv Hk.
  assert (∀ k, key_family k = Some FNode → w_map w2 !! k = w_map w1 !! k) as Hsame.
  { intros k Hf. apply Hk. unfold key_in. by rewrite Hf. }
  split_and!; [done| |right].
  - intros Hi k e n He Hf. apply Hi; [|done]. rewrite <-He. symmetry. by apply Hsame.
  - intros id2. apply edge_same, Hsame, family_nodeKey.
Qed.

Definition start_families : list family := [FTask; FJob; FTaskCreatedBy].

Lemma StartNodeDrain_wp id params args w :
  wp drains (StartNodeDrain id params args) ∅ (λ _ _ _, True) w.
Proof.
  pose proof (drains_frame [FJobSeq] ltac:(set_solver)) as Hfr.
  apply wp_bindM, wp_nodeWithRev; [done|]. intros w2 e n _ _ Hseen Hn Hid Hok.
  destruct (drainable (node_Status n)) eqn:Hdr; cbn [negb]; [|done].
  apply wp_bindM, (wp_now drains). intros w3 t Hw3. cbv zeta. apply wp_bindM, wp_Marshal; [done|].
  apply (seen_settled drains _ _ _ _ _ Hw3) in Hseen.
  apply (wp_frame_bind_seen _ _ [FJobSeq] (job_put args)); [by eapply (settled_inv drains)
    |apply enqueueJobOp_writes|apply enqueueJobOp_returns|done|].
  intros [seq o] w4 _ Hw4 [payload Ho]. simpl in Ho. subst o. apply (seen_rtc _ _ _ _ Hw4) in Hseen.
  apply wp_bindM, (wp_now drains). intros w5 t' Hw5. apply (seen_settled drains _ _ _ _ _ Hw5) in Hseen.
  set (task := taskFromParams params seq t'). apply wp_bindM, wp_Marshal; [done|].
  apply wp_bindM, (wp_raw_txn drains); [done|by intros; simpl|].
  intros w6 Hw6 Hc _ Hmax. exists ∅. split; [|by split].
  set (n' := drain_started n (ctp_ID params) t) in *. change (node_ID n') with (node_ID n) in *. rewrite Hid in *.
  apply andb_true_iff in Hc as [Hc _].
  assert (w_map w6 !! nodeKey id = Some e) as He by (by eapply (cas_lookup drains)).
  destruct Hw6 as (_ & Hi & _). cbn [app].
  match goal with |- own_step _ _ _ _ (applied _ (_ :: ?l)) => set (rest := l) end.
  assert (Forall (op_in start_families) rest) as Hrest.
  { unfold rest, start_families. writes_solve. apply taskIndexOps_in. set_solver. }
  eapply (own_step_node start_families _ [] rest id n'); [set_solver|done|done|done|done|done|done|].
  intros Hat. eapply edge_start; [|exact Hat|].
  { unfold node_at. fold (w_map w6). by rewrite He, <-Hn. }
  split_and!; [done|done| |done|].
  - destruct (node_DrainTaskID n) as [u|] eqn:Hd; [|done].
    assert (node_Status n = NodeStatusDraining) as Hs by (apply Hok; by rewrite Hd). by rewrite Hs in Hdr.
  - exists (ctp_ID params), task, seq, (pending_job seq (ja_Kind args) payload).
    split_and!; [done| |done| |done]; unfold rest;
      match goal with |- context [es_map (w_st ?x)] => change (es_map (w_st x)) with (w_map x) end;
      rewrite applied_map.
    + apply (apply_ops_put [FJob; FTaskCreatedBy] _ [_]); [|key_in_solve].
      writes_solve. apply taskIndexOps_in. set_solver.
    + apply (apply_ops_put [FTaskCreatedBy] _ [_; _]); [|key_in_solve]. apply taskIndexOps_in. set_solver.
Qed.

Lemma ends_drain_ended n t n' : drain_ok n → drain_ended n t = Some n' → ends_drain n n'.
Proof.
  intros Hok. unfold drain_ended. case_bool_decide as Hs.
  - intros [= <-]. split_and!; [done|done|by apply Hok|done|done].
  - case_bool_decide as Hd; [done|]. intros _. destruct Hs. apply Hok.
    by destruct (node_DrainTaskID n) as [u|]; [exists u|].
Qed.

Lemma FinishNodeDrain_wp id task status result w :
  made (CallFinish id task) →
  wp drains (FinishNodeDrain id task status result) ∅ (λ _ _ _, True) w.
Proof.
  intros Hmade. pose proof (drains_frame [] ltac:(set_solver)) as Hfr0.
  pose proof (drains_frame [FTask; FDrainCancel] ltac:(set_solver)) as Hfr.
  apply wp_bindM, wp_nodeWithRev; [done|]. intros w2 e n Hw2 _ Hseen Hn Hid Hok.
  apply (wp_frame_bind_seen _ _ [] (λ _, True)); [by eapply (settled_inv drains)
    |apply TaskByID_writes|by apply returns_any|done|].
  intros tk w3 _ Hw3 _. apply (seen_rtc _ _ _ _ Hw3) in Hseen.
  destruct (isTerminalTaskStatus (task_Status tk)); [done|].
  apply wp_bindM, (wp_now drains). intros w4 t Hw4. apply (seen_settled drains _ _ _ _ _ Hw4) in Hseen.
  cbv zeta. apply wp_bindM, wp_Marshal; [done|].
  destruct (drain_ended n t) as [n'|] eqn:En.
  2: { apply wp_bindM, wp_mret. eapply wp_mono; [|apply (wp_frame drains [FTask; FDrainCancel])]; [done|].
       writes_solve. }
  apply ends_drain_ended in En; [|done]. pose proof En as (Hid' & _ & _ & Hs' & Hd').
  apply wp_bindM, wp_bindM, wp_Marshal; [done|]. apply wp_mret. rewrite Hid', Hid.
  apply wp_bindM, (wp_raw_txn drains); [done|by intros; simpl|].
  intros w6 Hw6 Hc _ Hmax. exists ∅. split; [|by split].
  apply andb_true_iff in Hc as [Hc _].
  assert (w_map w6 !! nodeKey id = Some e) as He by (by eapply (cas_lookup drains)).
  destruct Hw6 as (_ & Hi & _).
  eapply (own_step_node [FTask; FDrainCancel] _ _ [] id n'); [set_solver| |done|done|done|congruence| |].
  - writes_solve.
  - unfold drain_ok. rewrite Hs', Hd'. split; [done|by intros []].
  - intros Hat. eapply edge_finish; [done| |exact Hat|done]. unfold node_at. fold (w_map w6). by rewrite He, <-Hn.
Qed.

Lemma cordonStuckDrain_wp id Q w : made CallReconcile → (∀ r w2, Q r ∅ w2) → wp drains (cordonStuckDrain id) ∅ Q w.
Proof.
  intros Hmade HQ. apply wp_bindM. unfold attempt. apply wp_bind, wp_nodeWithRev; [intros e w2; apply HQ|].
  intros w2 e n _ _ Hseen Hn Hid Hok. cbn beta iota.
  enough (wp drains (if negb (bool_decide (node_Status n = NodeStatusDraining)) then mret false
    else t ← now; val ← Marshal (stuck_drain_cordoned n t);
      resp ← raw_txn [CmpMod (nodeKey (node_ID n)) (e_mod e)] [OpPut (nodeKey (node_ID n)) val] [];
      mret (tr_Succeeded resp)) ∅ Q w2) as Hp by exact Hp.
  case_bool_decide as Hs; cbn [negb]; [|apply HQ].
  apply wp_bindM, (wp_now drains). intros w3 t Hw3. apply wp_bindM, wp_Marshal; [apply HQ|]. rewrite Hid.
  apply wp_bindM. eapply wp_cas_node_row; [by eapply (seen_settled drains)|done|done|right; split; [|done]|].
  - split_and!; [done|done|by apply Hok|done|done].
  - intros [r|] w4; apply HQ.
Qed.

Lemma ReconcileStuckDrain_wp r w :
  made CallReconcile → wp drains (ReconcileStuckDrain r) ∅ (λ _ _ _, True) w.
Proof.
  intros Hmade. pose proof (drains_frame [FTask] ltac:(set_solver)) as Hfr.
  apply wp_bind. eapply wp_mono; [|apply (wp_frame drains [FTask])].
  2: { unfold listNodesByStatus, liveNodes. writes_solve. }
  intros [nodes|e] O w2 ->; [|done]. generalize 0. revert w2.
  induction nodes as [|n nodes IH]; intros w2 k; [done|]. apply wp_bind.
  apply (wp_frame_bind drains [FTask]); [unfold drainStillLive, drainJobLive|done|].
  { writes_solve; auto using TaskByID_writes, jobWithRev_writes. }
  intros live w3. destruct live; [apply wp_mret, IH|].
  apply (wp_frame_bind drains [FTask]); [|done|].
  { destruct (node_DrainTaskID n); [|done]. unfold finalizeStuckDrainTask.
    writes_solve; auto using taskWithRev_writes. }
  intros _ w4. apply cordonStuckDrain_wp; [done|]. intros [b|e] w5; [apply IH|done].
Qed.

Lemma CreateNode_wp arg w :
  made (CallCreate (cnp_ID arg)) → cnp_Status arg ≠ NodeStatusDraining →
  wp drains (CreateNode arg) ∅ (λ _ _ _, True) w.
Proof.
  intros Hmade Hs. apply wp_bindM, (wp_now drains). intros w1 t _. cbv zeta. apply wp_bindM, wp_Marshal; [done|].
  apply wp_bindM, (wp_raw_txn drains); [done|by intros; simpl|].
  intros w2 (_ & Hi & _) _ _ Hmax. exists ∅. split; [|by split].
  apply (own_step_node [FNodeName] _ [_] [] (cnp_ID arg) (new_node arg t)); [set_solver|..|done|done|done| |].
  - apply Forall_singleton. simpl. key_in_solve.
  - done.
  - split; [done|]. by intros [].
  - intros Hat. by eapply edge_create.
Qed.

(** ** The system *)

(** The operations a process may start at any time. *)
Inductive node_op : thread → Prop :=
| no_CreateNode arg :
    made (CallCreate (cnp_ID arg)) → cnp_Status arg ≠ NodeStatusDraining →
    node_op (any_result (CreateNode arg))
| no_CordonNode id : node_op (any_result (CordonNode id))
| no_UncordonNode id : node_op (any_result (UncordonNode id))
| no_SetNodeGatewayRole id b : node_op (any_result (SetNodeGatewayRole id b))
| no_UpdateNodeHeartbeat arg : node_op (any_result (UpdateNodeHeartbeat arg))
| no_UpdateNodeMemoryPressure arg : node_op (any_result (UpdateNodeMemoryPressure arg))
| no_UpdateNodeSystemDiskPressure arg : node_op (any_result (UpdateNodeSystemDiskPressure arg))
| no_PromoteHealthyNodes t : node_op (any_result (PromoteHealthyNodes t))
| no_MarkNodesUnreachable t : node_op (any_result (MarkNodesUnreachable t))
| no_RewriteGoneNodesToUnreachable : node_op (any_result RewriteGoneNodesToUnreachable)
| no_StartNodeDrain id params args : node_op (any_result (StartNodeDrain id params args))
| no_FinishNodeDrain id task s r :
    made (CallFinish id task) → node_op (any_result (FinishNodeDrain id task s r))
| no_ReconcileStuckDrain r : made CallReconcile → node_op (any_result (ReconcileStuckDrain r))
| no_other {R} fs (p : prog R) : FNode ∉ fs → writes fs p → node_op (any_result p).

Lemma node_op_verified th : node_op th → verified drains th.
Proof.
  intros Hop w _. destruct Hop; cbn [any_result th_prog th_post].
  - by apply CreateNode_wp.
  - unfold CordonNode. by apply setNodeCordon_wp.
  - unfold UncordonNode. by apply setNodeCordon_wp.
  - apply SetNodeGatewayRole_wp.
  - apply wp_bindM, (casNodeUpdate_wp _ (heartbeat_row arg)); [done|by intros [] w2].
  - apply wp_bindM, (casNodeUpdate_wp _ (λ t n, n <| node_MemoryPressureSince := unp_PressureSince arg |>
      <| node_MemoryPressureCount := unp_PressureCount arg |> <| node_UpdatedAt := t |>)); [done|by intros [] w2].
  - apply wp_bindM, (casNodeUpdate_wp _ (λ t n, n <| node_SystemDiskPressureSince := unp_PressureSince arg |>
      <| node_SystemDiskPressureCount := unp_PressureCount arg |> <| node_UpdatedAt := t |>)); [done|by intros [] w2].
  - unfold PromoteHealthyNodes. apply node_sweep_wp. intros n rows Q w2 HQ. destruct (promotable t n); [|apply HQ].
    apply wp_bindM, casNodeStatus_wp; [done|]. intros [[c|]|e] w3; apply HQ.
  - unfold MarkNodesUnreachable. apply node_sweep_wp. intros n rows Q w2 HQ. destruct (demotable t n); [|apply HQ].
    apply wp_bindM, casNodeStatus_wp; [done|]. intros [[c|]|e] w3; apply HQ.
  - unfold RewriteGoneNodesToUnreachable. apply node_sweep_wp. intros n rows Q w2 HQ. case_bool_decide; [|apply HQ].
    apply wp_bindM, casGoneToUnreachable_wp. intros [[c|]|e] w3; apply HQ.
  - apply StartNodeDrain_wp.
  - by apply FinishNodeDrain_wp.
  - by apply ReconcileStuckDrain_wp.
  - pose proof (drains_frame fs ltac:(done)). eapply wp_mono; [|by apply (wp_frame drains fs)]. done.
Qed.

(** C13. The life of a drain: from a store whose node rows are consistent, every
    interleaving of node creates, cordons, uncordons, gateway-role toggles,
    heartbeats, pressure updates, the three health sweeps, the start and the
    finish of drains, the backstop, and programs that write no node rows, keeps a
    node draining exactly while it names a drain task.  Each step leaves a node's
    drain alone, begins it together with its task and pending job on a node that
    was ready or cordoned and had none, or ends it, back to cordoned, by a call
    that finishes a drain of that very node or by a backstop pass; a create
    writes a row without a drain under the id it was given.  A finish is not tied
    to the task the node names; node deletion and the removal of orphaned join
    rows are not among the operations. *)
Theorem drain_lifecycle w0 c c' :
  estate_wf (w_st w0) → nodes_inv (w_st w0) → rtc (cstep node_op) (w0, []) c → cstep node_op c c' →
  nodes_inv (w_st c.1) ∧ ∀ id, drain_edge (w_st c.1) (w_st c'.1) id.
Proof.
  intros Hwf Hn Hr Hs.
  destruct (pool_guar drains ltac:(by intros ?? (? & ? & _)) node_op w0 c node_op_verified)
    as [((_ & Hn') & _) Hg]; [done|done|]. split; [done|].
  destruct (Hg c' Hs) as (_ & _ & [E|He]); [|apply He]. intros id. apply edge_same. by rewrite E.
Qed.
End DrainProps.

(** ** Concrete runs *)
Module DrainRuns.
Import Concrete.

Definition node (s : NodeStatus) : Node :=
  (new_node (MkCreateNodeParams (id 60) "node" false "amd64" "" "" "" 0 0 s) 0)
    <| node_LastHeartbeatAt := Some 90 |>.
Definition start (s : NodeStatus) : world := stored_world [(nodeKey (id 60), DNode (node s))].

Lemma start_inv s : s ≠ NodeStatusDraining → nodes_inv (w_st (start s)).
Proof.
  intros Hs k e n [Hk _]%stored_lookup _ Hn. apply list_elem_of_singleton in Hk. rewrite Hn in Hk.
  injection Hk as -> ->. split; [done|]. split; [done|]. by intros [].
Qed.

Definition drain_params (n : N) : CreateTaskParams :=
  {| ctp_ID := id n; ctp_Type := "node.drain"; ctp_Status := TaskStatusPending;
     ctp_ResourceType := "node"; ctp_ResourceID := Some (id 60); ctp_Args := ""; ctp_MaxAttempts := 3;
     ctp_CreatedBy := None; ctp_IdempotencyUserID := None; ctp_IdempotencyKey := None;
     ctp_IdempotencyHash := "" |}.
Definition params : CreateTaskParams := drain_params 1.

(** A cordon reads the node before a drain starts and writes after it. *)
Definition racers : list thread :=
  [any_result (CordonNode (id 60));
   any_result (StartNodeDrain (id 60) params (MkJobArgs "node.drain" (Some "{}")))].
Definition drained : config := schedule 95 [0; 1; 1; 1; 1; 1; 1; 0]%nat (start NodeStatusReady, racers).
Definition cordoned : config := step_at 96 drained 0.

(** No drain is finished here. *)
Definition no_calls (c : drain_call) : Prop := False.

Lemma racers_ok : Forall (node_op no_calls) racers.
Proof. apply Forall_cons; split; [apply no_CordonNode|]. apply Forall_singleton, no_StartNodeDrain. Qed.

Lemma drain_lifecycle_witness :
  (e_val <$> w_map drained.1 !! nodeKey (id 60) =
     Some (DNode (drain_started (node NodeStatusReady) (id 1) 95))) ∧
  drain_edge no_calls (w_st drained.1) (w_st cordoned.1) (id 60).
Proof.
  split; [vm_compute; reflexivity|].
  apply (drain_lifecycle no_calls (start NodeStatusReady) drained cordoned).
  - apply stored_wf.
  - by apply start_inv.
  - etrans; [apply spawn_rtc, racers_ok|]. apply schedule_rtc.
  - apply step_at_cstep. by vm_compute.
Defined.

(** A cordon between the listing of a promotion sweep and its re-read. *)
Definition sweepers : list thread :=
  [any_result (PromoteHealthyNodes 50); any_result (CordonNode (id 60))].
Definition swept : config :=
  schedule 95 [0; 1; 1; 1; 0; 0; 0; 0]%nat (start NodeStatusUnreachable, sweepers).

(** The status sweeps trust their snapshot: a cordon that lands after the sweep
    listed the node and before it re-read the row is overwritten by the
    promotion. *)
Lemma promotion_overwrites_cordon :
  rtc (cstep (node_op no_calls)) (start NodeStatusUnreachable, []) swept ∧
  swept.2 !! 1%nat = Some (any_result (mret ((node NodeStatusCordoned)
    <| node_CordonedAt := Some 95 |> <| node_UpdatedAt := 95 |>) : M Node)) ∧
  ∃ n, node_at (w_st swept.1) (id 60) n ∧ node_Status n = NodeStatusReady ∧
    node_CordonedAt n = Some 95.
Proof.
  split_and!.
  - etrans; [apply spawn_rtc|apply schedule_rtc].
    apply Forall_cons; split; [apply no_PromoteHealthyNodes|]. apply Forall_singleton, no_CordonNode.
  - vm_compute. reflexivity.
  - eexists. split_and!; vm_compute; reflexivity.
Qed.

(** A node that is draining for task 2, while task 1 of an earlier drain of the
    node, which the backstop took away, is still running. *)
Definition drain_task (n : N) (s : TaskStatus) : Task :=
  (taskFromParams (drain_params n) (Z.of_N n) 80) <| task_Status := s |>.
Definition next_drain : estate :=
  stored [(nodeKey (id 60), DNode (drain_started (node NodeStatusReady) (id 2) 90));
    (taskKey (id 1), DTask (drain_task 1 TaskStatusRunning));
    (taskKey (id 2), DTask (drain_task 2 TaskStatusRunning))].

(** The finish of a drain does not ask whose drain the node is in: the late
    finish of the first drain ends the second one, whose task goes on. *)
Lemma late_finish_ends_next_drain :
  let st := run_state 95 supply (FinishNodeDrain (id 60) (id 1) TaskStatusSuccess "") next_drain 0 in
  run_result 95 supply (FinishNodeDrain (id 60) (id 1) TaskStatusSuccess "") next_drain 0 = Ok tt ∧
  (∃ n, node_at st (id 60) n ∧ node_Status n = NodeStatusCordoned ∧ node_DrainTaskID n = None) ∧
  e_val <$> es_map st !! taskKey (id 2) = Some (DTask (drain_task 2 TaskStatusRunning)).
Proof. split_and!; [vm_compute; reflexivity|eexists; split_and!; vm_compute; reflexivity|vm_compute; reflexivity]. Qed.
End DrainRuns.
