(* ===== verification/DeleteIntentProps.v ===== *)
(** * Delete intents close the create-during-delete window

    The create revision of an intent is a liveness token: while a transaction
    that compares it still commits, the intent has been there ever since it was
    set, and no create that compares its absence has committed.  The reaper only
    removes intents that are stale when it removes them. *)

From S2P Require Import Prelude Models Etcd Prog Keys Client Rules Footprint Instances DeleteIntent.
Local Open Scope Z_scope.

(** ** The token *)

Definition holds_token (k : string) (r : Z) (st : estate) : Prop :=
  ∃ e, es_map st !! k = Some e ∧ e_create e = r.

(** The token can never come back. *)
Definition token_lost (k : string) (r : Z) (st : estate) : Prop :=
  r ≤ es_rev st ∧ ∀ e, es_map st !! k = Some e → r < e_create e.

Lemma token_lost_step k r st st' : estep st st' → token_lost k r st → token_lost k r st'.
Proof.
  intros [Hrev Hk] [Hr Hl]. split; [lia|]. intros e' He'. destruct (Hk k) as [E|(Hlt & Hc)].
  - apply Hl. by rewrite <-E.
  - destruct (Hc e' He') as [_ [->|(e & He & ->)]]; [lia|by apply Hl].
Qed.

(** A token that was issued is held or lost. *)
Definition token_issued (k : string) (r : Z) (st : estate) : Prop :=
  0 < r ≤ es_rev st ∧ (holds_token k r st ∨ token_lost k r st).

Lemma token_issued_step k r st st' : estep st st' → token_issued k r st → token_issued k r st'.
Proof.
  intros Hs [Hr Ht]. pose proof Hs as [Hrev Hk]. split; [lia|].
  destruct Ht as [(e & He & Hc)|Hl]; [|right; by eapply token_lost_step].
  destruct (Hk k) as [E|(Hlt & Hc')]; [left; exists e; by rewrite E|].
  destruct (es_map st' !! k) as [e'|] eqn:He'; [|right; split; [lia|by intros ? ?; simplify_eq]].
  destruct (Hc' e' eq_refl) as [_ [E|(e0 & He0 & E)]].
  - right. split; [lia|]. intros e1 He1. assert (e1 = e') as -> by congruence. lia.
  - left. exists e'. split; [done|]. by simplify_eq.
Qed.

Section DeleteIntents.
Context `{Etcd, !EtcdLaws, !Libs}.

Lemma setDeleteIntent_wp key t w :
  wp (open_protocol (λ _ _, True)) (setDeleteIntent key t) ∅
    (λ r _ w', match r with Ok r => token_issued key r (w_st w') | Err _ => True end) w.
Proof.
  set (pr := open_protocol _). apply wp_bindM, (wp_raw_txn_get pr); [done|..].
  - intros w2 Hw2 Hc. cbn [tr_Succeeded tr_Responses forallb cmp_holds] in *.
    pose proof (settled_inv pr _ _ _ Hw2) as Hwf.
    destruct (w_map w2 !! key) as [e|] eqn:He; [|done]. apply wp_mret.
    destruct (proj2 Hwf key e He) as [Hr1 Hr2]. split; [lia|]. left. by exists e.
  - intros w1 Hw1 Hc _ Hmax. exists ∅.
    split; [by apply own_step_open; [apply any_env_applied|]|]. split; [done|].
    intros rs. cbn [tr_Succeeded tr_Revision]. apply wp_mret.
    destruct Hw1 as (_ & Hwf & _). apply andb_true_iff in Hc as [Hc _]. apply cmp_absent in Hc; [|done].
    assert (w_rev (applied w1 [OpPut key (rfc3339 t)]) = w_rev w1 + 1) as Hrev by done. rewrite Hrev.
    destruct Hwf as [Hrange _]. unfold w_rev in *. split; [lia|]. left. eexists.
    fold (w_map (applied w1 [OpPut key (rfc3339 t)])). rewrite applied_put, lookup_insert_eq.
    unfold w_map. by rewrite Hc.
Qed.

(** C14. The token of a delete is never zero, and it is live: whatever other programs
    do after the intent was set, if a transaction that compares the token would
    commit in some state, then in every state from the setting of the intent to
    that one the intent was there with this token, so that no transaction that
    compares its absence could commit. *)
Theorem delete_intent_continuous key t w evs w1 r w2 :
  estate_wf (w_st w) → open_run any_env w (setDeleteIntent key t) evs w1 (Ret (Ok r)) →
  rtc any_env w1 w2 → cmp_holds (w_map w2) (deleteIntentGuard key r) = true →
  r ≠ 0 ∧ ∀ w', rtc any_env w1 w' → rtc any_env w' w2 →
    holds_token key r (w_st w') ∧ cmp_holds (w_map w') (CmpCreate key 0) = false.
Proof.
  intros Hwf Hrun H12 Hg. set (pr := open_protocol (λ _ _, True)).
  set (Q := λ (r : result err Z) w', match r with Ok r => token_issued key r (w_st w') | Err _ => True end).
  destruct (open_guar pr (setDeleteIntent key t) Q w evs w1 (Ret (Ok r))) as [_ Htok];
    [by intros ?? []| |done|apply setDeleteIntent_wp|done|].
  { intros [r'|] wa wb _ [He _]; [|done]. by apply token_issued_step. }
  simpl in Htok. destruct Htok as [Hr Htok]. split; [lia|]. intros w' Hto Hfrom.
  assert (∀ wa wb, rtc any_env wa wb → token_issued key r (w_st wa) → token_issued key r (w_st wb)) as Hst.
  { intros wa wb. induction 1 as [|x y z [He _] _ IH]; [done|]. intros Hx. apply IH. by eapply token_issued_step. }
  assert (∀ wa wb, rtc any_env wa wb → token_lost key r (w_st wa) → token_lost key r (w_st wb)) as Hlo.
  { intros wa wb. induction 1 as [|x y z [He _] _ IH]; [done|]. intros Hx. apply IH. by eapply token_lost_step. }
  destruct (Hst w1 w' Hto) as [_ [Hh|Hl]]; [by split|..].
  - split; [done|]. destruct Hh as (e & He & Hc). simpl. unfold w_map. rewrite He. simpl.
    apply bool_decide_eq_false. lia.
  - exfalso. apply (Hlo w' w2 Hfrom) in Hl as [_ Hl]. apply bool_decide_eq_true in Hg. unfold w_map in Hg.
    destruct (es_map (w_st w2) !! key) as [e|] eqn:He; simpl in Hg; [|lia]. specialize (Hl e eq_refl). lia.
Qed.

(** ** The reaper *)

(** The step removes one intent, which is stale. *)
Definition reaps (cutoff : Z) (st st' : estate) : Prop :=
  ∃ k e, String.prefix deletingPrefix k = true ∧ es_map st !! k = Some e ∧
    intent_after (e_val e) cutoff = false ∧ es_map st' = delete k (es_map st).

Lemma reap_loop_wp cutoff items n w :
  Forall (λ kv, String.prefix deletingPrefix kv.1 = true ∧ seen kv.1 kv.2 (w_st w)) items →
  wp (open_protocol (reaps cutoff)) (reap_loop items cutoff n) ∅ (λ _ _ _, True) w.
Proof.
  revert n w. induction items as [|[k e] items IH]; intros n w Hall; [done|].
  inversion Hall as [|?? [Hp Hseen] Hrest]; subst. cbn [reap_loop].
  destruct (intent_after (e_val e) cutoff) eqn:Ha; [by apply IH|].
  assert (∀ w', rtc any_env w w' → Forall (λ kv, String.prefix deletingPrefix kv.1 = true ∧
    seen kv.1 kv.2 (w_st w')) items) as Hrest'.
  { intros w' Hw'. eapply Forall_impl; [exact Hrest|]. intros kv [? ?]. split; [done|]. by eapply seen_rtc. }
  set (pr := open_protocol _). apply wp_bind, (wp_raw_txn pr).
  - done.
  - intros w2 Hw2 _. apply IH. eapply Forall_impl; [exact Hrest|].
    intros kv [? ?]. split; [done|]. by eapply (seen_settled pr).
  - intros w1 Hw1 Hc _ Hmax. exists ∅. apply andb_true_iff in Hc as [Hc _].
    assert (w_map w1 !! k = Some e) as He by (by eapply (cas_lookup pr)).
    split; [|split; [done|]].
    + apply own_step_open; [by apply any_env_applied|]. exists k, e. split_and!; [done|done|done|].
      fold (w_map (applied w1 [OpDelete k])). by rewrite applied_map.
    + intros rev rs. apply IH. apply Hrest'. eapply rtc_r; [|by apply any_env_applied].
      destruct Hw1 as (Hr & _). eapply rtc_subrel; [|exact Hr]. by intros a b [? _].
Qed.

(** The reaper is safe: in any environment, each of its writes removes exactly
    one intent, whose timestamp is at or before the cutoff at that moment. *)
Theorem ReapStaleDeleteIntents_safe t staleAfter :
  steps_within (reaps (t - staleAfter)) (ReapStaleDeleteIntents t staleAfter).
Proof.
  apply steps_within_wp. intros w. set (pr := open_protocol _).
  apply wp_bind, (wp_raw_range pr). intros w2 Hw2. split; [done|].
  apply reap_loop_wp, Forall_forall. intros [k e] Hin. apply elem_of_scan in Hin as [Hk Hp].
  split; [done|]. apply seen_lookup; [|done]. by apply (settled_inv pr _ _ _ Hw2).
Qed.
End DeleteIntents.

(** ** Concrete runs *)
Module IntentRuns.
Import Concrete.

Definition key : string := nodeDeletingKey (id 1).
Definition setting := drive 10 5 empty_world (setDeleteIntent key (7 * 10 ^ 9)).

Lemma delete_intent_continuous_witness :
  setting.2 = Ret (Ok 1) ∧ holds_token key 1 (w_st setting.1.2).
Proof.
  assert (setting.2 = Ret (Ok 1)) as E by (vm_compute; reflexivity). split; [done|].
  destruct (delete_intent_continuous key (7 * 10 ^ 9) empty_world setting.1.1 setting.1.2 1 setting.1.2)
    as [_ Hall].
  - apply empty_store_wf.
  - rewrite <-E. apply drive_open_run.
  - reflexivity.
  - vm_compute. reflexivity.
  - by apply Hall.
Defined.

(** One stale and one fresh intent. *)
Definition intents : world :=
  stored_world [(key, DTime 100); (nodeDeletingKey (id 2), DTime 900)].
Definition reaping := drive 10 5 intents (ReapStaleDeleteIntents (1000 * 10 ^ 9) DefaultDeleteIntentStaleAfter).

Lemma ReapStaleDeleteIntents_safe_witness :
  reaping.2 = Ret (1, None) ∧ w_map reaping.1.2 !! key = None ∧
  Forall (λ s, w_st s.2 = w_st s.1 ∨
    reaps (1000 * 10 ^ 9 - DefaultDeleteIntentStaleAfter) (w_st s.1) (w_st s.2)) reaping.1.1.
Proof.
  split_and!; [vm_compute; reflexivity..|].
  eapply (ReapStaleDeleteIntents_safe (1000 * 10 ^ 9) DefaultDeleteIntentStaleAfter intents);
    [apply stored_wf|apply drive_open_run].
Defined.
End IntentRuns.
