(* ===== verification/IdempotencyProps.v ===== *)
(** * Requests with an idempotency key

    A request that succeeded is answered from its stored response for the life
    of the record, and one that failed leaves no record; the handler runs once.
    The settle of a request is not tied to the claim it made:
    [late_settle_answers_another_request]. *)

From S2P Require Import Prelude Models Etcd Prog Keys Client Rules Footprint Sequential Instances.
From S2P Require Import Idempotency.
Local Open Scope Z_scope.

(** ** Copied headers do not depend on the order of the loop *)
Section Headers.
Context (canonical : string → string).

Lemma header_add_comm k1 k2 h v1 v2 :
  canonical k1 ≠ canonical k2 →
  header_add canonical k1 (header_add canonical k2 h v2) v1 =
  header_add canonical k2 (header_add canonical k1 h v1) v2.
Proof.
  intros Hne. unfold header_add. rewrite !lookup_insert_ne by done. by apply insert_insert_ne.
Qed.

Lemma header_adds_comm k1 k2 h vs1 v2 :
  canonical k1 ≠ canonical k2 →
  foldl (header_add canonical k1) (header_add canonical k2 h v2) vs1 =
  header_add canonical k2 (foldl (header_add canonical k1) h vs1) v2.
Proof.
  intros Hne. revert h. induction vs1 as [|v1 vs1 IH]; intros h; [done|]. simpl.
  by rewrite header_add_comm, IH.
Qed.

Lemma copy_header_comm a b h :
  canonical a.1 ≠ canonical b.1 →
  copy_header canonical (copy_header canonical h a) b =
  copy_header canonical (copy_header canonical h b) a.
Proof.
  intros Hne. unfold copy_header. do 2 case_bool_decide; try done.
  revert h. induction (b.2) as [|v vs IH]; intros h; [done|]. simpl. by rewrite <-header_adds_comm, IH.
Qed.

Lemma copy_headers_perm l1 l2 dst :
  l1 ≡ₚ l2 → NoDup (map (λ kv, canonical kv.1) l1) →
  foldl (copy_header canonical) dst l1 = foldl (copy_header canonical) dst l2.
Proof.
  intros Hp. revert dst. induction Hp as [|a l1 l2 Hp IH|a b l|l1 l2 l3 Hp1 IH1 Hp2 IH2]; intros dst Hnd.
  - done.
  - apply NoDup_cons in Hnd as [_ Hnd]. simpl. by apply IH.
  - simpl. rewrite copy_header_comm; [done|]. apply NoDup_cons in Hnd as [Hnd _]. simpl in Hnd.
    intros E. apply Hnd. rewrite E. by left.
  - rewrite IH1 by done. apply IH2. by rewrite <-Hp1.
Qed.

(** No two names of a header have the same canonical form; a header that is only
    changed by the methods of [http.Header] has canonical names. *)
Definition canonically_distinct (h : header) : Prop :=
  NoDup (map (λ kv, canonical kv.1) (map_to_list h)).

(** A loop over a map visits each entry once. *)
Definition map_order (iter : header → list (string * list string)) : Prop :=
  ∀ h, iter h ≡ₚ map_to_list h.

Lemma end_to_end_order iter1 iter2 dst h :
  map_order iter1 → map_order iter2 → canonically_distinct h →
  end_to_end canonical iter1 dst h = end_to_end canonical iter2 dst h.
Proof.
  intros H1 H2 Hd. apply copy_headers_perm; [by rewrite (H1 h), (H2 h)|]. by rewrite (H1 h).
Qed.
End Headers.

(** ** Replays *)
Section Replay.
Context `{Etcd, !EtcdLaws, !Libs}.
Context (sha256 : bytes → bytes) (canonical : string → string)
        (marshal_header : header → option bytes) (unmarshal_header : bytes → option header).

Abbreviation Idempotency next iter :=
  (Idempotency sha256 canonical marshal_header unmarshal_header next iter).

(** A request that the middleware handles. *)
Definition keyed (r : request_in) (user : uuid) (body : bytes) : Prop :=
  isMutatingMethod (rq_Method r) = true ∧ rq_Key r ≠ "" ∧
  (String.length (rq_Key r) ≤ IdempotencyKeyMaxLength)%nat ∧
  rq_User r = Some user ∧ rq_Body r = Some body.

Lemma Idempotency_keyed next iter dst r user body :
  keyed r user body →
  Idempotency next iter dst r =
    prog_bind (λ a, match a with
      | Err _ => Ret (WroteError 500 "internal")
      | Ok (row, actionReplay) => Ret (Wrote (replayCachedResponse canonical unmarshal_header iter dst row))
      | Ok (_, actionMismatch) => Ret (WroteError 409 "idempotency_key_mismatch")
      | Ok (_, actionInFlight) => Ret (WroteError 409 "conflict")
      | Ok (_, actionProceed) =>
        prog_bind (λ calls,
          let rec := record calls in
          prog_bind (λ _, Ret (Wrote (flush canonical iter dst rec)))
            (finalizeKey marshal_header user (rq_Key r) rec))
          (next (Some (MkIdempotencyDescriptor (rq_Key r) (sha256 body))) r)
      end) (acquireKey (rq_Key r) user (rq_Method r) (rq_Path r) (sha256 body)).
Proof.
  intros (Hm & Hk & Hl & Hu & Hb). unfold Idempotency.Idempotency.
  rewrite Hm, bool_decide_eq_false_2 by done. apply Nat.ltb_ge in Hl. by rewrite Hl, Hu, Hb.
Qed.

Lemma run_GetIdempotencyKey clock supply user key st n :
  run clock supply (GetIdempotencyKey user key) st n =
    (match es_map st !! idempotencyKeyKey user key with
     | None => Err ErrNotFound
     | Some e => match decode_doc (e_val e) with Some row => Ok row | None => Err ErrDecode end
     end, st, n).
Proof.
  unfold GetIdempotencyKey. rewrite run_bindM, run_GetJSON.
  destruct (es_map st !! _) as [e|]; [|done]. by destruct (decode_doc (e_val e)).
Qed.

(** A row that has not expired settles the request. *)
Lemma acquireKey_live clock supply key user method path hash st n e row :
  es_map st !! idempotencyKeyKey user key = Some e → decode_doc (e_val e) = Some row →
  clock ≤ ik_ExpiresAt row →
  run clock supply (acquireKey key user method path hash) st n =
    (Ok (row, determineAction row user method path hash), st, n).
Proof.
  intros He Hd Hc. unfold acquireKey. rewrite run_bindM, run_attempt, run_GetIdempotencyKey. cbn [fst snd].
  rewrite He, Hd, run_bindM, run_now. apply Z.ltb_ge in Hc. by rewrite Hc.
Qed.

(** No row: the request claims the key. *)
Lemma acquireKey_fresh clock supply key user method path hash st n :
  let row := in_flight_row (MkClaimIdempotencyKeyParams key (Some user) method path hash
                              (clock + IdempotencyInFlightLease)) clock in
  es_map st !! idempotencyKeyKey user key = None → es_rev st < max_i64 → fits row →
  run clock supply (acquireKey key user method path hash) st n =
    (Ok (row, actionProceed), put_row (idempotencyKeyKey user key) (DIdempotencyKey row) st, n).
Proof.
  intros row Hk Hmax Hf. unfold acquireKey. rewrite run_bindM, run_attempt, run_GetIdempotencyKey. cbn [fst snd].
  rewrite Hk. unfold tryBegin. rewrite run_bindM, run_now, run_bindM, run_attempt.
  unfold BeginIdempotencyKey. cbn [idempotencyParamsKey cik_UserID cik_Key].
  rewrite run_bindM, run_mret, run_bindM, run_now, run_bindM, run_Marshal by done.
  rewrite run_bindM, run_put_txn; [done|done|vm_compute; lia|]. cbn [forallb cmp_holds].
  by rewrite Hk.
Qed.

(** What the settle writes for a response [rec]. *)
Definition settled_row (row : IdempotencyKey) (user : uuid) (rec : recorder) (hdr : bytes) (t : Z)
    : IdempotencyKey :=
  completed_row row (MkCompleteIdempotencyKeyParams (Some user) (Some (i32 (rec_statusCode rec))) hdr
                       (rec_body rec) (t + IdempotencyTTL) (ik_Key row)) t.

Definition success (rec : recorder) : bool :=
  (200 <=? rec_statusCode rec) && (rec_statusCode rec <? 300).

Lemma run_CompleteIdempotencyKey clock supply user arg st n e row :
  cip_UserID arg = Some user →
  es_map st !! idempotencyKeyKey user (cip_Key arg) = Some e → decode_doc (e_val e) = Some row →
  ik_State row = "in_flight" → es_rev st < max_i64 → fits (completed_row row arg clock) →
  run clock supply (CompleteIdempotencyKey arg) st n =
    (Ok tt, put_row (idempotencyKeyKey user (cip_Key arg))
              (DIdempotencyKey (completed_row row arg clock)) st, n).
Proof.
  intros Hu He Hd Hst Hmax Hf. unfold CompleteIdempotencyKey. rewrite Hu. unfold idempotencyParamsKey.
  rewrite run_bindM, run_mret, run_bindM, run_attempt, run_GetIdempotencyKey. cbn [fst snd].
  rewrite He, Hd, bool_decide_eq_true_2 by done. cbn [negb]. by rewrite run_bindM, run_now, run_PutJSON.
Qed.

Lemma run_DeleteIdempotencyKey clock supply user key st n e row :
  es_map st !! idempotencyKeyKey user key = Some e → decode_doc (e_val e) = Some row →
  ik_State row = "in_flight" → es_rev st < max_i64 →
  run clock supply (DeleteIdempotencyKey user key) st n =
    (Ok tt, EState (delete (idempotencyKeyKey user key) (es_map st)) (es_rev st + 1), n).
Proof.
  intros He Hd Hst Hmax. unfold DeleteIdempotencyKey.
  rewrite run_bindM, run_attempt, run_GetIdempotencyKey. cbn [fst snd].
  rewrite He, Hd, bool_decide_eq_true_2 by done. cbn [negb]. by rewrite run_bindM, (run_Delete _ _ _ e).
Qed.

Lemma finalizeKey_success clock supply user rec hdr st n e row :
  success rec = true → encodeHeaders marshal_header (rec_headers rec) = Some hdr →
  es_map st !! idempotencyKeyKey user (ik_Key row) = Some e → decode_doc (e_val e) = Some row →
  ik_State row = "in_flight" → es_rev st < max_i64 → fits (settled_row row user rec hdr clock) →
  run clock supply (finalizeKey marshal_header user (ik_Key row) rec) st n =
    (Ok tt, put_row (idempotencyKeyKey user (ik_Key row))
              (DIdempotencyKey (settled_row row user rec hdr clock)) st, n).
Proof.
  intros Hs Hh He Hd Hst Hmax Hf. unfold finalizeKey. fold (success rec). rewrite Hs, Hh.
  rewrite run_bindM, run_now, run_bindM, run_attempt. by rewrite (run_CompleteIdempotencyKey _ _ user _ _ _ e row).
Qed.

Lemma finalizeKey_failure clock supply user key rec st n e row :
  success rec = false →
  es_map st !! idempotencyKeyKey user key = Some e → decode_doc (e_val e) = Some row →
  ik_State row = "in_flight" → es_rev st < max_i64 →
  run clock supply (finalizeKey marshal_header user key rec) st n =
    (Ok tt, EState (delete (idempotencyKeyKey user key) (es_map st)) (es_rev st + 1), n).
Proof.
  intros Hs He Hd Hst Hmax. unfold finalizeKey. fold (success rec). rewrite Hs.
  by rewrite run_bindM, run_attempt, (run_DeleteIdempotencyKey _ _ _ _ _ _ e row).
Qed.

(** The claim of a first request. *)
Definition claim_row (r : request_in) (user : uuid) (body : bytes) (t : Z) : IdempotencyKey :=
  in_flight_row (MkClaimIdempotencyKeyParams (rq_Key r) (Some user) (rq_Method r) (rq_Path r)
                   (sha256 body) (t + IdempotencyInFlightLease)) t.

Definition idem_row (r : request_in) (user : uuid) : string := idempotencyKeyKey user (rq_Key r).

(** The store the handler of a first request finds. *)
Definition claimed_store (r : request_in) (user : uuid) (body : bytes) (t : Z) (st : estate) : estate :=
  put_row (idem_row r user) (DIdempotencyKey (claim_row r user body t)) st.

Definition descriptor (r : request_in) (body : bytes) : IdempotencyDescriptor :=
  MkIdempotencyDescriptor (rq_Key r) (sha256 body).

(** A handler that does not touch idempotency records. *)
Definition independent (next : option IdempotencyDescriptor → request_in → prog (list writer_call))
    : Prop := ∃ fs, (FIdempotencyKey ∉ fs) ∧ ∀ d r, writes fs (next d r).

Lemma Idempotency_first next iter dst r user body clock supply st n calls st1 n1 :
  keyed r user body → es_map st !! idem_row r user = None → es_rev st < max_i64 →
  fits (claim_row r user body clock) →
  run clock supply (next (Some (descriptor r body)) r) (claimed_store r user body clock st) n =
    (calls, st1, n1) →
  run clock supply (Idempotency next iter dst r) st n =
    (Wrote (flush canonical iter dst (record calls)),
     run_state clock supply (finalizeKey marshal_header user (rq_Key r) (record calls)) st1 n1,
     (run clock supply (finalizeKey marshal_header user (rq_Key r) (record calls)) st1 n1).2).
Proof.
  intros Hr Hk Hmax Hf Hrun. rewrite (Idempotency_keyed _ _ _ _ _ _ Hr), run_bind.
  rewrite acquireKey_fresh by done. fold (descriptor r body). rewrite run_bind.
  fold (claim_row r user body clock). fold (idem_row r user). fold (claimed_store r user body clock st).
  rewrite Hrun, run_bind. unfold run_state. by destruct (run _ _ (finalizeKey _ _ _ _) _ _) as [[]].
Qed.

Lemma independent_row next r user body t st clock supply d n :
  independent next →
  es_map (run_state clock supply (next d r) (claimed_store r user body t st) n) !! idem_row r user =
    Some (Entry (DIdempotencyKey (claim_row r user body t))
            (from_option e_create (es_rev st + 1) (es_map st !! idem_row r user)) (es_rev st + 1)).
Proof.
  intros (fs & Hfs & Hw). rewrite (run_writes fs); [|done|].
  - apply lookup_insert_eq.
  - unfold key_in, idem_row, key_family. by rewrite class_idempotencyKeyKey.
Qed.

Lemma determineAction_settled r user body rec hdr t method path hash :
  determineAction (settled_row (claim_row r user body t) user rec hdr t) user method path hash =
    if bool_decide (method = rq_Method r ∧ path = rq_Path r ∧ hash = sha256 body)
    then actionReplay else actionMismatch.
Proof.
  unfold determineAction. cbn -[bool_decide]. rewrite bool_decide_eq_true_2 by done. cbn -[bool_decide].
  repeat case_bool_decide; naive_solver.
Qed.

(** A stored response is replayed as it was first sent. *)
Lemma replay_settled iter' iter dst row user rec hdr t :
  map_order iter' → map_order iter → success rec = true →
  decodeHeaders unmarshal_header hdr = Some (rec_headers rec) →
  canonically_distinct canonical (rec_headers rec) →
  replayCachedResponse canonical unmarshal_header iter' dst (settled_row row user rec hdr t) =
    flush canonical iter dst rec.
Proof.
  intros Hi' Hi [H1'%Z.leb_le H2'%Z.ltb_lt]%andb_true_iff Hdec Hcan.
  unfold replayCachedResponse, flush. cbn. rewrite Hdec, (end_to_end_order _ iter' iter) by done.
  rewrite i32_id by (unfold in_i32, max_i32; lia). done.
Qed.

(** What the settle needs of a success: the headers of the response survive
    [encoding/json], its row is short enough to be stored. *)
Definition recordable (r : request_in) (user : uuid) (body : bytes) (t : Z) (rec : recorder) : Prop :=
  canonically_distinct canonical (rec_headers rec) ∧
  ∃ hdr, encodeHeaders marshal_header (rec_headers rec) = Some hdr ∧
    decodeHeaders unmarshal_header hdr = Some (rec_headers rec) ∧
    fits (settled_row (claim_row r user body t) user rec hdr t).

(** The record of the key after the settle. *)
Definition outcome_record (r : request_in) (user : uuid) (body : bytes) (t : Z) (rec : recorder) (e : option doc) : Prop :=
  if success rec
  then ∃ hdr, decodeHeaders unmarshal_header hdr = Some (rec_headers rec) ∧
    e = Some (DIdempotencyKey (settled_row (claim_row r user body t) user rec hdr t))
  else e = None.

Lemma finalizeKey_outcome clock supply r user body rec st n e :
  es_map st !! idem_row r user = Some e → e_val e = DIdempotencyKey (claim_row r user body clock) →
  es_rev st < max_i64 → (success rec = true → recordable r user body clock rec) →
  ∃ st2, run clock supply (finalizeKey marshal_header user (rq_Key r) rec) st n = (Ok tt, st2, n) ∧
    outcome_record r user body clock rec (e_val <$> es_map st2 !! idem_row r user) ∧
    delete (idem_row r user) (es_map st2) = delete (idem_row r user) (es_map st).
Proof.
  intros He Hv Hmax Hrec. unfold outcome_record. destruct (success rec) eqn:Hok.
  - destruct (Hrec eq_refl) as (_ & hdr & Henc & Hdec & Hf).
    eexists. split; [by apply (finalizeKey_success clock supply user rec hdr st n e (claim_row r user body clock)); rewrite ?Hv|].
    cbn [put_row es_map]. fold (idem_row r user). split; [|by rewrite delete_insert_eq].
    exists hdr. by rewrite lookup_insert_eq.
  - eexists. split; [by apply (finalizeKey_failure clock supply user (rq_Key r) rec st n e (claim_row r user body clock)); rewrite ?Hv|].
    cbn [es_map]. fold (idem_row r user). by rewrite lookup_delete_eq, delete_delete_eq.
Qed.

(** A later request with the key. *)
Lemma later_replay next' iter iter' dst' r r' user body body' rec hdr clock clock' supply' st' n' e :
  map_order iter → map_order iter' → keyed r' user body' → rq_Key r' = rq_Key r → success rec = true →
  decodeHeaders unmarshal_header hdr = Some (rec_headers rec) → canonically_distinct canonical (rec_headers rec) →
  es_map st' !! idem_row r user = Some e →
  e_val e = DIdempotencyKey (settled_row (claim_row r user body clock) user rec hdr clock) →
  clock' ≤ clock + IdempotencyTTL →
  run clock' supply' (Idempotency next' iter' dst' r') st' n' =
    (if bool_decide (rq_Method r' = rq_Method r ∧ rq_Path r' = rq_Path r ∧ sha256 body' = sha256 body)
     then Wrote (flush canonical iter dst' rec) else WroteError 409 "idempotency_key_mismatch", st', n').
Proof.
  intros Hi Hi' Hr' Hkey Hok Hdec Hcan He Hv Hclock.
  rewrite (Idempotency_keyed _ _ _ _ _ _ Hr'), run_bind, Hkey.
  erewrite acquireKey_live; [|exact He|by rewrite Hv|exact Hclock].
  rewrite determineAction_settled. case_bool_decide; [|done].
  cbn [Prog.run]. by rewrite (replay_settled _ iter) by done.
Qed.

Lemma later_retry next' iter' dst' r r' user body' clock' supply' st' n' :
  keyed r' user body' → rq_Key r' = rq_Key r → es_map st' !! idem_row r user = None →
  es_rev st' < max_i64 → fits (claim_row r' user body' clock') →
  run_result clock' supply' (Idempotency next' iter' dst' r') st' n' =
    Wrote (flush canonical iter' dst' (record
      (run_result clock' supply' (next' (Some (descriptor r' body')) r') (claimed_store r' user body' clock' st') n'))).
Proof.
  intros Hr' Hkey Hrow Hmax Hf. unfold run_result.
  destruct (run clock' supply' (next' _ _) _ _) as [[calls st1] n1] eqn:Hrun.
  rewrite (Idempotency_first _ _ _ _ _ _ _ _ _ _ _ _ _ Hr') with (4 := Hrun); try done.
  unfold idem_row in *. by rewrite Hkey.
Qed.

(** C17. A mutating request of a known user, with a key that has no record, runs its
    handler, on the store with its claim, and answers with what the handler wrote.  The
    handler may do anything but write idempotency records; the claim fits the store,
    etcd has revisions left, and nothing interferes with this request.  What comes next
    depends on the status of the answer.

    After a success (2xx) every request of the same user with the same key leaves
    the store alone and runs no handler, for 24 hours and as long as the record is
    the one the settle wrote: it gets the status, end-to-end headers and body of the
    first answer, added to whatever headers the layers around it have set, when its
    method, path and body hash are those of the first, and a 409 otherwise.  This
    takes headers with distinct canonical names that survive the JSON round trip,
    and a record that fits the store.

    After any other status the key is forgotten: the store is as the handler left
    it, without the claim, and the next request with the key, as long as no other has
    claimed it, runs its own handler and gets that handler's answer.

    A request that outlives its lease is not covered:
    [late_settle_answers_another_request] shows what happens to it. *)
Theorem Idempotency_replays next iter dst r user body clock supply st n calls st1 n1 :
  map_order iter → independent next → keyed r user body →
  es_map st !! idem_row r user = None → es_rev st < max_i64 → fits (claim_row r user body clock) →
  run clock supply (next (Some (descriptor r body)) r) (claimed_store r user body clock st) n =
    (calls, st1, n1) →
  es_rev st1 < max_i64 → (success (record calls) = true → recordable r user body clock (record calls)) →
  ∃ st2, run clock supply (Idempotency next iter dst r) st n =
    (Wrote (flush canonical iter dst (record calls)), st2, n1) ∧
    delete (idem_row r user) (es_map st2) = delete (idem_row r user) (es_map st1) ∧
    ∀ next' iter' dst' r' body' clock' supply' st' n',
      map_order iter' → keyed r' user body' → rq_Key r' = rq_Key r →
      es_map st' !! idem_row r user = es_map st2 !! idem_row r user →
      if success (record calls)
      then clock' ≤ clock + IdempotencyTTL →
        run clock' supply' (Idempotency next' iter' dst' r') st' n' =
          (if bool_decide (rq_Method r' = rq_Method r ∧ rq_Path r' = rq_Path r ∧ sha256 body' = sha256 body)
           then Wrote (flush canonical iter dst' (record calls))
           else WroteError 409 "idempotency_key_mismatch", st', n')
      else es_rev st' < max_i64 → fits (claim_row r' user body' clock') →
        run_result clock' supply' (Idempotency next' iter' dst' r') st' n' =
          Wrote (flush canonical iter' dst' (record
            (run_result clock' supply' (next' (Some (descriptor r' body')) r')
               (claimed_store r' user body' clock' st') n'))).
Proof.
  intros Hi Hind Hr Hk Hmax Hf Hrun Hmax1 Hrec.
  pose proof (independent_row next r user body clock st clock supply (Some (descriptor r body)) n Hind) as Hrow.
  unfold run_state in Hrow. rewrite Hrun in Hrow. cbn [fst snd] in Hrow.
  destruct (finalizeKey_outcome clock supply r user body (record calls) st1 n1 _ Hrow eq_refl Hmax1 Hrec)
    as (st2 & Hfin & Hout & Hdel).
  exists st2. split_and!; [|done|].
  { rewrite (Idempotency_first next iter dst r user body clock supply st n calls st1 n1) by done.
    unfold run_state. by rewrite Hfin. }
  intros next' iter' dst' r' body' clock' supply' st' n' Hi' Hr' Hkey Hst'.
  unfold outcome_record in Hout. rewrite <-Hst' in Hout. destruct (success (record calls)) eqn:Hok.
  - intros Hclock. destruct Hout as (hdr & Hdec & (e & Hv & He)%fmap_Some), (Hrec eq_refl) as [Hcan _].
    by apply (later_replay _ _ _ _ _ _ user _ _ _ hdr clock _ _ _ _ e).
  - intros Hmax' Hf'. apply fmap_None in Hout. by apply later_retry with (r := r).
Qed.
End Replay.

(** ** Runs *)
Module IdempotencyRuns.
Import Concrete.

Definition hash (b : bytes) : bytes := b.
Definition same_name (s : string) : string := s.
Definition sent : header := {["Content-Type" := ["application/json"]; "Date" := ["today"]]}.
Definition marshal (h : header) : option bytes := if bool_decide (h = sent) then Some "sent" else None.
Definition unmarshal (b : bytes) : option header :=
  if bool_decide (b = "sent") then Some sent else if bool_decide (b = "{}") then Some ∅ else None.

(** A handler that reads the clock and echoes the body of the request; a body
    "bad" is refused. *)
Definition echo (d : option IdempotencyDescriptor) (r : request_in) : prog (list writer_call) :=
  Now (λ _, Ret (if bool_decide (rq_Body r = Some "bad") then [CallWriteHeader 400]
                 else [CallHeader (λ _, sent); CallWrite (default "" (rq_Body r))])).

Definition post (body : bytes) : request_in :=
  MkRequest "POST" "/v1/vms" "key" (Some (id 7)) (Some body).

Lemma echo_independent : independent echo.
Proof. exists []. split; [set_solver|]. by intros d r t. Qed.

Lemma post_keyed body : keyed (post body) (id 7) body.
Proof. repeat split; vm_compute; try lia; discriminate. Qed.

Lemma map_to_list_order : map_order map_to_list.
Proof. by intros h. Qed.

Abbreviation serve := (Idempotency hash same_name marshal unmarshal echo map_to_list ∅).

Lemma Idempotency_replays_witness :
  (∃ st, run 100 supply (serve (post "one")) empty_store 0 =
    (Wrote (MkResponse 200 {["Content-Type" := ["application/json"]]} "one"), st, 0%nat) ∧
    run 200 supply (serve (post "one")) st 0 =
      (Wrote (MkResponse 200 {["Content-Type" := ["application/json"]]} "one"), st, 0%nat) ∧
    run 200 supply (serve (post "two")) st 0 = (WroteError 409 "idempotency_key_mismatch", st, 0%nat)) ∧
  (∃ st, run 100 supply (serve (post "bad")) empty_store 0 = (Wrote (MkResponse 400 ∅ ""), st, 0%nat) ∧
    run_result 200 supply (serve (post "one")) (EState (es_map st) 5) 0 =
      Wrote (MkResponse 200 {["Content-Type" := ["application/json"]]} "one")).
Proof.
  split.
  - destruct (Idempotency_replays hash same_name marshal unmarshal echo map_to_list ∅ (post "one") (id 7) "one"
      100 supply empty_store 0 [CallHeader (λ _, sent); CallWrite "one"]
      (claimed_store hash (post "one") (id 7) "one" 100 empty_store) 0) as (st & Hfirst & _ & Hnext);
      [apply map_to_list_order|apply echo_independent|apply post_keyed|done|done|vm_compute; discriminate|done|done|..].
    + intros _. split; [vm_compute; apply NoDup_ListNoDup; repeat constructor; set_solver|].
      exists "sent". split_and!; [done|done|vm_compute; discriminate].
    + exists st. split_and!; [exact Hfirst|..].
      * rewrite (Hnext echo map_to_list ∅ (post "one") "one"); [done|apply map_to_list_order|apply post_keyed|done|done|vm_compute; discriminate].
      * rewrite (Hnext echo map_to_list ∅ (post "two") "two"); [done|apply map_to_list_order|apply post_keyed|done|done|vm_compute; discriminate].
  - destruct (Idempotency_replays hash same_name marshal unmarshal echo map_to_list ∅ (post "bad") (id 7) "bad"
      100 supply empty_store 0 [CallWriteHeader 400]
      (claimed_store hash (post "bad") (id 7) "bad" 100 empty_store) 0) as (st & Hfirst & _ & Hnext);
      [apply map_to_list_order|apply echo_independent|apply post_keyed|done|done|vm_compute; discriminate|done|done|done|].
    exists st. split; [exact Hfirst|].
    rewrite (Hnext echo map_to_list ∅ (post "one") "one"); [done|apply map_to_list_order|apply post_keyed|done|done|done|vm_compute; discriminate].
Defined.

(** Two requests with one key: the second reclaims it when the lease of the first
    has run out, and both settle. *)
Definition request (body : bytes) : thread := Thread outcome (λ _ _, True) (serve (post body)).
Definition first_claimed : config :=
  schedule 100 [0; 0; 0; 0; 0]%nat (empty_world, [request "one"; request "two"]).
Definition second_claimed : config :=
  schedule (101 + IdempotencyInFlightLease) [1; 1; 1; 1; 1; 1]%nat first_claimed.
Definition settled_both : config :=
  schedule (102 + IdempotencyInFlightLease) [0; 0; 0; 0; 0; 1; 1; 1; 1; 1]%nat second_claimed.

(** C38. The settle writes whatever claim it finds.  A request that outlives its lease
    loses the key to a request with another body; when it settles, its response
    becomes that of the other claim, whose owner's own settle then finds a
    completed row.  A retry of the second request is answered with the response
    of the first. *)
Lemma late_settle_answers_another_request :
  rtc (cstep (λ _, True)) (empty_world, []) settled_both ∧
  settled_both.2 =
    [Thread outcome (λ _ _, True) (Ret (Wrote (MkResponse 200 {["Content-Type" := ["application/json"]]} "one")));
     Thread outcome (λ _ _, True) (Ret (Wrote (MkResponse 200 {["Content-Type" := ["application/json"]]} "two")))] ∧
  run_result (103 + IdempotencyInFlightLease) supply (serve (post "two")) (w_st settled_both.1) 0 =
    Wrote (MkResponse 200 {["Content-Type" := ["application/json"]]} "one").
Proof.
  split_and!.
  - trans (empty_world, [request "one"; request "two"]); [apply spawn_rtc; by repeat constructor|].
    trans first_claimed; [apply schedule_rtc|]. trans second_claimed; apply schedule_rtc.
  - vm_compute. reflexivity.
  - vm_compute. reflexivity.
Qed.
End IdempotencyRuns.
