(* ===== verification/AccountProps.v ===== *)
(** * Accounts

    User names and emails stay unique whatever runs beside an operation, as long
    as nothing else writes the same user's row; and two lost updates, as
    interleavings of two operations on one row. *)

From S2P Require Import Prelude Models Etcd Prog Keys Client Rules Footprint Guards Accounts Instances.
Local Open Scope Z_scope.

(** ** Uniqueness *)
Section Accounts.
Context `{Etcd, !EtcdLaws, !Libs, !LibsLaws}.

Definition user_at (st : estate) (id : uuid) (u : User) : Prop :=
  e_val <$> es_map st !! userKey id = Some (DUser u).

Definition guarded (st : estate) (id : uuid) (u : User) : Prop :=
  user_DeletedAt u = None →
  guards st (userUsernameGuard (user_Username u)) id ∧
  (user_Email u ≠ "" → guards st (userEmailGuard (user_Email u)) id).

(** Every row is under its own id, and the guards of a live user are its own. *)
Definition account_inv (st : estate) : Prop :=
  ∀ id u, user_at st id u → user_ID u = id ∧ guarded st id u.

Lemma account_names_unique st id1 id2 u1 u2 :
  account_inv st → user_at st id1 u1 → user_at st id2 u2 →
  user_DeletedAt u1 = None → user_DeletedAt u2 = None →
  user_Username u1 = user_Username u2 ∨
    (user_Email u1 ≠ "" ∧ user_Email u2 ≠ "" ∧ to_lower (user_Email u1) = to_lower (user_Email u2)) →
  id1 = id2.
Proof.
  intros Hi Hu1 Hu2 L1 L2. destruct (Hi _ _ Hu1) as [_ G1], (Hi _ _ Hu2) as [_ G2].
  destruct (G1 L1) as [N1 E1], (G2 L2) as [N2 E2].
  intros [E|(Hne1 & Hne2 & E)].
  - rewrite E in N1. by eapply guards_inj.
  - specialize (E1 Hne1). specialize (E2 Hne2). unfold userEmailGuard in E1, E2. rewrite E in E1. by eapply guards_inj.
Qed.

(** *** Steps on one user *)

(** The environment keeps the invariant and leaves the row of [id] alone; the
    operation keeps the invariant and leaves the other rows alone. *)
Definition others_step (id : uuid) (w w' : world) : Prop :=
  any_env w w' ∧ (account_inv (w_st w) → account_inv (w_st w')) ∧
  w_map w' !! userKey id = w_map w !! userKey id.

Definition user_step (id : uuid) (w w' : world) : Prop :=
  any_env w w' ∧ (account_inv (w_st w) → account_inv (w_st w')) ∧
  ∀ id', id' ≠ id → w_map w' !! userKey id' = w_map w !! userKey id'.

Definition solo (id : uuid) : protocol := {|
  pr_inv w := estate_wf (w_st w) ∧ account_inv (w_st w);
  pr_rely := others_step id;
  pr_guar := user_step id;
  pr_ownable _ _ := False
|}.

#[local] Instance solo_laws id : EtcdProtocol (solo id).
Proof.
  split; [split|..]; simpl.
  - intros w w' Hs. split; [by apply any_env_same|]. destruct Hs as (Hst & _). unfold w_map. by rewrite Hst.
  - intros w w' [Hwf Hi] ((He & _) & Hk & _). split; [by eapply estep_wf|auto].
  - intros w w' [Hwf Hi] ((He & _) & Hk & _). split; [by eapply estep_wf|auto].
  - done.
  - by intros w [].
  - by intros w w' [? _].
Qed.

Definition guard_families : list family := [FUserName; FUserEmail].

(** The keys an operation on the user may write: its row, a guard that is free
    or its own, and API tokens. *)
Definition own_key (w : world) (id : uuid) (k : string) : Prop :=
  k = userKey id ∨ key_in [FAPIToken] k ∨
  (key_in guard_families k ∧ (w_map w !! k = None ∨ guards (w_st w) k id)).

Definition own_op (w : world) (id : uuid) (o : op) : Prop :=
  match o with OpPut k _ | OpDelete k => own_key w id k | OpGet _ => True end.

Lemma own_op_lookup w id ops k :
  Forall (own_op w id) ops → w_map (applied w ops) !! k = w_map w !! k ∨ own_key w id k.
Proof.
  intros Hops. rewrite Forall_forall in Hops. rewrite applied_map.
  destruct (apply_ops_cases (w_rev w + 1) ops (w_map w) k) as [?|[(e & _ & Hin)|[_ Hin]]]; [by left|..];
    right; exact (Hops _ Hin).
Qed.

Lemma own_key_row w id id' : own_key w id (userKey id') → id' = id.
Proof.
  intros [E|[Hk|[Hk _]]]; [by apply (inj userKey)|..]; exfalso; revert Hk; unfold key_in, key_family;
    autorewrite with keys; set_solver.
Qed.

(** Another live user's guard is not among them. *)
Lemma own_key_guard w id id' k :
  guards (w_st w) k id' → key_in guard_families k → own_key w id k → id' = id.
Proof.
  intros Hg Hf [->|[Hk|[_ [Hn|Hg']]]].
  - exfalso. revert Hf. unfold key_in, key_family. autorewrite with keys. set_solver.
  - exfalso. revert Hf Hk. unfold key_in. destruct (key_family k); [set_solver|done].
  - exfalso. unfold guards in Hg. fold (w_map w) in Hg. by rewrite Hn in Hg.
  - by eapply guards_inj.
Qed.

Lemma own_key_other w id id' k ops :
  Forall (own_op w id) ops → id' ≠ id → key_in guard_families k →
  guards (w_st w) k id' → guards (w_st (applied w ops)) k id'.
Proof.
  intros Hops Hne Hf Hg. destruct (own_op_lookup w id ops k Hops) as [E|Hk].
  - unfold guards in *. fold (w_map (applied w ops)). rewrite E. exact Hg.
  - destruct Hne. by eapply own_key_guard.
Qed.

(** A transaction on one user. *)
Lemma own_step_solo id u' w ops :
  pr_inv (solo id) w → w_rev w < max_i64 → Forall (own_op w id) ops →
  user_ID u' = id → user_at (w_st (applied w ops)) id u' → guarded (w_st (applied w ops)) id u' →
  own_step (solo id) ∅ ∅ w (applied w ops).
Proof.
  intros [_ Hi] Hmax Hops Hid Hrow Hg.
  assert (∀ id', id' ≠ id → w_map (applied w ops) !! userKey id' = w_map w !! userKey id') as Hother.
  { intros id' Hne. destruct (own_op_lookup w id ops (userKey id') Hops) as [?|Hk]; [done|].
    destruct Hne. by eapply own_key_row. }
  split_and!; [|by intros ? []|set_solver]. split_and!; [by apply any_env_applied| |done].
  intros _ id' u Hu. destruct (decide (id' = id)) as [->|Hne].
  { unfold user_at in *. rewrite Hrow in Hu. by simplify_eq. }
  unfold user_at in Hu. fold (w_map (applied w ops)) in Hu. rewrite Hother in Hu by done.
  destruct (Hi id' u Hu) as [? Hgu]. split; [done|]. intros Hlive. destruct (Hgu Hlive) as [Hn He].
  split; [|intros Hne']; (eapply own_key_other; [done|done| |auto]); unfold key_in, key_family;
    autorewrite with keys; set_solver.
Qed.

(** *** The operations *)

Lemma solo_frame id : Frame (solo id) [].
Proof.
  assert (∀ k, ¬ key_in [] k) as Hno by (intros k; unfold key_in; destruct (key_family k); set_solver).
  split; [|done]. intros w w' [_ Hi] Henv Hk. split_and!; [done| |by intros; apply Hk].
  intros _ id' u Hu. unfold user_at in Hu. fold (w_map w') in Hu. rewrite Hk in Hu by done.
  destruct (Hi id' u Hu) as [? Hg]. split; [done|]. intros Hl. destruct (Hg Hl).
  unfold guards in *. fold (w_map w') (w_map w) in *. rewrite !Hk by done. done.
Qed.
#[local] Existing Instance solo_frame.

Definition safe_on (id : uuid) {R} (p : prog R) (w : world) : Prop := wp (solo id) p ∅ (λ _ _ _, True) w.

(** What the row of [id] says survives interference. *)
Lemma row_settled id O w w' : settled (solo id) O w w' → w_map w' !! userKey id = w_map w !! userKey id.
Proof.
  intros (w1 & (Hr & _ & _) & Hs). destruct Hs as (Hst & _).
  assert (w_map w' = w_map w1) as -> by (unfold w_map; by rewrite Hst). clear Hst.
  induction Hr as [|w w1 w2 [(_ & _ & E) _] _ IH]; [done|]. by rewrite IH.
Qed.

Lemma user_settled id O w w' u : settled (solo id) O w w' → user_at (w_st w) id u → user_at (w_st w') id u.
Proof. intros Hs%row_settled. unfold user_at. fold (w_map w) (w_map w'). by rewrite Hs. Qed.

Lemma user_reaches id O w w' u :
  reaches (solo id) O w w' → user_at (w_st w) id u → pr_inv (solo id) w' ∧ user_at (w_st w') id u.
Proof.
  intros Hr Hu. split; [by destruct Hr as (_ & ? & _)|]. by eapply user_settled; [apply reaches_settled|].
Qed.

Lemma wp_UserByID id Q w :
  (∀ w2 e, settled (solo id) ∅ w w2 → Q (Err e) ∅ w2) →
  (∀ w2 u, settled (solo id) ∅ w w2 → user_at (w_st w2) id u → user_DeletedAt u = None → Q (Ok u) ∅ w2) →
  wp (solo id) (UserByID id) ∅ Q w.
Proof.
  intros HE HS. apply wp_bindM, (wp_GetJSON (solo id)); [done|by intros; apply HE|].
  intros w2 e u Hw2 Hk He. case_bool_decide as Hl; [|by apply HE]. apply HS; [done| |done].
  unfold user_at. fold (w_map w2). rewrite Hk. simpl. by rewrite He.
Qed.

Lemma live_guarded id w u :
  pr_inv (solo id) w → user_at (w_st w) id u → user_DeletedAt u = None →
  user_ID u = id ∧ guards (w_st w) (userUsernameGuard (user_Username u)) id ∧
  (user_Email u ≠ "" → guards (w_st w) (userEmailGuard (user_Email u)) id).
Proof. intros [_ Hi] Hu Hl. destruct (Hi id u Hu) as [? Hg]. split; [done|auto]. Qed.

(** A put of the row that keeps what the guards say. *)
Lemma own_step_put_user id u u' w :
  pr_inv (solo id) w → w_rev w < max_i64 → user_at (w_st w) id u →
  user_ID u' = user_ID u → user_Username u' = user_Username u → user_Email u' = user_Email u →
  user_DeletedAt u' = user_DeletedAt u →
  own_step (solo id) ∅ ∅ w (applied w [OpPut (userKey id) (DUser u')]).
Proof.
  intros Hi Hmax Hu E1 E2 E3 E4. pose proof Hi as [_ Hinv]. destruct (Hinv id u Hu) as [Hid Hg].
  assert (∀ k, k ≠ userKey id → w_map (applied w [OpPut (userKey id) (DUser u')]) !! k = w_map w !! k) as Hk.
  { intros k Hne. by rewrite applied_put, lookup_insert_ne. }
  apply (own_step_solo id u'); [done|done|apply Forall_singleton; by left|congruence|..].
  - unfold user_at. fold (w_map (applied w [OpPut (userKey id) (DUser u')])). by rewrite applied_put, lookup_insert_eq.
  - intros Hl. rewrite E4 in Hl. destruct (Hg Hl) as [Hn He]. rewrite E2, E3. unfold guards in *.
    fold (w_map w) in *. fold (w_map (applied w [OpPut (userKey id) (DUser u')])).
    split; [rewrite Hk by key_neq; done|]. intros Hne. rewrite Hk by key_neq. auto.
Qed.

Lemma safe_TouchUserLastLogin id w : safe_on id (TouchUserLastLogin id) w.
Proof.
  apply wp_bindM, (wp_now (solo id)). intros w1 t _. apply wp_bindM, wp_bind.
  eapply (wp_mono (solo id) _ _ (λ _ _ _, True)); [by intros [u|e] O w2 _; [|destruct e]|].
  unfold casUserUpdate. generalize 5%nat. intros n. revert w1.
  induction n as [|n IH]; intros w1; [done|]. cbn [cas_user_attempts].
  apply wp_bindM, (wp_raw_get_seen (solo id)); [done|done|]. intros w2 e Hw2 Hk Hseen.
  destruct (decode_doc (e_val e)) as [u|] eqn:Ed; [|done]. apply decode_doc_inv in Ed.
  case_bool_decide as Hl; [|done]. simpl negb. cbv iota. apply wp_bindM, (wp_Marshal (solo id)); [done|].
  apply wp_bindM, (wp_raw_txn (solo id)); [done|by intros; apply IH|].
  intros w3 Hw3 Hc _ Hmax. exists ∅. split; [|done].
  assert (user_at (w_st w2) id u) as Hu by (unfold user_at; fold (w_map w2); rewrite Hk; simpl; by rewrite Ed).
  destruct (user_reaches id ∅ w2 w3 u Hw3 Hu) as [Hi3 Hu3]. by apply (own_step_put_user id u).
Qed.

Lemma email_guard_put_in (b : bool) e id :
  Forall (op_in [FUserEmail]) (if b then [OpPut (userEmailGuard e) (DStr (uuid_string id))] else []).
Proof. destruct b; [|done]. apply Forall_singleton. simpl. key_in_solve. Qed.

Lemma email_guard_delete_in (b : bool) e :
  Forall (op_in [FUserEmail]) (if b then [OpDelete (userEmailGuard e)] else []).
Proof. destruct b; [|done]. apply Forall_singleton. simpl. key_in_solve. Qed.

Lemma safe_CreateUser arg w : safe_on (cup_ID arg) (CreateUser arg) w.
Proof.
  apply wp_bindM, (wp_now (solo _)). intros w1 t _. apply wp_bindM, (wp_Marshal (solo _)); [done|].
  apply wp_bindM, (wp_raw_txn (solo _)); [done|..].
  { intros w2 _ _. eapply wp_mono; [|apply (wp_frame (solo _) [])]; [done|].
    unfold guard_taken. simpl tr_Succeeded. cbv iota. writes_solve. }
  intros w2 (_ & Hi & _) Hc _ Hmax. exists ∅. split; [|by split]. pose proof Hi as [Hwf _].
  apply andb_true_iff in Hc as [Hn Hc]. apply cmp_absent in Hn; [|done].
  change (user_ID (new_user arg t)) with (cup_ID arg) in *.
  change (user_Email (new_user arg t)) with (cup_Email arg) in *.
  change (user_Username (new_user arg t)) with (cup_Username arg) in *.
  pose proof (email_guard_put_in (negb (bool_decide (cup_Email arg = ""))) (cup_Email arg) (cup_ID arg)) as Hguard.
  apply (own_step_solo (cup_ID arg) (new_user arg t)); [done|done| |done|..].
  - constructor; [by left|]. constructor; [right; right; split; [key_in_solve|by left]|].
    destruct (negb _); [|done]. apply Forall_singleton. right; right. split; [key_in_solve|left].
    apply andb_true_iff in Hc as [Hc _]. by apply cmp_absent in Hc.
  - apply (applied_put_val w2 guard_families [] (_ :: _)); [|key_in_solve].
    constructor; [simpl; key_in_solve|]. eapply op_in_mono; [|exact Hguard]. set_solver.
  - intros _. split; [apply (applied_put_val w2 [FUserEmail] [_]); [done|key_in_solve]|].
    intros Hne. change (user_Email (new_user arg t)) with (cup_Email arg) in *.
    rewrite (bool_decide_eq_false_2 (cup_Email arg = "")) by done.
    apply (applied_put_val w2 [] [_; _] []); [done|unfold key_in; by destruct (key_family _); set_solver].
Qed.

Lemma safe_UpdateUser arg w : safe_on (uup_ID arg) (UpdateUser arg) w.
Proof.
  apply wp_bindM, wp_UserByID; [done|]. intros w1 u Hw1 Hu Hl.
  apply wp_bindM, (wp_now (solo _)). intros w2 t Hw2. apply wp_bindM, (wp_Marshal (solo _)); [done|].
  apply (user_settled _ _ _ _ _ Hw2) in Hu. clear w1 Hw1 Hw2. case_bool_decide as He.
  { unfold Put, capValue. apply wp_bindM. case_match; [done|]. apply wp_bindM, (wp_mret (solo _)), wp_bindM.
    apply (wp_raw_txn (solo _)); [done|done|]. intros w3 Hw3 _ _ Hmax. exists ∅. split; [|done].
    destruct (user_reaches _ _ _ _ _ Hw3 Hu) as [Hi3 Hu3]. by apply (own_step_put_user _ u). }
  apply wp_bindM, (wp_raw_txn (solo _)); [done|done|]. intros w3 Hw3 Hc _ Hmax. exists ∅. split; [|done].
  destruct (user_reaches _ _ _ _ _ Hw3 Hu) as [Hi3 Hu3]. pose proof Hi3 as [Hwf _].
  destruct (live_guarded _ _ _ Hi3 Hu3 Hl) as (Hid & Hn & Hg). set (id := uup_ID arg) in *.
  pose proof (email_guard_put_in (negb (bool_decide (uup_Email arg = ""))) (uup_Email arg) id) as Hput.
  pose proof (email_guard_delete_in (negb (bool_decide (user_Email u = ""))) (user_Email u)) as Hdel.
  assert (Forall (op_in [FUserEmail]) ((if negb (bool_decide (uup_Email arg = "")) then
     [OpPut (userEmailGuard (uup_Email arg)) (DStr (uuid_string id))] else []) ++
     (if negb (bool_decide (user_Email u = "")) then [OpDelete (userEmailGuard (user_Email u))] else []))) as Hrest
    by by apply Forall_app.
  apply (own_step_solo id (updated_user u arg t)); [done|done| |done|..].
  - constructor; [by left|]. apply Forall_app. split.
    + destruct (negb _); [|done]. apply Forall_singleton. right; right. split; [key_in_solve|left].
      apply andb_true_iff in Hc as [Hc _]. by apply cmp_absent in Hc.
    + destruct (decide (user_Email u = "")) as [E|E];
        [by rewrite (bool_decide_eq_true_2 _ E)|rewrite (bool_decide_eq_false_2 _ E)].
      apply Forall_singleton. right; right. split; [key_in_solve|right; auto].
  - apply (applied_put_val w3 [FUserEmail] []); [done|key_in_solve].
  - intros _. split.
    + unfold guards. rewrite (applied_outside w3 [FUser; FUserEmail]); [done| |key_in_solve].
      constructor; [simpl; key_in_solve|]. eapply op_in_mono; [|exact Hrest]. set_solver.
    + intros Hne. change (user_Email (updated_user u arg t)) with (uup_Email arg) in *.
      rewrite (bool_decide_eq_false_2 _ Hne) in *. apply andb_true_iff in Hc as [Hc _].
      apply cmp_absent in Hc; [|done]. unfold guards. rewrite applied_es_map. cbn [negb].
      change (?a :: [?b] ++ ?l) with ([a; b] ++ l). rewrite apply_ops_app, apply_ops_lookup_ne.
      * simpl. by rewrite lookup_insert_eq.
      * destruct (bool_decide (user_Email u = "")); apply not_elem_of_nil.
      * destruct (decide (user_Email u = "")) as [E|E]; [rewrite (bool_decide_eq_true_2 _ E); apply not_elem_of_nil|].
        rewrite (bool_decide_eq_false_2 _ E). intros Hin%list_elem_of_singleton. specialize (Hg E).
        unfold guards in Hg. by rewrite <-Hin, Hc in Hg.
Qed.

Lemma revokeUserAPITokenOps_in u t :
  returns (on_ok (Forall (op_in [FAPIToken]))) (revokeUserAPITokenOps u t).
Proof.
  unfold revokeUserAPITokenOps. apply returns_bindM, returns_any. intros items.
  apply returns_for_each; [done|]. intros kv ops _ Hops. unfold revoke_op.
  destruct (indexed_id kv.2) as [id|]; [|done]. apply returns_bindM, returns_any. intros [tok|e].
  - case_match; [done|]. apply returns_bindM, returns_any. intros v. apply Forall_app. split; [done|].
    apply Forall_singleton. simpl. key_in_solve.
  - by destruct e.
Qed.

Lemma revokeUserAPITokenOps_writes u t : writes [] (revokeUserAPITokenOps u t).
Proof. unfold revokeUserAPITokenOps, revoke_op, APITokenByID. writes_solve. Qed.

Lemma safe_DeleteUser id w : safe_on id (DeleteUser id) w.
Proof.
  apply wp_bindM, wp_UserByID; [done|]. intros w1 u Hw1 Hu Hl.
  apply wp_bindM, (wp_now (solo _)). intros w2 t Hw2. apply wp_bindM, (wp_Marshal (solo _)); [done|].
  assert (pr_inv (solo id) w2) as Hi2 by by eapply settled_inv.
  apply (user_settled _ _ _ _ _ Hw2) in Hu. clear w1 Hw1 Hw2. apply wp_bindM.
  eapply wp_mono; [|apply (wp_frame_keep (solo id) [] (λ w, user_at (w_st w) id u)
    (on_ok (Forall (op_in [FAPIToken]))) _ ∅ w2);
    [..|apply revokeUserAPITokenOps_writes|apply revokeUserAPITokenOps_in|done|done]].
  2: { intros w3 w4 _ (_ & _ & E). unfold user_at. fold (w_map w3) (w_map w4). by rewrite E. }
  2: { intros w3 w4 _ _ E. unfold user_at. fold (w_map w3) (w_map w4). rewrite E; [done|].
       unfold key_in. destruct (key_family _); set_solver. }
  2: set_solver.
  intros [ops|e] O w3 (-> & Hops & Hi3 & Hu3); [|done]. simpl in Hops.
  apply wp_bindM, (wp_raw_txn (solo _)); [done|done|]. intros w4 Hw4 _ _ Hmax. exists ∅. split; [|done].
  destruct (user_reaches _ _ _ _ _ Hw4 Hu3) as [Hi4 Hu4].
  destruct (live_guarded _ _ _ Hi4 Hu4 Hl) as (Hid & Hn & Hg).
  pose proof (email_guard_delete_in (negb (bool_decide (user_Email u = ""))) (user_Email u)) as Hdel.
  apply (own_step_solo id (u <| user_DeletedAt := Some t |>)); [done|done| |done|..|done].
  - constructor; [by left|]. constructor; [right; right; split; [key_in_solve|by right]|].
    apply Forall_app. split.
    + destruct (decide (user_Email u = "")) as [E|E];
        [by rewrite (bool_decide_eq_true_2 _ E)|rewrite (bool_decide_eq_false_2 _ E)].
      apply Forall_singleton. right; right. split; [key_in_solve|right; auto].
    + eapply Forall_impl; [exact Hops|]. intros [k v|k|k]; simpl; [..|done]; intros; by right; left.
  - apply (applied_put_val w4 (FAPIToken :: guard_families) [] (_ :: _)); [|key_in_solve].
    constructor; [simpl; key_in_solve|]. apply Forall_app. split; (eapply op_in_mono; [|done]); set_solver.
Qed.

(** The operations that write users. *)
Inductive user_operation (id : uuid) : ∀ {R}, prog R → Prop :=
| uo_CreateUser arg : cup_ID arg = id → user_operation id (CreateUser arg)
| uo_UpdateUser arg : uup_ID arg = id → user_operation id (UpdateUser arg)
| uo_DeleteUser : user_operation id (DeleteUser id)
| uo_TouchUserLastLogin : user_operation id (TouchUserLastLogin id).

Lemma user_operation_safe id {R} (p : prog R) w : user_operation id p → safe_on id p w.
Proof.
  intros [arg <-|arg <-| |].
  - apply safe_CreateUser.
  - apply safe_UpdateUser.
  - apply safe_DeleteUser.
  - apply safe_TouchUserLastLogin.
Qed.

(** C30. User names are unique.  Whatever else changes the store meanwhile, as long as
    it keeps the accounts consistent and leaves this user's row alone, every
    transaction of an operation on a user keeps them consistent, so no two live
    users ever share a username, or an email up to the case of its ASCII letters; and
    it leaves the rows of the other users alone. *)
Theorem user_operations_keep_names_unique id {R} (p p' : prog R) w evs w' :
  user_operation id p → estate_wf (w_st w) → account_inv (w_st w) →
  open_run (others_step id) w p evs w' p' →
  Forall (λ s, account_inv (w_st s.2) ∧
    ∀ id', id' ≠ id → w_map s.2 !! userKey id' = w_map s.1 !! userKey id') evs ∧
  ∀ id1 id2 u1 u2, user_at (w_st w') id1 u1 → user_at (w_st w') id2 u2 →
    user_DeletedAt u1 = None → user_DeletedAt u2 = None →
    user_Username u1 = user_Username u2 ∨
      (user_Email u1 ≠ "" ∧ user_Email u2 ≠ "" ∧ to_lower (user_Email u1) = to_lower (user_Email u2)) →
    id1 = id2.
Proof.
  intros Hop Hwf Hi Hrun.
  destruct (open_guar (solo id) p (λ _ _, True) w evs w' p') as [Hf _]; [by intros ? ? []|done|done| |done|].
  { by apply user_operation_safe. }
  destruct (open_run_inv (λ w, account_inv (w_st w)) (others_step id) w p evs w' p') as [Hi' Hall];
    [by intros w1 w2 (_ & ? & _)|done| |done|].
  { eapply Forall_impl; [exact Hf|]. by intros s (_ & ? & _). }
  split; [|by intros; eapply account_names_unique].
  rewrite Forall_forall in *. intros s Hs. split; [by apply Hall|]. by apply Hf.
Qed.
End Accounts.

Module AccountRuns.
Import Concrete.
Local Open Scope string_scope.

Definition op_thread {R} (p : prog R) : thread := Thread R (λ _ _, True) p.

Definition alice : User := MkUser (id 1) "alice" "" "hash" "Alice" "admin" None 0 0 None.
Definition token : ApiToken := MkApiToken (id 2) (id 1) "ci" "secret-hash" "otx_" [] None None None 0.
Definition start : world :=
  stored_world
    [(userKey (id 1), DUser alice); (userUsernameGuard "alice", DStr (uuid_string (id 1)));
     (apiTokenKey (id 2), DApiToken token);
     (apiTokenHashIndexKey "secret-hash", DStr (uuid_string (id 2)));
     (apiTokenUserIndexKey (id 1) (id 2), DStr (uuid_string (id 2)))].

(** A request with the token is being served while the token is revoked. *)
Definition touch : thread := op_thread (TouchAPIToken (id 2)).
Definition revoke : thread := op_thread (RevokeAPIToken (id 2)).
Definition token_revoked : config :=
  schedule 100 [0; 1; 1; 1]%nat (start, [touch; revoke]).
Definition token_back : config := schedule 101 [0; 0]%nat token_revoked.

(** The profile of a user is edited while the user is deleted. *)
Definition edit : thread :=
  op_thread (UpdateUser (MkUpdateUserParams "" "hash" "Alice B." "admin" (id 1))).
Definition delete : thread := op_thread (DeleteUser (id 1)).
Definition user_deleted : config :=
  schedule 100 [0; 1; 1; 1; 1; 1]%nat (start, [edit; delete]).
Definition user_back : config := schedule 101 [0; 0]%nat user_deleted.

(** A user with as many tokens as one transaction can revoke. *)
Definition many_tokens (n : nat) : estate :=
  stored ((userKey (id 1), DUser alice) :: (userUsernameGuard "alice", DStr (uuid_string (id 1))) ::
    (seq 10 n ≫= λ i,
      [(apiTokenKey (supply i), DApiToken (token <| at_ID := supply i |>));
       (apiTokenUserIndexKey (id 1) (supply i), DStr (uuid_string (supply i)))])).

(** A new user with the same name. *)
Definition create_again : M User := CreateUser (MkCreateUserParams (id 9) "alice" "" "other" "Other" "viewer").

(** The touch of an API token writes back the row it read.  A token that is
    revoked while a request with it is being served is valid again after
    [RevokeAPIToken] has returned. *)
Lemma touch_unrevokes_api_token :
  rtc (cstep (λ _, True)) (start, []) token_revoked ∧ rtc (cstep (λ _, True)) token_revoked token_back ∧
  token_revoked.2 !! 1%nat = Some (op_thread (Ret (Ok tt) : M unit)) ∧
  run_result 100 supply (APITokenByHash "secret-hash") (w_st token_revoked.1) 0 = Err ErrNotFound ∧
  run_result 200 supply (APITokenByHash "secret-hash") (w_st token_back.1) 0 =
    Ok (token <| at_LastUsedAt := Some 101 |>).
Proof.
  split_and!; [|apply schedule_rtc|vm_compute; reflexivity..].
  trans (start, [touch; revoke]); [apply spawn_rtc; by repeat constructor|apply schedule_rtc].
Qed.

(** An update of a user writes back the row it read.  A user that is deleted while
    their profile is edited is live again after [DeleteUser] has returned, and
    without the guard of their name, so that a second live user of that name can
    be created. *)
Lemma update_resurrects_user :
  rtc (cstep (λ _, True)) (start, []) user_deleted ∧ rtc (cstep (λ _, True)) user_deleted user_back ∧
  user_deleted.2 !! 1%nat = Some (op_thread (Ret (Ok tt) : M unit)) ∧
  run_result 100 supply (UserByID (id 1)) (w_st user_deleted.1) 0 = Err ErrNotFound ∧
  let st := run_state 200 supply create_again (w_st user_back.1) 0 in
  (user_Username <$> run_result 300 supply (UserByID (id 1)) st 0) = Ok "alice" ∧
  (user_Username <$> run_result 300 supply (UserByID (id 9)) st 0) = Ok "alice".
Proof.
  split_and!; [|apply schedule_rtc|vm_compute; reflexivity..|vm_compute; by split].
  trans (start, [edit; delete]); [apply spawn_rtc; by repeat constructor|apply schedule_rtc].
Qed.

(** The cascade of a user delete is one transaction: with 126 tokens it still
    fits, with one more etcd refuses it and the user stays. *)
Lemma delete_user_many_tokens :
  run_result 100 supply (DeleteUser (id 1)) (many_tokens 126) 0 = Ok tt ∧
  run 100 supply (DeleteUser (id 1)) (many_tokens 127) 0 = (Err ErrEtcd, many_tokens 127, 0%nat).
Proof. split; vm_compute; reflexivity. Qed.

Lemma accounts_start_inv : account_inv (w_st start).
Proof.
  intros uid u Hu. unfold user_at in Hu. destruct (es_map (w_st start) !! userKey uid) as [e|] eqn:Ek; [|done].
  injection Hu as Hu. apply stored_lookup in Ek as [Hin _]. rewrite Hu, !elem_of_cons in Hin.
  destruct Hin as [E|[E|[E|[E|[E|[]%elem_of_nil]]]]]; apply pair_equal_spec in E as [E Ev]; try discriminate Ev.
  apply (inj userKey) in E as ->. injection Ev as ->. split; [done|]. intros _. split; [vm_compute; reflexivity|done].
Qed.

(** An edit of the profile that takes an email. *)
Definition edited := drive 20 100 start (UpdateUser (MkUpdateUserParams "a@x" "hash" "Alice B." "admin" (id 1))).

Lemma user_operations_keep_names_unique_witness :
  edited.2 = Ret (Ok (alice <| user_Email := "a@x" |> <| user_DisplayName := "Alice B." |> <| user_UpdatedAt := 100 |>)) ∧
  Forall (λ s, account_inv (w_st s.2)) edited.1.1.
Proof.
  split; [vm_compute; reflexivity|].
  destruct (user_operations_keep_names_unique (id 1)
    (UpdateUser (MkUpdateUserParams "a@x" "hash" "Alice B." "admin" (id 1))) edited.2 start edited.1.1 edited.1.2)
    as [Hf _]; [by constructor|apply stored_wf|apply accounts_start_inv|apply drive_open_run|].
  eapply Forall_impl; [exact Hf|]. by intros s [? _].
Defined.
End AccountRuns.
