(* ===== verification/VMInvariant.v ===== *)
(** * The invariant of the VM rows

    A live VM holds the guard of its name; a live interface holds the guards of its
    MAC and of its address on its network, and only live interfaces are indexed
    under their VM.  The protocol lets anything that keeps this happen beside an
    operation, except writes to the keys [K] the operation relies on. *)

From S2P Require Import Prelude Models Etcd Prog Keys Client Rules Footprint Guards VMs.
Local Open Scope Z_scope.

Section VMInvariant.
Context `{Etcd, !EtcdLaws, !Libs, !LibsLaws}.

(** ** Rows *)

Definition vm_at (st : estate) (id : uuid) (v : VM) : Prop := e_val <$> es_map st !! vmKey id = Some (DVM v).
Definition nic_at (st : estate) (id : uuid) (n : VMNic) : Prop :=
  e_val <$> es_map st !! vmNicKey id = Some (DVMNic n).

Lemma nic_at_inj st id n1 n2 : nic_at st id n1 → nic_at st id n2 → n1 = n2.
Proof. unfold nic_at. intros ->. by intros [= ->]. Qed.

(** Every row is under its own id, and the name guard of a live VM is its own. *)
Definition vm_rows (st : estate) : Prop :=
  ∀ id v, vm_at st id v →
    vm_ID v = id ∧ (vm_DeletedAt v = None → guards st (vmNameGuard (vm_Name v)) id).

Definition nic_guarded (st : estate) (id : uuid) (n : VMNic) : Prop :=
  guards st (vmNicMACGuard (nic_NetworkID n) (nic_MacAddress n)) id ∧
  ∀ ip, nic_Ipv4Address n = Some ip → guards st (vmNicIPv4ReservationKey (nic_NetworkID n) ip) id.

Definition nic_rows (st : estate) : Prop :=
  ∀ id n, nic_at st id n → nic_DeletedAt n = None → nic_guarded st id n.

(** An entry of the index of interfaces by VM is that of a live interface. *)
Definition indexed (st : estate) (k : string) (d : doc) (id : uuid) (n : VMNic) : Prop :=
  k = vmNicVMIndexKey (nic_VmID n) id ∧ d = id_value id ∧ nic_at st id n ∧ nic_DeletedAt n = None.

Definition nic_index (st : estate) : Prop :=
  ∀ k e, key_in [FVMNicVM] k → es_map st !! k = Some e → ∃ id n, indexed st k (e_val e) id n.

Definition vm_inv (st : estate) : Prop := vm_rows st ∧ nic_rows st ∧ nic_index st.

(** What a transaction may do to a VM row: never back from the dead, never another
    identity, and never a second node. *)
Definition evolves (v v' : VM) : Prop :=
  vm_DeletedAt v' = None →
    vm_DeletedAt v = None ∧ vm_OwnerID v' = vm_OwnerID v ∧ vm_Name v' = vm_Name v ∧
    (vm_SchedulingStatus v = VMSchedulingScheduled →
      vm_SchedulingStatus v' = VMSchedulingScheduled ∧ vm_PinnedNodeID v' = vm_PinnedNodeID v).

Definition vm_step (st st' : estate) : Prop :=
  ∀ id v, vm_at st id v → ∃ v', vm_at st' id v' ∧ evolves v v'.

Lemma evolves_refl v : evolves v v.
Proof. by intros ?. Qed.

(** ** The consequences *)

Lemma vm_names_unique st id1 id2 v1 v2 :
  vm_inv st → vm_at st id1 v1 → vm_at st id2 v2 → vm_DeletedAt v1 = None → vm_DeletedAt v2 = None →
  to_lower (vm_Name v1) = to_lower (vm_Name v2) → id1 = id2.
Proof.
  intros (Hv & _ & _) A1 A2 L1 L2 E. destruct (Hv _ _ A1) as [_ G1], (Hv _ _ A2) as [_ G2].
  specialize (G1 L1). specialize (G2 L2). unfold vmNameGuard in *. rewrite E in G1. by eapply guards_inj.
Qed.

Lemma nic_addresses_unique st id1 id2 n1 n2 :
  vm_inv st → nic_at st id1 n1 → nic_at st id2 n2 → nic_DeletedAt n1 = None → nic_DeletedAt n2 = None →
  nic_NetworkID n1 = nic_NetworkID n2 →
  nic_MacAddress n1 = nic_MacAddress n2 ∨ (is_Some (nic_Ipv4Address n1) ∧ nic_Ipv4Address n1 = nic_Ipv4Address n2) →
  id1 = id2.
Proof.
  intros (_ & Hn & _) A1 A2 L1 L2 E. destruct (Hn _ _ A1 L1) as [M1 I1], (Hn _ _ A2 L2) as [M2 I2].
  intros [Em|[[ip E1] E2]].
  - rewrite E, Em in M1. by eapply guards_inj.
  - specialize (I1 ip E1). rewrite E2 in E1. specialize (I2 ip E1). rewrite E in I1. by eapply guards_inj.
Qed.

(** ** Kinds of keys *)

Definition vm_families : list family := [FVM; FVMName].
Definition nic_families : list family := [FVMNic; FVMNicVM; FVMNicMAC; FVMNicIPv4].

(** The rows and indexes the operations write that the invariant does not speak of. *)
Definition other_families : list family :=
  [FJobSeq; FJob; FTask; FTaskCreatedBy; FVMDisk; FVMDiskVM; FVMDiskPool; FVMPinned; FVMUnscheduled; FVMOwner;
   FVMFirmware; FVMRuntime; FVMRuntimeNode; FVMNicNetwork].

Definition same_on (fs : list family) (st st' : estate) : Prop :=
  ∀ k, key_in fs k → es_map st' !! k = es_map st !! k.

Lemma same_on_applied fs fs' w ops :
  (∀ f, f ∈ fs → f ∉ fs') → Forall (op_in fs') ops → same_on fs (w_st w) (w_st (applied w ops)).
Proof.
  intros Hd Hops k Hk. apply (applied_outside w fs' ops k); [done|]. unfold key_in in *.
  destruct (key_family k); [|done]. by apply Hd.
Qed.

Lemma vm_rows_same st st' : same_on vm_families st st' → vm_rows st → vm_rows st'.
Proof.
  intros Hs Hv id v. unfold vm_at, guards. rewrite Hs by key_in_solve. intros Hid. destruct (Hv id v Hid) as [? Hg].
  split; [done|]. intros Hl. rewrite Hs by key_in_solve. by apply Hg.
Qed.

Lemma vm_step_same st st' : same_on vm_families st st' → vm_step st st'.
Proof.
  intros Hs id v Hv. exists v. split; [|apply evolves_refl]. unfold vm_at. by rewrite Hs by key_in_solve.
Qed.

Lemma nic_guarded_same st st' id n : same_on nic_families st st' → nic_guarded st id n → nic_guarded st' id n.
Proof.
  intros Hs [Hm Hi]. unfold nic_guarded, guards in *. split; [by rewrite Hs by key_in_solve|].
  intros ip Hip. rewrite Hs by key_in_solve. by apply Hi.
Qed.

Lemma nic_same st st' :
  same_on nic_families st st' → nic_rows st ∧ nic_index st → nic_rows st' ∧ nic_index st'.
Proof.
  intros Hs [Hr Hi].
  assert (∀ id n, nic_at st' id n ↔ nic_at st id n) as Hat.
  { intros id n. unfold nic_at. by rewrite Hs by key_in_solve. }
  split.
  - intros id n Hn Hl. apply Hat in Hn. apply (nic_guarded_same st); [done|auto].
  - intros k e Hk He. rewrite Hs in He by (unfold key_in in *; destruct (key_family k); set_solver).
    destruct (Hi k e Hk He) as (id & n & E1 & E2 & Hn & Hl). exists id, n. split_and!; try done. by apply Hat.
Qed.

(** ** Transactions on a VM row *)

(** Beside the row, an operation may write what the invariant does not speak of,
    interfaces, and a name guard that is free or the VM's. *)
Definition vm_op (w : world) (id : uuid) (d : doc) (o : op) : Prop :=
  o = OpPut (vmKey id) d ∨ op_in (nic_families ++ other_families) o ∨
  match o with
  | OpPut k _ | OpDelete k => key_in [FVMName] k ∧ (es_map (w_st w) !! k = None ∨ guards (w_st w) k id)
  | OpGet _ => True
  end.

Lemma vm_op_row w id d o id' : vm_op w id d o → written o = Some (vmKey id') → id' = id.
Proof.
  intros [->|[Ho|Ho]] Hk.
  - apply (inj Some) in Hk. by apply (inj vmKey) in Hk.
  - exfalso. destruct o; simpl in *; [..|done]; apply (inj Some) in Hk as ->; revert Ho;
      unfold key_in, key_family; autorewrite with keys; set_solver.
  - exfalso. destruct o; simpl in *; [..|done]; apply (inj Some) in Hk as ->; destruct Ho as [Ho _]; revert Ho;
      unfold key_in, key_family; autorewrite with keys; set_solver.
Qed.

Lemma vm_op_other_row w ops id d id' :
  Forall (vm_op w id d) ops → id' ≠ id →
  es_map (w_st (applied w ops)) !! vmKey id' = es_map (w_st w) !! vmKey id'.
Proof.
  intros Hops Hne. rewrite Forall_forall in Hops.
  destruct (written_cases w ops (vmKey id')) as [?|(o & Hin & Hk)]; [done|].
  destruct Hne. by eapply vm_op_row; [apply Hops|].
Qed.

(** Another VM's name guard is left alone. *)
Lemma vm_op_other_guard w ops id d id' k :
  Forall (vm_op w id d) ops → id' ≠ id → key_in [FVMName] k →
  guards (w_st w) k id' → guards (w_st (applied w ops)) k id'.
Proof.
  intros Hops Hne Hf Hg. rewrite Forall_forall in Hops. unfold guards.
  destruct (written_cases w ops k) as [->|(o & Hin & Hk)]; [done|]. destruct Hne.
  destruct (Hops o Hin) as [->|[Ho|Ho]].
  - exfalso. apply (inj Some) in Hk as <-. revert Hf. unfold key_in, key_family. autorewrite with keys. set_solver.
  - exfalso. destruct o; simpl in *; [..|done]; apply (inj Some) in Hk as ->; revert Ho Hf;
      unfold key_in; destruct (key_family k); set_solver.
  - destruct o; simpl in *; [..|done]; apply (inj Some) in Hk as ->; destruct Ho as [_ [Ho|Ho]];
      [by apply guards_present in Hg|by eapply guards_inj|by apply guards_present in Hg|by eapply guards_inj].
Qed.

Lemma vm_rows_write w ops id v' :
  vm_rows (w_st w) → branch_valid ops = true → OpPut (vmKey id) (DVM v') ∈ ops →
  Forall (vm_op w id (DVM v')) ops → vm_ID v' = id →
  (vm_DeletedAt v' = None → guards (w_st (applied w ops)) (vmNameGuard (vm_Name v')) id) →
  (∀ v, vm_at (w_st w) id v → evolves v v') →
  vm_rows (w_st (applied w ops)) ∧ vm_step (w_st w) (w_st (applied w ops)).
Proof.
  intros Hv Hb Hin Hops Hid Hg Hev.
  assert (vm_at (w_st (applied w ops)) id v') as Hrow by by apply applied_put_in. split.
  - intros id' v Hat. destruct (decide (id' = id)) as [->|Hne].
    { unfold vm_at in *. rewrite Hrow in Hat. by simplify_eq. }
    unfold vm_at in Hat. rewrite (vm_op_other_row w ops id (DVM v')) in Hat by done.
    destruct (Hv id' v Hat) as [? Hgv]. split; [done|]. intros Hl.
    eapply vm_op_other_guard; [done|done|key_in_solve|auto].
  - intros id' v Hat. destruct (decide (id' = id)) as [->|Hne]; [eauto|].
    exists v. split; [|apply evolves_refl]. unfold vm_at in *. by rewrite (vm_op_other_row w ops id (DVM v')).
Qed.

(** ** Transactions on interfaces *)

(** An operation on the interfaces [S]: their rows, guards that are free or theirs,
    entries of the index, and what the invariant on interfaces does not speak of. *)
Definition nic_op (w : world) (S : uuid → Prop) (o : op) : Prop :=
  match o with
  | OpPut k _ | OpDelete k =>
    key_in (vm_families ++ other_families) k ∨ key_in [FVMNicVM] k ∨ (∃ id, S id ∧ k = vmNicKey id) ∨
    (key_in [FVMNicMAC; FVMNicIPv4] k ∧ (es_map (w_st w) !! k = None ∨ ∃ id, S id ∧ guards (w_st w) k id))
  | OpGet _ => True
  end.

Lemma nic_op_other_row w S ops id :
  Forall (nic_op w S) ops → ¬ S id →
  es_map (w_st (applied w ops)) !! vmNicKey id = es_map (w_st w) !! vmNicKey id.
Proof.
  intros Hops HS. rewrite Forall_forall in Hops.
  destruct (written_cases w ops (vmNicKey id)) as [?|(o & Hin & Hk)]; [done|]. exfalso.
  assert (nic_op w S o) as Ho by auto. unfold nic_op in Ho.
  destruct o; simpl in *; [..|done]; apply (inj Some) in Hk as ->;
    (destruct Ho as [Ho|[Ho|[(id' & HS' & Ho)|[Ho _]]]];
      [..|by apply (inj vmNicKey) in Ho as ->|]; revert Ho; unfold key_in, key_family; autorewrite with keys; set_solver).
Qed.

Lemma nic_op_other_guard w S ops id k :
  Forall (nic_op w S) ops → ¬ S id → key_in [FVMNicMAC; FVMNicIPv4] k →
  guards (w_st w) k id → guards (w_st (applied w ops)) k id.
Proof.
  intros Hops HS Hf Hg. rewrite Forall_forall in Hops. unfold guards.
  destruct (written_cases w ops k) as [->|(o & Hin & Hk)]; [done|]. exfalso.
  assert (nic_op w S o) as Ho by auto. unfold nic_op in Ho.
  assert (∀ id', k ≠ vmNicKey id') as Hne.
  { intros id' ->. revert Hf. unfold key_in, key_family. autorewrite with keys. set_solver. }
  destruct o; simpl in *; [..|done]; apply (inj Some) in Hk as ->;
    (destruct Ho as [Ho|[Ho|[(id' & HS' & Ho)|[_ [Ho|(id' & HS' & Ho)]]]]];
      [revert Ho Hf; unfold key_in; destruct (key_family k); set_solver
      |revert Ho Hf; unfold key_in; destruct (key_family k); set_solver
      |by destruct (Hne id')|by apply guards_present in Hg|]);
    by rewrite (guards_inj _ _ _ _ Hg Ho) in HS.
Qed.

Lemma nic_rows_write w S ops :
  (∀ id, S id ∨ ¬ S id) → nic_rows (w_st w) → Forall (nic_op w S) ops →
  (∀ id n, S id → nic_at (w_st (applied w ops)) id n → nic_DeletedAt n = None →
     nic_guarded (w_st (applied w ops)) id n) →
  nic_rows (w_st (applied w ops)).
Proof.
  intros Hdec Hr Hops HS id n Hn Hl. destruct (Hdec id) as [|Hid]; [auto|].
  unfold nic_at in Hn. rewrite (nic_op_other_row w S) in Hn by done. destruct (Hr id n Hn Hl) as [Hm Hi].
  split; [|intros ip Hip]; (eapply nic_op_other_guard; [done|done|key_in_solve|auto]).
Qed.

(** ** The protocol *)

(** Interference keeps the invariant and leaves the keys [K] alone. *)
Definition beside (K : string → Prop) (w w' : world) : Prop :=
  any_env w w' ∧ (vm_inv (w_st w) → vm_inv (w_st w')) ∧ ∀ k, K k → es_map (w_st w') !! k = es_map (w_st w) !! k.

Definition vm_protocol (K : string → Prop) : protocol := {|
  pr_inv w := estate_wf (w_st w) ∧ vm_inv (w_st w);
  pr_rely := beside K;
  pr_guar w w' := any_env w w' ∧ (vm_inv (w_st w) → vm_inv (w_st w')) ∧ vm_step (w_st w) (w_st w');
  pr_ownable _ _ := False
|}.

#[export] Instance vm_protocol_laws K : EtcdProtocol (vm_protocol K).
Proof.
  split; [split|..]; simpl.
  - intros w w' Hs. split; [by apply any_env_same|]. destruct Hs as (-> & _). split; [done|].
    by apply vm_step_same.
  - intros w w' [Hwf Hi] ((He & _) & Hk & _). split; [by eapply estep_wf|auto].
  - intros w w' [Hwf Hi] ((He & _) & Hk & _). split; [by eapply estep_wf|auto].
  - done.
  - by intros w [].
  - by intros w w' [? _].
Qed.

#[export] Instance vm_frame K : Frame (vm_protocol K) other_families.
Proof.
  split; [|done]. intros w w' [_ (Hv & Hn & Hi)] Henv Hk.
  assert (∀ fs, (∀ f, f ∈ fs → f ∉ other_families) → same_on fs (w_st w) (w_st w')) as Hs.
  { intros fs Hd k Hf. apply Hk. unfold key_in in *. destruct (key_family k); [|done]. by apply Hd. }
  assert (same_on vm_families (w_st w) (w_st w')) as Hvm by (apply Hs; unfold vm_families, other_families; set_solver).
  assert (same_on nic_families (w_st w) (w_st w')) as Hnic
    by (apply Hs; unfold nic_families, other_families; set_solver).
  split_and!; [done| |by apply vm_step_same]. intros _. split; [by eapply vm_rows_same|by eapply nic_same].
Qed.

Definition safe (K : string → Prop) {R} (p : prog R) (w : world) : Prop :=
  wp (vm_protocol K) p ∅ (λ _ _ _, True) w.

(** What neither interference nor a write of another kind undoes. *)
Definition kept (K : string → Prop) (P : world → Prop) : Prop :=
  ∀ w w', any_env w w' → (∀ k, K k → es_map (w_st w') !! k = es_map (w_st w) !! k) → P w → P w'.

Lemma kept_True K : kept K (λ _, True).
Proof. done. Qed.
Lemma kept_and K P Q : kept K P → kept K Q → kept K (λ w, P w ∧ Q w).
Proof. intros HP HQ w w' He Hk [? ?]. split; [by eapply HP|by eapply HQ]. Qed.
Lemma kept_seen K k e : kept K (λ w, seen k e (w_st w)).
Proof. intros w w' [He _] _. by apply seen_estep. Qed.
Lemma kept_keys K st : kept K (λ w, ∀ k, K k → es_map (w_st w) !! k = es_map st !! k).
Proof. intros w w' _ Hk HP k HK. rewrite Hk by done. auto. Qed.

Lemma kept_rely K P O w w' : kept K P → settled (vm_protocol K) O w w' → P w → P w'.
Proof.
  intros HP (w1 & (Hr & _ & _) & Hs) Hw. assert (P w1) as H1'.
  { clear Hs. induction Hr as [|a b c [(He & _ & Hk) _] _ IH]; [done|]. apply IH. by eapply HP. }
  eapply HP; [by apply any_env_same|intros; by destruct Hs as (-> & _)|done].
Qed.

Lemma kept_reaches K P O w w' :
  kept K P → reaches (vm_protocol K) O w w' → P w → pr_inv (vm_protocol K) w' ∧ P w'.
Proof.
  intros HP Hr Hw. split; [by destruct Hr as (_ & ? & _)|]. by eapply kept_rely; [|apply reaches_settled|].
Qed.

(** The effect of a transaction keeps the invariant. *)
Definition keeps (w : world) (ops : list op) : Prop :=
  vm_inv (w_st (applied w ops)) ∧ vm_step (w_st w) (w_st (applied w ops)).

Lemma other_keeps w ops : vm_inv (w_st w) → Forall (op_in other_families) ops → keeps w ops.
Proof.
  intros (Hv & Hn) Hops.
  assert (same_on vm_families (w_st w) (w_st (applied w ops))) as Hvm
    by (eapply same_on_applied; [|exact Hops]; unfold vm_families, other_families; set_solver).
  split; [|by apply vm_step_same]. split; [by eapply vm_rows_same|]. eapply nic_same; [|done].
  eapply same_on_applied; [|exact Hops]. unfold nic_families, other_families. set_solver.
Qed.

Section Safe.
Context (K : string → Prop) (HK : ∀ k, K k → ¬ key_in other_families k).

(** A step that writes nothing the invariant speaks of. *)
Lemma wp_kept_bind P {A B} (R : A → Prop) (f : A → M B) (m : M A) Q w :
  kept K P → writes other_families m → returns (on_ok R) m → pr_inv (vm_protocol K) w → P w →
  (∀ e w', Q (Err e) ∅ w') →
  (∀ a w', pr_inv (vm_protocol K) w' → P w' → R a → wp (vm_protocol K) (f a) ∅ Q w') →
  wp (vm_protocol K) (m ≫= f) ∅ Q w.
Proof.
  intros HP Hm HR Hi Hw HE Hf. apply wp_bindM. eapply wp_mono;
    [|apply (wp_frame_keep (vm_protocol K) other_families P (on_ok R) m ∅ w); try done].
  - intros [a|e] O w' (-> & Ha & Hi' & HP'); [by apply Hf|apply HE].
  - intros w1 w2 _ (He & _ & Hk). by apply HP.
  - intros w1 w2 _ He Hk. apply HP; [done|]. intros k Hk'. by apply Hk, HK.
Qed.

Lemma safe_bind P {A B} (R : A → Prop) (f : A → M B) (m : M A) w :
  kept K P → writes other_families m → returns (on_ok R) m → pr_inv (vm_protocol K) w → P w →
  (∀ a w', pr_inv (vm_protocol K) w' → P w' → R a → safe K (f a) w') → safe K (m ≫= f) w.
Proof. intros. by eapply (wp_kept_bind P R). Qed.

Lemma safe_bind_any P {A B} (f : A → M B) (m : M A) w :
  kept K P → writes other_families m → pr_inv (vm_protocol K) w → P w →
  (∀ a w', pr_inv (vm_protocol K) w' → P w' → safe K (f a) w') → safe K (m ≫= f) w.
Proof.
  intros HP Hm Hi Hw Hf. apply (safe_bind P (λ _, True)); [done|done|by apply returns_any|done|done|auto].
Qed.

Lemma safe_writes {R} (p : prog R) w : writes other_families p → safe K p w.
Proof. intros Hp. eapply wp_mono; [|by apply (wp_frame (vm_protocol K) other_families)]. done. Qed.

(** A live row, with the revision it was read at. *)
Lemma wp_vmWithRev P id Q w :
  kept K P → P w → (∀ e w', pr_inv (vm_protocol K) w' → P w' → Q (Err e) ∅ w') →
  (∀ e v w', pr_inv (vm_protocol K) w' → P w' → seen (vmKey id) e (w_st w') → e_val e = DVM v →
     vm_ID v = id → vm_DeletedAt v = None → Q (Ok (v, e_mod e)) ∅ w') →
  wp (vm_protocol K) (vmWithRev id) ∅ Q w.
Proof.
  intros HP Hw HE HS. apply wp_bindM, (wp_raw_get_seen (vm_protocol K)).
  1-2: intros w2 Hw2; intros; apply HE; [by eapply settled_inv|by eapply kept_rely].
  intros w2 e Hw2 Hk Hseen. assert (pr_inv (vm_protocol K) w2) as Hi by by eapply settled_inv.
  assert (P w2) as HP2 by by eapply kept_rely.
  destruct (decode_doc (e_val e)) as [v|] eqn:Ed; [|by apply HE]. apply decode_doc_inv in Ed.
  case_bool_decide as Hl; [|by apply HE]. apply (HS e v); try done.
  destruct Hi as [_ (Hv & _ & _)]. apply (Hv id v). unfold vm_at. fold (w_map w2). rewrite Hk. simpl. by rewrite Ed.
Qed.

Lemma own_step_keeps w ops : w_rev w < max_i64 → keeps w ops → own_step (vm_protocol K) ∅ ∅ w (applied w ops).
Proof.
  intros Hmax [Hi Hs]. split_and!; [|by intros ? []|set_solver]. split_and!; [by apply any_env_applied|done|done].
Qed.

Lemma keeps_inv w ops : pr_inv (vm_protocol K) w → w_rev w < max_i64 → keeps w ops → pr_inv (vm_protocol K) (applied w ops).
Proof. intros [Hwf _] Hmax [Hi _]. split; [|done]. eapply estep_wf; [by apply applied_estep|done]. Qed.

Lemma safe_raw_txn P {B} conds ops elses (f : txn_reply → M B) w :
  kept K P → P w → Forall (op_in other_families) elses →
  (∀ w1, pr_inv (vm_protocol K) w1 → P w1 → forallb (cmp_holds (w_map w1)) conds = true →
     branch_valid ops = true → keeps w1 ops) →
  (∀ r w', pr_inv (vm_protocol K) w' → safe K (f r) w') →
  safe K (raw_txn conds ops elses ≫= f) w.
Proof.
  intros HP Hw Helse Hkeep Hf. apply wp_bindM, (wp_raw_txn_else (vm_protocol K)); [done|].
  intros w1 b Hw1 Hc Hmax ops' Hb. destruct (kept_reaches K P ∅ w w1 HP Hw1 Hw) as [Hi1 HP1].
  assert (keeps w1 ops') as Hk.
  { subst ops'. destruct b; [by apply Hkeep|]. destruct Hi1. by apply other_keeps. }
  split_and!; [by apply own_step_keeps|done|]. intros rev rs. by apply Hf, keeps_inv.
Qed.
End Safe.
End VMInvariant.
