(* ===== verification/VMProps.v ===== *)
(** * VM operations

    Every VM operation keeps the invariant, whatever runs beside it: names and
    interface addresses stay unique, a deleted VM stays deleted, and a VM is bound
    to one node. *)

From S2P Require Import Prelude Models Etcd Prog Keys Client Rules Footprint Guards Jobs Tasks DeleteIntent VMs.
From S2P Require Import Footprints TaskProps VMInvariant.
Local Open Scope Z_scope.

Section VMProps.
Context `{Etcd, !EtcdLaws, !Libs, !LibsLaws}.

(** ** Writes of one live row under a compare of its revision *)

(** The row that was read, and a new one of the same VM. *)
Definition read_row (id : uuid) (e : entry) (v : VM) (w : world) : Prop := seen (vmKey id) e (w_st w) ∧ e_val e = DVM v.

Lemma kept_read_row K id e v : kept K (read_row id e v).
Proof. intros w w' He Hk [Hs Hv]. split; [|done]. by eapply kept_seen. Qed.

Lemma cas_row id e v w conds :
  read_row id e v w → CmpMod (vmKey id) (e_mod e) ∈ conds → forallb (cmp_holds (w_map w)) conds = true →
  vm_at (w_st w) id v.
Proof.
  intros [Hs Hv] Hin Hc. eapply forallb_in in Hc; [|done]. apply seen_cmp in Hs; [|done].
  unfold vm_at. rewrite Hs. simpl. by rewrite Hv.
Qed.

(** The new row is a change of the one that was read that leaves its identity alone. *)
Definition revised (id : uuid) (v v' : VM) : Prop :=
  vm_ID v' = id ∧ vm_Name v' = vm_Name v ∧ vm_DeletedAt v = None ∧ evolves v v'.

Lemma row_keeps_vms w ops id v v' :
  vm_rows (w_st w) → vm_at (w_st w) id v → revised id v v' → branch_valid ops = true →
  OpPut (vmKey id) (DVM v') ∈ ops →
  Forall (λ o, o = OpPut (vmKey id) (DVM v') ∨ op_in (nic_families ++ other_families) o) ops →
  vm_rows (w_st (applied w ops)) ∧ vm_step (w_st w) (w_st (applied w ops)).
Proof.
  intros Hv Hat (Hid & Hname & Hl & Hev) Hb Hin Hops. apply (vm_rows_write w ops id v'); try done.
  - eapply Forall_impl; [exact Hops|]. intros o [?|Ho]; [by left|]. right. by left.
  - intros _. rewrite Hname. apply guards_avoids; [|by apply (Hv id v)].
    eapply Forall_impl; [exact Hops|]. intros o [->|Ho]; [simpl; key_neq|].
    eapply op_in_avoid; [done|]. key_in_solve.
  - intros v0 Hv0. unfold vm_at in *. rewrite Hat in Hv0. by simplify_eq.
Qed.

Lemma row_keeps w ops id v v' :
  vm_inv (w_st w) → vm_at (w_st w) id v → revised id v v' → branch_valid ops = true →
  OpPut (vmKey id) (DVM v') ∈ ops →
  Forall (λ o, o = OpPut (vmKey id) (DVM v') ∨ op_in other_families o) ops → keeps w ops.
Proof.
  intros (Hv & Hn) Hat Hr Hb Hin Hops.
  destruct (row_keeps_vms w ops id v v') as [Hv' Hs]; try done.
  { eapply Forall_impl; [exact Hops|]. intros o [?|Ho]; [by left|]. right. eapply op_in_sub; [|done]. set_solver. }
  split; [|done]. split; [done|]. eapply nic_same; [|done].
  apply (same_on_applied _ (FVM :: other_families)); [unfold nic_families, other_families; set_solver|].
  eapply Forall_impl; [exact Hops|]. intros o [->|Ho]; [simpl; key_in_solve|]. eapply op_in_sub; [|done]. set_solver.
Qed.

Lemma finalizedTaskValue_writes fin : writes other_families (finalizedTaskValue fin).
Proof. unfold finalizedTaskValue, TaskByID. writes_solve. Qed.

Lemma digestOpFromVM_returns v d t :
  returns (on_ok (λ ops, ops = [] ∨
    ops = [OpPut (vmKey (vm_ID v)) (DVM (v <| vm_ImageSHA256 := d |> <| vm_UpdatedAt := t |>))])) (digestOpFromVM v d t).
Proof.
  unfold digestOpFromVM. case_match; [by left|]. apply returns_bindM. unfold Marshal, capValue.
  case_match; simpl; [done|]. by right.
Qed.

Lemma vmIndexDeleteOps_in v : Forall (op_in other_families) (vmIndexDeleteOps v).
Proof.
  unfold vmIndexDeleteOps. constructor; [simpl; key_in_solve|]. apply Forall_app.
  split; case_match; repeat constructor; simpl; key_in_solve.
Qed.

(** A soft-delete of the row with the release of its name. *)
Lemma delete_keeps_vms w ops id v v' :
  vm_rows (w_st w) → vm_at (w_st w) id v → vm_DeletedAt v = None → vm_ID v' = id → is_Some (vm_DeletedAt v') →
  branch_valid ops = true → OpPut (vmKey id) (DVM v') ∈ ops →
  Forall (λ o, o = OpPut (vmKey id) (DVM v') ∨ o = OpDelete (vmNameGuard (vm_Name v)) ∨
               op_in (nic_families ++ other_families) o) ops →
  vm_rows (w_st (applied w ops)) ∧ vm_step (w_st w) (w_st (applied w ops)).
Proof.
  intros Hv Hat Hl Hid [t Hd] Hb Hin Hops. apply (vm_rows_write w ops id v'); try done.
  - eapply Forall_impl; [exact Hops|]. intros o [?|[->|Ho]]; [by left|right; right|right; by left].
    split; [key_in_solve|]. right. by apply (Hv id v).
  - by rewrite Hd.
  - intros v0 _ Hl'. by rewrite Hd in Hl'.
Qed.

(** ** The operations on one VM row *)
Section Rows.
Context (K : string → Prop) (HK : ∀ k, K k → ¬ key_in other_families k).

(** A put of a revised row under its compare, with writes the invariant does not
    speak of. *)
Lemma safe_row_txn {B} id e v v' conds ops elses (f : txn_reply → M B) w :
  read_row id e v w → CmpMod (vmKey id) (e_mod e) ∈ conds → revised id v v' →
  OpPut (vmKey id) (DVM v') ∈ ops →
  Forall (λ o, o = OpPut (vmKey id) (DVM v') ∨ op_in other_families o) ops → Forall (op_in other_families) elses →
  (∀ r w', pr_inv (vm_protocol K) w' → safe K (f r) w') → safe K (raw_txn conds ops elses ≫= f) w.
Proof.
  intros Hr Hc Hrev Hin Hops Helse Hf. apply (safe_raw_txn K HK (read_row id e v)); [apply kept_read_row|done|done| |done].
  intros w1 [_ Hi1] Hr1 Hc1 Hb. eapply row_keeps; [done|by eapply cas_row|done..].
Qed.

Lemma safe_UpdateVMSchedulingReason vmID reason message details w :
  safe K (UpdateVMSchedulingReason vmID reason message details) w.
Proof.
  apply wp_bindM, (wp_vmWithRev K (λ _, True)); [done|done|done|].
  intros e v w1 Hi1 _ Hseen He Hid Hl. case_bool_decide as Hs; [|done]. simpl negb. cbv iota.
  apply (safe_bind_any K HK (read_row vmID e v)); [apply kept_read_row|writes_solve|done|done|].
  intros t w2 Hi2 Hr2. apply wp_bindM, (wp_Marshal (vm_protocol K)); [done|].
  eapply safe_row_txn; [done|by left| |by left|by repeat constructor|done|done].
  split_and!; [done|done|done|]. intros _. split_and!; [done..|]. by rewrite Hs.
Qed.

(** A failed lookup settles the operation, with writes of other kinds at most. *)
Lemma safe_project_create n rt fin d w : pr_inv (vm_protocol K) w → safe K (project_create_attempts n rt fin d) w.
Proof.
  revert w. induction n as [|n IH]; intros w Hi; [done|]. cbn [project_create_attempts].
  apply (safe_bind_any K HK (λ _, True)); [done|apply finalizedTaskValue_writes|done|done|].
  intros taskVal w1 Hi1 _. apply wp_bindM, wp_bind, (wp_vmWithRev K (λ _, True)); [done|done|..].
  { intros e w2 Hi2 _. apply wp_ret. destruct e; try done. apply safe_writes. writes_solve. }
  intros e v w2 Hi2 _ Hseen He Hid Hl. apply wp_ret. set (id := uvr_VmID rt) in *.
  apply (safe_bind_any K HK (read_row id e v)); [apply kept_read_row|writes_solve|done|done|].
  intros t w3 Hi3 Hr3. apply wp_bindM, (wp_Marshal (vm_protocol K)); [done|].
  apply (safe_bind K HK (read_row id e v) _ _ _ _ (kept_read_row _ _ _ _)) with (2 := digestOpFromVM_returns v d t);
    [unfold digestOpFromVM; writes_solve|done|done|].
  intros digestOp w4 Hi4 Hr4 Hdig.
  assert (∀ (r : txn_reply) w', pr_inv (vm_protocol K) w' →
    safe K (if tr_Succeeded r then mret tt : M unit else project_create_attempts n rt fin d) w') as Hnext.
  { intros r w' Hi'. by destruct (tr_Succeeded r); [|apply IH]. }
  destruct Hdig as [-> | ->].
  - rewrite app_nil_r. apply (safe_raw_txn K HK (λ _, True)); [done|done|done| |done].
    intros w5 [_ Hi5] _ _ _. apply other_keeps; [done|]. repeat constructor; simpl; key_in_solve.
  - rewrite Hid. eapply safe_row_txn; [done|by left| |by right; right; left| |done|done].
    + by split_and!.
    + constructor; [right; simpl; key_in_solve|]. constructor; [right; simpl; key_in_solve|].
      apply Forall_singleton. by left.
Qed.

(** The rounds of a lifecycle write. *)
Lemma safe_lifecycle n vmID e v row desired t ops w :
  read_row vmID e v w → revised vmID v (row <| vm_DesiredPhase := desired |> <| vm_UpdatedAt := t |>) →
  Forall (op_in other_families) ops →
  safe K (lifecycle_attempts n vmID row (e_mod e) desired t ops) w.
Proof.
  revert e v row ops w. induction n as [|n IH]; intros e v row ops w Hr Hrev Hops; [done|].
  cbn [lifecycle_attempts]. apply wp_bindM, (wp_Marshal (vm_protocol K)); [done|].
  eapply safe_row_txn; [done|by left|done|by left| |done|].
  { constructor; [by left|]. eapply Forall_impl; [exact Hops|]. by right. }
  intros r w1 Hi1. destruct (tr_Succeeded r); [done|].
  apply wp_bindM, wp_bind, (wp_vmWithRev K (λ _, True)); [done|done|..].
  { intros er w2 Hi2 _. apply wp_ret. by destruct er. }
  intros e' v' w2 Hi2 _ Hseen He Hid Hl. apply wp_ret. apply (IH e' v'); [done|by split_and!|done].
Qed.

(** The snapshot the desired phase is written from. *)
Definition snapshot (vmID : uuid) (o : option (VM * Z)) (w : world) : Prop :=
  match o with
  | None => True
  | Some (row, rev) => ∃ e v desired, rev = e_mod e ∧ read_row vmID e v w ∧ vm_ID v = vmID ∧ vm_DeletedAt v = None ∧
      row = v <| vm_DesiredPhase := desired |>
  end.

Lemma kept_snapshot vmID o : kept K (snapshot vmID o).
Proof.
  intros w w' He Hk. destruct o as [[row rev]|]; [|done]. intros (e & v & desired & ? & Hr & ?).
  exists e, v, desired. split_and!; try tauto. by eapply kept_read_row.
Qed.

Lemma runtime_op_in (r : option VMRuntime) vmID phase t :
  returns (on_ok (Forall (op_in other_families)))
    (match r with
     | Some runtime =>
       val ← Marshal (runtime <| rt_Phase := phase |> <| rt_LastObservedAt := Some t |>);
       mret [OpPut (vmRuntimeKey vmID) val]
     | None => mret []
     end : M (list op)).
Proof.
  destruct r as [runtime|]; [|by constructor]. apply returns_bindM, returns_any. intros val.
  apply Forall_singleton. simpl. key_in_solve.
Qed.

Lemma safe_projectVMLifecycle vmID o phase fin w :
  pr_inv (vm_protocol K) w → snapshot vmID o w → safe K (projectVMLifecycle vmID o phase fin) w.
Proof.
  intros Hi Ho. unfold projectVMLifecycle.
  apply (safe_bind_any K HK (snapshot vmID o)); [apply kept_snapshot|writes_solve|done|done|]. intros t w1 Hi1 Ho1.
  apply (safe_bind_any K HK (snapshot vmID o)); [apply kept_snapshot|writes_solve|done|done|]. intros r w2 Hi2 Ho2.
  apply (safe_bind K HK (snapshot vmID o) _ _ _ _ (kept_snapshot _ _)) with (2 := runtime_op_in r vmID phase t);
    [writes_solve|done|done|]. intros ops w3 Hi3 Ho3 Hops.
  apply (safe_bind_any K HK (snapshot vmID o)); [apply kept_snapshot|apply finalizedTaskValue_writes|done|done|].
  intros taskVal w4 Hi4 Ho4. cbv zeta.
  assert (Forall (op_in other_families) (ops ++ [OpPut (taskKey (utf_ID fin)) taskVal])) as Hall.
  { apply Forall_app. split; [done|]. apply Forall_singleton. simpl. key_in_solve. }
  destruct o as [[row rev]|]; [|apply safe_writes; writes_solve; done].
  destruct Ho4 as (e & v & desired & -> & Hr & Hid & Hl & ->). eapply safe_lifecycle; [done|by split_and!|done].
Qed.

Lemma safe_ProjectVMLifecycleSuccess vmID desired phase fin w :
  pr_inv (vm_protocol K) w → safe K (ProjectVMLifecycleSuccess vmID desired phase fin) w.
Proof.
  intros Hi. unfold ProjectVMLifecycleSuccess. destruct desired as [desired|]; [|by apply safe_projectVMLifecycle].
  apply wp_bindM, wp_bindM, wp_bind, (wp_vmWithRev K (λ _, True)); [done|done|..].
  - intros e w1 Hi1 _. apply wp_ret. destruct e; try done. by apply safe_projectVMLifecycle.
  - intros e v w1 Hi1 _ Hseen He Hid Hl. apply wp_ret, wp_mret, safe_projectVMLifecycle; [done|].
    exists e, v, desired. by split_and!.
Qed.

(** ** Deletion of an unscheduled VM *)

Lemma safe_DeleteUnscheduledVM vmID w : safe K (DeleteUnscheduledVM vmID) w.
Proof.
  apply wp_bindM, (wp_vmWithRev K (λ _, True)); [done|done|done|].
  intros e v w1 Hi1 _ Hseen He Hid Hl. case_bool_decide as Hs; [|done]. simpl negb. cbv iota.
  apply (safe_bind_any K HK (read_row vmID e v)); [apply kept_read_row|writes_solve|done|done|].
  intros t w2 Hi2 Hr2. apply wp_bindM, (wp_Marshal (vm_protocol K)); [done|]. cbv zeta.
  set (v' := v <| vm_DeletedAt := Some t |> <| vm_UpdatedAt := t |>).
  change (vm_ID v') with (vm_ID v). change (vm_Name v') with (vm_Name v). rewrite Hid.
  apply (safe_raw_txn K HK (read_row vmID e v)); [apply kept_read_row|done|done| |by intros r ? _; case_match].
  intros w3 [_ (Hv3 & Hn3)] Hr3 Hc Hb. pose proof (vmIndexDeleteOps_in v') as Hidx.
  match type of Hb with branch_valid ?l = _ => destruct (delete_keeps_vms w3 l vmID v v' Hv3) as [Hrows Hstep] end;
    [by eapply cas_row; [|left|]|done|done|by eexists|done|by left| |].
  - constructor; [by left|]. constructor; [by right; left|]. constructor; [right; right; simpl; key_in_solve|].
    eapply Forall_impl; [exact Hidx|]. intros o Ho. right. right. eapply op_in_sub; [|done]. set_solver.
  - split; [|done]. split; [done|]. eapply nic_same; [|done].
    apply (same_on_applied _ (vm_families ++ other_families)); [unfold nic_families, vm_families, other_families; set_solver|].
    constructor; [simpl; key_in_solve|]. constructor; [simpl; key_in_solve|]. constructor; [simpl; key_in_solve|].
    eapply Forall_impl; [exact Hidx|]. intros o Ho. eapply op_in_sub; [|done]. set_solver.
Qed.
End Rows.

(** ** Admission *)

Lemma vmIndexOps_in v : Forall (op_in other_families) (vmIndexOps v).
Proof.
  unfold vmIndexOps. constructor; [simpl; key_in_solve|]. apply Forall_app.
  split; case_match; repeat constructor; simpl; key_in_solve.
Qed.

Lemma vm_key_apart k id : vmKey id = k → ¬ key_in other_families k.
Proof. intros <-. key_in_solve. Qed.

Lemma safe_CreateUnscheduledVM p w :
  pr_inv (vm_protocol (eq (vmKey (cvp_ID p)))) w → es_map (w_st w) !! vmKey (cvp_ID p) = None →
  safe (eq (vmKey (cvp_ID p))) (CreateUnscheduledVM p) w.
Proof.
  intros Hi Hno. set (id := cvp_ID p) in *. set (K := eq (vmKey id)) in *.
  assert (∀ k, K k → ¬ key_in other_families k) as HK by (intros k; apply vm_key_apart).
  assert (kept K (λ w, es_map (w_st w) !! vmKey id = None)) as Hkept.
  { intros w1 w2 _ Hk ?. by rewrite Hk. }
  apply (safe_bind_any K HK (λ w, es_map (w_st w) !! vmKey id = None)); [done|writes_solve|done|done|]. intros t w1 Hi1 Hno1.
  cbv zeta. apply wp_bindM, (wp_Marshal (vm_protocol K)); [done|]. set (v := unscheduled_vm p t).
  change (vm_ID v) with id. set (guard := vmNameGuard (vm_Name v)).
  apply (safe_raw_txn K HK (λ w, es_map (w_st w) !! vmKey id = None)); [done|done|done| |].
  2: { intros r w2 Hi2. destruct (tr_Succeeded r); [done|]. apply safe_writes.
       unfold deleteIntentPresent. case_match; writes_solve. }
  intros w2 [Hwf (Hv2 & Hn2)] Hno2 Hc Hb. pose proof (vmIndexOps_in v) as Hidx.
  assert (es_map (w_st w2) !! guard = None) as Hfree.
  { apply andb_true_iff in Hc as [Hc _]. by apply cmp_absent in Hc. }
  match type of Hb with branch_valid ?l = _ => destruct (vm_rows_write w2 l id v) as [Hrows Hstep] end; try done.
  - by right; left.
  - constructor; [right; right; split; [key_in_solve|by left]|]. constructor; [by left|].
    constructor; [right; left; simpl; key_in_solve|]. eapply Forall_impl; [exact Hidx|].
    intros o Ho. right. left. eapply op_in_sub; [|done]. set_solver.
  - intros _. apply applied_put_in; [done|by left].
  - intros v0 Hv0. unfold vm_at in Hv0. by rewrite Hno2 in Hv0.
  - split; [|done]. split; [done|]. eapply nic_same; [|done].
    apply (same_on_applied _ (vm_families ++ other_families)); [unfold nic_families, vm_families, other_families; set_solver|].
    constructor; [simpl; key_in_solve|]. constructor; [simpl; key_in_solve|]. constructor; [simpl; key_in_solve|].
    eapply Forall_impl; [exact Hidx|]. intros o Ho. eapply op_in_sub; [|done]. set_solver.
Qed.

(** ** Binding *)

(** The writes of a new interface. *)
Definition nic_writes (n : VMNic) : list op :=
  [OpPut (vmNicKey (nic_ID n)) (DVMNic n);
   OpPut (vmNicVMIndexKey (nic_VmID n) (nic_ID n)) (id_value (nic_ID n));
   OpPut (vmNicNetworkIndexKey (nic_NetworkID n) (nic_ID n)) (id_value (nic_ID n));
   OpPut (vmNicMACGuard (nic_NetworkID n) (nic_MacAddress n)) (id_value (nic_ID n))] ++
  match nic_Ipv4Address n with
  | Some ip => [OpPut (vmNicIPv4ReservationKey (nic_NetworkID n) ip) (id_value (nic_ID n))]
  | None => []
  end.

Lemma returns_Marshal {A B} `{Codec A} (Q : B → Prop) (v : A) (f : doc → M B) :
  returns (on_ok Q) (f (encode_doc v)) → returns (on_ok Q) (Marshal v ≫= f).
Proof. intros Hf. apply returns_bindM. unfold Marshal, capValue. by case_match. Qed.

(** The only entry of the index by VM among them. *)
Lemma index_put pre n k d :
  Forall (op_in (vm_families ++ other_families)) pre → OpPut k d ∈ pre ++ nic_writes n → key_in [FVMNicVM] k →
  k = vmNicVMIndexKey (nic_VmID n) (nic_ID n) ∧ d = id_value (nic_ID n).
Proof.
  intros Hpre Hin Hk. apply elem_of_app in Hin as [Hin|Hin].
  { rewrite Forall_forall in Hpre. apply Hpre in Hin. simpl in Hin. exfalso. revert Hin Hk.
    unfold key_in. destruct (key_family k); set_solver. }
  apply elem_of_app in Hin as [Hin|Hin].
  - repeat (apply elem_of_cons in Hin as [E|Hin];
      [apply put_eq in E as [-> ->]; first [done|exfalso; revert Hk; key_in_solve]|]). by apply elem_of_nil in Hin.
  - destruct (nic_Ipv4Address n); [|by apply elem_of_nil in Hin].
    apply list_elem_of_singleton, put_eq in Hin as [-> ->]. exfalso. revert Hk. key_in_solve.
Qed.

(** A new interface whose id, MAC and address are free. *)
Lemma bind_keeps_nics w pre n :
  nic_rows (w_st w) → nic_index (w_st w) → es_map (w_st w) !! vmNicKey (nic_ID n) = None →
  es_map (w_st w) !! vmNicMACGuard (nic_NetworkID n) (nic_MacAddress n) = None →
  (∀ ip, nic_Ipv4Address n = Some ip → es_map (w_st w) !! vmNicIPv4ReservationKey (nic_NetworkID n) ip = None) →
  nic_DeletedAt n = None → Forall (op_in (vm_families ++ other_families)) pre →
  branch_valid (pre ++ nic_writes n) = true →
  nic_rows (w_st (applied w (pre ++ nic_writes n))) ∧ nic_index (w_st (applied w (pre ++ nic_writes n))).
Proof.
  intros Hr Hi Hrow Hmac Hip Hl Hpre Hb. set (ops := pre ++ nic_writes n) in *. set (nid := nic_ID n) in *.
  assert (∀ o, o ∈ nic_writes n → o ∈ ops) as Hin by (intros o Ho; apply elem_of_app; by right).
  assert (nic_at (w_st (applied w ops)) nid n) as Hat by (apply applied_put_in; [done|apply Hin; by left]).
  assert (Forall (nic_op w (eq nid)) ops) as Hops.
  { apply Forall_app. split.
    - eapply Forall_impl; [exact Hpre|]. intros o Ho. destruct o; simpl in *; [..|done]; by left.
    - apply Forall_app. split; [repeat (apply Forall_cons; split); [..|done]|].
      + right. right. left. by exists nid.
      + right. left. key_in_solve.
      + left. key_in_solve.
      + right. right. right. split; [key_in_solve|by left].
      + destruct (nic_Ipv4Address n) as [ip|]; [|done]. apply Forall_singleton.
        right. right. right. split; [key_in_solve|left; by apply Hip]. }
  split.
  - apply (nic_rows_write w (eq nid)); try done; [intros id; destruct (decide (nid = id)); auto|].
    intros id n' <- Hn' _. assert (n' = n) as -> by by eapply nic_at_inj. split.
    + apply applied_put_in; [done|]. apply Hin. do 3 right. by left.
    + intros ip Eip. apply applied_put_in; [done|]. apply Hin. unfold nic_writes. rewrite Eip.
      apply elem_of_app. right. by left.
  - intros k e Hk He. destruct (applied_cases w ops k) as [E|[(d & E & Hput)|[E _]]].
    + rewrite E in He. destruct (Hi k e Hk He) as (id0 & n0 & E1 & E2 & Hn0 & Hl0). exists id0, n0.
      split_and!; try done. unfold nic_at. rewrite (nic_op_other_row w (eq nid)); [done|done|].
      intros <-. unfold nic_at in Hn0. by rewrite Hrow in Hn0.
    + exists nid, n. rewrite He in E. apply (inj Some) in E as ->.
      destruct (index_put pre n k d) as [-> ->]; [done..|by split_and!].
    + by rewrite E in He.
Qed.

(** What the writes of a bind are made of. *)
Definition bind_shape (v : VM) (ws : VMBindWrites) (rev : Z) (p : list op * list cmp) : Prop :=
  CmpMod (vmKey (vm_ID v)) rev ∈ p.2 ∧ ∃ others, Forall (op_in other_families) others ∧
  match vbw_Nic ws with
  | None => p.1 = OpPut (vmKey (vm_ID v)) (DVM v) :: others
  | Some nic => ∃ n,
      p.1 = (OpPut (vmKey (vm_ID v)) (DVM v) :: others) ++ nic_writes n ∧ nic_ID n = cvn_ID nic ∧
      nic_DeletedAt n = None ∧ CmpCreate (vmNicMACGuard (nic_NetworkID n) (nic_MacAddress n)) 0 ∈ p.2 ∧
      ∀ ip, nic_Ipv4Address n = Some ip → CmpCreate (vmNicIPv4ReservationKey (nic_NetworkID n) ip) 0 ∈ p.2
  end.

(** The address a bind gives an interface is guarded. *)
Definition addressed (nic : CreateVMNicParams) (p : CreateVMNicParams * list cmp) : Prop :=
  cvn_ID p.1 = cvn_ID nic ∧ cvn_NetworkID p.1 = cvn_NetworkID nic ∧
  ∀ ip, cvn_Ipv4Address p.1 = Some ip → CmpCreate (vmNicIPv4ReservationKey (cvn_NetworkID nic) ip) 0 ∈ p.2.

Definition nic_shape (nic : CreateVMNicParams) (p : list op * list cmp) : Prop :=
  ∃ n, p.1 = nic_writes n ∧ nic_ID n = cvn_ID nic ∧ nic_DeletedAt n = None ∧
    CmpCreate (vmNicMACGuard (nic_NetworkID n) (nic_MacAddress n)) 0 ∈ p.2 ∧
    ∀ ip, nic_Ipv4Address n = Some ip → CmpCreate (vmNicIPv4ReservationKey (nic_NetworkID n) ip) 0 ∈ p.2.

Lemma bind_nic_returns nic t :
  cvn_Ipv4Address nic = None → returns (on_ok (nic_shape nic)) (bind_nic nic t).
Proof.
  intros Hno. unfold bind_nic. apply returns_bindM, returns_any. intros net. apply returns_bindM.
  apply (returns_mono (on_ok (addressed nic))).
  - intros [[nic' conds]|e]; [|done]. intros (E1 & E2 & Hip). simpl in E1, E2, Hip. unfold vmNicCreateOps.
    apply returns_bindM, returns_Marshal. exists (vmNicFromCreateParams nic' t). simpl.
    split_and!; [done|done|done|set_solver|].
    intros ip Eip. rewrite E2. apply elem_of_app. left. by apply Hip.
  - destruct (net_DhcpEnabled net), (net_Subnet net) as [subnet|];
      try (simpl; split_and!; [done|done|simpl; congruence]).
    apply returns_bindM, returns_any. intros ip. split_and!; [done|done|]. intros ip' [= <-]. by left.
Qed.

Lemma taskIndexOps_other t : Forall (op_in other_families) (taskIndexOps t).
Proof. apply taskIndexOps_in. set_solver. Qed.

Lemma buildBindTxn_returns v ws rev t :
  (∀ nic, vbw_Nic ws = Some nic → cvn_Ipv4Address nic = None) →
  returns (on_ok (bind_shape v ws rev)) (buildBindTxn v ws rev t).
Proof.
  intros Hno. unfold buildBindTxn. apply returns_bindM, returns_any. intros disk.
  apply returns_bindM. apply (returns_mono (on_ok (job_put (vbw_Job ws)))); [|apply enqueueJobOp_returns].
  intros [[seq jobOp]|e]; [|done]. intros [payload Hjob]. simpl in Hjob. subst jobOp.
  apply returns_bindM, returns_any. intros createdAt. cbv zeta.
  apply returns_Marshal, returns_bindM, returns_any. intros diskVal. apply returns_bindM, returns_any. intros taskVal.
  pose proof (taskIndexOps_other (taskFromParams (vbw_Task ws) seq createdAt)) as Ht.
  set (ops := [_; _; _; _; _; _] ++ vmDiskIndexOps disk ++ _).
  assert (Forall (op_in other_families) (tl ops)) as Hops.
  { repeat (apply Forall_cons; split; [simpl; key_in_solve|]). exact Ht. }
  destruct (vbw_Nic ws) as [nic|] eqn:En.
  - apply returns_bindM. apply (returns_mono (on_ok (nic_shape nic))); [|by apply bind_nic_returns, Hno].
    intros [[nicOps nicConds]|e]; [|done]. intros (n & E & Hid & Hl & Hmac & Hip). simpl in E, Hid, Hl, Hmac, Hip.
    subst nicOps. split; [by left|]. exists (tl ops). rewrite En. split; [done|]. exists n.
    split_and!; [done|done|done|set_solver|]. intros ip Eip. simpl. do 4 right. by apply Hip.
  - split; [by left|]. exists (tl ops). by rewrite En.
Qed.

Lemma buildBindTxn_writes v ws rev t : writes other_families (buildBindTxn v ws rev t).
Proof.
  unfold buildBindTxn. apply writes_bindM; [unfold vmDiskFromCreateParams; writes_solve|]. intros disk.
  apply writes_bindM; [eapply writes_mono; [|apply enqueueJobOp_writes]; set_solver|]. intros [seq jobOp].
  unfold bind_nic, NetworkByID, allocateNICIPv4, vmNicCreateOps. writes_solve.
Qed.

(** The plan of the scheduler reads the store, and names a new interface, without
    an address, or none. *)
Definition plan_ok (nid : uuid) (ws : VMBindWrites) : Prop :=
  ∀ nic, vbw_Nic ws = Some nic → cvn_ID nic = nid ∧ cvn_Ipv4Address nic = None.

Lemma nic_key_apart k nid : vmNicKey nid = k → ¬ key_in other_families k.
Proof. intros <-. key_in_solve. Qed.

(** The transaction of a bind. *)
Lemma bind_keeps w nid v v' ws conds ops rev :
  estate_wf (w_st w) → vm_inv (w_st w) → vm_at (w_st w) (vm_ID v') v → revised (vm_ID v') v v' → plan_ok nid ws →
  es_map (w_st w) !! vmNicKey nid = None → bind_shape v' ws rev (ops, conds) →
  forallb (cmp_holds (w_map w)) conds = true → branch_valid ops = true → keeps w ops.
Proof.
  intros Hwf Hi Hat Hrev Hplan Hno (_ & others & Hothers & Hshape) Hc Hb. simpl in Hshape.
  destruct (vbw_Nic ws) as [nic|] eqn:En.
  - destruct Hshape as (n & -> & Hid & Hl & Hmac & Hip). destruct (Hplan nic En) as [Hnid _].
    rewrite Hnid in Hid. pose proof Hi as (Hv & Hnr & Hni).
    assert (∀ k, CmpCreate k 0 ∈ conds → es_map (w_st w) !! k = None) as Hfree.
    { intros k Hk. eapply forallb_in in Hc; [|done]. by apply cmp_absent in Hc. }
    destruct (row_keeps_vms w _ (vm_ID v') v v' Hv Hat Hrev Hb) as [Hrows Hstep]; [by left| |].
    { constructor; [by left|]. apply Forall_app. split.
      - eapply Forall_impl; [exact Hothers|]. intros o Ho. right. eapply op_in_sub; [|done]. set_solver.
      - unfold nic_writes. apply Forall_app. split; [repeat constructor; right; simpl; key_in_solve|].
        case_match; [|done]. apply Forall_singleton. right. simpl. key_in_solve. }
    split; [|done]. split; [done|]. rewrite <-Hid in Hno. apply (bind_keeps_nics w (_ :: others) n); auto.
    constructor; [simpl; key_in_solve|]. eapply Forall_impl; [exact Hothers|]. intros o Ho. eapply op_in_sub; [|done]. set_solver.
  - subst ops. eapply row_keeps; [done|done|done|done|by left|]. constructor; [by left|].
    eapply Forall_impl; [exact Hothers|]. by right.
Qed.

Lemma safe_BindScheduledVM ctx vmID plan nid w :
  writes [] plan → returns (on_ok (plan_ok nid)) plan →
  pr_inv (vm_protocol (eq (vmNicKey nid))) w → es_map (w_st w) !! vmNicKey nid = None →
  safe (eq (vmNicKey nid)) (BindScheduledVM ctx vmID plan) w.
Proof.
  intros Hplan Hret Hi Hno. set (K := eq (vmNicKey nid)) in *.
  assert (∀ k, K k → ¬ key_in other_families k) as HK by (intros k; apply nic_key_apart).
  set (P := λ w, es_map (w_st w) !! vmNicKey nid = None).
  assert (kept K P) as HP by (intros w1 w2 _ Hk ?; by unfold P; rewrite Hk).
  apply wp_bindM, (wp_vmWithRev K P); [done|done|done|].
  intros e v w1 Hi1 HP1 Hseen He Hid Hl. case_bool_decide as Hs; [|done]. simpl negb. cbv iota.
  set (P' := λ w, P w ∧ read_row vmID e v w).
  assert (kept K P') as HP' by (apply kept_and; [done|apply kept_read_row]).
  apply (safe_bind K HK P' (plan_ok nid)); [done|by eapply writes_mono; [|exact Hplan]; set_solver|done|done|done|].
  intros ws w2 Hi2 HP2 Hws.
  apply (safe_bind_any K HK P'); [done|writes_solve|done|done|]. intros t w3 Hi3 HP3.
  set (v' := scheduled_vm v (vbw_PinnedNodeID ws) t).
  apply (safe_bind K HK P' (bind_shape v' ws (e_mod e))); [done|apply buildBindTxn_writes| |done|done|].
  { apply buildBindTxn_returns. intros nic Hnic. by apply Hws. }
  intros [ops conds] w4 Hi4 HP4 Hshape. apply (safe_raw_txn K HK P'); [done|done|done| |].
  - intros w5 [Hwf Hi5] [Hno5 Hr5] Hc Hb. pose proof Hshape as [Hmod _].
    assert (forallb (cmp_holds (w_map w5)) conds = true) as Hc' by (rewrite forallb_app in Hc; by apply andb_true_iff in Hc as [? _]).
    change (vm_ID v') with (vm_ID v) in Hmod. rewrite Hid in Hmod.
    eapply (bind_keeps w5 nid v v'); try done; change (vm_ID v') with (vm_ID v); rewrite Hid; [by eapply cas_row|].
    split_and!; [done|done|done|]. intros _. split_and!; [done..|]. by rewrite Hs.
  - intros r w5 Hi5. destruct (tr_Succeeded r); [done|]. apply safe_writes. unfold classifyBindFailure.
    case_match; [|done]. apply writes_bindM; [|intros []; [case_match|]; done]. apply writes_attempt, writes_raw_txn; done.
Qed.
End VMProps.
