(* ===== verification/VMDeletion.v ===== *)
(** * Deletion of a VM, and the guarantees of all VM operations

    The projection of a delete releases the name of the VM and the guards of its
    interfaces blindly; it keeps the invariant when nothing else writes the VM
    meanwhile.  With it, every VM operation does; and when two deletes of one VM
    overlap, a name can be released twice. *)

From S2P Require Import Prelude Models Etcd Prog Keys Client Rules Footprint Guards Jobs Tasks Migrations VMs.
From S2P Require Import Footprints VMInvariant VMProps Instances.
Local Open Scope Z_scope.

Section VMDeletion.
Context `{Etcd, !EtcdLaws, !Libs, !LibsLaws}.

(** ** The keys of a VM *)

(** Its row, its entries in the index of interfaces, and the rows of its
    interfaces. *)
Definition vm_keys (st : estate) (id : uuid) (k : string) : Prop :=
  k = vmKey id ∨ String.prefix (vmNicVMIndexPrefix id) k = true ∨
  ∃ nid n, k = vmNicKey nid ∧ nic_at st nid n ∧ nic_VmID n = id.

Lemma index_prefix_class id k :
  String.prefix (vmNicVMIndexPrefix id) k = true → ∃ t, key_class k = Some (FVMNicVM, uuid_string id +:+ "/" +:+ t).
Proof.
  intros [t ->]%prefix_app. exists t. unfold vmNicVMIndexPrefix, Key. simpl str_join.
  by rewrite <-!string_app_assoc.
Qed.

Lemma index_prefix_family id k : String.prefix (vmNicVMIndexPrefix id) k = true → key_in [FVMNicVM] k.
Proof. intros [t E]%index_prefix_class. unfold key_in, key_family. rewrite E. simpl. set_solver. Qed.

Lemma index_prefix_vm id id' nid : String.prefix (vmNicVMIndexPrefix id) (vmNicVMIndexKey id' nid) = true → id' = id.
Proof.
  intros [t E]%index_prefix_class. rewrite class_vmNicVMIndexKey in E. apply (inj Some), pair_equal_spec in E as [_ E].
  by apply pair_inj in E as [-> _].
Qed.

Lemma vm_keys_apart st id k : vm_keys st id k → ¬ key_in other_families k.
Proof.
  intros [->|[Hp|(nid & n & -> & _)]]; [key_in_solve| |key_in_solve]. apply index_prefix_family in Hp. revert Hp.
  unfold key_in. destruct (key_family k); set_solver.
Qed.

(** ** The interfaces of the VM *)
Section Delete.
Context (st : estate) (Hst : vm_inv st) (vmID : uuid).

Abbreviation K := (vm_keys st vmID).

(** What is said of the VM stays as it was at the start. *)
Definition untouched (w : world) : Prop := ∀ k, K k → es_map (w_st w) !! k = es_map st !! k.

Definition own_nic (p : uuid * VMNic) : Prop :=
  nic_at st p.1 p.2 ∧ nic_DeletedAt p.2 = None ∧ nic_VmID p.2 = vmID.

Lemma kept_untouched : kept K untouched.
Proof. apply kept_keys. Qed.
#[local] Hint Resolve kept_untouched : core.

Lemma HK k : K k → ¬ key_in other_families k.
Proof. apply vm_keys_apart. Qed.

Lemma own_nic_at w p : untouched w → own_nic p → nic_at (w_st w) p.1 p.2.
Proof. intros Hw (Hn & _ & Hvm). unfold nic_at. rewrite Hw; [done|]. right. right. by exists p.1, p.2. Qed.

(** An entry of the index names an interface of the VM. *)
Lemma index_item w k e :
  untouched w → String.prefix (vmNicVMIndexPrefix vmID) k = true → es_map (w_st w) !! k = Some e →
  ∃ p, own_nic p ∧ k = vmNicVMIndexKey vmID p.1 ∧ index_id (e_val e) = Some p.1.
Proof.
  intros Hw Hp He. rewrite Hw in He by (right; by left). destruct Hst as (_ & _ & Hi).
  destruct (Hi k e) as (nid & n & -> & -> & Hn & Hl); [by eapply index_prefix_family|done|].
  apply index_prefix_vm in Hp as E. exists (nid, n). unfold own_nic. rewrite E. split_and!; try done.
  simpl. apply uuid_parse_string.
Qed.

Definition nic_deletes (t : Z) (p : uuid * VMNic) : list op :=
  OpPut (vmNicKey p.1) (DVMNic (p.2 <| nic_DeletedAt := Some t |> <| nic_UpdatedAt := t |>)) ::
  nic_release_ops vmID p.1 p.2.

Definition nics_deleted (t : Z) (ops : list op) : Prop :=
  ∃ L, Forall own_nic L ∧ ops = L ≫= nic_deletes t.

Lemma wp_vmNicDeleteOps t Q w :
  untouched w → (∀ e w', Q (Err e) ∅ w') →
  (∀ ops w', pr_inv (vm_protocol K) w' → untouched w' → nics_deleted t ops → Q (Ok ops) ∅ w') →
  pr_inv (vm_protocol K) w → wp (vm_protocol K) (vmNicDeleteOps vmID t) ∅ Q w.
Proof.
  intros Hw HE HQ Hi. unfold vmNicDeleteOps, Range. apply wp_bindM, wp_bindM, (wp_raw_range (vm_protocol K)).
  intros w1 Hw1. split; [by apply HE|]. apply wp_mret.
  assert (untouched w1) as Hu1 by by eapply kept_rely; [apply kept_keys|..].
  assert (pr_inv (vm_protocol K) w1) as Hi1 by by eapply settled_inv.
  apply (wp_for_each (vm_protocol K)) with
    (I := λ ops w, pr_inv (vm_protocol K) w ∧ untouched w ∧ nics_deleted t ops).
  - split_and!; [done|done|]. by exists [].
  - intros kv ops w2 Hkv (Hi2 & Hu2 & L & HL & ->).
    apply list_elem_of_fmap in Hkv as ([k e] & -> & [Hk Hp]%elem_of_scan). cbn [fst snd].
    destruct (index_item w1 k e Hu1 Hp Hk) as (p & Hown & _ & ->).
    assert (∀ w3, settled (vm_protocol K) ∅ w2 w3 → pr_inv (vm_protocol K) w3 ∧ untouched w3) as Hset.
    { intros w3 Hw3. split; [by eapply settled_inv|by eapply kept_rely; [apply kept_keys|..]]. }
    apply wp_bindM, (wp_GetJSON (vm_protocol K)); [by intros; split; [|apply HE]|..].
    + intros w3 [_ Hu3]%Hset Hk3. pose proof (own_nic_at w3 p Hu3 Hown) as Hn. unfold nic_at in Hn.
      fold (w_map w3) in Hn. by rewrite Hk3 in Hn.
    + intros w3 e3 n [Hi3 Hu3]%Hset Hk3 He3. pose proof (own_nic_at w3 p Hu3 Hown) as Hn. unfold nic_at in Hn.
      fold (w_map w3) in Hn. rewrite Hk3 in Hn. simpl in Hn. rewrite He3 in Hn. injection Hn as ->.
      pose proof Hown as (_ & Hl & _). rewrite bool_decide_eq_true_2 by done. simpl negb. cbv iota.
      apply wp_bindM, (wp_Marshal (vm_protocol K)); [by split; [|apply HE]|]. apply wp_mret.
      split; [done|]. split_and!; [done|done|]. exists (L ++ [p]). split; [by apply Forall_app; split; [|apply Forall_singleton]|].
      rewrite bind_app. simpl. by rewrite app_nil_r.
  - intros ops w2 (Hi2 & Hu2 & Hn). by apply HQ.
Qed.

(** ** The transaction of the delete *)

Lemma release_ops_in nid n : Forall (op_in (nic_families ++ other_families)) (nic_release_ops vmID nid n).
Proof.
  unfold nic_release_ops. apply Forall_app. split; [repeat constructor; simpl; key_in_solve|].
  case_match; repeat constructor; simpl; key_in_solve.
Qed.

Lemma nic_deletes_in t p : Forall (op_in (nic_families ++ other_families)) (nic_deletes t p).
Proof. constructor; [simpl; key_in_solve|apply release_ops_in]. Qed.

(** The operations of one interface concern it alone. *)
Lemma nic_deletes_op w (S : uuid → Prop) t p :
  nic_rows (w_st w) → untouched w → own_nic p → S p.1 → Forall (nic_op w S) (nic_deletes t p).
Proof.
  intros Hr Hu Hown HS. destruct (Hr p.1 p.2) as [Hm Hip]; [by apply own_nic_at|by destruct Hown as (_ & ? & _)|].
  constructor; [right; right; left; by exists p.1|]. unfold nic_release_ops. apply Forall_app. split.
  - constructor; [right; left; key_in_solve|]. constructor; [left; key_in_solve|]. apply Forall_singleton.
    right. right. right. split; [key_in_solve|]. right. by exists p.1.
  - destruct (nic_Ipv4Address p.2) as [ip|]; [|done]. apply Forall_singleton.
    right. right. right. split; [key_in_solve|]. right. exists p.1. auto.
Qed.

Lemma index_deletes pre L post t o k :
  Forall (op_in (vm_families ++ other_families)) pre → Forall (op_in (vm_families ++ other_families)) post →
  o ∈ pre ++ (L ≫= nic_deletes t) ++ post → written o = Some k → key_in [FVMNicVM] k → o = OpDelete k ∧ OpDelete k ∈ pre ++ (L ≫= nic_deletes t) ++ post.
Proof.
  intros Hpre Hpost Hin Hw Hk. assert (∀ fs, FVMNicVM ∉ fs → ¬ op_in fs o) as Hno.
  { intros fs Hfs Ho. destruct o; simpl in *; [..|done]; apply (inj Some) in Hw as ->; revert Ho Hk;
      unfold key_in; destruct (key_family k); set_solver. }
  assert (o = OpDelete k) as ->; [|done]. rewrite Forall_forall in Hpre, Hpost.
  rewrite !elem_of_app in Hin. destruct Hin as [Hin|[Hin|Hin]].
  1,3: exfalso; eapply Hno; [|eauto]; unfold vm_families, other_families; set_solver.
  apply list_elem_of_bind in Hin as (p & Hin & _). apply elem_of_cons in Hin as [->|Hin].
  - exfalso. apply (inj Some) in Hw as <-. revert Hk. key_in_solve.
  - unfold nic_release_ops in Hin. rewrite elem_of_app, !elem_of_cons in Hin. destruct o; simpl in *; [|congruence|done].
    destruct (nic_Ipv4Address p.2); set_solver.
Qed.

Lemma delete_keeps_nics w t pre L post :
  nic_rows (w_st w) → nic_index (w_st w) → untouched w → Forall own_nic L →
  Forall (op_in (vm_families ++ other_families)) pre → Forall (op_in (vm_families ++ other_families)) post →
  let ops := pre ++ (L ≫= nic_deletes t) ++ post in
  branch_valid ops = true → nic_rows (w_st (applied w ops)) ∧ nic_index (w_st (applied w ops)).
Proof.
  intros Hr Hi Hu HL Hpre Hpost ops Hb. set (S := λ id, id ∈ L.*1).
  assert (∀ p o, p ∈ L → o ∈ nic_deletes t p → o ∈ ops) as Hin.
  { intros p o Hp Ho. unfold ops. rewrite !elem_of_app. right. left. apply list_elem_of_bind. by exists p. }
  assert (Forall (nic_op w S) ops) as Hops.
  { assert (∀ l, Forall (op_in (vm_families ++ other_families)) l → Forall (nic_op w S) l) as Hother.
    { intros l Hl. eapply Forall_impl; [exact Hl|]. intros [k d|k|k] Ho; simpl in *; [by left..|done]. }
    apply Forall_app. split; [auto|]. apply Forall_app. split; [|auto]. rewrite Forall_bind.
    rewrite Forall_forall in HL |- *. intros p Hp. apply nic_deletes_op; [done|done|auto|].
    by apply list_elem_of_fmap_2. }
  assert (∀ id n, S id → nic_at (w_st (applied w ops)) id n → nic_DeletedAt n ≠ None) as Hdead.
  { intros id n Hid Hn. apply list_elem_of_fmap in Hid as (p & -> & Hp).
    assert (nic_at (w_st (applied w ops)) p.1 (p.2 <| nic_DeletedAt := Some t |> <| nic_UpdatedAt := t |>)) as Hrow.
    { apply applied_put_in; [done|]. apply (Hin p); [done|by left]. }
    by rewrite (nic_at_inj _ _ _ _ Hn Hrow). }
  split.
  - apply (nic_rows_write w S); try done; [intros id; destruct (decide (id ∈ L.*1)); auto|].
    intros id n Hid Hn Hl. by destruct (Hdead id n).
  - intros k e Hk He. destruct (written_cases w ops k) as [E|(o & Ho & Ek)].
    + pose proof He as He'. rewrite E in He'. destruct (Hi k e Hk He') as (id & n & -> & Ev & Hn & Hl). exists id, n.
      split_and!; try done. unfold nic_at. rewrite (nic_op_other_row w S); [done|done|].
      intros (p & -> & Hp)%list_elem_of_fmap. rewrite Forall_forall in HL. pose proof (HL p Hp) as Hown.
      rewrite (nic_at_inj _ _ _ _ Hn (own_nic_at w p Hu Hown)) in He. destruct Hown as (_ & _ & Hvm). rewrite Hvm in He.
      rewrite applied_deleted in He; [done|done|]. apply (Hin p); [done|]. right. by left.
    + exfalso. destruct (index_deletes pre L post t o k) as [-> Hd]; try done.
      by rewrite applied_deleted in He.
Qed.

(** ** The projection *)

Lemma disk_delete_ops_in t disks : returns (on_ok (Forall (op_in other_families))) (disk_delete_ops t disks).
Proof.
  unfold disk_delete_ops. apply returns_for_each; [done|]. intros d ops _ Hops. apply returns_bindM, returns_any.
  intros val. apply Forall_app. split; [done|]. repeat constructor; simpl; key_in_solve.
Qed.

(** What a delete consists of. *)
Definition delete_shape (vm : VM) (t : Z) (ops : list op) : Prop :=
  ∃ others L post, Forall (op_in other_families) others ∧ Forall (op_in other_families) post ∧ Forall own_nic L ∧
  ops = (OpPut (vmKey (vm_ID vm)) (DVM (vm <| vm_DeletedAt := Some t |> <| vm_UpdatedAt := t |>)) ::
         OpDelete (vmNameGuard (vm_Name vm)) :: others) ++ (L ≫= nic_deletes t) ++ post.

Lemma wp_vmDeleteBaseOps vm t taskVal taskID Q w :
  vm_ID vm = vmID → untouched w → pr_inv (vm_protocol K) w → (∀ e w', Q (Err e) ∅ w') →
  (∀ ops w', pr_inv (vm_protocol K) w' → untouched w' → delete_shape vm t ops → Q (Ok ops) ∅ w') →
  wp (vm_protocol K) (vmDeleteBaseOps vm t taskVal taskID) ∅ Q w.
Proof.
  intros Hid Hu Hi HE HQ. unfold vmDeleteBaseOps. set (v' := vm <| vm_DeletedAt := Some t |> <| vm_UpdatedAt := t |>).
  apply wp_bindM, (wp_Marshal (vm_protocol K)); [done|]. cbv zeta.
  apply (wp_kept_bind K HK untouched (λ _, True)); [done|unfold VMRuntimeByID; writes_solve|by apply returns_any|done|done|done|].
  intros r w1 Hi1 Hu1 _.
  apply (wp_kept_bind K HK untouched (Forall (op_in other_families))); [done|writes_solve| |done|done|done|].
  { destruct r as [rt|[]]; try done; [|by constructor]. destruct (rt_CurrentNodeID rt); [|by constructor].
    repeat constructor; simpl; key_in_solve. }
  intros runtimeOps w2 Hi2 Hu2 Hrt.
  apply (wp_kept_bind K HK untouched (λ _, True)); [done|unfold disksOfVM; writes_solve|by apply returns_any|done|done|done|].
  intros disks w3 Hi3 Hu3 _.
  apply (wp_kept_bind K HK untouched (Forall (op_in other_families)));
    [done|unfold disk_delete_ops; writes_solve|apply disk_delete_ops_in|done|done|done|].
  intros diskOps w4 Hi4 Hu4 Hd. change (vm_ID v') with (vm_ID vm). rewrite Hid.
  apply wp_bindM, wp_vmNicDeleteOps; [done|done| |done]. intros nicOps w5 Hi5 Hu5 (L & HL & ->). apply wp_mret.
  apply HQ; [done|done|].
  exists (OpDelete (vmRuntimeKey vmID) :: vmIndexDeleteOps v' ++ runtimeOps ++ diskOps), L, [OpPut (taskKey taskID) taskVal].
  split_and!; [|repeat constructor; simpl; key_in_solve|done|].
  - constructor; [simpl; key_in_solve|]. rewrite !Forall_app. split_and!; [apply vmIndexDeleteOps_in|done|done].
  - rewrite Hid. simpl. by rewrite <-!app_assoc.
Qed.

Lemma delete_keeps w vm t ops :
  vm_inv (w_st w) → untouched w → vm_ID vm = vmID → vm_at st vmID vm → vm_DeletedAt vm = None →
  delete_shape vm t ops → branch_valid ops = true → keeps w ops.
Proof.
  intros (Hv & Hn & Hi) Hu Hid Hat Hl (others & L & post & Hothers & Hpost & HL & ->) Hb.
  assert (vm_at (w_st w) vmID vm) as Hat' by (unfold vm_at; rewrite Hu; [done|by left]).
  assert (∀ l, Forall (op_in other_families) l → Forall (op_in (vm_families ++ other_families)) l) as Hsub.
  { intros l Hf. eapply Forall_impl; [exact Hf|]. intros o Ho. eapply op_in_sub; [|done]. set_solver. }
  rewrite Hid in *. set (v' := vm <| vm_DeletedAt := Some t |> <| vm_UpdatedAt := t |>) in *.
  match type of Hb with branch_valid ?l = _ => destruct (delete_keeps_vms w l vmID vm v' Hv Hat' Hl Hid) as [Hrows Hstep] end;
    [by eexists|done|by left| |].
  - constructor; [by left|]. constructor; [by right; left|]. fold (app (A:=op)). rewrite !Forall_app. split_and!.
    1,3: eapply Forall_impl; [eassumption|]; intros o Ho; right; right; eapply op_in_sub; [|done]; set_solver.
    apply Forall_bind, Forall_forall. intros p _. eapply Forall_impl; [apply (nic_deletes_in t)|]. by right; right.
  - split; [|done]. split; [done|]. apply (delete_keeps_nics w t (_ :: _ :: others) L post); try done; [|by apply Hsub].
    repeat (constructor; [simpl; key_in_solve|]). by apply Hsub.
Qed.

Lemma safe_ProjectVMDeleteSuccess vm fin w :
  vm_ID vm = vmID → vm_at st vmID vm → vm_DeletedAt vm = None → untouched w → pr_inv (vm_protocol K) w →
  safe K (ProjectVMDeleteSuccess vm fin) w.
Proof.
  intros Hid Hat Hl Hu Hi. unfold ProjectVMDeleteSuccess.
  apply (safe_bind_any K HK untouched); [done|writes_solve|done|done|]. intros t w1 Hi1 Hu1.
  apply (safe_bind_any K HK untouched); [done|apply finalizedTaskValue_writes|done|done|]. intros taskVal w2 Hi2 Hu2.
  apply wp_bindM, wp_vmDeleteBaseOps; [done|done|done|done|]. intros ops w3 Hi3 Hu3 Hshape.
  apply (safe_raw_txn K HK untouched); [done|done|done| |done].
  intros w4 [_ Hi4] Hu4 _ Hb. by eapply delete_keeps.
Qed.
End Delete.

(** ** All VM operations *)

(** The operations on VMs, each with what it relies on in the store [st] it starts
    from and the keys that nothing else may write meanwhile: a new VM has a new id, a
    bind names a new interface, and the VM a delete projects is the stored one.  The
    operations that write a live row compare its revision, and rely on nothing. *)
Inductive vm_operation (st : estate) : (string → Prop) → ∀ {R}, prog R → Prop :=
| vo_CreateUnscheduledVM p :
    es_map st !! vmKey (cvp_ID p) = None → vm_operation st (eq (vmKey (cvp_ID p))) (CreateUnscheduledVM p)
| vo_UpdateVMSchedulingReason vmID reason message details :
    vm_operation st (λ _, False) (UpdateVMSchedulingReason vmID reason message details)
| vo_DeleteUnscheduledVM vmID : vm_operation st (λ _, False) (DeleteUnscheduledVM vmID)
| vo_BindScheduledVM ctx vmID plan nid :
    writes [] plan → returns (on_ok (plan_ok nid)) plan → es_map st !! vmNicKey nid = None →
    vm_operation st (eq (vmNicKey nid)) (BindScheduledVM ctx vmID plan)
| vo_ProjectVMCreateSuccess rt fin digest : vm_operation st (λ _, False) (ProjectVMCreateSuccess rt fin digest)
| vo_ProjectVMLifecycleSuccess vmID desired phase fin :
    vm_operation st (λ _, False) (ProjectVMLifecycleSuccess vmID desired phase fin)
| vo_ProjectVMDeleteSuccess vm fin :
    vm_at st (vm_ID vm) vm → vm_DeletedAt vm = None →
    vm_operation st (vm_keys st (vm_ID vm)) (ProjectVMDeleteSuccess vm fin).

Lemma vm_operation_safe K {R} (p : prog R) w :
  vm_operation (w_st w) K p → pr_inv (vm_protocol K) w → safe K p w.
Proof.
  intros [] Hi.
  - by apply safe_CreateUnscheduledVM.
  - by apply safe_UpdateVMSchedulingReason.
  - by apply safe_DeleteUnscheduledVM.
  - by apply safe_BindScheduledVM.
  - by apply safe_project_create.
  - by apply safe_ProjectVMLifecycleSuccess.
  - pose proof Hi as [_ Hinv]. by apply (safe_ProjectVMDeleteSuccess (w_st w) Hinv (vm_ID vm)).
Qed.

(** Every own step of a VM operation keeps the invariant and lets VMs evolve. *)
Lemma vm_operation_steps K {R} (p p' : prog R) w evs w' :
  vm_operation (w_st w) K p → estate_wf (w_st w) → vm_inv (w_st w) → open_run (beside K) w p evs w' p' →
  vm_inv (w_st w') ∧ Forall (λ s, vm_inv (w_st s.2) ∧ vm_step (w_st s.1) (w_st s.2)) evs.
Proof.
  intros Hop Hwf Hi Hrun.
  destruct (open_guar (vm_protocol K) p (λ _ _, True) w evs w' p') as [Hf _]; [by intros ? ? []|done|done| |done|].
  { by apply vm_operation_safe. }
  destruct (open_run_inv (λ w, vm_inv (w_st w)) (beside K) w p evs w' p') as [Hi' Hall];
    [by intros w1 w2 (_ & ? & _)|done| |done|].
  { eapply Forall_impl; [exact Hf|]. by intros s (_ & ? & _). }
  split; [done|]. rewrite Forall_forall in *. intros s Hs. split; [by apply Hall|]. by apply Hf.
Qed.

(** C3. Names and addresses are unique.  Whatever else changes the store while a VM
    operation runs, as long as it keeps the VMs consistent and leaves alone what the
    operation relies on, no two live VMs ever have the same name up to case, and no
    two live interfaces on one network the same MAC or the same IPv4 address. *)
Theorem vm_operations_keep_unique K {R} (p p' : prog R) w evs w' :
  vm_operation (w_st w) K p → estate_wf (w_st w) → vm_inv (w_st w) → open_run (beside K) w p evs w' p' →
  (∀ id1 id2 v1 v2, vm_at (w_st w') id1 v1 → vm_at (w_st w') id2 v2 →
     vm_DeletedAt v1 = None → vm_DeletedAt v2 = None →
     to_lower (vm_Name v1) = to_lower (vm_Name v2) → id1 = id2) ∧
  (∀ id1 id2 n1 n2, nic_at (w_st w') id1 n1 → nic_at (w_st w') id2 n2 →
     nic_DeletedAt n1 = None → nic_DeletedAt n2 = None → nic_NetworkID n1 = nic_NetworkID n2 →
     nic_MacAddress n1 = nic_MacAddress n2 ∨
       (is_Some (nic_Ipv4Address n1) ∧ nic_Ipv4Address n1 = nic_Ipv4Address n2) → id1 = id2).
Proof.
  intros Hop Hwf Hi Hrun. destruct (vm_operation_steps K p p' w evs w' Hop Hwf Hi Hrun) as [Hi' _].
  split; intros; [by eapply vm_names_unique|by eapply nic_addresses_unique].
Qed.

(** C26. A VM is bound once, and a deleted VM stays deleted.  In every transaction of a
    VM operation, run beside anything that keeps the VMs consistent, a row stays a
    row; if it is live afterwards it was live before, with the same owner and name,
    and if it was scheduled before it still is, on the same node. *)
Theorem vm_operations_evolve K {R} (p p' : prog R) w evs w' :
  vm_operation (w_st w) K p → estate_wf (w_st w) → vm_inv (w_st w) → open_run (beside K) w p evs w' p' →
  Forall (λ s, ∀ id v, vm_at (w_st s.1) id v → ∃ v', vm_at (w_st s.2) id v' ∧
    (vm_DeletedAt v' = None →
       vm_DeletedAt v = None ∧ vm_OwnerID v' = vm_OwnerID v ∧ vm_Name v' = vm_Name v ∧
       (vm_SchedulingStatus v = VMSchedulingScheduled →
          vm_SchedulingStatus v' = VMSchedulingScheduled ∧ vm_PinnedNodeID v' = vm_PinnedNodeID v))) evs.
Proof.
  intros Hop Hwf Hi Hrun. destruct (vm_operation_steps K p p' w evs w' Hop Hwf Hi Hrun) as [_ Hall].
  eapply Forall_impl; [exact Hall|]. by intros s [_ Hs].
Qed.
End VMDeletion.
