(* ===== verification/VMWorkerProps.v ===== *)
(** * VM workers: settled tasks

    A handler that reports success, and so has its job deleted, leaves the task
    settled; and a lifecycle job whose agent task has vanished fails on every retry
    without the agent being asked again. *)

From S2P Require Import Prelude Models Etcd Prog Keys Client Sequential Rules Footprint Guards.
From S2P Require Import Jobs Tasks Nodes Migrations VMs VMWorkers Instances.
Local Open Scope Z_scope.

Section Settled.
Context `{Etcd, !EtcdLaws, !Libs, !LibsLaws}.

Definition task_at (st : estate) (id : uuid) (t : Task) : Prop := e_val <$> es_map st !! taskKey id = Some (DTask t).

(** The task has ended. *)
Definition settled_task (st : estate) (id : uuid) : Prop := ∃ t, task_at st id t ∧ in_flight (task_Status t) = false.

(** ** Only the task's row matters *)

(** Interference leaves the row of the task alone. *)
Definition beside_task (id : uuid) (w w' : world) : Prop :=
  any_env w w' ∧ es_map (w_st w') !! taskKey id = es_map (w_st w) !! taskKey id.

Definition task_protocol (id : uuid) : protocol := {|
  pr_inv w := estate_wf (w_st w);
  pr_rely := beside_task id;
  pr_guar := any_env;
  pr_ownable _ _ := False
|}.

#[export] Instance task_protocol_laws id : EtcdProtocol (task_protocol id).
Proof.
  split; [split|..]; simpl.
  - intros w w' Hs. by apply any_env_same.
  - intros w w' Hwf [[He _] _]. by eapply estep_wf.
  - intros w w' Hwf [He _]. by eapply estep_wf.
  - done.
  - done.
  - by intros w w' [? _].
Qed.

Lemma request_any w rq st r :
  etcd_exec (w_st w) rq = Some (st, r) → any_env w (advance st w) ∧ plausible rq r.
Proof.
  intros Hexec. destruct rq as [k|p|t].
  - rewrite etcd_get in Hexec. simplify_eq. split; [apply any_env_same, same_advance|done].
  - rewrite etcd_range in Hexec. simplify_eq. split; [apply any_env_same, same_advance|].
    intros [k e] Hke. by apply elem_of_scan in Hke as [_ ?].
  - destruct (accepts (w_st w) t) eqn:Hac; [|by rewrite etcd_txn_rejected in Hexec].
    rewrite etcd_txn in Hexec by done. assert (es_rev (w_st w) < max_i64) as Hmax.
    { apply andb_true_iff in Hac as [_ Hac]. by apply Z.ltb_lt. }
    pose proof (commit_estep (w_st w) t Hmax) as Hes. destruct (commit (w_st w) t) as [st' r']. simplify_eq.
    split; [|done]. split_and!; [done|done|]. unfold states. simpl. set_solver.
Qed.

Section Task.
Context (id : uuid).

Abbreviation pr := (task_protocol id).

Lemma task_settled_same O w w' :
  settled pr O w w' → es_map (w_st w') !! taskKey id = es_map (w_st w) !! taskKey id.
Proof.
  intros (w1 & (Hr & _ & _) & Hs). destruct Hs as (-> & _).
  induction Hr as [|w w1 w2 [[_ E] _] _ IH]; [done|]. by rewrite IH.
Qed.

Lemma own_any w w' : any_env w w' → own_step pr ∅ ∅ w w'.
Proof. intros He. split_and!; [done|by intros ? []|set_solver]. Qed.

(** Any program, for what it returns. *)
Lemma wp_any {R} (Q : R → Prop) (p : prog R) w :
  estate_wf (w_st w) → returns Q p → wp pr p ∅ (λ r O w', O = ∅ ∧ estate_wf (w_st w') ∧ Q r) w.
Proof.
  revert w. induction p as [r|rq k IH|k IH|k IH]; intros w Hwf HQ; simpl in *; [done|..].
  - destruct HQ as [HN HS]. intros w1 (_ & Hwf1 & _). split; [by apply IH|]. intros st r Hexec.
    destruct (request_any w1 rq st r Hexec) as [He Hp].
    assert (estate_wf st) by (destruct He as [He _]; by eapply estep_wf in He).
    split; exists ∅; (split; [by apply own_any|]); apply IH; auto.
  - intros w1 t (_ & Hwf1 & _). by apply IH.
  - intros w1 u (_ & Hwf1 & _) _. exists ∅. split; [by apply own_any, any_env_issue|]. by apply IH.
Qed.

(** ** Results that settle the task *)

(** The program ends in an error, or with the task settled. *)
Definition settles {A} (m : M A) (w : world) : Prop :=
  wp pr m ∅ (λ r O w', O = ∅ ∧ estate_wf (w_st w') ∧ match r with Ok _ => settled_task (w_st w') id | Err _ => True end) w.

Lemma settles_bind {A B} (R : A → Prop) (f : A → M B) (m : M A) w :
  estate_wf (w_st w) → returns (on_ok R) m → (∀ a w', estate_wf (w_st w') → R a → settles (f a) w') →
  settles (m ≫= f) w.
Proof.
  intros Hwf HR Hf. apply wp_bindM. eapply wp_mono; [|by apply (wp_any (on_ok R))].
  intros [a|e] O w' (-> & Hwf' & Ha); [by apply Hf|done].
Qed.

Lemma settles_bind_any {A B} (f : A → M B) (m : M A) w :
  estate_wf (w_st w) → (∀ a w', estate_wf (w_st w') → settles (f a) w') → settles (m ≫= f) w.
Proof. intros Hwf Hf. apply (settles_bind (λ _, True)); [done|by apply returns_any|auto]. Qed.

Lemma settles_fail {A} e w : estate_wf (w_st w) → settles (fail e : M A) w.
Proof. done. Qed.

Lemma settles_wrapped {A} err_text what (m : M A) w : settles m w → settles (wrapped err_text what m) w.
Proof.
  intros Hm. apply wp_bindM, wp_bind. eapply wp_mono; [|exact Hm]. intros [a|e] O w' (-> & Hwf & Hr); by apply wp_ret.
Qed.

(** A transaction that puts an ended task. *)
Definition ended (d : doc) : Prop := ∃ t, d = DTask t ∧ in_flight (task_Status t) = false.

Lemma ended_settles d w ops :
  ended d → branch_valid ops = true → OpPut (taskKey id) d ∈ ops → settled_task (w_st (applied w ops)) id.
Proof. intros (t & -> & Ht) Hb Hin. exists t. split; [|done]. by apply applied_put_in. Qed.

Lemma settles_txn {B} d conds ops elses (f : txn_reply → M B) w :
  ended d → OpPut (taskKey id) d ∈ ops → (conds = [] ∨ OpPut (taskKey id) d ∈ elses) →
  (∀ r w', estate_wf (w_st w') → settled_task (w_st w') id → settles (f r) w') →
  settles (raw_txn conds ops elses ≫= f) w.
Proof.
  intros Hd Hin Helse Hf. apply wp_bindM, (wp_raw_txn_else pr).
  { intros w2 Hw2. split_and!; [done|by eapply (settled_inv pr)|done]. }
  intros w1 b Hw1 Hc Hmax ops' Hb.
  assert (estate_wf (w_st w1)) as Hwf1 by by destruct Hw1 as (_ & ? & _).
  assert (estate_wf (w_st (applied w1 ops'))) as Hwf by (eapply estep_wf; [by apply applied_estep|done]).
  assert (OpPut (taskKey id) d ∈ ops') as Hin'.
  { subst ops'. destruct b; [done|]. destruct Helse as [->|?]; done. }
  split_and!; [by apply own_any, any_env_applied|done|done|done|]. intros rev rs. apply Hf; [done|].
  by eapply ended_settles.
Qed.

Lemma settles_PutJSON t w : in_flight (task_Status t) = false → estate_wf (w_st w) → settles (PutJSON (taskKey id) t) w.
Proof.
  intros Ht Hwf. unfold PutJSON, Put, capValue. case_match; [done|].
  change (settles (raw_txn [] [OpPut (taskKey id) (DTask t)] [] ≫= λ _, mret tt) w).
  apply (settles_txn (DTask t)); [by exists t|by left|by left|done].
Qed.

Lemma settles_UpdateTaskFinalized arg w :
  utf_ID arg = id → in_flight (utf_Status arg) = false → estate_wf (w_st w) → settles (UpdateTaskFinalized arg) w.
Proof.
  intros Hid Hs Hwf. unfold UpdateTaskFinalized, updateTask. rewrite Hid. apply settles_bind_any; [done|]. intros t w1 Hwf1.
  apply (settles_bind (λ t, in_flight (task_Status t) = false)); [done| |]; [|by intros; apply settles_PutJSON].
  apply returns_bindM, returns_any. by intros n.
Qed.

Lemma finalizedTaskValue_returns fin :
  in_flight (utf_Status fin) = false → returns (on_ok ended) (finalizedTaskValue fin).
Proof.
  intros Hs. unfold finalizedTaskValue. apply returns_bindM, returns_any. intros t. apply returns_bindM, returns_any.
  intros n. unfold Marshal, capValue. case_match; simpl; [done|]. by eexists.
Qed.

Lemma vmDeleteBaseOps_returns vm t taskVal taskID :
  returns (on_ok (λ ops, OpPut (taskKey taskID) taskVal ∈ ops)) (vmDeleteBaseOps vm t taskVal taskID).
Proof.
  unfold vmDeleteBaseOps. do 6 (apply returns_bindM, returns_any; intros ?).
  match goal with |- returns _ (mret ?l) => change (OpPut (taskKey taskID) taskVal ∈ l) end.
  rewrite !elem_of_app, list_elem_of_singleton. tauto.
Qed.

Lemma settles_ProjectVMDeleteSuccess vm fin w :
  utf_ID fin = id → in_flight (utf_Status fin) = false → estate_wf (w_st w) → settles (ProjectVMDeleteSuccess vm fin) w.
Proof.
  intros Hid Hs Hwf. unfold ProjectVMDeleteSuccess. rewrite Hid. apply settles_bind_any; [done|]. intros t w1 Hwf1.
  apply (settles_bind ended); [done|by apply finalizedTaskValue_returns|]. intros taskVal w2 Hwf2 Hd.
  eapply settles_bind; [done|apply vmDeleteBaseOps_returns|]. intros ops w3 Hwf3 Hin. simpl in Hin.
  eapply settles_txn; [done|done|by left|]. done.
Qed.

(** Once the task is settled, the rounds left write only the VM. *)
Lemma settled_keep w1 w2 :
  es_map (w_st w2) !! taskKey id = es_map (w_st w1) !! taskKey id →
  settled_task (w_st w1) id → settled_task (w_st w2) id.
Proof. intros E (t & Ht & He). exists t. split; [|done]. unfold task_at. by rewrite E. Qed.

Definition reread (n : nat) (vmID : uuid) (desired : VMDesiredPhase) (t : Z) : M unit :=
  r ← attempt (vmWithRev vmID);
  match r with
  | Err ErrNotFound => mret tt
  | Err e => fail e
  | Ok (fresh, freshRev) => lifecycle_attempts n vmID fresh freshRev desired t []
  end.

Lemma settles_reread n vmID desired t w :
  (∀ row rev w, estate_wf (w_st w) → settled_task (w_st w) id →
     settles (lifecycle_attempts n vmID row rev desired t []) w) →
  estate_wf (w_st w) → settled_task (w_st w) id → settles (reread n vmID desired t) w.
Proof.
  intros IH Hwf Hs. apply wp_bindM, wp_bind. unfold vmWithRev. apply wp_bindM, (wp_raw_get pr).
  intros w2 Hw2. assert (estate_wf (w_st w2)) as Hwf2 by by eapply (settled_inv pr).
  assert (settled_task (w_st w2) id) as Hs2 by (eapply settled_keep; [by eapply task_settled_same|done]).
  split; [done|]. destruct (w_map w2 !! vmKey vmID) as [e|]; [|done].
  destruct (decode_doc (e_val e)) as [v|]; [|done]. case_bool_decide; [|done]. by apply IH.
Qed.

Lemma settles_lifecycle_rest n vmID row rev desired t w :
  estate_wf (w_st w) → settled_task (w_st w) id → settles (lifecycle_attempts n vmID row rev desired t []) w.
Proof.
  revert row rev w. induction n as [|n IH]; intros row rev w Hwf Hs; [done|]. cbn [lifecycle_attempts].
  apply wp_bindM, (wp_Marshal pr); [done|]. apply wp_bindM, (wp_raw_txn_else pr).
  { intros w2 Hw2. split_and!; [done|by eapply (settled_inv pr)|done]. }
  intros w1 b Hw1 _ Hmax ops Hb.
  assert (estate_wf (w_st (applied w1 ops))) as Hwf1.
  { destruct Hw1 as (_ & Hwf1 & _). eapply estep_wf; [by apply applied_estep|done]. }
  assert (settled_task (w_st (applied w1 ops)) id) as Hs1.
  { eapply settled_keep; [|exact Hs]. rewrite applied_avoids; [by eapply task_settled_same, reaches_settled|].
    subst ops. destruct b; avoid_solve. }
  split_and!; [by apply own_any, any_env_applied|done|done|done|]. intros rev' rs. cbn [tr_Succeeded].
  destruct b; [done|]. by apply settles_reread.
Qed.

Lemma settles_lifecycle d n vmID row rev desired t ops w :
  estate_wf (w_st w) → ended d → OpPut (taskKey id) d ∈ ops →
  settles (lifecycle_attempts (S n) vmID row rev desired t ops) w.
Proof.
  intros Hwf Hd Hin. cbn [lifecycle_attempts]. apply settles_bind_any; [done|]. intros val w3 Hwf3.
  eapply settles_txn; [done|by right|by right|]. intros r w4 Hwf4 Hs4. destruct (tr_Succeeded r); [done|].
  apply settles_reread; [|done|done]. intros. by apply settles_lifecycle_rest.
Qed.

Lemma settles_ProjectVMLifecycleSuccess vmID desired phase fin w :
  utf_ID fin = id → in_flight (utf_Status fin) = false → estate_wf (w_st w) →
  settles (ProjectVMLifecycleSuccess vmID desired phase fin) w.
Proof.
  intros Hid Hs Hwf. unfold ProjectVMLifecycleSuccess. apply settles_bind_any; [done|]. intros o w1 Hwf1.
  unfold projectVMLifecycle. rewrite Hid. do 3 (apply settles_bind_any; [done|]; clear dependent w1; intros ? w1 Hwf1).
  apply (settles_bind ended); [done|by apply finalizedTaskValue_returns|]. intros taskVal w2 Hwf2 Hd. cbv zeta.
  destruct o as [[row rev]|].
  - apply (settles_lifecycle taskVal 4); [done|done|set_solver].
  - eapply settles_txn; [done|set_solver|by left|done].
Qed.

(** ** Handlers *)
Section Handlers.
Context (err_text : err → string) (agent_text : agent_error → string).
Context (marshalTaskError : string → string → bytes) (client : agent_client).

Lemma settles_failTerminal code cause w :
  estate_wf (w_st w) → settles (failTerminal err_text marshalTaskError id code cause) w.
Proof.
  intros Hwf. unfold failTerminal, finalizeFailed. apply wp_bindM, wp_bind.
  eapply wp_mono; [|by apply settles_UpdateTaskFinalized]. intros [a|e] O w' (-> & Hwf' & Hr); by apply wp_ret.
Qed.

Lemma settles_failRun code cause w :
  estate_wf (w_st w) → settles (failRun err_text marshalTaskError id code cause) w.
Proof. intros Hwf. unfold failRun. apply settles_bind_any; [done|]. by intros. Qed.

Lemma settles_wrapped_bind {A B} (Q : A → world → Prop) what (m : M A) (f : A → M B) w :
  wp pr m ∅ (λ r O w', O = ∅ ∧ estate_wf (w_st w') ∧ match r with Ok a => Q a w' | Err _ => True end) w →
  (∀ a w', estate_wf (w_st w') → Q a w' → settles (f a) w') → settles (wrapped err_text what m ≫= f) w.
Proof.
  intros Hm Hf. apply wp_bindM, wp_bindM, wp_bind. eapply wp_mono; [|exact Hm].
  intros [a|e] O w' (-> & Hwf & HQ); apply wp_ret; [by apply Hf|done].
Qed.

(** A task that is already settled is recognised. *)
Lemma wp_UpdateTaskRunning w :
  estate_wf (w_st w) →
  wp pr (UpdateTaskRunning id) ∅
    (λ r O w', O = ∅ ∧ estate_wf (w_st w') ∧
       match r with Ok b => b = true → settled_task (w_st w') id | Err _ => True end) w.
Proof.
  intros Hwf. unfold UpdateTaskRunning, TaskByID. apply wp_bindM, wp_bindM, (wp_GetJSON pr).
  - intros w1 e Hw1. split_and!; [done|by eapply (settled_inv pr)|done].
  - intros w1 Hw1 _. split_and!; [done|by eapply (settled_inv pr)|done].
  - intros w1 e t Hw1 Hk He. assert (estate_wf (w_st w1)) as Hwf1 by by eapply (settled_inv pr). apply wp_mret.
    destruct (isCommittedTerminal (task_Status t)) eqn:Ht.
    + split_and!; [done|done|]. intros _. exists t. split; [|by destruct (task_Status t)]. unfold task_at.
      fold (w_map w1). rewrite Hk. simpl. by rewrite He.
    + eapply wp_mono; [|apply (wp_any (on_ok (eq false))); [done|]].
      * intros [b|e'] O w' (-> & Hwf' & Hb); [|done]. split_and!; [done|done|]. simpl in Hb. by subst.
      * cbv zeta. apply returns_bindM, returns_any. intros t'. apply returns_bindM, returns_any. done.
Qed.

Lemma settles_load args body w :
  vja_TaskID args = id → estate_wf (w_st w) → (∀ vm node w', estate_wf (w_st w') → settles (body vm node) w') →
  settles (load_vm_node err_text marshalTaskError args body) w.
Proof.
  intros Hid Hwf Hbody. unfold load_vm_node. rewrite Hid.
  eapply settles_wrapped_bind; [by apply wp_UpdateTaskRunning|]. intros [] w1 Hwf1 Hs.
  { split_and!; [done|done|by apply Hs]. }
  apply settles_bind_any; [done|]. intros [vm|e] w2 Hwf2; [|by apply settles_failRun].
  apply settles_bind_any; [done|]. intros [node|e] w3 Hwf3; [by apply Hbody|].
  destruct e; first [by apply Hbody|by apply settles_failRun].
Qed.

Lemma settles_project_delete vm res w :
  estate_wf (w_st w) → settles (project_delete err_text vm id res) w.
Proof. intros Hwf. by apply settles_wrapped, settles_ProjectVMDeleteSuccess. Qed.

Lemma settles_runDelete staleGrace args w :
  vja_TaskID args = id → estate_wf (w_st w) →
  settles (runDelete err_text agent_text marshalTaskError client staleGrace args) w.
Proof.
  intros Hid Hwf. unfold runDelete. cbv zeta. apply settles_load; [done|done|]. intros vm node w1 Hwf1. rewrite Hid.
  apply settles_bind_any; [done|]. intros dead w2 Hwf2.
  destruct dead; [by apply settles_project_delete|]. destruct node as [node|]; [|by apply settles_project_delete].
  apply settles_bind_any; [done|]. intros task w3 Hwf3. apply settles_bind_any; [done|].
  intros [u|e] w4 Hwf4; [by apply settles_project_delete|]. apply settles_bind_any; [done|]. intros _ w5 Hwf5.
  case_bool_decide; [by apply settles_project_delete|by apply settles_failRun].
Qed.

Lemma settles_runLifecycle kind staleGrace args w :
  vja_TaskID args = id → estate_wf (w_st w) →
  settles (runLifecycle err_text agent_text marshalTaskError client kind staleGrace args) w.
Proof.
  intros Hid Hwf. unfold runLifecycle. cbv zeta. apply settles_load; [done|done|]. intros vm node w1 Hwf1. rewrite Hid.
  apply settles_bind_any; [done|]. intros dead w2 Hwf2.
  destruct dead; [by apply settles_failTerminal|]. destruct node as [node|]; [|by apply settles_failTerminal].
  apply settles_bind_any; [done|]. intros task w3 Hwf3. apply settles_bind_any; [done|].
  intros [u|e] w4 Hwf4; [|by apply settles_failRun]. by apply settles_wrapped, settles_ProjectVMLifecycleSuccess.
Qed.
End Handlers.
End Task.

(** The handlers of the jobs that act on a VM. *)
Inductive vm_worker err_text agent_text marshalTaskError (client : agent_client) (args : VMJobArgs) : M unit → Prop :=
| vw_runDelete staleGrace :
    vm_worker err_text agent_text marshalTaskError client args
      (runDelete err_text agent_text marshalTaskError client staleGrace args)
| vw_runLifecycle kind staleGrace :
    kind ∈ LifecycleKinds →
    vm_worker err_text agent_text marshalTaskError client args
      (runLifecycle err_text agent_text marshalTaskError client kind staleGrace args).

Lemma vm_worker_settles err_text agent_text marshalTaskError client args p w :
  vm_worker err_text agent_text marshalTaskError client args p → estate_wf (w_st w) → settles (vja_TaskID args) p w.
Proof. intros [staleGrace|kind staleGrace _] Hwf; [by apply settles_runDelete|by apply settles_runLifecycle]. Qed.

(** A worker that reports success has settled its task.  When the handler of a
    delete or lifecycle job returns nil, for which the job is deleted, the task of
    the job has ended; whatever the agent answers and whatever else changes the
    store meanwhile, as long as nothing else writes the task. *)
Theorem worker_success_settles_task err_text agent_text marshalTaskError client args p w evs w' :
  vm_worker err_text agent_text marshalTaskError client args p → estate_wf (w_st w) →
  open_run (beside_task (vja_TaskID args)) w p evs w' (Ret (Ok tt)) →
  settled_task (w_st w') (vja_TaskID args).
Proof.
  intros Hp Hwf Hrun. set (id := vja_TaskID args) in *.
  destruct (open_guar (task_protocol id) p
    (λ r w', match r with Ok _ => settled_task (w_st w') id | Err _ => True end) w evs w' (Ret (Ok tt))) as [_ Hr];
    [by intros ? ? []| |done| |done|done].
  - intros [u|e] w1 w2 _ [_ E]; [|done]. by apply settled_keep.
  - eapply wp_mono; [|by eapply vm_worker_settles]. by intros r O w1 (_ & _ & ?).
Qed.
End Settled.

(** ** An agent task that vanished *)
Section Vanished.
Context `{Etcd, !EtcdLaws, !Libs, !LibsLaws} (clock : Z) (supply : nat → uuid).
Context (err_text : err → string) (agent_text : agent_error → string) (marshalTaskError : string → string → bytes).
Context (poll : string → uuid → result agent_error TaskTerminal).
Context (kind : LifecycleKind) (staleGrace : Z) (args : VMJobArgs) (aid : uuid).

Abbreviation run := (run clock supply).

(** The handler against an agent that answers polls with [poll]. *)
Definition job (client : agent_client) : M unit :=
  runLifecycle err_text agent_text marshalTaskError client kind staleGrace args.

(** The task records an agent task, the VM and its node are there, and the agent no
    longer knows the task. *)
Definition vanished (st : estate) : Prop :=
  (∃ t, task_at st (vja_TaskID args) t ∧ task_AgentTaskID t = Some aid ∧ isCommittedTerminal (task_Status t) = false) ∧
  (∃ v, e_val <$> es_map st !! vmKey (vja_VMID args) = Some (DVM v) ∧ vm_DeletedAt v = None) ∧
  ∃ node seen code message, e_val <$> es_map st !! nodeKey (vja_NodeID args) = Some (DNode node) ∧
    node_DeletedAt node = None ∧ node_LastHeartbeatAt node = Some seen ∧ clock - staleGrace ≤ seen ∧
    poll (DialURL (node_Name node)) aid = Err (AgentError 404 code message).

Lemma run_row {A} `{Codec A} k (v : A) st n :
  e_val <$> es_map st !! k = Some (encode_doc v) → run (GetJSON (A := A) k) st n = (Ok (Some v), st, n).
Proof.
  intros Hk. rewrite run_GetJSON. destruct (es_map st !! k) as [e|]; [|done]. simpl in Hk. injection Hk as ->.
  by rewrite decode_encode_doc.
Qed.

(** A put of the task's row succeeds or changes nothing. *)
Lemma run_put_task t st n :
  run (PutJSON (taskKey (vja_TaskID args)) t) st n = (Ok tt, put_row (taskKey (vja_TaskID args)) (DTask t) st, n) ∨
  ∃ e, run (PutJSON (taskKey (vja_TaskID args)) t) st n = (Err e, st, n).
Proof.
  unfold PutJSON, Put, capValue. destruct (MaxValueBytes <? _); [right; by eexists|].
  rewrite run_bindM, run_mret, run_bindM. destruct (decide (es_rev st < max_i64)) as [Hm|Hm].
  - left. by rewrite run_put_txn by (done || simpl; lia).
  - right. exists ErrEtcd. unfold raw_txn, call. cbn [Prog.run]. rewrite etcd_txn_rejected; [done|].
    unfold accepts. apply andb_false_iff. right. apply Z.ltb_ge. unfold w_rev in Hm. lia.
Qed.

Lemma put_task_at t st : task_at (put_row (taskKey (vja_TaskID args)) (DTask t) st) (vja_TaskID args) t.
Proof. unfold task_at, put_row. simpl. by rewrite lookup_insert_eq. Qed.

(** The row of the task is the only one that changes, and keeps the agent task. *)
Lemma vanished_put t st :
  vanished st → task_AgentTaskID t = Some aid → isCommittedTerminal (task_Status t) = false →
  vanished (put_row (taskKey (vja_TaskID args)) (DTask t) st).
Proof.
  intros (_ & (v & Hv & Hl) & Hnode) Ha Ht. split; [exists t; split; [apply put_task_at|done]|].
  unfold put_row. cbn [es_map]. split.
  - exists v. by rewrite lookup_insert_ne by key_neq.
  - destruct Hnode as (node & seen & code & message & Hn & ?). exists node, seen, code, message.
    by rewrite lookup_insert_ne by key_neq.
Qed.

Lemma run_TaskByID t st n : task_at st (vja_TaskID args) t → run (TaskByID (vja_TaskID args)) st n = (Ok t, st, n).
Proof. intros Ht. unfold TaskByID. by rewrite run_bindM, (run_row _ t). Qed.

Lemma run_UpdateTaskRunning st n :
  vanished st →
  (∃ st', vanished st' ∧ run (UpdateTaskRunning (vja_TaskID args)) st n = (Ok false, st', n)) ∨
  ∃ e, run (UpdateTaskRunning (vja_TaskID args)) st n = (Err e, st, n).
Proof.
  intros Hst. pose proof Hst as ((t & Ht & Ha & Hs) & _). unfold UpdateTaskRunning.
  rewrite run_bindM, (run_TaskByID t) by done. rewrite Hs. cbv zeta. rewrite run_bindM.
  set (t1 := t <| task_Status := TaskStatusRunning |>).
  assert (∃ t2, task_AgentTaskID t2 = Some aid ∧ task_Status t2 = TaskStatusRunning ∧
    run (match task_StartedAt t1 with
         | Some _ => mret t1
         | None => n0 ← now; mret (t1 <| task_StartedAt := Some n0 |>)
         end : M Task) st n = (Ok t2, st, n)) as (t2 & Ha2 & Hs2 & ->).
  { destruct (task_StartedAt t1); [by exists t1|]. by exists (t1 <| task_StartedAt := Some clock |>). }
  rewrite run_bindM. set (t3 := t2 <| task_Attempts := _ |>).
  destruct (run_put_task t3 st n) as [-> |[e ->]]; [left|right; by exists e].
  eexists. split; [|done]. apply vanished_put; [done|done|]. unfold t3. simpl. by rewrite Hs2.
Qed.

Lemma run_failRun st n code cause :
  vanished st → ∃ e st', vanished st' ∧
    run (failRun err_text marshalTaskError (vja_TaskID args) code cause) st n = (Err e, st', n).
Proof.
  intros Hst. pose proof Hst as ((t & Ht & Ha & Hs) & _). unfold failRun, finalizeFailed.
  rewrite run_bindM, run_bindM, run_attempt. unfold UpdateTaskFinalized, updateTask. cbn [utf_ID].
  rewrite run_bindM, (run_TaskByID t) by done. rewrite run_bindM, run_bindM, run_now, run_mret.
  match goal with |- context [PutJSON _ ?x] => destruct (run_put_task x st n) as [-> |[e ->]] end; cbn [fst snd].
  - eexists _, _. split; [|done]. by apply vanished_put.
  - eexists _, _. split; [|done]. done.
Qed.

(** An attempt fails, asks the agent for nothing, and leaves things as they were. *)
Lemma attempt_vanished st n :
  vanished st → ∃ e st', vanished st' ∧
    ∀ client, PollTask client = poll → run (job client) st n = (Err e, st', n).
Proof.
  intros Hst. unfold job, runLifecycle, load_vm_node, wrapped.
  destruct (run_UpdateTaskRunning st n Hst) as [(st1 & Hst1 & E1)|[e E1]].
  2: { exists (ErrOther ("update task running" +:+ ": " +:+ err_text e)), st. split; [done|]. intros client _.
       cbv zeta. by rewrite run_bindM, run_bindM, run_attempt, E1. }
  pose proof Hst1 as ((t & Ht & Ha & Hs) & (v & Hv & Hl) & node & seen & code & message & Hn & Hnl & Hseen & Hfresh & Hpoll).
  destruct (run_failRun st1 n (classifyVMError (AgentError 404 code message) (lk_FailureCode kind))
    (ErrOther (agent_text (AgentError 404 code message))) Hst1) as (e & st' & Hst' & Efail).
  exists e, st'. split; [done|]. intros client Hclient. cbv zeta.
  rewrite run_bindM, run_bindM, run_attempt, E1. cbn [fst snd]. rewrite run_mret.
  rewrite run_bindM, run_attempt. unfold VMByID. rewrite run_bindM, (run_row _ v) by done.
  rewrite (bool_decide_eq_true_2 _ Hl), run_mret. cbn [fst snd].
  rewrite run_bindM, run_attempt. unfold NodeByID. rewrite run_bindM, (run_row _ node) by done.
  rewrite (bool_decide_eq_true_2 _ Hnl), run_mret. cbn [fst snd].
  unfold nodeTerminallyDead. rewrite Hseen, run_bindM, run_bindM, run_now, run_mret.
  rewrite (proj2 (Z.ltb_ge seen (clock - staleGrace))) by lia.
  rewrite run_bindM, run_bindM, run_attempt, (run_TaskByID t) by done. cbn [fst snd]. rewrite run_mret.
  rewrite Ha. unfold lifecycle_Execute, post_or_resume, poll_outcome. rewrite run_bindM, run_bindM, run_mret, Hclient, Hpoll.
  rewrite run_mret. exact Efail.
Qed.

(** [k] attempts at the job, one after the other. *)
Fixpoint retries (client : agent_client) (k : nat) (st : estate) : list (result err unit) * estate :=
  match k with
  | O => ([], st)
  | S k => let '(r, st', _) := run (job client) st 0%nat in (r :: (retries client k st').1, (retries client k st').2)
  end.

(** C40. A lifecycle job whose agent task has vanished never recovers.  Once the agent has
    lost the task that the control plane recorded (it restarted), every attempt at a
    start, stop, poweroff or reboot fails on the poll of that task, the record is
    never cleared, and the agent is never asked for the operation again: however its
    requests would be answered, all attempts end the same way. *)
Theorem lifecycle_never_recovers client k st :
  vanished st → PollTask client = poll →
  Forall (λ r, ∃ e, r = Err e) (retries client k st).1 ∧
  (∃ t, task_at (retries client k st).2 (vja_TaskID args) t ∧ task_AgentTaskID t = Some aid) ∧
  ∀ client', PollTask client' = poll → retries client' k st = retries client k st.
Proof.
  intros Hst Hc. revert st Hst. induction k as [|k IH]; intros st Hst.
  { split_and!; [done| |done]. destruct Hst as ((t & Ht & Ha & _) & _). by exists t. }
  cbn [retries]. destruct (attempt_vanished st 0 Hst) as (e & st' & Hst' & Erun). rewrite (Erun client Hc).
  destruct (IH st' Hst') as (Hf & Ht & Heq). split_and!; [constructor; [by exists e|done]|done|].
  intros client' Hc'. by rewrite (Erun client' Hc'), Heq.
Qed.
End Vanished.
