(* ===== verification/VMRuns.v ===== *)
(** * Runs of VM operations

    Concrete runs: a bind that allocates an address, the witnesses of the
    guarantees, and the overlap of two deletes of one VM. *)

From S2P Require Import Prelude Models Etcd Prog Keys Client Rules Footprint Guards Jobs Tasks Nodes Migrations VMs VMWorkers.
From S2P Require Import VMInvariant VMProps VMDeletion VMWorkerProps Instances.
Local Open Scope Z_scope.

Module VMRuns.
Import Concrete.
Local Open Scope string_scope.

Definition spec : VMSpec :=
  MkVMSpec "" "x86_64" "http://img" "qcow2" "if_not_present" 2 1024 "host" "q35" None None false false None "" "".
Definition params (n : N) (name : string) : CreateVMParams := MkCreateVMParams (id n) (id 50) name spec "" None None.

(** "web" waits for a node; "db" runs on node 8 with an interface on network 5. *)
Definition web : VM := unscheduled_vm (params 1 "web") 10.
Definition db : VM := scheduled_vm (unscheduled_vm (params 2 "db") 10) (id 8) 20.
Definition subnet : Prefix := MkPrefix (10 * 2 ^ 24) 29.
Definition lan : Network :=
  MkNetwork (id 5) "lan" "overlay" "br0" true "nat" None 1500 (Some subnet) None true true None "" 0 0 None.
Definition db_nic : VMNic :=
  MkVMNic (id 20) (id 2) (id 5) 0 "virtio" "02:00:00:00:00:01" (Some (10 * 2 ^ 24 + 1)%Z) None 1 0 0 None.

Definition rows : list (string * doc) :=
  [(vmKey (id 1), DVM web); (vmNameGuard "web", DStr (uuid_string (id 1)));
   (vmUnscheduledIndexKey (id 1), DStr (uuid_string (id 1)));
   (vmKey (id 2), DVM db); (vmNameGuard "db", DStr (uuid_string (id 2)));
   (networkKey (id 5), DNetwork lan); (vmNicKey (id 20), DVMNic db_nic);
   (vmNicVMIndexKey (id 2) (id 20), DStr (uuid_string (id 20)));
   (vmNicNetworkIndexKey (id 5) (id 20), DStr (uuid_string (id 20)));
   (vmNicMACGuard (id 5) "02:00:00:00:00:01", DStr (uuid_string (id 20)));
   (vmNicIPv4ReservationKey (id 5) (10 * 2 ^ 24 + 1), DStr (uuid_string (id 20)))].
Definition start : world := stored_world rows.

Lemma row_in k d : e_val <$> es_map (w_st start) !! k = Some d → (k, d) ∈ rows.
Proof.
  intros Hk. destruct (es_map (w_st start) !! k) as [e|] eqn:E; [|done]. injection Hk as Hk.
  apply stored_lookup in E as [Hin _]. by rewrite Hk in Hin.
Qed.

Ltac row_cases H := unfold rows in H; rewrite !elem_of_cons, elem_of_nil in H;
  repeat (destruct H as [H|H]); [..|done]; apply pair_equal_spec in H as [? ?]; try discriminate.

Lemma start_vm_inv : vm_inv (w_st start).
Proof.
  split_and!.
  - intros vid v Hin%row_in. row_cases Hin.
    all: match goal with E : vmKey _ = vmKey _ |- _ => apply (inj vmKey) in E as -> end;
      match goal with E : DVM _ = DVM _ |- _ => injection E as -> end; (split; [done|]); intros _; vm_compute; reflexivity.
  - intros nid n Hin%row_in _. row_cases Hin.
    match goal with E : vmNicKey _ = vmNicKey _ |- _ => apply (inj vmNicKey) in E as -> end.
    match goal with E : DVMNic _ = DVMNic _ |- _ => injection E as -> end.
    split; [vm_compute; reflexivity|]. intros ip [= <-]. vm_compute. reflexivity.
  - intros k e Hk He. apply stored_lookup in He as [Hin _]. exists (id 20), db_nic. row_cases Hin.
    all: try (exfalso; subst k; revert Hk; key_in_solve).
    split_and!; [done|done|vm_compute; reflexivity|done].
Qed.

(** The scheduler places "web" on node 9 with a new interface on the network of "db". *)
Definition plan : M VMBindWrites :=
  mret (MkVMBindWrites (id 9) (MkCreateVMDiskParams (id 1) (id 7) 0 "virtio" 10 "image" "qcow2" false "none" "unmap" (Some 1))
    (Some (MkCreateVMNicParams (id 21) (id 1) (id 5) 0 "virtio" "02:00:00:00:00:02" None None))
    (MkCreateTaskParams (id 30) "vm.create" TaskStatusPending "vm" (Some (id 1)) "" 3 None None None "")
    (MkJobArgs "vm.create" (Some ""))).

Definition bind : M unit := BindScheduledVM None (id 1) plan.
Definition bound := drive 40 100 start bind.

Lemma bind_operation : vm_operation (w_st start) (eq (vmNicKey (id 21))) bind.
Proof. apply vo_BindScheduledVM; [done|by intros nic [= <-]|vm_compute; reflexivity]. Qed.

Definition web_nic : VMNic :=
  MkVMNic (id 21) (id 1) (id 5) 0 "virtio" "02:00:00:00:00:02" (Some (10 * 2 ^ 24 + 2)) None 1 100 100 None.

(** The bind succeeds; the interface gets 10.0.0.2, the lowest address that is not
    taken, and it is the only one with that address. *)
Lemma vm_operations_keep_unique_witness :
  bound.2 = Ret (Ok tt) ∧ nic_at (w_st bound.1.2) (id 21) web_nic ∧
  ∀ nid n, nic_at (w_st bound.1.2) nid n → nic_DeletedAt n = None → nic_NetworkID n = id 5 →
    nic_Ipv4Address n = Some (10 * 2 ^ 24 + 2) → nid = id 21.
Proof.
  split; [vm_compute; reflexivity|].
  assert (nic_at (w_st bound.1.2) (id 21) web_nic) as Hweb by (vm_compute; reflexivity). split; [exact Hweb|].
  destruct (vm_operations_keep_unique _ bind bound.2 start bound.1.1 bound.1.2 bind_operation (stored_wf _) start_vm_inv
    (drive_open_run _ _ _ _ _)) as [_ Hn].
  intros nid n Hat Hl Hnet Hip.
  refine (Hn nid (id 21) n web_nic Hat Hweb Hl eq_refl Hnet (or_intror (conj _ Hip))). rewrite Hip. by eexists.
Defined.

(** "web" becomes scheduled on node 9; "db" stays on node 8. *)
Lemma vm_operations_evolve_witness :
  (vm_PinnedNodeID <$> run_result 100 supply (VMByID (id 1)) (w_st bound.1.2) 0) = Ok (Some (id 9)) ∧
  Forall (λ s, vm_at (w_st s.1) (id 2) db →
    ∃ v, vm_at (w_st s.2) (id 2) v ∧ (vm_DeletedAt v = None → vm_PinnedNodeID v = Some (id 8))) bound.1.1.
Proof.
  split; [vm_compute; reflexivity|].
  pose proof (vm_operations_evolve _ bind bound.2 start bound.1.1 bound.1.2 bind_operation (stored_wf _) start_vm_inv
    (drive_open_run _ _ _ _ _)) as Hf.
  eapply Forall_impl; [exact Hf|]. intros s Hs Hdb. destruct (Hs (id 2) db Hdb) as (v & Hv & He). exists v.
  split; [exact Hv|]. intros Hl. destruct (He Hl) as (_ & _ & _ & Hp). exact (proj2 (Hp eq_refl)).
Defined.

(** ** Two deletes of one VM *)

(** "db", on a node that is gone, and two tasks to delete it. *)
Definition delete_task (n : N) : Task :=
  MkTask (id n) "vm.delete" TaskStatusPending "vm" (Some (id 2)) None "" "" "" 0 3 None None None 0 None None.
Definition deleting : world :=
  stored_world ((taskKey (id 31), DTask (delete_task 31)) :: (taskKey (id 32), DTask (delete_task 32)) :: rows).

Definition no_agent : agent_client :=
  let gone (_ _ _ : string) : result agent_error uuid := Err (OtherError "no route") in
  MkAgentClient gone gone gone gone gone (λ _ _, Err (OtherError "no route")).

Definition worker (n : N) : thread :=
  Thread _ (λ _ _, True) (runDelete (λ _, "error") (λ _, "error") (λ _ _, "") no_agent 300 (MkVMJobArgs (id n) (id 2) (id 8))).
Definition create (n : N) : thread := Thread _ (λ _ _, True) (CreateUnscheduledVM (params n "DB")).

(** One worker has read the VM when the other deletes it; the name is taken by a new
    VM, and released by the first worker. *)
Definition overlap : config :=
  schedule 100 (repeat 0%nat 6 ++ repeat 1%nat 30 ++ repeat 2%nat 10 ++ repeat 0%nat 30 ++ repeat 3%nat 10)
    (deleting, [worker 31; worker 32; create 3; create 4]).

(** C39. A delete drops the name guard of the VM it read, whoever holds it by then.  Two
    delete tasks of one VM both succeed, and what the second drops is the guard of a
    VM created under the name in between: two live VMs end up with the same name. *)
Lemma second_delete_frees_name :
  rtc (cstep (λ _, True)) (deleting, []) overlap ∧
  overlap.2 = [Thread _ (λ _ _, True) (Ret (Ok tt) : M unit); Thread _ (λ _ _, True) (Ret (Ok tt) : M unit);
               Thread _ (λ _ _, True) (Ret (Ok (id 3)) : M uuid); Thread _ (λ _ _, True) (Ret (Ok (id 4)) : M uuid)] ∧
  (vm_Name <$> run_result 200 supply (VMByID (id 3)) (w_st overlap.1) 0) = Ok "DB" ∧
  (vm_Name <$> run_result 200 supply (VMByID (id 4)) (w_st overlap.1) 0) = Ok "DB".
Proof.
  split; [|vm_compute; repeat split; reflexivity].
  trans (deleting, [worker 31; worker 32; create 3; create 4]); [apply spawn_rtc; by repeat constructor|apply schedule_rtc].
Qed.

(** ** Workers *)

Definition delete_job : M unit :=
  runDelete (λ _, "error") (λ _, "error") (λ _ _, "") no_agent 300 (MkVMJobArgs (id 31) (id 2) (id 8)).
Definition deleted := drive 40 100 deleting delete_job.

Lemma worker_success_settles_task_witness :
  deleted.2 = Ret (Ok tt) ∧ settled_task (w_st deleted.1.2) (id 31) ∧
  run_result 200 supply (VMByID (id 2)) (w_st deleted.1.2) 0 = Err ErrNotFound.
Proof.
  assert (deleted.2 = Ret (Ok tt)) as E by (vm_compute; reflexivity). split; [exact E|].
  pose proof (drive_open_run (beside_task (id 31)) 40 100 deleting delete_job) as Hrun.
  change (drive 40 100 deleting delete_job) with deleted in Hrun. rewrite E in Hrun. split; [|vm_compute; reflexivity].
  exact (worker_success_settles_task _ _ _ no_agent (MkVMJobArgs (id 31) (id 2) (id 8)) delete_job deleting _ _
    (vw_runDelete _ _ _ _ _ 300) (stored_wf _) Hrun).
Defined.

(** "db" runs on a live node; the agent has lost the task of a stop of "db", and
    would accept a new one. *)
Definition node : Node :=
  (new_node (MkCreateNodeParams (id 8) "n8" false "x86_64" "" "" "" 0 0 NodeStatusReady) 0) <| node_LastHeartbeatAt := Some 90 |>.
Definition stop_task : Task :=
  MkTask (id 33) "vm.stop" TaskStatusRunning "vm" (Some (id 2)) None "" "" "" 1 3 None (Some (id 40)) None 0 (Some 5) None.
Definition stopping : estate := stored ((taskKey (id 33), DTask stop_task) :: (nodeKey (id 8), DNode node) :: rows).

Definition poll (_ : string) (_ : uuid) : result agent_error TaskTerminal := Err (AgentError 404 "not_found" "").
Definition restarted : agent_client :=
  let accept (_ _ _ : string) : result agent_error uuid := Ok (id 41) in
  MkAgentClient accept accept accept accept accept poll.
Definition stop : LifecycleKind := MkLifecycleKind "vm.stop" "stop" (Some VmDesiredPhaseStopped) VmPhaseStopped "vm_stop_failed".

Lemma lifecycle_never_recovers_witness :
  stop ∈ LifecycleKinds ∧
  Forall (λ r, ∃ e, r = Err e)
    (retries 100 supply (λ _, "error") (λ _, "error") (λ _ _, "") stop 300 (MkVMJobArgs (id 33) (id 2) (id 8)) restarted 3 stopping).1.
Proof.
  split; [right; left|].
  refine (proj1 (lifecycle_never_recovers 100 supply (λ _, "error") (λ _, "error") (λ _ _, "") poll stop 300
    (MkVMJobArgs (id 33) (id 2) (id 8)) (id 40) restarted 3 stopping _ eq_refl)).
  split; [exists stop_task; split_and!; vm_compute; reflexivity|]. split; [exists db; split; vm_compute; reflexivity|].
  exists node, 90, "not_found", "". split_and!; try (vm_compute; reflexivity). lia.
Defined.
End VMRuns.
