(* ===== verification/Dispatcher.v ===== *)
(** * The job dispatcher: internal/worker/dispatcher.go

    The dispatcher claims pending jobs, runs their handlers, and completes, retries
    or requeues them by how the handler ends, while a renewer keeps the lease.  With
    the VM workers as handlers, a job leaves the queue only when its task has ended. *)

From S2P Require Import Prelude Models Etcd Prog Keys Client Rules Footprint Guards.
From S2P Require Import Jobs JobFence Tasks Nodes Migrations VMs VMWorkers VMWorkerProps Footprints Instances VMRuns.
Local Open Scope Z_scope.

Section Dispatcher.
Context `{Libs}.

(** [Register]: a kind has at least one attempt. *)
Definition registered_attempts (maxAttempts : Z) : Z := if maxAttempts <? 1 then 1 else maxAttempts.

(** What a try to start a handler finds: a slot of the pool, none, or the end of the
    run. *)
Inductive slot := SlotFree | SlotFull | Stopped.

(** The jobs that are started, with the tokens of their claims.  [handlers] has the
    attempts of the registered kinds; [slots] is what each try finds. *)
Fixpoint drain_jobs (handlers : string → option Z) (jobs : list Job) (slots : list slot)
    (started : list (Job * string * Z)) : M (list (Job * string * Z)) :=
  match jobs with
  | [] => mret started
  | j :: jobs =>
    match handlers (job_Kind j), slots with
    | None, _ => drain_jobs handlers jobs slots started
    | Some _, [] | Some _, Stopped :: _ => mret started
    | Some _, SlotFull :: slots => drain_jobs handlers jobs slots started
    | Some maxAttempts, SlotFree :: slots =>
      r ← attempt (ClaimJob (job_ID j));
      match r with
      | Ok (true, token) => drain_jobs handlers jobs slots (started ++ [(j, token, maxAttempts)])
      | _ => drain_jobs handlers jobs slots started
      end
    end
  end.

Definition drain (handlers : string → option Z) (slots : list slot) : M (list (Job * string * Z)) :=
  r ← attempt PendingJobs;
  match r with
  | Err _ => mret []
  | Ok jobs => drain_jobs handlers jobs slots []
  end.

(** [cancelled] says whether the handler's context had ended when it returned: the
    process stops, leadership or the lease is lost. *)
Definition execute (handler : M unit) (id : Z) (token : string) (maxAttempts : Z) (cancelled : bool) : M unit :=
  herr ← attempt handler;
  match herr with
  | Err _ =>
    if cancelled then _ ← attempt (RequeueJob id token); mret tt
    else _ ← attempt (RetryJob id token maxAttempts); mret tt
  | Ok _ => _ ← attempt (CompleteJob id); mret tt
  end.

(** The renewals of [ticks] intervals: whether the lease was lost, for which the
    handler is cancelled. *)
Fixpoint renewer (ticks : nat) (id : Z) (token : string) : M bool :=
  match ticks with
  | O => mret false
  | S ticks =>
    r ← attempt (RenewJobLease id token);
    match r with
    | Ok false => mret true
    | _ => renewer ticks id token
    end
  end.
End Dispatcher.

(** ** Runs of composed programs *)
Section Runs.
Context `{Etcd}.

Lemma pstep_view {R} w (p : prog R) w1 p1 :
  pstep w p w1 p1 →
  match p with
  | Ret _ => False
  | Call rq k =>
    (w1 = w ∧ p1 = k None) ∨
    ∃ st r, etcd_exec (w_st w) rq = Some (st, r) ∧ w1 = advance st w ∧ (p1 = k (Some r) ∨ p1 = k None)
  | Now k => ∃ t, w1 = w ∧ p1 = k t
  | NewUuid k => ∃ u, (u ∉ w_issued w) ∧ w1 = issue u w ∧ p1 = k u
  end.
Proof. destruct 1; eauto 10. Qed.

Lemma pstep_bind {A B} (f : A → prog B) w (p : prog A) w1 q :
  pstep w (prog_bind f p) w1 q → (∃ r, p = Ret r) ∨ ∃ p1, pstep w p w1 p1 ∧ q = prog_bind f p1.
Proof.
  destruct p as [r|rq k|k|k]; [by left; eexists|..]; intros Hs%pstep_view; right.
  - destruct Hs as [[-> ->]|(st & r & He & -> & [-> | ->])].
    + exists (k None). split; [constructor|done].
    + exists (k (Some r)). split; [by constructor|done].
    + exists (k None). split; [by econstructor|done].
  - destruct Hs as (t & -> & ->). exists (k t). split; [constructor|done].
  - destruct Hs as (u & Hu & -> & ->). exists (k u). split; [by constructor|done].
Qed.

(** A run of a composed program is one of its first part, perhaps followed by one
    of the second. *)
Lemma open_run_bind env {A B} (f : A → prog B) w (p : prog A) evs w' q :
  open_run env w (prog_bind f p) evs w' q →
  (∃ p', open_run env w p evs w' p' ∧ q = prog_bind f p') ∨
  ∃ r w1 evs1 evs2, evs = evs1 ++ evs2 ∧ open_run env w p evs1 w1 (Ret r) ∧ open_run env w1 (f r) evs2 w' q.
Proof.
  intros Hrun. remember (prog_bind f p) as b eqn:E. revert p E.
  induction Hrun as [w b|w w1 b evs w' q He _ IH|w w1 b b1 evs w' q Hs Hrun IH]; intros p ->.
  - left. exists p. split; [constructor|done].
  - destruct (IH p eq_refl) as [(p' & Hp & ->)|(r & w2 & evs1 & evs2 & -> & Hp & Hf)].
    + left. exists p'. split; [by econstructor|done].
    + right. exists r, w2, evs1, evs2. split_and!; [done|by econstructor|done].
  - destruct (pstep_bind f w p w1 b1 Hs) as [[r ->]|(p1 & Hp1 & ->)].
    + right. exists r, w, [], ((w, w1) :: evs). split_and!; [done|constructor|by econstructor].
    + destruct (IH p1 eq_refl) as [(p' & Hp & ->)|(r & w2 & evs1 & evs2 & -> & Hp & Hf)].
      * left. exists p'. split; [by econstructor|done].
      * right. exists r, w2, ((w, w1) :: evs1), evs2. split_and!; [done|by econstructor|done].
Qed.

Lemma open_run_ret env {R} w (r : R) evs w' p' :
  open_run env w (Ret r) evs w' p' → evs = [] ∧ p' = Ret r ∧ rtc env w w'.
Proof.
  remember (Ret r) as p eqn:E. induction 1 as [|w w1 p evs w' p' He _ IH|w w1 p p1 evs w' p' Hs _ _]; [done|..].
  - destruct IH as (-> & -> & Hr); [done|]. split_and!; [done|done|by eapply rtc_l].
  - subst p. by apply pstep_view in Hs.
Qed.

Lemma open_run_env env {R} w w1 (p : prog R) evs w' p' :
  rtc env w w1 → open_run env w1 p evs w' p' → open_run env w p evs w' p'.
Proof. induction 1; [done|]. intros Hrun. by econstructor; eauto. Qed.

(** A program whose error is inspected, and what is done with its outcome. *)
Lemma open_run_attempt {A B} env (f : result err A → M B) (m : M A) w evs w' p' :
  open_run env w (attempt m ≫= f) evs w' p' →
  ∃ w1 evs1 evs2 q, evs = evs1 ++ evs2 ∧ open_run env w m evs1 w1 q ∧
    (evs2 = [] ∨ ∃ r, q = Ret r ∧ open_run env w1 (f r) evs2 w' p').
Proof.
  intros [(q & Hq & ->)|(r & w1 & evs1 & evs2 & -> & Hq & Hf)]%open_run_bind; apply open_run_bind in Hq.
  - destruct Hq as [(q' & Hm & _)|(r & w1 & evs1 & evs2 & -> & Hm & (-> & _)%open_run_ret)].
    + exists w', evs, [], q'. rewrite app_nil_r. auto.
    + exists w1, evs1, [], (Ret r). auto.
  - destruct Hq as [(q' & Hm & E)|(r' & w2 & evs3 & evs4 & -> & Hm & (-> & E & Hr)%open_run_ret)].
    + destruct q' as [r'| | |]; simplify_eq/=. exists w1, evs1, evs2, (Ret r'). split_and!; [done|done|right; eauto].
    + simplify_eq/=. exists w2, evs3, evs2, (Ret r'). rewrite app_nil_r. split_and!; [done|done|right].
      exists r'. split; [done|]. by eapply open_run_env.
Qed.

(** A program whose outcome is dropped. *)
Lemma open_run_dropped {A} env (m : M A) w evs w' p' :
  open_run env w (attempt m ≫= λ _, mret tt) evs w' p' → ∃ w1 q, open_run env w m evs w1 q.
Proof.
  intros (w1 & evs1 & evs2 & q & -> & Hm & Hf)%open_run_attempt. exists w1, q.
  destruct Hf as [->|(r & _ & (-> & _)%open_run_ret)]; by rewrite app_nil_r.
Qed.

Lemma open_run_mono (env env' : world → world → Prop) {R} w (p : prog R) evs w' p' :
  (∀ w w', env w w' → env' w w') → open_run env w p evs w' p' → open_run env' w p evs w' p'.
Proof. intros Hsub. induction 1; [constructor|eapply open_env; eauto|eapply open_own; eauto]. Qed.

(** What interference and own steps keep holds before every own step. *)
Lemma open_run_before (I : world → Prop) env {R} w (p : prog R) evs w' p' :
  (∀ w w', env w w' → I w → I w') → open_run env w p evs w' p' → Forall (λ s, I s.1 → I s.2) evs → I w →
  Forall (λ s, I s.1) evs.
Proof.
  intros HI. induction 1 as [|w w1 p evs w' p' He _ IH|w w1 p p1 evs w' p' _ _ IH]; intros Hevs Hw; [done|..].
  - apply IH; [done|by eapply HI].
  - apply Forall_cons in Hevs as [Hs Hevs]. constructor; [done|]. apply IH; [done|by apply Hs].
Qed.

#[local] Instance open_frame `{!EtcdLaws, !Libs} fs : Frame (open_protocol (λ _ _, True)) fs.
Proof. split; [|done]. intros w w' _ He _. split; [done|by right]. Qed.

(** A program writes only its kinds of keys. *)
Lemma open_run_writes `{!EtcdLaws, !Libs} fs env {R} w (p : prog R) evs w' p' :
  writes fs p → open_run env w p evs w' p' →
  Forall (λ s, ∀ k, ¬ key_in fs k → w_map s.2 !! k = w_map s.1 !! k) evs.
Proof.
  intros Hw Hrun. induction Hrun as [|w w1 p evs w' p' He _ IH|w w1 p p1 evs w' p' Hs _ IH]; [done|auto|].
  apply pstep_view in Hs. destruct p as [r|rq k|k|k]; [done|..].
  - destruct Hw as (Ht & HN & HS). destruct Hs as [[-> ->]|(st & r & He & -> & Hp1)]; [constructor; [done|auto]|].
    destruct (request_outside (open_protocol (λ _ _, True)) fs w rq st r Ht He) as (_ & Hk & Hp).
    constructor; [done|]. apply IH. destruct Hp1 as [-> | ->]; auto.
  - destruct Hs as (t & -> & ->). constructor; [done|]. by apply IH.
  - destruct Hs as (u & _ & -> & ->). constructor; [done|]. by apply IH.
Qed.
End Runs.

(** ** Jobs leave the queue with their task settled *)
Section Settled.
Context `{Etcd, !EtcdLaws, !Libs, !LibsLaws}.

(** What the VM workers write. *)
Definition worker_families : list family :=
  [FTask; FVM; FVMName; FVMRuntime; FVMOwner; FVMFirmware; FVMPinned; FVMRuntimeNode; FVMDisk; FVMDiskVM; FVMDiskPool;
   FVMNic; FVMNicVM; FVMNicNetwork; FVMNicMAC; FVMNicIPv4].

Lemma release_ops_worker vmID nid n : Forall (op_in worker_families) (nic_release_ops vmID nid n).
Proof.
  unfold nic_release_ops. apply Forall_app. split; [repeat constructor; simpl; key_in_solve|].
  case_match; repeat constructor; simpl; key_in_solve.
Qed.

Lemma vmNicDeleteOps_worker vmID t : returns (on_ok (Forall (op_in worker_families))) (vmNicDeleteOps vmID t).
Proof.
  unfold vmNicDeleteOps. apply returns_bindM, returns_any. intros items. apply returns_for_each; [done|].
  intros kv ops _ Hops. destruct (index_id kv.2) as [nid|]; [|done]. apply returns_bindM, returns_any.
  pose proof (release_ops_worker vmID nid) as Hr. intros [n|].
  - case_match; [apply Forall_app; split; [done|apply Hr]|]. apply returns_bindM, returns_any. intros val.
    apply Forall_app. split; [done|]. constructor; [simpl; key_in_solve|apply Hr].
  - apply Forall_app. split; [done|]. repeat constructor; simpl; key_in_solve.
Qed.

Lemma disk_delete_ops_worker t disks : returns (on_ok (Forall (op_in worker_families))) (disk_delete_ops t disks).
Proof.
  unfold disk_delete_ops. apply returns_for_each; [done|]. intros d ops _ Hops. apply returns_bindM, returns_any.
  intros val. apply Forall_app. split; [done|]. repeat constructor; simpl; key_in_solve.
Qed.

Lemma vmDeleteBaseOps_worker vm t taskVal taskID :
  returns (on_ok (Forall (op_in worker_families))) (vmDeleteBaseOps vm t taskVal taskID).
Proof.
  unfold vmDeleteBaseOps. set (v := vm <| vm_DeletedAt := Some t |> <| vm_UpdatedAt := t |>).
  apply returns_bindM, returns_any. intros vmVal. apply returns_bindM, returns_any. intros r.
  apply returns_bindM. apply (returns_mono (on_ok (Forall (op_in worker_families)))).
  2: { destruct r as [rt|[]]; try done; [|by constructor]. destruct (rt_CurrentNodeID rt); [|by constructor].
       repeat constructor; simpl; key_in_solve. }
  intros [runtimeOps|e]; [|done]. intros Hrt. apply returns_bindM, returns_any. intros disks.
  apply returns_bindM. eapply returns_mono; [|apply disk_delete_ops_worker]. intros [diskOps|e]; [|done]. intros Hd.
  apply returns_bindM. eapply returns_mono; [|apply vmNicDeleteOps_worker]. intros [nicOps|e]; [|done]. intros Hn.
  simpl in Hrt, Hd, Hn. apply Forall_app. split.
  - repeat (apply Forall_cons; split; [simpl; key_in_solve|]). apply Forall_app.
    split; case_match; repeat constructor; simpl; key_in_solve.
  - rewrite !Forall_app. split_and!; [done|done|done|]. repeat constructor; simpl; key_in_solve.
Qed.

Lemma ProjectVMDeleteSuccess_writes vm fin : writes worker_families (ProjectVMDeleteSuccess vm fin).
Proof.
  unfold ProjectVMDeleteSuccess. apply writes_bindM; [writes_solve|]. intros t.
  apply writes_bindM; [unfold finalizedTaskValue, TaskByID; writes_solve|]. intros taskVal.
  eapply writes_bindM_returns; [|apply vmDeleteBaseOps_worker|].
  - unfold vmDeleteBaseOps, VMRuntimeByID, disksOfVM, disk_delete_ops, vmNicDeleteOps. writes_solve.
  - intros ops Hops. apply writes_bindM; [by apply writes_raw_txn|done].
Qed.

Lemma lifecycle_attempts_writes n vmID row rev desired t ops :
  Forall (op_in worker_families) ops → writes worker_families (lifecycle_attempts n vmID row rev desired t ops).
Proof.
  revert row rev ops. induction n as [|n IH]; intros row rev ops Hops; [done|]. cbn [lifecycle_attempts].
  apply writes_bindM; [writes_solve|]. intros val. apply writes_bindM.
  { apply writes_raw_txn; [|done]. constructor; [simpl; key_in_solve|done]. }
  intros r. case_match; [done|]. apply writes_bindM; [unfold vmWithRev; writes_solve|].
  intros [[fresh freshRev]|e]; [by apply IH|by destruct e].
Qed.

Lemma ProjectVMLifecycleSuccess_writes vmID desired phase fin :
  writes worker_families (ProjectVMLifecycleSuccess vmID desired phase fin).
Proof.
  unfold ProjectVMLifecycleSuccess. apply writes_bindM; [unfold vmWithRev; writes_solve|]. intros o.
  unfold projectVMLifecycle. apply writes_bindM; [writes_solve|]. intros t. apply writes_bindM; [writes_solve|]. intros r.
  eapply (writes_bindM_returns _ (Forall (op_in worker_families))); [writes_solve| |].
  { destruct r as [rt|]; [|by constructor]. apply returns_bindM, returns_any. intros val.
    repeat constructor; simpl; key_in_solve. }
  intros ops Hops. apply writes_bindM; [unfold finalizedTaskValue, TaskByID; writes_solve|]. intros taskVal. cbv zeta.
  assert (Forall (op_in worker_families) (ops ++ [OpPut (taskKey (utf_ID fin)) taskVal])) as Hall.
  { apply Forall_app. split; [done|]. repeat constructor; simpl; key_in_solve. }
  destruct o as [[row rev]|]; [by apply lifecycle_attempts_writes|].
  apply writes_bindM; [by apply writes_raw_txn|done].
Qed.


Section Handlers.
Context (err_text : err → string) (agent_text : agent_error → string).
Context (marshalTaskError : string → string → bytes) (client : agent_client).

Lemma task_writes {R} (m : prog R) : writes [FTask] m → writes worker_families m.
Proof. apply writes_mono. unfold worker_families. set_solver. Qed.

Lemma wrapped_writes {A} what (m : M A) :
  writes worker_families m → writes worker_families (wrapped err_text what m).
Proof. intros Hm. unfold wrapped. apply writes_bindM; [by apply writes_attempt|]. by intros []. Qed.

Lemma finalizeFailed_writes id code cause :
  writes worker_families (finalizeFailed err_text marshalTaskError id code cause).
Proof.
  unfold finalizeFailed. apply writes_bindM; [by apply writes_attempt, task_writes, UpdateTaskFinalized_writes|]. by intros [].
Qed.

Lemma failRun_writes id code cause : writes worker_families (failRun err_text marshalTaskError id code cause).
Proof. unfold failRun. apply writes_bindM; [apply finalizeFailed_writes|done]. Qed.

Lemma load_writes args body :
  (∀ vm node, writes worker_families (body vm node)) →
  writes worker_families (load_vm_node err_text marshalTaskError args body).
Proof.
  intros Hbody. unfold load_vm_node, VMByID, NodeByID.
  apply writes_bindM; [by apply wrapped_writes, task_writes, UpdateTaskRunning_writes|]. intros []; [done|].
  apply writes_bindM; [writes_solve|]. intros [vm|e]; [|apply failRun_writes].
  apply writes_bindM; [writes_solve|]. intros [node|e]; [done|]. destruct e; first [done|apply failRun_writes].
Qed.

Lemma post_writes request id aid : writes worker_families (post_or_resume err_text request id aid).
Proof.
  unfold post_or_resume, onAgentTaskID. destruct aid; [done|]. destruct request; [|done].
  apply writes_bindM; [by apply writes_attempt, task_writes, UpdateTaskAgentTaskID_writes|]. by intros [].
Qed.

Lemma project_delete_writes vm id res : writes worker_families (project_delete err_text vm id res).
Proof. apply wrapped_writes, ProjectVMDeleteSuccess_writes. Qed.

Lemma delete_Execute_writes id aid name node :
  writes worker_families (delete_Execute err_text client id aid name node).
Proof.
  assert (∀ request, writes worker_families (
    r ← post_or_resume err_text request id aid;
    match r with Err e => mret (Err e) | Ok a => mret (poll_outcome client true (DialURL (node_Name node)) a) end)) as Hp.
  { intros request. apply writes_bindM; [apply post_writes|]. by intros []. }
  unfold delete_Execute. cbv zeta. repeat case_match; first [done|apply Hp].
Qed.

Lemma runDelete_writes staleGrace args :
  writes worker_families (runDelete err_text agent_text marshalTaskError client staleGrace args).
Proof.
  unfold runDelete. cbv zeta. apply load_writes. intros vm node.
  apply writes_bindM; [unfold nodeTerminallyDead; writes_solve|]. intros dead.
  destruct dead; [apply project_delete_writes|]. destruct node as [node|]; [|apply project_delete_writes].
  apply writes_bindM; [apply wrapped_writes; unfold TaskByID; writes_solve|]. intros task.
  apply writes_bindM; [apply delete_Execute_writes|]. intros [u|e]; [apply project_delete_writes|].
  apply writes_bindM.
  - unfold clearAgentTaskIDIfGone. case_match; [by apply wrapped_writes, task_writes, ClearTaskAgentTaskID_writes|done].
  - intros _. case_bool_decide; [apply project_delete_writes|apply failRun_writes].
Qed.

Lemma runLifecycle_writes kind staleGrace args :
  writes worker_families (runLifecycle err_text agent_text marshalTaskError client kind staleGrace args).
Proof.
  unfold runLifecycle. cbv zeta. apply load_writes. intros vm node.
  apply writes_bindM; [unfold nodeTerminallyDead; writes_solve|]. intros dead.
  destruct dead; [apply finalizeFailed_writes|]. destruct node as [node|]; [|apply finalizeFailed_writes].
  apply writes_bindM; [apply wrapped_writes; unfold TaskByID; writes_solve|]. intros task.
  apply writes_bindM.
  - unfold lifecycle_Execute. cbv zeta. apply writes_bindM; [apply post_writes|]. by intros [].
  - intros [u|e]; [apply wrapped_writes, ProjectVMLifecycleSuccess_writes|apply failRun_writes].
Qed.

Lemma vm_worker_writes args p :
  vm_worker err_text agent_text marshalTaskError client args p → writes worker_families p.
Proof. intros [staleGrace|kind staleGrace _]; [apply runDelete_writes|apply runLifecycle_writes]. Qed.

(** ** The dispatcher *)

(** What a handler has ended with when it returns. *)
Lemma worker_result args h w evs w' r :
  vm_worker err_text agent_text marshalTaskError client args h → estate_wf (w_st w) →
  open_run (beside_task (vja_TaskID args)) w h evs w' (Ret r) →
  estate_wf (w_st w') ∧ ∀ u, r = Ok u → settled_task (w_st w') (vja_TaskID args).
Proof.
  intros Hh Hwf Hrun. set (id := vja_TaskID args) in *.
  destruct (open_guar (task_protocol id) h
    (λ r w', estate_wf (w_st w') ∧ ∀ u, r = Ok u → settled_task (w_st w') id) w evs w' (Ret r)) as [_ Hr];
    [by intros ? ? []| |done| |done|done].
  - intros r' w1 w2 _ [[He _] E] [Hwf1 Hs]. split; [by eapply estep_wf|]. intros u Hu. by eapply settled_keep, Hs.
  - eapply wp_mono; [|by eapply vm_worker_settles]. intros [u|e] O w1 (_ & ? & ?); split; done.
Qed.

(** A step takes the job out of the queue. *)
Definition removes_job (id : Z) (s : world * world) : Prop :=
  is_Some (w_map s.1 !! jobKey id) ∧ w_map s.2 !! jobKey id = None.

Lemma kept_not_removed id s : w_map s.2 !! jobKey id = w_map s.1 !! jobKey id → ¬ removes_job id s.
Proof. intros E [[e He] Hn]. by rewrite E, He in Hn. Qed.

Lemma worker_keeps_job env args h id w evs w' p' :
  vm_worker err_text agent_text marshalTaskError client args h → open_run env w h evs w' p' →
  Forall (λ s, ¬ removes_job id s) evs.
Proof.
  intros Hh%vm_worker_writes Hrun. eapply Forall_impl; [by eapply open_run_writes|]. intros s Hs.
  apply kept_not_removed, Hs. unfold worker_families. key_in_solve.
Qed.

(** A job that is rewritten in place stays. *)
Lemma rewritten_stays (P : Job → Job → Prop) id {R} (p : prog R) env w evs w' p' :
  steps_within (row_write (jobKey id) P) p → (∀ w w', env w w' → any_env w w') → estate_wf (w_st w) →
  open_run env w p evs w' p' → Forall (λ s, ¬ removes_job id s) evs.
Proof.
  intros Hp Henv Hwf Hrun. eapply Forall_impl; [eapply Hp; [done|by eapply open_run_mono]|]. intros s [E|Hs].
  - apply kept_not_removed. unfold w_map. by rewrite E.
  - destruct Hs as (_ & e & e' & a & a' & _ & _ & He' & _). intros [_ Hn]. unfold w_map in Hn. by rewrite He' in Hn.
Qed.

Lemma settled_stays id {R} fs (p : prog R) w evs w' p' :
  writes fs p → (¬ key_in fs (taskKey id)) → open_run (beside_task id) w p evs w' p' → settled_task (w_st w) id →
  Forall (λ s, settled_task (w_st s.1) id) evs.
Proof.
  intros Hp Hk Hrun Hs. eapply (open_run_before (λ w, settled_task (w_st w) id)); [|done| |done].
  - intros w1 w2 [_ E]. by apply settled_keep.
  - eapply Forall_impl; [by eapply open_run_writes|]. intros s E. apply settled_keep. by apply E.
Qed.

(** C2. A job leaves the queue only with its task settled.  When the dispatcher executes
    a delete or lifecycle job, the only step that removes the job comes when its task
    has ended, whatever the agent answers, wherever the run stops, and whatever else
    changes the store meanwhile, as long as nothing else writes the task. *)
Theorem job_leaves_queue_settled args h id token maxAttempts cancelled w evs w' p' :
  vm_worker err_text agent_text marshalTaskError client args h → estate_wf (w_st w) →
  open_run (beside_task (vja_TaskID args)) w (execute h id token maxAttempts cancelled) evs w' p' →
  Forall (λ s, removes_job id s → settled_task (w_st s.1) (vja_TaskID args)) evs.
Proof.
  intros Hh Hwf (w1 & evs1 & evs2 & q & -> & Hrun & Hrest)%open_run_attempt. apply Forall_app. split.
  { eapply Forall_impl; [by eapply worker_keeps_job|]. by intros s Hn ?%Hn. }
  destruct Hrest as [->|(r & -> & Hrest)]; [done|].
  destruct (worker_result args h w evs1 w1 r) as [Hwf1 Hs]; [done..|]. destruct r as [[]|e].
  - apply open_run_dropped in Hrest as (w2 & q & Hc). eapply Forall_impl.
    + eapply (settled_stays _ [FJob]); [|key_in_solve|exact Hc|by eapply Hs]. unfold CompleteJob. writes_solve.
    + by intros s ? _.
  - assert (Forall (λ s, ¬ removes_job id s) evs2) as Hk; [|eapply Forall_impl; [exact Hk|by intros s Hn ?%Hn]].
    destruct cancelled; apply open_run_dropped in Hrest as (w2 & q & Hc).
    + eapply (rewritten_stays (requeues token)); [apply steps_within_wp, RequeueJob_wp| |exact Hwf1|exact Hc].
      by intros ? ? [? _].
    + eapply (rewritten_stays (JobFence.retries token maxAttempts));
        [apply steps_within_wp, RetryJob_wp| |exact Hwf1|exact Hc].
      by intros ? ? [? _].
Qed.
End Handlers.
End Settled.

(** ** A run *)
Module DispatcherRuns.
Import Concrete VMRuns.
Local Open Scope string_scope.

(** Job 7, claimed for the delete of "db". *)
Definition claimed : Job := MkJob 7 "vm.delete" "" JobStateRunning 0 None (Some 5) "token".
Definition queued : world :=
  stored_world ((jobKey 7, DJob claimed) :: (taskKey (id 31), DTask (delete_task 31)) :: rows).
Definition executed := drive 60 100 queued (execute delete_job 7 "token" 3 false).

(** The job is removed by the run, by a step that finds the task settled. *)
Lemma job_leaves_queue_settled_witness :
  w_map executed.1.2 !! jobKey 7 = None ∧
  Forall (λ s, removes_job 7 s → settled_task (w_st s.1) (id 31)) executed.1.1.
Proof.
  split; [vm_compute; reflexivity|].
  exact (job_leaves_queue_settled (λ _, "error") (λ _, "error") (λ _ _, "") no_agent
    (MkVMJobArgs (id 31) (id 2) (id 8)) delete_job 7 "token" 3 false queued _ _ _
    (vw_runDelete _ _ _ _ _ 300) (stored_wf _) (drive_open_run _ _ _ _ _)).
Defined.
End DispatcherRuns.
