(* ===== verification/Workers.v ===== *)
(** * Workers that call other services

    A worker interleaves methods of the store with calls of interfaces: agents, the
    placement, reads the store's model leaves out.  [act] is the tree of such a
    worker.  A run of a worker in an environment is the sequence of its own etcd
    steps and of its calls with their answers; the answers are arbitrary.

    [awp] extends the logic of [Prog] to workers: the guarantee of a step, and what
    must hold when a call is made, may depend on the calls made and answered before.
    [arun_sound] is its soundness. *)

From S2P Require Import Prelude Models Etcd Prog Keys Client Rules.
Local Open Scope Z_scope.

Section Act.
Context {call : Type} {answer : call → Type}.

(** ** Workers *)

Inductive act (R : Type) : Type :=
| Done (r : R)
| Store {S : Type} (p : prog S) (k : S → act R)
| Ask (c : call) (k : answer c → act R).

Fixpoint act_bind {A B} (f : A → act B) (a : act A) : act B :=
  match a with
  | Done _ r => f r
  | Store _ p k => Store _ p (λ s, act_bind f (k s))
  | Ask _ c k => Ask _ c (λ r, act_bind f (k r))
  end.

(** A call that was answered. *)
Record event := Event { ev_call : call; ev_answer : answer ev_call }.

Inductive item := Stepped (w w' : world) | Asked (w : world) (e : event).

Definition events (l : list item) : list event :=
  omap (λ i, match i with Asked _ e => Some e | Stepped _ _ => None end) l.

(** ** Runs *)

Inductive arun `{Etcd} (env : world → world → Prop) {R}
    : world → act R → list item → world → act R → Prop :=
| arun_refl w a : arun env w a [] w a
| arun_env w w1 a l w' a' : env w w1 → arun env w1 a l w' a' → arun env w a l w' a'
| arun_step w w1 S (p p1 : prog S) k l w' a' :
    pstep w p w1 p1 → arun env w1 (Store _ p1 k) l w' a' →
    arun env w (Store _ p k) (Stepped w w1 :: l) w' a'
| arun_result w S (s : S) k l w' a' :
    arun env w (k s) l w' a' → arun env w (Store _ (Ret s) k) l w' a'
| arun_ask w c k r l w' a' :
    arun env w (k r) l w' a' → arun env w (Ask _ c k) (Asked w (Event c r) :: l) w' a'.

(** ** The logic *)
Section Logic.
Context `{Etcd} (pr : list event → protocol) (ok : list event → world → call → Prop).

Fixpoint awp {R} (a : act R) (tr : list event) (Q : R → list event → world → Prop) (w : world) : Prop :=
  match a with
  | Done _ r => Q r tr w
  | Store _ p k => wp (pr tr) p ∅ (λ s _ w', awp (k s) tr Q w') w
  | Ask _ c k => ∀ w1, reaches (pr tr) ∅ w w1 → ok tr w1 c ∧ ∀ r, awp (k r) (tr ++ [Event c r]) Q w1
  end.

Lemma awp_mono {R} (a : act R) tr (Q Q' : R → list event → world → Prop) w :
  (∀ r tr w, Q r tr w → Q' r tr w) → awp a tr Q w → awp a tr Q' w.
Proof.
  intros HQ. revert tr w. induction a as [r|S p k IH|c k IH]; intros tr w; simpl; [by auto|..].
  - intros Hp. eapply wp_mono; [|exact Hp]. simpl. auto.
  - intros Ha w1 Hw1. destruct (Ha w1 Hw1) as [Hok Hr]. split; [done|]. auto.
Qed.

Lemma awp_bind {A B} (f : A → act B) (a : act A) tr Q w :
  awp a tr (λ r tr w, awp (f r) tr Q w) w → awp (act_bind f a) tr Q w.
Proof.
  revert tr w. induction a as [r|S p k IH|c k IH]; intros tr w; simpl; [by auto|..].
  - intros Hp. eapply wp_mono; [|exact Hp]. simpl. auto.
  - intros Ha w1 Hw1. destruct (Ha w1 Hw1) as [Hok Hr]. split; [done|]. auto.
Qed.

(** What the items of a run satisfy, after the calls [tr]. *)
Fixpoint obeys (tr : list event) (l : list item) : Prop :=
  match l with
  | [] => True
  | Stepped w w' :: l => pr_guar (pr tr) w w' ∧ obeys tr l
  | Asked w e :: l => ok tr w (ev_call e) ∧ obeys (tr ++ [e]) l
  end.

Lemma obeys_step tr l i w w' :
  obeys tr l → l !! i = Some (Stepped w w') → pr_guar (pr (tr ++ events (take i l))) w w'.
Proof.
  revert tr i. induction l as [|[w1 w2|w1 e] l IH]; intros tr [|i]; simpl; try done.
  - rewrite app_nil_r. by intros [? _] [= -> ->].
  - intros [_ Hl]. by apply IH.
  - intros [_ Hl] Hi. specialize (IH _ _ Hl Hi). by rewrite <-app_assoc in IH.
Qed.

Lemma obeys_ask tr l i w e :
  obeys tr l → l !! i = Some (Asked w e) → ok (tr ++ events (take i l)) w (ev_call e).
Proof.
  revert tr i. induction l as [|[w1 w2|w1 e'] l IH]; intros tr [|i]; simpl; try done.
  - intros [_ Hl]. by apply IH.
  - rewrite app_nil_r. by intros [? _] [= -> ->].
  - intros [_ Hl] Hi. specialize (IH _ _ Hl Hi). by rewrite <-app_assoc in IH.
Qed.

(** ** Soundness *)
Context {Hpr : ∀ tr, ProtocolLaws (pr tr)}.
Context (inv : world → Prop) (rely : world → world → Prop).
Context (Hinv : ∀ tr, pr_inv (pr tr) = inv) (Hrely : ∀ tr, pr_rely (pr tr) = rely).
Context (Hown : ∀ tr w r, ¬ pr_ownable (pr tr) w r).

Lemma reaches_none tr w w1 : inv w1 → rtc rely w w1 → reaches (pr tr) ∅ w w1.
Proof.
  intros Hi Hr. split_and!; [|by rewrite Hinv|set_solver].
  eapply rtc_subrel; [|exact Hr]. intros a b Hab. split; [by rewrite Hrely|set_solver].
Qed.

Lemma awp_env {R} (a : act R) tr Q w w1 :
  (∀ r tr w w', inv w → rely w w' → Q r tr w → Q r tr w') → inv w → rely w w1 →
  awp a tr Q w → awp a tr Q w1.
Proof.
  intros HQ Hi Hr. induction a as [r|S p k IH|c k IH]; simpl; [by eauto|..].
  - destruct p as [s|rq f|f|f]; [by apply IH|..]; intros Hp;
      (eapply wp_reaches; [done|split; [by rewrite Hrely|set_solver]|exact Hp]).
  - intros Ha w2 (Hw2 & Hi2 & Hu). apply Ha. split_and!; [|done|done].
    eapply rtc_l; [|done]. split; [by rewrite Hrely|set_solver].
Qed.

Theorem arun_sound {R} (a : act R) tr Q w l w' a' :
  (∀ r tr w w', inv w → rely w w' → Q r tr w → Q r tr w') →
  inv w → awp a tr Q w → arun rely w a l w' a' →
  obeys tr l ∧ inv w' ∧ awp a' (tr ++ events l) Q w'.
Proof.
  intros HQ Hi Ha Hrun. revert tr Hi Ha.
  induction Hrun as [w a|w w1 a l w' a' He _ IH|w w1 S p p1 k l w' a' Hs _ IH|w S s k l w' a' _ IH|w c k r l w' a' _ IH];
    intros tr Hi Ha.
  - by rewrite app_nil_r.
  - apply IH; [|by eapply awp_env].
    pose proof (pr_inv_rely (pr := pr tr) w w1) as Hp. rewrite Hinv, Hrely in Hp. auto.
  - simpl in Ha. destruct (wp_pstep (pr tr) p p1 ∅ (λ s _ w', awp (k s) tr Q w') w w1) as (O' & (Hg & _ & Hgain) & Hwp);
      [by rewrite Hinv|set_solver|done..|].
    assert (O' = ∅) as ->.
    { apply elem_of_equiv_empty_L. intros x Hx. destruct (Hgain x Hx) as [_ [?|[Ho _]]]; [set_solver|].
      by eapply Hown. }
    destruct (IH tr) as (H1 & H2 & H3); [|done|done].
    pose proof (pr_inv_guar (pr := pr tr) w w1) as Hp. rewrite Hinv in Hp. auto.
  - by apply IH.
  - destruct (Ha w) as [Hok Hr]; [by apply reaches_none|]. destruct (IH (tr ++ [Event c r])) as (H1 & H2 & H3); [done|apply Hr|].
    split; [by split|]. split; [done|]. simpl. by rewrite <-app_assoc in H3.
Qed.
End Logic.

(** ** Results *)

(** Every result the worker may return satisfies [Q]. *)
Fixpoint areturns {R} (Q : R → Prop) (a : act R) : Prop :=
  match a with
  | Done _ r => Q r
  | Store _ p k => ∀ s, areturns Q (k s)
  | Ask _ c k => ∀ r, areturns Q (k r)
  end.

Lemma areturns_bind {A B} (Q : B → Prop) (f : A → act B) (a : act A) :
  areturns (λ r, areturns Q (f r)) a → areturns Q (act_bind f a).
Proof. induction a as [r|S p k IH|c k IH]; simpl; auto. Qed.

Lemma areturns_mono {A} (Q Q' : A → Prop) (a : act A) : (∀ r, Q r → Q' r) → areturns Q a → areturns Q' a.
Proof. intros HQ. induction a as [r|S p k IH|c k IH]; simpl; auto. Qed.

Lemma areturns_True {A} (a : act A) : areturns (λ _, True) a.
Proof. induction a as [r|S p k IH|c k IH]; simpl; auto. Qed.

Lemma arun_returns `{Etcd} env {R} (Q : R → Prop) w (a : act R) l w' r :
  areturns Q a → arun env w a l w' (Done _ r) → Q r.
Proof.
  intros HQ Hrun. remember (Done _ r) as a' eqn:E. revert HQ. induction Hrun; simpl; intros HQ; subst; auto.
Qed.

(** A run that starts with a call, or at its end. *)
Lemma arun_first `{Etcd} env {R} w (a : act R) l w' r :
  arun env w a l w' (Done _ r) →
  match a with
  | Ask _ c k => ∃ w1 x l1, l = Asked w1 (Event c x) :: l1 ∧ arun env w1 (k x) l1 w' (Done _ r)
  | Done _ _ => l = []
  | Store _ _ _ => True
  end.
Proof.
  intros Hrun. remember (Done _ r) as a' eqn:E.
  induction Hrun as [w a|w w1 a l w' a' He _ IH|w w1 S p p1 k0 l w' a' Hs _ _|w S s k0 l w' a' _ _|w c k x l w' a' Hrun _];
    subst; [done|by apply IH|done|done|]. by exists w, x, l.
Qed.

(** ** Simulation

    The worker against a server that answers, at time [clock]; [ans] answers the
    [i]-th call. *)
Section Simulate.
Context `{Etcd} (supply : gset uuid → uuid) (clock : Z) (ans : nat → ∀ c, answer c).

Definition prog_next {S} (w : world) (p : prog S) : option (world * prog S) :=
  match p with
  | Ret _ => None
  | Call rq k =>
    match etcd_exec (w_st w) rq with
    | Some (st, r) => Some (advance st w, k (Some r))
    | None => Some (w, k None)
    end
  | Now k => Some (w, k clock)
  | NewUuid k =>
    let u := supply (w_issued w) in
    if bool_decide (u ∈ w_issued w) then None else Some (issue u w, k u)
  end.

Lemma prog_next_pstep {S} w (p : prog S) w' p' : prog_next w p = Some (w', p') → pstep w p w' p'.
Proof.
  destruct p as [r|rq k|k|k]; simpl; [done|..].
  - destruct (etcd_exec (w_st w) rq) as [[st r]|] eqn:E; intros; simplify_eq; by econstructor.
  - intros; simplify_eq. constructor.
  - case_bool_decide; [done|]. intros; simplify_eq. by constructor.
Qed.

Fixpoint simulate {R} (fuel i : nat) (w : world) (a : act R) : list item * world * act R :=
  match fuel with
  | O => ([], w, a)
  | S fuel =>
    match a with
    | Done _ _ => ([], w, a)
    | Store _ p k =>
      match p with
      | Ret s => simulate fuel i w (k s)
      | _ =>
        match prog_next w p with
        | None => ([], w, a)
        | Some (w1, p1) =>
          let '(l, w', a') := simulate fuel i w1 (Store _ p1 k) in (Stepped w w1 :: l, w', a')
        end
      end
    | Ask _ c k =>
      let r := ans i c in
      let '(l, w', a') := simulate fuel (S i) w (k r) in (Asked w (Event c r) :: l, w', a')
    end
  end.

Lemma simulate_arun env {R} fuel i w (a : act R) :
  arun env w a (simulate fuel i w a).1.1 (simulate fuel i w a).1.2 (simulate fuel i w a).2.
Proof.
  revert i w a. induction fuel as [|fuel IH]; intros i w a; [constructor|].
  destruct a as [r|S p k|c k]; cbn [simulate]; [constructor| |].
  - destruct p as [s|rq f|f|f] eqn:Ep; [by apply arun_result, IH|..]; rewrite <-Ep;
      (destruct (prog_next w p) as [[w1 p1]|] eqn:En; [|constructor]);
      specialize (IH i w1 (Store _ p1 k)); destruct (simulate fuel i w1 (Store _ p1 k)) as [[l w'] a'];
      (eapply arun_step; [by eapply prog_next_pstep|exact IH]).
  - specialize (IH (S i) w (k (ans i c))). destruct (simulate fuel (S i) w (k (ans i c))) as [[l w'] a'].
    by apply arun_ask.
Qed.
End Simulate.
End Act.

Arguments act {call} answer R.
Arguments Done {call answer R} r.
Arguments Store {call answer R S} p k.
Arguments Ask {call answer R} c k.
Arguments event {call} answer.
Arguments Event {call answer} ev_call ev_answer.
Arguments item {call} answer.
