(* ===== verification/Schedule.v ===== *)
(** * The schedule loop: internal/api/handlers/vms/schedule.go

    Each tick lists the VMs that are not bound, places each and binds it; a VM that
    cannot be placed keeps a reason and is tried again by the next tick.  The placement
    lock is a call of the worker.  What JSON, %q, crypto/rand and the texts of errors
    are is a parameter. *)

From Stdlib Require Import Ascii.
From S2P Require Import Prelude Models Float64 Scheduler Etcd Prog Keys Client Footprint Jobs Tasks Nodes Migrations VMs.
From S2P Require Import Placement VMWorkers Workers.
Import Scheduler.
Local Open Scope Z_scope.

(** ** What admission recorded (store/vms_types.go) *)

Record SchedulingSpec := MkSchedulingSpec {
  ss_PoolName : string;
  ss_DiskGiB : Z;
  ss_NetworkName : option string;
  ss_NodeHint : option string
}.

(** The details of a reason; a nil pointer is [None]. *)
Inductive sched_detail :=
| DetailInsufficient (d : option InsufficientResourcesDetail)
| DetailNetworkUnready (d : option NetworkUnreadyDetail)
| DetailNodePressure (d : option NodePressureDetail).

(** [json.Unmarshal] of a spec and of a node's capabilities, [json.Marshal] of a detail,
    the text of an error, %q, [int64] of a float64 out of range, and three bytes of
    crypto/rand, which come without a write to the store. *)
Class ScheduleLibs := {
  spec_unmarshal : bytes → option SchedulingSpec;
  caps_unmarshal : bytes → option (option Z);
  detail_marshal : sched_detail → bytes;
  store_text : err → string;
  quote_text : string → string;
  float_undef : float64 → Z;
  rand_three : M (ascii * ascii * ascii);
  rand_three_reads : writes [] rand_three
}.

(** ** The calls of the loop *)

Inductive lcall := LockPlacement | ReleasePlacement.

Definition lanswer (c : lcall) : Type :=
  match c with LockPlacement => result err unit | ReleasePlacement => unit end.

Record ScheduleConfig := MkScheduleConfig { sc_Algorithm : string }.

Definition scheduleBatchLimit : Z := 100.
Definition diskBytesPerGiB : Z := 1073741824.
Definition maxMACRetries : nat := 8.

Definition SchedReasonPoolNotFound : string := "pool_not_found".
Definition SchedReasonPoolNotReady : string := "pool_not_ready".
Definition SchedReasonPoolNotOnNode : string := "pool_not_on_node".
Definition SchedReasonPoolNotWritable : string := "pool_not_writable".
Definition SchedReasonNoEligibleNodes : string := "no_eligible_nodes".
Definition SchedReasonNodePressure : string := "node_pressure".
Definition SchedReasonInsufficientResources : string := "insufficient_resources".
Definition SchedReasonNetworkNotReady : string := "network_not_ready".
Definition SchedReasonNetworkNotFound : string := "network_not_found".
Definition SchedReasonSubnetExhausted : string := "subnet_exhausted".

(** A JSON object of uuids, which have nothing to escape. *)
Definition json_object (members : list (string * string)) : bytes :=
  "{" +:+ str_join "," (map (λ m, quoted m.1 +:+ ":" +:+ quoted m.2) members) +:+ "}".

(** Programs as the place where the scheduler's queries run. *)
#[local] Instance prog_ret : MRet prog := λ A a, Ret a.
#[local] Instance prog_mbind : MBind prog := λ A B f p, prog_bind f p.

Section Schedule.
Context `{Libs, ScheduleLibs} (downPathStaleness : Z).

Definition UnmarshalSchedulingSpec (b : bytes) : option SchedulingSpec :=
  if bool_decide (b = "") then Some (MkSchedulingSpec "" 0 None None) else spec_unmarshal b.

(** ** The plan of a bind *)

Definition GenerateLocalMAC : M string :=
  '(b0, b1, b2) ← rand_three;
  let hex c := hex_EncodeToString (String c "") in
  mret ("52:54:00:" +:+ hex b0 +:+ ":" +:+ hex b1 +:+ ":" +:+ hex b2).

Definition resolveBindNetwork (spec : SchedulingSpec) : M (list uuid * option uuid) :=
  match ss_NetworkName spec with
  | None => mret ([], None)
  | Some name =>
    if bool_decide (name = "") then mret ([], None)
    else
      r ← attempt (NetworkByName name);
      match r with
      | Ok net => mret ([net_ID net], Some (net_ID net))
      | Err ErrNotFound => fail errNetworkNotFound
      | Err e => fail (ErrOther ("resolve network: " +:+ store_text e))
      end
  end.

Definition buildBindNIC (vm : VM) (nicNetworkID : option uuid) : M (option CreateVMNicParams) :=
  match nicNetworkID with
  | None => mret None
  | Some network =>
    r ← attempt GenerateLocalMAC;
    match r with
    | Err e => fail (ErrOther ("generate nic mac: " +:+ store_text e))
    | Ok mac =>
      u ← new_uuid;
      mret (Some (MkCreateVMNicParams u (vm_ID vm) network 0 "virtio" mac None None))
    end
  end.

Definition placement_request (vm : VM) (spec : SchedulingSpec) (networkIDs : list uuid) : PlacementRequest :=
  {| req_PoolName := ss_PoolName spec; req_NodeHint := ss_NodeHint spec; req_ExcludeNodeID := None;
     req_VCPUs := spec_CpuCores (vm_Spec vm); req_MemoryMiB := spec_MemoryMib (vm_Spec vm);
     req_DiskBytes := ss_DiskGiB spec * diskBytesPerGiB; req_NetworkIDs := networkIDs |}.

(** [SchedulePlacement] over the store; the plan returns its error as it is. *)
Definition place (req : PlacementRequest) (cfg : PlacementConfig) : M PlacementDecision :=
  prog_bind (λ r, Ret (match r with Ok d => Ok d | Err e => Err (ErrPlacement e) end))
    (SchedulePlacement uuid_parse caps_unmarshal float_undef (placementReader downPathStaleness store_text) req cfg).

Definition bind_writes (vm : VM) (spec : SchedulingSpec) (d : PlacementDecision) (nic : option CreateVMNicParams)
    (taskID : uuid) : VMBindWrites :=
  let pool := dec_PoolInstance d in
  let snapshot name := match spec_SourceSnapshotID (vm_Spec vm) with Some s => [(name, uuid_string s)] | None => [] end in
  {| vbw_PinnedNodeID := nea_ID (dec_Node d);
     vbw_Disk := MkCreateVMDiskParams (vm_ID vm) (pec_ID pool) 0 "virtio" (ss_DiskGiB spec) "image"
                   (spec_ImageFormat (vm_Spec vm)) false "writeback" "unmap" None;
     vbw_Nic := nic;
     vbw_Task := MkCreateTaskParams taskID "vm.create" TaskStatusPending "vm" (Some (vm_ID vm))
                   (json_object ([("node_id", uuid_string (nea_ID (dec_Node d))); ("pool_id", uuid_string (pec_ID pool))] ++
                                 snapshot "source_snapshot_id" ++ [("vm_id", uuid_string (vm_ID vm))]))
                   25 (Some (vm_OwnerID vm)) None None "";
     vbw_Job := MkJobArgs "vm.create" (Some (json_object
                   ([("task_id", uuid_string taskID); ("vm_id", uuid_string (vm_ID vm));
                     ("pool_id", uuid_string (pec_ID pool)); ("node_id", uuid_string (nea_ID (dec_Node d)))] ++
                    snapshot "source_snapshot_id"))) |}.

Definition planBind (vm : VM) (spec : SchedulingSpec) (cfg : ScheduleConfig) (res : ResourcesConfig) : M VMBindWrites :=
  '(networkIDs, nicNetworkID) ← resolveBindNetwork spec;
  decision ← place (placement_request vm spec networkIDs) (MkPlacementConfig (sc_Algorithm cfg) res);
  if negb (bool_decide (pec_Type (dec_PoolInstance decision) = "local_dir")) then
    fail (poolNotWritableError (pec_Type (dec_PoolInstance decision)))
  else
    nic ← buildBindNIC vm nicNetworkID;
    taskID ← new_uuid;
    mret (bind_writes vm spec decision nic taskID).

(** ** Reasons *)

(** A nil detail is the JSON null. *)
Definition marshalDetail (d : sched_detail) : bytes :=
  match d with
  | DetailInsufficient None | DetailNetworkUnready None | DetailNodePressure None => "null"
  | _ => detail_marshal d
  end.

Definition noEligibleReasonFor (e : sched_error) : string * string * bytes :=
  match ExtractNetworkUnreadyDetail e with
  | (d, true) => (SchedReasonNetworkNotReady, "requested network not ready on any node", marshalDetail (DetailNetworkUnready d))
  | _ =>
    match ExtractNodePressureDetail e with
    | (d, true) => (SchedReasonNodePressure, "all candidate nodes under pressure", marshalDetail (DetailNodePressure d))
    | _ => (SchedReasonNoEligibleNodes, "no eligible node available", "")
    end
  end.

Definition placement_is (e : err) (s : sentinel) : bool :=
  match e with ErrPlacement e => errors_is e s | _ => false end.

Definition schedulingReasonFor (e : err) (spec : SchedulingSpec) : string * string * bytes :=
  if bool_decide (e = errNetworkNotFound) then
    (SchedReasonNetworkNotFound, "network " +:+ quote_text (default "" (ss_NetworkName spec)) +:+ " not found", "")
  else if placement_is e ErrPoolNotFound then
    (SchedReasonPoolNotFound, "pool " +:+ quote_text (ss_PoolName spec) +:+ " not found in cluster", "")
  else if placement_is e ErrPoolNotOnNode then
    (SchedReasonPoolNotOnNode, "pool " +:+ quote_text (ss_PoolName spec) +:+ " not present on node " +:+
       quote_text (default "" (ss_NodeHint spec)), "")
  else match e with
  | ErrPlacement p =>
    if errors_is p ErrInsufficientResources then
      (SchedReasonInsufficientResources, "no node has sufficient resources",
       marshalDetail (DetailInsufficient (ExtractInsufficientResources p).1))
    else if errors_is p ErrNoEligibleNodes then noEligibleReasonFor p
    else (SchedReasonPoolNotReady, "pool not ready", "")
  | ErrSubnetExhausted => (SchedReasonSubnetExhausted, "the network's subnet has no free addresses", "")
  | poolNotWritableError poolType =>
    (SchedReasonPoolNotWritable, "pool type " +:+ quote_text poolType +:+ " not writable", "")
  | _ => (SchedReasonPoolNotReady, "pool not ready", "")
  end.

(** ** The loop *)

(** The attempts, with the error of the last one. *)
Fixpoint mac_attempts (attempts : nat) (ctx : option fence) (vm : VM) (spec : SchedulingSpec) (cfg : ScheduleConfig)
    (res : ResourcesConfig) (lastErr : result err unit) : act lanswer (result err unit) :=
  match attempts with
  | O => Done lastErr
  | S attempts =>
    Store (BindScheduledVM ctx (vm_ID vm) (planBind vm spec cfg res)) (λ r,
      match r with
      | Err ErrVMNicMACConflict => mac_attempts attempts ctx vm spec cfg res r
      | _ => Done r
      end)
  end.

Definition bindWithMACRetry (ctx : option fence) (vm : VM) (spec : SchedulingSpec) (cfg : ScheduleConfig)
    (res : ResourcesConfig) : act lanswer (result err unit) :=
  Ask LockPlacement (λ r,
    match r with
    | Err e => Done (Err (ErrOther ("acquire placement lock: " +:+ store_text e)))
    | Ok _ =>
      act_bind (λ r, Ask ReleasePlacement (λ _, Done r)) (mac_attempts maxMACRetries ctx vm spec cfg res (Ok tt))
    end).

(** Log lines are left out. *)
Definition scheduleOne (ctx : option fence) (cfg : ScheduleConfig) (res : ResourcesConfig) (vm : VM) : act lanswer unit :=
  match UnmarshalSchedulingSpec (spec_SchedulingSpec (vm_Spec vm)) with
  | None => Done tt
  | Some spec =>
    act_bind (λ r,
      match r with
      | Ok _ | Err ErrVMNotUnscheduled | Err ErrNotFound => Done tt
      | Err e =>
        let '(reason, msg, details) := schedulingReasonFor e spec in
        Store (UpdateVMSchedulingReason (vm_ID vm) reason msg details) (λ _, Done tt)
      end) (bindWithMACRetry ctx vm spec cfg res)
  end.

Fixpoint schedule_each (ctx : option fence) (cfg : ScheduleConfig) (res : ResourcesConfig) (vms : list VM) : act lanswer unit :=
  match vms with
  | [] => Done tt
  | vm :: vms => act_bind (λ _, schedule_each ctx cfg res vms) (scheduleOne ctx cfg res vm)
  end.

Definition ScheduleFunc (ctx : option fence) (cfg : ScheduleConfig) (res : ResourcesConfig) : act lanswer (result err unit) :=
  Store (ListUnscheduledVMs scheduleBatchLimit) (λ r,
    match r with
    | Err e => Done (Err (ErrOther ("list unscheduled vms: " +:+ store_text e)))
    | Ok vms => act_bind (λ _, Done (Ok tt)) (schedule_each ctx cfg res vms)
    end).
End Schedule.
