(* ===== verification/PlacementProps.v ===== *)
(** * Placement at rest

    What placement sees when nothing interferes.  The effective view of a node is what
    its agent reported, less the VMs pinned to it that were created after the report and
    the VMs on their way to it; the candidates for a pool name are exactly the pairs of
    an instance and its node that may take a VM. *)

From S2P Require Import Prelude Models Scheduler Etcd Prog Keys Client Sequential.
From S2P Require Import Nodes Migrations DeleteIntent VMs Placement.
Import Scheduler.
Local Open Scope Z_scope.

(** ** Sums that wrap *)

Definition cpus (l : list VM) : Z := foldr (λ v s, spec_CpuCores (vm_Spec v) + s) 0 l.
Definition mems (l : list VM) : Z := foldr (λ v s, spec_MemoryMib (vm_Spec v) + s) 0 l.

Lemma cpus_app l l' : cpus (l ++ l') = cpus l + cpus l'.
Proof. induction l as [|v l IH]; simpl; [done|]. lia. Qed.
Lemma mems_app l l' : mems (l ++ l') = mems l + mems l'.
Proof. induction l as [|v l IH]; simpl; [done|]. lia. Qed.

(** What a loop of reservations has summed up. *)
Definition reserved_sum (l : list VM) : Z * Z := (i32 (cpus l), i64 (mems l)).

Lemma reserve_sum l v : reserve (reserved_sum l) v = reserved_sum (l ++ [v]).
Proof.
  unfold reserve, reserved_sum, i32, i64. simpl. rewrite !wrap_signed_add, cpus_app, mems_app. simpl.
  by rewrite !Z.add_0_r.
Qed.

(** What the loop over the disks of a pool has summed up. *)
Definition disk_bytes (l : list VMDisk) : Z := foldr (λ d s, disk_SizeGib d * bytesPerGiB + s) 0 l.

Lemma disk_bytes_app l l' : disk_bytes (l ++ l') = disk_bytes l + disk_bytes l'.
Proof. induction l as [|d l IH]; simpl; [done|]. lia. Qed.

Section AtRest.
Context `{Etcd, !EtcdLaws, !Libs, !LibsLaws} (clock : Z) (supply : nat → uuid) (st : estate) (n : nat).

Abbreviation run := (Prog.run clock supply).

(** ** Loops *)

Lemma run_each {A S} (l : list A) (s : S) (body : A → S → M S) (g : S → A → S) :
  (∀ x s, x ∈ l → run (body x s) st n = (Ok (g s x), st, n)) →
  run (for_each l s body) st n = (Ok (foldl g s l), st, n).
Proof.
  revert s. induction l as [|x l IH]; intros s Hb; [done|]. cbn [for_each]. rewrite run_bindM, Hb by by left.
  apply IH. intros y s' Hy. apply Hb. by right.
Qed.

(** A loop that appends what it finds. *)
Lemma run_collect {A B} (l : list A) (body : A → list B → M (list B)) (f : A → option B) :
  (∀ x acc, x ∈ l → run (body x acc) st n = (Ok (acc ++ option_list (f x)), st, n)) →
  run (for_each l [] body) st n = (Ok (omap f l), st, n).
Proof.
  intros Hb. rewrite (run_each l [] body (λ acc x, acc ++ option_list (f x)) Hb). do 2 f_equal.
  assert (∀ acc, foldl (λ acc x, acc ++ option_list (f x)) acc l = acc ++ omap f l) as Hf; [|by rewrite Hf]. clear Hb.
  induction l as [|x l IH]; intros acc; simpl; [by rewrite app_nil_r|].
  rewrite IH. destruct (f x); simpl; [by rewrite <-app_assoc|by rewrite app_nil_r].
Qed.

(** A loop that adds up what it finds. *)
Lemma foldl_omap {A B S} (sum : list B → S) (add : S → B → S) (f : A → option B) l acc :
  (∀ acc b, add (sum acc) b = sum (acc ++ [b])) →
  foldl (λ s x, match f x with Some b => add s b | None => s end) (sum acc) l = sum (acc ++ omap f l).
Proof.
  intros Hadd. revert acc. induction l as [|x l IH]; intros acc; simpl; [by rewrite app_nil_r|].
  destruct (f x) as [b|]; [|done]. rewrite Hadd, IH, <-app_assoc. done.
Qed.

(** ** Rows *)

Definition row {A} `{Codec A} (k : string) : option A := es_map st !! k ≫= λ e, decode_doc (e_val e).
Definition vm_row (id : uuid) : option VM := row (vmKey id).
Definition mig_row (id : uuid) : option Migration := row (migrationKey id).
Definition pool_row (id : uuid) : option StoragePool := row (storagePoolKey id).
Definition disk_row (id : uuid) : option VMDisk := row (vmDiskKey id).
Definition node_row (id : uuid) : option Node := row (nodeKey id).

Definition entries (prefix : string) : list (string * doc) := map (λ kv, (kv.1, e_val kv.2)) (scan prefix (es_map st)).
Definition entry_row {A} (row : uuid → option A) (kv : string * doc) : option A := index_id kv.2 ≫= row.

(** Every entry of an index holds an id, and every row under [key] decodes. *)
Definition holds_ids (prefix : string) : Prop := ∀ kv, kv ∈ entries prefix → is_Some (index_id kv.2).
Definition decodes {A} `{Codec A} (key : uuid → string) : Prop :=
  ∀ id e, es_map st !! key id = Some e → is_Some (row (A := A) (key id)).

Lemma run_row_read {A} `{Codec A} (key : uuid → string) id :
  decodes (A := A) key → run (GetJSON (A := A) (key id)) st n = (Ok (row (key id)), st, n).
Proof.
  intros Hd. rewrite run_GetJSON. specialize (Hd id). unfold row in *. destruct (es_map st !! key id) as [e|]; [|done].
  destruct (Hd e eq_refl) as [a Ha]. simpl in *. by rewrite Ha.
Qed.

(** ** The room a node has *)

(** The VMs pinned to a node, the migrations that are under way from or to it, and the
    VMs that are on their way to it. *)
Definition pinned_vms (node : uuid) : list VM := omap (entry_row vm_row) (entries (vmsPinnedNodeIndexPrefix node)).
Definition migrations_on (node : uuid) : list Migration :=
  filter (λ m, isTerminalMigration (mig_Phase m) = false) (omap (entry_row mig_row) (entries (migrationsNodeIndexPrefix node))).
Definition incoming_vm (node : uuid) (m : Migration) : option VM :=
  if bool_decide (mig_TargetNodeID m = Some node) then
    vm_row (mig_VmID m) ≫= λ v, if bool_decide (vm_DeletedAt v = None) then Some v else None
  else None.
Definition incoming_vms (node : uuid) : list VM := omap (incoming_vm node) (migrations_on node).

(** A VM created after the last report of the node, or before there was one, that is
    neither deleted nor meant to be. *)
Definition unreported (nd : Node) (v : VM) : Prop :=
  vm_DeletedAt v = None ∧ vm_DesiredPhase v ≠ VmDesiredPhaseDeleted ∧
  match node_LastHeartbeatAt nd with Some t => t < vm_CreatedAt v | None => True end.
#[export] Instance unreported_dec nd v : Decision (unreported nd v).
Proof. unfold unreported. destruct (node_LastHeartbeatAt nd); apply _. Defined.

(** The VMs that are counted against what the node reported. *)
Definition counted_vms (nd : Node) : list VM :=
  filter (unreported nd) (pinned_vms (node_ID nd)) ++ incoming_vms (node_ID nd).

Definition cpu_room (nd : Node) : option Z :=
  (λ a, Z.max (i32 (a - cpus (counted_vms nd))) 0) <$> rep_CPUCoresAvailable (node_Report nd).
Definition memory_room (nd : Node) : option Z :=
  (λ a, Z.max (i64 (a - mems (counted_vms nd))) 0) <$> rep_MemoryAvailableMib (node_Report nd).

(** The indexes of the node hold ids, and rows decode. *)
Record readable (node : uuid) : Prop := {
  rd_pins : holds_ids (vmsPinnedNodeIndexPrefix node);
  rd_moves : holds_ids (migrationsNodeIndexPrefix node);
  rd_vms : decodes (A := VM) vmKey;
  rd_migrations : decodes (A := Migration) migrationKey
}.

Lemma pending_unreported nd v : pending_vm nd v = bool_decide (unreported nd v).
Proof.
  apply eq_true_iff_eq. rewrite bool_decide_eq_true. unfold pending_vm, unreported.
  rewrite !andb_true_iff, negb_true_iff, bool_decide_eq_true, bool_decide_eq_false.
  destruct (node_LastHeartbeatAt nd) as [t|]; [|tauto]. rewrite negb_true_iff, Z.leb_gt. tauto.
Qed.

Lemma omap_filter {A B} (P : B → Prop) `{∀ b, Decision (P b)} (f : A → option B) (l : list A) :
  filter P (omap f l) = omap (λ x, f x ≫= λ b, if decide (P b) then Some b else None) l.
Proof.
  induction l as [|x l IH]; [done|]. simpl. destruct (f x) as [b|]; simpl; [|done].
  rewrite filter_cons. destruct (decide (P b)); simpl; [by f_equal|done].
Qed.

Lemma run_pendingReservations nd :
  readable (node_ID nd) →
  run (pendingReservations nd) st n = (Ok (reserved_sum (filter (unreported nd) (pinned_vms (node_ID nd)))), st, n).
Proof.
  intros Hr. unfold pendingReservations, pinned_vms. rewrite run_bindM, run_Range.
  rewrite omap_filter. set (f := (λ kv, entry_row vm_row kv ≫= _)).
  rewrite (run_each _ _ _ (λ s kv, match f kv with Some v => reserve s v | None => s end)).
  - do 3 f_equal. exact (foldl_omap reserved_sum reserve f _ [] reserve_sum).
  - intros kv s Hkv. destruct (rd_pins _ Hr kv Hkv) as [id Hid]. unfold f, entry_row. rewrite Hid, run_bindM.
    rewrite (run_row_read vmKey) by apply Hr. simpl. unfold vm_row. destruct (row (vmKey id)) as [v|]; [|done]. simpl.
    rewrite pending_unreported. case_bool_decide; [by rewrite decide_True|by rewrite decide_False].
Qed.

Lemma run_activeMigrationsOnNode node :
  readable node → run (activeMigrationsOnNode node) st n = (Ok (migrations_on node), st, n).
Proof.
  intros Hr. unfold activeMigrationsOnNode, migrations_on. rewrite run_bindM, run_Range.
  rewrite omap_filter. apply run_collect. intros kv acc Hkv. destruct (rd_moves _ Hr kv Hkv) as [id Hid].
  unfold entry_row. rewrite Hid, run_bindM, (run_row_read migrationKey) by apply Hr. simpl. unfold mig_row.
  destruct (row (migrationKey id)) as [m|]; simpl; [|by rewrite app_nil_r].
  destruct (isTerminalMigration (mig_Phase m)); simpl; [by rewrite app_nil_r|done].
Qed.

Lemma run_VMByID node id :
  readable node →
  run (VMByID id) st n =
    (match vm_row id with
     | Some v => if bool_decide (vm_DeletedAt v = None) then Ok v else Err ErrNotFound
     | None => Err ErrNotFound
     end, st, n).
Proof.
  intros Hr. unfold VMByID, vm_row. rewrite run_bindM, (run_row_read vmKey) by apply Hr.
  destruct (row (vmKey id)); [|done]. by case_bool_decide.
Qed.

Lemma run_migrationTargetReservations node :
  readable node → run (migrationTargetReservations node) st n = (Ok (reserved_sum (incoming_vms node)), st, n).
Proof.
  intros Hr. unfold migrationTargetReservations, incoming_vms. rewrite run_bindM, run_activeMigrationsOnNode by done.
  rewrite (run_each _ _ _ (λ s m, match incoming_vm node m with Some v => reserve s v | None => s end)).
  - do 3 f_equal. exact (foldl_omap reserved_sum reserve (incoming_vm node) _ [] reserve_sum).
  - intros m s _. unfold incoming_vm. case_bool_decide; cbn [negb]; [|done].
    rewrite run_bindM, run_attempt, (run_VMByID node) by done. simpl.
    destruct (vm_row (mig_VmID m)) as [v|]; simpl; [|done]. by case_bool_decide.
Qed.

Lemma run_nodeEffective nd :
  readable (node_ID nd) → run (nodeEffective nd) st n = (Ok (node_view nd (cpu_room nd) (memory_room nd)), st, n).
Proof.
  intros Hr. unfold nodeEffective. rewrite run_bindM, run_pendingReservations by done.
  unfold reserved_sum at 1. cbv iota. rewrite run_bindM, run_migrationTargetReservations by done.
  unfold reserved_sum, cpu_room, memory_room, counted_vms. cbv iota. rewrite run_mret, cpus_app, mems_app. unfold i32, i64.
  do 4 f_equal.
  - destruct (rep_CPUCoresAvailable (node_Report nd)) as [a|]; [|done]. simpl. do 2 f_equal.
    rewrite wrap_signed_sub, wrap_signed_sub, wrap_signed_sub_l. f_equal. lia.
  - destruct (rep_MemoryAvailableMib (node_Report nd)) as [a|]; [|done]. simpl. do 2 f_equal.
    rewrite wrap_signed_sub, wrap_signed_sub, wrap_signed_sub_l. f_equal. lia.
Qed.

(** C21. The effective view of a node, when nothing interferes and its rows can be read, is
    what its agent reported, less two kinds of VMs: those pinned to the node that were
    created after its last heartbeat (all of them when there was none) and are neither
    deleted nor meant to be, and the live VMs of migrations to the node that have not
    ended.  The subtraction wraps at the width of the column, and the result is not
    below zero.  A VM that was created before the report and pinned after it is not
    subtracted. *)
Theorem nodeEffective_accounts nd :
  readable (node_ID nd) →
  run (nodeEffective nd) st n =
    (Ok (node_view nd
       ((λ a, Z.max (i32 (a - cpus (counted_vms nd))) 0) <$> rep_CPUCoresAvailable (node_Report nd))
       ((λ a, Z.max (i64 (a - mems (counted_vms nd))) 0) <$> rep_MemoryAvailableMib (node_Report nd))), st, n).
Proof. apply run_nodeEffective. Qed.

(** ** The room a pool has *)

(** A disk of the pool that was created after its last scan. *)
Definition unscanned (p : StoragePool) (d : VMDisk) : Prop :=
  disk_DeletedAt d = None ∧ match sp_ReportedAt p with Some t => t < disk_CreatedAt d | None => True end.
#[export] Instance unscanned_dec p d : Decision (unscanned p d).
Proof. unfold unscanned. destruct (sp_ReportedAt p); apply _. Defined.

Definition unscanned_disks (p : StoragePool) : list VMDisk :=
  filter (unscanned p) (omap (entry_row disk_row) (entries (vmDisksPoolIndexPrefix (sp_ID p)))).
Definition pool_room (p : StoragePool) : option Z :=
  (λ a, Z.max (i64 (a - disk_bytes (unscanned_disks p))) 0) <$> sp_AvailableBytes p.

Lemma pending_unscanned p d : pending_disk p d = bool_decide (unscanned p d).
Proof.
  apply eq_true_iff_eq. rewrite bool_decide_eq_true. unfold pending_disk, unscanned.
  rewrite andb_true_iff, bool_decide_eq_true.
  destruct (sp_ReportedAt p) as [t|]; [|tauto]. rewrite negb_true_iff, Z.leb_gt. tauto.
Qed.

Lemma run_poolEffective p :
  holds_ids (vmDisksPoolIndexPrefix (sp_ID p)) → decodes (A := VMDisk) vmDiskKey →
  run (poolEffective p) st n = (Ok (pool_view p (pool_room p)), st, n).
Proof.
  intros Hids Hd. unfold poolEffective, pool_room. destruct (sp_AvailableBytes p) as [a|]; [|done].
  unfold pendingCommittedBytes, unscanned_disks. rewrite run_bindM, run_bindM, run_Range, omap_filter.
  set (f := (λ kv, entry_row disk_row kv ≫= _)). set (add := (λ s d, i64 (s + disk_SizeGib d * bytesPerGiB))).
  rewrite (run_each _ _ _ (λ s kv, match f kv with Some d => add s d | None => s end)).
  - assert (∀ l, foldl (λ s kv, match f kv with Some d => add s d | None => s end) 0 l = i64 (disk_bytes (omap f l))) as ->.
    { intros l. refine (foldl_omap (λ l, i64 (disk_bytes l)) add f l [] _). intros acc d.
      unfold add, i64. rewrite wrap_signed_add, disk_bytes_app. simpl. by rewrite Z.add_0_r. }
    simpl. do 6 f_equal. unfold i64. by rewrite wrap_signed_sub.
  - intros kv s Hkv. destruct (Hids kv Hkv) as [id Hid]. unfold f, entry_row. rewrite Hid, run_bindM.
    rewrite (run_row_read vmDiskKey) by done. simpl. unfold disk_row. destruct (row (vmDiskKey id)) as [d|]; [|done]. simpl.
    rewrite pending_unscanned. case_bool_decide; [by rewrite decide_True|by rewrite decide_False].
Qed.

(** ** The nodes the control plane reaches *)

Definition rows_of {A} `{Codec A} (prefix : string) : list A := omap (λ kv, decode_doc kv.2) (entries prefix).
Definition all_decode {A} `{Codec A} (prefix : string) : Prop :=
  ∀ kv, kv ∈ entries prefix → is_Some (decode_doc (A := A) kv.2).
Definition distinct {A} (id : A → uuid) (l : list A) : Prop := ∀ a b, a ∈ l → b ∈ l → id a = id b → a = b.

Definition wg_records : list AgentWireguard := rows_of agentWireguardPrefix.
Definition live_nodes : list Node := filter (λ nd, node_DeletedAt nd = None) (rows_of nodePrefix).

(** A live node that is a public gateway, by its control port. *)
Definition gateway (id : uuid) (port : Z) : Prop :=
  ∃ g, g ∈ live_nodes ∧ node_ID g = id ∧ node_GatewayRole g = true ∧ node_AdvertisedEndpoint g ≠ "" ∧
    node_IngressAdvertisedEndpoint g ≠ "" ∧ 0 < port ∧ node_ControlListenPort g = port.

Context (downPathStaleness : Z).

(** A node whose agent is behind NAT has reported recently that it is connected to a
    gateway with its own control port. *)
Definition reached (nd : Node) : Prop :=
  ∀ rec, rec ∈ wg_records → aw_NodeID rec = node_ID nd → aw_Endpoint rec = "" →
    time_Sub clock (aw_UpdatedAt rec) ≤ downPathStaleness ∧
    ∃ s id, s ∈ aw_EstablishedPeers rec ∧ uuid_parse s = Some id ∧ gateway id (node_ControlListenPort nd).

Lemma foldl_put {A B} (P : A → bool) (id : A → uuid) (val : A → B) l k v :
  distinct id l →
  foldl (λ (m : gmap uuid B) a, if P a then <[id a := val a]> m else m) ∅ l !! k = Some v ↔
  ∃ a, a ∈ l ∧ P a = true ∧ id a = k ∧ val a = v.
Proof.
  induction l as [|x l IH] using rev_ind; intros Hd.
  { simpl. rewrite lookup_empty. split; [done|]. intros (a & Ha & _). by apply elem_of_nil in Ha. }
  assert (distinct id l) as Hdl by (intros a b ??; apply Hd; apply elem_of_app; by left).
  rewrite foldl_app. simpl. specialize (IH Hdl). set (m := foldl _ _ l) in *.
  assert (x ∈ l ++ [x]) as Hx by (apply elem_of_app; right; by left).
  destruct (P x) eqn:Px; [destruct (decide (id x = k)) as [Hk|Hk]|].
  - subst k. rewrite lookup_insert_eq. split; [intros [= <-]; by exists x|]. intros (a & Ha & _ & E & <-).
    by rewrite (Hd a x Ha Hx E).
  - rewrite lookup_insert_ne, IH by done. split; intros (a & Ha & HP & Hid & Hv); exists a; (split_and!; [|done..]).
    + apply elem_of_app. by left.
    + apply elem_of_app in Ha as [?|Ha]; [done|]. by apply list_elem_of_singleton in Ha as ->.
  - rewrite IH. split; intros (a & Ha & HP & Hid & Hv); exists a; (split_and!; [|done..]).
    + apply elem_of_app. by left.
    + apply elem_of_app in Ha as [?|Ha]; [done|]. apply list_elem_of_singleton in Ha as ->. congruence.
Qed.

Definition wg_by_node : gmap uuid AgentWireguard := foldl (λ byNode rec, <[aw_NodeID rec := rec]> byNode) ∅ wg_records.
Definition public_ports : gmap uuid Z :=
  foldl (λ gws nd, if public_gateway nd then <[node_ID nd := node_ControlListenPort nd]> gws else gws) ∅ live_nodes.

Lemma run_downPathReachability :
  all_decode (A := AgentWireguard) agentWireguardPrefix → all_decode (A := Node) nodePrefix →
  run downPathReachability st n = (Ok (wg_by_node, public_ports), st, n).
Proof.
  intros Hw Hn. unfold downPathReachability. rewrite run_bindM. unfold ListAgentWireguard.
  rewrite run_bindM, run_Range, (run_collect _ _ (λ kv, decode_doc kv.2)).
  2: { intros kv acc Hkv. by destruct (Hw kv Hkv) as [rec ->]. }
  rewrite run_bindM. unfold AllNodes. rewrite run_bindM, run_Range.
  rewrite (run_collect _ _ (λ kv, decode_doc kv.2 ≫= λ nd, if decide (node_DeletedAt nd = None) then Some nd else None)).
  { unfold public_ports, live_nodes, rows_of. by rewrite omap_filter. }
  intros kv acc Hkv. destruct (Hn kv Hkv) as [nd ->]. simpl. case_bool_decide as Hl.
  - by rewrite decide_True.
  - rewrite decide_False by done. by rewrite app_nil_r.
Qed.

Lemma public_gateway_spec id port :
  distinct node_ID live_nodes → 0 < port → default 0 (public_ports !! id) = port ↔ gateway id port.
Proof.
  intros Hd Hp. assert (default 0 (public_ports !! id) = port ↔ public_ports !! id = Some port) as ->.
  { destruct (public_ports !! id) as [x|]; simpl; [split; [by intros ->|by intros [= ->]]|]. split; [lia|done]. }
  unfold public_ports. rewrite foldl_put by done. unfold gateway, public_gateway.
  split; intros (g & Hg & H3); exists g; (split; [done|]).
  - destruct H3 as (Hpub & Hid & Hport). rewrite !andb_true_iff, !negb_true_iff, !bool_decide_eq_false in Hpub. destruct Hpub as [[[? ?] ?] ?]. by split_and!.
  - destruct H3 as (Hid & Hrole & He & Hi & _ & Hport). rewrite !andb_true_iff, !negb_true_iff, !bool_decide_eq_false.
    split_and!; try done. apply Z.ltb_lt. lia.
Qed.

Lemma node_reachable_spec nd :
  distinct aw_NodeID wg_records → distinct node_ID live_nodes →
  node_reachable nd (wg_by_node !! node_ID nd) public_ports clock downPathStaleness = true ↔ reached nd.
Proof.
  intros Hw Hn.
  assert (∀ rec, wg_by_node !! node_ID nd = Some rec ↔ rec ∈ wg_records ∧ aw_NodeID rec = node_ID nd) as Hrec.
  { intros rec. pose proof (foldl_put (λ _, true) aw_NodeID (λ r, r) wg_records (node_ID nd) rec Hw) as Hl.
    unfold wg_by_node. etrans; [exact Hl|]. split; [intros (a & ? & _ & ? & <-); done|]. intros [??]. by exists rec. }
  unfold node_reachable, reached. destruct (wg_by_node !! node_ID nd) as [rec|] eqn:E.
  2: { split; [|done]. intros _ rec Hin Hid. assert (None = Some rec) as [=]. by apply Hrec. }
  destruct (proj1 (Hrec rec) eq_refl) as [Hin Hid].
  assert (∀ rec', rec' ∈ wg_records → aw_NodeID rec' = node_ID nd → rec' = rec) as Huniq.
  { intros rec' ??. apply Hw; [done|done|congruence]. }
  unfold downPathReachable. case_bool_decide as He; cbn [negb].
  2: { split; [|done]. intros _ rec' Hin' Hid' He'. by rewrite (Huniq rec' Hin' Hid') in He'. }
  destruct (downPathStaleness <? time_Sub clock (aw_UpdatedAt rec)) eqn:Hst; cbn [orb].
  { apply Z.ltb_lt in Hst. split; [done|]. intros Hr. destruct (Hr rec Hin Hid He). lia. }
  apply Z.ltb_ge in Hst. destruct (node_ControlListenPort nd <=? 0) eqn:Hport.
  { apply Z.leb_le in Hport. split; [done|]. intros Hr. destruct (Hr rec Hin Hid He) as (_ & s & id & _ & _ & Hg).
    destruct Hg as (g & _ & _ & _ & _ & _ & ? & _). lia. }
  apply Z.leb_gt in Hport. rewrite existsb_exists. split.
  - intros (s & Hs & Hx) rec' Hin' Hid' _. rewrite (Huniq rec' Hin' Hid'). split; [done|].
    destruct (uuid_parse s) as [id|] eqn:Ep; [|done]. exists s, id. split_and!; [by apply list_elem_of_In|done|].
    by apply public_gateway_spec, Z.eqb_eq.
  - intros Hr. destruct (Hr rec Hin Hid He) as (_ & s & id & Hs & Ep & Hg). exists s. split; [by apply list_elem_of_In|].
    rewrite Ep. by apply Z.eqb_eq, public_gateway_spec.
Qed.

(** ** The candidates *)

Definition pools_named (name : string) : list StoragePool :=
  filter (λ p, sp_DeletedAt p = None) (omap (entry_row pool_row) (entries (storagePoolNameIndexPrefix name))).

(** An instance of the pool and its node may take a VM. *)
Record offered (name : string) (p : StoragePool) (nd : Node) : Prop := {
  of_pool : p ∈ pools_named name;
  of_node : node_row (sp_NodeID p) = Some nd;
  of_live : node_DeletedAt nd = None;
  of_stays : es_map st !! nodeDeletingKey (sp_NodeID p) = None;
  of_ready : node_Status nd = NodeStatusReady;
  of_uncordoned : node_CordonedAt nd = None;
  of_memory : node_MemoryPressureSince nd = None;
  of_system_disk : node_SystemDiskPressureSince nd = None;
  of_pool_disk : sp_DiskPressureSince p = None;
  of_reached : reached nd
}.

(** What the query reads can be read, and names nodes and agents once. *)
Record offers_readable (name : string) : Prop := {
  or_index : holds_ids (storagePoolNameIndexPrefix name);
  or_pools : decodes (A := StoragePool) storagePoolKey;
  or_disk_index : ∀ p, p ∈ pools_named name → holds_ids (vmDisksPoolIndexPrefix (sp_ID p));
  or_disks : decodes (A := VMDisk) vmDiskKey;
  or_node : decodes (A := Node) nodeKey;
  or_room : ∀ p nd, p ∈ pools_named name → node_row (sp_NodeID p) = Some nd → readable (node_ID nd);
  or_nodes : all_decode (A := Node) nodePrefix;
  or_wg : all_decode (A := AgentWireguard) agentWireguardPrefix;
  or_node_ids : distinct node_ID live_nodes;
  or_wg_nodes : distinct aw_NodeID wg_records
}.

Lemma run_StoragePoolsByName name :
  holds_ids (storagePoolNameIndexPrefix name) → decodes (A := StoragePool) storagePoolKey →
  run (StoragePoolsByName name) st n =
    (Ok (stable_sort (λ a b, String.ltb (uuid_string (sp_NodeID a)) (uuid_string (sp_NodeID b))) (pools_named name)), st, n).
Proof.
  intros Hids Hd. unfold StoragePoolsByName, pools_named. rewrite run_bindM, run_Range, run_bindM, omap_filter.
  set (f := (λ kv, entry_row pool_row kv ≫= _)). rewrite (run_collect _ _ f); [done|].
  intros kv acc Hkv. destruct (Hids kv Hkv) as [id Hid]. unfold f, entry_row. rewrite Hid, run_bindM, run_attempt.
  unfold StoragePoolByID. rewrite run_bindM, (run_row_read storagePoolKey) by done. simpl. unfold pool_row.
  destruct (row (storagePoolKey id)) as [p|]; simpl; [|by rewrite app_nil_r]. case_bool_decide as Hl; simpl.
  - by rewrite decide_True.
  - rewrite decide_False by done. by rewrite app_nil_r.
Qed.

Lemma run_NodeByID id :
  decodes (A := Node) nodeKey →
  run (NodeByID id) st n =
    (match node_row id with
     | Some nd => if bool_decide (node_DeletedAt nd = None) then Ok nd else Err ErrNotFound
     | None => Err ErrNotFound
     end, st, n).
Proof.
  intros Hd. unfold NodeByID, node_row. rewrite run_bindM, (run_row_read nodeKey) by done.
  destruct (row (nodeKey id)); [|done]. by case_bool_decide.
Qed.

Definition offer_row (p : StoragePool) (nd : Node) : PoolRow :=
  MkPoolRow (pool_view p (pool_room p)) (node_view nd (cpu_room nd) (memory_room nd)).

(** What the loop makes of an instance. *)
Definition candidate (p : StoragePool) : option PoolRow :=
  if bool_decide (is_Some (es_map st !! nodeDeletingKey (sp_NodeID p))) then None
  else node_row (sp_NodeID p) ≫= λ nd,
    if negb (bool_decide (node_DeletedAt nd = None)) then None
    else let r := offer_row p nd in
      if negb (eligible (row_Pool r) (row_Node r)) then None
      else if negb (node_reachable nd (wg_by_node !! node_ID nd) public_ports clock downPathStaleness) then None
      else Some r.

Lemma run_poolNodePairs name :
  offers_readable name →
  run (poolNodePairs downPathStaleness name eligible) st n =
    (Ok (omap candidate (stable_sort (λ a b, String.ltb (uuid_string (sp_NodeID a)) (uuid_string (sp_NodeID b)))
       (pools_named name))), st, n).
Proof.
  intros []. unfold poolNodePairs. rewrite run_bindM, run_StoragePoolsByName by done.
  rewrite run_bindM, run_downPathReachability by done. cbv iota. rewrite run_bindM, run_now.
  apply run_collect. intros p acc Hp. rewrite stable_sort_perm in Hp. unfold candidate.
  rewrite run_bindM. unfold deleteIntentPresent. rewrite run_bindM, run_raw_get, run_mret.
  destruct (bool_decide (is_Some _)); [by rewrite app_nil_r|].
  rewrite run_bindM, run_attempt, run_NodeByID by done. cbn [fst snd].
  destruct (node_row (sp_NodeID p)) as [nd|] eqn:En; cbn [mbind option_bind]; [|by rewrite app_nil_r].
  destruct (bool_decide (node_DeletedAt nd = None)); cbn [negb fst snd]; [|by rewrite app_nil_r].
  rewrite run_bindM, run_poolEffective by auto. cbv beta iota. rewrite run_bindM, run_nodeEffective by eauto.
  unfold offer_row. cbv zeta beta iota. cbn [row_Pool row_Node].
  destruct (eligible _ _); simpl; [|by rewrite app_nil_r]. destruct (node_reachable _ _ _ _ _); simpl; [done|by rewrite app_nil_r].
Qed.

Lemma candidate_offered name p r :
  offers_readable name → p ∈ pools_named name → candidate p = Some r ↔ ∃ nd, offered name p nd ∧ r = offer_row p nd.
Proof.
  intros Hr Hp. unfold candidate. case_bool_decide as Hdel.
  { split; [done|]. intros (nd & [] & _). rewrite of_stays0 in Hdel. by destruct Hdel. }
  rewrite <-eq_None_not_Some in Hdel. destruct (node_row (sp_NodeID p)) as [nd|] eqn:En; simpl.
  2: { split; [done|]. intros (nd & [] & _). congruence. }
  assert (∀ nd', node_row (sp_NodeID p) = Some nd' → nd' = nd) as Huniq by (intros; congruence).
  assert (eligible (pool_view p (pool_room p)) (node_view nd (cpu_room nd) (memory_room nd)) = true ↔
    node_Status nd = NodeStatusReady ∧ node_CordonedAt nd = None ∧ node_MemoryPressureSince nd = None ∧
    node_SystemDiskPressureSince nd = None ∧ sp_DiskPressureSince p = None) as Hel.
  { unfold eligible, nodeSchedulable, unset. rewrite !andb_true_iff, !bool_decide_eq_true. cbn. tauto. }
  pose proof (node_reachable_spec nd (or_wg_nodes _ Hr) (or_node_ids _ Hr)) as Hre.
  case_bool_decide as Hl; cbn [negb].
  2: { split; [done|]. intros (nd' & [] & _). by rewrite (Huniq nd' of_node0) in of_live0. }
  destruct (eligible _ _) eqn:Ee; cbn [negb].
  2: { split; [done|]. intros (nd' & [] & _). pose proof (Huniq nd' of_node0) as ->. assert (false = true) as [=]. apply Hel. by split_and!. }
  destruct (node_reachable _ _ _ _ _) eqn:Er; cbn [negb].
  2: { split; [done|]. intros (nd' & [] & _). pose proof (Huniq nd' of_node0) as ->. assert (false = true) as [=]. by apply Hre. }
  split.
  - intros [= <-]. exists nd. split; [|done]. destruct (proj1 Hel eq_refl) as (?&?&?&?&?). by constructor; try apply Hre.
  - intros (nd' & [] & ->). by rewrite (Huniq nd' of_node0).
Qed.

(** C16. The candidates for a pool name, when nothing interferes and the rows can be read, are
    exactly the offers of the store, in the order of the nodes: every live instance of
    the pool whose node is live, ready, not cordoned, not being deleted, under no memory
    or disk pressure, and reached by the control plane (its agent is not behind NAT, or
    has recently reported a connection to a public gateway with the node's control
    port), with the room that is left on both; and nothing else is a candidate. *)
Theorem poolNodePairs_exact name :
  offers_readable name →
  ∃ rows, run (poolNodePairs downPathStaleness name eligible) st n = (Ok rows, st, n) ∧
    (∀ r, r ∈ rows ↔ ∃ p nd, offered name p nd ∧ r = offer_row p nd) ∧
    StronglySorted (λ a b, str_ltb (uuid_string (pec_NodeID (row_Pool b))) (uuid_string (pec_NodeID (row_Pool a))) = false) rows.
Proof.
  intros Hr. eexists. split; [by apply run_poolNodePairs|]. split.
  - intros r. rewrite list_elem_of_omap. split.
    + intros (p & Hp & Hc). rewrite stable_sort_perm in Hp. apply (candidate_offered name) in Hc as (nd & ? & ?); eauto.
    + intros (p & nd & Ho & ->). exists p. split; [rewrite stable_sort_perm; apply Ho|].
      apply (candidate_offered name); [done|apply Ho|eauto].
  - eapply StronglySorted_omap; [|apply (stable_sort_sorted _ (λ _, True)); [apply (str_ltb_swo (λ p, uuid_string (sp_NodeID p)))|by apply Forall_true]].
    intros p q a b _ _ Hpq Ha Hb.
    assert (∀ p r, candidate p = Some r → pec_NodeID (row_Pool r) = sp_NodeID p) as Hid; [|by rewrite (Hid _ _ Ha), (Hid _ _ Hb)].
    intros p' r. unfold candidate. case_match; [done|]. destruct (node_row _); simpl; [|done]. by repeat case_match; intros; simplify_eq.
Qed.
End AtRest.
