(* ===== verification/ScheduleRules.v ===== *)
(** * The schedule loop: protocol and rules

    The protocol says under which conditions a program may pin a VM; everything beside
    the program may do as it likes, as long as rows stay under their own keys.  [sees]
    states what the result of a program tells about the states etcd has been in: a read
    of many rows is no snapshot, but every row it returns was stored at some time since
    the run began. *)

From S2P Require Import Prelude Models Float64 Scheduler Etcd Prog Keys Client Rules Footprint Guards Footprints.
From S2P Require Import Jobs Tasks Nodes Migrations DeleteIntent VMs Placement DrainProps VMInvariant.
Import Scheduler.
Local Open Scope Z_scope.

(** ** Observations *)

(** A row etcd has had. *)
Definition saw (w : world) (k : string) (d : doc) : Prop :=
  ∃ st, st ∈ states w ∧ e_val <$> es_map st !! k = Some d.

(** What is known stays known. *)
Definition later (w w' : world) : Prop :=
  (∀ st, st ∈ states w → st ∈ states w') ∧ ∀ k e, seen k e (w_st w) → seen k e (w_st w').

#[export] Instance later_preorder : PreOrder later.
Proof.
  split; [by intros w; split|]. intros w1 w2 w3 [S1 E1] [S2 E2]. split; auto.
Qed.

Lemma saw_later w w' k d : later w w' → saw w k d → saw w' k d.
Proof. intros [Hs _] (st & Hst & Hk). exists st. auto. Qed.

Lemma any_env_later w w' : any_env w w' → later w w'.
Proof.
  intros (He & _ & Hst). split; [|intros k e; by apply seen_estep]. intros st Hin. apply Hst. by right.
Qed.

(** ** The protocol *)
Section Rules.
Context `{Etcd, !EtcdLaws, !Libs, !LibsLaws}.

Definition pinned_to (st : estate) (id : uuid) : option uuid :=
  match e_val <$> es_map st !! vmKey id with Some (DVM v) => vm_PinnedNodeID v | _ => None end.

(** The rows of VMs and nodes lie under their own keys. *)
Definition keyed (st : estate) : Prop :=
  (∀ id v, vm_at st id v → vm_ID v = id) ∧ (∀ id n, node_at st id n → node_ID n = id).

Definition keyed_env (w w' : world) : Prop := any_env w w' ∧ (keyed (w_st w) → keyed (w_st w')).

(** When a step from one world to another may pin a VM to a node. *)
Context (good : world → world → uuid → uuid → Prop).

Definition pin_inv (w : world) : Prop := estate_wf (w_st w) ∧ ∀ st, st ∈ states w → keyed st.

Definition pin_protocol : protocol := {|
  pr_inv := pin_inv;
  pr_rely := keyed_env;
  pr_guar w w' := keyed_env w w' ∧
    ∀ id n, pinned_to (w_st w') id = Some n → pinned_to (w_st w) id ≠ Some n → good w w' id n;
  pr_ownable _ _ := False
|}.

Lemma pin_inv_step w w' : pin_inv w → keyed_env w w' → pin_inv w'.
Proof.
  intros [Hwf Hk] [(He & _ & Hst) Hkeep]. split; [by eapply estep_wf|].
  intros st [->|Hin]%Hst; [|by apply Hk]. apply Hkeep, Hk. by left.
Qed.

#[export] Instance pin_protocol_laws : EtcdProtocol pin_protocol.
Proof.
  split; [split|..]; simpl.
  - intros w w' Hs. pose proof Hs as (E & _).
    split; [split; [by apply any_env_same|by rewrite E]|]. intros id n. rewrite E. congruence.
  - apply pin_inv_step.
  - intros w w' Hi [He _]. by eapply pin_inv_step.
  - done.
  - by intros w [? _].
  - by intros w w' [? _].
Qed.

Lemma keyed_same st st' :
  (∀ id, es_map st' !! vmKey id = es_map st !! vmKey id) → (∀ id, es_map st' !! nodeKey id = es_map st !! nodeKey id) →
  keyed st → keyed st'.
Proof. intros Hv Hn [Kv Kn]. split; intros id x; unfold vm_at, node_at; [rewrite Hv|rewrite Hn]; auto. Qed.

(** Writes of other kinds of rows. *)
Lemma pin_frame fs : FVM ∉ fs → FNode ∉ fs → Frame pin_protocol fs.
Proof.
  intros Hv Hn. split; [|by intros ? ? []]. intros w w' _ He Hk. unfold w_map in Hk.
  assert (∀ id, es_map (w_st w') !! vmKey id = es_map (w_st w) !! vmKey id) as Hvm by (intros id; apply Hk; key_in_solve).
  split; [split; [done|]|].
  - apply keyed_same; [done|]. intros id. apply Hk. key_in_solve.
  - intros id n. unfold pinned_to. by rewrite Hvm.
Qed.

(** ** What a program sees *)

Definition sees {E A} (p : prog (result E A)) (Q : A → world → Prop) (w : world) : Prop :=
  pin_inv w → wp pin_protocol p ∅
    (λ r O w', O = ∅ ∧ pin_inv w' ∧ later w w' ∧ match r with Ok a => Q a w' | Err _ => True end) w.

Lemma sees_mono {E A} (p : prog (result E A)) (Q Q' : A → world → Prop) w :
  (∀ a w', pin_inv w' → later w w' → Q a w' → Q' a w') → sees p Q w → sees p Q' w.
Proof.
  intros HQ Hp Hi. eapply wp_mono; [|by apply Hp]. intros [a|e] O w' (-> & Hi' & Hl & Ha); split_and!; auto.
Qed.

Lemma sees_ret {E A} (a : A) (Q : A → world → Prop) w : Q a w → sees (Ret (Ok a) : prog (result E A)) Q w.
Proof. intros HQ Hi. by split_and!. Qed.

Lemma sees_err {E A} (e : E) (Q : A → world → Prop) w : sees (Ret (Err e)) Q w.
Proof. intros Hi. by split_and!. Qed.

Lemma sees_bind {E E' A B} (f : result E A → prog (result E' B)) (p : prog (result E A)) Q w :
  sees p (λ a w', sees (f (Ok a)) Q w') w → (∀ e w', sees (f (Err e)) Q w') → sees (prog_bind f p) Q w.
Proof.
  intros Hp He Hi. apply wp_bind. eapply wp_mono; [|by apply Hp]. intros r O w1 (-> & Hi1 & Hl1 & Hr).
  eapply wp_mono; [|destruct r as [a|e]; [by apply Hr|by apply He]].
  intros r' O w2 (-> & Hi2 & Hl2 & Hr'). split_and!; [done|done|by etrans|done].
Qed.

Lemma sees_bindM {A B} (f : A → M B) (m : M A) Q w : sees m (λ a w', sees (f a) Q w') w → sees (m ≫= f) Q w.
Proof. intros Hm. apply sees_bind; [done|]. intros. apply sees_err. Qed.

Lemma sees_attempt {A} (m : M A) Q w :
  sees m Q w → sees (attempt m) (λ r w', match r with Ok a => Q a w' | Err _ => True end) w.
Proof.
  intros Hm. apply sees_bind; [|intros; by apply sees_ret]. eapply sees_mono; [|exact Hm].
  intros a w' _ _ Ha. by apply sees_ret.
Qed.

(** A loop whose invariant stays known. *)
Lemma sees_for_each {A S} (l : list A) (s : S) (body : A → S → M S) (I : S → world → Prop) w :
  I s w → (∀ x s w', x ∈ l → later w w' → I s w' → sees (body x s) I w') → sees (for_each l s body) I w.
Proof.
  revert s w. induction l as [|x l IH]; intros s w Hs Hb; simpl; [by apply sees_ret|].
  apply sees_bindM. eapply sees_mono; [|apply Hb; [by left|done|done]].
  intros s' w' _ Hl Hs'. apply IH; [done|]. intros y s2 w2 Hy Hl2. apply Hb; [by right|by etrans].
Qed.

(** A program that writes no VM and no node. *)
Lemma sees_writes fs {A} (m : M A) (Q : A → Prop) w :
  FVM ∉ fs → FNode ∉ fs → writes fs m → returns (on_ok Q) m → sees m (λ a _, Q a) w.
Proof.
  intros Hv Hn Hm HQ Hi. pose proof (pin_frame fs Hv Hn) as Hf.
  eapply wp_mono; [|apply (wp_frame_keep pin_protocol fs (later w) (on_ok Q)); [..|exact Hm|exact HQ|done|done]].
  - by intros [a|e] O w' (-> & Ha & Hi' & Hl).
  - intros w1 w2 _ [He _] Hl. etrans; [done|by apply any_env_later].
  - intros w1 w2 _ He _ Hl. etrans; [done|by apply any_env_later].
  - set_solver.
Qed.

Lemma sees_reads {A} (m : M A) w : writes [] m → sees m (λ _ _, True) w.
Proof. intros Hm. apply (sees_writes []); [set_solver|set_solver|done|by apply returns_any]. Qed.

Lemma settled_known w w' : pin_inv w → settled pin_protocol ∅ w w' → pin_inv w' ∧ later w w'.
Proof.
  intros Hi Hw. split; [by eapply (settled_inv pin_protocol)|].
  eapply (settled_stable pin_protocol (later w)); [..|exact Hw|done|done].
  - intros w1 w2 _ [He _] Hl. etrans; [done|by apply any_env_later].
  - intros w1 w2 _ Hs Hl. etrans; [done|]. by apply any_env_later, any_env_same.
Qed.

Lemma saw_now w k e : w_map w !! k = Some e → saw w k (e_val e).
Proof. intros Hk. exists (w_st w). split; [by left|]. fold (w_map w). by rewrite Hk. Qed.

Lemma sees_GetJSON {A} `{Codec A} k w :
  sees (GetJSON (A := A) k) (λ r w', match r with Some a => saw w' k (encode_doc a) | None => True end) w.
Proof.
  intros Hi. apply (wp_GetJSON pin_protocol).
  - intros w2 e Hw2. by destruct (settled_known w w2 Hi Hw2).
  - intros w2 Hw2 _. by destruct (settled_known w w2 Hi Hw2).
  - intros w2 e a Hw2 Hk He. destruct (settled_known w w2 Hi Hw2). split_and!; [done..|].
    rewrite <-He. by apply saw_now.
Qed.

Lemma sees_Range p w : sees (Range p) (λ items w', ∀ kv, kv ∈ items → saw w' kv.1 kv.2) w.
Proof.
  intros Hi. apply wp_bindM, (wp_raw_range pin_protocol). intros w2 Hw2.
  destruct (settled_known w w2 Hi Hw2). split; [done|]. split_and!; [done..|].
  intros kv ([k e] & -> & Hk)%list_elem_of_fmap. apply elem_of_scan in Hk as [Hk _]. by apply saw_now.
Qed.

Lemma sees_vmWithRev id w :
  sees (vmWithRev id) (λ r w', ∃ e, seen (vmKey id) e (w_st w') ∧ e_val e = DVM r.1 ∧ e_mod e = r.2 ∧ vm_ID r.1 = id) w.
Proof.
  intros Hi. apply wp_bindM, (wp_raw_get_seen pin_protocol).
  - intros w2 Hw2. by destruct (settled_known w w2 Hi Hw2).
  - intros w2 Hw2 _. by destruct (settled_known w w2 Hi Hw2).
  - intros w2 e Hw2 Hk Hseen. destruct (settled_known w w2 Hi Hw2) as [Hi2 Hl2].
    destruct (decode_doc (e_val e)) as [v|] eqn:Ed; [|by split_and!]. apply decode_doc_inv in Ed.
    case_bool_decide; [|by split_and!]. split_and!; [done|done|done|]. exists e. split_and!; [done|done|done|].
    destruct Hi2 as [_ Hkeyed]. destruct (Hkeyed (w_st w2)) as [Hvm _]; [by left|]. apply Hvm.
    unfold vm_at. fold (w_map w2). rewrite Hk. simpl. by rewrite Ed.
Qed.

Lemma put_inj k k' d d' : OpPut k d = OpPut k' d' → k = k' ∧ d = d'.
Proof. by intros [= -> ->]. Qed.

(** A transaction that writes the row of one VM. *)
Lemma pin_step fs w ops v :
  FVM ∉ fs → FNode ∉ fs → pin_inv w → w_rev w < max_i64 →
  Forall (λ o, o = OpPut (vmKey (vm_ID v)) (DVM v) ∨ op_in fs o) ops →
  (∀ n, vm_PinnedNodeID v = Some n → pinned_to (w_st w) (vm_ID v) ≠ Some n → good w (applied w ops) (vm_ID v) n) →
  own_step pin_protocol ∅ ∅ w (applied w ops).
Proof.
  intros Hv Hn [_ Hkeyed] Hmax Hops Hgood. rewrite Forall_forall in Hops.
  assert (∀ id, es_map (w_st (applied w ops)) !! vmKey id = es_map (w_st w) !! vmKey id ∨
    (id = vm_ID v ∧ e_val <$> es_map (w_st (applied w ops)) !! vmKey id = Some (DVM v))) as Hvm.
  { intros id. destruct (applied_cases w ops (vmKey id)) as [E|[(d & E & Hin)|[_ Hin]]]; [by left|..].
    - right. destruct (Hops _ Hin) as [[Hk ->]%put_inj|Ho]; [by apply (inj vmKey) in Hk|].
      exfalso. revert Ho. simpl. key_in_solve.
    - destruct (Hops _ Hin) as [?|Ho]; [done|]. exfalso. revert Ho. simpl. key_in_solve. }
  assert (∀ id, es_map (w_st (applied w ops)) !! nodeKey id = es_map (w_st w) !! nodeKey id) as Hnode.
  { intros id. apply (applied_outside w (FVM :: fs) ops); [|key_in_solve]. apply Forall_forall.
    intros o Ho. destruct (Hops o Ho) as [->|Hin]; [simpl; key_in_solve|]. eapply op_in_sub; [|done]. set_solver. }
  destruct (Hkeyed (w_st w)) as [Kv Kn]; [by left|].
  split_and!; [|by intros ?|set_solver]. split; [split; [by apply any_env_applied|]|].
  - intros _. split; intros id x; unfold vm_at, node_at; [|rewrite Hnode; apply Kn].
    destruct (Hvm id) as [->|[-> E]]; [apply Kv|]. rewrite E. by intros [= ->].
  - intros id n. unfold pinned_to at 1. destruct (Hvm id) as [->|[-> E]]; [by unfold pinned_to; intros -> ?|].
    rewrite E. apply Hgood.
Qed.

(** The read of a row under whose revision a transaction commits. *)
Lemma cas_pinned w id e v conds :
  seen (vmKey id) e (w_st w) → e_val e = DVM v → CmpMod (vmKey id) (e_mod e) ∈ conds →
  forallb (cmp_holds (w_map w)) conds = true → vm_at (w_st w) id v.
Proof.
  intros Hs Hv Hin Hc. eapply forallb_in in Hc; [|done]. apply seen_cmp in Hs; [|done].
  unfold vm_at. rewrite Hs. simpl. by rewrite Hv.
Qed.

Lemma sees_UpdateVMSchedulingReason id reason message details w :
  sees (UpdateVMSchedulingReason id reason message details) (λ _ _, True) w.
Proof.
  apply sees_bindM. eapply sees_mono; [|apply sees_vmWithRev]. intros [v rev] w1 _ _ (e & Hs & He & Hrev & Hid).
  simpl in He, Hrev, Hid. subst rev. case_bool_decide; [|by apply sees_ret]. simpl negb. cbv iota.
  apply sees_bindM. eapply sees_mono; [|apply sees_reads; writes_solve]. intros t w2 _ Hl2 _.
  apply sees_bindM. intros Hi2. apply (wp_Marshal pin_protocol); [by split_and!|]. split_and!; [done|done|done|]. clear Hi2.
  apply Hl2 in Hs. apply sees_bindM. intros Hi2. apply (wp_raw_txn pin_protocol).
  - intros w3 Hw3. by destruct (settled_known w2 w3 Hi2 Hw3).
  - intros w3 Hw3 _. destruct (settled_known w2 w3 Hi2 Hw3). split_and!; [done..|]. by apply sees_ret.
  - intros w3 Hw3 Hc Hb Hmax. exists ∅.
    destruct (settled_known w2 w3 Hi2 (reaches_settled pin_protocol _ _ _ Hw3)) as [Hi3 Hl3].
    apply Hl3 in Hs. assert (vm_at (w_st w3) id v) as Hat by (eapply cas_pinned; [done|done|by left|done]).
    match goal with |- own_step _ _ _ _ (applied _ [OpPut _ (encode_doc ?x)]) ∧ _ => set (v' := x) end.
    assert (own_step pin_protocol ∅ ∅ w3 (applied w3 [OpPut (vmKey id) (DVM v')])) as Hstep.
    { apply (pin_step [] _ _ v'); [set_solver|set_solver|done|done|..].
      - apply Forall_singleton. left. by rewrite <-Hid.
      - intros n. unfold pinned_to. change (vm_ID v') with (vm_ID v). rewrite Hid, Hat. done. }
    split; [exact Hstep|].
    assert (pin_inv (applied w3 [OpPut (vmKey id) (DVM v')]) ∧ later w2 (applied w3 [OpPut (vmKey id) (DVM v')])) as [Hi4 Hl4].
    { destruct Hstep as [[He4 _] _]. split; [by eapply pin_inv_step|]. etrans; [done|]. apply any_env_later, He4. }
    split; [by split_and!|]. intros rev rs. split_and!; [done..|]. by apply sees_ret.
Qed.
End Rules.
