(* ===== verification/ScheduleProps.v ===== *)
(** * The schedule loop: where a tick binds a VM

    Whatever else happens to the store during a tick, the loop pins a VM only to a node
    it has seen fit for new VMs since the tick began, with its disk in a pool of that
    node it has seen, and only while neither is being deleted and its fence holds. *)

From S2P Require Import Prelude Models Float64 Scheduler SchedulerProps Etcd Prog Keys Client Rules Footprint Guards Footprints.
From S2P Require Import Jobs Tasks Nodes Migrations DeleteIntent VMs Placement DrainProps TaskProps VMInvariant VMProps.
From S2P Require Import VMWorkers Workers Schedule ScheduleRules.
Import Scheduler.
Local Open Scope Z_scope.

Section Reads.
Context `{Etcd, !EtcdLaws, !Libs, !LibsLaws, ScheduleLibs} (downPathStaleness : Z).

(** ** What placement has seen *)

Definition pool_seen (w : world) (p : StoragePool) : Prop :=
  sp_DeletedAt p = None ∧ ∃ id, saw w (storagePoolKey id) (DStoragePool p).

Definition node_seen (w : world) (id : uuid) (n : Node) : Prop :=
  node_DeletedAt n = None ∧ saw w (nodeKey id) (DNode n).

(** The network was reported ready on the node. *)
Definition network_ready (w : world) (node net : uuid) : Prop :=
  ∃ k s, saw w k (DNetworkNodeStatus s) ∧ nns_NodeID s = node ∧ nns_NetworkID s = net ∧
    nns_ReconciliationStatus s = "ready".

(** A row of the eligible pools is a pool and its node. *)
Definition sighted (w : world) (r : PoolRow) : Prop :=
  ∃ p n cpu mem eff, pool_seen w p ∧ node_seen w (sp_NodeID p) n ∧
    r = MkPoolRow (pool_view p eff) (node_view n cpu mem).

Lemma pool_seen_later w w' p : later w w' → pool_seen w p → pool_seen w' p.
Proof. intros Hl [Hd [id Hs]]. split; [done|]. exists id. by eapply saw_later. Qed.

Lemma node_seen_later w w' id n : later w w' → node_seen w id n → node_seen w' id n.
Proof. intros Hl [Hd Hs]. split; [done|]. by eapply saw_later. Qed.

Lemma network_ready_later w w' n net : later w w' → network_ready w n net → network_ready w' n net.
Proof. intros Hl (k & s & Hs & Hr). exists k, s. split; [by eapply saw_later|done]. Qed.

Lemma sighted_later w w' r : later w w' → sighted w r → sighted w' r.
Proof.
  intros Hl (p & n & cpu & mem & eff & Hp & Hn & E). exists p, n, cpu, mem, eff.
  split_and!; [by eapply pool_seen_later|by eapply node_seen_later|done].
Qed.

Context (good : world → world → uuid → uuid → Prop).
Abbreviation sees := (sees good).

(** ** The queries *)

Lemma sees_StoragePoolByID id w : sees (StoragePoolByID id) (λ p w', pool_seen w' p) w.
Proof.
  apply sees_bindM. eapply sees_mono; [|apply sees_GetJSON]. intros [p|] w' _ _ Hp; [|apply sees_err].
  case_bool_decide; [|apply sees_err]. apply sees_ret. split; [done|]. by exists id.
Qed.

Lemma sees_StoragePoolsByName name w : sees (StoragePoolsByName name) (λ ps w', ∀ p, p ∈ ps → pool_seen w' p) w.
Proof.
  apply sees_bindM. eapply sees_mono; [|apply sees_reads; writes_solve]. intros items w1 _ _ _. apply sees_bindM.
  eapply sees_mono; [|apply (sees_for_each good _ _ _ (λ ps w', ∀ p, p ∈ ps → pool_seen w' p)); [set_solver|]].
  - intros ps w2 _ _ Hps. apply sees_ret. intros p Hp. rewrite stable_sort_perm in Hp. by apply Hps.
  - intros kv ps w2 _ _ Hps. destruct (index_id kv.2) as [id|]; [|apply sees_err]. apply sees_bindM.
    eapply sees_mono; [|apply sees_attempt, sees_StoragePoolByID]. intros [p|e] w3 _ Hl Hp.
    + apply sees_ret. intros p' [Hp'| ->%list_elem_of_singleton]%elem_of_app; [|done]. eapply pool_seen_later; [done|auto].
    + destruct e; first [apply sees_err|apply sees_ret; intros p' Hp'; eapply pool_seen_later; [done|by auto]].
Qed.

Lemma sees_NodeByID id w : sees (NodeByID id) (λ n w', node_seen w' id n) w.
Proof.
  apply sees_bindM. eapply sees_mono; [|apply sees_GetJSON]. intros [n|] w' _ _ Hn; [|apply sees_err].
  case_bool_decide; [|apply sees_err]. by apply sees_ret.
Qed.

Lemma poolEffective_reads p : writes [] (poolEffective p).
Proof. unfold poolEffective, pendingCommittedBytes. writes_solve. Qed.

Lemma nodeEffective_reads n : writes [] (nodeEffective n).
Proof.
  unfold nodeEffective, pendingReservations, migrationTargetReservations, activeMigrationsOnNode, VMByID. writes_solve.
Qed.

Lemma downPathReachability_reads : writes [] downPathReachability.
Proof. unfold downPathReachability, ListAgentWireguard, AllNodes. writes_solve. Qed.

Lemma poolEffective_view p w : sees (poolEffective p) (λ v _, ∃ eff, v = pool_view p eff) w.
Proof.
  apply (sees_writes good []); [set_solver|set_solver|apply poolEffective_reads|].
  unfold poolEffective. destruct (sp_AvailableBytes p); [|by eexists].
  apply returns_bindM, returns_any. intros pending. by eexists.
Qed.

Lemma nodeEffective_view n w : sees (nodeEffective n) (λ v _, ∃ cpu mem, v = node_view n cpu mem) w.
Proof.
  apply (sees_writes good []); [set_solver|set_solver|apply nodeEffective_reads|].
  unfold nodeEffective. apply returns_bindM, returns_any. intros [pc pm]. apply returns_bindM, returns_any.
  intros [rc rm]. by eexists _, _.
Qed.

Definition kept_rows (keep : PoolEffectiveCapacity → NodeEffectiveAvailability → bool) (rows : list PoolRow) (w : world) : Prop :=
  ∀ r, r ∈ rows → sighted w r ∧ keep (row_Pool r) (row_Node r) = true.

Lemma kept_rows_later keep rows w w' : later w w' → kept_rows keep rows w → kept_rows keep rows w'.
Proof. intros Hl Hr r Hin. destruct (Hr r Hin). split; [by eapply sighted_later|done]. Qed.

Lemma sees_poolNodePairs name keep w : sees (poolNodePairs downPathStaleness name keep) (kept_rows keep) w.
Proof.
  apply sees_bindM. eapply sees_mono; [|apply sees_StoragePoolsByName]. intros pools w1 _ _ Hpools.
  apply sees_bindM. eapply sees_mono; [|apply sees_reads, downPathReachability_reads]. intros [wgs gws] w2 _ Hl2 _.
  apply sees_bindM. eapply sees_mono; [|apply sees_reads; writes_solve]. intros t w3 _ Hl3 _.
  apply sees_for_each; [unfold kept_rows; set_solver|]. intros p rows w4 Hp Hl4 Hrows.
  assert (pool_seen w4 p) as Hps.
  { eapply pool_seen_later; [|by apply Hpools]. etrans; [done|]. by etrans. }
  apply sees_bindM. eapply sees_mono; [|apply sees_reads; unfold deleteIntentPresent; writes_solve].
  intros [] w5 _ Hl5 _; [apply sees_ret; by eapply kept_rows_later|].
  apply sees_bindM. eapply sees_mono; [|apply sees_attempt, sees_NodeByID]. intros [n|e] w6 _ Hl6 Hn.
  2: { assert (kept_rows keep rows w6) by (eapply kept_rows_later; [|done]; by etrans).
       destruct e; first [apply sees_err|by apply sees_ret]. }
  apply sees_bindM. eapply sees_mono; [|apply poolEffective_view]. intros pv w7 _ Hl7 [eff ->].
  apply sees_bindM. eapply sees_mono; [|apply nodeEffective_view]. intros nv w8 _ Hl8 (cpu & mem & ->).
  assert (later w6 w8) as Hl68 by by etrans.
  assert (later w4 w8) as Hl48 by (etrans; [done|]; by etrans).
  assert (kept_rows keep rows w8) as Hrows8 by by eapply kept_rows_later.
  destruct (keep _ _) eqn:Hkeep; [|by apply sees_ret]. simpl negb. cbv iota.
  case_match; apply sees_ret; [done|]. intros r [Hr| ->%list_elem_of_singleton]%elem_of_app; [by apply Hrows8|].
  split; [|done]. exists p, n, cpu, mem, eff.
  split_and!; [exact (pool_seen_later _ _ _ Hl48 Hps)|exact (node_seen_later _ _ _ _ Hl68 Hn)|done].
Qed.

Lemma sees_network_statuses node w :
  sees (network_statuses node)
    (λ sts w', ∀ s, s ∈ sts → nns_NodeID s = node ∧ ∃ k, saw w' k (DNetworkNodeStatus s)) w.
Proof.
  apply sees_bindM. eapply sees_mono; [|apply sees_Range]. intros items w1 _ _ Hitems. apply sees_bindM.
  eapply sees_mono; [|apply (sees_for_each good _ _ _
    (λ sts w', ∀ s, s ∈ sts → nns_NodeID s = node ∧ ∃ k, saw w' k (DNetworkNodeStatus s))); [set_solver|]].
  - intros sts w2 _ _ Hs. apply sees_ret. intros s Hin. rewrite stable_sort_perm in Hin. by apply Hs.
  - intros kv sts w2 Hkv Hl Hs. destruct (decode_doc kv.2) as [s|] eqn:Ed; [|apply sees_err]. apply decode_doc_inv in Ed.
    apply sees_ret. case_bool_decide as Hn; [|done].
    intros s' [Hin| ->%list_elem_of_singleton]%elem_of_app; [by apply Hs|]. split; [done|]. exists kv.1.
    eapply saw_later; [done|]. specialize (Hitems kv Hkv). by rewrite Ed in Hitems.
Qed.

Lemma sees_as_query {A} (m : M A) Q w : sees m Q w → sees (as_query store_text m) Q w.
Proof.
  intros Hm. apply sees_bind; [|intros; apply sees_err]. eapply sees_mono; [|exact Hm].
  intros a w' _ _ Ha. by apply sees_ret.
Qed.

(** ** Placement over the store *)

Lemma sees_bind_ok {E A B} (f : A → prog (result E B)) (x : prog (result E A)) Q w :
  sees x (λ a w', sees (f a) Q w') w → sees (bind_ok (H := prog_ret) (H0 := prog_mbind) f x) Q w.
Proof. intros Hx. apply sees_bind; [done|]. intros. apply sees_err. Qed.

Lemma sees_query {A} (x : prog (result string A)) Q w :
  sees x Q w → sees (query (H := prog_ret) (H0 := prog_mbind) x) Q w.
Proof.
  intros Hx. apply sees_bind; [|intros; apply sees_err]. eapply sees_mono; [|exact Hx].
  intros a w' _ _ Ha. by apply sees_ret.
Qed.

Lemma sees_map_ok {E A B} (R : A → B → Prop) (f : A → prog (result E B)) l w :
  (∀ x w', sees (f x) (λ y _, R x y) w') →
  sees (map_ok (H := prog_ret) (H0 := prog_mbind) f l) (λ ys _, ∀ y, y ∈ ys → ∃ x, x ∈ l ∧ R x y) w.
Proof.
  intros Hf. revert w. induction l as [|x l IH]; intros w; [apply sees_ret; set_solver|].
  apply sees_bind_ok. eapply sees_mono; [|apply Hf]. intros y w1 _ _ Hy.
  apply sees_bind_ok. eapply sees_mono; [|apply IH]. intros ys w2 _ _ Hys.
  apply sees_ret. intros y' [->|(x' & ? & ?)%Hys]%elem_of_cons; [by exists x; set_solver|exists x'; set_solver].
Qed.

Abbreviation reader := (placementReader downPathStaleness store_text).

Lemma sees_diagnose {A} name Q w :
  sees (diagnoseEmptyEligible (A := A) (H := prog_ret) (H0 := prog_mbind) reader name) Q w.
Proof.
  apply sees_bind_ok. eapply sees_mono; [|apply sees_query, sees_as_query, sees_StoragePoolsByName].
  intros [|p ps] w1 _ _ _; [apply sees_err|].
  do 3 (apply sees_bind_ok; eapply sees_mono; [|apply sees_query, sees_as_query, sees_poolNodePairs]; intros ? ? _ _ _).
  apply sees_err.
Qed.

Definition hint_ok (req : PlacementRequest) (r : PoolRow) : Prop :=
  (∀ h, req_NodeHint req = Some h → equal_fold (nea_Name (row_Node r)) h = true) ∧
  (∀ x, req_ExcludeNodeID req = Some x → nea_ID (row_Node r) ≠ x).

Lemma sees_narrow_eligible req w :
  sees (narrow_eligible (H := prog_ret) (H0 := prog_mbind) uuid_parse reader req)
    (λ rows w', kept_rows eligible rows w' ∧ ∀ r, r ∈ rows → hint_ok req r) w.
Proof.
  apply sees_bind_ok. eapply sees_mono; [|apply sees_query, sees_as_query, sees_poolNodePairs].
  intros rows w1 _ _ Hrows. destruct rows as [|r0 rows0]; [apply sees_diagnose|]. set (rows := r0 :: rows0) in *.
  apply sees_bind_ok. unfold mret, prog_ret.
  destruct (match req_NodeHint req with Some h => _ | None => _ end) as [hinted|e] eqn:Eh; [|apply sees_err].
  assert (∀ r, r ∈ hinted → r ∈ rows ∧ ∀ h, req_NodeHint req = Some h → equal_fold (nea_Name (row_Node r)) h = true) as Hh.
  { destruct (req_NodeHint req) as [h|]; [|by simplify_eq]. unfold filterByNodeHint in Eh.
    destruct (uuid_parse h); [done|]. destruct (list_find _ rows) as [[i r1]|] eqn:Ef; [|done]. simplify_eq.
    apply list_find_Some in Ef as (Hi & Hp & _). intros r ->%list_elem_of_singleton.
    split; [by eapply list_elem_of_lookup_2|]. intros h' [= <-]. by apply Is_true_true. }
  apply sees_ret. destruct (req_ExcludeNodeID req) as [x|] eqn:Ex.
  - destruct (excludeNode hinted x) as [|r1 rows1] eqn:Eo; [apply sees_diagnose|]. apply sees_ret. rewrite <-Eo.
    split; intros r [Hin Hne]%elem_of_excludeNode; destruct (Hh r Hin) as [Hr Hhint]; [by apply Hrows|].
    split; [done|]. intros x'. rewrite Ex. congruence.
  - apply sees_ret. split; intros r Hin; destruct (Hh r Hin) as [Hr Hhint]; [by apply Hrows|].
    split; [done|]. by rewrite Ex.
Qed.

Lemma network_status_map_Some sts net status :
  network_status_map sts !! net = Some status →
  ∃ s, s ∈ sts ∧ nns_NetworkID s = net ∧ nns_ReconciliationStatus s = status.
Proof.
  unfold network_status_map. induction sts as [|s sts IH] using rev_ind; [done|]. rewrite foldl_app. simpl.
  destruct (decide (nns_NetworkID s = net)) as [<-|Hne].
  - rewrite lookup_insert_eq. intros [= <-]. exists s. set_solver.
  - rewrite lookup_insert_ne by done. intros (s' & ? & ?)%IH. exists s'. set_solver.
Qed.

Definition nets_ready (w : world) (req : PlacementRequest) (node : uuid) : Prop :=
  ∀ net, net ∈ req_NetworkIDs req → network_ready w node net.

Lemma sees_filterByNetworkReadiness fits nets w :
  sees (filterByNetworkReadiness (H := prog_ret) (H0 := prog_mbind) reader fits nets)
    (λ r w', ∀ c, c ∈ r.1 → c ∈ fits ∧ ∀ net, net ∈ nets → network_ready w' (nea_ID (cand_node c)) net) w.
Proof.
  revert w. induction fits as [|c fits IH]; intros w; [apply sees_ret; set_solver|].
  apply sees_bind_ok. eapply sees_mono; [|apply sees_query, sees_as_query, sees_network_statuses].
  intros sts w1 _ _ Hsts. apply sees_bind_ok. eapply sees_mono; [|apply IH]. intros [survivors detail] w2 _ Hl Hs.
  apply sees_ret. destruct (unready_networks _ _) eqn:Eu.
  - intros c' [->|Hin]%elem_of_cons; [|destruct (Hs c' Hin); set_solver]. split; [by left|].
    intros net Hnet. pose proof (proj1 (unready_networks_nil _ _) Eu net Hnet) as Hr.
    apply network_status_map_Some in Hr as (s & Hin & Hid & Hst). destruct (Hsts s Hin) as [Hn [k Hk]].
    exists k, s. split_and!; [by eapply saw_later|done..].
  - intros c' Hin. destruct (Hs c' Hin). set_solver.
Qed.

Lemma sees_applyNetworkFilter fits req w :
  sees (applyNetworkFilter (H := prog_ret) (H0 := prog_mbind) reader fits req)
    (λ cs w', ∀ c, c ∈ cs → c ∈ fits ∧ nets_ready w' req (nea_ID (cand_node c))) w.
Proof.
  unfold applyNetworkFilter, nets_ready. destruct (req_NetworkIDs req) as [|net nets]; [apply sees_ret; set_solver|].
  apply sees_bind_ok. eapply sees_mono; [|apply sees_filterByNetworkReadiness].
  intros [survivors detail] w1 _ _ Hs. destruct survivors; [apply sees_err|by apply sees_ret].
Qed.

Lemma count_vms_reads n : writes [] (count_vms n).
Proof. unfold count_vms, VMByID. writes_solve. Qed.

Lemma sees_scoreCandidates fits req cfg alg w :
  sees (scoreCandidates (H := prog_ret) (H0 := prog_mbind) caps_unmarshal float_undef reader fits req cfg alg)
    (λ scored _, ∀ s, s ∈ scored → sc_candidate s ∈ fits) w.
Proof.
  assert (∀ (c : candidate) (g : Z → float64) w', sees
    (bind_ok (H := prog_ret) (H0 := prog_mbind) (λ count, Ret (Ok (MkScoredCandidate c (g count))))
       (query (H := prog_ret) (H0 := prog_mbind) (CountRunningVMsByNode reader (nea_ID (cand_node c)))))
    (λ s _, sc_candidate s = c) w') as Hcount.
  { intros c g w'. apply sees_bind_ok. eapply sees_mono; [|apply sees_query, sees_as_query, sees_reads, count_vms_reads].
    intros k w1 _ _ _. by apply sees_ret. }
  assert (∀ f : candidate → prog (result sched_error scoredCandidate),
    (∀ c w', sees (f c) (λ s _, sc_candidate s = c) w') →
    sees (map_ok (H := prog_ret) (H0 := prog_mbind) f fits) (λ scored _, ∀ s, s ∈ scored → sc_candidate s ∈ fits) w) as Hmap.
  { intros f Hf. eapply sees_mono; [|by apply (sees_map_ok (λ c s, sc_candidate s = c))].
    intros scored w1 _ _ Hs s (c & Hc & <-)%Hs. done. }
  unfold scoreCandidates. repeat case_bool_decide; [| |apply sees_err]; apply Hmap; intros c w'; [|apply Hcount].
  unfold score_resource_aware_one. destruct (cand_useCountFallback c); [apply Hcount|].
  destruct (utilizationScore _ _ _ _ _) as [score factors]. case_match; [apply Hcount|by apply sees_ret].
Qed.

(** A decision is a row that was seen eligible, that the request's hint and exclusion
    admit, that has room where its metrics are known, and whose networks are ready. *)
Definition decided (req : PlacementRequest) (cfg : PlacementConfig) (d : PlacementDecision) (w : world) : Prop :=
  ∃ r, d = MkPlacementDecision (row_Node r) (row_Pool r) ∧ sighted w r ∧ eligible (row_Pool r) (row_Node r) = true ∧
    hint_ok req r ∧ nets_ready w req (nea_ID (row_Node r)) ∧
    (candidateHasMetrics r req (pc_Resources cfg) = true →
     resources_suffice caps_unmarshal float_undef r req (pc_Resources cfg)).

Lemma sees_SchedulePlacement req cfg w :
  sees (SchedulePlacement (H := prog_ret) (H0 := prog_mbind) uuid_parse caps_unmarshal float_undef reader req cfg)
    (decided req cfg) w.
Proof.
  unfold SchedulePlacement. case_bool_decide; [apply sees_err|]. apply sees_bind_ok.
  eapply sees_mono; [|apply sees_narrow_eligible]. intros rows w1 _ _ [Hrows Hhint].
  destruct (filterByResources_spec caps_unmarshal float_undef rows req (pc_Resources cfg))
    as (fits & rej & -> & Hfits & _). destruct fits as [|c0 fits0]; [apply sees_err|]. set (fits := c0 :: fits0) in *.
  apply sees_bind_ok. eapply sees_mono; [|apply sees_applyNetworkFilter]. intros ready w2 _ Hl2 Hready.
  apply sees_bind_ok. eapply sees_mono; [|apply sees_scoreCandidates]. intros scored w3 _ Hl3 Hscored.
  destruct (pickWinner scored) as [win|] eqn:Ew; [|apply sees_err].
  apply sees_ret. apply pickWinner_elem, Hscored, Hready in Ew as [Hc Hnet].
  apply Hfits in Hc as [Hrow [Hfb Hsuff]]. exists (cand_row (sc_candidate win)).
  destruct (Hrows _ Hrow) as [Hs He]. split_and!; [done| |done|by apply Hhint| |].
  - eapply sighted_later; [|exact Hs]. by etrans.
  - intros net Hin. eapply network_ready_later; [done|by apply Hnet].
  - intros Hm. by apply Hsuff.
Qed.

Lemma sees_place req cfg w : sees (place downPathStaleness req cfg) (decided req cfg) w.
Proof.
  apply sees_bind; [|intros; apply sees_err]. eapply sees_mono; [|apply sees_SchedulePlacement].
  intros d w' _ _ Hd. by apply sees_ret.
Qed.
End Reads.

Section Binds.
Context `{Etcd, !EtcdLaws, !Libs, !LibsLaws, ScheduleLibs} (downPathStaleness : Z).

(** ** Where a VM may go *)

(** The network of the spec was there, and ready on the node. *)
Definition network_met (w : world) (spec : SchedulingSpec) (node : uuid) : Prop :=
  ∀ name, ss_NetworkName spec = Some name → name ≠ "" →
  ∃ id net, saw w (networkKey id) (DNetwork net) ∧ net_DeletedAt net = None ∧ network_ready w node (net_ID net).

(** A pool and its node that were seen fit for the VM. *)
Record placed_on (w : world) (spec : SchedulingSpec) (pool : StoragePool) (node : Node) : Prop := {
  po_pool : pool_seen w pool;
  po_node : node_seen w (sp_NodeID pool) node;
  po_type : sp_Type pool = "local_dir";
  po_disk : sp_DiskPressureSince pool = None;
  po_ready : node_Status node = NodeStatusReady;
  po_cordoned : node_CordonedAt node = None;
  po_memory : node_MemoryPressureSince node = None;
  po_system_disk : node_SystemDiskPressureSince node = None;
  po_hint : ∀ h, ss_NodeHint spec = Some h → equal_fold (node_Name node) h = true;
  po_network : network_met w spec (node_ID node)
}.

(** A step that pins a VM to [n]: the VM waited to be scheduled, by a spec it has had;
    the step gives it a disk of the size of the spec in the pool; nothing the VM is
    placed on is being deleted, and the fence holds. *)
Definition well_placed (ctx : option fence) (w w' : world) (id n : uuid) : Prop :=
  ∃ v v0 spec pool node d,
    vm_at (w_st w) id v ∧ vm_SchedulingStatus v = VMSchedulingUnscheduled ∧
    saw w (vmKey id) (DVM v0) ∧ UnmarshalSchedulingSpec (spec_SchedulingSpec (vm_Spec v0)) = Some spec ∧
    placed_on w spec pool node ∧ n = node_ID node ∧
    e_val <$> es_map (w_st w') !! vmDiskKey (disk_ID d) = Some (DVMDisk d) ∧
    disk_VmID d = id ∧ disk_StoragePoolID d = sp_ID pool ∧ disk_SizeGib d = ss_DiskGiB spec ∧
    w_map w !! nodeDeletingKey n = None ∧ w_map w !! storagePoolDeletingKey (sp_ID pool) = None ∧
    forallb (cmp_holds (w_map w)) (FenceCmps ctx) = true.

Lemma network_met_later w w' spec n : later w w' → network_met w spec n → network_met w' spec n.
Proof.
  intros Hl Hn name E Hne. destruct (Hn name E Hne) as (id & net & Hs & Hd & Hr).
  exists id, net. split_and!; [by eapply saw_later|done|by eapply network_ready_later].
Qed.

Lemma placed_on_later w w' spec pool node : later w w' → placed_on w spec pool node → placed_on w' spec pool node.
Proof.
  intros Hl [Hp Hn ? ? ? ? ? ? ? Hnet].
  split; [by eapply pool_seen_later|by eapply node_seen_later|done..|by eapply network_met_later].
Qed.

Context (ctx : option fence).
Abbreviation sees := (sees (well_placed ctx)).

(** ** The plan *)

Definition resolved (spec : SchedulingSpec) (ids : list uuid) (w : world) : Prop :=
  ∀ name, ss_NetworkName spec = Some name → name ≠ "" →
  ∃ id net, saw w (networkKey id) (DNetwork net) ∧ net_DeletedAt net = None ∧ net_ID net ∈ ids.

Lemma sees_NetworkByName name w :
  sees (NetworkByName name) (λ net w', net_DeletedAt net = None ∧ ∃ id, saw w' (networkKey id) (DNetwork net)) w.
Proof.
  apply sees_bindM. eapply sees_mono; [|apply sees_reads; unfold resolveGuard; writes_solve].
  intros [id|] w1 _ _ _; [|apply sees_err]. apply sees_bindM. eapply sees_mono; [|apply sees_GetJSON].
  intros [net|] w2 _ _ Hnet; [|apply sees_err]. case_bool_decide; [|apply sees_err]. apply sees_ret. split; [done|].
  by exists id.
Qed.

Lemma sees_resolveBindNetwork spec w : sees (resolveBindNetwork spec) (λ r w', resolved spec r.1 w') w.
Proof.
  unfold resolveBindNetwork, resolved. destruct (ss_NetworkName spec) as [name|]; [|by apply sees_ret].
  case_bool_decide; [apply sees_ret; naive_solver|]. apply sees_bindM.
  eapply sees_mono; [|apply sees_attempt, sees_NetworkByName]. intros [net|e] w1 _ _ Hnet.
  - destruct Hnet as [Hd [id Hs]]. apply sees_ret. intros name' [= <-] _. exists id, net. split_and!; [done|done|by left].
  - destruct e; apply sees_err.
Qed.

Lemma buildBindNIC_reads vm nicNetworkID : writes [] (buildBindNIC vm nicNetworkID).
Proof. unfold buildBindNIC, GenerateLocalMAC. pose proof rand_three_reads. writes_solve. Qed.

Lemma buildBindNIC_returns vm nicNetworkID :
  returns (on_ok (λ nic, ∀ p, nic = Some p → cvn_Ipv4Address p = None)) (buildBindNIC vm nicNetworkID).
Proof.
  unfold buildBindNIC. destruct nicNetworkID as [net|]; [|done]. apply returns_bindM, returns_any.
  intros [mac|e]; [|done]. apply returns_bindM, returns_any. intros u. simpl. by intros p [= <-].
Qed.

(** What the writes of a plan for the VM [v] are. *)
Definition planned (v : VM) (spec : SchedulingSpec) (ws : VMBindWrites) (w : world) : Prop :=
  (∀ nic, vbw_Nic ws = Some nic → cvn_Ipv4Address nic = None) ∧
  ∃ pool node, placed_on w spec pool node ∧ vbw_PinnedNodeID ws = node_ID node ∧
    cdp_VmID (vbw_Disk ws) = vm_ID v ∧ cdp_StoragePoolID (vbw_Disk ws) = sp_ID pool ∧
    cdp_SizeGib (vbw_Disk ws) = ss_DiskGiB spec.

Lemma planned_later v spec ws w w' : later w w' → planned v spec ws w → planned v spec ws w'.
Proof.
  intros Hl [Hnic (pool & node & Hp & Hrest)]. split; [done|]. exists pool, node. split; [by eapply placed_on_later|done].
Qed.

Lemma decided_placed req cfg d spec w :
  decided req cfg d w → req_NodeHint req = ss_NodeHint spec → resolved spec (req_NetworkIDs req) w →
  pec_Type (dec_PoolInstance d) = "local_dir" →
  ∃ pool node, placed_on w spec pool node ∧ nea_ID (dec_Node d) = node_ID node ∧ pec_ID (dec_PoolInstance d) = sp_ID pool.
Proof.
  intros (r & -> & (pool & node & cpu & mem & eff & Hp & Hn & ->) & He & [Hh _] & Hnets & _) Ehint Hres Htype.
  simpl in *. exists pool, node. split; [|done]. unfold eligible, nodeSchedulable, unset in He. simpl in He.
  repeat (apply andb_true_iff in He as [He ?]). repeat match goal with H : bool_decide _ = true |- _ => apply bool_decide_eq_true in H end.
  split; try done.
  - intros h Eh. apply Hh. by rewrite Ehint.
  - intros name En Hne. destruct (Hres name En Hne) as (id & net & Hs & Hd & Hin). exists id, net. split_and!; auto.
Qed.

Lemma sees_planBind vm spec cfg res w : sees (planBind downPathStaleness vm spec cfg res) (planned vm spec) w.
Proof.
  apply sees_bindM. eapply sees_mono; [|apply sees_resolveBindNetwork]. intros [ids nicNet] w1 _ _ Hres. simpl in Hres.
  apply sees_bindM. eapply sees_mono; [|apply sees_place]. intros d w2 _ Hl2 Hd.
  case_bool_decide as Ht; [|apply sees_err]. simpl negb. cbv iota.
  destruct (decided_placed _ _ _ spec w2 Hd) as (pool & node & Hp & Hn & Hpool); [done| |done|].
  { intros name En Hne. destruct (Hres name En Hne) as (id & net & Hs & Hr). exists id, net. split; [by eapply saw_later|done]. }
  apply sees_bindM. eapply sees_mono; [|eapply (sees_writes _ []); [set_solver|set_solver|apply buildBindNIC_reads|apply buildBindNIC_returns]].
  intros nic w3 _ Hl3 Hnic. apply sees_bindM. eapply sees_mono; [|apply sees_reads; writes_solve].
  intros taskID w4 _ Hl4 _. apply sees_ret. split; [exact Hnic|]. exists pool, node.
  split_and!; [|done..]. eapply placed_on_later; [|done]. by etrans.
Qed.

(** ** The transaction *)

Lemma vmDiskFromCreateParams_returns p t :
  returns (on_ok (λ d, disk_VmID d = cdp_VmID p ∧ disk_StoragePoolID d = cdp_StoragePoolID p ∧
    disk_SizeGib d = cdp_SizeGib p)) (vmDiskFromCreateParams p t).
Proof. apply returns_bindM, returns_any. by intros u. Qed.

(** The disk that the transaction stores, and the intents it is guarded by. *)
Definition bind_places (ws : VMBindWrites) (p : list op * list cmp) : Prop :=
  CmpCreate (nodeDeletingKey (vbw_PinnedNodeID ws)) 0 ∈ p.2 ∧
  CmpCreate (storagePoolDeletingKey (cdp_StoragePoolID (vbw_Disk ws))) 0 ∈ p.2 ∧
  ∃ d, disk_VmID d = cdp_VmID (vbw_Disk ws) ∧ disk_StoragePoolID d = cdp_StoragePoolID (vbw_Disk ws) ∧
    disk_SizeGib d = cdp_SizeGib (vbw_Disk ws) ∧ OpPut (vmDiskKey (disk_ID d)) (DVMDisk d) ∈ p.1.

Lemma buildBindTxn_places v ws rev t : returns (on_ok (bind_places ws)) (buildBindTxn v ws rev t).
Proof.
  unfold buildBindTxn. apply returns_bindM. eapply returns_mono; [|apply vmDiskFromCreateParams_returns].
  intros [disk|e]; [|done]. intros (E1 & E2 & E3). simpl in E1, E2, E3.
  apply returns_bindM, returns_any. intros [seq jobOp]. apply returns_bindM, returns_any. intros createdAt. cbv zeta.
  apply returns_Marshal, returns_Marshal, returns_Marshal.
  assert (∀ ops conds, bind_places ws ([OpPut (vmKey (vm_ID v)) (DVM v); OpDelete (vmUnscheduledIndexKey (vm_ID v));
      OpPut (vmPinnedNodeIndexKey (vbw_PinnedNodeID ws) (vm_ID v)) (id_value (vm_ID v));
      OpPut (vmDiskKey (disk_ID disk)) (DVMDisk disk)] ++ ops,
      [CmpMod (vmKey (vm_ID v)) rev; CmpCreate (nodeDeletingKey (vbw_PinnedNodeID ws)) 0;
       CmpCreate (storagePoolDeletingKey (disk_StoragePoolID disk)) 0] ++ conds)) as Hb.
  { intros ops conds. unfold bind_places. rewrite <-E2. split_and!; [right; by left|do 2 right; by left|].
    exists disk. split_and!; [done..|]. do 3 right. by left. }
  destruct (vbw_Nic ws) as [nic|]; [|apply (Hb _ [])].
  apply returns_bindM, returns_any. intros [nicOps nicConds]. apply Hb.
Qed.

Lemma returns_both {R} (Q Q' : R → Prop) (p : prog R) : returns Q p → returns Q' p → returns (λ r, Q r ∧ Q' r) p.
Proof.
  induction p as [r|rq k IH|k IH|k IH]; simpl; [by auto| |by auto..].
  intros [? ?] [? ?]. split; auto.
Qed.

Lemma buildBindTxn_both v ws rev t :
  (∀ nic, vbw_Nic ws = Some nic → cvn_Ipv4Address nic = None) →
  returns (on_ok (λ p, bind_shape v ws rev p ∧ bind_places ws p)) (buildBindTxn v ws rev t).
Proof.
  intros Hnic. eapply returns_mono; [|apply returns_both; [by apply buildBindTxn_returns|apply buildBindTxn_places]].
  by intros [p|e] [? ?].
Qed.

Lemma bind_shape_ops v ws rev p :
  bind_shape v ws rev p →
  Forall (λ o, o = OpPut (vmKey (vm_ID v)) (DVM v) ∨ op_in (nic_families ++ other_families) o) p.1.
Proof.
  intros (_ & others & Hothers & Hshape).
  assert (Forall (λ o, o = OpPut (vmKey (vm_ID v)) (DVM v) ∨ op_in (nic_families ++ other_families) o) others) as Ho.
  { eapply Forall_impl; [exact Hothers|]. intros o Hin. right. eapply op_in_sub; [|done]. set_solver. }
  destruct (vbw_Nic ws) as [nic|]; [|rewrite Hshape; constructor; [by left|done]].
  destruct Hshape as (n & -> & _). constructor; [by left|]. apply Forall_app. split; [done|].
  unfold nic_writes. apply Forall_app. split; [repeat constructor; right; simpl; key_in_solve|].
  case_match; [|done]. apply Forall_singleton. right. simpl. key_in_solve.
Qed.

(** The commit of a bind is well placed. *)
Lemma bind_step w e v v0 spec ws t ops conds :
  pin_inv w → seen (vmKey (vm_ID v)) e (w_st w) → e_val e = DVM v → vm_SchedulingStatus v = VMSchedulingUnscheduled →
  vm_ID v = vm_ID v0 → saw w (vmKey (vm_ID v0)) (DVM v0) →
  UnmarshalSchedulingSpec (spec_SchedulingSpec (vm_Spec v0)) = Some spec → planned v0 spec ws w →
  bind_shape (scheduled_vm v (vbw_PinnedNodeID ws) t) ws (e_mod e) (ops, conds) → bind_places ws (ops, conds) →
  forallb (cmp_holds (w_map w)) (conds ++ FenceCmps ctx) = true → branch_valid ops = true → w_rev w < max_i64 →
  own_step (pin_protocol (well_placed ctx)) ∅ ∅ w (applied w ops).
Proof.
  intros Hi Hs He Hun Hid Hsaw Hspec [_ (pool & node & Hp & Hn & Hvm & Hpool & Hsize)] Hshape (Hnd & Hpd & d & D1 & D2 & D3 & Hput) Hc Hb Hmax.
  rewrite forallb_app in Hc. apply andb_true_iff in Hc as [Hc Hf].
  assert (∀ k, CmpCreate k 0 ∈ conds → w_map w !! k = None) as Hfree.
  { intros k Hk. eapply forallb_in in Hc; [|exact Hk]. apply cmp_absent in Hc; [done|apply Hi]. }
  apply (pin_step _ (nic_families ++ other_families) _ _ (scheduled_vm v (vbw_PinnedNodeID ws) t));
    [unfold nic_families, other_families; set_solver|unfold nic_families, other_families; set_solver|done|done|
     exact (bind_shape_ops _ _ _ _ Hshape)|].
  intros n [= <-] _. change (vm_ID (scheduled_vm _ _ _)) with (vm_ID v).
  exists v, v0, spec, pool, node, d. destruct Hshape as [Hmod _].
  split_and!; [by eapply cas_pinned|done|by rewrite Hid|done|done|done| |congruence|congruence|congruence| | |done].
  - by apply applied_put_in.
  - by apply Hfree.
  - rewrite <-Hpool. by apply Hfree.
Qed.

Lemma sees_BindScheduledVM v0 spec cfg res w :
  saw w (vmKey (vm_ID v0)) (DVM v0) → UnmarshalSchedulingSpec (spec_SchedulingSpec (vm_Spec v0)) = Some spec →
  sees (BindScheduledVM ctx (vm_ID v0) (planBind downPathStaleness v0 spec cfg res)) (λ _ _, True) w.
Proof.
  intros Hsaw Hspec. apply sees_bindM. eapply sees_mono; [|apply sees_vmWithRev].
  intros [v rev] w1 _ Hl1 (e & Hs & He & Hrev & Hid). simpl in He, Hrev, Hid. subst rev.
  case_bool_decide as Hun; [|apply sees_err]. simpl negb. cbv iota.
  apply sees_bindM. eapply sees_mono; [|apply sees_planBind]. intros ws w2 _ Hl2 Hws.
  apply sees_bindM. eapply sees_mono; [|apply sees_reads; writes_solve]. intros t w3 _ Hl3 _.
  apply sees_bindM. eapply sees_mono; [|eapply (sees_writes _ other_families);
    [unfold other_families; set_solver|unfold other_families; set_solver|apply buildBindTxn_writes|apply buildBindTxn_both, Hws]].
  intros [ops conds] w4 _ Hl4 [Hshape Hplaces]. assert (later w2 w4) as Hl24 by by etrans.
  assert (later w1 w4) as Hl14 by by etrans. apply sees_bindM. intros Hi4.
  apply (wp_raw_txn (pin_protocol (well_placed ctx))).
  - intros w5 Hw5. by destruct (settled_known _ w4 w5 Hi4 Hw5).
  - intros w5 Hw5 _. destruct (settled_known _ w4 w5 Hi4 Hw5). split_and!; [done..|].
    simpl tr_Succeeded. cbv iota. apply sees_reads. unfold classifyBindFailure. writes_solve.
  - intros w5 Hw5 Hc Hb Hmax. exists ∅.
    destruct (settled_known _ w4 w5 Hi4 (reaches_settled (pin_protocol (well_placed ctx)) _ _ _ Hw5)) as [Hi5 Hl5].
    assert (later w1 w5) as Hl15 by by etrans.
    assert (own_step (pin_protocol (well_placed ctx)) ∅ ∅ w5 (applied w5 ops)) as Hstep.
    { eapply (bind_step w5 e v v0); try done.
      - rewrite Hid. by apply Hl15.
      - eapply saw_later; [|exact Hsaw]. by etrans.
      - eapply planned_later; [|exact Hws]. by etrans. }
    split; [exact Hstep|]. destruct Hstep as [[He6 _] _].
    assert (pin_inv (applied w5 ops)) by by eapply pin_inv_step.
    assert (later w4 (applied w5 ops)) by (etrans; [done|]; apply any_env_later, He6).
    split; [by split_and!|]. intros rev rs. split_and!; [done..|]. by apply sees_ret.
Qed.

(** ** The loop *)

Definition guarded {R} (a : act lanswer R) (w : world) : Prop :=
  pin_inv w → ∀ tr,
  awp (λ _, pin_protocol (well_placed ctx)) (λ _ _ _, True) a tr (λ _ _ w', pin_inv w' ∧ later w w') w.

Lemma guarded_done {R} (r : R) w : guarded (Done r) w.
Proof. by intros Hi tr. Qed.

Lemma guarded_bind {A B} (f : A → act lanswer B) (a : act lanswer A) w :
  guarded a w → (∀ r w', later w w' → guarded (f r) w') → guarded (act_bind f a) w.
Proof.
  intros Ha Hf Hi tr. apply awp_bind. eapply awp_mono; [|by apply Ha]. intros r tr' w1 [Hi1 Hl1].
  eapply awp_mono; [|by apply Hf]. intros r' tr2 w2 [Hi2 Hl2]. split; [done|by etrans].
Qed.

Lemma guarded_store {A R} (m : M A) (k : result err A → act lanswer R) Q w :
  sees m Q w →
  (∀ r w', later w w' → match r with Ok a => Q a w' | Err _ => True end → guarded (k r) w') → guarded (Store m k) w.
Proof.
  intros Hm Hk Hi tr. simpl. eapply wp_mono; [|by apply Hm]. intros r O w1 (-> & Hi1 & Hl1 & Hr).
  eapply awp_mono; [|by apply Hk]. intros r' tr2 w2 [Hi2 Hl2]. split; [done|by etrans].
Qed.

Lemma guarded_ask {R} c (k : lanswer c → act lanswer R) w :
  (∀ r w', later w w' → guarded (k r) w') → guarded (Ask c k) w.
Proof.
  intros Hk Hi tr. simpl. intros w1 Hw1. split; [done|]. intros r.
  destruct (settled_known _ w w1 Hi (reaches_settled (pin_protocol (well_placed ctx)) _ _ _ Hw1)) as [Hi1 Hl1].
  eapply awp_mono; [|by apply Hk]. intros r' tr2 w2 [Hi2 Hl2]. split; [done|by etrans].
Qed.

Definition vms_seen (vms : list VM) (w : world) : Prop := ∀ v, v ∈ vms → saw w (vmKey (vm_ID v)) (DVM v).

Lemma vms_seen_later vms w w' : later w w' → vms_seen vms w → vms_seen vms w'.
Proof. intros Hl Hv v Hin. eapply saw_later; [done|by apply Hv]. Qed.

Lemma sees_VMByID id w : sees (VMByID id) (λ v w', saw w' (vmKey (vm_ID v)) (DVM v)) w.
Proof.
  apply sees_bindM. eapply sees_mono; [|apply sees_GetJSON]. intros [v|] w' [_ Hk] _ Hv; [|apply sees_err].
  case_bool_decide; [|apply sees_err]. apply sees_ret. destruct Hv as (st & Hst & Hv).
  destruct (Hk st Hst) as [Hvm _]. rewrite (Hvm id v Hv). by exists st.
Qed.

Lemma sees_list_unscheduled items n out w : vms_seen out w → sees (list_unscheduled items n out) vms_seen w.
Proof.
  revert out w. induction items as [|kv items IH]; intros out w Hout; cbn [list_unscheduled]; [by apply sees_ret|].
  destruct (index_id kv.2) as [id|]; [|by apply IH]. apply sees_bindM.
  eapply sees_mono; [|apply sees_attempt, sees_VMByID]. intros [v|e] w1 _ Hl1 Hv; [|by apply IH, (vms_seen_later _ w)].
  assert (vms_seen (out ++ [v]) w1) as Hv1.
  { intros v' [Hin| ->%list_elem_of_singleton]%elem_of_app; [|done]. by apply (vms_seen_later out w). }
  case_match; [by apply sees_ret|by apply IH].
Qed.

Lemma guarded_mac_attempts attempts v spec cfg res last w :
  saw w (vmKey (vm_ID v)) (DVM v) → UnmarshalSchedulingSpec (spec_SchedulingSpec (vm_Spec v)) = Some spec →
  guarded (mac_attempts downPathStaleness attempts ctx v spec cfg res last) w.
Proof.
  intros Hv Hspec. revert last w Hv. induction attempts as [|n IH]; intros last w Hv; [apply guarded_done|].
  eapply guarded_store; [by apply sees_BindScheduledVM|]. intros r w1 Hl1 _.
  destruct r as [u|[]]; try apply guarded_done. apply IH. by eapply saw_later.
Qed.

Lemma guarded_scheduleOne cfg res v w :
  saw w (vmKey (vm_ID v)) (DVM v) → guarded (scheduleOne downPathStaleness ctx cfg res v) w.
Proof.
  intros Hv. unfold scheduleOne. destruct (UnmarshalSchedulingSpec _) as [spec|] eqn:Hspec; [|apply guarded_done].
  apply guarded_bind.
  - unfold bindWithMACRetry. apply guarded_ask. intros r w1 Hl1. destruct r as [u|e]; [|apply guarded_done].
    apply guarded_bind; [apply guarded_mac_attempts; [by eapply saw_later|done]|].
    intros r w2 _. apply guarded_ask. intros. apply guarded_done.
  - intros r w1 _. destruct (match r with Ok _ => None | Err e => Some e end) as [e|] eqn:Er;
      destruct r as [u|e']; simplify_eq; [|apply guarded_done].
    destruct (schedulingReasonFor e spec) as [[reason msg] details].
    assert (guarded (Store (UpdateVMSchedulingReason (vm_ID v) reason msg details) (λ _, Done tt)) w1) as Hu.
    { eapply guarded_store; [apply sees_UpdateVMSchedulingReason|]. intros. apply guarded_done. }
    by destruct e; first [apply guarded_done|exact Hu].
Qed.

Lemma guarded_schedule_each cfg res vms w :
  vms_seen vms w → guarded (schedule_each downPathStaleness ctx cfg res vms) w.
Proof.
  revert w. induction vms as [|v vms IH]; intros w Hv; [apply guarded_done|]. apply guarded_bind.
  - apply guarded_scheduleOne, Hv. by left.
  - intros r w1 Hl1. apply IH. eapply vms_seen_later; [done|]. intros v' Hin. apply Hv. by right.
Qed.

Lemma guarded_ScheduleFunc cfg res w : guarded (ScheduleFunc downPathStaleness ctx cfg res) w.
Proof.
  eapply guarded_store.
  - apply sees_bindM. eapply sees_mono; [|apply sees_reads; writes_solve]. intros items w1 _ _ _.
    apply sees_list_unscheduled. intros v Hv. set_solver.
  - intros [vms|e] w1 _ Hv; [|apply guarded_done].
    apply guarded_bind; [by apply guarded_schedule_each|]. intros. apply guarded_done.
Qed.

(** C5. A step of a tick that pins a VM is well placed: the VM was waiting, the node and the
    pool were seen fit for it since the tick began, nothing of it is being deleted, and
    the fence holds.  Other programs may do anything to the store meanwhile that keeps
    the rows of VMs and nodes under their own keys. *)
Theorem tick_pins_well cfg res st issued l w' a' i w1 w2 id n :
  estate_wf st → keyed st →
  arun keyed_env (World st [] issued) (ScheduleFunc downPathStaleness ctx cfg res) l w' a' →
  l !! i = Some (Stepped w1 w2) → pinned_to (w_st w2) id = Some n → pinned_to (w_st w1) id ≠ Some n →
  well_placed ctx w1 w2 id n.
Proof.
  intros Hwf Hk Hrun Hi Hp2 Hp1. set (w0 := World st [] issued) in *.
  assert (pin_inv w0) as Hi0.
  { split; [done|]. by intros st' ->%list_elem_of_singleton. }
  destruct (arun_sound (answer := lanswer) (λ _, pin_protocol (well_placed ctx)) (λ _ _ _, True) pin_inv keyed_env
    ltac:(done) ltac:(done) ltac:(by intros ? ? ? []) (ScheduleFunc downPathStaleness ctx cfg res) []
    (λ _ _ w', pin_inv w' ∧ later w0 w') w0 l w' a') as [Ho _]; [| |by apply guarded_ScheduleFunc|done|].
  - intros _ _ a b Ha Hab [Hb Hl]. split; [by eapply pin_inv_step|]. etrans; [done|]. apply any_env_later, Hab.
  - done.
  - pose proof (obeys_step _ _ [] l i w1 w2 Ho Hi) as [_ Hgood]. by apply Hgood.
Qed.
End Binds.
