(* ===== verification/ScheduleRuns.v ===== *)
(** * Runs of the schedule loop

    A cluster of one node, ticks over which are executed step by step: instances of the
    loop's theorems, and a tick that binds more memory to the node than it reported. *)

From Stdlib Require Import Ascii.
From S2P Require Import Prelude Models Float64 Scheduler Etcd Prog Keys Client Rules Footprint Instances.
From S2P Require Import Nodes Migrations Retention VMs Placement DrainProps VMInvariant VMRuns VMWorkers Workers.
From S2P Require Import Schedule PlacementProps ScheduleRules ScheduleProps.
Import Scheduler.
Local Open Scope Z_scope.

Module ScheduleRuns.
Import Concrete.
Local Open Scope string_scope.

#[export] Instance schedule_libs : ScheduleLibs := {|
  spec_unmarshal _ := Some (MkSchedulingSpec "fast" 10 None (Some "alpha"));
  caps_unmarshal _ := None;
  detail_marshal _ := "{}";
  store_text _ := "";
  quote_text s := s;
  float_undef _ := 0;
  rand_three := mret ("000", "001", "002")%char;
  rand_three_reads := I
|}.

(** Node "alpha" reported 4096 MiB at time 100; each VM asks for all of them. *)
Definition report : NodeReport :=
  MkNodeReport None "" 0 0 (Some 8) (Some 8) None [] (Some 8192) (Some 4096) None None None None "" "" None None.
Definition alpha : Node :=
  MkNode (id 60) "alpha" false "amd64" "" "" 0 report NodeStatusReady None None (Some 100) "" None 0 None 0 0 0 None.
Definition pool : StoragePool :=
  MkStoragePool (id 80) (id 60) "fast" "local_dir" "/pools/fast" (Some (100 * bytesPerGiB)) (Some (100 * bytesPerGiB)) (Some 100)
    "" None 0 "" None None 0 0 None.
Definition waiting (n : N) (name : string) (createdAt : Z) : VM :=
  unscheduled_vm (MkCreateVMParams (id n) (id 50) name
    (MkVMSpec "" "amd64" "http://img" "qcow2" "" 1 4096 "host" "q35" None None false false None "" "{}") "" None None) createdAt.

Definition rows (createdAt : Z) : list (string * doc) :=
  [(nodeKey (id 60), DNode alpha); (storagePoolKey (id 80), DStoragePool pool);
   (storagePoolNameIndexKey "fast" (id 80), DStr (uuid_string (id 80)));
   (vmKey (id 1), DVM (waiting 1 "web" createdAt)); (vmKey (id 2), DVM (waiting 2 "db" createdAt));
   (vmUnscheduledIndexKey (id 1), DStr (uuid_string (id 1))); (vmUnscheduledIndexKey (id 2), DStr (uuid_string (id 2)))].

(** Every resource is checked, and nothing is overcommitted. *)
Definition one : float64 := f64_of_Z 1.
Definition resources : ResourcesConfig :=
  MkResourcesConfig (MkResourceConfig true one) (MkMemoryResourceConfig true one 0 one) (MkResourceConfig true one).

Definition locks (i : nat) (c : lcall) : lanswer c :=
  match c with LockPlacement => Ok tt | ReleasePlacement => tt end.
Definition fresh (issued : gset uuid) : uuid := supply (size issued).

(** A tick at time 120 over VMs that were admitted at [createdAt]. *)
Definition tick_of : act lanswer (result err unit) := ScheduleFunc 60 None (MkScheduleConfig "") resources.
Definition tick (createdAt : Z) := simulate fresh 120 locks 400 0 (stored_world (rows createdAt)) tick_of.

Lemma rows_keyed createdAt : keyed (stored (rows createdAt)).
Proof.
  split; intros i x Hx; unfold vm_at, node_at in Hx;
    (destruct (es_map (stored (rows createdAt)) !! _) as [e|] eqn:E; [|done]); injection Hx as Hx;
    apply stored_lookup in E as [Hin _]; rewrite Hx in Hin; unfold rows in Hin;
    rewrite !elem_of_cons, elem_of_nil in Hin; repeat (destruct Hin as [Hin|Hin]); try contradiction;
    apply pair_equal_spec in Hin as [Hk Hd]; try discriminate.
  all: first [apply (inj vmKey) in Hk as ->|apply (inj nodeKey) in Hk as ->]; by injection Hd as ->.
Qed.

Lemma tick_run env createdAt :
  arun env (World (stored (rows createdAt)) [] ∅) tick_of (tick createdAt).1.1 (tick createdAt).1.2 (tick createdAt).2.
Proof. exact (simulate_arun fresh 120 locks env 400 0 (stored_world (rows createdAt)) tick_of). Qed.

Definition early := tick 90.

(** The pins of the first VM around a step. *)
Definition pins_at (l : list (item lanswer)) (i : nat) : option (option uuid * option uuid) :=
  match l !! i with Some (Stepped w1 w2) => Some (pinned_to (w_st w1) (id 1), pinned_to (w_st w2) (id 1)) | _ => None end.

Lemma pins_at_item l i a b :
  pins_at l i = Some (a, b) →
  ∃ w1 w2, l !! i = Some (Stepped w1 w2) ∧ pinned_to (w_st w1) (id 1) = a ∧ pinned_to (w_st w2) (id 1) = b.
Proof. unfold pins_at. destruct (l !! i) as [[w1 w2|]|]; try done. intros [= <- <-]. eauto. Qed.

Lemma tick_pins_well_witness : ∃ w1 w2, well_placed None w1 w2 (id 1) (id 60).
Proof.
  assert (pins_at early.1.1 21 = Some (None, Some (id 60))) as Hp by by vm_compute.
  apply pins_at_item in Hp as (w1 & w2 & Hi & H1 & H2). exists w1, w2.
  apply (tick_pins_well 60 None (MkScheduleConfig "") resources (stored (rows 90)) ∅ early.1.1 early.1.2 early.2 21 w1 w2
    (id 1) (id 60) (stored_wf _) (rows_keyed 90) (tick_run keyed_env 90) Hi H2). by rewrite H1.
Defined.

(** ** The candidates of the pool *)

(** Rows of a concrete store decode. *)
Lemma stored_decodes {A} `{Codec A} l (key : uuid → string) :
  (∀ id d, (key id, d) ∈ l → is_Some (decode_doc (A := A) d)) → decodes (A := A) (stored l) key.
Proof.
  intros Hl i e He. unfold row. rewrite He. simpl. apply (Hl i). by apply stored_lookup in He as [? _].
Qed.

Ltac decode_rows l :=
  apply stored_decodes; intros i d Hd; unfold l in Hd; rewrite !elem_of_cons, elem_of_nil in Hd;
  repeat (destruct Hd as [Hd|Hd]); try contradiction; apply pair_equal_spec in Hd as [Hk ->];
  first [discriminate|by eexists].

Ltac entry_rows :=
  unfold holds_ids, all_decode; apply Forall_forall;
  match goal with |- Forall _ ?l => let v := eval vm_compute in l in change l with v end;
  repeat apply Forall_cons_2; try apply Forall_nil_2; by eexists.

Lemma pools_fast : pools_named (stored (rows 90)) "fast" = [pool].
Proof. by vm_compute. Qed.

Lemma rows_readable : offers_readable (stored (rows 90)) "fast".
Proof.
  split.
  - entry_rows.
  - decode_rows rows.
  - rewrite pools_fast. intros p ->%list_elem_of_singleton. entry_rows.
  - decode_rows rows.
  - decode_rows rows.
  - rewrite pools_fast. intros p nd ->%list_elem_of_singleton Hnd. vm_compute in Hnd. injection Hnd as <-.
    split; [entry_rows|entry_rows|decode_rows rows|decode_rows rows].
  - entry_rows.
  - entry_rows.
  - unfold distinct. replace (live_nodes (stored (rows 90))) with [alpha] by by vm_compute.
    by intros a b ->%list_elem_of_singleton ->%list_elem_of_singleton.
  - unfold distinct. replace (wg_records (stored (rows 90))) with (@nil AgentWireguard) by by vm_compute.
    by intros a b []%elem_of_nil.
Qed.

Lemma poolNodePairs_exact_witness :
  offered 120 (stored (rows 90)) 60 "fast" pool alpha ∧
  run_result 120 supply (poolNodePairs 60 "fast" eligible) (stored (rows 90)) 0 = Ok [offer_row (stored (rows 90)) pool alpha].
Proof.
  assert (run_result 120 supply (poolNodePairs 60 "fast" eligible) (stored (rows 90)) 0 =
    Ok [offer_row (stored (rows 90)) pool alpha]) as Hone by by vm_compute.
  split; [|exact Hone].
  destruct (poolNodePairs_exact 120 supply (stored (rows 90)) 0 60 "fast" rows_readable) as (out & Hrun & Hin & _).
  unfold run_result in Hone. rewrite Hrun in Hone. injection Hone as ->.
  destruct (proj1 (Hin (offer_row (stored (rows 90)) pool alpha))) as (p & nd & Ho & _); [by left|].
  pose proof (of_pool _ _ _ _ _ _ Ho) as Hp. rewrite pools_fast in Hp. apply list_elem_of_singleton in Hp as ->.
  pose proof (of_node _ _ _ _ _ _ Ho) as Hn. vm_compute in Hn. injection Hn as <-. exact Ho.
Defined.

(** How a tick ended: what it returned, and where the two VMs are pinned. *)
Definition outcome (createdAt : Z) : option (result err unit) * option uuid * option uuid :=
  let '(_, w, a) := tick createdAt in
  (match a with Done r => Some r | _ => None end, pinned_to (w_st w) (id 1), pinned_to (w_st w) (id 2)).

Lemma tick_outcome createdAt p1 p2 :
  outcome createdAt = (Some (Ok tt), p1, p2) →
  ∃ l w, arun (λ _ _, False) (World (stored (rows createdAt)) [] ∅) tick_of l w (Done (Ok tt)) ∧
    pinned_to (w_st w) (id 1) = p1 ∧ pinned_to (w_st w) (id 2) = p2.
Proof.
  unfold outcome. pose proof (tick_run (λ _ _, False) createdAt) as Hr. revert Hr.
  destruct (tick createdAt) as [[l w] a]. simpl. intros Hr [= Ha <- <-].
  destruct a; simplify_eq. by exists l, w.
Qed.

(** What the VMs of a run ask for together. *)
Definition asked (createdAt : Z) : Z := mems [waiting 1 "web" createdAt; waiting 2 "db" createdAt].

(** C36. Whether a VM counts against the room of a node depends on when it was admitted, not
    on when it was bound.  A tick binds two VMs that were both admitted before the last
    report of the node, each of which needs all the memory it reported; had they been
    admitted after the report, the tick would bind only one. *)
Theorem tick_overbooks :
  rep_MemoryAvailableMib (node_Report alpha) = Some 4096 ∧ asked 90 = 2 * 4096 ∧ asked 110 = 2 * 4096 ∧
  (∃ l w, arun (λ _ _, False) (World (stored (rows 90)) [] ∅) tick_of l w (Done (Ok tt)) ∧
     pinned_to (w_st w) (id 1) = Some (node_ID alpha) ∧ pinned_to (w_st w) (id 2) = Some (node_ID alpha)) ∧
  (∃ l w, arun (λ _ _, False) (World (stored (rows 110)) [] ∅) tick_of l w (Done (Ok tt)) ∧
     pinned_to (w_st w) (id 1) = Some (node_ID alpha) ∧ pinned_to (w_st w) (id 2) = None).
Proof.
  split_and!; [done|done|done|..].
  - apply tick_outcome; by vm_compute.
  - apply tick_outcome; by vm_compute.
Qed.

(** ** The room of a node

    One VM was bound to "alpha" after its report, and one is migrating to it. *)
Definition guest (n : N) (name : string) (node : uuid) : VM :=
  scheduled_vm (unscheduled_vm (VMRuns.params n name) 110) node 110.
Definition move : Migration :=
  (new_migration (SweepRun.mig_params 9) 900) <| mig_VmID := id 4 |> <| mig_TargetNodeID := Some (id 60) |>.
Definition busy_rows : list (string * doc) :=
  [(vmKey (id 3), DVM (guest 3 "new" (id 60))); (vmPinnedNodeIndexKey (id 60) (id 3), DStr (uuid_string (id 3)));
   (vmKey (id 4), DVM (guest 4 "moving" (id 61))); (migrationKey (id 9), DMigration move);
   (migrationNodeIndexKey (id 60) (id 9), DStr (uuid_string (id 9)))].

Lemma busy_readable : readable (stored busy_rows) (id 60).
Proof. split; [entry_rows|entry_rows|decode_rows busy_rows|decode_rows busy_rows]. Qed.

Lemma nodeEffective_accounts_witness :
  run 120 supply (nodeEffective alpha) (stored busy_rows) 0 = (Ok (node_view alpha (Some 4) (Some 2048)), stored busy_rows, 0%nat).
Proof.
  rewrite (nodeEffective_accounts 120 supply (stored busy_rows) 0 alpha busy_readable). by vm_compute.
Defined.
End ScheduleRuns.
