(* ===== verification/MigrationWorker.v ===== *)
(** * The migration worker: internal/api/handlers/migrations/run.go

    The handler of a vm.migrate job.  It places the migration when it has no target,
    has the target prepare the incoming side and the source push the guest, polls the
    source's task, and commits the cutover or fails the migration; a redelivery
    resumes the source's task, or brings the task of a migration that has ended to
    the same outcome.

    The agents, the placement, the placement lock, the configured clock and the read of
    overlay peers are calls with arbitrary answers.  Log lines are left out. *)

From Stdlib Require Import Ascii.
From S2P Require Import Prelude Models Float64 Scheduler Strconv Netip Etcd Prog Keys Client.
From S2P Require Import Tasks Nodes Migrations VMs Placement VMWorkers Workers.
Import Scheduler Strconv.
Local Open Scope Z_scope.

(** ** Requests and answers of the agents (agentapi) *)

Definition MigrationModeLive : string := "live".
Definition MigrationModeOffline : string := "offline".

(** The fields a migration sets. *)
Record VMSpecDisk := MkVMSpecDisk {
  vsd_DeviceOrder : Z;
  vsd_Bus : string;
  vsd_Format : string;
  vsd_SizeGib : Z;
  vsd_StoragePoolPath : string;
  vsd_SourceKind : string
}.

Record AgentVMSpec := MkAgentVMSpec {
  avs_VMUUID : uuid;
  avs_Name : string;
  avs_Architecture : string;
  avs_CPUCores : Z;
  avs_MemoryMib : Z;
  avs_Disks : list VMSpecDisk
}.

Record MigrationDisk := MkMigrationDisk {
  md_Index : Z;
  md_SizeBytes : Z;
  md_Format : string;
  md_ReadOnly : bool
}.

Record MigrationNic := MkMigrationNic {
  mn_ID : uuid;
  mn_MacAddress : string;
  mn_BridgeName : string;
  mn_Model : string;
  mn_DeviceOrder : Z;
  mn_Mtu : option Z;
  mn_Ipv4Address : option string
}.

Record MigrationIncomingRequest := MkMigrationIncomingRequest {
  mir_MigrationID : uuid;
  mir_Mode : string;
  mir_SourceNodeIdentity : option string;
  mir_VMSpec : AgentVMSpec;
  mir_Disks : option (list MigrationDisk);
  mir_Nics : option (list MigrationNic);
  mir_UserData : option string;
  mir_NetworkConfig : option string;
  mir_ExpectedSizeBytes : option Z;
  mir_AbandonedMigrationIds : option (list uuid)
}.

Record MigrationIncomingResponse := MkMigrationIncomingResponse {
  mip_AuthToken : string;
  mip_ListenEndpoint : string;
  mip_MigrationID : uuid;
  mip_NbdEndpoint : option string
}.

Record MigrationOutgoingRequest := MkMigrationOutgoingRequest {
  mor_MigrationID : uuid;
  mor_Mode : string;
  mor_TargetEndpoint : string;
  mor_TargetNodeIdentity : option string;
  mor_AuthToken : string;
  mor_MaxBandwidthBytes : option Z;
  mor_MaxDowntimeMs : option Z;
  mor_NbdEndpoint : option string
}.

(** ** The interfaces *)

(** The agents' calls take the endpoint and the name of the VM; a migration record is
    known by its phase, a VM by the size of its boot disk. *)
Inductive wcall :=
| AcquirePlacementLock
| ReleasePlacementLock
| ConfigNow
| Place (req : PlacementRequest)
| OverlayPeerNodesForVM (vmID : uuid)
| StartIncomingMigration (endpoint vmName : string) (req : MigrationIncomingRequest)
| StartOutgoingMigration (endpoint vmName : string) (req : MigrationOutgoingRequest)
| PollAgentTask (endpoint : string) (agentTaskID : uuid)
| StartVMOnTarget (endpoint vmName : string)
| DeleteVMOnSource (endpoint vmName : string)
| NudgeHeartbeat (endpoint : string)
| AgentVM (endpoint vmName : string)
| CancelAgentMigration (endpoint vmName migrationID : string)
| GetAgentMigration (endpoint vmName migrationID : string).

Definition wanswer (c : wcall) : Type :=
  match c with
  | AcquirePlacementLock => result err unit
  | ReleasePlacementLock => unit
  | ConfigNow => Z
  | Place _ => result sched_error PlacementDecision
  | OverlayPeerNodesForVM _ => result err (list Node)
  | StartIncomingMigration _ _ _ => result agent_error MigrationIncomingResponse
  | StartOutgoingMigration _ _ _ => result agent_error string
  | PollAgentTask _ _ => result agent_error TaskTerminal
  | StartVMOnTarget _ _ | DeleteVMOnSource _ _ | NudgeHeartbeat _ => result agent_error unit
  | AgentVM _ _ => result agent_error Z
  | CancelAgentMigration _ _ _ | GetAgentMigration _ _ _ => result agent_error string
  end.

(** ** Errors

    By what the worker extracts from them: an error of the store or of an agent, the
    two sentinels, a message ([fmt.Errorf] with %v), a message around an error that
    stays reachable (%w), a nil dereference, and a polling loop that has not ended
    within the rounds it was given. *)
Inductive werr :=
| WStore (e : err)
| WAgent (e : agent_error)
| errTargetPoolNotReady
| errMigrationRacedTerminal
| WText (text : string)
| WWrap (text : string) (e : werr)
| WPanic
| WPolling.

Fixpoint errors_Is_store (e : werr) (s : err) : bool :=
  match e with
  | WStore x => bool_decide (x = s)
  | WWrap _ e => errors_Is_store e s
  | _ => false
  end.

Fixpoint errors_Is_raced (e : werr) : bool :=
  match e with errMigrationRacedTerminal => true | WWrap _ e => errors_Is_raced e | _ => false end.

Fixpoint errors_Is_pool (e : werr) : bool :=
  match e with errTargetPoolNotReady => true | WWrap _ e => errors_Is_pool e | _ => false end.

(** [errors.As] to an [AgentError]. *)
Fixpoint errors_As_AgentError (e : werr) : option (Z * string * string) :=
  match e with
  | WAgent (AgentError status code message) => Some (status, code, message)
  | WWrap _ e => errors_As_AgentError e
  | _ => None
  end.

Definition W (A : Type) : Type := act wanswer (result werr A).

#[export] Instance W_ret : MRet W := λ A a, Done (Ok a).
#[export] Instance W_bind : MBind W := λ A B f m,
  act_bind (λ r, match r with Ok a => f a | Err e => Done (Err e) end) m.

Definition wfail {A} (e : werr) : W A := Done (Err e).

(** A method of the store, its error handled by the caller. *)
Definition store {A} (m : M A) : W (result err A) := Store m (λ r, Done (Ok r)).

Definition ask (c : wcall) : W (wanswer c) := Ask c (λ r, Done (Ok r)).

Fixpoint each {A} (l : list A) (body : A → W unit) : W unit :=
  match l with
  | [] => mret tt
  | x :: l => _ ← body x; each l body
  end.

(** The texts of errors, %q, %s of a duration, the error of [uuid.Parse], [json.Marshal] of the error envelope
    and of a result map, [int64] of a float64 out of range, and the order in which a
    map is ranged over. *)
Class WorkerLibs := {
  err_text : err → string;
  agent_text : agent_error → string;
  sched_text : sched_error → string;
  quote : string → string;
  duration_text : Z → string;
  uuid_parse_text : string → string;
  marshalTaskError : string → string → bytes;
  marshalResult : list (string * any) → option bytes;
  i64_undef : float64 → Z;
  range_order : list string → list string
}.

(** ** The job (jobs.go) *)

Record MigrationRunArgs := MkMigrationRunArgs { mra_TaskID : uuid; mra_MigrationID : uuid }.

Definition ReasonNoEligibleTarget : string := "no_eligible_target".
Definition ReasonNoCapacity : string := "no_capacity".
Definition ReasonPoolNotReady : string := "pool_not_ready".

Definition ErrCodeTargetUnreachable : string := "target_unreachable".
Definition ErrCodeConvergenceFailed : string := "convergence_failed".
Definition ErrCodeMigrationCancelled : string := "migration_cancelled".
Definition ErrCodeAbandonedCopyKept : string := "abandoned_copy_kept".
Definition ErrCodeDiskDirExists : string := "disk_dir_exists".
Definition ErrCodeAbandonedCopyUnmovable : string := "abandoned_copy_unmovable".

Record MigrateConfig := MkMigrateConfig { mc_DefaultPoolName : string; mc_MaxPollDuration : Z }.

Definition defaultMigrationMaxPollDuration : Z := 24 * 3600 * 10 ^ 9.

Definition maxPollDuration (c : MigrateConfig) : Z :=
  if 0 <? mc_MaxPollDuration c then mc_MaxPollDuration c else defaultMigrationMaxPollDuration.

(** ** Pure parts *)

Definition isTerminalPhase (p : MigrationPhase) : bool :=
  match p with
  | MigrationPhaseCompleted | MigrationPhaseFailed | MigrationPhaseCancelled => true
  | _ => false
  end.

Definition scheduleReasonFor (e : sched_error) : string :=
  if errors_is e ErrInsufficientResources then ReasonNoCapacity
  else if errors_is e ErrPoolNotFound || errors_is e ErrPoolNotOnNode then ReasonPoolNotReady
  else ReasonNoEligibleTarget.

Definition sourceIdentity (nodeName : string) : string := "CN=node-" +:+ nodeName.
Definition targetIdentity (nodeName : string) : string := "node-" +:+ nodeName +:+ ".agents.otherix.local".

Definition gibBytes : Z := 2 ^ 30.
Definition cloudinitDefaultDiskSize : Z := 10 * 1024 * 1024.

(** A pointer to a text that is not empty. *)
Definition nonempty (s : option string) : bool :=
  match s with Some s => negb (bool_decide (s = "")) | None => false end.

Definition vmHasCidata (vm : VM) : bool :=
  if spec_CloudInitDisabled (vm_Spec vm) then false
  else nonempty (spec_UserData (vm_Spec vm)) || nonempty (spec_NetworkConfig (vm_Spec vm)).

Definition migrationCloudInit (vm : VM) : option string * option string :=
  if negb (vmHasCidata vm) then (None, None)
  else (spec_UserData (vm_Spec vm), spec_NetworkConfig (vm_Spec vm)).

Definition migrationDisks (vm : VM) (bootSizeBytes : Z) (bootFormat : string) : list MigrationDisk :=
  MkMigrationDisk 0 bootSizeBytes bootFormat false ::
  if vmHasCidata vm then [MkMigrationDisk 1 cloudinitDefaultDiskSize "raw" true] else [].

Definition MigrationNics (pairs : list (VMNic * Network)) : list MigrationNic :=
  map (λ '(nic, net),
    {| mn_ID := nic_ID nic; mn_MacAddress := nic_MacAddress nic; mn_BridgeName := net_BridgeName net;
       mn_Model := nic_Model nic; mn_DeviceOrder := nic_DeviceOrder nic;
       mn_Mtu := if net_Mtu net =? 0 then None else Some (net_Mtu net);
       mn_Ipv4Address := Addr_String <$> nic_Ipv4Address nic |}) pairs.

(** The networks of the interfaces, each once, in the order of the first. *)
Definition network_ids (nics : list VMNic) : list uuid :=
  (foldl (λ '(seen, ids) n,
     if bool_decide (nic_NetworkID n ∈ seen) then (seen, ids)
     else ({[nic_NetworkID n]} ∪ seen, ids ++ [nic_NetworkID n])) (∅ : gset uuid, []) nics).2.

(** ** Statistics *)

(** [json.Number.Int64] with its error ignored: zero, or the nearest int64. *)
Definition Number_Int64 (n : string) : Z :=
  let v := match n with
           | String "-"%char n' => Z.opp <$> parse_nat n'
           | String "+"%char n' => parse_nat n'
           | _ => parse_nat n
           end in
  match v with
  | Some z => Z.max (- 2 ^ 63) (Z.min max_i64 z)
  | None => 0
  end.

(** An entry of a map, and the map it is. *)
Fixpoint map_get (m : list (string * any)) (k : string) : option any :=
  match m with
  | [] => None
  | (k', v) :: m => if bool_decide (k' = k) then Some v else map_get m k
  end.

Definition as_map (v : option any) : option (list (string * any)) :=
  match v with Some (AnyMap m) => Some m | _ => None end.

Section Worker.
Context `{Libs, WorkerLibs}.

Definition asInt64 (v : option any) : Z :=
  match v with
  | Some (AnyFloat64 f) => f64_to_i64 i64_undef f
  | Some (AnyNumber n) => Number_Int64 n
  | Some (AnyInt64 n) | Some (AnyInt n) => n
  | _ => 0
  end.

(** [None] is no statistics; a nil map has no entries. *)
Definition parseMigrationStats (result : option (list (string * any))) : option MigrationStats :=
  match as_map (map_get (default [] result) "stats") with
  | None => None
  | Some raw =>
    let ram := default [] (as_map (map_get raw "ram")) in
    let disk := default [] (as_map (map_get raw "disk")) in
    Some {| ms_RAMTransferred := asInt64 (map_get ram "transferred");
            ms_RAMTotal := asInt64 (map_get ram "total");
            ms_RAMDirtyPagesRate := asInt64 (map_get ram "dirty_pages_rate");
            ms_DiskTransferred := asInt64 (map_get disk "transferred");
            ms_DiskTotal := asInt64 (map_get disk "total");
            ms_TotalTimeMs := asInt64 (map_get raw "total_time_ms");
            ms_DowntimeMs := asInt64 (map_get raw "downtime_ms");
            ms_SetupTimeMs := asInt64 (map_get raw "setup_time_ms") |}
  end.

(** ** Reads of the store (internal/etcdstore/vms.go, vm_nics.go) *)

Definition ListVMDisksByVM (vmID : uuid) : M (list VMDisk) :=
  disks ← disksOfVM vmID;
  mret (stable_sort (λ a b, disk_DeviceOrder a <? disk_DeviceOrder b) disks).

Definition nic_before (a b : VMNic) : bool :=
  if negb (nic_DeviceOrder a =? nic_DeviceOrder b) then nic_DeviceOrder a <? nic_DeviceOrder b
  else String.ltb (uuid_string (nic_ID a)) (uuid_string (nic_ID b)).

Definition ListVMNicsByVM (vmID : uuid) : M (list VMNic) :=
  items ← Range (vmNicVMIndexPrefix vmID);
  out ← for_each items [] (λ kv out,
    match index_id kv.2 with
    | None => mret out
    | Some id =>
      r ← GetJSON (vmNicKey id);
      match r with
      | Some n => if bool_decide (nic_DeletedAt n = None) then mret (out ++ [n]) else mret out
      | None => mret out
      end
    end);
  mret (stable_sort nic_before out).

(** ** Outcomes *)

(** [err.Error()]. *)
Definition werr_text (e : werr) : string :=
  match e with
  | WStore e => err_text e
  | WAgent e => agent_text e
  | errTargetPoolNotReady => "target pool not ready on node"
  | errMigrationRacedTerminal => "migration raced to terminal during placement/setup"
  | WText text | WWrap text _ => text
  | WPanic => "runtime error: invalid memory address or nil pointer dereference"
  | WPolling => ""
  end.

(** [fmt.Errorf("what: %v", err)] around the error of a method of the store. *)
Definition must {A} (what : string) (m : M A) : W A :=
  r ← store m;
  match r with Ok a => mret a | Err e => wfail (WText (what +:+ ": " +:+ err_text e)) end.

(** A pointer that is dereferenced. *)
Definition deref {A} (p : option A) : W A :=
  match p with Some a => mret a | None => wfail WPanic end.

Definition finalizeFailed (taskID : uuid) (code : string) (cause : werr) : W unit :=
  r ← store (UpdateTaskFinalized
        (MkUpdateTaskFinalizedParams taskID TaskStatusFailed "" (marshalTaskError code (werr_text cause))));
  match r with
  | Ok _ => mret tt
  | Err e => wfail (WText ("finalize failed: " +:+ err_text e +:+ " (cause: " +:+ werr_text cause +:+ ")"))
  end.

(** The job is retried. *)
Definition failTask {A} (taskID : uuid) (code : string) (cause : werr) : W A :=
  _ ← finalizeFailed taskID code cause; wfail cause.

Definition failTerminal (taskID : uuid) (code : string) (cause : werr) : W unit :=
  finalizeFailed taskID code cause.

Definition status_text (s : TaskStatus) : string :=
  match s with
  | TaskStatusPending => "pending" | TaskStatusRunning => "running" | TaskStatusSuccess => "success"
  | TaskStatusFailed => "failed" | TaskStatusCancelled => "cancelled"
  end.

Definition finalizeTask (taskID : uuid) (status : TaskStatus) (code : string) (msg : option string)
    : W (result err unit) :=
  let m := match msg with
           | Some s => if bool_decide (s = "") then "migration " +:+ status_text status else s
           | None => "migration " +:+ status_text status
           end in
  store (UpdateTaskFinalized (MkUpdateTaskFinalizedParams taskID status "" (marshalTaskError code m))).

(** [finalizeTask] with its error wrapped. *)
Definition finalize_or_fail (what : string) (taskID : uuid) (status : TaskStatus) (code : string)
    (msg : option string) : W unit :=
  r ← finalizeTask taskID status code msg;
  match r with Ok _ => mret tt | Err e => wfail (WText (what +:+ ": " +:+ err_text e)) end.

Definition phase_text (p : MigrationPhase) : string :=
  match p with
  | MigrationPhasePending => "pending" | MigrationPhaseSetup => "setup" | MigrationPhaseActive => "active"
  | MigrationPhasePostcopyActive => "postcopy_active" | MigrationPhaseCompleted => "completed"
  | MigrationPhaseFailed => "failed" | MigrationPhaseCancelled => "cancelled"
  end.

Definition advancePhase (migID : uuid) (phase : MigrationPhase) : W unit :=
  _ ← store (UpdateMigrationProgress migID
        (MkMigrationProgressUpdate (Some phase) None None None None None None None None false));
  mret tt.

Definition recordPending {A} (migID : uuid) (reason : string) (cause : string) : W A :=
  t ← store now;
  match t with
  | Err e => wfail (WStore e)
  | Ok t =>
    r ← store (UpdateMigrationProgress migID
          (MkMigrationProgressUpdate (Some MigrationPhasePending) None None None None None None (Some t)
             (Some reason) false));
    match r with
    | Err e => wfail (WText ("record scheduling reason: " +:+ err_text e +:+ " (cause: " +:+ cause +:+ ")"))
    | Ok _ => wfail (WText ("migration " +:+ uuid_string migID +:+ " pending: " +:+ cause))
    end
  end.

Definition failMigration (taskID migID : uuid) (terminal : TaskTerminal) : W unit :=
  let '(code, msg) :=
    match tt_Error terminal with
    | Some (_, c, m) =>
      (if bool_decide (c = "") then ErrCodeConvergenceFailed else c,
       if bool_decide (m = "") then "migration failed on source agent" else m)
    | None => (ErrCodeConvergenceFailed, "migration failed on source agent")
    end in
  r ← store (UpdateMigrationProgress migID
        (MkMigrationProgressUpdate (Some MigrationPhaseFailed) None None None None (Some msg) None None None false));
  match r with
  | Err e => wfail (WText ("mark migration failed: " +:+ err_text e))
  | Ok _ => finalizeFailed taskID code (WText msg)
  end.

Definition failSetup (taskID migID : uuid) (e : werr) : W unit :=
  match errors_As_AgentError e with
  | Some (_, code, message) =>
    if bool_decide (code = ErrCodeAbandonedCopyKept) || bool_decide (code = ErrCodeDiskDirExists) ||
       bool_decide (code = ErrCodeAbandonedCopyUnmovable)
    then failMigration taskID migID (MkTaskTerminal "failed" None (Some (0, code, message)))
    else failTask taskID ErrCodeTargetUnreachable e
  | None => failTask taskID ErrCodeTargetUnreachable e
  end.

(** ** The target's incoming side *)

Definition cancelTargetIncoming (m : Migration) (vm : VM) (target : Node) : W unit :=
  match mig_TargetNodeID m with
  | None => mret tt
  | Some _ =>
    _ ← ask (CancelAgentMigration (DialURL (node_Name target)) (vm_Name vm) (uuid_string (mig_ID m)));
    mret tt
  end.

Definition reapTargetIncoming (m : Migration) : W unit :=
  match mig_TargetNodeID m with
  | None => mret tt
  | Some targetID =>
    r ← store (NodeByID targetID);
    match r with
    | Err _ => mret tt
    | Ok target =>
      r ← store (VMByID (mig_VmID m));
      match r with
      | Err _ => mret tt
      | Ok vm =>
        _ ← ask (CancelAgentMigration (DialURL (node_Name target)) (vm_Name vm) (uuid_string (mig_ID m)));
        mret tt
      end
    end
  end.

(** ** After the cutover *)

Definition convergePostCutover (vm : VM) (source target : Node) (live : bool) : W unit :=
  let target_url := DialURL (node_Name target) in
  _ ← (if bool_decide (vm_DesiredPhase vm = VmDesiredPhaseRunning) && negb live
       then _ ← ask (StartVMOnTarget target_url (vm_Name vm)); mret tt
       else mret tt);
  _ ← ask (DeleteVMOnSource (DialURL (node_Name source)) (vm_Name vm));
  r ← ask (OverlayPeerNodesForVM (vm_ID vm));
  let peers := match r with Ok peers => peers | Err _ => [] end in
  let endpoints := remove_dups (target_url :: map (λ p, DialURL (node_Name p)) peers) in
  each (range_order endpoints) (λ ep, _ ← ask (NudgeHeartbeat ep); mret tt).

Definition logCancelSupersede (migID : uuid) : W unit :=
  _ ← store (MigrationByID migID); mret tt.

(** The cutover, with the reload after a lost compare. *)
Definition cutover_or_reload (migID : uuid) : W unit :=
  r ← store (CommitMigrationCutover migID);
  match r with
  | Ok _ => mret tt
  | Err ErrConcurrentUpdate =>
    reloaded ← must "reload migration after cutover CAS loss" (MigrationByID migID);
    match mig_Phase reloaded with
    | MigrationPhaseCompleted => mret tt
    | MigrationPhaseFailed =>
      wfail (WWrap ("cutover CAS lost to a failed migration " +:+ uuid_string migID +:+ "; not completing: " +:+
                    err_text ErrMigrationTerminal) (WStore ErrMigrationTerminal))
    | phase =>
      if bool_decide (phase = MigrationPhaseCancelled) && negb (mig_Live reloaded)
      then wfail (WWrap ("cutover lost to an offline cancel of migration " +:+ uuid_string migID +:+ ": " +:+
                         err_text ErrMigrationTerminal) (WStore ErrMigrationTerminal))
      else wfail (WText ("cutover CAS lost for migration " +:+ uuid_string migID +:+ " (phase " +:+
                         quote (phase_text phase) +:+ "); retry"))
    end
  | Err e => wfail (WWrap ("commit cutover: " +:+ err_text e) (WStore e))
  end.

Definition commitCutover (taskID migID : uuid) (terminal : TaskTerminal) : W unit :=
  _ ← logCancelSupersede migID;
  _ ← cutover_or_reload migID;
  let result := match tt_Result terminal with
                | Some m => m
                | None => [("migration_id", AnyString (uuid_string migID))]
                end in
  let resultJSON := default "{}" (marshalResult result) in
  _ ← must "finalize task success"
        (UpdateTaskFinalized (MkUpdateTaskFinalizedParams taskID TaskStatusSuccess resultJSON ""));
  match parseMigrationStats (tt_Result terminal) with
  | Some stats => _ ← store (UpdateMigrationStats migID stats); mret tt
  | None => mret tt
  end.

(** ** A migration that has ended *)

(** [finalizeCancelled]. *)
Definition finalize_cancelled (taskID : uuid) (m : Migration) : W unit :=
  finalize_or_fail ("finalize task cancelled for cancelled migration " +:+ uuid_string (mig_ID m))
    taskID TaskStatusCancelled ErrCodeMigrationCancelled (mig_ErrorMessage m).

(** What follows a cutover when the target is still known. *)
Definition converge_to_target (m : Migration) (vm : VM) (source : Node) : W unit :=
  match mig_TargetNodeID m with
  | None => mret tt
  | Some targetID =>
    r ← store (NodeByID targetID);
    match r with
    | Err _ => mret tt
    | Ok target => convergePostCutover vm source target (mig_Live m)
    end
  end.

Definition success_terminal : TaskTerminal := MkTaskTerminal "success" None None.

Definition reconcileCancelledNoAgentTask (taskID : uuid) (m : Migration) : W unit :=
  let id := uuid_string (mig_ID m) in
  match mig_SourceNodeID m with
  | None => finalize_cancelled taskID m
  | Some sourceID =>
    source ← must ("load source node for cancelled migration " +:+ id) (NodeByID sourceID);
    vm ← must ("load vm for cancelled migration " +:+ id) (VMByID (mig_VmID m));
    r ← ask (GetAgentMigration (DialURL (node_Name source)) (vm_Name vm) id);
    match r with
    | Err e =>
      if isAgentTaskGone e then finalize_cancelled taskID m
      else wfail (WText ("probe source migration " +:+ id +:+ ": " +:+ agent_text e))
    | Ok phase =>
      if bool_decide (phase = "completed") then
        _ ← commitCutover taskID (mig_ID m) success_terminal;
        converge_to_target m vm source
      else if bool_decide (phase = "failed") || bool_decide (phase = "cancelled") then
        _ ← reapTargetIncoming m;
        finalize_cancelled taskID m
      else wfail (WText ("cancelled migration " +:+ id +:+ ": source still in-flight (phase " +:+ quote phase +:+
                         "); retry"))
    end
  end.

Definition reconcileCancelledMigration (taskID : uuid) (m : Migration) : W unit :=
  let id := uuid_string (mig_ID m) in
  task ← must ("reload task for cancelled migration " +:+ id) (TaskByID taskID);
  match task_AgentTaskID task with
  | None => reconcileCancelledNoAgentTask taskID m
  | Some agentTaskID =>
    match mig_SourceNodeID m with
    | None => wfail (WText ("cancelled migration " +:+ id +:+ " has an agent task but no source node; cannot arbitrate"))
    | Some sourceID =>
      source ← must ("load source node for cancelled migration " +:+ id) (NodeByID sourceID);
      r ← ask (PollAgentTask (DialURL (node_Name source)) agentTaskID);
      match r with
      | Err e => wfail (WText ("poll source task for cancelled migration " +:+ id +:+ ": " +:+ agent_text e))
      | Ok terminal =>
        if bool_decide (tt_Status terminal = "success") then
          _ ← commitCutover taskID (mig_ID m) terminal;
          r ← store (VMByID (mig_VmID m));
          match r with
          | Err _ => mret tt
          | Ok vm => converge_to_target m vm source
          end
        else if bool_decide (tt_Status terminal = "failed") || bool_decide (tt_Status terminal = "cancelled") then
          _ ← reapTargetIncoming m;
          finalize_cancelled taskID m
        else wfail (WText ("cancelled migration " +:+ id +:+ ": unexpected source terminal status " +:+
                           quote (tt_Status terminal) +:+ "; retry"))
      end
    end
  end.

Definition migration_result (m : Migration) : bytes :=
  "{" +:+ quoted "migration_id" +:+ ":" +:+ quoted (uuid_string (mig_ID m)) +:+ "}".

Definition finalizeForTerminalMigration (taskID : uuid) (m : Migration) : W unit :=
  let id := uuid_string (mig_ID m) in
  match mig_Phase m with
  | MigrationPhaseCompleted =>
    must ("finalize task success for completed migration " +:+ id)
      (UpdateTaskFinalized (MkUpdateTaskFinalizedParams taskID TaskStatusSuccess (migration_result m) ""))
  | MigrationPhaseCancelled =>
    if negb (mig_Live m) then
      _ ← reapTargetIncoming m;
      finalize_or_fail ("finalize task cancelled for offline migration " +:+ id)
        taskID TaskStatusCancelled ErrCodeMigrationCancelled (mig_ErrorMessage m)
    else reconcileCancelledMigration taskID m
  | _ =>
    _ ← reapTargetIncoming m;
    finalize_or_fail ("finalize task failed for failed migration " +:+ id)
      taskID TaskStatusFailed ErrCodeConvergenceFailed (mig_ErrorMessage m)
  end.

Definition reconcileRacedTerminal (taskID migID : uuid) : W unit :=
  reloaded ← must ("reload raced-terminal migration " +:+ uuid_string migID) (MigrationByID migID);
  finalizeForTerminalMigration taskID reloaded.

Definition finalizeRefusedCutover (taskID migID : uuid) (e : werr) : W unit :=
  if negb (errors_Is_store e ErrMigrationTerminal) then wfail e
  else
    r ← store (MigrationByID migID);
    match r with
    | Err _ => wfail e
    | Ok reloaded =>
      if negb (isTerminalPhase (mig_Phase reloaded)) || bool_decide (mig_Phase reloaded = MigrationPhaseCompleted)
      then wfail e
      else finalizeForTerminalMigration taskID reloaded
    end.

(** ** The source's task *)

Definition fail_to_source (taskID : uuid) (m : Migration) (reason : string) : W unit :=
  _ ← reapTargetIncoming m;
  failMigration taskID (mig_ID m)
    (MkTaskTerminal "failed" None
       (Some (0, ErrCodeConvergenceFailed, "source agent restarted mid-migration (" +:+ reason +:+ ")"))).

Definition reconcileVanishedSourceTask (taskID : uuid) (m : Migration) (vm : VM) : W unit :=
  let id := uuid_string (mig_ID m) in
  if negb (mig_Live m) then fail_to_source taskID m "offline migration; nothing handed off"
  else match mig_TargetNodeID m with
  | None => fail_to_source taskID m "no bound target"
  | Some targetID =>
    target ← must ("load target node for vanished-task migration " +:+ id) (NodeByID targetID);
    r ← ask (GetAgentMigration (DialURL (node_Name target)) (vm_Name vm) id);
    match r with
    | Err e =>
      if isAgentTaskGone e then wfail (WText ("vanished-task migration " +:+ id +:+ ": target has no record; retry"))
      else wfail (WText ("probe target migration " +:+ id +:+ ": " +:+ agent_text e))
    | Ok phase =>
      if bool_decide (phase = "completed") then
        _ ← commitCutover taskID (mig_ID m) success_terminal;
        sourceID ← deref (mig_SourceNodeID m);
        r ← store (NodeByID sourceID);
        match r with
        | Err _ => mret tt
        | Ok source => convergePostCutover vm source target (mig_Live m)
        end
      else if bool_decide (phase ∈ ["failed"; "cancelled"; "setup"; "active"; "postcopy_active"]) then
        fail_to_source taskID m ("target confirms no handoff (phase " +:+ phase +:+ ")")
      else wfail (WText ("vanished-task migration " +:+ id +:+ ": unexpected target phase " +:+ quote phase +:+
                         "; retry"))
    end
  end.

(** The rounds of the loop; [None] is an outcome that is already recorded. *)
Fixpoint poll_rounds (rounds : nat) (cfg : MigrateConfig) (taskID : uuid) (m : Migration) (vm : VM)
    (source : Node) (agentTaskID : uuid) (deadline : Z) : W (option TaskTerminal) :=
  match rounds with
  | O => wfail WPolling
  | S rounds =>
    r ← ask (PollAgentTask (DialURL (node_Name source)) agentTaskID);
    match r with
    | Ok terminal => mret (Some terminal)
    | Err (TimeoutError _) =>
      t ← ask ConfigNow;
      if deadline <? t then
        wfail (WText ("migration " +:+ uuid_string (mig_ID m) +:+ " poll budget " +:+
                      duration_text (maxPollDuration cfg) +:+ " elapsed; requeueing"))
      else poll_rounds rounds cfg taskID m vm source agentTaskID deadline
    | Err (Canceled text) => wfail (WAgent (Canceled text))
    | Err e =>
      if isAgentTaskGone e then
        _ ← reconcileVanishedSourceTask taskID m vm;
        mret None
      else failTask taskID ErrCodeTargetUnreachable (WText ("poll outgoing task: " +:+ agent_text e))
    end
  end.

Definition pollOutgoing (rounds : nat) (cfg : MigrateConfig) (taskID : uuid) (m : Migration) (vm : VM)
    (source : Node) (agentTaskID : uuid) : W (option TaskTerminal) :=
  t ← ask ConfigNow;
  poll_rounds rounds cfg taskID m vm source agentTaskID (t + maxPollDuration cfg).

(** ** The handshake *)

(** [v, err := m] with the error handled by the caller. *)
Definition attemptW {A} (m : W A) : W (result werr A) := act_bind (λ r, Done (Ok r)) m.

Definition targetPoolPath (m : Migration) : W string :=
  match mig_TargetNodeID m with
  | None => wfail (WText ("migration " +:+ uuid_string (mig_ID m) +:+ " has no target node; cannot resolve pool path"))
  | Some targetID =>
    r ← store (StoragePoolsByName (mig_TargetPoolName m));
    match r with
    | Err e => wfail (WText ("resolve target pool " +:+ quote (mig_TargetPoolName m) +:+ ": " +:+ err_text e))
    | Ok pools =>
      match List.find (λ p, bool_decide (sp_NodeID p = targetID)) pools with
      | Some p => mret (sp_Path p)
      | None =>
        wfail (WWrap (werr_text errTargetPoolNotReady +:+ ": pool " +:+ quote (mig_TargetPoolName m) +:+ " on node " +:+
                      uuid_string targetID) errTargetPoolNotReady)
      end
    end
  end.

Definition sourcePoolName (vmID : uuid) : W string :=
  disks ← must "list vm disks" (ListVMDisksByVM vmID);
  match disks with
  | [] => wfail (WText ("vm " +:+ uuid_string vmID +:+ " has no boot disk"))
  | boot :: _ =>
    r ← store (StoragePoolByID (disk_StoragePoolID boot));
    match r with
    | Err e => wfail (WText ("resolve source pool " +:+ uuid_string (disk_StoragePoolID boot) +:+ ": " +:+ err_text e))
    | Ok pool => mret (sp_Name pool)
    end
  end.

Definition incomingVMSpec (m : Migration) (vm : VM) : W (AgentVMSpec * list MigrationDisk) :=
  disks ← must "list vm disks" (ListVMDisksByVM (vm_ID vm));
  match disks with
  | [] => wfail (WText ("vm " +:+ uuid_string (vm_ID vm) +:+ " has no boot disk"))
  | boot :: _ =>
    poolPath ← targetPoolPath m;
    let spec := {| avs_VMUUID := vm_ID vm; avs_Name := vm_Name vm;
                   avs_Architecture := spec_Architecture (vm_Spec vm);
                   avs_CPUCores := spec_CpuCores (vm_Spec vm); avs_MemoryMib := spec_MemoryMib (vm_Spec vm);
                   avs_Disks := [MkVMSpecDisk (disk_DeviceOrder boot) (disk_Bus boot) (disk_Format boot)
                                   (disk_SizeGib boot) poolPath (disk_SourceKind boot)] |} in
    mret (spec, migrationDisks vm (disk_SizeGib boot * gibBytes) (disk_Format boot))
  end.

Fixpoint resolve_pairs (nics : list VMNic) : W (list (VMNic * Network)) :=
  match nics with
  | [] => mret []
  | n :: nics =>
    net ← must ("resolve network " +:+ uuid_string (nic_NetworkID n) +:+ " for nic " +:+ uuid_string (nic_ID n))
            (NetworkByID (nic_NetworkID n));
    pairs ← resolve_pairs nics;
    mret ((n, net) :: pairs)
  end.

Definition resolveMigrationNics (vmID : uuid) : W (list MigrationNic) :=
  nics ← must "list vm nics" (ListVMNicsByVM vmID);
  pairs ← resolve_pairs nics;
  mret (MigrationNics pairs).

Definition abandonedMigrationIDs (vmID targetID migID : uuid) : W (option (list uuid)) :=
  ids ← must "list abandoned migrations" (AbandonedOfflineMigrations vmID targetID migID);
  match ids with [] => mret None | _ => mret (Some ids) end.

Definition migration_mode (m : Migration) : string :=
  if mig_Live m then MigrationModeLive else MigrationModeOffline.

(** The two requests and the record of the source's task. *)
Definition start_handshake (taskID : uuid) (vm : VM) (m : Migration) (source target : Node) : W uuid :=
  '(spec, disks) ← incomingVMSpec m vm;
  let '(userData, networkConfig) := migrationCloudInit vm in
  nics ← resolveMigrationNics (vm_ID vm);
  r ← ask (AgentVM (DialURL (node_Name source)) (vm_Name vm));
  match r with
  | Err e => wfail (WText ("fetch source vm for disk size: " +:+ agent_text e))
  | Ok expected =>
    if expected <=? 0 then
      wfail (WText ("source vm " +:+ vm_Name vm +:+ " reported no boot disk size; cannot size destination"))
    else
      abandonedIDs ← abandonedMigrationIDs (vm_ID vm) (node_ID target) (mig_ID m);
      r ← ask (StartIncomingMigration (DialURL (node_Name target)) (vm_Name vm)
            {| mir_MigrationID := mig_ID m; mir_Mode := migration_mode m;
               mir_SourceNodeIdentity := Some (sourceIdentity (node_Name source)); mir_VMSpec := spec;
               mir_Disks := Some disks; mir_Nics := Some nics; mir_UserData := userData;
               mir_NetworkConfig := networkConfig; mir_ExpectedSizeBytes := Some expected;
               mir_AbandonedMigrationIds := abandonedIDs |});
      match r with
      | Err e => wfail (WWrap ("start incoming migration: " +:+ agent_text e) (WAgent e))
      | Ok incoming =>
        r ← ask (StartOutgoingMigration (DialURL (node_Name source)) (vm_Name vm)
              {| mor_MigrationID := mig_ID m; mor_Mode := migration_mode m;
                 mor_TargetEndpoint := mip_ListenEndpoint incoming;
                 mor_TargetNodeIdentity := Some (targetIdentity (node_Name target));
                 mor_AuthToken := mip_AuthToken incoming; mor_MaxBandwidthBytes := mig_MaxBandwidthBytes m;
                 mor_MaxDowntimeMs := mig_MaxDowntimeMs m; mor_NbdEndpoint := mip_NbdEndpoint incoming |});
        match r with
        | Err e => wfail (WText ("start outgoing migration: " +:+ agent_text e))
        | Ok agentTaskStr =>
          match uuid_parse agentTaskStr with
          | None => wfail (WText ("parse agent task id " +:+ quote agentTaskStr +:+ ": " +:+ uuid_parse_text agentTaskStr))
          | Some agentTaskID =>
            _ ← must "persist agent_task_id"
                  (UpdateTaskAgentTaskID (MkUpdateTaskAgentTaskIDParams taskID (Some agentTaskID)));
            mret agentTaskID
          end
        end
      end
  end.

Definition startOrResume (taskID : uuid) (task : Task) (vm : VM) (m : Migration) (source target : Node) : W uuid :=
  match task_AgentTaskID task with
  | Some agentTaskID => mret agentTaskID
  | None =>
    _ ← advancePhase (mig_ID m) MigrationPhaseSetup;
    r ← store (MigrationByID (mig_ID m));
    if match r with Ok reloaded => isTerminalPhase (mig_Phase reloaded) | Err _ => false end
    then wfail errMigrationRacedTerminal
    else start_handshake taskID vm m source target
  end.

(** What follows the source's terminal status. *)
Definition conclude (taskID : uuid) (m : Migration) (vm : VM) (source target : Node) (t : TaskTerminal) : W unit :=
  if bool_decide (tt_Status t = "success") then
    r ← attemptW (commitCutover taskID (mig_ID m) t);
    match r with
    | Err e => finalizeRefusedCutover taskID (mig_ID m) e
    | Ok _ => convergePostCutover vm source target (mig_Live m)
    end
  else if bool_decide (tt_Status t = "failed") || bool_decide (tt_Status t = "cancelled") then
    r ← store (MigrationByID (mig_ID m));
    match r with
    | Ok reloaded =>
      if isTerminalPhase (mig_Phase reloaded) then finalizeForTerminalMigration taskID reloaded
      else _ ← cancelTargetIncoming m vm target; failMigration taskID (mig_ID m) t
    | Err _ => _ ← cancelTargetIncoming m vm target; failMigration taskID (mig_ID m) t
    end
  else failTask taskID "internal" (WText ("unexpected agent terminal status " +:+ quote (tt_Status t))).

Definition driveHandshake (rounds : nat) (cfg : MigrateConfig) (taskID : uuid) (m : Migration) (vm : VM) : W unit :=
  match mig_TargetNodeID m with
  | None =>
    failTerminal taskID "internal"
      (WText ("migration " +:+ uuid_string (mig_ID m) +:+ " has no target after bind"))
  | Some targetID =>
    sourceID ← deref (mig_SourceNodeID m);
    r ← store (NodeByID sourceID);
    match r with
    | Err e => failTask taskID "not_found" (WText ("load source node: " +:+ err_text e))
    | Ok source =>
      r ← store (NodeByID targetID);
      match r with
      | Err e => failTask taskID "not_found" (WText ("load target node: " +:+ err_text e))
      | Ok target =>
        task ← must "reload task" (TaskByID taskID);
        r ← attemptW (startOrResume taskID task vm m source target);
        match r with
        | Err e =>
          if errors_Is_raced e then reconcileRacedTerminal taskID (mig_ID m)
          else if errors_Is_pool e then recordPending (mig_ID m) ReasonPoolNotReady (werr_text e)
          else failSetup taskID (mig_ID m) e
        | Ok agentTaskID =>
          _ ← advancePhase (mig_ID m) MigrationPhaseActive;
          terminal ← pollOutgoing rounds cfg taskID m vm source agentTaskID;
          match terminal with
          | None => mret tt
          | Some t => conclude taskID m vm source target t
          end
        end
      end
    end
  end.

(** ** Placement *)

(** The window the placement lock covers. *)
Definition place_and_bind (ctx : option fence) (m : Migration) (vm : VM) : W Migration :=
  src ← deref (mig_SourceNodeID m);
  vmNics ← must "list vm nics" (ListVMNicsByVM (vm_ID vm));
  r ← ask (Place {| req_PoolName := mig_TargetPoolName m; req_NodeHint := None; req_ExcludeNodeID := Some src;
                    req_VCPUs := spec_CpuCores (vm_Spec vm); req_MemoryMiB := spec_MemoryMib (vm_Spec vm);
                    req_DiskBytes := 0; req_NetworkIDs := network_ids vmNics |});
  match r with
  | Err perr => recordPending (mig_ID m) (scheduleReasonFor perr) (sched_text perr)
  | Ok decision =>
    r ← store (BindMigrationTarget ctx (mig_ID m) (nea_ID (dec_Node decision)) (pec_Name (dec_PoolInstance decision)));
    match r with
    | Err ErrMigrationTerminal => wfail errMigrationRacedTerminal
    | Err e => wfail (WText ("bind migration target: " +:+ err_text e))
    | Ok _ => must "reload migration after bind" (MigrationByID (mig_ID m))
    end
  end.

Definition placeAndBind (ctx : option fence) (m : Migration) (vm : VM) : W Migration :=
  r ← ask AcquirePlacementLock;
  match r with
  | Err e => wfail (WText ("acquire placement lock: " +:+ err_text e))
  | Ok _ =>
    r ← attemptW (place_and_bind ctx m vm);
    _ ← ask ReleasePlacementLock;
    match r with Ok bound => mret bound | Err e => wfail e end
  end.

(** ** The handler *)

Definition no_source_terminal : TaskTerminal :=
  MkTaskTerminal "failed" None
    (Some (0, "internal", "migration has no source node (vm was not scheduled to a node)")).

(** From a loaded VM on, with the pool the migration goes to. *)
Definition drive (ctx : option fence) (rounds : nat) (cfg : MigrateConfig) (taskID : uuid) (m : Migration) (vm : VM)
    : W unit :=
  match mig_TargetNodeID m with
  | Some _ => driveHandshake rounds cfg taskID m vm
  | None =>
    r ← attemptW (placeAndBind ctx m vm);
    match r with
    | Ok bound => driveHandshake rounds cfg taskID bound vm
    | Err perr =>
      if errors_Is_raced perr then reconcileRacedTerminal taskID (mig_ID m) else wfail perr
    end
  end.

Definition runMigration (ctx : option fence) (rounds : nat) (cfg : MigrateConfig) (args : MigrationRunArgs) : W unit :=
  let taskID := mra_TaskID args in
  alreadyTerminal ← must "update task running" (UpdateTaskRunning taskID);
  if alreadyTerminal : bool then mret tt
  else
    r ← store (MigrationByID (mra_MigrationID args));
    match r with
    | Err e => failTask taskID "not_found" (WText ("load migration: " +:+ err_text e))
    | Ok m =>
      if isTerminalPhase (mig_Phase m) then finalizeForTerminalMigration taskID m
      else match mig_SourceNodeID m with
      | None => failMigration taskID (mig_ID m) no_source_terminal
      | Some _ =>
        r ← store (VMByID (mig_VmID m));
        match r with
        | Err e => failTask taskID "not_found" (WText ("load vm: " +:+ err_text e))
        | Ok vm =>
          if bool_decide (mig_TargetPoolName m = "") then
            r ← attemptW (sourcePoolName (mig_VmID m));
            match r with
            | Err e => failTask taskID "internal" (WText ("default target pool: " +:+ werr_text e))
            | Ok spn => drive ctx rounds cfg taskID (m <| mig_TargetPoolName := spn |>) vm
            end
          else drive ctx rounds cfg taskID m vm
        end
      end
    end.
End Worker.
