(* ===== verification/MigrationWorkerRules.v ===== *)
(** * The migration worker: protocol and rules

    What a run of the worker may do, given the answers it has had, and the rules for
    the methods of the store it calls.  The environment may be any programs that keep
    rows under their own keys and do not revive a migration that has ended. *)

From S2P Require Import Prelude Models Etcd Prog Keys Client Rules Footprint Guards Footprints.
From S2P Require Import Jobs Tasks Nodes Migrations MigrationProps VMs Placement VMWorkers VMWorkerProps Workers MigrationWorker.
Local Open Scope Z_scope.

Section Protocol.
Context `{Etcd, !EtcdLaws, !Libs, !LibsLaws, WorkerLibs} (args : MigrationRunArgs).

(** Whether nothing else writes the task meanwhile. *)
Context (alone : Prop).

Abbreviation mid := (mra_MigrationID args).
Abbreviation tid := (mra_TaskID args).
Abbreviation trace := (list (event wanswer)).

(** ** What has been observed *)

(** The migration, if it is there, has ended. *)
Definition ended_in (st : estate) : Prop := ∀ m, mig_at st mid m → isTerminalMigration (mig_Phase m) = true.

(** A row the migration has had; the worker may have filled in the pool. *)
Definition knows (w : world) (m : Migration) : Prop :=
  ∃ st m0, st ∈ states w ∧ mig_at st mid m0 ∧ m = m0 <| mig_TargetPoolName := mig_TargetPoolName m |>.

Definition was_completed (w : world) : Prop :=
  ∃ st m, st ∈ states w ∧ mig_at st mid m ∧ mig_Phase m = MigrationPhaseCompleted.

Definition node_seen (w : world) (id : uuid) (n : Node) : Prop :=
  ∃ st, st ∈ states w ∧ e_val <$> es_map st !! nodeKey id = Some (DNode n).

(** The endpoint of the migration's source, and of its target. *)
Definition at_source (w : world) (ep : string) : Prop :=
  ∃ m id n, knows w m ∧ mig_SourceNodeID m = Some id ∧ node_seen w id n ∧ ep = DialURL (node_Name n).
Definition at_target (w : world) (ep : string) : Prop :=
  ∃ m id n, knows w m ∧ mig_TargetNodeID m = Some id ∧ node_seen w id n ∧ ep = DialURL (node_Name n).

(** The task had no agent task. *)
Definition not_started (w : world) : Prop :=
  ∃ st t, st ∈ states w ∧ task_at st tid t ∧ task_AgentTaskID t = None.

(** *** Answers *)

Definition answered (P : ∀ c, wanswer c → Prop) (tr : trace) : Prop := Exists (λ e, P (ev_call e) (ev_answer e)) tr.

(** An agent reports that the guest is on the target. *)
Definition says_handed_off (c : wcall) : wanswer c → Prop :=
  match c with
  | PollAgentTask _ _ => λ r, match r with Ok t => tt_Status t = "success" | Err _ => False end
  | GetAgentMigration _ _ _ => λ r, r = Ok "completed"
  | _ => λ _, False
  end.

(** The source reports that it aborted: its task, or its record of the migration,
    failed or was cancelled. *)
Definition says_aborted (w : world) (c : wcall) : wanswer c → Prop :=
  match c with
  | PollAgentTask ep _ => λ r, at_source w ep ∧
      match r with Ok t => tt_Status t = "failed" ∨ tt_Status t = "cancelled" | Err _ => False end
  | GetAgentMigration ep _ id => λ r, at_source w ep ∧ id = uuid_string mid ∧ (r = Ok "failed" ∨ r = Ok "cancelled")
  | _ => λ _, False
  end.

(** The source no longer knows its task. *)
Definition says_task_gone (w : world) (c : wcall) : wanswer c → Prop :=
  match c with
  | PollAgentTask ep _ => λ r, at_source w ep ∧
      match r with Err e => isAgentTaskGone e = true | Ok _ => False end
  | _ => λ _, False
  end.

(** The target reports that the guest has not arrived. *)
Definition says_not_arrived (w : world) (c : wcall) : wanswer c → Prop :=
  match c with
  | GetAgentMigration ep _ id => λ r, at_target w ep ∧ id = uuid_string mid ∧
      ∃ p, r = Ok p ∧ p ∈ ["failed"; "cancelled"; "setup"; "active"; "postcopy_active"]
  | _ => λ _, False
  end.

(** The target has announced what the request to the source relays. *)
Definition announces (req : MigrationOutgoingRequest) (c : wcall) : wanswer c → Prop :=
  match c with
  | StartIncomingMigration _ _ _ => λ r,
      ∃ a, r = Ok a ∧ mor_TargetEndpoint req = mip_ListenEndpoint a ∧ mor_AuthToken req = mip_AuthToken a ∧
        mor_NbdEndpoint req = mip_NbdEndpoint a
  | _ => λ _, False
  end.

Definition is_outgoing (c : wcall) : bool := match c with StartOutgoingMigration _ _ _ => true | _ => false end.
Definition no_push (tr : trace) : Prop := Forall (λ e, is_outgoing (ev_call e) = false) tr.

(** Why the guest is known to be with the source: the source said that it aborted;
    or the source lost its task and the migration is offline, or the target, asked
    itself, has not received the guest; or the migration ended in a way that leaves
    the VM where it was. *)
Definition source_keeps (tr : trace) (w : world) : Prop :=
  answered (says_aborted w) tr ∨
  (answered (says_task_gone w) tr ∧
     (answered (says_not_arrived w) tr ∨ ∃ m, knows w m ∧ mig_Live m = false)) ∨
  ∃ m, knows w m ∧ (mig_Phase m = MigrationPhaseFailed ∨ mig_Phase m = MigrationPhaseCancelled ∧ mig_Live m = false).

(** ** What a call requires *)
Definition call_ok (tr : trace) (w : world) (c : wcall) : Prop :=
  match c with
  | DeleteVMOnSource ep _ => was_completed w ∧ at_source w ep
  | StartVMOnTarget ep _ => was_completed w ∧ at_target w ep
  | CancelAgentMigration ep _ id => id = uuid_string mid ∧ at_target w ep ∧ source_keeps tr w
  | StartIncomingMigration ep _ req => mir_MigrationID req = mid ∧ at_target w ep ∧ not_started w
  | StartOutgoingMigration ep _ req =>
      mor_MigrationID req = mid ∧ at_source w ep ∧ not_started w ∧ no_push tr ∧ answered (announces req) tr
  | _ => True
  end.

(** ** The protocol *)

(** Rows stay under their own keys and an ended migration stays ended. *)
Definition worker_env (w w' : world) : Prop :=
  any_env w w' ∧ (rows_wf (w_st w) → rows_wf (w_st w')) ∧ (ended_in (w_st w) → ended_in (w_st w')) ∧
  (alone → es_map (w_st w') !! taskKey tid = es_map (w_st w) !! taskKey tid).

Definition vms_kept (st st' : estate) : Prop := ∀ vm, es_map st' !! vmKey vm = es_map st !! vmKey vm.

Definition worker_inv (w : world) : Prop := estate_wf (w_st w) ∧ ∀ st, st ∈ states w → rows_wf st.

(** The worker's own steps change a VM only once an agent has reported the handoff. *)
Definition worker_protocol (tr : trace) : protocol := {|
  pr_inv := worker_inv;
  pr_rely := worker_env;
  pr_guar w w' := any_env w w' ∧ (rows_wf (w_st w) → rows_wf (w_st w')) ∧
    (answered says_handed_off tr ∨ vms_kept (w_st w) (w_st w'));
  pr_ownable _ _ := False
|}.

Lemma worker_inv_step w w' :
  worker_inv w → any_env w w' → (rows_wf (w_st w) → rows_wf (w_st w')) → worker_inv w'.
Proof.
  intros [Hwf Hrows] (He & _ & Hst) Hk. split; [by eapply estep_wf|].
  intros st [->|Hin]%Hst; [|by apply Hrows]. apply Hk, Hrows. by left.
Qed.

#[export] Instance worker_protocol_laws tr : EtcdProtocol (worker_protocol tr).
Proof.
  split; [split|..]; simpl.
  - intros w w' Hs. pose proof Hs as (E & _). split_and!; [by apply any_env_same|by rewrite E|right; intros vm; by rewrite E].
  - intros w w' Hi (He & Hk & _). by eapply worker_inv_step.
  - intros w w' Hi (He & Hk & _). by eapply worker_inv_step.
  - done.
  - by intros w [? _].
  - by intros w w' [? _].
Qed.

(** ** Time passes *)

Record later (w w' : world) : Prop := {
  lt_inv : worker_inv w';
  lt_states : states w ⊆ states w';
  lt_ended : ended_in (w_st w) → ended_in (w_st w');
  lt_task : alone → es_map (w_st w') !! taskKey tid = es_map (w_st w) !! taskKey tid
}.

(** As [later], after steps of the worker as well. *)
Record moved (w w' : world) : Prop := {
  mv_inv : worker_inv w';
  mv_states : states w ⊆ states w'
}.

Lemma later_refl w : worker_inv w → later w w.
Proof. intros Hi. by constructor. Qed.

Lemma later_trans w1 w2 w3 : later w1 w2 → later w2 w3 → later w1 w3.
Proof.
  intros [I2 S2 E2 T2] [I3 S3 E3 T3]. constructor; [done|by etrans|auto|]. intros Ha. rewrite T3, T2; done.
Qed.

Lemma later_moved w w' : later w w' → moved w w'.
Proof. by intros []. Qed.

Lemma moved_trans w1 w2 w3 : moved w1 w2 → moved w2 w3 → moved w1 w3.
Proof. intros [] []. constructor; [done|by etrans]. Qed.

Lemma env_later w w' : worker_inv w → worker_env w w' → later w w'.
Proof.
  intros Hi (He & Hk & Hend & Ht). constructor; [by eapply worker_inv_step| |done|done].
  intros st Hst. apply He. by right.
Qed.

Lemma reaches_later tr w w1 : worker_inv w → reaches (worker_protocol tr) ∅ w w1 → later w w1.
Proof.
  intros Hi (Hr & _ & _). induction Hr as [|a b c [Hab _] _ IH]; [by apply later_refl|].
  pose proof (env_later a b Hi Hab) as Hl. eapply later_trans; [done|]. apply IH, Hl.
Qed.

Lemma settled_later tr w w' : worker_inv w → settled (worker_protocol tr) ∅ w w' → later w w'.
Proof.
  intros Hi (w1 & Hr & Hs). apply reaches_later in Hr as [I1 S1 E1 T1]; [|done].
  pose proof (any_env_same _ _ Hs) as He. destruct Hs as (E & _). constructor.
  - eapply worker_inv_step; [done|done|by rewrite E].
  - etrans; [done|]. intros st Hst. apply He. by right.
  - by rewrite E.
  - by rewrite E.
Qed.

(** What was observed stays observed. *)
Lemma knows_states w w' m : states w ⊆ states w' → knows w m → knows w' m.
Proof. intros Hs (st & m0 & Hst & ?). exists st, m0. split; [by apply Hs|done]. Qed.

Lemma knows_at w m : mig_at (w_st w) mid m → knows w m.
Proof. intros Hm. exists (w_st w), m. split_and!; [by left|done|by destruct m]. Qed.

Lemma knows_pool w m pool : knows w m → knows w (m <| mig_TargetPoolName := pool |>).
Proof. intros (st & m0 & Hst & Hm & ->). by exists st, m0. Qed.

Lemma knows_ID w m : worker_inv w → knows w m → mig_ID m = mid.
Proof.
  intros [_ Hrows] (st & m0 & Hst & Hm & ->). simpl. unfold mig_at in Hm.
  destruct (es_map st !! migrationKey mid) as [e|] eqn:He; [|done]. simpl in Hm. injection Hm as Hm.
  eapply migration_at; [by apply rows_wf_migrations, Hrows|done|done].
Qed.

Lemma node_seen_states w w' id n : states w ⊆ states w' → node_seen w id n → node_seen w' id n.
Proof. intros Hs (st & Hst & ?). exists st. split; [by apply Hs|done]. Qed.

Lemma was_completed_states w w' : states w ⊆ states w' → was_completed w → was_completed w'.
Proof. intros Hs (st & m & Hst & ?). exists st, m. split; [by apply Hs|done]. Qed.

Lemma not_started_states w w' : states w ⊆ states w' → not_started w → not_started w'.
Proof. intros Hs (st & t & Hst & ?). exists st, t. split; [by apply Hs|done]. Qed.

Lemma answered_app P tr tr' : answered P tr → answered P (tr ++ tr').
Proof. intros Ha. apply Exists_app. by left. Qed.

Lemma answered_more P tr l : answered P tr → answered P (tr ++ l).
Proof. intros Hp. apply Exists_app. by left. Qed.

Lemma answered_last P tr c r : P c r → answered P (tr ++ [Event c r]).
Proof. intros Hr. apply Exists_app. right. by constructor. Qed.

Lemma no_push_snoc tr c r : no_push tr → is_outgoing c = false → no_push (tr ++ [Event c r]).
Proof. intros Htr Hc. apply Forall_app. split; [done|]. by constructor. Qed.

(** ** Workers *)

Abbreviation safe := (awp worker_protocol call_ok).

Lemma step_bind {A B} (m : W A) (f : A → W B) tr Q w :
  safe m tr (λ r tr w, match r with Ok a => safe (f a) tr Q w | Err e => Q (Err e) tr w end) w →
  safe (m ≫= f) tr Q w.
Proof. intros Hm. apply awp_bind. eapply awp_mono; [|exact Hm]. by intros []. Qed.

Lemma safe_attempt {A B} (m : W A) (f : result werr A → W B) tr Q w :
  safe m tr (λ r tr w, safe (f r) tr Q w) w → safe (attemptW m ≫= f) tr Q w.
Proof. intros Hm. apply step_bind, awp_bind. by eapply awp_mono; [|exact Hm]. Qed.

Lemma safe_ask {B} c (f : wanswer c → W B) tr Q w :
  worker_inv w → (∀ w1, later w w1 → call_ok tr w1 c ∧ ∀ r, safe (f r) (tr ++ [Event c r]) Q w1) →
  safe (ask c ≫= f) tr Q w.
Proof. intros Hi Hf w1 Hw1. apply Hf. by eapply reaches_later. Qed.

(** A call that anyone may make. *)
Lemma safe_ask_any {B} c (f : wanswer c → W B) tr Q w :
  worker_inv w → (∀ tr w, call_ok tr w c) → (∀ w1 r, later w w1 → safe (f r) (tr ++ [Event c r]) Q w1) →
  safe (ask c ≫= f) tr Q w.
Proof. intros Hi Hc Hf. apply safe_ask; [done|]. intros w1 Hw1. split; [by apply Hc|]. intros r. by apply Hf. Qed.

Lemma safe_store {A B} (p : M A) (f : result err A → W B) tr Q w :
  wp (worker_protocol tr) p ∅ (λ r _ w', safe (f r) tr Q w') w → safe (store p ≫= f) tr Q w.
Proof. done. Qed.

Lemma safe_must {A B} what (p : M A) (f : A → W B) tr Q w :
  wp (worker_protocol tr) p ∅
    (λ r _ w', match r with
               | Ok a => safe (f a) tr Q w'
               | Err e => Q (Err (WText (what +:+ ": " +:+ err_text e))) tr w'
               end) w →
  safe (must what p ≫= f) tr Q w.
Proof. intros Hp. apply step_bind, safe_store. eapply wp_mono; [|exact Hp]. by intros []. Qed.

(** ** Methods of the store *)

(** A settled task stays settled where its row does. *)
Lemma settled_task_keep w w' :
  es_map (w_st w') !! taskKey tid = es_map (w_st w) !! taskKey tid →
  settled_task (w_st w) tid → settled_task (w_st w') tid.
Proof. intros E (t & Ht & He). exists t. split; [|done]. unfold task_at. by rewrite E. Qed.

(** Kinds of keys whose writes no rule of the protocol is about. *)
Definition beside (fs : list family) : Prop := (FMigration ∉ fs) ∧ (FVM ∉ fs) ∧ (FVMRuntime ∉ fs).

Lemma rows_wf_beside fs st st' :
  beside fs → (∀ k, ¬ key_in fs k → es_map st' !! k = es_map st !! k) → rows_wf st → rows_wf st'.
Proof.
  intros (Hm & Hv & Hr) Hk (Wm & Wv & Wr).
  assert (∀ k f, key_family k = Some f → f ∉ fs → es_map st' !! k = es_map st !! k) as Hk'.
  { intros k f Hf Hnot. apply Hk. unfold key_in. by rewrite Hf. }
  split_and!; intros k e x He Hf Hx; (rewrite (Hk' k _ Hf) in He by done); eauto.
Qed.

Lemma beside_frame fs tr : beside fs → Frame (worker_protocol tr) fs.
Proof.
  intros Hfs. split; [|done]. intros w w' Hi He Hk. split_and!; [done|by apply (rows_wf_beside fs)|].
  right. intros vm. apply Hk. unfold key_in, key_family. rewrite class_vmKey. by destruct Hfs as (_ & ? & _).
Qed.

(** A program that writes other kinds of keys. *)
Lemma wp_beside fs (R : Prop) {A} (P : A → Prop) (p : prog A) tr w :
  beside fs → writes fs p → returns P p → worker_inv w → (FTask ∉ fs → alone → R → settled_task (w_st w) tid) →
  wp (worker_protocol tr) p ∅
    (λ r _ w', P r ∧ moved w w' ∧ (FTask ∉ fs → alone → R → settled_task (w_st w') tid)) w.
Proof.
  intros Hfs Hp HP Hi HR. pose proof (beside_frame fs tr Hfs).
  eapply wp_mono; [|apply (wp_frame_keep (worker_protocol tr) fs
    (λ w', states w ⊆ states w' ∧ (FTask ∉ fs → alone → R → settled_task (w_st w') tid)) P); try done].
  - intros r O w' (_ & Hr & Hi' & Hst & Ht). split_and!; [done|by constructor|done].
  - intros w1 w2 Hi1 Henv [Hs Ht]. pose proof (env_later w1 w2 Hi1 Henv) as [_ S2 _ T2].
    split; [by etrans|]. intros Hnot Ha HR'. eapply settled_task_keep; [by apply T2|by apply Ht].
  - intros w1 w2 Hi1 He Hk [Hs Ht]. split; [etrans; [done|]; intros st Hst; apply He; by right|].
    intros Hnot Ha HR'. eapply settled_task_keep; [|by apply Ht]. apply Hk.
    unfold key_in, key_family. by rewrite class_taskKey.
Qed.

(** A migration's write, from the rules of migrations. *)
Lemma wp_rows G (R : Prop) {A} (Q : A → world → Prop) (p : prog A) tr w :
  (∀ st st', G st st' → answered says_handed_off tr ∨ vms_kept st st') →
  (∀ st st', G st st' → es_map st' !! taskKey tid = es_map st !! taskKey tid) →
  worker_inv w → (alone → R → settled_task (w_st w) tid) →
  wp (inv_protocol rows_wf (λ st st', rows_wf st' ∧ G st st')) p ∅ (λ r _ w', Q r w') w →
  wp (worker_protocol tr) p ∅ (λ r _ w', Q r w' ∧ moved w w' ∧ (alone → R → settled_task (w_st w') tid)) w.
Proof.
  intros Hvm Htask Hi HR Hwp.
  assert (moved w w) as Hm0 by by constructor. revert Hm0 HR Hi Hwp. generalize w at 1 6 as w0. revert w.
  set (ip := inv_protocol _ _).
  assert (∀ w w1, worker_inv w → reaches (worker_protocol tr) ∅ w w1 → reaches ip ∅ w w1) as Hreach.
  { intros w w1 Hi (Hr & Hi1 & _). split_and!; [|split; [apply Hi1|apply Hi1; by left]|set_solver].
    eapply rtc_subrel; [|exact Hr]. intros a b [(He & Hk & _) _]. split; [done|set_solver]. }
  assert (∀ O' w0 w1 w2, worker_inv w1 → moved w0 w1 → (alone → R → settled_task (w_st w1) tid) → own_step ip ∅ O' w1 w2 →
    O' = ∅ ∧ own_step (worker_protocol tr) ∅ ∅ w1 w2 ∧ worker_inv w2 ∧ moved w0 w2 ∧
    (alone → R → settled_task (w_st w2) tid)) as Hstep.
  { intros O' w0 w1 w2 Hi Hm HR ((He & Hk & Hg) & _ & Hgain).
    assert (worker_inv w2) as Hi2 by by eapply worker_inv_step.
    split_and!; [| |done| |].
    - apply elem_of_equiv_empty_L. intros k Hin. destruct (Hgain k Hin) as [_ [?|[[] _]]]. set_solver.
    - split_and!; [split_and!; [done|done|]|by intros ?|set_solver].
      destruct Hg as [E|[_ Hg]]; [right; intros vm; by rewrite E|by apply Hvm].
    - destruct Hm as [_ Hs]. constructor; [done|]. etrans; [done|]. intros st Hst. apply He. by right.
    - intros Ha HR'. eapply settled_task_keep; [|by apply HR]. destruct Hg as [->|[_ Hg]]; [done|by apply Htask]. }
  assert (∀ w0 w w1, worker_inv w → moved w0 w → (alone → R → settled_task (w_st w) tid) →
    reaches (worker_protocol tr) ∅ w w1 →
    worker_inv w1 ∧ moved w0 w1 ∧ (alone → R → settled_task (w_st w1) tid)) as Hlater.
  { intros w0 w w1 Hi Hm HR Hr. apply reaches_later in Hr as [I1 S1 E1 T1]; [|done]. split_and!; [done| |].
    - destruct Hm as [_ Hs]. constructor; [done|by etrans].
    - intros Ha HR'. eapply settled_task_keep; [by apply T1|by apply HR]. }
  induction p as [r|rq k IH|k IH|k IH]; intros w w0 Hm HR Hi; simpl; [by intros HQ; split_and!|..].
  - intros Hwp w1 Hw1. destruct (Hlater w0 w w1 Hi Hm HR Hw1) as (Hi1 & Hm1 & HR1).
    destruct (Hwp w1 (Hreach _ _ Hi Hw1)) as [Hn Hs]. split; [by apply IH|]. intros st r Hexec.
    destruct (Hs st r Hexec) as [(O1 & S1 & W1) (O2 & S2 & W2)].
    destruct (Hstep O1 w0 _ _ Hi1 Hm1 HR1 S1) as (-> & S1' & Hi2 & Hm2 & HR2).
    destruct (Hstep O2 w0 _ _ Hi1 Hm1 HR1 S2) as (-> & S2' & _). split; exists ∅; (split; [done|]); by apply IH.
  - intros Hwp w1 t Hw1. destruct (Hlater w0 w w1 Hi Hm HR Hw1) as (Hi1 & Hm1 & HR1).
    apply IH; [done|done|done|]. by apply Hwp, Hreach.
  - intros Hwp w1 u Hw1 Hu. destruct (Hlater w0 w w1 Hi Hm HR Hw1) as (Hi1 & Hm1 & HR1).
    destruct (Hwp w1 u (Hreach _ _ Hi Hw1) Hu) as (O' & S & W'). exists ∅.
    destruct (Hstep O' w0 _ _ Hi1 Hm1 HR1 S) as (-> & S' & Hi2 & Hm2 & HR2). split; [done|]. by apply IH.
Qed.

(** The protocol owns nothing. *)
Lemma wp_owns_none {A} (p : prog A) Q tr w :
  wp (worker_protocol tr) p ∅ Q w → wp (worker_protocol tr) p ∅ (λ r O w', O = ∅ ∧ Q r ∅ w') w.
Proof.
  assert (∀ O' w1 w2, own_step (worker_protocol tr) ∅ O' w1 w2 → O' = ∅) as Hnone.
  { intros O' w1 w2 (_ & _ & Hgain). apply elem_of_equiv_empty_L. intros k Hk.
    destruct (Hgain k Hk) as [_ [?|[[] _]]]. set_solver. }
  revert w. induction p as [r|rq k IH|k IH|k IH]; intros w; simpl; [done|..].
  - intros Hwp w1 Hw1. destruct (Hwp w1 Hw1) as [Hn Hs]. split; [by apply IH|]. intros st r Hexec.
    destruct (Hs st r Hexec) as [(O1 & S1 & W1) (O2 & S2 & W2)].
    pose proof (Hnone _ _ _ S1) as ->. pose proof (Hnone _ _ _ S2) as ->. eauto 10.
  - intros Hwp w1 t Hw1. by apply IH, Hwp.
  - intros Hwp w1 u Hw1 Hu. destruct (Hwp w1 u Hw1 Hu) as (O' & S & W'). pose proof (Hnone _ _ _ S) as ->. eauto.
Qed.

(** *** Reads *)

Lemma wp_MigrationByID tr w :
  worker_inv w →
  wp (worker_protocol tr) (MigrationByID mid) ∅
    (λ r _ w', later w w' ∧ match r with Ok m => mig_at (w_st w') mid m | Err _ => True end) w.
Proof.
  intros Hi. apply wp_bindM, (wp_GetJSON (worker_protocol tr)).
  - intros w2 e Hw2. split; [by eapply settled_later|done].
  - intros w2 Hw2 _. split; [by eapply settled_later|done].
  - intros w2 e m Hw2 Hk He. split; [by eapply settled_later|]. unfold mig_at. fold (w_map w2). rewrite Hk. simpl. by rewrite He.
Qed.

Lemma wp_NodeByID id tr w :
  worker_inv w →
  wp (worker_protocol tr) (NodeByID id) ∅
    (λ r _ w', later w w' ∧ match r with Ok n => node_seen w' id n | Err _ => True end) w.
Proof.
  intros Hi. apply wp_bindM, (wp_GetJSON (worker_protocol tr)).
  - intros w2 e Hw2. split; [by eapply settled_later|done].
  - intros w2 Hw2 _. split; [by eapply settled_later|done].
  - intros w2 e n Hw2 Hk He. case_bool_decide; (split; [by eapply settled_later|]); [|done].
    exists (w_st w2). split; [by left|]. fold (w_map w2). rewrite Hk. simpl. by rewrite He.
Qed.

Lemma wp_TaskByID tr w :
  worker_inv w →
  wp (worker_protocol tr) (TaskByID tid) ∅
    (λ r _ w', later w w' ∧ match r with Ok t => task_at (w_st w') tid t | Err _ => True end) w.
Proof.
  intros Hi. apply wp_bindM, (wp_GetJSON (worker_protocol tr)).
  - intros w2 e Hw2. split; [by eapply settled_later|done].
  - intros w2 Hw2 _. split; [by eapply settled_later|done].
  - intros w2 e t Hw2 Hk He. split; [by eapply settled_later|]. unfold task_at. fold (w_map w2). rewrite Hk. simpl. by rewrite He.
Qed.

(** A read of rows the protocol is not about. *)
Lemma wp_reader (R : Prop) {A} (p : M A) tr w :
  writes [] p → worker_inv w → (alone → R → settled_task (w_st w) tid) →
  wp (worker_protocol tr) p ∅ (λ _ _ w', moved w w' ∧ (alone → R → settled_task (w_st w') tid)) w.
Proof.
  intros Hp Hi HR. eapply wp_mono; [|apply (wp_beside [] R (λ _, True)); [|done|apply returns_True|done|done]].
  - intros r O w' (_ & Hm & Ht). split; [done|]. apply Ht. set_solver.
  - split_and!; set_solver.
Qed.

(** *** Writes of the migration *)

Lemma mig_step_kept fs P st st' :
  fs ⊆ update_families → mig_step fs mid P st st' →
  vms_kept st st' ∧ es_map st' !! taskKey tid = es_map st !! taskKey tid.
Proof.
  intros Hfs [Hk _]. assert (∀ k f, key_family k = Some f → f ∉ update_families → k ≠ migrationKey mid →
    es_map st' !! k = es_map st !! k) as Hk'.
  { intros k f Hf Hnot Hne. apply Hk; [|done]. unfold key_in. rewrite Hf. set_solver. }
  split; [intros vm|]; (eapply Hk'; [unfold key_family; autorewrite with keys; reflexivity|unfold update_families; set_solver|key_neq]).
Qed.

Lemma wp_UpdateMigrationProgress (R : Prop) upd tr w :
  worker_inv w → (alone → R → settled_task (w_st w) tid) →
  wp (worker_protocol tr) (UpdateMigrationProgress mid upd) ∅
    (λ _ _ w', moved w w' ∧ (alone → R → settled_task (w_st w') tid)) w.
Proof.
  intros Hi HR. eapply wp_mono; [|apply (wp_rows (updates mid upd) R (λ _ _, True)); [| |done|done|apply UpdateMigrationProgress_wp; [apply rows_wf_migrations|apply rows_wf_update]]].
  - by intros r O w' (_ & Hm & Ht).
  - intros st st' Hg. right. by eapply mig_step_kept.
  - intros st st' Hg. by eapply mig_step_kept.
Qed.

Lemma wp_UpdateMigrationStats (R : Prop) stats tr w :
  worker_inv w → (alone → R → settled_task (w_st w) tid) →
  wp (worker_protocol tr) (UpdateMigrationStats mid stats) ∅
    (λ _ _ w', moved w w' ∧ (alone → R → settled_task (w_st w') tid)) w.
Proof.
  intros Hi HR. eapply wp_mono; [|apply (wp_rows (annotates mid) R (λ _ _, True)); [| |done|done|apply UpdateMigrationStats_wp; [apply rows_wf_migrations|apply rows_wf_update]]].
  - by intros r O w' (_ & Hm & Ht).
  - intros st st' Hg. right. eapply mig_step_kept; [|done]. set_solver.
  - intros st st' Hg. eapply mig_step_kept; [|done]. set_solver.
Qed.

Lemma wp_BindMigrationTarget ctx target pool tr w :
  worker_inv w →
  wp (worker_protocol tr) (BindMigrationTarget ctx mid target pool) ∅
    (λ r _ w', moved w w' ∧ (r = Err ErrMigrationTerminal → ended_in (w_st w'))) w.
Proof.
  intros Hi. eapply wp_mono; [|apply (wp_rows (binds mid target) False); [| |done|done|apply BindMigrationTarget_refuses; [apply rows_wf_migrations|apply rows_wf_update]]].
  - intros r O w' (Hend & Hm & _). split; [done|]. intros Hr. destruct (Hend Hr) as (m & Hat & Hterm).
    intros m' Hat'. unfold mig_at in *. congruence.
  - intros st st' Hg. right. by eapply mig_step_kept.
  - intros st st' Hg. by eapply mig_step_kept.
Qed.

Lemma cutover_task id st st' : cutover_step id st st' → es_map st' !! taskKey tid = es_map st !! taskKey tid.
Proof. intros (em & m & ev & vm & target & t & _ & _ & _ & _ & _ & _ & _ & Hk). apply Hk; [key_neq..|]. unfold cutover_indexes. key_in_solve. Qed.

Lemma wp_CommitMigrationCutover tr w :
  worker_inv w → answered says_handed_off tr →
  wp (worker_protocol tr) (CommitMigrationCutover mid) ∅
    (λ r _ w', moved w w' ∧ (r = Ok tt → was_completed w')) w.
Proof.
  intros Hi Htr. eapply wp_mono; [|apply (wp_rows (cutover_step mid) False); [by left|intros; by eapply cutover_task|done|done
    |apply CommitMigrationCutover_completes]].
  intros r O w' (Hc & Hm & _). split; [done|]. intros Hr. destruct (Hc Hr) as (m & Hat & Hp).
  exists (w_st w'), m. split; [by left|done].
Qed.

(** *** Writes of the task *)

Lemma wp_put_task t tr w :
  worker_inv w →
  wp (worker_protocol tr) (PutJSON (taskKey tid) t) ∅
    (λ r _ w', moved w w' ∧ match r with Ok _ => task_at (w_st w') tid t | Err _ => True end) w.
Proof.
  intros Hi. unfold PutJSON, Put, capValue. case_match; [split; [by constructor|done]|].
  set (ops := [OpPut (taskKey tid) (encode_doc t)]). change (wp (worker_protocol tr) (raw_txn [] ops [] ≫= λ _, mret tt) ∅
    (λ r _ w', moved w w' ∧ match r with Ok _ => task_at (w_st w') tid t | Err _ => True end) w).
  apply wp_bindM, (wp_raw_txn (worker_protocol tr)); [|done|].
  { intros w2 Hw2. split; [|done]. by eapply later_moved, settled_later. }
  intros w1 Hw1 _ _ Hmax. exists ∅. pose proof (any_env_applied w1 ops Hmax) as He.
  assert (∀ k, ¬ key_in [FTask] k → w_map (applied w1 ops) !! k = w_map w1 !! k) as Hk.
  { intros k Hk. unfold ops. rewrite applied_put, lookup_insert_ne; [done|]. intros <-. apply Hk. key_in_solve. }
  assert (beside [FTask]) as Hfs by (split_and!; set_solver).
  assert (own_step (worker_protocol tr) ∅ ∅ w1 (applied w1 ops)) as Hown.
  { pose proof (beside_frame [FTask] tr Hfs). apply (own_step_frame (worker_protocol tr) [FTask]); [set_solver..| |done|done].
    by destruct Hw1 as (_ & ? & _). }
  assert (moved w (applied w1 ops)) as Hm.
  { eapply moved_trans; [by eapply later_moved, reaches_later|]. destruct Hw1 as (_ & Hi1 & _). constructor.
    - eapply worker_inv_step; [done|done|]. by apply (rows_wf_beside [FTask]).
    - intros st Hst. apply He. by right. }
  split; [done|]. split; [by split|]. intros rev rs. split; [done|]. unfold task_at, ops.
  fold (w_map (applied w1 [OpPut (taskKey tid) (encode_doc t)])). rewrite applied_put. by rewrite lookup_insert_eq.
Qed.

Lemma wp_UpdateTaskFinalized arg tr w :
  utf_ID arg = tid → in_flight (utf_Status arg) = false → worker_inv w →
  wp (worker_protocol tr) (UpdateTaskFinalized arg) ∅
    (λ r _ w', moved w w' ∧ match r with Ok _ => settled_task (w_st w') tid | Err _ => True end) w.
Proof.
  intros Hid Hs Hi. unfold UpdateTaskFinalized, updateTask. rewrite Hid. apply wp_bindM.
  eapply wp_mono; [|by apply wp_owns_none, wp_TaskByID]. intros [t|e] O w1 (-> & Hl & _); [|split; [by apply later_moved|done]].
  apply wp_bindM. eapply wp_mono; [|apply wp_owns_none, (wp_beside [] False (on_ok (λ t, in_flight (task_Status t) = false)));
    [split_and!; set_solver|done| |apply Hl|done]]; [|apply returns_bindM, returns_any; by intros n].
  intros [t'|e] O' w2 (-> & Ht' & Hm & _); [|split; [by eapply moved_trans; [apply later_moved|]|done]].
  eapply wp_mono; [|apply wp_put_task, Hm]. intros [u|e] O2 w3 [Hm3 Hat];
    (split; [by eapply moved_trans; [apply later_moved|eapply moved_trans]|]); [|done]. by exists t'.
Qed.

Lemma wp_task_running tr w :
  worker_inv w →
  wp (worker_protocol tr) (UpdateTaskRunning tid) ∅
    (λ r _ w', moved w w' ∧ (r = Ok true → settled_task (w_st w') tid)) w.
Proof.
  intros Hi. unfold UpdateTaskRunning. apply wp_bindM.
  eapply wp_mono; [|by apply wp_owns_none, wp_TaskByID]. intros [t|e] O w1 (-> & Hl & Ht); [|split; [by apply later_moved|done]].
  destruct (isCommittedTerminal (task_Status t)) eqn:Hc.
  { apply wp_mret. split; [by apply later_moved|]. intros _. exists t. split; [done|]. by destruct (task_Status t). }
  eapply wp_mono; [|apply (wp_beside [FTask] False (on_ok (eq false)));
    [split_and!; set_solver|cbv zeta; writes_solve| |apply Hl|done]].
  - intros r O' w2 (Hr & Hm & _). split; [by eapply moved_trans; [apply later_moved|]|]. intros ->. simpl in Hr. done.
  - cbv zeta. apply returns_bindM, returns_any. intros t'. apply returns_bindM, returns_any. done.
Qed.

Lemma wp_UpdateTaskAgentTaskID a tr w :
  worker_inv w →
  wp (worker_protocol tr) (UpdateTaskAgentTaskID (MkUpdateTaskAgentTaskIDParams tid a)) ∅ (λ _ _ w', moved w w') w.
Proof.
  intros Hi. eapply wp_mono; [|apply (wp_beside [FTask] False (λ _, True));
    [split_and!; set_solver|apply UpdateTaskAgentTaskID_writes|apply returns_True|done|done]].
  by intros r O w' (_ & Hm & _).
Qed.
End Protocol.
