(* ===== verification/MigrationWorkerProps.v ===== *)
(** * The migration worker: what a run does

    Whatever the agents answer and whatever other programs do to rows that stay under
    their own keys: a copy of the VM is deleted or started only once the migration was
    completed, the target's incoming side is torn down only where the source is known
    to keep the guest, the VM is re-pinned only after an agent reported the handoff,
    and a run that returns nil has settled the task. *)

From S2P Require Import Prelude Models Etcd Prog Keys Client Rules Footprint Guards Footprints.
From S2P Require Import Jobs Tasks Nodes Migrations MigrationProps VMs Placement VMWorkers VMWorkerProps Workers MigrationWorker.
From S2P Require Import MigrationWorkerRules.
Local Open Scope Z_scope.

Section Props.
Context `{Etcd, !EtcdLaws, !Libs, !LibsLaws, WorkerLibs} (args : MigrationRunArgs) (alone : Prop).

Abbreviation mid := (mra_MigrationID args).
Abbreviation tid := (mra_TaskID args).
Abbreviation safe := (awp (worker_protocol args alone) (call_ok args)).
Abbreviation trace := (list (event wanswer)).
Abbreviation pr := (worker_protocol args alone).
Abbreviation moved := (MigrationWorkerRules.moved).
Abbreviation later := (MigrationWorkerRules.later args alone).
Abbreviation knows := (MigrationWorkerRules.knows args).
Abbreviation task_done w := (settled_task (w_st w) tid).

(** A run that returns nil has settled the task. *)
Definition concluded (r : result werr unit) (_ : trace) (w : world) : Prop :=
  match r with Ok _ => alone → task_done w | Err _ => True end.

(** ** Outcomes *)

Lemma safe_finalizeFailed code cause tr w : worker_inv w → safe (finalizeFailed tid code cause) tr concluded w.
Proof.
  intros Hi. unfold finalizeFailed. apply safe_store.
  eapply wp_mono; [|by apply wp_UpdateTaskFinalized]. intros [u|e] O w' [Hm Hs]; [by intros _|done].
Qed.

Lemma safe_failTask {A} code text tr (Q : result werr A → trace → world → Prop) w :
  worker_inv w → (∀ text w', moved w w' → Q (Err (WText text)) tr w') →
  safe (failTask tid code (WText text)) tr Q w.
Proof.
  intros Hi HQ. unfold failTask, finalizeFailed. apply step_bind, safe_store.
  eapply wp_mono; [|by apply wp_UpdateTaskFinalized]. intros [u|e] O w' [Hm Hs]; simpl; auto.
Qed.

Lemma safe_failTask_any code cause tr w : worker_inv w → safe (failTask tid code cause) tr concluded w.
Proof.
  intros Hi. unfold failTask, finalizeFailed. apply step_bind, safe_store.
  eapply wp_mono; [|by apply wp_UpdateTaskFinalized]. intros [u|e] O w' [Hm Hs]; done.
Qed.

Lemma safe_finalize_or_fail what status code msg tr w :
  in_flight status = false → worker_inv w → safe (finalize_or_fail what tid status code msg) tr concluded w.
Proof.
  intros Hs Hi. unfold finalize_or_fail, finalizeTask. apply safe_store.
  eapply wp_mono; [|by apply wp_UpdateTaskFinalized]. intros [u|e] O w' [Hm Hd]; [by intros _|done].
Qed.

Lemma safe_failMigration terminal tr w : worker_inv w → safe (failMigration tid mid terminal) tr concluded w.
Proof.
  intros Hi. unfold failMigration. destruct (match tt_Error terminal with Some _ => _ | None => _ end) as [code msg].
  apply safe_store. eapply wp_mono; [|by apply (wp_UpdateMigrationProgress args alone False)].
  intros [u|e] O w' [Hm _]; [|done]. apply safe_finalizeFailed, Hm.
Qed.

Lemma safe_failSetup e tr w : worker_inv w → safe (failSetup tid mid e) tr concluded w.
Proof.
  intros Hi. unfold failSetup. destruct (errors_As_AgentError e) as [[[status code] message]|]; [|by apply safe_failTask_any].
  case_match; [by apply safe_failMigration|by apply safe_failTask_any].
Qed.

Lemma safe_advancePhase phase tr (Q : result werr unit → trace → world → Prop) w :
  worker_inv w → (∀ w', moved w w' → Q (Ok tt) tr w') → safe (advancePhase mid phase) tr Q w.
Proof.
  intros Hi HQ. unfold advancePhase. apply safe_store.
  eapply wp_mono; [|by apply (wp_UpdateMigrationProgress args alone False)]. intros r O w' [Hm _]. by apply HQ.
Qed.

Lemma safe_recordPending {A} reason cause tr (Q : result werr A → trace → world → Prop) w :
  worker_inv w → (∀ text w', moved w w' → Q (Err (WText text)) tr w') → safe (recordPending mid reason cause) tr Q w.
Proof.
  intros Hi HQ. unfold recordPending. apply safe_store, (wp_now (pr tr)). intros w1 t Hw1.
  apply settled_later in Hw1; [|done]. apply safe_store.
  eapply wp_mono; [|apply (wp_UpdateMigrationProgress args alone False); [apply Hw1|done]].
  intros [u|e] O w' [Hm _]; apply HQ; (eapply moved_trans; [by eapply later_moved|done]).
Qed.

(** ** Reads *)

Lemma VMByID_reads id : writes [] (VMByID id).
Proof. unfold VMByID. writes_solve. Qed.
Lemma NetworkByID_reads id : writes [] (NetworkByID id).
Proof. unfold NetworkByID. writes_solve. Qed.
Lemma StoragePoolByID_reads id : writes [] (StoragePoolByID id).
Proof. unfold StoragePoolByID. writes_solve. Qed.
Lemma StoragePoolsByName_reads name : writes [] (StoragePoolsByName name).
Proof. unfold StoragePoolsByName, StoragePoolByID. writes_solve. Qed.
Lemma ListVMDisksByVM_reads id : writes [] (ListVMDisksByVM id).
Proof. unfold ListVMDisksByVM, disksOfVM. writes_solve. Qed.
Lemma ListVMNicsByVM_reads id : writes [] (ListVMNicsByVM id).
Proof. unfold ListVMNicsByVM. writes_solve. Qed.
Lemma AbandonedOfflineMigrations_reads vm target exclude : writes [] (AbandonedOfflineMigrations vm target exclude).
Proof. unfold AbandonedOfflineMigrations. writes_solve. Qed.

(** ** The target's incoming side *)

Lemma at_source_states w w' ep : states w ⊆ states w' → at_source args w ep → at_source args w' ep.
Proof.
  intros Hs (m & id & n & ? & ? & ? & ?). exists m, id, n.
  split_and!; [by eapply knows_states|done|by eapply node_seen_states|done].
Qed.

Lemma at_target_states w w' ep : states w ⊆ states w' → at_target args w ep → at_target args w' ep.
Proof.
  intros Hs (m & id & n & ? & ? & ? & ?). exists m, id, n.
  split_and!; [by eapply knows_states|done|by eapply node_seen_states|done].
Qed.

Lemma answered_mono (P P' : ∀ c, wanswer c → Prop) tr :
  (∀ c r, P c r → P' c r) → answered P tr → answered P' tr.
Proof. intros HP Hp. eapply Exists_impl; [exact Hp|]. intros [c r]. apply HP. Qed.

Lemma task_gone_states tr w w' :
  states w ⊆ states w' → answered (says_task_gone args w) tr → answered (says_task_gone args w') tr.
Proof. intros Hs. apply answered_mono. intros [] r; try done. intros [? ?]. split; [by eapply at_source_states|done]. Qed.

Lemma source_keeps_states tr w w' : states w ⊆ states w' → source_keeps args tr w → source_keeps args tr w'.
Proof.
  intros Hs [Ha|[[Hg Hk]|(m & Hm & ?)]].
  - left. revert Ha. apply answered_mono. intros [] r; try done; intros [? ?]; (split; [by eapply at_source_states|done]).
  - right. left. split; [by eapply task_gone_states|]. destruct Hk as [Ha|(m & Hm & ?)].
    + left. revert Ha. apply answered_mono. intros [] r; try done. intros [? ?]. split; [by eapply at_target_states|done].
    + right. exists m. split; [by eapply knows_states|done].
  - right. right. exists m. split; [by eapply knows_states|done].
Qed.

Lemma safe_cancelTargetIncoming m vm target targetID tr Q w :
  worker_inv w → knows w m → mig_TargetNodeID m = Some targetID → node_seen w targetID target → source_keeps args tr w →
  (∀ tr' w', moved w w' → Q (Ok tt) tr' w') → safe (cancelTargetIncoming m vm target) tr Q w.
Proof.
  intros Hi Hm Ht Hn Hk HQ. unfold cancelTargetIncoming. rewrite Ht. apply safe_ask; [done|]. intros w1 Hw1.
  pose proof (lt_states _ _ _ _ Hw1) as Hs. split; [|intros r; by eapply HQ, later_moved].
  split_and!; [by rewrite (knows_ID args w)| |by eapply source_keeps_states].
  exists m, targetID, target. split_and!; [by eapply knows_states|done|by eapply node_seen_states|done].
Qed.

Lemma safe_reapTargetIncoming m tr Q w :
  worker_inv w → knows w m → source_keeps args tr w → (∀ tr' w', moved w w' → Q (Ok tt) tr' w') →
  safe (reapTargetIncoming m) tr Q w.
Proof.
  intros Hi Hm Hk HQ. unfold reapTargetIncoming. destruct (mig_TargetNodeID m) as [targetID|] eqn:Ht; [|by apply HQ].
  apply safe_store. eapply wp_mono; [|by apply wp_NodeByID]. intros [target|e] O w1 [Hl Hn]; [|by eapply HQ, later_moved].
  apply safe_store. eapply wp_mono; [|apply (wp_reader args alone False); [apply VMByID_reads|apply Hl|done]].
  intros [vm|e] O' w2 [Hm2 _]; [|apply HQ; eapply moved_trans; [by eapply later_moved|done]].
  pose proof (lt_states _ _ _ _ Hl) as S1. pose proof (mv_states _ _ Hm2) as S2.
  apply safe_ask; [apply Hm2|]. intros w3 Hw3. pose proof (lt_states _ _ _ _ Hw3) as S3.
  assert (states w ⊆ states w3) as S13 by (by etrans; [|etrans]). split.
  - split_and!; [by rewrite (knows_ID args w)| |by eapply source_keeps_states].
    exists m, targetID, target. split_and!; [by eapply knows_states|done| |done].
    eapply node_seen_states; [|done]. by etrans.
  - intros r. apply HQ. constructor; [apply Hw3|done].
Qed.

(** ** After the cutover *)

Lemma later_done w w' : later w w' → (alone → task_done w) → alone → task_done w'.
Proof. intros Hl Hd Ha. eapply settled_task_keep; [by apply Hl|by apply Hd]. Qed.

Lemma safe_each_nudge l tr w :
  worker_inv w → (alone → task_done w) → safe (each l (λ ep, _ ← ask (NudgeHeartbeat ep); mret tt)) tr concluded w.
Proof.
  revert tr w. induction l as [|ep l IH]; intros tr w Hi Hd; [done|]. cbn [each]. apply step_bind, safe_ask_any; [done|done|].
  intros w1 r Hw1. apply IH; [apply Hw1|by eapply later_done].
Qed.

Lemma safe_converge vm source target live tr w :
  worker_inv w → was_completed args w → at_source args w (DialURL (node_Name source)) →
  at_target args w (DialURL (node_Name target)) → (alone → task_done w) →
  safe (convergePostCutover vm source target live) tr concluded w.
Proof.
  intros Hi Hc Hsrc Htgt Hd.
  assert (∀ tr w1, later w w1 → safe (_ ← ask (DeleteVMOnSource (DialURL (node_Name source)) (vm_Name vm));
      r ← ask (OverlayPeerNodesForVM (vm_ID vm));
      let peers := match r with Ok peers => peers | Err _ => [] end in
      let endpoints := remove_dups (DialURL (node_Name target) :: map (λ p, DialURL (node_Name p)) peers) in
      each (range_order endpoints) (λ ep, _ ← ask (NudgeHeartbeat ep); mret tt)) tr concluded w1) as Hrest.
  { intros tr1 w1 Hw1. apply safe_ask; [apply Hw1|]. intros w2 Hw2. pose proof (later_trans _ _ _ _ _ Hw1 Hw2) as Hw02.
    pose proof (lt_states _ _ _ _ Hw02) as S. split; [split; [by eapply was_completed_states|by eapply at_source_states]|]. intros r.
    apply safe_ask_any; [apply Hw2|done|]. intros w3 r3 Hw3. apply safe_each_nudge; [apply Hw3|].
    eapply later_done; [|done]. by eapply later_trans. }
  unfold convergePostCutover. cbv zeta. apply step_bind. destruct (_ && _).
  - apply safe_ask; [done|]. intros w1 Hw1. pose proof (lt_states _ _ _ _ Hw1) as S.
    split; [split; [by eapply was_completed_states|by eapply at_target_states]|]. intros r. by apply Hrest.
  - by apply Hrest, later_refl.
Qed.

Lemma safe_cutover_or_reload tr Q w :
  worker_inv w → answered says_handed_off tr →
  (∀ w', moved w w' → was_completed args w' → Q (Ok tt) tr w') → (∀ e w', moved w w' → Q (Err e) tr w') →
  safe (cutover_or_reload mid) tr Q w.
Proof.
  intros Hi Htr HO HE. unfold cutover_or_reload. apply safe_store.
  eapply wp_mono; [|by apply wp_CommitMigrationCutover]. intros [[]|e] O w1 [Hm Hc]; [apply HO; auto|].
  destruct e; try (by apply HE). apply safe_must. eapply wp_mono; [|apply wp_MigrationByID, Hm].
  assert (∀ w2, later w1 w2 → moved w w2) as Hm2 by (intros w2 Hl; eapply moved_trans; [done|by eapply later_moved]).
  intros [m|e] O' w2 [Hl Hat]; [|by apply HE, Hm2].
  destruct (mig_Phase m) eqn:Hp; try (case_match; by apply HE, Hm2); [|by apply HE, Hm2].
  apply HO; [by apply Hm2|]. exists (w_st w2), m. split; [by left|done].
Qed.

Lemma safe_commitCutover terminal tr Q w :
  worker_inv w → answered says_handed_off tr →
  (∀ w', moved w w' → was_completed args w' → (alone → task_done w') → Q (Ok tt) tr w') →
  (∀ e w', moved w w' → Q (Err e) tr w') → safe (commitCutover tid mid terminal) tr Q w.
Proof.
  intros Hi Htr HO HE. unfold commitCutover, logCancelSupersede. apply step_bind, safe_store.
  eapply wp_mono; [|by apply wp_MigrationByID]. intros r O w1 [Hl _]. apply later_moved in Hl. cbv beta.
  apply step_bind, safe_cutover_or_reload; [apply Hl|done| |].
  2: { intros e w2 Hm2. apply HE. by eapply moved_trans. }
  intros w2 Hm2 Hc. cbv zeta. apply safe_must. eapply wp_mono; [|apply wp_UpdateTaskFinalized; [done|done|apply Hm2]].
  assert (∀ w3, moved w2 w3 → moved w w3) as Htrans.
  { intros w3 Hm3. eapply moved_trans; [done|]. by eapply moved_trans. }
  intros [u|e] O' w3 [Hm3 Hd]; [|by apply HE, Htrans].
  assert (was_completed args w3) as Hc3 by (by eapply was_completed_states; [apply Hm3|]).
  destruct (parseMigrationStats (tt_Result terminal)) as [stats|]; [|apply HO; auto].
  apply safe_store. eapply wp_mono; [|apply (wp_UpdateMigrationStats args alone True); [apply Hm3|done]].
  intros r' O'' w4 [Hm4 Hd4]. apply HO; [apply Htrans; by eapply moved_trans|by eapply was_completed_states; [apply Hm4|]|auto].
Qed.

Lemma safe_nil tr w : (alone → task_done w) → safe (mret tt : W unit) tr concluded w.
Proof. done. Qed.

(** ** A migration that has ended *)

Lemma safe_converge_to_target m vm source sourceID tr w :
  worker_inv w → knows w m → mig_SourceNodeID m = Some sourceID → node_seen w sourceID source →
  was_completed args w → (alone → task_done w) → safe (converge_to_target m vm source) tr concluded w.
Proof.
  intros Hi Hm Hs Hn Hc Hd. unfold converge_to_target. destruct (mig_TargetNodeID m) as [targetID|] eqn:Ht; [|done].
  apply safe_store. eapply wp_mono; [|by apply wp_NodeByID]. intros [target|e] O w1 [Hl Hn1]; [|by eapply safe_nil, later_done].
  pose proof (lt_states _ _ _ _ Hl) as S. apply safe_converge; [apply Hl|by eapply was_completed_states| | |by eapply later_done].
  - exists m, sourceID, source. split_and!; [by eapply knows_states|done|by eapply node_seen_states|done].
  - exists m, targetID, target. split_and!; [by eapply knows_states|done|done|done].
Qed.

(** The task of a cancelled migration whose source keeps the guest. *)
Lemma safe_reap_and_cancel m tr w :
  worker_inv w → knows w m → source_keeps args tr w →
  safe (_ ← reapTargetIncoming m; finalize_cancelled tid m) tr concluded w.
Proof.
  intros Hi Hm Hk. apply step_bind, safe_reapTargetIncoming; [done|done|done|].
  intros tr' w' Hw'. by apply safe_finalize_or_fail, Hw'.
Qed.

Lemma safe_cancelled_no_task m tr w :
  worker_inv w → knows w m → safe (reconcileCancelledNoAgentTask tid m) tr concluded w.
Proof.
  intros Hi Hm. unfold reconcileCancelledNoAgentTask. cbv zeta. rewrite (knows_ID args w m Hi Hm).
  destruct (mig_SourceNodeID m) as [sourceID|] eqn:Hs; [|by apply safe_finalize_or_fail].
  apply safe_must. eapply wp_mono; [|by apply wp_NodeByID]. intros [source|e] O w1 [Hl1 Hn]; [|done].
  apply safe_must. eapply wp_mono; [|apply (wp_reader args alone False); [apply VMByID_reads|apply Hl1|done]].
  intros [vm|e] O' w2 [Hm2 _]; [|done]. apply safe_ask_any; [apply Hm2|done|]. intros w3 r Hl3.
  assert (states w1 ⊆ states w3) as S13 by (etrans; [apply Hm2|apply Hl3]).
  assert (states w ⊆ states w3) as S03 by (etrans; [apply Hl1|done]).
  assert (knows w3 m) as Hm3 by by eapply knows_states.
  destruct r as [phase|e]; [|destruct (isAgentTaskGone e); [by apply safe_finalize_or_fail, Hl3|done]].
  case_bool_decide as Hphase; [|case_match eqn:Hab; [|done]].
  - apply step_bind, safe_commitCutover; [apply Hl3|by apply answered_last; simpl; rewrite Hphase| |done].
    intros w4 Hm4 Hc Hd. pose proof (mv_states _ _ Hm4) as S4.
    eapply safe_converge_to_target; [apply Hm4|by eapply knows_states|done|eapply node_seen_states; [|done]; by etrans|done|done].
  - apply safe_reap_and_cancel; [apply Hl3|done|]. left. apply answered_last. split_and!; [|done|].
    + exists m, sourceID, source. split_and!; [done|done|by eapply node_seen_states; [exact S13|]|done].
    + apply orb_true_iff in Hab as [->%bool_decide_eq_true| ->%bool_decide_eq_true]; [by left|by right].
Qed.

Lemma safe_reconcileCancelled m tr w :
  worker_inv w → knows w m → safe (reconcileCancelledMigration tid m) tr concluded w.
Proof.
  intros Hi Hm. unfold reconcileCancelledMigration. cbv zeta. rewrite (knows_ID args w m Hi Hm).
  apply safe_must. eapply wp_mono; [|by apply wp_TaskByID]. intros [task|e] O w1 [Hl1 _]; [|done].
  assert (knows w1 m) as Hm1 by (by eapply knows_states; [apply Hl1|]).
  destruct (task_AgentTaskID task) as [aid|]; [|by apply safe_cancelled_no_task; [apply Hl1|]].
  destruct (mig_SourceNodeID m) as [sourceID|] eqn:Hs; [|done].
  apply safe_must. eapply wp_mono; [|apply wp_NodeByID, Hl1]. intros [source|e] O' w2 [Hl2 Hn]; [|done].
  apply safe_ask_any; [apply Hl2|done|]. intros w3 r Hl3. destruct r as [t|e]; [|done].
  assert (knows w3 m) as Hm3 by (eapply knows_states; [|exact Hm1]; etrans; [apply Hl2|apply Hl3]).
  case_bool_decide as Hst; [|case_match eqn:Hab; [|done]].
  - apply step_bind, safe_commitCutover; [apply Hl3|by apply answered_last| |done].
    intros w4 Hm4 Hc Hd. apply safe_store.
    eapply wp_mono; [|apply (wp_reader args alone True); [apply VMByID_reads|apply Hm4|by auto]].
    intros [vm|e] O2 w5 [Hm5 Hd5]; [|intros Ha; auto].
    assert (states w3 ⊆ states w5) as S35 by (etrans; [apply Hm4|apply Hm5]).
    eapply safe_converge_to_target; [apply Hm5|by eapply knows_states|done| |by eapply was_completed_states; [apply Hm5|]|by auto].
    eapply node_seen_states; [|done]. etrans; [apply Hl3|done].
  - apply safe_reap_and_cancel; [apply Hl3|done|]. left. apply answered_last. split.
    + exists m, sourceID, source. split_and!; [done|done|by eapply node_seen_states; [apply Hl3|]|done].
    + apply orb_true_iff in Hab as [?%bool_decide_eq_true|?%bool_decide_eq_true]; [by left|by right].
Qed.

Lemma safe_finalizeForTerminal m tr w :
  worker_inv w → knows w m → isTerminalMigration (mig_Phase m) = true →
  safe (finalizeForTerminalMigration tid m) tr concluded w.
Proof.
  intros Hi Hm Hterm. unfold finalizeForTerminalMigration. cbv zeta.
  destruct (mig_Phase m) eqn:Hp; try done.
  - unfold must. apply safe_store. eapply wp_mono; [|by apply wp_UpdateTaskFinalized].
    intros [u|e] O w' [Hm' Hs]; [by intros _|done].
  - apply step_bind, safe_reapTargetIncoming; [done|done|right; right; exists m; auto|].
    intros tr' w' Hw'. by apply safe_finalize_or_fail, Hw'.
  - destruct (mig_Live m) eqn:Hlive; [by apply safe_reconcileCancelled|].
    apply step_bind, safe_reapTargetIncoming; [done|done|right; right; exists m; auto|].
    intros tr' w' Hw'. by apply safe_finalize_or_fail, Hw'.
Qed.

Lemma safe_raced tr w :
  worker_inv w → ended_in args (w_st w) → safe (reconcileRacedTerminal tid mid) tr concluded w.
Proof.
  intros Hi Hend. unfold reconcileRacedTerminal. apply safe_must.
  eapply wp_mono; [|by apply wp_MigrationByID]. intros [m|e] O w1 [Hl Hat]; [|done].
  apply safe_finalizeForTerminal; [apply Hl|by apply knows_at|]. by apply Hl.
Qed.

Lemma terminal_phase p : isTerminalPhase p = isTerminalMigration p.
Proof. by destruct p. Qed.

Lemma safe_refused e tr w : worker_inv w → safe (finalizeRefusedCutover tid mid e) tr concluded w.
Proof.
  intros Hi. unfold finalizeRefusedCutover. case_match; [done|]. apply safe_store.
  eapply wp_mono; [|by apply wp_MigrationByID]. intros [m|e'] O w1 [Hl Hat]; [|done].
  destruct (isTerminalPhase (mig_Phase m)) eqn:Ht; [|done]. case_bool_decide; [done|].
  apply safe_finalizeForTerminal; [apply Hl|by apply knows_at|]. by rewrite <-terminal_phase.
Qed.

(** ** The source's task *)

Lemma safe_fail_to_source m reason tr w :
  worker_inv w → knows w m → (mig_TargetNodeID m = None ∨ source_keeps args tr w) →
  safe (fail_to_source tid m reason) tr concluded w.
Proof.
  intros Hi Hm Hk. unfold fail_to_source. rewrite (knows_ID args w m Hi Hm). apply step_bind.
  destruct Hk as [Ht|Hk].
  - unfold reapTargetIncoming. rewrite Ht. by apply safe_failMigration.
  - apply safe_reapTargetIncoming; [done|done|done|]. intros tr' w' Hw'. by apply safe_failMigration, Hw'.
Qed.

Lemma safe_vanished m vm tr w :
  worker_inv w → knows w m → answered (says_task_gone args w) tr →
  safe (reconcileVanishedSourceTask tid m vm) tr concluded w.
Proof.
  intros Hi Hm Hgone. unfold reconcileVanishedSourceTask. cbv zeta. rewrite (knows_ID args w m Hi Hm).
  destruct (mig_Live m) eqn:Hlive.
  2: { apply safe_fail_to_source; [done|done|]. right. right. left. split; [done|]. right. by exists m. }
  cbn [negb]. destruct (mig_TargetNodeID m) as [targetID|] eqn:Ht; [|by apply safe_fail_to_source; [..|left]].
  apply safe_must. eapply wp_mono; [|by apply wp_NodeByID]. intros [target|e] O w1 [Hl1 Hn]; [|done].
  apply safe_ask_any; [apply Hl1|done|]. intros w2 r Hl2. destruct r as [phase|e]; [|by destruct (isAgentTaskGone e)].
  assert (knows w2 m) as Hm2 by (eapply knows_states; [|exact Hm]; etrans; [apply Hl1|apply Hl2]).
  case_bool_decide as Hp; [|case_bool_decide as Hin; [|done]].
  - apply step_bind, safe_commitCutover; [apply Hl2|by apply answered_last; simpl; rewrite Hp| |done].
    intros w3 Hm3 Hc Hd. destruct (mig_SourceNodeID m) as [sourceID|] eqn:Hs; [|done].
    apply safe_store. eapply wp_mono; [|apply wp_NodeByID, Hm3]. intros [source|e] O' w4 [Hl4 Hn4]; [|by eapply safe_nil, later_done].
    assert (states w2 ⊆ states w4) as S24 by (etrans; [apply Hm3|apply Hl4]).
    assert (knows w4 m) as Hm4 by by eapply knows_states.
    apply safe_converge; [apply Hl4|by eapply was_completed_states; [apply Hl4|]| | |by eapply later_done].
    + by exists m, sourceID, source.
    + exists m, targetID, target. split_and!; [done|done| |done].
      eapply node_seen_states; [|done]. etrans; [apply Hl2|done].
  - apply safe_fail_to_source; [apply Hl2|done|]. right. right. left.
    assert (states w ⊆ states w2) as S by (etrans; [apply Hl1|apply Hl2]). split.
    + apply answered_more. by eapply task_gone_states.
    + left. apply answered_last. split_and!; [|done|by exists phase].
      exists m, targetID, target. split_and!; [done|done|by eapply node_seen_states; [apply Hl2|]|done].
Qed.

(** The agent at [ep] answered so for the task. *)
Definition polled (ep : string) (t : TaskTerminal) (tr : trace) : Prop :=
  answered (λ c, match c with PollAgentTask ep' _ => λ r, ep' = ep ∧ r = Ok t | _ => λ _, False end) tr.

Lemma safe_poll_rounds n cfg m vm source aid deadline tr Q w :
  worker_inv w → knows w m → at_source args w (DialURL (node_Name source)) →
  (∀ t tr' w', moved w w' → polled (DialURL (node_Name source)) t tr' → Q (Ok (Some t)) tr' w') →
  (∀ tr' w', (alone → task_done w') → Q (Ok None) tr' w') → (∀ e tr' w', Q (Err e) tr' w') →
  safe (poll_rounds n cfg tid m vm source aid deadline) tr Q w.
Proof.
  intros Hi Hm Hsrc HS HN HE. assert (moved w w) as Hw by by constructor.
  cut (∀ tr w0, worker_inv w0 → knows w0 m → moved w w0 →
    safe (poll_rounds n cfg tid m vm source aid deadline) tr Q w0); [auto|]. clear Hi Hm Hw tr.
  induction n as [|n IH]; intros tr w0 Hi Hm Hw; [by apply HE|]. cbn [poll_rounds].
  apply safe_ask_any; [done|done|]. intros w1 r Hl1.
  assert (moved w w1) as Hw1 by (eapply moved_trans; [done|by eapply later_moved]).
  assert (knows w1 m) as Hm1 by (by eapply knows_states; [apply Hl1|]).
  assert (∀ tr' text, safe (failTask tid ErrCodeTargetUnreachable (WText text)) tr' Q w1) as Hfail.
  { intros tr' text. apply safe_failTask; [apply Hl1|]. by intros. }
  destruct r as [t|[status code message|text|text|text]].
  - apply HS; [done|]. by apply answered_last.
  - destruct (isAgentTaskGone (AgentError status code message)) eqn:Hg; [|by apply Hfail].
    apply step_bind. eapply awp_mono; [|apply safe_vanished; [apply Hl1|done|apply answered_last; split; [|done]]].
    2: { eapply at_source_states; [|exact Hsrc]. etrans; [apply Hw|apply Hl1]. }
    intros [u|e] tr' w' Hr; [by apply HN|by apply HE].
  - apply safe_ask_any; [apply Hl1|done|]. intros w2 t Hl2. case_match; [by apply HE|].
    apply IH; [apply Hl2|by eapply knows_states; [apply Hl2|]|]. eapply moved_trans; [done|by eapply later_moved].
  - by apply HE.
  - by apply Hfail.
Qed.

Lemma polled_handed_off ep t tr : polled ep t tr → tt_Status t = "success" → answered says_handed_off tr.
Proof.
  intros Hp Ht. revert Hp. apply answered_mono. intros [] r; try done. simpl. by intros [_ ->].
Qed.

Lemma polled_aborted ep t tr w :
  at_source args w ep → polled ep t tr → tt_Status t = "failed" ∨ tt_Status t = "cancelled" →
  answered (says_aborted args w) tr.
Proof.
  intros Hs Hp Ht. revert Hp. apply answered_mono. intros [] r; try done. simpl. by intros [-> ->].
Qed.

Lemma safe_conclude m vm source target sourceID targetID t tr w :
  worker_inv w → knows w m → mig_SourceNodeID m = Some sourceID → mig_TargetNodeID m = Some targetID →
  node_seen w sourceID source → node_seen w targetID target → polled (DialURL (node_Name source)) t tr →
  safe (conclude tid m vm source target t) tr concluded w.
Proof.
  intros Hi Hm Hs Ht Hsn Htn Hp. unfold conclude. rewrite (knows_ID args w m Hi Hm).
  case_bool_decide as Hst; [|case_match eqn:Hab; [|by apply safe_failTask_any]].
  - apply safe_attempt, safe_commitCutover; [done|by eapply polled_handed_off| |].
    + intros w1 Hm1 Hc Hd. pose proof (mv_states _ _ Hm1) as S. apply safe_converge; [apply Hm1|done| | |done].
      * exists m, sourceID, source. split_and!; [by eapply knows_states|done|by eapply node_seen_states|done].
      * exists m, targetID, target. split_and!; [by eapply knows_states|done|by eapply node_seen_states|done].
    + intros e w1 Hm1. apply safe_refused, Hm1.
  - assert (source_keeps args tr w) as Hk.
    { left. eapply polled_aborted; [by exists m, sourceID, source|done|].
      apply orb_true_iff in Hab as [?%bool_decide_eq_true|?%bool_decide_eq_true]; [by left|by right]. }
    apply safe_store. eapply wp_mono; [|by apply wp_MigrationByID]. intros r O w1 [Hl Hat].
    pose proof (lt_states _ _ _ _ Hl) as S.
    assert (safe (_ ← cancelTargetIncoming m vm target; failMigration tid mid t) tr concluded w1) as Hfail.
    { apply step_bind. eapply safe_cancelTargetIncoming; [apply Hl|by eapply knows_states|done|by eapply node_seen_states
        |by eapply source_keeps_states|]. intros tr' w2 Hm2. apply safe_failMigration, Hm2. }
    destruct r as [m'|e]; [|done]. destruct (isTerminalPhase (mig_Phase m')) eqn:Hterm; [|done].
    apply safe_finalizeForTerminal; [apply Hl|by apply knows_at|]. by rewrite <-terminal_phase.
Qed.

(** ** The handshake *)

Lemma safe_resolve_pairs nics tr (Q : result werr (list (VMNic * Network)) → trace → world → Prop) w :
  worker_inv w → (∀ l w', moved w w' → Q (Ok l) tr w') → (∀ text w', moved w w' → Q (Err (WText text)) tr w') →
  safe (resolve_pairs nics) tr Q w.
Proof.
  revert Q w. induction nics as [|n nics IH]; intros Q w Hi HO HE; [by apply HO; constructor|]. cbn [resolve_pairs].
  apply safe_must. eapply wp_mono; [|apply (wp_reader args alone False); [apply NetworkByID_reads|done|done]].
  intros [net|e] O w1 [Hm1 _]; [|by apply HE]. apply step_bind, IH; [apply Hm1| |].
  - intros l w2 Hm2. apply HO. by eapply moved_trans.
  - intros text w2 Hm2. apply HE. by eapply moved_trans.
Qed.

Lemma safe_resolveMigrationNics vmID tr (Q : result werr (list MigrationNic) → trace → world → Prop) w :
  worker_inv w → (∀ l w', moved w w' → Q (Ok l) tr w') → (∀ text w', moved w w' → Q (Err (WText text)) tr w') →
  safe (resolveMigrationNics vmID) tr Q w.
Proof.
  intros Hi HO HE. unfold resolveMigrationNics.
  apply safe_must. eapply wp_mono; [|apply (wp_reader args alone False); [apply ListVMNicsByVM_reads|done|done]].
  intros [nics|e] O w1 [Hm1 _]; [|by apply HE]. apply step_bind, safe_resolve_pairs; [apply Hm1| |].
  - intros l w2 Hm2. apply HO. by eapply moved_trans.
  - intros text w2 Hm2. apply HE. by eapply moved_trans.
Qed.

Lemma safe_incomingVMSpec m vm tr (Q : result werr (AgentVMSpec * list MigrationDisk) → trace → world → Prop) w :
  worker_inv w → no_push tr → (∀ x tr' w', moved w w' → no_push tr' → Q (Ok x) tr' w') →
  (∀ e tr' w', moved w w' → errors_Is_raced e = false → Q (Err e) tr' w') →
  safe (incomingVMSpec m vm) tr Q w.
Proof.
  intros Hi Htr HO HE. unfold incomingVMSpec.
  apply safe_must. eapply wp_mono; [|apply (wp_reader args alone False); [apply ListVMDisksByVM_reads|done|done]].
  intros [disks|e] O w1 [Hm1 _]; [|by apply HE]. destruct disks as [|boot disks]; [by apply HE|].
  unfold targetPoolPath. apply step_bind. destruct (mig_TargetNodeID m) as [targetID|]; [|by apply HE].
  apply safe_store. eapply wp_mono; [|apply (wp_reader args alone False); [apply StoragePoolsByName_reads|apply Hm1|done]].
  intros r O2 w2 [Hm12 _]. assert (moved w w2) as Hm2 by by eapply moved_trans.
  destruct r as [pools|e]; [|by apply HE]. destruct (List.find _ pools) as [p|]; [|by apply HE]. by apply HO.
Qed.

Lemma safe_start_handshake vm m source target sourceID targetID tr
    (Q : result werr uuid → trace → world → Prop) w :
  worker_inv w → knows w m → mig_SourceNodeID m = Some sourceID → mig_TargetNodeID m = Some targetID →
  node_seen w sourceID source → node_seen w targetID target → not_started args w → no_push tr →
  (∀ a tr' w', moved w w' → Q (Ok a) tr' w') →
  (∀ e tr' w', moved w w' → errors_Is_raced e = false → Q (Err e) tr' w') →
  safe (start_handshake tid vm m source target) tr Q w.
Proof.
  intros Hi Hm Hs Ht Hsn Htn Hns Htr HO HE. unfold start_handshake. rewrite (knows_ID args w m Hi Hm).
  apply step_bind, safe_incomingVMSpec; [done|done| |done]. intros [spec disks] tr1 w1 Hm1 Htr1.
  destruct (migrationCloudInit vm) as [userData networkConfig].
  apply step_bind, safe_resolveMigrationNics; [apply Hm1| |intros text w2 Hm2; apply HE; [by eapply moved_trans|done]].
  intros nics w2 Hm2. apply safe_ask_any; [apply Hm2|done|]. intros w3 r Hl3.
  assert (moved w w3) as Hm3.
  { eapply moved_trans; [done|]. eapply moved_trans; [done|by eapply later_moved]. }
  destruct r as [expected|e]; [|by apply HE]. case_match; [by apply HE|].
  unfold abandonedMigrationIDs. apply step_bind, safe_must.
  eapply wp_mono; [|apply (wp_reader args alone False); [apply AbandonedOfflineMigrations_reads|apply Hm3|done]].
  intros [ids|e] O w4 [Hm4 _]; [|apply HE; [by eapply moved_trans|done]].
  assert (moved w w4) as Hm04 by by eapply moved_trans. clear Hm1 Hm2 Hl3 Hm3 Hm4.
  set (abandonedIDs := match ids with [] => None | _ => Some ids end).
  match goal with |- safe ?a _ _ _ => assert (a = mret abandonedIDs) as -> by by destruct ids end.
  assert (∀ w', states w4 ⊆ states w' → at_source args w' (DialURL (node_Name source)) ∧
    at_target args w' (DialURL (node_Name target)) ∧ not_started args w') as Hat.
  { intros w' S4. assert (states w ⊆ states w') as S by (etrans; [apply Hm04|done]). split_and!; [| |by eapply not_started_states].
    - exists m, sourceID, source. split_and!; [by eapply knows_states|done|by eapply node_seen_states|done].
    - exists m, targetID, target. split_and!; [by eapply knows_states|done|by eapply node_seen_states|done]. }
  apply safe_ask; [apply Hm04|]. intros w5 Hl5. destruct (Hat w5 (lt_states _ _ _ _ Hl5)) as (_ & Htgt & Hns5).
  split; [done|]. intros r. assert (moved w w5) as Hm5 by (eapply moved_trans; [done|by eapply later_moved]).
  destruct r as [incoming|e]; [|by apply HE].
  apply safe_ask; [apply Hm5|]. intros w6 Hl6. assert (later w4 w6) as Hl46 by by eapply later_trans.
  destruct (Hat w6 (lt_states _ _ _ _ Hl46)) as (Hsrc & _ & Hns6). split.
  - split_and!; [done|done|done|apply no_push_snoc; [by apply no_push_snoc|done]|]. apply answered_last. by exists incoming.
  - intros r. assert (moved w w6) as Hm6 by (eapply moved_trans; [done|by eapply later_moved]).
    destruct r as [str|e]; [|by apply HE]. destruct (uuid_parse str) as [aid|]; [|by apply HE].
    apply safe_must. eapply wp_mono; [|apply wp_UpdateTaskAgentTaskID, Hm6]. intros [u|e] O' w7 Hm7.
    + apply HO. by eapply moved_trans.
    + apply HE; [by eapply moved_trans|done].
Qed.

Lemma safe_startOrResume task vm m source target sourceID targetID tr (Q : result werr uuid → trace → world → Prop) w :
  worker_inv w → knows w m → mig_SourceNodeID m = Some sourceID → mig_TargetNodeID m = Some targetID →
  node_seen w sourceID source → node_seen w targetID target → task_at (w_st w) tid task → no_push tr →
  (∀ a tr' w', moved w w' → Q (Ok a) tr' w') →
  (∀ e tr' w', moved w w' → (errors_Is_raced e = true → ended_in args (w_st w')) → Q (Err e) tr' w') →
  safe (startOrResume tid task vm m source target) tr Q w.
Proof.
  intros Hi Hm Hs Ht Hsn Htn Htask Htr HO HE. unfold startOrResume. rewrite (knows_ID args w m Hi Hm).
  destruct (task_AgentTaskID task) as [aid|] eqn:Haid; [by apply HO; constructor|].
  assert (not_started args w) as Hns by (exists (w_st w), task; split_and!; [by left|done|done]).
  apply step_bind, safe_advancePhase; [done|]. intros w1 Hm1. apply safe_store.
  eapply wp_mono; [|apply wp_MigrationByID, Hm1]. intros r O w2 [Hl2 Hat].
  assert (moved w w2) as Hm2 by (eapply moved_trans; [done|by eapply later_moved]).
  destruct (match r with Ok _ => _ | Err _ => false end) eqn:Hterm.
  - apply HE; [done|]. intros _ m' Hat'. destruct r as [m2|]; [|done]. unfold mig_at in *.
    rewrite <-terminal_phase. congruence.
  - pose proof (mv_states _ _ Hm2) as S. eapply safe_start_handshake; [apply Hm2|by eapply knows_states|done|done
      |by eapply node_seen_states|by eapply node_seen_states|by eapply not_started_states|done|..].
    + intros a tr' w' Hm'. apply HO. by eapply moved_trans.
    + intros e tr' w' Hm' He. apply HE; [by eapply moved_trans|]. by rewrite He.
Qed.

Lemma safe_driveHandshake rounds cfg m vm sourceID tr w :
  worker_inv w → knows w m → mig_SourceNodeID m = Some sourceID → no_push tr →
  safe (driveHandshake rounds cfg tid m vm) tr concluded w.
Proof.
  intros Hi Hm Hs Htr. unfold driveHandshake. rewrite (knows_ID args w m Hi Hm), Hs.
  destruct (mig_TargetNodeID m) as [targetID|] eqn:Ht; [|by apply safe_finalizeFailed].
  apply safe_store. eapply wp_mono; [|by apply wp_NodeByID].
  intros [source|e] O w1 [Hl1 Hn1]; [|apply safe_failTask_any, Hl1].
  apply safe_store. eapply wp_mono; [|apply wp_NodeByID, Hl1].
  intros [target|e] O' w2 [Hl2 Hn2]; [|apply safe_failTask_any, Hl2].
  apply safe_must. eapply wp_mono; [|apply wp_TaskByID, Hl2]. intros [task|e] O2 w3 [Hl3 Htask]; [|done].
  assert (states w2 ⊆ states w3) as S23 by apply Hl3.
  assert (states w1 ⊆ states w3) as S13 by (etrans; [apply Hl2|done]).
  assert (knows w3 m) as Hm3 by (eapply knows_states; [|exact Hm]; etrans; [apply Hl1|done]).
  apply safe_attempt. eapply safe_startOrResume; [apply Hl3|done|done|done|by eapply node_seen_states; [exact S13|]
    |by eapply node_seen_states; [exact S23|]|done|done|..].
  - intros aid tr4 w4 Hm4. apply step_bind, safe_advancePhase; [apply Hm4|]. intros w5 Hm5.
    unfold pollOutgoing. apply step_bind, safe_ask_any; [apply Hm5|done|]. intros w6 t Hl6.
    assert (states w3 ⊆ states w6) as S36 by (etrans; [apply Hm4|etrans; [apply Hm5|apply Hl6]]).
    apply safe_poll_rounds; [apply Hl6|by eapply knows_states| | |done|done].
    { exists m, sourceID, source. split_and!; [by eapply knows_states|done| |done]. eapply node_seen_states; [|done]. by etrans. }
    intros t' tr7 w7 Hm7 Hp. assert (states w3 ⊆ states w7) as S37 by (etrans; [done|apply Hm7]).
    eapply safe_conclude; [apply Hm7|by eapply knows_states|done|done| | |done];
      (eapply node_seen_states; [|done]; by etrans).
  - intros e tr4 w4 Hm4 Hr. destruct (errors_Is_raced e) eqn:He; [apply safe_raced; [apply Hm4|auto]|].
    destruct (errors_Is_pool e); [|apply safe_failSetup, Hm4]. apply safe_recordPending; [apply Hm4|done].
Qed.

(** ** Placement *)

Lemma safe_deref {A B} (a : A) (f : A → W B) tr Q w : safe (f a) tr Q w → safe (deref (Some a) ≫= f) tr Q w.
Proof. done. Qed.

Lemma safe_place_and_bind ctx m vm sourceID tr (Q : result werr Migration → trace → world → Prop) w :
  worker_inv w → knows w m → mig_SourceNodeID m = Some sourceID → no_push tr →
  (∀ m' tr' w', moved w w' → no_push tr' → mig_at (w_st w') mid m' → Q (Ok m') tr' w') →
  (∀ e tr' w', moved w w' → (errors_Is_raced e = true → ended_in args (w_st w')) → Q (Err e) tr' w') →
  safe (place_and_bind ctx m vm) tr Q w.
Proof.
  intros Hi Hm Hs Htr HO HE. unfold place_and_bind. rewrite (knows_ID args w m Hi Hm), Hs.
  apply safe_deref.
  apply safe_must. eapply wp_mono; [|apply (wp_reader args alone False); [apply ListVMNicsByVM_reads|done|done]].
  intros [nics|e] O w1 [Hm1 _]; [|by apply HE]. apply safe_ask_any; [apply Hm1|done|]. intros w2 r Hl2.
  assert (moved w w2) as Hm2 by (eapply moved_trans; [done|by eapply later_moved]).
  destruct r as [decision|perr].
  2: { apply safe_recordPending; [apply Hm2|]. intros text w3 Hm3. apply HE; [by eapply moved_trans|done]. }
  apply safe_store. eapply wp_mono; [|apply wp_BindMigrationTarget, Hm2]. intros [u|e] O' w3 [Hm3 Hend].
  - unfold must. apply safe_store. eapply wp_mono; [|apply wp_MigrationByID, Hm3].
    assert (∀ w4, later w3 w4 → moved w w4) as Hm4.
    { intros w4 Hl4. eapply moved_trans; [done|]. eapply moved_trans; [done|by eapply later_moved]. }
    intros [m'|e] O2 w4 [Hl4 Hat]; [|by apply HE; [apply Hm4|]]. apply HO; [by apply Hm4|by apply no_push_snoc|done].
  - destruct (decide (e = ErrMigrationTerminal)) as [->|Hne]; [apply HE; [by eapply moved_trans|by auto]|].
    assert (moved w w3) as Hm03 by by eapply moved_trans. destruct e; try done; by apply HE.
Qed.

Lemma safe_placeAndBind ctx m vm sourceID tr (Q : result werr Migration → trace → world → Prop) w :
  worker_inv w → knows w m → mig_SourceNodeID m = Some sourceID → no_push tr →
  (∀ m' tr' w', worker_inv w' → no_push tr' → knows w' m' → Q (Ok m') tr' w') →
  (∀ e tr' w', worker_inv w' → (errors_Is_raced e = true → ended_in args (w_st w')) → Q (Err e) tr' w') →
  safe (placeAndBind ctx m vm) tr Q w.
Proof.
  intros Hi Hm Hs Htr HO HE. unfold placeAndBind. apply safe_ask_any; [done|done|]. intros w1 r Hl1.
  destruct r as [u|e]; [|by apply HE; [apply Hl1|]].
  apply safe_attempt. eapply safe_place_and_bind; [apply Hl1|by eapply knows_states; [apply Hl1|]|done|by apply no_push_snoc|..].
  - intros m' tr2 w2 Hm2 Htr2 Hat. apply safe_ask_any; [apply Hm2|done|]. intros w3 r3 Hl3.
    apply HO; [apply Hl3|by apply no_push_snoc|]. eapply knows_states; [apply Hl3|by apply knows_at].
  - intros e tr2 w2 Hm2 Hend. apply safe_ask_any; [apply Hm2|done|]. intros w3 r3 Hl3.
    apply HE; [apply Hl3|]. intros He. by apply Hl3, Hend.
Qed.

(** ** The handler *)

(** The row the placement returns has the source the migration had. *)
Lemma safe_drive ctx rounds cfg m vm sourceID tr w :
  worker_inv w → knows w m → mig_SourceNodeID m = Some sourceID → no_push tr →
  safe (drive ctx rounds cfg tid m vm) tr concluded w.
Proof.
  intros Hi Hm Hs Htr. unfold drive. rewrite (knows_ID args w m Hi Hm).
  destruct (mig_TargetNodeID m); [by eapply safe_driveHandshake|].
  apply safe_attempt. eapply safe_placeAndBind; [done|done|done|done|..].
  - intros m' tr' w' Hi' Htr' Hm'. destruct (mig_SourceNodeID m') as [s'|] eqn:Hs'; [by eapply safe_driveHandshake|].
    unfold driveHandshake. rewrite Hs'. destruct (mig_TargetNodeID m'); [done|by apply safe_finalizeFailed].
  - intros e tr' w' Hi' Hend. destruct (errors_Is_raced e); [by apply safe_raced; [|apply Hend]|done].
Qed.

Lemma safe_runMigration ctx rounds cfg w :
  worker_inv w → safe (runMigration ctx rounds cfg args) [] concluded w.
Proof.
  intros Hi. unfold runMigration. cbv zeta. apply safe_must. eapply wp_mono; [|by apply wp_task_running].
  intros [[]|e] O w1 [Hm1 Hd]; [intros _; by apply Hd| |done].
  apply safe_store. eapply wp_mono; [|apply wp_MigrationByID, Hm1].
  intros [m|e] O' w2 [Hl2 Hat]; [|apply safe_failTask_any, Hl2]. assert (knows w2 m) as Hm by by apply knows_at.
  destruct (isTerminalPhase (mig_Phase m)) eqn:Hterm.
  { apply safe_finalizeForTerminal; [apply Hl2|done|]. by rewrite <-terminal_phase. }
  destruct (mig_SourceNodeID m) as [sourceID|] eqn:Hs.
  2: { rewrite (knows_ID args w2 m); [|apply Hl2|done]. apply safe_failMigration, Hl2. }
  apply safe_store. eapply wp_mono; [|apply (wp_reader args alone False); [apply VMByID_reads|apply Hl2|done]].
  intros [vm|e] O2 w3 [Hm3 _]; [|apply safe_failTask_any, Hm3].
  assert (knows w3 m) as Hk3 by (by eapply knows_states; [apply Hm3|]).
  case_bool_decide; [|by eapply safe_drive; [apply Hm3|..|constructor]].
  unfold sourcePoolName. apply safe_attempt, safe_must.
  eapply wp_mono; [|apply (wp_reader args alone False); [apply ListVMDisksByVM_reads|apply Hm3|done]].
  intros [disks|e] O3 w4 [Hm4 _]; [|apply safe_failTask_any, Hm4].
  destruct disks as [|boot disks]; [apply safe_failTask_any, Hm4|].
  apply safe_store. eapply wp_mono; [|apply (wp_reader args alone False); [apply StoragePoolByID_reads|apply Hm4|done]].
  intros r O5 w5 [Hm5 _]. destruct r as [pool|e]; [|apply safe_failTask_any, Hm5].
  eapply safe_drive; [apply Hm5| |done|constructor].
  apply knows_pool. eapply knows_states; [|exact Hk3]. etrans; [apply Hm4|apply Hm5].
Qed.
End Props.

(** ** Runs of the handler *)
Section Runs.
Context `{Etcd, !EtcdLaws, !Libs, !LibsLaws, WorkerLibs}.

(** A run of the handler that starts in [st]: the states it is about are those since
    its start. *)
Definition migration_run (alone : Prop) ctx rounds cfg args st issued l w' a' : Prop :=
  estate_wf st ∧ rows_wf st ∧
  arun (worker_env args alone) (World st [] issued) (runMigration ctx rounds cfg args) l w' a'.

Lemma migration_run_sound alone ctx rounds cfg args st issued l w' a' :
  migration_run alone ctx rounds cfg args st issued l w' a' →
  obeys (worker_protocol args alone) (call_ok args) [] l ∧
  awp (worker_protocol args alone) (call_ok args) a' (events l) (concluded args alone) w'.
Proof.
  intros (Hwf & Hrows & Hrun).
  assert (worker_inv (World st [] issued)) as Hi by (split; [done|]; intros st' Hst; set_solver).
  destruct (arun_sound (worker_protocol args alone) (call_ok args) worker_inv (worker_env args alone)
    (λ _, eq_refl) (λ _, eq_refl) (λ _ _ _ H, H) (runMigration ctx rounds cfg args) [] (concluded args alone)
    (World st [] issued) l w' a') as (Hob & _ & Ha); [|done|by apply safe_runMigration|done|done].
  intros [u|e] tr w1 w2 _ Henv Hc; [|done]. intros Ha. specialize (Hc Ha). eapply settled_task_keep; [|done].
  by apply Henv.
Qed.

(** C7. A copy of the VM is touched only after the cutover: when the handler has the source
    delete its copy, or the target start its own, the migration has been completed
    since the run began, and the call goes to the migration's source, or target. *)
Theorem copies_touched_after_cutover ctx rounds cfg args st issued l w' a' i w e :
  migration_run False ctx rounds cfg args st issued l w' a' → l !! i = Some (Asked w e) →
  match ev_call e with
  | DeleteVMOnSource ep _ => was_completed args w ∧ at_source args w ep
  | StartVMOnTarget ep _ => was_completed args w ∧ at_target args w ep
  | _ => True
  end.
Proof.
  intros [Hob _]%migration_run_sound Hi. pose proof (obeys_ask _ _ _ _ _ _ _ Hob Hi) as Hok.
  destruct (ev_call e); try done; exact Hok.
Qed.

(** C11. The target's incoming side is torn down only where the source keeps the guest.  The
    call goes to the target and names this migration, and before it in the same run the
    source itself answered that its task, or its record of the migration, failed or was
    cancelled; or the source answered that it no longer knows its task, and the
    migration is offline or the target itself answered that the guest has not arrived;
    or the migration has failed, or was cancelled and is offline.  That a source still
    reports the migration in flight is no evidence, nor is an error. *)
Theorem target_reaped_on_evidence ctx rounds cfg args st issued l w' a' i w ep vmName id r :
  migration_run False ctx rounds cfg args st issued l w' a' →
  l !! i = Some (Asked w (Event (CancelAgentMigration ep vmName id) r)) →
  id = uuid_string (mra_MigrationID args) ∧ at_target args w ep ∧ source_keeps args (events (take i l)) w.
Proof. intros [Hob _]%migration_run_sound Hi. exact (obeys_ask _ _ _ _ _ _ _ Hob Hi). Qed.

(** C27. One push per run: the handler asks the source for a push at most once, for this
    migration, when the task has not recorded a source task, and relays the endpoint
    and the token that the target announced. *)
Theorem one_push_per_run ctx rounds cfg args st issued l w' a' i w ep vmName req r :
  migration_run False ctx rounds cfg args st issued l w' a' →
  l !! i = Some (Asked w (Event (StartOutgoingMigration ep vmName req) r)) →
  mor_MigrationID req = mra_MigrationID args ∧ at_source args w ep ∧ not_started args w ∧
  no_push (events (take i l)) ∧ answered (announces req) (events (take i l)).
Proof. intros [Hob _]%migration_run_sound Hi. exact (obeys_ask _ _ _ _ _ _ _ Hob Hi). Qed.

(** C19. Fail-safe to the source: the handler's own steps leave every VM as it is until an
    agent has answered that the guest was handed off. *)
Theorem vms_kept_until_handoff ctx rounds cfg args st issued l w' a' i w1 w2 :
  migration_run False ctx rounds cfg args st issued l w' a' → l !! i = Some (Stepped w1 w2) →
  answered says_handed_off (events (take i l)) ∨ vms_kept (w_st w1) (w_st w2).
Proof. intros [Hob _]%migration_run_sound Hi. by destruct (obeys_step _ _ _ _ _ _ _ Hob Hi) as (_ & _ & ?). Qed.

(** C20. A delivery that returns nil, for which the job is deleted, has settled the task,
    if nothing else writes it. *)
Theorem migration_nil_settles_task ctx rounds cfg args st issued l w' :
  migration_run True ctx rounds cfg args st issued l w' (Done (Ok tt)) →
  settled_task (w_st w') (mra_TaskID args).
Proof. intros [_ Hc]%migration_run_sound. by apply Hc. Qed.
End Runs.

(** ** The polling loop ends *)
Section Polling.
Context `{Etcd, !Libs, WorkerLibs}.

(** The worker does not run out of rounds of the polling loop. *)
Definition in_rounds {A} (m : W A) : Prop := areturns (λ r, r ≠ Err WPolling) m.

Lemma in_rounds_bind {A B} (m : W A) (f : A → W B) : in_rounds m → (∀ a, in_rounds (f a)) → in_rounds (m ≫= f).
Proof.
  intros Hm Hf. apply areturns_bind. eapply areturns_mono; [|exact Hm]. intros [a|e] He; [apply Hf|]. simpl. congruence.
Qed.

Lemma in_rounds_store {A} (p : M A) : in_rounds (store p).
Proof. by intros r. Qed.
Lemma in_rounds_ask c : in_rounds (ask c).
Proof. by intros r. Qed.

Create HintDb rounds.
#[local] Hint Resolve in_rounds_store in_rounds_ask : rounds.

Ltac rounds_solve :=
  repeat first
    [ solve [auto with rounds nocore]
    | match goal with
      | |- in_rounds (mbind _ _) => apply in_rounds_bind
      | |- in_rounds (match ?x with _ => _ end) => destruct x
      | |- in_rounds _ => done
      | |- ∀ _, _ => intros ?
      end ].

Lemma in_rounds_must {A} what (p : M A) : in_rounds (must what p).
Proof. unfold must. rounds_solve. Qed.
Lemma in_rounds_deref {A} (x : option A) : in_rounds (deref x).
Proof. by destruct x. Qed.
#[local] Hint Resolve in_rounds_must in_rounds_deref : rounds.

Lemma in_rounds_finalizeFailed taskID code cause : in_rounds (finalizeFailed taskID code cause).
Proof. unfold finalizeFailed. rounds_solve. Qed.
#[local] Hint Resolve in_rounds_finalizeFailed : rounds.

Lemma in_rounds_failTask {A} taskID code text : in_rounds (failTask (A := A) taskID code (WText text)).
Proof. unfold failTask. rounds_solve. Qed.
Lemma in_rounds_failMigration taskID migID terminal : in_rounds (failMigration taskID migID terminal).
Proof. unfold failMigration. destruct (match tt_Error terminal with Some _ => _ | None => _ end). rounds_solve. Qed.
Lemma in_rounds_reap m : in_rounds (reapTargetIncoming m).
Proof. unfold reapTargetIncoming. rounds_solve. Qed.
Lemma in_rounds_each {A} (l : list A) body : (∀ x, in_rounds (body x)) → in_rounds (each l body).
Proof. intros Hb. induction l as [|x l IH]; [done|]. by apply in_rounds_bind. Qed.
#[local] Hint Resolve in_rounds_failTask in_rounds_failMigration in_rounds_reap : rounds.

Lemma in_rounds_converge vm source target live : in_rounds (convergePostCutover vm source target live).
Proof. unfold convergePostCutover. cbv zeta. rounds_solve. apply in_rounds_each. rounds_solve. Qed.
Lemma in_rounds_cutover migID : in_rounds (cutover_or_reload migID).
Proof. unfold cutover_or_reload. rounds_solve. Qed.
#[local] Hint Resolve in_rounds_converge in_rounds_cutover : rounds.

Lemma in_rounds_commitCutover taskID migID terminal : in_rounds (commitCutover taskID migID terminal).
Proof. unfold commitCutover, logCancelSupersede. cbv zeta. rounds_solve. Qed.
#[local] Hint Resolve in_rounds_commitCutover : rounds.

Lemma in_rounds_vanished taskID m vm : in_rounds (reconcileVanishedSourceTask taskID m vm).
Proof. unfold reconcileVanishedSourceTask, fail_to_source. cbv zeta. rounds_solve. Qed.

(** The readings of the configured clock. *)
Definition clock_answer (c : wcall) : wanswer c → option Z :=
  match c with ConfigNow => λ t, Some t | _ => λ _, None end.
Definition readings (tr : list (event wanswer)) : list Z := omap (λ e, clock_answer (ev_call e) (ev_answer e)) tr.

(** A loop that used all its rounds has read the clock in each, before the deadline. *)
Lemma poll_rounds_exhausted env n cfg taskID m vm source aid deadline w l w' :
  arun env w (poll_rounds n cfg taskID m vm source aid deadline) l w' (Done (Err WPolling)) →
  length (readings (events l)) = n ∧ Forall (λ t, t ≤ deadline) (readings (events l)).
Proof.
  revert w l. induction n as [|n IH]; intros w l Hrun.
  { by apply arun_first in Hrun as ->. }
  cbn [poll_rounds] in Hrun. apply arun_first in Hrun as (w1 & r & l1 & -> & Hrun).
  assert (∀ m' : W (option TaskTerminal), in_rounds m' → arun env w1 m' l1 w' (Done (Err WPolling)) → False) as Hno.
  { intros m' Hm' Hrun'. by apply (arun_returns _ _ _ _ _ _ _ Hm' Hrun'). }
  destruct r as [t|[status code message|text|text|text]]; cbn [act_bind] in Hrun.
  - by apply Hno in Hrun.
  - apply Hno in Hrun; [done|]. destruct (isAgentTaskGone _); [|apply in_rounds_failTask].
    by apply in_rounds_bind; [apply in_rounds_vanished|].
  - apply arun_first in Hrun as (w2 & t & l2 & -> & Hrun). cbn [act_bind] in Hrun. destruct (deadline <? t) eqn:Hd.
    { by apply (arun_returns _ (λ r, r ≠ Err WPolling)) in Hrun. }
    destruct (IH _ _ Hrun) as [Hlen Hf]. apply Z.ltb_ge in Hd. split; [cbn; by f_equal|by constructor].
  - by apply Hno in Hrun.
  - apply Hno in Hrun; [done|]. apply in_rounds_failTask.
Qed.

(** Each reading is at least [d] after the one before. *)
Fixpoint ticking (d : Z) (ts : list Z) : Prop :=
  match ts with t1 :: (t2 :: _) as ts => t1 + d ≤ t2 ∧ ticking d ts | _ => True end.

Lemma ticking_bound d t ts deadline :
  ticking d (t :: ts) → t ≤ deadline → Forall (λ t, t ≤ deadline) ts → t + d * Z.of_nat (length ts) ≤ deadline.
Proof.
  revert t. induction ts as [|t' ts IH]; intros t Htick Ht Hf; [simpl; lia|].
  destruct Htick as [Hd Htick]. apply Forall_cons in Hf as [Ht' Hf]. specialize (IH t' Htick Ht' Hf).
  cbn [length]. lia.
Qed.

(** C25. The polling loop ends: if every poll takes at least [d] of the configured clock, a
    number of rounds that exceeds the polling budget is enough, whatever the agents
    answer. *)
Theorem pollOutgoing_terminates env d rounds cfg taskID m vm source aid w l w' r :
  0 < d → maxPollDuration cfg < d * Z.of_nat rounds →
  arun env w (pollOutgoing rounds cfg taskID m vm source aid) l w' (Done r) →
  ticking d (readings (events l)) → r ≠ Err WPolling.
Proof.
  intros Hd Hr Hrun Htick ->. apply arun_first in Hrun as (w1 & t & l1 & -> & Hrun).
  destruct (poll_rounds_exhausted _ _ _ _ _ _ _ _ _ _ _ _ Hrun) as [Hlen Hf].
  change (ticking d (t :: readings (events l1))) in Htick.
  assert (0 < maxPollDuration cfg) as Hmax.
  { unfold maxPollDuration, defaultMigrationMaxPollDuration. destruct (Z.ltb_spec 0 (mc_MaxPollDuration cfg)); lia. }
  apply (ticking_bound d t _ (t + maxPollDuration cfg)) in Htick; [|lia|done].
  rewrite Hlen in Htick. lia.
Qed.
End Polling.
