(* ===== verification/MigrationWorkerRuns.v ===== *)
(** * Runs of the migration worker

    Deliveries that are executed step by step: instances of the worker's theorems. *)

From S2P Require Import Prelude Models Scheduler Etcd Prog Keys Client Rules Instances.
From S2P Require Import Jobs Tasks Nodes Migrations Retention MigrationProps VMs Placement VMWorkers VMWorkerProps.
From S2P Require Import Workers MigrationWorker MigrationWorkerRules MigrationWorkerProps.
Local Open Scope Z_scope.

Module WorkerRuns.
Import Concrete.

#[export] Instance worker_libs : WorkerLibs := {|
  err_text _ := "";
  agent_text _ := "";
  sched_text _ := "";
  quote s := s;
  duration_text _ := "";
  uuid_parse_text _ := "";
  marshalTaskError _ _ := "{}";
  marshalResult _ := Some "{}";
  i64_undef _ := 0;
  range_order l := l
|}.

Definition args : MigrationRunArgs := MkMigrationRunArgs (id 3) (id 2).
Definition cfg : MigrateConfig := MkMigrateConfig "" 5.

(** A live migration to a chosen target, its task, and the VM on its source. *)
Definition migration : Migration :=
  (new_migration (SweepRun.mig_params 2) 900) <| mig_SourceNodeID := Some (id 60) |>
    <| mig_TargetNodeID := Some (id 61) |> <| mig_TargetPoolName := "fast" |>.
Definition task : Task :=
  MkTask (id 3) "vm.migrate" TaskStatusPending "vm" (Some (id 50)) None "" "" "" 0 25 (Some 1) None None 0 None None.
Definition disk : VMDisk :=
  MkVMDisk (id 70) (id 50) (id 80) 0 "virtio" 10 "image" "qcow2" false "" "" None 1 0 0 None.
Definition node (n : N) (name : string) : Node :=
  new_node (MkCreateNodeParams (id n) name false "amd64" "" "" "" 0 0 NodeStatusReady) 0.

Definition pool : StoragePool :=
  MkStoragePool (id 81) (id 61) "fast" "local_dir" "/pools/fast" None None None "" None 0 "" None None 0 0 None.

Definition rows : list (string * doc) :=
  [(migrationKey (id 2), DMigration migration); (taskKey (id 3), DTask task);
   (vmKey (id 50), DVM MigrationRuns.vm); (vmRuntimeKey (id 50), DVMRuntime MigrationRuns.runtime);
   (vmDiskVMIndexKey (id 50) (id 70), DStr (uuid_string (id 70))); (vmDiskKey (id 70), DVMDisk disk);
   (nodeKey (id 60), DNode (node 60 "source")); (nodeKey (id 61), DNode (node 61 "target"));
   (storagePoolKey (id 81), DStoragePool pool);
   (storagePoolNameIndexKey "fast" (id 81), DStr (uuid_string (id 81)))].

Lemma rows_in_place : rows_wf (stored rows).
Proof.
  split_and!; intros k e x [Hk _]%stored_lookup _ Hx; rewrite Hx in Hk;
    unfold rows in Hk; set_unfold in Hk; destruct_or!; try done; by injection Hk as -> ->.
Qed.

(** Agents that prepare and push, and then report [status]; the clock reads the number
    of calls so far. *)
Definition agents (status : result agent_error TaskTerminal) (i : nat) (c : wcall) : wanswer c :=
  match c with
  | AcquirePlacementLock => Ok tt
  | ReleasePlacementLock => tt
  | ConfigNow => Z.of_nat i
  | Place _ => Err (Scheduler.ErrSentinel Scheduler.ErrNoEligibleNodes)
  | OverlayPeerNodesForVM _ => Ok []
  | StartIncomingMigration _ _ req =>
      Ok (MkMigrationIncomingResponse "token" "target:7000" (mir_MigrationID req) None)
  | StartOutgoingMigration _ _ _ => Ok (uuid_string (id 90))
  | PollAgentTask _ _ => status
  | StartVMOnTarget _ _ | DeleteVMOnSource _ _ | NudgeHeartbeat _ => Ok tt
  | AgentVM _ _ => Ok 1024
  | CancelAgentMigration _ _ _ => Ok "cancelled"
  | GetAgentMigration _ _ _ => Ok "setup"
  end.

Definition fresh (issued : gset uuid) : uuid := supply (size issued).

Definition delivery (status : result agent_error TaskTerminal) :=
  simulate fresh 950 (agents status) 200 0 (stored_world rows) (runMigration None 3 cfg args).

Lemma delivery_run alone status :
  migration_run alone None 3 cfg args (stored rows) ∅ (delivery status).1.1 (delivery status).1.2 (delivery status).2.
Proof. split_and!; [apply stored_wf|apply rows_in_place|]. apply (simulate_arun fresh 950 (agents status)). Qed.

(** The calls of a run. *)
Definition call_at (l : list (item wanswer)) (i : nat) : option wcall :=
  match l !! i with Some (Asked _ e) => Some (ev_call e) | _ => None end.

Lemma call_at_item l i c :
  call_at l i = Some c → ∃ w r, l !! i = Some (Asked w (Event c r)).
Proof.
  unfold call_at. destruct (l !! i) as [[|w [c' r]]|]; try done. simpl. intros [= ->]. eauto.
Qed.

Definition moved_over := delivery (Ok (MkTaskTerminal "success" None None)).
Definition refused := delivery (Ok (MkTaskTerminal "failed" None None)).

Lemma moved_over_run alone :
  migration_run alone None 3 cfg args (stored rows) ∅ moved_over.1.1 moved_over.1.2 moved_over.2.
Proof. exact (delivery_run alone (Ok (MkTaskTerminal "success" None None))). Qed.

Lemma refused_run alone : migration_run alone None 3 cfg args (stored rows) ∅ refused.1.1 refused.1.2 refused.2.
Proof. exact (delivery_run alone (Ok (MkTaskTerminal "failed" None None))). Qed.

Lemma copies_touched_after_cutover_witness :
  ∃ w, was_completed args w ∧ at_source args w (DialURL "source").
Proof.
  destruct (call_at_item moved_over.1.1 38 (DeleteVMOnSource (DialURL "source") "vm")) as (w & r & Hi);
    [by vm_compute|]. exists w.
  pose proof (copies_touched_after_cutover _ _ _ _ _ _ _ _ _ _ _ _ (moved_over_run False) Hi) as Hc. exact Hc.
Defined.

Lemma target_reaped_on_evidence_witness :
  ∃ w, at_target args w (DialURL "target") ∧ source_keeps args (events (take 29 refused.1.1)) w.
Proof.
  destruct (call_at_item refused.1.1 29 (CancelAgentMigration (DialURL "target") "vm" (uuid_string (id 2))))
    as (w & r & Hi); [by vm_compute|]. exists w.
  apply (target_reaped_on_evidence _ _ _ _ _ _ _ _ _ _ _ _ _ _ _ (refused_run False) Hi).
Defined.

Definition push : MigrationOutgoingRequest :=
  MkMigrationOutgoingRequest (id 2) "live" "target:7000" (Some (targetIdentity "target")) "token" None None None.

Lemma one_push_per_run_witness :
  no_push (events (take 20 moved_over.1.1)) ∧ answered (announces push) (events (take 20 moved_over.1.1)).
Proof.
  destruct (call_at_item moved_over.1.1 20 (StartOutgoingMigration (DialURL "source") "vm" push))
    as (w & r & Hi); [by vm_compute|].
  apply (one_push_per_run _ _ _ _ _ _ _ _ _ _ _ _ _ _ _ (moved_over_run False) Hi).
Defined.

(** Where the VM of the migration is pinned. *)
Definition pinned (w : world) : option (option uuid) :=
  match e_val <$> w_map w !! vmKey (id 50) with Some (DVM v) => Some (vm_PinnedNodeID v) | _ => None end.

Definition step_at (l : list (item wanswer)) (i : nat) : option (option (option uuid) * option (option uuid)) :=
  match l !! i with Some (Stepped w1 w2) => Some (pinned w1, pinned w2) | _ => None end.

Lemma step_at_item l i a b :
  step_at l i = Some (a, b) → ∃ w1 w2, l !! i = Some (Stepped w1 w2) ∧ pinned w1 = a ∧ pinned w2 = b.
Proof. unfold step_at. destruct (l !! i) as [[w1 w2|]|]; try done. intros [= <- <-]. eauto. Qed.

Lemma vms_kept_until_handoff_witness :
  step_at moved_over.1.1 34 = Some (Some (Some (id 60)), Some (Some (id 61))) ∧
  answered says_handed_off (events (take 34 moved_over.1.1)).
Proof.
  assert (step_at moved_over.1.1 34 = Some (Some (Some (id 60)), Some (Some (id 61)))) as Hp by by vm_compute.
  split; [exact Hp|]. apply step_at_item in Hp as (w1 & w2 & Hi & H1 & H2).
  destruct (vms_kept_until_handoff _ _ _ _ _ _ _ _ _ _ _ _ (moved_over_run False) Hi) as [?|Hk]; [done|].
  specialize (Hk (id 50)). unfold pinned, w_map in *. rewrite Hk, H1 in H2. done.
Defined.

Lemma migration_nil_settles_task_witness : settled_task (w_st moved_over.1.2) (id 3).
Proof.
  pose proof (moved_over_run True) as Hr.
  assert (moved_over.2 = Done (Ok tt)) as E by by vm_compute. rewrite E in Hr.
  exact (migration_nil_settles_task _ _ _ _ _ _ _ _ Hr).
Defined.

(** A source task that never ends: three rounds exhaust a budget of 5. *)
Definition stuck_poll := simulate fresh 950 (agents (Err (TimeoutError ""))) 100 0 (stored_world rows)
  (pollOutgoing 3 cfg (id 3) migration MigrationRuns.vm (node 60 "source") (id 90)).

Definition poll_result : result werr (option TaskTerminal) :=
  match stuck_poll.2 with Done r => r | _ => Ok None end.

Lemma pollOutgoing_terminates_witness : poll_result ≠ Err WPolling.
Proof.
  apply (pollOutgoing_terminates (λ _ _, False) 2 3 cfg (id 3) migration MigrationRuns.vm (node 60 "source") (id 90)
    (stored_world rows) stuck_poll.1.1 stuck_poll.1.2 poll_result); [lia|by vm_compute| |by vm_compute].
  pose proof (simulate_arun fresh 950 (agents (Err (TimeoutError ""))) (λ _ _, False) 100 0 (stored_world rows)
    (pollOutgoing 3 cfg (id 3) migration MigrationRuns.vm (node 60 "source") (id 90))) as Hr. fold stuck_poll in Hr.
  assert (stuck_poll.2 = Done poll_result) as E by by vm_compute. rewrite E in Hr. exact Hr.
Defined.
End WorkerRuns.
