(* ===== verification/TokenProtocol.v ===== *)
(** * The life of a refresh token

    Under any interleaving of logins, refreshes, logouts and sweeps a refresh
    token is issued once, under an id and into a family nobody else was given,
    is never active again once it is revoked or gone, and has at most one child.
    The file defines the protocol (its invariant and its steps) and the lemma
    that carries the invariant across a step. *)

From S2P Require Import Prelude Models Etcd Prog Keys Client Rules Footprint.
From S2P Require Import Accounts RefreshTokens.
Local Open Scope Z_scope.

Section TokenProtocol.
Context `{Etcd, !EtcdLaws, !Libs, !LibsLaws}.

(** ** Rows *)

Definition token_doc (w : world) (id : uuid) : option doc := e_val <$> w_map w !! refreshTokenKey id.

Definition token_at (st : estate) (id : uuid) (r : RefreshToken) : Prop :=
  e_val <$> es_map st !! refreshTokenKey id = Some (DRefreshToken r).

Definition active (w : world) (id : uuid) (r : RefreshToken) : Prop :=
  token_at (w_st w) id r ∧ rft_RevokedAt r = None.

(** The row was there at some time. *)
Definition was (w : world) (id : uuid) (r : RefreshToken) : Prop :=
  ∃ st, st ∈ states w ∧ token_at st id r.

(** The part of a token that never changes. *)
Definition same_token (r r' : RefreshToken) : Prop :=
  rft_ID r' = rft_ID r ∧ rft_FamilyID r' = rft_FamilyID r ∧ rft_ParentID r' = rft_ParentID r.

(** Some token of the family has been issued. *)
Definition started (w : world) (f : uuid) : Prop :=
  ∃ st id, st ∈ states w ∧ is_Some (es_map st !! refreshTokenFamilyIndexKey f id).

Definition barred (w : world) (f : uuid) : Prop := is_Some (w_map w !! refreshFamilyBarrierKey f).

Record token_inv (w : world) : Prop := {
  ti_wf : estate_wf (w_st w);
  ti_id : ∀ id r, was w id r → rft_ID r = id;
  ti_same : ∀ id r r', was w id r → was w id r' → same_token r r';
  ti_row : ∀ id r d, was w id r → token_doc w id = Some d → ∃ r', d = DRefreshToken r';
  ti_issued : ∀ st id, st ∈ states w → is_Some (es_map st !! refreshTokenKey id) → id ∈ w_issued w;
  ti_indexes : ∀ st k, st ∈ states w → is_Some (es_map st !! k) → key_family k = Some FRefreshFamily →
    ∃ f id, k = refreshTokenFamilyIndexKey f id ∧ f ∈ w_issued w;
  ti_index_val : ∀ f id e, w_map w !! refreshTokenFamilyIndexKey f id = Some e →
    e_val e = DStr (uuid_string id);
  ti_started : ∀ id r, was w id r → started w (rft_FamilyID r);
  ti_barrier : ∀ st f, st ∈ states w → is_Some (es_map st !! refreshFamilyBarrierKey f) → started w f;
  ti_index : ∀ id r, active w id r → is_Some (w_map w !! refreshTokenFamilyIndexKey (rft_FamilyID r) id);
  ti_parent : ∀ id r p, was w id r → rft_ParentID r = Some p → ∃ rp, was w p rp;
  ti_spent : ∀ id r p rp, was w id r → rft_ParentID r = Some p → ¬ active w p rp;
  ti_child : ∀ id1 id2 r1 r2 p, was w id1 r1 → was w id2 r2 →
    rft_ParentID r1 = Some p → rft_ParentID r2 = Some p → id1 = id2
}.

(** ** Steps *)

(** The edges of a token's life.  A token that is issued was never there before
    and its family is not barred; a put that lost a race against the sweep may
    bring a token back, but only revoked. *)
Inductive token_edge (w : world) (id : uuid) : option doc → option doc → Prop :=
| te_same d : token_edge w id d d
| te_update r r' :
    same_token r r' → (rft_RevokedAt r ≠ None → rft_RevokedAt r' ≠ None) →
    token_edge w id (Some (DRefreshToken r)) (Some (DRefreshToken r'))
| te_revive r r' :
    was w id r → same_token r r' → rft_RevokedAt r' ≠ None →
    token_edge w id None (Some (DRefreshToken r'))
| te_delete d : token_edge w id (Some d) None
| te_issue r :
    unused w (OwnKey (refreshTokenKey id)) → rft_ID r = id → rft_RevokedAt r = None →
    ¬ barred w (rft_FamilyID r) → token_edge w id None (Some (DRefreshToken r)).

Definition token_step (w w' : world) : Prop :=
  any_env w w' ∧ (token_inv w → token_inv w') ∧
  ∀ id, token_edge w id (token_doc w id) (token_doc w' id).

Definition token_ownable (w : world) (r : resource) : Prop :=
  match r with
  | OwnKey k => ∃ id, k = refreshTokenKey id ∧ id ∈ w_issued w
  | OwnPrefix p => ∃ f, p = refreshTokenFamilyIndexPrefix f ∧ f ∈ w_issued w
  | OwnUuid _ => False
  end.

Definition tokens : protocol := {|
  pr_inv := token_inv;
  pr_rely := token_step;
  pr_guar := token_step;
  pr_ownable := token_ownable
|}.

(** ** The invariant across a step *)

Lemma same_token_refl r : same_token r r.
Proof. done. Qed.

Lemma same_token_trans r1 r2 r3 : same_token r1 r2 → same_token r2 r3 → same_token r1 r3.
Proof. unfold same_token. intuition congruence. Qed.

Lemma same_token_sym r1 r2 : same_token r1 r2 → same_token r2 r1.
Proof. unfold same_token. intuition congruence. Qed.

Lemma token_doc_at w id r : token_doc w id = Some (DRefreshToken r) ↔ token_at (w_st w) id r.
Proof. done. Qed.

Lemma token_at_is_Some st id r : token_at st id r → is_Some (es_map st !! refreshTokenKey id).
Proof. unfold token_at. destruct (es_map st !! refreshTokenKey id); [by eexists|done]. Qed.

Lemma token_doc_is_Some w id d : token_doc w id = Some d → is_Some (es_map (w_st w) !! refreshTokenKey id).
Proof. unfold token_doc, w_map. destruct (es_map (w_st w) !! refreshTokenKey id); [by eexists|done]. Qed.

Lemma was_now w id r : token_at (w_st w) id r → was w id r.
Proof. exists (w_st w). split; [by left|done]. Qed.

Lemma was_env w w' id r : any_env w w' → was w id r → was w' id r.
Proof. intros (_ & _ & Hst) (st & Hin & Hr). exists st. split; [|done]. apply Hst. by right. Qed.

Lemma started_env w w' f : any_env w w' → started w f → started w' f.
Proof. intros (_ & _ & Hst) (st & id & Hin & Hs). exists st, id. split; [|done]. apply Hst. by right. Qed.

Lemma unused_was w id r : unused w (OwnKey (refreshTokenKey id)) → ¬ was w id r.
Proof. intros Hu (st & Hin & Hr). unfold token_at in Hr. by rewrite (Hu st Hin) in Hr. Qed.

(** The row a step issues. *)
Definition issues (w w' : world) (id : uuid) (r : RefreshToken) : Prop :=
  unused w (OwnKey (refreshTokenKey id)) ∧ token_at (w_st w') id r.

Section Step.
Context (w w' : world) (Hi : token_inv w) (Henv : any_env w w').
Context (Hedge : ∀ id, token_edge w id (token_doc w id) (token_doc w' id)).
(** At most one token is issued: its id is known, its index entry is written,
    and it spends its parent. *)
Context (Hissue : ∀ id r, issues w w' id r →
  id ∈ w_issued w ∧ is_Some (w_map w' !! refreshTokenFamilyIndexKey (rft_FamilyID r) id) ∧
  ∀ p, rft_ParentID r = Some p → (∃ rp, active w p rp) ∧ ∀ rp, ¬ active w' p rp).
Context (Hone : ∀ id1 id2 r1 r2, issues w w' id1 r1 → issues w w' id2 r2 → id1 = id2).
(** Index entries are kept, written for a known family, or removed when their
    token is not active. *)
Context (Hindex : ∀ k, key_family k = Some FRefreshFamily → w_map w' !! k = w_map w !! k ∨
  (w_map w' !! k = None ∧ ∀ f id r, k = refreshTokenFamilyIndexKey f id → ¬ active w' id r) ∨
  (∃ f id e, k = refreshTokenFamilyIndexKey f id ∧ f ∈ w_issued w ∧ w_map w' !! k = Some e ∧
     e_val e = DStr (uuid_string id))).
Context (Hbarrier : ∀ f, barred w' f → barred w f ∨ started w f).

Lemma step_new_row id r :
  token_at (w_st w') id r →
  (∃ r0, was w id r0 ∧ same_token r0 r) ∨
  (issues w w' id r ∧ rft_ID r = id ∧ rft_RevokedAt r = None).
Proof.
  intros Hr. pose proof (Hedge id) as He. rewrite (proj2 (token_doc_at w' id r) Hr) in He.
  inversion He as [d E1 E2|r0 r1 Hs _ E1 E2|r0 r1 Hw Hs _ E1 E2|d E1 E2|r1 Hu Hid Ha _ E1 E2]; simplify_eq.
  - left. exists r. split; [|done]. by apply was_now, token_doc_at.
  - left. exists r0. split; [|done]. by apply was_now, token_doc_at.
  - left. by exists r0.
  - right. done.
Qed.

Lemma step_was id r :
  was w' id r → (∃ r0, was w id r0 ∧ same_token r0 r) ∨
    (issues w w' id r ∧ rft_ID r = id ∧ rft_RevokedAt r = None).
Proof.
  intros (st & Hin & Hr). destruct Henv as (_ & _ & Hst). apply Hst in Hin as [->|Hin].
  - by apply step_new_row.
  - left. exists r. split; [by exists st|done].
Qed.

Lemma step_active id r :
  active w' id r → (∃ r0, active w id r0 ∧ same_token r0 r) ∨ issues w w' id r.
Proof.
  intros [Hr Ha]. pose proof (Hedge id) as He. rewrite (proj2 (token_doc_at w' id r) Hr) in He.
  inversion He as [d E1 E2|r0 r1 Hs Hm E1 E2|r0 r1 Hw Hs Hn E1 E2|d E1 E2|r1 Hu _ _ _ E1 E2]; simplify_eq.
  - left. exists r. split; [|done]. split; [by apply token_doc_at|done].
  - left. exists r0. split; [|done]. split; [by apply token_doc_at|].
    destruct (rft_RevokedAt r0) eqn:Er; [|done]. by destruct Hm.
  - right. done.
Qed.

Lemma step_spent id r p rp : was w' id r → rft_ParentID r = Some p → ¬ active w' p rp.
Proof.
  intros Hr Hp Ha. destruct (step_was id r Hr) as [(r0 & Hr0 & _ & _ & Ep)|(Hnew & _)].
  - rewrite Ep in Hp. destruct (step_active p rp Ha) as [(rp0 & Ha0 & _)|[Hu _]].
    + by eapply (ti_spent w Hi).
    + destruct (ti_parent w Hi id r0 p Hr0 Hp) as [rp0 Hrp0]. by eapply unused_was.
  - destruct (Hissue id r Hnew) as (_ & _ & Hpar). destruct (Hpar p Hp) as [_ Hn]. exact (Hn rp Ha).
Qed.

Lemma step_child id1 id2 r1 r2 p :
  was w' id1 r1 → was w' id2 r2 → rft_ParentID r1 = Some p → rft_ParentID r2 = Some p → id1 = id2.
Proof.
  assert (∀ id1 id2 r1 r2, issues w w' id1 r1 → rft_ParentID r1 = Some p → was w id2 r2 →
    rft_ParentID r2 = Some p → False) as Hmix.
  { intros i1 i2 s1 s2 Hn Hp1 Hw Hp2. destruct (Hissue i1 s1 Hn) as (_ & _ & Hpar).
    destruct (Hpar p Hp1) as [[rp Ha] _]. by eapply (ti_spent w Hi). }
  intros Hw1 Hw2 Hp1 Hp2.
  destruct (step_was id1 r1 Hw1) as [(r1' & Hr1 & _ & _ & E1)|(Hn1 & _)],
    (step_was id2 r2 Hw2) as [(r2' & Hr2 & _ & _ & E2)|(Hn2 & _)]; rewrite ?E1, ?E2 in *.
  - by eapply (ti_child w Hi).
  - by destruct (Hmix id2 id1 r2 r1').
  - by destruct (Hmix id1 id2 r1 r2').
  - by eapply Hone.
Qed.

Lemma step_index id r :
  active w' id r → is_Some (w_map w' !! refreshTokenFamilyIndexKey (rft_FamilyID r) id).
Proof.
  intros Ha. destruct (step_active id r Ha) as [(r0 & Ha0 & _ & Ef & _)|Hn].
  2: { by destruct (Hissue id r Hn) as (_ & Hs & _). }
  pose proof (ti_index w Hi id r0 Ha0) as Hs. rewrite Ef.
  assert (key_family (refreshTokenFamilyIndexKey (rft_FamilyID r0) id) = Some FRefreshFamily) as Hf.
  { unfold key_family. by rewrite class_refreshTokenFamilyIndexKey. }
  destruct (Hindex _ Hf) as [->|[[_ Hd]|(f & id' & e & _ & _ & -> & _)]]; [done| |by eexists].
  by destruct (Hd _ _ r eq_refl).
Qed.

Lemma step_same id r r' : was w' id r → was w' id r' → same_token r r'.
Proof.
  intros Hr Hr'.
  destruct (step_was id r Hr) as [(r0 & Hw0 & Hs0)|([Hu Hat] & _)],
    (step_was id r' Hr') as [(r1 & Hw1 & Hs1)|([Hu' Hat'] & _)].
  - eapply same_token_trans; [by apply same_token_sym|]. eapply same_token_trans; [|done].
    by eapply (ti_same w Hi).
  - by destruct (unused_was w id r0 Hu').
  - by destruct (unused_was w id r1 Hu).
  - unfold token_at in *. rewrite Hat in Hat'. simplify_eq. apply same_token_refl.
Qed.

Lemma step_row id r d : was w' id r → token_doc w' id = Some d → ∃ r', d = DRefreshToken r'.
Proof.
  intros Hr Hd. pose proof (Hedge id) as He. rewrite Hd in He.
  inversion He as [d' E1 E2| | | |]; simplify_eq; [|by eexists..].
  destruct (step_was id r Hr) as [(r0 & Hw0 & _)|([Hu Hat] & _)]; [by eapply (ti_row w Hi)|].
  unfold token_doc, w_map in Hd. unfold token_at in Hat. rewrite Hat in Hd. simplify_eq. by eexists.
Qed.

Lemma step_issued st id : st ∈ states w' → is_Some (es_map st !! refreshTokenKey id) → id ∈ w_issued w'.
Proof.
  pose proof Henv as (_ & Hsub & Hst). intros [->|Hin]%Hst Hs; [|apply Hsub; by eapply (ti_issued w Hi)].
  pose proof (Hedge id) as He. destruct Hs as [e Hs].
  assert (token_doc w' id = Some (e_val e)) as Hd by (unfold token_doc, w_map; by rewrite Hs).
  rewrite Hd in He. destruct (token_doc w id) as [d|] eqn:Eo.
  { apply Hsub, (ti_issued w Hi (w_st w)); [by left|]. by eapply token_doc_is_Some. }
  inversion He as [| |r0 r1 (st & Hin & Hr) _ _ E1 E2| |r1 Hu _ _ _ E1 E2].
  - apply Hsub, (ti_issued w Hi st); [done|]. by eapply token_at_is_Some.
  - apply Hsub. destruct (Hissue id r1) as (? & _); [|done]. split; [done|]. exact Hd.
Qed.

Lemma token_step_intro : token_step w w'.
Proof.
  pose proof Henv as (He & Hsub & Hst). split_and!; [done| |done]. intros _. constructor.
  - eapply estep_wf; [done|apply Hi].
  - intros id r Hr. destruct (step_was id r Hr) as [(r0 & Hw0 & E & _)|(_ & E & _)]; [|done].
    rewrite E. by apply (ti_id w Hi).
  - apply step_same.
  - apply step_row.
  - apply step_issued.
  - intros st k [->|Hin]%Hst Hs Hf.
    + destruct (Hindex k Hf) as [E|[[E _]|(f & id & e & -> & Hfi & _)]].
      * destruct (ti_indexes w Hi (w_st w) k) as (f & id & -> & ?); [by left| |done|].
        { fold (w_map w). rewrite <-E. exact Hs. }
        exists f, id. split; [done|]. by apply Hsub.
      * unfold w_map in E. rewrite E in Hs. by destruct Hs.
      * exists f, id. split; [done|]. by apply Hsub.
    + destruct (ti_indexes w Hi st k Hin Hs Hf) as (f & id & -> & ?). exists f, id. split; [done|]. by apply Hsub.
  - intros f id e Hk.
    destruct (Hindex (refreshTokenFamilyIndexKey f id)) as [E|[[E _]|(f' & id' & e' & E & _ & E' & Hv)]].
    + unfold key_family. by rewrite class_refreshTokenFamilyIndexKey.
    + rewrite E in Hk. by eapply (ti_index_val w Hi).
    + congruence.
    + apply (inj2 refreshTokenFamilyIndexKey) in E as [_ <-]. congruence.
  - intros id r Hr. destruct (step_was id r Hr) as [(r0 & Hw0 & _ & E & _)|(Hn & _)].
    + rewrite E. eapply started_env; [done|]. by eapply (ti_started w Hi).
    + destruct (Hissue id r Hn) as (_ & Hs & _). exists (w_st w'), id. split; [by left|done].
  - intros st f [->|Hin]%Hst Hs; [|eapply started_env; [done|by eapply (ti_barrier w Hi)]].
    eapply started_env; [done|]. destruct (Hbarrier f Hs); [|done].
    apply (ti_barrier w Hi (w_st w)); [by left|done].
  - apply step_index.
  - intros id r p Hr Hp. destruct (step_was id r Hr) as [(r0 & Hw0 & _ & _ & E)|(Hn & _)].
    + rewrite E in Hp. destruct (ti_parent w Hi id r0 p Hw0 Hp) as [rp ?]. exists rp. by eapply was_env.
    + destruct (Hissue id r Hn) as (_ & _ & Hpar). destruct (Hpar p Hp) as [[rp [Ha _]] _].
      exists rp. eapply was_env; [done|]. by apply was_now.
  - apply step_spent.
  - apply step_child.
Qed.
End Step.

(** ** Laws *)

Definition token_families : list family := [FRefreshToken; FRefreshFamily; FRefreshBarrier].

Lemma family_refreshTokenKey id : key_family (refreshTokenKey id) = Some FRefreshToken.
Proof. unfold key_family. by rewrite class_refreshTokenKey. Qed.
Lemma family_refreshTokenFamilyIndexKey f id :
  key_family (refreshTokenFamilyIndexKey f id) = Some FRefreshFamily.
Proof. unfold key_family. by rewrite class_refreshTokenFamilyIndexKey. Qed.
Lemma family_refreshFamilyBarrierKey f : key_family (refreshFamilyBarrierKey f) = Some FRefreshBarrier.
Proof. unfold key_family. by rewrite class_refreshFamilyBarrierKey. Qed.

(** A store without refresh tokens. *)
Lemma token_inv_none w :
  estate_wf (w_st w) →
  (∀ st k f, st ∈ states w → key_family k = Some f → f ∈ token_families → es_map st !! k = None) →
  token_inv w.
Proof.
  intros Hwf Hk.
  assert (∀ id r, ¬ was w id r) as Hno.
  { intros id r (st & Hin & Hat). unfold token_at in Hat.
    rewrite (Hk st (refreshTokenKey id) FRefreshToken) in Hat; [done|done|apply family_refreshTokenKey|set_solver]. }
  constructor; try (intros; exfalso; by eapply Hno); [done|..].
  - intros st id Hin [e He]. rewrite (Hk st (refreshTokenKey id) FRefreshToken) in He;
      [done|done|apply family_refreshTokenKey|set_solver].
  - intros st k Hin [e He] Hf. rewrite (Hk st k FRefreshFamily) in He; [done|done|done|set_solver].
  - intros f id e He. unfold w_map in He. rewrite (Hk (w_st w) _ FRefreshFamily) in He;
      [done|by left|apply family_refreshTokenFamilyIndexKey|set_solver].
  - intros st f Hin [e He]. rewrite (Hk st _ FRefreshBarrier) in He;
      [done|done|apply family_refreshFamilyBarrierKey|set_solver].
  - intros id r [Hat _]. destruct (Hno id r). by apply was_now.
Qed.

(** A step that touches none of the protocol's keys. *)
Lemma token_step_frame w w' :
  any_env w w' →
  (∀ k f, key_family k = Some f → f ∈ token_families → w_map w' !! k = w_map w !! k) →
  token_step w w'.
Proof.
  intros Henv Hk.
  assert (∀ id, token_doc w' id = token_doc w id) as Hdoc.
  { intros id. unfold token_doc. f_equal. eapply Hk; [apply family_refreshTokenKey|set_solver]. }
  assert (∀ id r, ¬ issues w w' id r) as Hno.
  { intros id r [Hu Hr]. apply (unused_was w id r Hu), was_now.
    change (token_doc w id = Some (DRefreshToken r)). rewrite <-Hdoc. exact Hr. }
  split_and!; [done| |intros id; rewrite Hdoc; constructor]. intros Hi.
  apply (token_step_intro w w'); [done|done|intros id; rewrite Hdoc; constructor|..|done].
  - intros id r Hn. by destruct (Hno id r).
  - intros id1 id2 r1 r2 Hn. by destruct (Hno id1 r1).
  - intros k Hf. left. eapply Hk; [done|set_solver].
  - intros f Hb. left. unfold barred in *. rewrite <-(Hk (refreshFamilyBarrierKey f) FRefreshBarrier);
      [done|apply family_refreshFamilyBarrierKey|set_solver].
Qed.

#[export] Instance tokens_laws : EtcdProtocol tokens.
Proof.
  split; [split|..]; simpl.
  - intros w w' Hs. apply token_step_frame; [by apply any_env_same|].
    intros k f _ _. destruct Hs as (Hst & _). unfold w_map. by rewrite Hst.
  - intros w w' ? (_ & ? & _); auto.
  - intros w w' ? (_ & ? & _); auto.
  - intros w w' [k|p|u] _ ((_ & Hsub & _) & _); simpl; [..|done].
    + intros (id & -> & ?). exists id. split; [done|set_solver].
    + intros (f & -> & ?). exists f. split; [done|set_solver].
  - by intros w [].
  - by intros w w' [? _].
Qed.

Lemma prefix_family f f' id :
  String.prefix (refreshTokenFamilyIndexPrefix f) (refreshTokenFamilyIndexKey f' id) = true → f' = f.
Proof.
  intros [t E]%prefix_app. apply (f_equal key_class) in E. rewrite class_refreshTokenFamilyIndexKey in E.
  change (key_class (refreshTokenFamilyIndexPrefix f +:+ t)) with
    (Some (FRefreshFamily, (uuid_string f +:+ "/") +:+ t)) in E.
  injection E as E. rewrite <-string_app_assoc in E. by apply pair_inj in E as [? _].
Qed.

Lemma family_prefix f id :
  String.prefix (refreshTokenFamilyIndexPrefix f) (refreshTokenFamilyIndexKey f id) = true.
Proof.
  assert (refreshTokenFamilyIndexKey f id = refreshTokenFamilyIndexPrefix f +:+ uuid_string id) as ->; [|apply app_prefix].
  change ("/otherix/index/refresh_tokens/family/" +:+ (uuid_string f +:+ "/" +:+ uuid_string id) =
    ("/otherix/index/refresh_tokens/family/" +:+ uuid_string f +:+ "/") +:+ uuid_string id).
  by rewrite <-!string_app_assoc.
Qed.

Lemma prefix_family_class f k :
  String.prefix (refreshTokenFamilyIndexPrefix f) k = true → key_family k = Some FRefreshFamily.
Proof. by intros [t ->]%prefix_app. Qed.

Lemma tokens_frame fs : (∀ f, f ∈ token_families → f ∉ fs) → Frame tokens fs.
Proof.
  intros Hfs. split; simpl.
  - intros w w' _ Henv Hk. apply token_step_frame; [done|]. intros k f Hf Hin. apply Hk.
    unfold key_in. rewrite Hf. by apply Hfs.
  - intros w [k|p|u]; simpl; [..|done].
    + intros (id & -> & _). unfold key_in. rewrite family_refreshTokenKey. apply Hfs. set_solver.
    + intros (f & -> & _) k Hp. unfold key_in. rewrite (prefix_family_class f k Hp). apply Hfs. set_solver.
Qed.
End TokenProtocol.
