(* ===== verification/TokenOps.v ===== *)
(** * The operations on refresh tokens follow the protocol

    Every transaction of the store's token operations and of the session service
    is a step of [token_step], whatever runs beside it. *)

From S2P Require Import Prelude Models Etcd Prog Keys Client Rules Footprint Guards.
From S2P Require Import Accounts RefreshTokens AuthService TokenProtocol.
Local Open Scope Z_scope.

Section TokenOps.
Context `{Etcd, !EtcdLaws, !Libs, !LibsLaws}.

(** ** What survives interference *)

(** The token exists no more, or is revoked: it will never be active again. *)
Definition dead (w : world) (id : uuid) : Prop :=
  (∃ r, was w id r) ∧ ∀ r, ¬ active w id r.

Lemma dead_step w w' id : token_step w w' → dead w id → dead w' id.
Proof.
  intros (Henv & _ & He) [[r Hr] Hd]. split; [exists r; by eapply was_env|].
  intros r' Ha. destruct (step_active w w' He id r' Ha) as [(r0 & Ha0 & _)|[Hu _]]; [by eapply Hd|].
  by eapply unused_was.
Qed.

Lemma was_step w w' id r : token_step w w' → was w id r → was w' id r.
Proof. intros [Henv _]. by apply was_env. Qed.

Lemma started_step w w' f : token_step w w' → started w f → started w' f.
Proof. intros [Henv _]. by apply started_env. Qed.

Lemma token_step_same w w' : same w w' → token_step w w'.
Proof. apply (pr_stutter (pr := tokens)). Qed.

(** A fact every step keeps survives until the next request. *)
Lemma tokens_settled (P : world → Prop) O w w' :
  (∀ w w', token_step w w' → P w → P w') → settled tokens O w w' → P w → P w'.
Proof.
  intros HP (w1 & (Hr & _ & _) & Hs) Hw. apply (HP w1); [by apply token_step_same|]. clear Hs w'.
  induction Hr as [|w w1 w2 [Hrely _] _ IH]; [done|]. by apply IH, (HP w).
Qed.

Lemma tokens_settled_inv O w w' : settled tokens O w w' → token_inv w'.
Proof. apply (settled_inv tokens). Qed.

Lemma tokens_reaches (P : world → Prop) O w w' :
  (∀ w w', token_step w w' → P w → P w') → reaches tokens O w w' → P w → P w'.
Proof. intros HP Hr. apply (tokens_settled P O); [done|by apply reaches_settled]. Qed.

(** ** Steps that issue no token *)

Lemma own_step_quiet w w' :
  token_inv w → any_env w w' → (∀ id, token_edge w id (token_doc w id) (token_doc w' id)) →
  (∀ id r, ¬ issues w w' id r) →
  (∀ k, key_family k = Some FRefreshFamily → w_map w' !! k = w_map w !! k ∨
     (w_map w' !! k = None ∧ ∀ f id r, k = refreshTokenFamilyIndexKey f id → ¬ active w' id r)) →
  (∀ f, barred w' f → barred w f ∨ started w f) →
  own_step tokens ∅ ∅ w w'.
Proof.
  intros Hi Henv Hedge Hno Hindex Hbar. split_and!; [| |set_solver].
  - apply token_step_intro; [done|done|done|..|done].
    + intros id r Hn. by destruct (Hno id r).
    + intros id1 id2 r1 r2 Hn. by destruct (Hno id1 r1).
    + intros k Hf. destruct (Hindex k Hf) as [?|?]; auto.
  - pose proof Henv as (_ & _ & Hst). intros [k|p|u] Ho _ Hu; [..|done].
    + destruct Ho as (id & -> & _). intros st [->|Hin]%Hst; [|by apply Hu].
      pose proof (Hedge id) as He.
      assert (token_doc w id = None) as Hd.
      { unfold token_doc. unfold w_map. rewrite (Hu (w_st w)) by by left. done. }
      rewrite Hd in He. apply eq_None_not_Some. intros [e Hs].
      assert (token_doc w' id = Some (e_val e)) as Hd' by (unfold token_doc, w_map; by rewrite Hs).
      rewrite Hd' in He. inversion He as [| |r r' Hw _ _ E1 E2| |r _ _ _ _ E1 E2].
      * by eapply unused_was.
      * apply (Hno id r). split; [done|]. change (token_doc w' id = Some (DRefreshToken r)). congruence.
    + destruct Ho as (f & -> & _). intros st k [->|Hin]%Hst Hp; [|by apply Hu].
      destruct (Hindex k (prefix_family_class f k Hp)) as [E|[E _]]; [|done].
      fold (w_map w'). rewrite E. apply Hu; [by left|done].
Qed.

(** A row that may be put under [id]: revoked, and of a token that was there; or
    the present row with the same revocation. *)
Definition put_ok (w : world) (id : uuid) (r' : RefreshToken) : Prop :=
  (∃ r, was w id r ∧ same_token r r' ∧ rft_RevokedAt r' ≠ None) ∨
  (∃ r, token_at (w_st w) id r ∧ same_token r r' ∧ rft_RevokedAt r' = rft_RevokedAt r).

Definition quiet_put (w : world) (o : op) : Prop :=
  (∃ id r, o = OpPut (refreshTokenKey id) (DRefreshToken r) ∧ put_ok w id r) ∨
  (∃ f v, o = OpPut (refreshFamilyBarrierKey f) v ∧ started w f).

Lemma put_ok_edge w id r' :
  token_inv w → put_ok w id r' → token_edge w id (token_doc w id) (Some (DRefreshToken r')).
Proof.
  intros Hi [(r & Hw & Hs & Hr)|(r & Hat & Hs & Hr)].
  - destruct (token_doc w id) as [d|] eqn:Ed; [|by eapply te_revive].
    destruct (ti_row w Hi id r d Hw Ed) as [r0 ->]. apply te_update; [|done].
    eapply same_token_trans; [|exact Hs]. eapply (ti_same w Hi); [|exact Hw]. by apply was_now.
  - rewrite (proj2 (token_doc_at w id r) Hat). apply te_update; [done|by rewrite Hr].
Qed.

Lemma own_step_puts w ops :
  token_inv w → w_rev w < max_i64 → Forall (quiet_put w) ops →
  own_step tokens ∅ ∅ w (applied w ops).
Proof.
  intros Hi Hmax Hops. set (w' := applied w ops). rewrite Forall_forall in Hops.
  assert (∀ k, w_map w' !! k = w_map w !! k ∨
    (∃ id r e, k = refreshTokenKey id ∧ w_map w' !! k = Some e ∧ e_val e = DRefreshToken r ∧ put_ok w id r) ∨
    (∃ f, k = refreshFamilyBarrierKey f ∧ started w f)) as Hk.
  { intros k. unfold w'. rewrite applied_map.
    destruct (apply_ops_cases (w_rev w + 1) ops (w_map w) k) as [?|[(e & E & Hin)|[_ Hin]]]; [by left|..];
      destruct (Hops _ Hin) as [(id & r & Eo & Hp)|(f & v & Eo & Hs)]; simplify_eq.
    - right. left. eexists id, r, e. done.
    - right. right. by exists f. }
  assert (∀ id, token_doc w' id = token_doc w id ∨
    ∃ r, token_doc w' id = Some (DRefreshToken r) ∧ put_ok w id r) as Hdoc.
  { intros id. unfold token_doc. destruct (Hk (refreshTokenKey id)) as [->|[(id' & r & e & E & He & Hv & Hp)|(f & E & _)]].
    - by left.
    - apply (inj refreshTokenKey) in E as <-. right. exists r. rewrite He. simpl. by rewrite Hv.
    - exfalso. revert E. key_neq. }
  assert (∀ id, token_edge w id (token_doc w id) (token_doc w' id)) as Hedge.
  { intros id. destruct (Hdoc id) as [->|(r & -> & Hp)]; [constructor|by apply put_ok_edge]. }
  assert (∀ id r, ¬ issues w w' id r) as Hno.
  { intros id r [Hu Hat]. change (token_doc w' id = Some (DRefreshToken r)) in Hat.
    destruct (Hdoc id) as [E|(r' & _ & [(r0 & Hw & _)|(r0 & Hw & _)])].
    - rewrite E in Hat. by eapply unused_was, was_now.
    - by eapply unused_was.
    - by eapply unused_was, was_now. }
  apply own_step_quiet; [done|by apply any_env_applied|done|done|..].
  - intros k Hf. left. destruct (Hk k) as [?|[(id & r & e & -> & _)|(f & -> & _)]]; [done|..].
    + by rewrite family_refreshTokenKey in Hf.
    + by rewrite family_refreshFamilyBarrierKey in Hf.
  - intros f Hb. destruct (Hk (refreshFamilyBarrierKey f)) as [E|[(id & r & e & E & _)|(f' & E & Hs)]].
    + left. unfold barred in *. by rewrite <-E.
    + exfalso. revert E. key_neq.
    + apply (inj refreshFamilyBarrierKey) in E as <-. by right.
Qed.

(** Deletes: an index entry goes with its token. *)
Definition quiet_deletes (ops : list op) : Prop :=
  ∀ o, o ∈ ops → ∃ k, o = OpDelete k ∧ (key_family k = Some FRefreshFamily →
    ∃ f id, k = refreshTokenFamilyIndexKey f id ∧ OpDelete (refreshTokenKey id) ∈ ops).

Lemma own_step_token_deletes w ops :
  token_inv w → w_rev w < max_i64 → quiet_deletes ops → own_step tokens ∅ ∅ w (applied w ops).
Proof.
  intros Hi Hmax Hops. set (w' := applied w ops).
  assert (∀ k, k ∉ put_keys ops) as Hnoput.
  { intros k (o & Hin & E)%list_elem_of_omap. by destruct (Hops o Hin) as (k' & -> & _). }
  assert (∀ k, w_map w' !! k = w_map w !! k ∨ (w_map w' !! k = None ∧ OpDelete k ∈ ops)) as Hk.
  { intros k. unfold w'. rewrite applied_map.
    destruct (apply_ops_cases (w_rev w + 1) ops (w_map w) k) as [?|[(e & E & Hin)|?]]; [by left| |by right].
    by destruct (Hops _ Hin) as (k' & ? & _). }
  assert (∀ id, token_doc w' id = token_doc w id ∨ token_doc w' id = None) as Hdoc.
  { intros id. unfold token_doc. destruct (Hk (refreshTokenKey id)) as [->|[-> _]]; [by left|by right]. }
  assert (∀ id, token_edge w id (token_doc w id) (token_doc w' id)) as Hedge.
  { intros id. destruct (Hdoc id) as [-> | ->]; [constructor|]. destruct (token_doc w id); constructor. }
  apply own_step_quiet; [done|by apply any_env_applied|done|..].
  - intros id r [Hu Hat]. change (token_doc w' id = Some (DRefreshToken r)) in Hat.
    destruct (Hdoc id) as [E|E]; rewrite E in Hat; [|done]. by eapply unused_was, was_now.
  - intros k Hf. destruct (Hk k) as [?|[Hn Hin]]; [by left|right]. split; [done|].
    intros f id r -> [Hat Ha]. change (token_doc w' id = Some (DRefreshToken r)) in Hat.
    destruct (Hops _ Hin) as (k' & Ek & Hcov). injection Ek as <-. destruct (Hcov Hf) as (f' & id' & E & Hd).
    apply (inj2 refreshTokenFamilyIndexKey) in E as [<- <-].
    unfold token_doc, w' in Hat. by rewrite applied_map, apply_ops_deleted in Hat.
  - intros f Hb. left. unfold barred in *. destruct (Hk (refreshFamilyBarrierKey f)) as [E|[E _]];
      rewrite E in Hb; [done|by destruct Hb].
Qed.

(** ** Rules *)

(** Every step of the program follows the protocol. *)
Definition safe {R} (p : prog R) (w : world) : Prop := wp tokens p ∅ (λ _ _ _, True) w.

(** Facts about the past, which every step keeps. *)
Definition lasting (P : world → Prop) : Prop := ∀ w w', token_step w w' → P w → P w'.

Lemma lasting_True : lasting (λ _, True).
Proof. by intros w w'. Qed.

Lemma lasting_and P Q : lasting P → lasting Q → lasting (λ w, P w ∧ Q w).
Proof. intros HP HQ w w' Hs [??]. split; eauto. Qed.

Lemma lasting_was id r : lasting (λ w, was w id r).
Proof. intros w w'. apply was_step. Qed.

Lemma lasting_started f : lasting (λ w, started w f).
Proof. intros w w'. apply started_step. Qed.

Lemma lasting_issued u : lasting (λ w, u ∈ w_issued w).
Proof. intros w w' ((_ & Hsub & _) & _). apply Hsub. Qed.

Lemma wp_keep (P : world → Prop) {R} (p : prog R) O Q w :
  lasting P → token_inv w → P w → wp tokens p O Q w →
  wp tokens p O (λ r O w, Q r O w ∧ token_inv w ∧ P w) w.
Proof. intros HP Hi Hw. apply (wp_stable tokens P); [by intros ??? ?; apply HP..|done|done]. Qed.

Lemma safe_own {R} (p : prog R) O w : safe p w → wp tokens p O (λ _ _ _, True) w.
Proof.
  intros Hp. eapply wp_mono; [|eapply (wp_more_own tokens p ∅ O); [set_solver|exact Hp]]. done.
Qed.

(** A step of a composed program, with what it leaves known. *)
Lemma wp_seq (P : world → Prop) {A B} (m : M A) (f : A → M B) O w :
  lasting P → token_inv w → P w → wp tokens m O (λ _ _ _, True) w →
  (∀ a w', token_inv w' → P w' → safe (f a) w') → wp tokens (m ≫= f) O (λ _ _ _, True) w.
Proof.
  intros HP Hi Hw Hm Hf. apply wp_bindM. eapply wp_mono; [|by eapply wp_keep].
  intros [a|e] O' w' (_ & Hi' & HP'); [|done]. by apply safe_own, Hf.
Qed.

Lemma wp_attempt {A} (m : M A) O Q w :
  wp tokens m O (λ r O w, Q (Ok r) O w) w → wp tokens (attempt m) O Q w.
Proof. intros Hm. by apply wp_bind. Qed.

Lemma safe_frame fs {R} (p : prog R) w :
  (∀ f, f ∈ token_families → f ∉ fs) → writes fs p → safe p w.
Proof.
  intros Hfs Hp. pose proof (tokens_frame fs Hfs).
  eapply wp_mono; [|by apply (wp_frame tokens fs)]. done.
Qed.

(** A read row has been there. *)
Lemma wp_GetJSON_token id O Q w :
  (∀ w2 e, settled tokens O w w2 → Q (Err e) O w2) →
  (∀ w2, settled tokens O w w2 → (∀ r, ¬ active w2 id r) → Q (Ok None) O w2) →
  (∀ w2 r, settled tokens O w w2 → token_at (w_st w2) id r → Q (Ok (Some r)) O w2) →
  wp tokens (GetJSON (A := RefreshToken) (refreshTokenKey id)) O Q w.
Proof.
  intros HE HN HS. apply (wp_GetJSON tokens); [done|..].
  - intros w2 Hw2 Hk. apply HN; [done|]. intros r [Hat _]. unfold token_at in Hat.
    fold (w_map w2) in Hat. by rewrite Hk in Hat.
  - intros w2 e r Hw2 Hk He. apply HS; [done|]. unfold token_at. fold (w_map w2). rewrite Hk. simpl. by rewrite He.
Qed.

(** Puts that stay allowed whatever happens meanwhile. *)
Definition revoking (w : world) (o : op) : Prop :=
  ∃ id r r', o = OpPut (refreshTokenKey id) (DRefreshToken r') ∧ was w id r ∧ same_token r r' ∧
    rft_RevokedAt r' ≠ None.
Definition lasting_put (w : world) (o : op) : Prop :=
  revoking w o ∨ (∃ f v, o = OpPut (refreshFamilyBarrierKey f) v ∧ started w f).

Lemma lasting_revoking o : lasting (λ w, revoking w o).
Proof.
  intros w w' Hs (id & r & r' & ? & Hw & ?). exists id, r, r'. split_and!; [done|by eapply was_step|naive_solver..].
Qed.

Lemma lasting_lasting_put o : lasting (λ w, lasting_put w o).
Proof.
  intros w w' Hs [Hr|(f & v & ? & Hst)]; [left|right].
  - by eapply lasting_revoking.
  - exists f, v. split; [done|]. by eapply started_step.
Qed.

Lemma lasting_Forall {A} (P : world → A → Prop) l :
  (∀ a, lasting (λ w, P w a)) → lasting (λ w, Forall (P w) l).
Proof. intros HP w w' Hs Hl. eapply Forall_impl; [exact Hl|]. intros a. by apply HP. Qed.

Lemma lasting_puts ops : lasting (λ w, Forall (lasting_put w) ops).
Proof. apply lasting_Forall, lasting_lasting_put. Qed.

Lemma lasting_put_quiet w o : lasting_put w o → quiet_put w o.
Proof. intros [(id & r & r' & ? & ? & ?)|?]; [|by right]. left. exists id, r'. split; [done|]. left. eauto. Qed.

(** Transactions without compares that issue nothing. *)
Definition quiet (w : world) (ops : list op) : Prop := Forall (lasting_put w) ops ∨ quiet_deletes ops.

Lemma lasting_quiet ops : lasting (λ w, quiet w ops).
Proof. intros w w' Hs [?|?]; [left|by right]. by eapply lasting_puts. Qed.

Lemma own_step_quiet_ops w ops :
  token_inv w → w_rev w < max_i64 → quiet w ops → own_step tokens ∅ ∅ w (applied w ops).
Proof.
  intros Hi Hmax [Hops|Hops]; [|by apply own_step_token_deletes]. apply own_step_puts; [done|done|].
  eapply Forall_impl; [exact Hops|]. apply lasting_put_quiet.
Qed.

Lemma safe_txn ops w : quiet w ops → safe (raw_txn [] ops []) w.
Proof.
  intros Hq. apply (wp_raw_txn tokens); [done|done|]. intros w1 Hw1 _ _ Hmax. exists ∅.
  split; [|done]. apply own_step_quiet_ops; [by destruct Hw1 as (_ & ? & _)|done|].
  eapply (tokens_reaches (λ w, quiet w ops)); [apply lasting_quiet|done|done].
Qed.

(** A program of such transactions, one per chunk. *)
Lemma safe_commit_chunks fuel ops w :
  token_inv w → (∀ n ops', ops' = take maxTxnOps (drop (n * maxTxnOps) ops) → quiet w ops') →
  safe (commit_chunks fuel ops) w.
Proof.
  revert ops w. induction fuel as [|fuel IH]; intros ops w Hi Hq; [by destruct ops|].
  destruct ops as [|o ops]; [done|]. change (safe (raw_txn [] (take maxTxnOps (o :: ops)) [] ≫= λ _,
    commit_chunks fuel (drop maxTxnOps (o :: ops))) w). revert Hq. generalize (o :: ops). clear o ops. intros ops Hq.
  apply (wp_seq (λ w, ∀ n ops', ops' = take maxTxnOps (drop (n * maxTxnOps) ops) → quiet w ops'));
    [|done|done|..].
  - intros w1 w2 Hs Hall n ops' E. eapply lasting_quiet; [exact Hs|by eapply Hall].
  - apply safe_txn. by apply (Hq 0%nat).
  - intros _ w' Hi' Hq'. apply IH; [done|]. intros n ops' ->. apply (Hq' (S n)).
    by rewrite drop_drop.
Qed.

Lemma safe_commit_puts ops w : token_inv w → Forall (lasting_put w) ops → safe (commitInChunks ops) w.
Proof.
  intros Hi Hops. apply safe_commit_chunks; [done|]. intros n ops' ->. left. by apply Forall_take, Forall_drop.
Qed.

(** ** Steps that issue a token *)

(** What precedes the token's own writes: nothing at a login, the revocation of
    its parent at a rotation. *)
Inductive spends (w : world) : option uuid → list op → Prop :=
| spends_none : spends w None []
| spends_parent p rp rp' :
    active w p rp → same_token rp rp' → rft_RevokedAt rp' ≠ None →
    spends w (Some p) [OpPut (refreshTokenKey p) (DRefreshToken rp')].

Section Issue.
Context (w : world) (row : RefreshToken) (pre : list op).
Let id := rft_ID row.
Let f := rft_FamilyID row.
Let ops := pre ++ refreshTokenWriteOps row (DRefreshToken row).
Let w' := applied w ops.
Context (Hi : token_inv w) (Hmax : w_rev w < max_i64).
Context (Hnew : unused w (OwnKey (refreshTokenKey id))) (Hactive : rft_RevokedAt row = None).
Context (Hpre : spends w (rft_ParentID row) pre).

Lemma issue_pre o : o ∈ pre → ∃ p rp rp', o = OpPut (refreshTokenKey p) (DRefreshToken rp') ∧
  rft_ParentID row = Some p ∧ active w p rp ∧ same_token rp rp' ∧ rft_RevokedAt rp' ≠ None ∧ p ≠ id.
Proof.
  destruct Hpre as [|p rp rp' Ha Hs Hr]; [set_solver|]. intros ->%list_elem_of_singleton.
  exists p, rp, rp'. split_and!; [done|done|done|done|done|]. intros ->.
  eapply unused_was; [done|]. apply was_now, Ha.
Qed.

(** The keys the transaction changes. *)
Lemma issue_lookup k :
  w_map w' !! k = w_map w !! k ∨
  ∃ e, w_map w' !! k = Some e ∧ OpPut k (e_val e) ∈ ops.
Proof.
  unfold w'. rewrite applied_map.
  destruct (apply_ops_cases (w_rev w + 1) ops (w_map w) k) as [?|[?|[_ Hin]]]; [by left|by right|exfalso].
  unfold ops in Hin. apply elem_of_app in Hin as [Hin|Hin].
  - by destruct (issue_pre _ Hin) as (? & ? & ? & ? & _).
  - unfold refreshTokenWriteOps in Hin. set_solver.
Qed.

Lemma issue_op k v :
  OpPut k v ∈ ops → key_family k ∈ Some <$> [FRefreshToken; FRefreshHash; FRefreshUser] ∨
    k = refreshTokenFamilyIndexKey f id.
Proof.
  intros Hin. unfold ops in Hin. apply elem_of_app in Hin as [Hin|Hin].
  - destruct (issue_pre _ Hin) as (p & _ & rp' & E & _). apply put_eq in E as [-> _].
    rewrite family_refreshTokenKey. set_solver.
  - unfold refreshTokenWriteOps in Hin. rewrite !elem_of_cons in Hin.
    destruct Hin as [E|[E|[E|[E|E]]]]; [apply put_eq in E as [-> _]..|set_solver]; [..|by right|]; left;
      unfold key_family; autorewrite with keys; simpl; set_solver.
Qed.

Lemma issue_row : token_at (w_st w') id row.
Proof.
  unfold token_at. fold (w_map w'). unfold w', ops, refreshTokenWriteOps. rewrite applied_map.
  apply (apply_ops_put [FRefreshHash; FRefreshFamily; FRefreshUser]).
  - repeat constructor; simpl; key_in_solve.
  - key_in_solve.
Qed.

Lemma issue_index : ∃ e, w_map w' !! refreshTokenFamilyIndexKey f id = Some e ∧ e_val e = DStr (uuid_string id).
Proof.
  assert (e_val <$> w_map w' !! refreshTokenFamilyIndexKey f id = Some (DStr (uuid_string id))) as Hk.
  { unfold w', ops, refreshTokenWriteOps. rewrite applied_map.
    change (pre ++ [?a; ?b; ?c; ?d]) with (pre ++ [a; b] ++ c :: [d]). rewrite app_assoc.
    apply (apply_ops_put [FRefreshUser]); [repeat constructor; simpl; key_in_solve|key_in_solve]. }
  destruct (w_map w' !! _) as [e|]; [|done]. exists e. by simplify_eq/=.
Qed.

Lemma issue_doc id' :
  id' ≠ id → token_doc w' id' = token_doc w id' ∨
    ∃ rp rp', rft_ParentID row = Some id' ∧ active w id' rp ∧ token_doc w' id' = Some (DRefreshToken rp') ∧
      same_token rp rp' ∧ rft_RevokedAt rp' ≠ None.
Proof.
  intros Hne. unfold token_doc. destruct (issue_lookup (refreshTokenKey id')) as [->|(e & He & Hin)]; [by left|].
  right. unfold ops in Hin. apply elem_of_app in Hin as [Hin|Hin].
  - destruct (issue_pre _ Hin) as (p & rp & rp' & E & ?).
    apply put_eq in E as [Ek Ev]. apply (inj refreshTokenKey) in Ek as <-. exists rp, rp'. rewrite He. simpl. rewrite Ev. naive_solver.
  - exfalso. unfold refreshTokenWriteOps in Hin. rewrite !elem_of_cons in Hin.
    destruct Hin as [E|[E|[E|[E|E]]]]; [apply put_eq in E as [E _]..|set_solver]; revert E; [|key_neq..].
    intros E%(inj refreshTokenKey). by apply Hne.
Qed.

Lemma issue_edge : ¬ barred w f → ∀ id', token_edge w id' (token_doc w id') (token_doc w' id').
Proof.
  intros Hb id'. destruct (decide (id' = id)) as [->|Hne].
  - assert (token_doc w id = None) as -> by (unfold token_doc, w_map; by rewrite (Hnew (w_st w)); [|left]).
    rewrite (proj2 (token_doc_at w' id row) issue_row). by constructor.
  - destruct (issue_doc id' Hne) as [->|(rp & rp' & _ & [Ha _] & -> & Hs & Hr)]; [constructor|].
    rewrite (proj2 (token_doc_at w id' rp) Ha). by constructor.
Qed.

Lemma issue_only id' r : issues w w' id' r → id' = id ∧ r = row.
Proof.
  intros [Hu Hat]. destruct (decide (id' = id)) as [->|Hne].
  - split; [done|]. pose proof issue_row as Hrow. unfold token_at in *. rewrite Hrow in Hat. by simplify_eq.
  - exfalso. destruct (issue_doc id' Hne) as [E|(rp & rp' & _ & [Ha _] & _)].
    + change (token_doc w' id' = Some (DRefreshToken r)) in Hat. rewrite E in Hat.
      by eapply unused_was, was_now.
    + by eapply unused_was, was_now.
Qed.

Lemma issue_parent p : rft_ParentID row = Some p → (∃ rp, active w p rp) ∧ ∀ rp, ¬ active w' p rp.
Proof.
  intros Hp. assert (∃ rp rp', active w p rp ∧ rft_RevokedAt rp' ≠ None ∧ p ≠ id ∧
    pre = [OpPut (refreshTokenKey p) (DRefreshToken rp')]) as (rp & rp' & Ha & Hr & Hne & E).
  { destruct Hpre as [|q rq rq' Ha Hs Hr]; [done|]. injection Hp as ->. exists rq, rq'.
    split_and!; [done|done| |done]. intros ->. by eapply unused_was, was_now, Ha. }
  split; [by eexists|]. intros r [Hat Hn]. unfold token_at in Hat. fold (w_map w') in Hat.
  unfold w', ops in Hat. rewrite applied_map, apply_ops_app, apply_ops_lookup_ne, E in Hat.
  - simpl in Hat. rewrite lookup_insert_eq in Hat. by simplify_eq/=.
  - simpl. rewrite !elem_of_cons. intros [Ek|[Ek|[Ek|[Ek|Ek]]]]; [|revert Ek; key_neq..|set_solver].
    by apply (inj refreshTokenKey) in Ek.
  - simpl. set_solver.
Qed.

Lemma issue_step : id ∈ w_issued w → f ∈ w_issued w → ¬ barred w f → token_step w w'.
Proof.
  intros Hid Hf Hb.
  apply token_step_intro; [done|by apply any_env_applied|by apply issue_edge|..].
  - intros id' r [-> ->]%issue_only. split_and!; [done| |apply issue_parent].
    destruct issue_index as (e & He & _). by exists e.
  - by intros id1 id2 r1 r2 [-> _]%issue_only [-> _]%issue_only.
  - intros k Hk. destruct (issue_lookup k) as [?|(e & He & Hin)]; [by left|]. right. right.
    destruct (issue_op k _ Hin) as [Hn| ->]; [rewrite Hk in Hn; set_solver|]. destruct issue_index as (e' & He' & Hv). exists f, id, e'. done.
  - intros f' [e He]. left. destruct (issue_lookup (refreshFamilyBarrierKey f')) as [E|(e' & He' & Hin)].
    + exists e. by rewrite <-E.
    + exfalso. pose proof (family_refreshFamilyBarrierKey f') as Hk.
      destruct (issue_op _ _ Hin) as [Hn|E]; [by rewrite Hk in Hn; set_solver|]. revert E. key_neq.
Qed.

Lemma own_step_issue O :
  id ∈ w_issued w → f ∈ w_issued w → ¬ barred w f → OwnKey (refreshTokenKey id) ∈ O →
  OwnPrefix (refreshTokenFamilyIndexPrefix f) ∈ O ∨ ¬ unused w (OwnPrefix (refreshTokenFamilyIndexPrefix f)) →
  own_step tokens O ∅ w w'.
Proof.
  intros Hid Hf Hb Hown Hpfx. split_and!; [by apply issue_step| |set_solver].
  pose proof (any_env_applied w ops Hmax) as (_ & _ & Hst).
  intros [k|p|u] Ho Hn Hu; [..|done].
  - destruct Ho as (id' & -> & _). intros st [->|Hin]%Hst; [|by apply Hu].
    assert (id' ≠ id) as Hne by (by intros ->).
    destruct (issue_doc id' Hne) as [E|(rp & _ & _ & [Ha _] & _)].
    + unfold token_doc, w_map in E. rewrite (Hu (w_st w)) in E by by left. fold w'. by destruct (es_map (w_st w') !! _).
    + exfalso. by eapply unused_was, was_now.
  - destruct Ho as (f' & -> & _). assert (f' ≠ f) as Hne by (intros ->; tauto).
    intros st k [->|Hin]%Hst Hp; [|by apply Hu].
    destruct (issue_lookup k) as [E|(e & _ & Hin)].
    + fold w'. fold (w_map w'). rewrite E. apply Hu; [by left|done].
    + exfalso. pose proof (prefix_family_class f' k Hp) as Hk.
      destruct (issue_op _ _ Hin) as [Hc| ->]; [rewrite Hk in Hc; set_solver|]. by apply prefix_family in Hp.
Qed.
End Issue.

(** ** The store's operations *)

Lemma same_token_revoked r t : same_token r (revoked r t).
Proof. done. Qed.

Lemma safe_Put k v w : token_inv w → lasting_put w (OpPut k v) → safe (Put k v) w.
Proof.
  intros Hi Hv. unfold Put, capValue. case_match; [done|]. apply wp_bindM, (wp_mret tokens).
  apply (wp_seq (λ _, True)); [apply lasting_True|done|done| |by intros; exact I].
  apply safe_txn. left. by apply Forall_singleton.
Qed.

Lemma safe_RevokeRefreshToken id w : token_inv w → safe (RevokeRefreshToken id) w.
Proof.
  intros Hi. apply wp_bindM, wp_GetJSON_token; [done|done|]. intros w2 r Hw2 Hat.
  destruct (is_revoked r); [done|]. apply wp_bindM, (wp_now tokens). intros w3 t Hw3.
  apply safe_Put; [by eapply tokens_settled_inv|]. left. exists id, r, (revoked r t). split_and!; [done| |done..].
  eapply (tokens_settled (λ w, was w id r)); [apply lasting_was|done|by apply was_now].
Qed.

Lemma safe_putFamilyBarrier ttl f w : token_inv w → started w f → safe (putFamilyBarrier ttl f) w.
Proof.
  intros Hi Hf. apply wp_bindM, (wp_now tokens). intros w2 t Hw2.
  apply wp_bindM, (wp_Marshal tokens); [done|]. apply safe_Put; [by eapply tokens_settled_inv|]. right. eexists f, _. split; [done|].
  eapply (tokens_settled (λ w, started w f)); [apply lasting_started|done|done].
Qed.

Lemma lasting_settled_inv (P : world → Prop) O w w' :
  lasting P → settled tokens O w w' → P w → token_inv w' ∧ P w'.
Proof. intros HP Hs Hw. split; [by eapply tokens_settled_inv|]. by eapply tokens_settled. Qed.

Lemma wp_revoke_indexed_op t v ops w :
  Forall (lasting_put w) ops →
  wp tokens (revoke_indexed_op t v ops) ∅
    (λ r O w', O = ∅ ∧ match r with Ok ops' => token_inv w' ∧ Forall (lasting_put w') ops' | _ => True end) w.
Proof.
  intros Hops. unfold revoke_indexed_op. destruct (indexed_id v) as [id|]; [|done].
  assert (∀ w2, settled tokens ∅ w w2 → token_inv w2 ∧ Forall (lasting_put w2) ops) as Hk.
  { intros w2 Hw2. by apply (lasting_settled_inv (λ w, Forall (lasting_put w) ops) ∅ w); [apply lasting_puts|..]. }
  apply wp_bindM, wp_GetJSON_token; [done|by intros; split; [|apply Hk]|]. intros w2 r Hw2 Hat.
  destruct (is_revoked r); [by split; [|apply Hk]|]. apply wp_bindM, (wp_Marshal tokens); [done|].
  split; [done|]. destruct (Hk w2 Hw2) as [? Hops2]. split; [done|]. apply Forall_app. split; [done|].
  apply Forall_singleton. left. exists id, r, (revoked r t). split_and!; [done|by apply was_now|done..].
Qed.

Lemma safe_revokeIndexed prefix w : token_inv w → safe (revokeIndexed prefix) w.
Proof.
  intros Hi. apply (wp_seq (λ _, True)); [apply lasting_True|done|done|by eapply (safe_frame []); [set_solver|]|].
  intros items w2 Hi2 _. apply wp_bindM, (wp_now tokens). intros w3 t Hw3.
  apply wp_bindM, (wp_for_each tokens items [] _ ∅ (λ ops w, token_inv w ∧ Forall (lasting_put w) ops)).
  - split; [by eapply tokens_settled_inv|done].
  - intros kv ops w4 _ [Hi4 Hops]. eapply wp_mono; [|by apply wp_revoke_indexed_op]. by intros [] O w5.
  - intros ops w4 [Hi4 Hops]. by apply safe_commit_puts.
Qed.

Lemma safe_for_each {A} (P : world → Prop) (l : list A) (body : A → unit → M unit) w :
  lasting P → token_inv w → P w → (∀ x u w, x ∈ l → token_inv w → P w → safe (body x u) w) →
  safe (for_each l tt body) w.
Proof.
  intros HP. revert w. induction l as [|x l IH]; intros w Hi Hw Hb; [done|].
  apply (wp_seq P); [done|done|done|by apply Hb; [left|..]|].
  intros [] w' Hi' Hw'. apply IH; [done|done|]. intros. apply Hb; [by right|done..].
Qed.

Lemma safe_burnFamiliesAndSweep ttl fs w :
  token_inv w → Forall (started w) fs → safe (burnFamiliesAndSweep ttl fs) w.
Proof.
  intros Hi Hfs. assert (lasting (λ w, Forall (started w) fs)) as Hl.
  { apply lasting_Forall, lasting_started. }
  apply (wp_seq (λ _, True)); [apply lasting_True|done|done|..].
  - apply (safe_for_each (λ w, Forall (started w) fs)); [done|done|done|].
    intros f _ w' Hin Hi' Hs. apply safe_putFamilyBarrier; [done|]. by rewrite Forall_forall in Hs; apply Hs.
  - intros _ w' Hi' _. apply (safe_for_each (λ _, True)); [apply lasting_True|done|done|].
    intros f _ w2 _ Hi2 _. by apply safe_revokeIndexed.
Qed.
End TokenOps.
