(* ===== verification/Sessions.v ===== *)
(** * Sessions under interleaving: internal/auth/service.go

    The operations of the session service and the sweep of expired tokens follow
    the protocol of [TokenProtocol]. *)

From S2P Require Import Prelude Models Etcd Prog Keys Client Rules Footprint.
From S2P Require Import Accounts RefreshTokens AuthService TokenProtocol TokenOps.
Local Open Scope Z_scope.

Section Sessions.
Context `{Etcd, !EtcdLaws, !Libs, !LibsLaws}.

(** ** Bulk revocation, touching, sweeping *)

Lemma wp_userTokenFamilies u w :
  token_inv w →
  wp tokens (userTokenFamilies u) ∅
    (λ r _ w', match r with Ok fs => token_inv w' ∧ Forall (started w') fs | _ => True end) w.
Proof.
  intros Hi. apply wp_bindM. eapply wp_mono; [|by apply (wp_keep (λ _, True)), (safe_frame [] (Range _)); [..|set_solver|]].
  intros [items|e] O w2 (_ & Hi2 & _); [|done].
  eapply wp_mono; [|eapply (wp_more_own tokens _ ∅ O); [set_solver|]].
  2: { apply (wp_for_each tokens items [] _ ∅ (λ fs w, token_inv w ∧ Forall (started w) fs)
      (λ r _ w, match r with Ok fs => token_inv w ∧ Forall (started w) fs | _ => True end)); [done| |done].
    intros kv fs w3 _ [Hi3 Hfs]. destruct (indexed_id kv.2) as [id|]; [|done].
    assert (∀ w4, settled tokens ∅ w3 w4 → token_inv w4 ∧ Forall (started w4) fs) as Hk.
    { intros w4 Hw4. apply (lasting_settled_inv (λ w, Forall (started w) fs) ∅ w3); [|done|done].
      apply lasting_Forall, lasting_started. }
    apply wp_bindM, wp_GetJSON_token; [done|by intros; split; [|apply Hk]|]. intros w4 r Hw4 Hat.
    destruct (Hk w4 Hw4) as [Hi4 Hfs4]. case_bool_decide; split; try done. split; [done|].
    apply Forall_app. split; [done|]. apply Forall_singleton. by eapply (ti_started w4), was_now. }
  by intros [fs|e] O' w3 [_ ?].
Qed.

Lemma safe_RevokeAllUserRefreshTokens ttl u w : token_inv w → safe (RevokeAllUserRefreshTokens ttl u) w.
Proof.
  intros Hi. apply wp_bindM. eapply wp_mono; [|by apply wp_userTokenFamilies].
  intros [fs|e] O w' Hr; [|done]. apply safe_own, safe_burnFamiliesAndSweep; apply Hr.
Qed.

Lemma safe_RevokeRefreshTokenFamily ttl f w :
  token_inv w → started w f → safe (RevokeRefreshTokenFamily ttl f) w.
Proof. intros Hi Hf. apply safe_burnFamiliesAndSweep; [done|by apply Forall_singleton]. Qed.

Lemma safe_casRefreshTokenUpdate id mutate w :
  (∀ r, same_token r (mutate r) ∧ rft_RevokedAt (mutate r) = rft_RevokedAt r) → token_inv w →
  safe (casRefreshTokenUpdate id mutate) w.
Proof.
  intros Hm. unfold casRefreshTokenUpdate. generalize 5%nat. intros n. revert w.
  induction n as [|n IH]; intros w Hi; [done|]. cbn [cas_refresh_attempts].
  apply wp_bindM, (wp_raw_get_seen tokens); [done|done|]. intros w2 e Hw2 Hk Hseen.
  destruct (decode_doc (e_val e)) as [row|] eqn:Ed; [|done]. apply decode_doc_inv in Ed.
  apply wp_bindM, (wp_Marshal tokens); [done|].
  apply wp_bindM, (wp_raw_txn tokens); [done|..].
  - intros w3 Hw3 _. apply IH. by eapply tokens_settled_inv.
  - intros w3 Hw3 Hc _ Hmax. apply andb_true_iff in Hc as [Hc _].
    assert (w_map w3 !! refreshTokenKey id = Some e) as Hk3 by (by eapply (cas_lookup tokens)).
    exists ∅. split; [|by split; intros]. apply own_step_puts; [by destruct Hw3 as (_ & ? & _)|done|].
    apply Forall_singleton. left. exists id, (mutate row). split; [done|]. right. exists row.
    split; [|apply Hm]. unfold token_at. fold (w_map w3). rewrite Hk3. simpl. by rewrite Ed.
Qed.

Lemma safe_TouchRefreshToken id w : token_inv w → safe (TouchRefreshToken id) w.
Proof.
  intros Hi. apply wp_bindM, (wp_now tokens). intros w2 t Hw2.
  apply wp_bindM, wp_attempt. eapply wp_mono; [|apply safe_casRefreshTokenUpdate;
    [by intros r|by eapply tokens_settled_inv]].
  intros [r|e] O w3 _; [done|by destruct e].
Qed.

(** The operations of the sweep, a block of four for every token, then the
    barriers. *)
Definition sweep_ops (rows : list RefreshToken) (fs : list string) : list op :=
  (rows ≫= expired_token_ops) ++ map OpDelete fs.

Lemma blocks_take {A B} (f : A → list B) n k l :
  (∀ a, length (f a) = k) → take (n * k) (l ≫= f) = take n l ≫= f.
Proof.
  intros Hf. revert n. induction l as [|a l IH]; intros [|n]; [done|apply take_nil|done|].
  cbn [mbind list_bind take]. rewrite take_app, Hf, take_ge by (rewrite Hf; lia). f_equal.
  rewrite <-IH. f_equal. lia.
Qed.

Lemma blocks_drop {A B} (f : A → list B) n k l :
  (∀ a, length (f a) = k) → drop (n * k) (l ≫= f) = drop n l ≫= f.
Proof.
  intros Hf. revert n. induction l as [|a l IH]; intros [|n]; [done|apply drop_nil|done|].
  cbn [mbind list_bind drop]. rewrite drop_app, Hf, drop_ge by (rewrite Hf; lia). simpl.
  rewrite <-IH. f_equal. lia.
Qed.

Lemma sweep_ops_quiet rows fs :
  Forall (λ k, key_family k ≠ Some FRefreshFamily) fs → quiet_deletes (sweep_ops rows fs).
Proof.
  intros Hfs o [Hin|Hin]%elem_of_app.
  - apply list_elem_of_bind in Hin as (row & Hin & Hrow).
    assert (∀ o, o ∈ expired_token_ops row → o ∈ sweep_ops rows fs) as Hall.
    { intros o' Ho'. apply elem_of_app. left. apply list_elem_of_bind. by exists row. }
    pose proof (Hall (OpDelete (refreshTokenKey (rft_ID row)))) as Htok.
    unfold expired_token_ops in Hin, Htok. rewrite !elem_of_cons in Hin.
    destruct Hin as [->|[->|[->|[->|Hin]]]]; [..|set_solver]; eexists; (split; [done|]); intros Hk.
    + by rewrite family_refreshTokenKey in Hk.
    + revert Hk. unfold key_family. by autorewrite with keys.
    + eexists _, _. split; [done|]. apply Htok. by left.
    + revert Hk. unfold key_family. by autorewrite with keys.
  - apply list_elem_of_fmap in Hin as (k & -> & Hk). exists k. split; [done|].
    rewrite Forall_forall in Hfs. by intros ?%(Hfs k Hk).
Qed.

Lemma sweep_ops_chunk rows fs n :
  ∃ rows' fs', take maxTxnOps (drop (n * maxTxnOps) (sweep_ops rows fs)) = sweep_ops rows' fs' ∧ fs' ⊆ fs.
Proof.
  unfold sweep_ops. rewrite drop_app, take_app.
  replace (n * maxTxnOps)%nat with (n * 30 * 4)%nat by (unfold maxTxnOps; lia).
  rewrite (blocks_drop expired_token_ops (n * 30) 4 rows) by done.
  change maxTxnOps with (30 * 4)%nat. rewrite (blocks_take expired_token_ops 30 4) by done.
  rewrite skipn_map, firstn_map. eexists _, _. split; [done|].
  etrans; [apply subseteq_take|apply subseteq_drop].
Qed.

(** A program that only reads, with what it owns, what lasts and what it
    returns. *)
Lemma wp_read (P : world → Prop) {A B} (Q : A → Prop) (m : M A) (f : A → M B) O K w :
  (∀ e w, K (Err e) O w) → lasting P → token_inv w → P w → writes [] m → returns (on_ok Q) m →
  (∀ a w', token_inv w' → P w' → Q a → wp tokens (f a) O K w') →
  wp tokens (m ≫= f) O K w.
Proof.
  intros HK HP Hi Hw Hm HQ Hf. apply wp_bindM. pose proof (tokens_frame [] ltac:(set_solver)) as Hfr.
  eapply wp_mono; [|apply (wp_keep P); [done|done|done|apply (wp_frame_own tokens [] (on_ok Q)); [|done|done]]].
  - intros [a|e] O' w' ([-> Ha] & Hi' & Hw'); [|by apply HK]. by apply Hf.
  - intros [k|p|u] _; simpl; [..|done]; unfold key_in; [|intros k _]; destruct (key_family k); set_solver.
Qed.

Lemma returns_expired_tokens cutoff items :
  returns (on_ok (λ s, ∃ rows, s.1 = rows ≫= expired_token_ops)) (expired_tokens cutoff items).
Proof.
  apply returns_for_each; [by exists []|]. intros kv s _ [rows Hs].
  destruct (decode_doc kv.2) as [row|]; [|done]. case_match; [by exists rows|]. exists (rows ++ [row]).
  simpl. rewrite Hs, bind_app. simpl. by rewrite ?app_nil_r.
Qed.

Lemma returns_expired_barriers cutoff rows items :
  (∀ kv, kv ∈ items → key_family kv.1 ≠ Some FRefreshFamily) →
  returns (on_ok (λ ops, ∃ fs, ops = sweep_ops rows fs ∧ Forall (λ k, key_family k ≠ Some FRefreshFamily) fs))
    (expired_barriers cutoff items (rows ≫= expired_token_ops)).
Proof.
  intros Hitems. apply returns_for_each; [exists []; unfold sweep_ops; simpl; by rewrite app_nil_r|].
  intros kv ops Hin (fs & -> & Hfs). destruct (decode_doc kv.2) as [b|]; [|done].
  destruct (fb_ExpiresAt b <? cutoff); [|by exists fs]. exists (fs ++ [kv.1]). split.
  - unfold sweep_ops. by rewrite map_app, app_assoc.
  - apply Forall_app. split; [done|]. apply Forall_singleton. by apply Hitems.
Qed.

Lemma safe_DeleteExpiredRefreshTokens cutoff w : token_inv w → safe (DeleteExpiredRefreshTokens cutoff) w.
Proof.
  intros Hi. unfold DeleteExpiredRefreshTokens.
  apply (wp_read (λ _, True) (λ _, True)); [done|apply lasting_True|done..|by apply returns_any|].
  intros items w1 Hi1 _ _. eapply (wp_read (λ _, True)); [done|apply lasting_True|done|done| |apply returns_expired_tokens|].
  { unfold expired_tokens. writes_solve. }
  intros [ops n] w2 Hi2 _ [rows Hrows]. simpl in Hrows. subst ops.
  apply (wp_read (λ _, True) (λ items, ∀ kv, kv ∈ items → key_family kv.1 ≠ Some FRefreshFamily));
    [done|apply lasting_True|done..| |].
  { simpl. split; [done|]. intros kvs Hp kv ([k e] & -> & Hin)%list_elem_of_fmap.
    simpl. by rewrite (prefix_refresh_barriers k (Hp _ Hin)). }
  intros barriers w3 Hi3 _ Hb. eapply (wp_read (λ _, True)); [done|apply lasting_True|done|done|
    |by apply (returns_expired_barriers cutoff rows)|].
  { unfold expired_barriers. writes_solve. }
  intros ops w4 Hi4 _ (fs & -> & Hfs).
  apply (wp_seq (λ _, True)); [apply lasting_True|done|done| |by intros; exact I].
  apply safe_commit_chunks; [done|]. intros m ops' ->. right.
  destruct (sweep_ops_chunk rows fs m) as (rows' & fs' & -> & Hsub). apply sweep_ops_quiet.
  rewrite Forall_forall in *. intros k Hk. by apply Hfs, Hsub.
Qed.

(** ** Issuing *)

(** A fresh uuid is the id of a token nobody has issued, or a family nobody has
    started. *)
Lemma wp_new_uuid_tokens (X : uuid → gset resource) O Q w :
  (∀ u, X u ⊆ {[OwnKey (refreshTokenKey u); OwnPrefix (refreshTokenFamilyIndexPrefix u)]}) →
  (∀ w1 u, settled tokens O w w1 → u ∈ w_issued (issue u w1) → token_inv (issue u w1) →
     Q (Ok u) (O ∪ X u) (issue u w1)) →
  wp tokens new_uuid O Q w.
Proof.
  intros HX HQ w1 u Hw1 Hu. pose proof Hw1 as (_ & Hi & Hown). exists (O ∪ X u).
  assert (token_step w1 (issue u w1)) as Hs by (apply token_step_frame; [apply any_env_issue|done]).
  split; [|apply HQ; [by apply reaches_settled|simpl; set_solver|by apply Hs]].
  split_and!; [done|by intros r|]. intros r [Hr|Hr]%elem_of_union; [split; [by apply Hown|by left]|].
  apply HX in Hr. apply elem_of_union in Hr as [->%elem_of_singleton| ->%elem_of_singleton].
  - split; [|right; split].
    + intros st Hst. apply eq_None_not_Some. intros Hsome. apply Hu. by eapply (ti_issued w1).
    + exists u. split; [done|simpl; set_solver].
    + intros (u' & E%(inj refreshTokenKey) & ?). by subst.
  - split; [|right; split].
    + intros st k Hst Hp. apply eq_None_not_Some. intros Hsome.
      destruct (ti_indexes w1 Hi st k Hst Hsome (prefix_family_class u k Hp)) as (f & id & -> & Hf).
      apply prefix_family in Hp as ->. done.
    + exists u. split; [done|simpl; set_solver].
    + intros (u' & E & ?). assert (u = u') as ->; [|done]. apply (prefix_family u' u u).
      rewrite <-E. apply family_prefix.
Qed.

(** What the parameters of a new token promise. *)
Definition params_ok (f : uuid) (parent : option uuid) (arg : CreateRefreshTokenParams) (w : world) : Prop :=
  crt_FamilyID arg = f ∧ crt_ParentID arg = parent ∧ crt_ID arg ∈ w_issued w.

Lemma wp_CreateRefreshToken f arg w :
  f ∈ w_issued w → params_ok f None arg w →
  wp tokens (CreateRefreshToken arg)
    {[OwnPrefix (refreshTokenFamilyIndexPrefix f); OwnKey (refreshTokenKey (crt_ID arg))]} (λ _ _ _, True) w.
Proof.
  intros Hf (<- & Hp & Hid). set (O := {[_; _]}).
  apply wp_bindM, (wp_now tokens). intros w2 t Hw2. apply wp_bindM, (wp_Marshal tokens); [done|].
  apply wp_bindM, (wp_raw_txn tokens); [done|done|]. intros w3 Hw3 _ _ Hmax. exists ∅. split; [|by split; intros].
  assert (∀ u, u ∈ w_issued w → u ∈ w_issued w3) as Hiss.
  { intros u Hu. eapply (tokens_reaches (λ w, u ∈ w_issued w)); [apply lasting_issued|done|].
    eapply (tokens_settled (λ w, u ∈ w_issued w)); [apply lasting_issued|done|done]. }
  destruct Hw3 as (_ & Hi3 & Hown).
  apply (own_step_issue w3 (refreshTokenFromParams arg t) []); [done|done| |done| |by apply Hiss|by apply Hiss|..].
  - apply Hown. unfold O. set_solver.
  - simpl. rewrite Hp. constructor.
  - intros (st & id & Hin & Hs)%(ti_barrier w3 Hi3 (w_st w3)); [|by left].
    assert (unused w3 (OwnPrefix (refreshTokenFamilyIndexPrefix (crt_FamilyID arg)))) as Hu
      by (apply Hown; unfold O; set_solver).
    rewrite (Hu st) in Hs; [by destruct Hs|done|]. apply family_prefix.
  - unfold O. set_solver.
  - left. unfold O. set_solver.
Qed.

Lemma wp_RotateRefreshToken p f arg w :
  token_inv w → params_ok f (Some p) arg w →
  wp tokens (RotateRefreshToken p arg) {[OwnKey (refreshTokenKey (crt_ID arg))]} (λ _ _ _, True) w.
Proof.
  intros Hi (<- & Hp & Hid). set (O := {[_]}).
  apply wp_bindM, (wp_raw_get_seen tokens); [done|done|]. intros w1 e Hw1 Hk Hseen.
  destruct (decode_doc (e_val e)) as [parent|] eqn:Ed; [|done]. apply decode_doc_inv in Ed.
  destruct (is_revoked parent) eqn:Hr; [done|]. case_bool_decide as Hfam; [|done]. simpl negb. cbv iota.
  apply wp_bindM, (wp_now tokens). intros w2 t Hw2.
  apply wp_bindM, (wp_Marshal tokens); [done|]. apply wp_bindM, (wp_Marshal tokens); [done|].
  apply wp_bindM, (wp_raw_txn tokens); [done|done|]. intros w3 Hw3 Hc _ Hmax. exists ∅. split; [|by split; intros].
  assert (crt_ID arg ∈ w_issued w3) as Hid3.
  { eapply (tokens_reaches (λ w, crt_ID arg ∈ w_issued w)); [apply lasting_issued|done|].
    do 2 (eapply (tokens_settled (λ w, crt_ID arg ∈ w_issued w)); [apply lasting_issued|done|]). done. }
  apply andb_true_iff in Hc as [Hc1 [Hc2 _]%andb_true_iff].
  assert (w_map w3 !! refreshTokenKey p = Some e) as Hk3.
  { eapply (cas_lookup tokens); [exact Hw3| |done]. by eapply (seen_settled tokens). }
  destruct Hw3 as (_ & Hi3 & Hown).
  assert (active w3 p parent) as Ha.
  { split.
    - unfold token_at. fold (w_map w3). rewrite Hk3. simpl. by rewrite Ed.
    - unfold is_revoked in Hr. by case_bool_decide. }
  destruct (ti_index w3 Hi3 p parent Ha) as [ex Hx].
  assert (∃ f id, refreshTokenFamilyIndexKey (rft_FamilyID parent) p = refreshTokenFamilyIndexKey f id ∧
    f ∈ w_issued w3) as (f' & id' & [<- _]%(inj2 refreshTokenFamilyIndexKey) & Hf').
  { apply (ti_indexes w3 Hi3 (w_st w3)); [by left|by exists ex|apply family_refreshTokenFamilyIndexKey]. }
  apply (own_step_issue w3 (refreshTokenFromParams arg t) [OpPut (refreshTokenKey p) (DRefreshToken (revoked parent t))]);
    [done|done| |done| |done|simpl; by rewrite Hfam|..].
  - apply Hown. unfold O. set_solver.
  - simpl. rewrite Hp. by apply (spends_parent w3 p parent).
  - simpl. rewrite Hfam. intros [eb Hb]. unfold w_map in Hb. by rewrite (cmp_absent _ (w_st w3)) in Hb; [|apply Hi3|].
  - unfold O. set_solver.
  - right. simpl. rewrite Hfam. intros Hu. rewrite (Hu (w_st w3)) in Hx; [done|by left|].
    apply family_prefix.
Qed.

(** A looked-up row has been there, under its own id. *)
Lemma wp_RefreshTokenByHash h w :
  token_inv w →
  wp tokens (RefreshTokenByHash h) ∅
    (λ r O w', O = ∅ ∧ token_inv w' ∧ match r with Ok row => was w' (rft_ID row) row | Err _ => True end) w.
Proof.
  intros Hi. apply wp_bindM. pose proof (tokens_frame [] ltac:(set_solver)) as Hfr.
  eapply wp_mono; [|apply (wp_keep (λ _, True)); [apply lasting_True|done|done|
    apply (wp_frame tokens [] (resolveGuard _))]].
  2: { unfold resolveGuard. writes_solve. }
  intros [[id|]|e] O w1 (-> & Hi1 & _); [|done..].
  apply wp_bindM, wp_GetJSON_token.
  1: intros w2 e Hw2; split_and!; [done|by eapply tokens_settled_inv|done].
  1: intros w2 Hw2 _; split_and!; [done|by eapply tokens_settled_inv|done].
  intros w2 r Hw2 Hat. assert (token_inv w2) as Hi2 by by eapply tokens_settled_inv.
  split_and!; [done|done|]. rewrite (ti_id w2 Hi2 id r); by apply was_now.
Qed.

Lemma safe_Logout sha256 plaintext w : token_inv w → safe (Logout sha256 plaintext) w.
Proof.
  intros Hi. apply wp_bindM, wp_attempt. eapply wp_mono; [|by apply wp_RefreshTokenByHash].
  intros [row|e] O w1 (-> & Hi1 & Hrow); [|by destruct e]. by apply safe_RevokeRefreshToken.
Qed.

Section Service.
Context (VerifyPassword : string → string → option bool)
        (sha256 : bytes → bytes) (sign : bytes → AccessClaims → option string)
        (rand_read : M bytes) (cfg : Config).
(** The source of random bytes does not write to etcd. *)
Context (Hrand : writes [] rand_read).

Lemma wp_buildTokenPair (P : world → Prop) userID role f parent ua ip O w :
  lasting P → token_inv w → P w →
  wp tokens (buildTokenPair sha256 sign rand_read cfg userID role f parent ua ip) O
    (λ r O' w', match r with
       | Ok (_, arg) => token_inv w' ∧ P w' ∧ params_ok f parent arg w' ∧
           O' = O ∪ {[OwnKey (refreshTokenKey (crt_ID arg))]}
       | Err _ => True
       end) w.
Proof.
  intros HP Hi Hw. unfold buildTokenPair. unfold IssueAccessToken, GenerateRefreshToken.
  apply (wp_read P (λ _, True)); [done|done|done|done|by writes_solve|by apply returns_any|].
  intros access w1 Hi1 Hw1 _.
  apply (wp_read P (λ _, True)); [done|done|done|done|by apply writes_bindM|by apply returns_any|].
  intros [plain hash] w2 Hi2 Hw2 _. apply wp_bindM.
  apply (wp_new_uuid_tokens (λ u, {[OwnKey (refreshTokenKey u)]})); [set_solver|].
  intros w3 u Hw3 Hu Hi3. apply wp_bindM, (wp_now tokens). intros w4 t Hw4. apply wp_mret.
  destruct (lasting_settled_inv (λ w, P w ∧ u ∈ w_issued w) _ _ _
    (lasting_and _ _ HP (lasting_issued u)) Hw4) as (? & ? & ?); [|done].
  split; [|done]. eapply (HP w3); [apply token_step_frame; [apply any_env_issue|done]|].
  by eapply (tokens_settled P).
Qed.

Lemma UserByID_writes fs id : writes fs (UserByID id).
Proof. unfold UserByID. writes_solve. Qed.
Lemma UserByUsername_writes fs n : writes fs (UserByUsername n).
Proof. unfold UserByUsername, user_by_guard. writes_solve. apply UserByID_writes. Qed.
Lemma TouchUserLastLogin_writes id : writes [FUser] (TouchUserLastLogin id).
Proof.
  unfold TouchUserLastLogin, casUserUpdate. generalize 5%nat. intros n. writes_solve.
  induction n as [|n IH]; [done|]. cbn [cas_user_attempts]. writes_solve; auto.
Qed.

Lemma safe_burnFamily {A} f w : token_inv w → started w f → safe (burnFamily cfg f : M A) w.
Proof.
  intros Hi Hf. apply (wp_seq (λ _, True)); [apply lasting_True|done|done| |by intros; exact I].
  apply wp_bindM, wp_attempt. eapply wp_mono; [|by apply safe_RevokeRefreshTokenFamily].
  by intros [] O w' _.
Qed.

Lemma wp_wrapped {A} msg (m : M A) O w :
  wp tokens m O (λ _ _ _, True) w → wp tokens (wrapped msg m) O (λ _ _ _, True) w.
Proof. intros Hm. apply wp_bindM, wp_attempt. eapply wp_mono; [|exact Hm]. by intros [] O' w' _. Qed.

Lemma safe_Login creds w :
  token_inv w → safe (Login VerifyPassword sha256 sign rand_read cfg creds) w.
Proof.
  intros Hi. apply (wp_read (λ _, True) (λ _, True)); [done|apply lasting_True|done|done| |by apply returns_any|].
  { apply writes_attempt, UserByUsername_writes. }
  intros r w1 Hi1 _ _. destruct r as [user|e]; [|by destruct e].
  destruct (VerifyPassword _ _) as [[]|]; [|done..]. destruct (ParseRole _) as [role|]; [|done].
  apply wp_bindM, (wp_new_uuid_tokens (λ u, {[OwnPrefix (refreshTokenFamilyIndexPrefix u)]})); [set_solver|].
  intros w2 f _ Hf Hi2. rewrite (left_id_L ∅ (∪)). apply wp_bindM.
  eapply wp_mono; [|apply (wp_buildTokenPair (λ w, f ∈ w_issued w)); [apply lasting_issued|done|done]].
  intros [[tp arg]|e] O w3; [|done]. intros (Hi3 & Hf3 & Harg & ->).
  apply (wp_seq (λ _, True)); [apply lasting_True|done|done|by apply wp_wrapped, wp_CreateRefreshToken|].
  intros _ w4 Hi4 _. apply (wp_seq (λ _, True)); [apply lasting_True|done|done| |by intros; exact I].
  apply (safe_frame [FUser]); [set_solver|]. apply writes_attempt, TouchUserLastLogin_writes.
Qed.

Lemma safe_rotate row user ua ip w :
  token_inv w → was w (rft_ID row) row → safe (rotate sha256 sign rand_read cfg row user ua ip) w.
Proof.
  intros Hi Hrow. unfold rotate. destruct (ParseRole _) as [role|]; [|done]. apply wp_bindM.
  eapply wp_mono; [|apply (wp_buildTokenPair (λ w, was w (rft_ID row) row)); [apply lasting_was|done|done]].
  intros [[tp arg]|e] O w1; [|done]. intros (Hi1 & Hrow1 & Harg & ->). rewrite (left_id_L ∅ (∪)).
  apply (wp_seq (λ w, was w (rft_ID row) row)); [apply lasting_was|done|done|..].
  - apply wp_attempt. eapply wp_mono; [|by eapply wp_RotateRefreshToken]. done.
  - intros r w2 Hi2 Hrow2. destruct r as [child|e].
    + apply (wp_seq (λ _, True)); [apply lasting_True|done|done| |by intros; exact I].
      apply wp_attempt. eapply wp_mono; [|by apply safe_TouchRefreshToken]. done.
    + destruct e; try done. apply safe_burnFamily; [done|]. by eapply ti_started.
Qed.

Lemma safe_Refresh plaintext ua ip w :
  token_inv w → safe (Refresh sha256 sign rand_read cfg plaintext ua ip) w.
Proof.
  intros Hi. apply wp_bindM, wp_attempt. eapply wp_mono; [|by apply wp_RefreshTokenByHash].
  intros [row|e] O w1 (-> & Hi1 & Hrow); [|by destruct e].
  destruct (is_revoked row); [by apply safe_burnFamily; [|eapply ti_started]|].
  apply (wp_read (λ w, was w (rft_ID row) row) (λ _, True));
    [done|apply lasting_was|done|done|done|by apply returns_any|]. intros t w2 Hi2 Hrow2 _.
  case_match; [done|].
  apply (wp_read (λ w, was w (rft_ID row) row) (λ _, True));
    [done|apply lasting_was|done|done| |by apply returns_any|].
  { apply writes_attempt, UserByID_writes. }
  intros r w3 Hi3 Hrow3 _. destruct r as [user|e]; [by apply safe_rotate|]. destruct e; try done.
  apply (wp_seq (λ _, True)); [apply lasting_True|done|done| |by intros; exact I].
  apply wp_attempt. eapply wp_mono; [|by apply safe_RevokeRefreshToken]. done.
Qed.

End Service.
End Sessions.
