(* ===== verification/SessionProps.v ===== *)
(** * What sessions guarantee

    The life of a refresh token in every interleaving of the session service, and
    what burning a family achieves. *)

From S2P Require Import Prelude Models Etcd Prog Keys Client Rules Footprint Guards.
From S2P Require Import Base64 Accounts RefreshTokens AuthService TokenProtocol TokenOps Sessions Instances.
Local Open Scope Z_scope.

(** ** The whole service *)
Section System.
Context `{Etcd, !EtcdLaws, !Libs, !LibsLaws}.
Context (VerifyPassword : string → string → option bool)
        (sha256 : bytes → bytes) (sign : bytes → AccessClaims → option string)
        (rand_read : M bytes) (cfg : Config).

Definition op_thread {R} (p : prog R) : thread := Thread R (λ _ _, True) p.

(** The operations of the service, the periodic sweep, and any program that does
    not write refresh tokens. *)
Inductive session_operations : thread → Prop :=
| so_Login creds : session_operations (op_thread (Login VerifyPassword sha256 sign rand_read cfg creds))
| so_Refresh plaintext ua ip :
    session_operations (op_thread (Refresh sha256 sign rand_read cfg plaintext ua ip))
| so_Logout plaintext : session_operations (op_thread (Logout sha256 plaintext))
| so_LogoutAll u : session_operations (op_thread (LogoutAll cfg u))
| so_sweep cutoff : session_operations (op_thread (DeleteExpiredRefreshTokens cutoff))
| so_other {R} fs (p : prog R) :
    writes fs p → (∀ f, f ∈ token_families → f ∉ fs) → session_operations (op_thread p).

Lemma session_operations_verified th :
  writes [] rand_read → session_operations th → verified tokens th.
Proof.
  intros Hrand [] w Hi.
  - by apply safe_Login.
  - by apply safe_Refresh.
  - by apply safe_Logout.
  - by apply safe_RevokeAllUserRefreshTokens.
  - by apply safe_DeleteExpiredRefreshTokens.
  - by eapply safe_frame.
Qed.

Lemma sessions_pool w0 c :
  writes [] rand_read → token_inv w0 → rtc (cstep session_operations) (w0, []) c →
  token_inv c.1 ∧ ∀ c', cstep session_operations c c' → token_step c.1 c'.1.
Proof.
  intros Hrand Hi Hrtc. destruct (pool_guar tokens ltac:(done) session_operations w0 c) as [[Hc _] Hs];
    [by intros; apply session_operations_verified|done|done|]. done.
Qed.

Lemma sessions_lasting (P : world → Prop) w0 c c' :
  writes [] rand_read → token_inv w0 → rtc (cstep session_operations) (w0, []) c →
  rtc (cstep session_operations) c c' → lasting P → P c.1 → P c'.1.
Proof.
  intros Hrand Hi Hc Hc' HP Hw. revert Hc Hw. induction Hc' as [|c1 c2 c3 Hs _ IH]; intros Hc Hw; [done|].
  apply IH; [by eapply rtc_r|]. eapply HP; [|exact Hw]. by eapply sessions_pool.
Qed.

(** C23. Refresh tokens rotate once.  In every interleaving of logins, refreshes,
    logouts and sweeps, by any number of replicas, over any requests that are lost
    or answered too late: a token that is revoked or gone is never active again; a
    token is the parent of at most one other token; and a token that has a child
    is not active, so it cannot be spent again. *)
Theorem refresh_tokens_rotate_once w0 c c' :
  writes [] rand_read → token_inv w0 →
  rtc (cstep session_operations) (w0, []) c → rtc (cstep session_operations) c c' →
  (∀ id r, was c.1 id r → (∀ r', ¬ active c.1 id r') → ∀ r', ¬ active c'.1 id r') ∧
  (∀ id1 id2 r1 r2 p, was c.1 id1 r1 → was c.1 id2 r2 →
     rft_ParentID r1 = Some p → rft_ParentID r2 = Some p → id1 = id2) ∧
  (∀ id r p, was c.1 id r → rft_ParentID r = Some p → ∀ rp, ¬ active c.1 p rp).
Proof.
  intros Hrand Hi Hc Hc'. destruct (sessions_pool w0 c Hrand Hi Hc) as [Hci _]. split_and!.
  - intros id r Hw Hd. destruct (sessions_lasting (λ w, dead w id) w0 c c') as [_ ?]; try done.
    + intros w w'. apply dead_step.
    + split; [by exists r|done].
  - apply (ti_child c.1 Hci).
  - intros id r p Hw Hp rp. by eapply (ti_spent c.1 Hci).
Qed.
End System.

(** ** Burning a family *)
Section Burn.
Context `{Etcd, !EtcdLaws, !Libs, !LibsLaws} (f : uuid).

(** What runs beside the burn: steps of the protocol that leave the family's
    barrier in place.  That the operations of the service take no other steps is
    proved below. *)
Definition keeps_barrier (w w' : world) : Prop := token_step w w' ∧ (barred w f → barred w' f).

Definition burning : protocol := {|
  pr_inv := token_inv;
  pr_rely := keeps_barrier;
  pr_guar := keeps_barrier;
  pr_ownable _ _ := False
|}.

#[local] Instance burning_laws : EtcdProtocol burning.
Proof.
  split; [split|..]; simpl.
  - intros w w' Hs. split; [by apply token_step_same|]. destruct Hs as (Hst & _). unfold barred, w_map. by rewrite Hst.
  - intros w w' ? [(_ & ? & _) _]; auto.
  - intros w w' ? [(_ & ? & _) _]; auto.
  - done.
  - by intros w [].
  - by intros w w' [[? _] _].
Qed.

(** Behind the barrier, the family's active tokens are among [S]. *)
Definition confined (S : uuid → Prop) (w : world) : Prop :=
  barred w f ∧ ∀ id r, active w id r → rft_FamilyID r = f → S id.

Lemma confined_step S w w' : keeps_barrier w w' → confined S w → confined S w'.
Proof.
  intros [(_ & _ & Hedge) Hbar] [Hb HS]. split; [auto|]. intros id r [Hat Ha] Hf.
  pose proof (Hedge id) as He. rewrite (proj2 (token_doc_at w' id r) Hat) in He.
  inversion He as [d E1 E2|r0 r1 Hs Hm E1 E2|r0 r1 Hw Hs Hn E1 E2|d E1 E2|r1 Hu _ _ Hnb E1 E2]; simplify_eq.
  - by apply (HS id r); [split; [apply token_doc_at|]|].
  - destruct Hs as (_ & Ef & _). apply (HS id r0); [split; [by apply token_doc_at|]|congruence].
    destruct (rft_RevokedAt r0); [by destruct Hm|done].
  - by destruct Hnb.
Qed.

Lemma confined_mono (S S' : uuid → Prop) w : (∀ id, S id → S' id) → confined S w → confined S' w.
Proof. intros HS [? Hc]. split; [done|]. intros id r Ha Hf. by eapply HS, Hc. Qed.

(** What both kinds of facts have in common. *)
Definition kept (P : world → Prop) : Prop := ∀ w w', keeps_barrier w w' → P w → P w'.

Lemma kept_settled P O w w' : kept P → settled burning O w w' → P w → P w'.
Proof.
  intros HP (w1 & (Hr & _ & _) & Hs) Hw. apply (HP w1); [by apply (pr_stutter (pr := burning))|]. clear Hs w'.
  induction Hr as [|w w1 w2 [Hrely _] _ IH]; [done|]. by apply IH, (HP w).
Qed.

Definition puts_for (ops : list op) (id : uuid) : Prop := ∃ r, OpPut (refreshTokenKey id) (DRefreshToken r) ∈ ops.

Lemma kept_confined S : kept (confined S).
Proof. intros w w'. apply confined_step. Qed.
Lemma kept_revoking ops : kept (λ w, Forall (revoking w) ops).
Proof. intros w w' [Hs _]. by apply (lasting_Forall _ _ lasting_revoking). Qed.

(** *** The commit *)

Lemma own_step_burning w ops :
  token_inv w → w_rev w < max_i64 → Forall (lasting_put w) ops → own_step burning ∅ ∅ w (applied w ops).
Proof.
  intros Hi Hmax Hops. destruct (own_step_puts w ops Hi Hmax) as (Hs & _).
  { eapply Forall_impl; [exact Hops|]. apply lasting_put_quiet. }
  split_and!; [|by intros ? []|set_solver]. split; [done|]. intros [e He]. unfold barred. rewrite applied_map.
  destruct (apply_ops_cases (w_rev w + 1) ops (w_map w) (refreshFamilyBarrierKey f)) as [->|[(e' & -> & _)|[_ Hin]]];
    [by eexists..|exfalso]. rewrite Forall_forall in Hops.
  destruct (Hops _ Hin) as [(id & r & r' & ? & _)|(f' & v & ? & _)]; done.
Qed.

Lemma applied_puts_in w ops k v :
  (∀ o, o ∈ ops → ∃ k v, o = OpPut k v) → OpPut k v ∈ ops →
  ∃ e, w_map (applied w ops) !! k = Some e ∧ OpPut k (e_val e) ∈ ops.
Proof.
  rewrite applied_map. generalize (w_map w) as m, (w_rev w + 1) as rev. intros m rev. revert m.
  induction ops as [|o ops IH]; intros m Hputs Hin; [set_solver|]. rewrite apply_ops_cons.
  apply elem_of_cons in Hin as [<-|Hin].
  - destruct (apply_ops_cases rev ops (apply_op rev (OpPut k v) m).1 k) as [->|[(e & -> & Hin)|[_ Hin]]].
    + simpl. rewrite lookup_insert_eq. eexists. split; [done|]. by left.
    + exists e. split; [done|]. by right.
    + destruct (Hputs (OpDelete k)) as (? & ? & ?); [by right|done].
  - destruct (IH (apply_op rev o m).1) as (e & He & Hin'); [set_solver|done|]. exists e. split; [done|by right].
Qed.

Lemma confined_applied w ops rest :
  token_inv w → w_rev w < max_i64 → Forall (revoking w) ops → confined (puts_for (ops ++ rest)) w →
  confined (puts_for rest) (applied w ops).
Proof.
  intros Hi Hmax Hops Hc.
  assert (keeps_barrier w (applied w ops)) as Hs.
  { apply own_step_burning; [done|done|]. eapply Forall_impl; [exact Hops|]. by left. }
  pose proof (confined_step _ _ _ Hs Hc) as [Hb Hc']. split; [done|]. intros id r [Hat Ha] Hf.
  destruct (Hc' id r) as [r0 [Hin|Hin]%elem_of_app]; [done|done| |by exists r0]. exfalso.
  rewrite Forall_forall in Hops.
  destruct (applied_puts_in w ops (refreshTokenKey id) (DRefreshToken r0)) as (e & He & Hin'); [|done|].
  - intros o Ho. destruct (Hops o Ho) as (? & ? & ? & -> & _). by eexists _, _.
  - destruct (Hops _ Hin') as (id' & r1 & r' & E & _ & _ & Hr). apply put_eq in E as [_ Ev].
    unfold token_at in Hat. fold (w_map (applied w ops)) in Hat. rewrite He in Hat. simpl in Hat. congruence.
Qed.

Lemma wp_commit_revocations fuel ops w :
  (length ops ≤ fuel)%nat → Forall (revoking w) ops → confined (puts_for ops) w →
  wp burning (commit_chunks fuel ops) ∅
    (λ r O w', O = ∅ ∧ match r with Ok _ => confined (λ _, False) w' | Err _ => True end) w.
Proof.
  revert ops w. induction fuel as [|fuel IH]; intros ops w Hlen Hops Hc.
  { destruct ops; [|simpl in Hlen; lia]. split; [done|]. eapply confined_mono; [|done]. intros id [r ?]. set_solver. }
  destruct ops as [|o ops].
  { split; [done|]. eapply confined_mono; [|done]. intros id [r ?]. set_solver. }
  apply wp_bindM, (wp_raw_txn burning); [done|done|]. intros w1 Hw1 _ _ Hmax. exists ∅.
  assert (token_inv w1) as Hi1 by by destruct Hw1 as (_ & ? & _). apply (reaches_settled burning) in Hw1.
  pose proof (kept_settled _ _ _ _ (kept_revoking (o :: ops)) Hw1 Hops) as Hops1. cbv beta in Hops1.
  pose proof (kept_settled _ _ _ _ (kept_confined _) Hw1 Hc) as Hc1.
  rewrite <-(take_drop maxTxnOps (o :: ops)) in Hops1, Hc1. apply Forall_app in Hops1 as [Ht Hd].
  assert (own_step burning ∅ ∅ w1 (applied w1 (take maxTxnOps (o :: ops)))) as Hown.
  { apply own_step_burning; [done|done|]. eapply Forall_impl; [exact Ht|]. by left. }
  split; [done|]. split; [done|]. intros _ _. apply IH.
  - rewrite length_drop. unfold maxTxnOps. simpl in *. lia.
  - eapply (kept_revoking _ w1); [apply Hown|done].
  - by apply confined_applied.
Qed.

(** *** The sweep *)

(** The tokens the loop has still to look at, or has collected. *)
Definition pending (items : list (string * doc)) (ops : list op) (id : uuid) : Prop :=
  (∃ kv, kv ∈ items ∧ indexed_id kv.2 = Some id) ∨ puts_for ops id.

Definition sweeping (items : list (string * doc)) (ops : list op) (w : world) : Prop :=
  Forall (revoking w) ops ∧ confined (pending items ops) w.

Lemma kept_sweeping items ops : kept (sweeping items ops).
Proof. intros w w' Hs [Hr Hc]. split; [by eapply kept_revoking|by eapply kept_confined]. Qed.

(** The next entry is not active, or is collected. *)
Lemma sweeping_skip kv items ops id w :
  indexed_id kv.2 = Some id → (∀ r, ¬ active w id r) → sweeping (kv :: items) ops w → sweeping items ops w.
Proof.
  intros Hid Hna [Hr [Hb Hc]]. split; [done|]. split; [done|]. intros id' r Ha Hf.
  destruct (Hc id' r Ha Hf) as [(kv' & [->|Hin]%elem_of_cons & E)|?].
  - rewrite Hid in E. simplify_eq. by destruct (Hna r).
  - left. by exists kv'.
  - by right.
Qed.

Lemma sweeping_collect kv items ops id r t w :
  indexed_id kv.2 = Some id → token_at (w_st w) id r → sweeping (kv :: items) ops w →
  sweeping items (ops ++ [OpPut (refreshTokenKey id) (DRefreshToken (revoked r t))]) w.
Proof.
  intros Hid Hat [Hr Hc]. split.
  - apply Forall_app. split; [done|]. apply Forall_singleton. exists id, r, (revoked r t).
    split_and!; [done|by apply was_now|done..].
  - eapply confined_mono; [|exact Hc]. intros id' [(kv' & [->|Hin]%elem_of_cons & E)|[r' Hin]].
    + right. exists (revoked r t). rewrite Hid in E. simplify_eq. set_solver.
    + left. by exists kv'.
    + right. exists r'. set_solver.
Qed.

Lemma wp_sweep_entry t kv items ops w :
  sweeping (kv :: items) ops w →
  wp burning (revoke_indexed_op t kv.2 ops) ∅
    (λ r O w', O = ∅ ∧ match r with Ok ops' => sweeping items ops' w' | Err _ => True end) w.
Proof.
  intros Hw. unfold revoke_indexed_op. destruct (indexed_id kv.2) as [id|] eqn:Hid; [|done].
  apply wp_bindM, (wp_GetJSON burning); [done|..].
  - intros w2 Hw2 Hk. split; [done|]. eapply sweeping_skip; [done| |by eapply kept_settled; [apply kept_sweeping|..]].
    intros r [Hat _]. unfold token_at in Hat. fold (w_map w2) in Hat. by rewrite Hk in Hat.
  - intros w2 e r Hw2 Hk He. assert (token_at (w_st w2) id r) as Hat.
    { unfold token_at. fold (w_map w2). rewrite Hk. simpl. by rewrite He. }
    pose proof (kept_settled _ _ _ _ (kept_sweeping _ _) Hw2 Hw) as Hs.
    destruct (is_revoked r) eqn:Er.
    + split; [done|]. eapply sweeping_skip; [done| |done]. intros r' [Hat' Ha]. unfold token_at in *.
      rewrite Hat in Hat'. simplify_eq. unfold is_revoked in Er. by case_bool_decide.
    + apply wp_bindM, (wp_Marshal burning); [done|]. split; [done|]. by eapply sweeping_collect.
Qed.

(** The index lists every active token of the family. *)
Lemma scan_sweeping w :
  token_inv w → barred w f →
  sweeping (map (λ kv, (kv.1, e_val kv.2)) (scan (refreshTokenFamilyIndexPrefix f) (w_map w))) [] w.
Proof.
  intros Hi Hb. split; [done|]. split; [done|]. intros id r Ha Hf. left.
  destruct (ti_index w Hi id r Ha) as [e He]. rewrite Hf in He.
  exists (refreshTokenFamilyIndexKey f id, e_val e). split.
  - apply list_elem_of_fmap. exists (refreshTokenFamilyIndexKey f id, e). split; [done|].
    apply elem_of_scan. split; [done|apply family_prefix].
  - simpl. rewrite (ti_index_val w Hi f id e He). apply uuid_parse_string.
Qed.

Lemma wp_revokeIndexed_burns w :
  barred w f →
  wp burning (revokeIndexed (refreshTokenFamilyIndexPrefix f)) ∅
    (λ r O w', O = ∅ ∧ match r with Ok _ => confined (λ _, False) w' | Err _ => True end) w.
Proof.
  intros Hb. unfold revokeIndexed. apply wp_bindM, wp_bindM, (wp_raw_range burning). intros w1 Hw1.
  split; [done|]. apply wp_mret.
  assert (sweeping (map (λ kv, (kv.1, e_val kv.2)) (scan (refreshTokenFamilyIndexPrefix f) (w_map w1))) [] w1) as Hs1.
  { apply scan_sweeping; [by apply (settled_inv burning) in Hw1|].
    by apply (kept_settled (λ w, barred w f) _ _ _ ltac:(by intros ?? [_ ?]) Hw1). }
  revert Hs1. generalize (map (λ kv, (kv.1, e_val kv.2)) (scan (refreshTokenFamilyIndexPrefix f) (w_map w1))).
  intros items Hs1. apply wp_bindM, (wp_now burning). intros w2 t Hw2.
  apply wp_bindM, (wp_for_each_rest burning items [] _ ∅ sweeping).
  - by eapply kept_settled; [apply kept_sweeping|..].
  - intros kv items' ops w3 Hs. eapply wp_mono; [|by apply wp_sweep_entry].
    by intros [ops'|e] O w4 [-> ?].
  - intros ops w3 [Hr Hc]. apply wp_commit_revocations; [done|done|]. eapply confined_mono; [|exact Hc].
    intros id [(kv & Hin & _)|?]; [set_solver|done].
Qed.

Lemma wp_putFamilyBarrier_bars ttl w :
  started w f →
  wp burning (putFamilyBarrier ttl f) ∅
    (λ r O w', O = ∅ ∧ match r with Ok _ => barred w' f | Err _ => True end) w.
Proof.
  intros Hf. apply wp_bindM, (wp_now burning). intros w2 t Hw2. apply wp_bindM, (wp_Marshal burning); [done|].
  unfold Put, capValue. case_match; [done|]. apply wp_bindM, (wp_mret burning), wp_bindM, (wp_raw_txn burning); [done|done|].
  intros w3 Hw3 _ _ Hmax. exists ∅. assert (token_inv w3) as Hi3 by by destruct Hw3 as (_ & ? & _).
  assert (kept (λ w, started w f)) as Hk by (intros a b [? _]; by apply started_step).
  apply (reaches_settled burning) in Hw3.
  pose proof (kept_settled _ _ _ _ Hk Hw3 (kept_settled _ _ _ _ Hk Hw2 Hf)) as Hf3.
  split; [|split; [done|]].
  - apply own_step_burning; [done|done|]. apply Forall_singleton. right. by eexists f, _.
  - intros _ _. split; [done|]. unfold barred. rewrite applied_put, lookup_insert_eq. by eexists.
Qed.

Lemma wp_RevokeRefreshTokenFamily_burns ttl w :
  started w f →
  wp burning (RevokeRefreshTokenFamily ttl f) ∅
    (λ r _ w', match r with Ok _ => confined (λ _, False) w' | Err _ => True end) w.
Proof.
  intros Hf. apply wp_bindM, wp_bindM. eapply wp_mono; [|by apply wp_putFamilyBarrier_bars].
  intros [[]|e] O w1 [-> Hb]; [|done]. apply wp_mret, wp_bindM.
  eapply wp_mono; [|by apply wp_revokeIndexed_burns]. intros [[]|e] O w2 [-> Hc]; [|done]. done.
Qed.

Lemma open_run_burns ttl w evs w1 :
  token_inv w → started w f → open_run keeps_barrier w (RevokeRefreshTokenFamily ttl f) evs w1 (Ret (Ok tt)) →
  confined (λ _, False) w1.
Proof.
  intros Hi Hf Hrun.
  destruct (open_guar burning (RevokeRefreshTokenFamily ttl f)
    (λ r w, match r with Ok _ => confined (λ _, False) w | Err _ => True end) w evs w1 (Ret (Ok tt)))
    as [_ Hc]; [by intros ? ? []|..|done|by apply wp_RevokeRefreshTokenFamily_burns|done|done].
  intros [] w' w'' _ Hs; [|done]. by apply confined_step.
Qed.
End Burn.

(** ** A burn beside the service *)

(** A program beside a pool of others. *)
Inductive beside `{Etcd} (P : thread → Prop) {R} : config * prog R → config * prog R → Prop :=
| beside_pool c c' p : cstep P c c' → beside P (c, p) (c', p)
| beside_own w ts p w' p' : pstep w p w' p' → beside P ((w, ts), p) ((w', ts), p').

Section Beside.
Context `{Etcd, !EtcdLaws, !Libs, !LibsLaws} (P : thread → Prop) (HP : ∀ th, P th → verified tokens th).

(** The pool with the program as its first. *)
Definition pooled {R} (s : config * prog R) : config := (s.1.1, op_thread s.2 :: s.1.2).

Lemma pooled_step {R} (s s' : config * prog R) : beside P s s' → cstep P (pooled s) (pooled s').
Proof.
  intros [c c' p Hs|w ts p w' p' Hs].
  - destruct Hs as [w ts th Hth|w ts i R' post q q' w' Hi Hs]; unfold pooled; simpl.
    + apply (cstep_spawn P w (op_thread p :: ts)); done.
    + by apply (cstep_thread P w (op_thread p :: ts) (S i) R' post q q').
  - by apply (cstep_thread P w (op_thread p :: ts) 0 R (λ _ _, True) p p').
Qed.

Lemma pooled_ok {R} (s s' : config * prog R) :
  beside P s s' → pool_ok tokens (pooled s) → pool_ok tokens (pooled s') ∧ token_step s.1.1 s'.1.1.
Proof. intros Hs Hok. apply (pool_ok_step tokens ltac:(done) P (pooled s) (pooled s')); [done|done|by apply pooled_step]. Qed.

Lemma pool_ok_cons w ts th : pool_ok tokens (w, ts) → thread_ok tokens w th ∅ → pool_ok tokens (w, th :: ts).
Proof.
  intros (Hi & Os & Hlen & Hth & Hdis) Hok. split; [done|]. exists (∅ :: Os). simpl in *. split_and!; [by rewrite Hlen|..].
  - intros [|i] th' O; simpl; [by intros [= <-] [= <-]|by apply Hth].
  - intros [|i] [|j] Oi Oj; simpl; [done|intros [= <-] _ _; set_solver|intros _ [= <-] _; set_solver|].
    intros Hi' Hj Hne. apply (Hdis i j); [done|done|congruence].
Qed.

(** The steps of the pool are the program's interference. *)
Lemma beside_open_run f {R} (s s' : config * prog R) :
  rtc (λ s s', beside P s s' ∧ (barred s.1.1 f → barred s'.1.1 f)) s s' → pool_ok tokens (pooled s) →
  pool_ok tokens (pooled s') ∧ ∃ evs, open_run (keeps_barrier f) s.1.1 s.2 evs s'.1.1 s'.2.
Proof.
  induction 1 as [s|s s1 s' [Hs Hb] _ IH]; intros Hok; [split; [done|]; exists []; constructor|].
  destruct (pooled_ok s s1 Hs Hok) as [Hok1 Ht]. destruct (IH Hok1) as [? (evs & Hrun)]. split; [done|].
  destruct Hs as [c c' p Hs|w ts p w' p' Hs]; [exists evs|eexists (_ :: evs)].
  - eapply open_env; [by split|done].
  - by eapply open_own.
Qed.

Lemma beside_confined f S {R} (p : prog R) c c' :
  rtc (λ c c', cstep P c c' ∧ (barred c.1 f → barred c'.1 f)) c c' → pool_ok tokens (pooled (c, p)) →
  confined f S c.1 → confined f S c'.1.
Proof.
  induction 1 as [c|c c1 c' [Hs Hb] _ IH]; intros Hok Hc; [done|].
  destruct (pooled_ok (c, p) (c1, p)) as [Hok1 Ht]; [by constructor|done|]. apply IH; [done|].
  by eapply confined_step.
Qed.
End Beside.

Section SystemBurn.
Context `{Etcd, !EtcdLaws, !Libs, !LibsLaws}.
Context (VerifyPassword : string → string → option bool)
        (sha256 : bytes → bytes) (sign : bytes → AccessClaims → option string)
        (rand_read : M bytes) (cfg : Config).

Local Abbreviation operations := (session_operations VerifyPassword sha256 sign rand_read cfg).

(** C22. A burned family stays dead.  A burn of a family that has begun starts beside
    any number of logins, refreshes (which rotate and burn), logouts and sweeps, each
    wherever it is, and is interleaved with them step by step; requests are lost or
    answered too late.  If [RevokeRefreshTokenFamily] returns without error, no token
    of the family is active, and none becomes active again: not even a rotation that
    had read its parent before the burn and commits after it.  This holds while the
    family's barrier, once written, is not removed, as the sweep of expired barriers
    does. *)
Theorem RevokeRefreshTokenFamily_burns f ttl w0 c c1 c2 id r :
  writes [] rand_read → token_inv w0 → rtc (cstep operations) (w0, []) c → started c.1 f →
  rtc (λ s s', beside operations s s' ∧ (barred s.1.1 f → barred s'.1.1 f))
    (c, RevokeRefreshTokenFamily ttl f) (c1, Ret (Ok tt)) →
  rtc (λ c c', cstep operations c c' ∧ (barred c.1 f → barred c'.1 f)) c1 c2 →
  active c2.1 id r → rft_FamilyID r ≠ f.
Proof.
  intros Hrand Hi Hc Hf Hburn Hafter Ha E.
  assert (∀ th, operations th → verified tokens th) as HP by by intros; eapply session_operations_verified.
  destruct (pool_guar tokens ltac:(done) operations w0 c HP Hi Hc) as [Hok _].
  destruct (beside_open_run operations HP f _ _ Hburn) as [Hok1 (evs & Hrun)].
  { destruct c as [w ts]. apply (pool_ok_cons operations HP); [done|]. split; [by intros ? []%elem_of_empty|].
    apply safe_RevokeRefreshTokenFamily; [apply Hok|done]. }
  apply open_run_burns in Hrun; [|apply Hok|done].
  destruct (beside_confined operations HP f _ _ _ _ Hafter Hok1 Hrun) as [_ Hno]. by apply (Hno id r).
Qed.
End SystemBurn.

(** ** A concrete race *)
Module SessionRuns.
Import Base64 Concrete.
Local Open Scope string_scope.

Definition alice : User :=
  MkUser (id 1) "alice" "" "hash" "Alice" "admin" None 0 0 None.
Definition start : world :=
  stored_world [(userKey (id 1), DUser alice); (userUsernameGuard "alice", DStr (uuid_string (id 1)))].

Definition rand_read : M bytes := u ← new_uuid; mret (uuid_string u).
Definition cfg : Config := MkConfig "secret" 10 1000.
Definition sign (_ : bytes) (c : AccessClaims) : option string := Some (ac_ID c).
Definition operations : thread → Prop :=
  session_operations (λ h p, Some (bool_decide (h = p))) (λ b, b) sign rand_read cfg.

Definition login : thread :=
  op_thread (Login (λ h p, Some (bool_decide (h = p))) (λ b, b) sign rand_read cfg
    (MkCredentials "alice" "hash" "" None)).
Definition refresh : thread :=
  op_thread (Refresh (λ b, b) sign rand_read cfg (EncodeToString (uuid_string (supply 2))) "" None).

Definition logged_in : config := schedule 100 (replicate 20 0%nat) (start, [login]).
Definition raced : config :=
  schedule 200 (replicate 7 1%nat ++ replicate 30 2%nat ++ replicate 30 1%nat)%list (logged_in.1, (logged_in.2 ++ [refresh; refresh])%list).

Lemma sessions_start_inv : token_inv start.
Proof.
  apply token_inv_none; [apply stored_wf|]. intros st k f Hst Hf Hin.
  apply eq_None_not_Some. intros [e He]. apply list_elem_of_singleton in Hst as ->.
  apply stored_lookup in He as [He _]. revert Hf Hin. unfold token_families.
  apply elem_of_cons in He as [E|[E|[]%elem_of_nil]%elem_of_cons]; injection E as -> _;
    vm_compute; intros [= <-]; set_solver.
Qed.

Lemma rand_writes : writes [] rand_read.
Proof. done. Qed.

Lemma reach_logged_in : rtc (cstep operations) (start, []) logged_in.
Proof.
  trans (start, [login]); [|apply schedule_rtc]. apply spawn_rtc, Forall_singleton. constructor.
Qed.

Lemma reach_raced : rtc (cstep operations) logged_in raced.
Proof.
  trans (logged_in.1, (logged_in.2 ++ [refresh; refresh])%list); [|apply schedule_rtc].
  rewrite (surjective_pairing logged_in) at 1. change [refresh; refresh] with ([refresh] ++ [refresh])%list.
  rewrite (assoc_L (++)). do 2 (eapply rtc_r; [|apply cstep_spawn; constructor]). done.
Qed.

(** Of the two refreshes of one token, the first gets the child and the second
    is a replay; the child is the token's only one, and the family is dead. *)
Lemma refresh_tokens_rotate_once_witness :
  (∃ r, active logged_in.1 (supply 3) r) ∧ (∃ r, was raced.1 (supply 8) r ∧ rft_ParentID r = Some (supply 3)) ∧
  raced.2 !! 1%nat = Some (op_thread (Ret (Err ErrTokenReplay) : M TokenPair)) ∧
  ∀ r, ¬ active raced.1 (supply 3) r.
Proof.
  assert (∃ r, was raced.1 (supply 8) r ∧ rft_ParentID r = Some (supply 3)) as (r & Hw & Hp).
  { eexists. split; [apply was_now; vm_compute; reflexivity|done]. }
  split_and!; [eexists; split; vm_compute; reflexivity|by exists r|vm_compute; reflexivity|].
  destruct (refresh_tokens_rotate_once (λ h p, Some (bool_decide (h = p))) (λ b, b) sign rand_read cfg
    start raced raced) as (_ & _ & Hspent); [apply rand_writes|apply sessions_start_inv| |done|by eapply Hspent].
  etrans; [apply reach_logged_in|apply reach_raced].
Defined.

(** A refresh has read its token, the family is burned, the refresh goes on. *)
Definition refreshing : config := schedule 200 (replicate 7 1%nat) (logged_in.1, (logged_in.2 ++ [refresh])%list).
Definition burn := drive 20 300 refreshing.1 (RevokeRefreshTokenFamily 1000 (supply 0)).
Definition burned : config := (burn.1.2, refreshing.2).
Definition refreshed : config := schedule 400 (replicate 30 1%nat) burned.

Definition barredb (w : world) : bool := bool_decide (barred w (supply 0)).

Fixpoint schedule_keeps (clock : Z) (l : list nat) (c : config) : bool :=
  match l with
  | []%list => true
  | (i :: l)%list => let c' := step_at clock c i in implb (barredb c.1) (barredb c'.1) && schedule_keeps clock l c'
  end.

Lemma barredb_keeps w w' : implb (barredb w) (barredb w') = true → barred w (supply 0) → barred w' (supply 0).
Proof. unfold barredb. intros Hb Hw. rewrite bool_decide_eq_true_2 in Hb by done. by apply bool_decide_eq_true in Hb. Qed.

Lemma schedule_keeps_rtc P clock l c :
  schedule_keeps clock l c = true →
  rtc (λ c c', cstep P c c' ∧ (barred c.1 (supply 0) → barred c'.1 (supply 0))) c (schedule clock l c).
Proof.
  revert c. induction l as [|i l IH]; intros c; [done|]. cbn [schedule foldl schedule_keeps].
  intros [Hb Hl]%andb_true_iff. etrans; [|by apply IH]. pose proof (barredb_keeps _ _ Hb) as Hk. clear Hb Hl IH.
  unfold step_at in *. destruct c as [w ts]; simpl in *. destruct (ts !! i) as [[R post p]|] eqn:Ei; [|done].
  destruct (next clock w p) as [[w' p']|] eqn:En; [|done].
  apply rtc_once. split; [|exact Hk]. eapply cstep_thread; [done|by eapply next_pstep].
Qed.

Definition drive_keeps (evs : list (world * world)) : bool :=
  forallb (λ s, implb (barredb s.1) (barredb s.2)) evs.

Lemma drive_beside P {R} fuel clock w ts (p : prog R) :
  drive_keeps (drive fuel clock w p).1.1 = true →
  rtc (λ s s', beside P s s' ∧ (barred s.1.1 (supply 0) → barred s'.1.1 (supply 0)))
    ((w, ts), p) (((drive fuel clock w p).1.2, ts), (drive fuel clock w p).2).
Proof.
  revert w p. induction fuel as [|fuel IH]; intros w p; [done|]. simpl.
  destruct (next clock w p) as [[w1 p1]|] eqn:En; [|done].
  specialize (IH w1 p1). destruct (drive fuel clock w1 p1) as [[evs w'] p']. simpl in *.
  intros [Hb Hl]%andb_true_iff. eapply rtc_l; [|by apply IH]. split; [by eapply beside_own, next_pstep|].
  by apply barredb_keeps.
Qed.

Lemma reach_refreshing : rtc (cstep operations) (start, []) refreshing.
Proof.
  etrans; [apply reach_logged_in|]. etrans; [|apply schedule_rtc].
  rewrite (surjective_pairing logged_in) at 1. apply rtc_once, cstep_spawn. constructor.
Qed.

(** The token is active when the refresh reads it; the refresh finds the family
    burned, and no token of the family is active at the end. *)
Lemma RevokeRefreshTokenFamily_burns_witness :
  (∃ r, active refreshing.1 (supply 3) r ∧ rft_FamilyID r = supply 0) ∧ burn.2 = Ret (Ok tt) ∧
  refreshed.2 !! 1%nat = Some (op_thread (Ret (Err ErrTokenReplay) : M TokenPair)) ∧
  ∀ id r, active refreshed.1 id r → rft_FamilyID r ≠ supply 0.
Proof.
  assert (burn.2 = Ret (Ok tt)) as Hret by (vm_compute; reflexivity).
  split_and!; [eexists; split; [split|]; vm_compute; reflexivity|done|vm_compute; reflexivity|]. intros id r Ha.
  apply (RevokeRefreshTokenFamily_burns (λ h p, Some (bool_decide (h = p))) (λ b, b) sign rand_read cfg
    (supply 0) 1000 start refreshing burned refreshed id r);
    [apply rand_writes|apply sessions_start_inv|apply reach_refreshing| | | |done].
  - exists (w_st refreshing.1), (supply 3). split; [by left|]. vm_compute. by eexists.
  - rewrite <-Hret. rewrite (surjective_pairing refreshing). apply drive_beside. vm_compute. reflexivity.
  - apply schedule_keeps_rtc. vm_compute. reflexivity.
Defined.
End SessionRuns.
