(* ===== verification/SerialText.v ===== *)
(** * Serial console text: internal/agent/serialmux, sanitize.go, ring.go, tail.go

    The bytes a virtual machine writes to its serial port: the sanitizer that
    strips control bytes and carries escape sequences across reads, the ring
    buffer of recent output, and the tail of the log files.  A byte slice is a
    list of bytes. *)

From Stdlib Require Import Strings.Byte.
From Equations Require Import Equations.
From S2P Require Import Prelude.
Local Open Scope Z_scope.

Definition slice := list byte.

#[export] Instance byte_eq_dec : EqDecision byte := Byte.byte_eq_dec.

Definition val (b : byte) : Z := Z.of_N (Byte.to_N b).

(** The longest prefix of bytes that satisfy [p], and the rest: the two scanning
    loops of [scanCSI]. *)
Fixpoint span (p : byte → bool) (s : slice) : slice * slice :=
  match s with
  | b :: s => if p b then let '(l, r) := span p s in (b :: l, r) else ([], b :: s)
  | [] => ([], [])
  end.

Module Sanitize.

Definition maxPendingCarry : nat := 64.

Definition ESC : byte := x1b.

Definition is_parameter (b : byte) : bool := (0x30 <=? val b) && (val b <=? 0x3F).
Definition is_intermediate (b : byte) : bool := (0x20 <=? val b) && (val b <=? 0x2F).
Definition is_final (b : byte) : bool := (0x40 <=? val b) && (val b <=? 0x7E).

Definition isThreeByteEscIntroducer (b : byte) : bool :=
  bool_decide (b ∈ ["("; ")"; "*"; "+"; "-"; "."; "/"; "#"; "%"]%byte).

(** [scanCSI(data, i)] on [s], which is [data[i:]] and starts with ESC: the bytes
    to emit, the number of bytes consumed, and whether the sequence is
    incomplete. *)
Definition scanCSI (s : slice) : slice * nat * bool :=
  match s with
  | _ :: second :: rest =>
    if bool_decide (second = "["%byte) then
      let '(parameters, rest) := span is_parameter rest in
      let '(intermediates, rest) := span is_intermediate rest in
      let k := (2 + length parameters + length intermediates)%nat in
      match rest with
      | b :: _ => if is_final b then (take (k + 1) s, (k + 1)%nat, false) else ([], length s, true)
      | [] => ([], length s, true)
      end
    else if isThreeByteEscIntroducer second then
      match rest with [] => ([], length s, true) | _ :: _ => ([], 3%nat, false) end
    else ([], 2%nat, false)
  | _ => ([], length s, true)
  end.

(** What the loop does with a byte that does not start an escape sequence. *)
Definition kept (b : byte) : bool :=
  if bool_decide (b ∈ [x08; x09; x0a; x0d]) then true
  else if (val b <? 0x20) || (val b =? 0x7F) then false
  else true.

(** [sanitizeWithCarry]: the output and the carry. *)
Equations? sanitizeWithCarry (data : slice) : slice * slice by wf (length data) lt :=
  sanitizeWithCarry [] := ([], []);
  sanitizeWithCarry (b :: s) with decide (b = ESC) := {
    | left _ with scanCSI (b :: s) := {
      | (emit, skip, true) => ([], b :: s)
      | (emit, skip, false) =>
        let '(out, carry) := sanitizeWithCarry (drop (skip - 1) s) in (emit ++ out, carry) };
    | right _ =>
      let '(out, carry) := sanitizeWithCarry s in
      (if kept b then b :: out else out, carry) }.
Proof.
  - rewrite length_drop. simpl. lia.
  - simpl. lia.
Defined.

(** [Sanitizer.Process]: the pending bytes before and after, and the output. *)
Definition Process (pending chunk : slice) : slice * slice :=
  let data := match pending with [] => chunk | _ => pending ++ chunk end in
  let '(out, carry) := sanitizeWithCarry data in
  match carry with
  | [] => ([], out)
  | _ => if (maxPendingCarry <? length carry)%nat then ([], out) else (carry, out)
  end.

Definition sanitize (data : slice) : slice := (sanitizeWithCarry data).1.
End Sanitize.

(** ** ring.go *)
Module Ring.

Record RingBuffer := MkRingBuffer { rb_data : slice; rb_maxBytes : Z }.

Definition NewRingBuffer (maxBytes : Z) : RingBuffer :=
  MkRingBuffer [] (if maxBytes <? 0 then 0 else maxBytes).

Definition Write (r : RingBuffer) (data : slice) : RingBuffer :=
  match data with
  | [] => r
  | _ =>
    if rb_maxBytes r =? 0 then r
    else
      let d := rb_data r ++ data in
      if rb_maxBytes r <? Z.of_nat (length d) then
        let excess := Z.of_nat (length d) - rb_maxBytes r in
        MkRingBuffer (drop (Z.to_nat excess) d) (rb_maxBytes r)
      else MkRingBuffer d (rb_maxBytes r)
  end.

Definition Snapshot (r : RingBuffer) : slice := rb_data r.
End Ring.

(** ** tail.go *)
Module Tail.

Definition newline : byte := x0a.

(** [bytes.SplitAfter(data, "\n")]: the pieces end after each newline, and the
    last piece is what follows the last one. *)
Fixpoint SplitAfter (data : slice) : list slice :=
  match data with
  | [] => [[]]
  | b :: data =>
    if bool_decide (b = newline) then [b] :: SplitAfter data
    else match SplitAfter data with
         | l :: ls => (b :: l) :: ls
         | [] => [[b]]
         end
  end.

(** Without a last piece that is empty. *)
Definition lines (data : slice) : list slice :=
  let ls := SplitAfter data in
  match last ls with Some [] => take (length ls - 1) ls | _ => ls end.

Definition lastNBytes (data : slice) (n : Z) : slice :=
  if (n <=? 0) || bool_decide (data = []) then []
  else
    let ls := lines data in
    if Z.of_nat (length ls) <=? n then data
    else concat (drop (length ls - Z.to_nat n) ls).

(** The files of a log directory, as reads of them return: [Err] for a failed
    read, [None] for a file that does not exist. *)
Definition readTailLines (rotated current : result string (option slice)) (n : Z) : result string slice :=
  if n =? 0 then Ok []
  else
    match rotated, current with
    | Err e, _ => Err e
    | Ok _, Err e => Err e
    | Ok r, Ok c =>
      let combined := default [] r ++ default [] c in
      if n <? 0 then Ok combined else Ok (lastNBytes combined n)
    end.
End Tail.

Definition LastNLines (r : Ring.RingBuffer) (n : Z) : slice := Tail.lastNBytes (Ring.rb_data r) n.
