(* ===== verification/SerialTextProps.v ===== *)
(** * The serial text is independent of how it is read

    The sanitizer's output has no control bytes below 0x80 but those it allows,
    and does not depend on how the stream was cut into reads; the ring buffer
    holds the end of what was written; the tail of a log is its last lines. *)

From Stdlib Require Import Strings.Byte.
From Equations Require Import Equations.
From S2P Require Import Prelude SerialText.
Import Sanitize Ring Tail.
Local Open Scope Z_scope.

(** ** Escape sequences *)

Lemma span_eq p s : s = (span p s).1 ++ (span p s).2.
Proof.
  induction s as [|b s IH]; [done|]. simpl. destruct (p b); [|done].
  destruct (span p s) as [l r]. simpl in *. by rewrite IH.
Qed.

Lemma span_all p s : Forall (λ b, p b = true) (span p s).1.
Proof.
  induction s as [|b s IH]; [constructor|]. simpl. destruct (p b) eqn:E; [|constructor].
  destruct (span p s) as [l r]. by constructor.
Qed.

Lemma span_stop p s b r : (span p s).2 = b :: r → p b = false.
Proof.
  induction s as [|c s IH]; [done|]. simpl. destruct (p c) eqn:E.
  - by destruct (span p s).
  - by intros [= -> _].
Qed.

Lemma span_spec p l r :
  Forall (λ b, p b = true) l → match r with b :: _ => p b = false | [] => True end → span p (l ++ r) = (l, r).
Proof.
  intros Hl Hr. induction Hl as [|b l Hb _ IH]; simpl.
  - destruct r as [|b r]; [done|]. simpl. by rewrite Hr.
  - by rewrite Hb, IH.
Qed.

(** A control sequence: its introducer, parameters, intermediates and final
    byte. *)
Definition csi (parameters intermediates : slice) (final : byte) : slice :=
  ESC :: "["%byte :: parameters ++ intermediates ++ [final].

Definition csi_ok (parameters intermediates : slice) (final : byte) : Prop :=
  Forall (λ b, is_parameter b = true) parameters ∧ Forall (λ b, is_intermediate b = true) intermediates ∧
  is_final final = true.

(** What the scanner does with a complete sequence. *)
Inductive scanned (s : slice) : slice → nat → Prop :=
| scanned_csi ps ms f rest :
    s = csi ps ms f ++ rest → csi_ok ps ms f → scanned s (csi ps ms f) (length (csi ps ms f))
| scanned_three c d rest :
    s = ESC :: c :: d :: rest → c ≠ "["%byte → isThreeByteEscIntroducer c = true → scanned s [] 3
| scanned_two c rest :
    s = ESC :: c :: rest → c ≠ "["%byte → isThreeByteEscIntroducer c = false → scanned s [] 2.

Lemma scanCSI_scanned s emit skip :
  scanCSI (ESC :: s) = (emit, skip, false) → scanned (ESC :: s) emit skip.
Proof.
  destruct s as [|c s]; [done|]. unfold scanCSI. case_bool_decide as Hc.
  - subst c. destruct (span is_parameter s) as [ps s1] eqn:E1. destruct (span is_intermediate s1) as [ms s2] eqn:E2.
    pose proof (span_eq is_parameter s) as H1. pose proof (span_all is_parameter s) as A1.
    pose proof (span_eq is_intermediate s1) as H2. pose proof (span_all is_intermediate s1) as A2.
    rewrite E1 in H1, A1. rewrite E2 in H2, A2. simpl in *. subst s s1.
    destruct s2 as [|f s2]; [done|]. destruct (is_final f) eqn:Ef; [|done]. intros [= <- <-].
    replace (length ps + length ms + 1)%nat with (length (ps ++ ms ++ [f])) by (rewrite !length_app; simpl; lia).
    replace (ps ++ ms ++ f :: s2) with ((ps ++ ms ++ [f]) ++ s2) by by rewrite <-!(assoc_L (++)).
    rewrite take_app_length.
    change (S (S (length (ps ++ ms ++ [f])))) with (length (csi ps ms f)).
    by apply (scanned_csi _ ps ms f s2).
  - destruct (isThreeByteEscIntroducer c) eqn:E3.
    + destruct s as [|d s]; [done|]. intros [= <- <-]. by eapply scanned_three.
    + intros [= <- <-]. by eapply scanned_two.
Qed.

Lemma final_class b : is_final b = true → is_parameter b = false ∧ is_intermediate b = false.
Proof. unfold is_final, is_parameter, is_intermediate. lia. Qed.

Lemma intermediate_class b : is_intermediate b = true → is_parameter b = false ∧ is_final b = false.
Proof. unfold is_final, is_parameter, is_intermediate. lia. Qed.

Lemma span_csi ps ms f rest :
  csi_ok ps ms f →
  span is_parameter (ps ++ ms ++ f :: rest) = (ps, ms ++ f :: rest) ∧
  span is_intermediate (ms ++ f :: rest) = (ms, f :: rest).
Proof.
  intros (Hps & Hms & Hf). apply final_class in Hf as [Hf1 Hf2]. split; apply span_spec; try done.
  destruct Hms as [|m ms Hm _]; [done|]. by apply intermediate_class in Hm as [? _].
Qed.

Lemma scanned_scanCSI s emit skip :
  scanned s emit skip → scanCSI s = (emit, skip, false).
Proof.
  intros [ps ms f rest -> Hok|c d rest -> Hc E3|c rest -> Hc E3]; unfold scanCSI.
  - unfold csi. cbn [app]. rewrite bool_decide_eq_true_2 by done.
    rewrite <-!(assoc_L (++)). cbn [app]. destruct (span_csi ps ms f rest Hok) as [-> ->].
    destruct Hok as (_ & _ & ->).
    replace (2 + length ps + length ms + 1)%nat with (length (csi ps ms f))
      by (unfold csi; simpl; rewrite !length_app; simpl; lia).
    replace (ESC :: "["%byte :: ps ++ ms ++ f :: rest) with (csi ps ms f ++ rest)
      by (unfold csi; simpl; by rewrite <-!(assoc_L (++))).
    by rewrite take_app_length.
  - by rewrite bool_decide_eq_false_2, E3.
  - by rewrite bool_decide_eq_false_2, E3.
Qed.

Lemma scanned_app s t emit skip : scanned s emit skip → scanned (s ++ t) emit skip.
Proof.
  intros [ps ms f rest -> Hok|c d rest -> Hc E3|c rest -> Hc E3].
  - apply (scanned_csi _ ps ms f (rest ++ t)); [by rewrite (assoc_L (++))|done].
  - by apply (scanned_three _ c d (rest ++ t)).
  - by apply (scanned_two _ c (rest ++ t)).
Qed.

Lemma scanned_skip s emit skip : scanned s emit skip → (2 ≤ skip ≤ length s)%nat.
Proof.
  intros [ps ms f rest -> Hok|c d rest -> Hc E3|c rest -> Hc E3]; simpl; rewrite ?length_app; lia.
Qed.

(** ** The loop *)

Lemma sanitize_nil : sanitizeWithCarry [] = ([], []).
Proof. by simp sanitizeWithCarry. Qed.

Lemma sanitize_other b s :
  b ≠ ESC →
  sanitizeWithCarry (b :: s) =
    ((if kept b then b :: (sanitizeWithCarry s).1 else (sanitizeWithCarry s).1), (sanitizeWithCarry s).2).
Proof.
  intros Hb. simp sanitizeWithCarry. destruct (decide (b = ESC)); [done|].
  simp sanitizeWithCarry. by destruct (sanitizeWithCarry s).
Qed.

Lemma sanitize_scanned s emit skip :
  scanned s emit skip →
  sanitizeWithCarry s =
    (emit ++ (sanitizeWithCarry (drop skip s)).1, (sanitizeWithCarry (drop skip s)).2).
Proof.
  intros Hs. pose proof (scanned_skip _ _ _ Hs) as Hlen.
  assert (∃ s', s = ESC :: s') as [s' ->].
  { destruct Hs as [ps ms f rest -> _|c d rest -> _|c rest -> _]; by eexists. }
  simp sanitizeWithCarry. destruct (decide (ESC = ESC)); [|done].
  simp sanitizeWithCarry. rewrite (scanned_scanCSI _ _ _ Hs). simpl.
  destruct skip as [|skip]; [lia|]. replace (S skip - 1)%nat with skip by lia. simpl.
  by destruct (sanitizeWithCarry (drop skip s')).
Qed.

Lemma sanitize_incomplete s :
  (∀ emit skip, ¬ scanned (ESC :: s) emit skip) → sanitizeWithCarry (ESC :: s) = ([], ESC :: s).
Proof.
  intros Hs. simp sanitizeWithCarry. destruct (decide (ESC = ESC)); [|done]. simp sanitizeWithCarry.
  destruct (scanCSI (ESC :: s)) as [[emit skip] []] eqn:E; [done|].
  by apply scanCSI_scanned, Hs in E.
Qed.

(** The ways a stream starts. *)
Lemma stream_cases s :
  s = [] ∨ (∃ b s', s = b :: s' ∧ b ≠ ESC) ∨ (∃ emit skip, scanned s emit skip) ∨
  (∃ s', s = ESC :: s' ∧ ∀ emit skip, ¬ scanned s emit skip).
Proof.
  destruct s as [|b s]; [by left|right]. destruct (decide (b = ESC)) as [->|Hb]; [right|by left; eexists _, _].
  destruct (scanCSI (ESC :: s)) as [[emit skip] []] eqn:E.
  - right. exists s. split; [done|]. intros emit' skip' Hs%scanned_scanCSI. congruence.
  - left. exists emit, skip. by apply scanCSI_scanned.
Qed.

Lemma stream_ind (P : slice → Prop) :
  P [] → (∀ b s, b ≠ ESC → P s → P (b :: s)) →
  (∀ s emit skip, scanned s emit skip → P (drop skip s) → P s) →
  (∀ s, (∀ emit skip, ¬ scanned (ESC :: s) emit skip) → P (ESC :: s)) → ∀ s, P s.
Proof.
  intros H0 H1 H2 H3 s. induction s as [s IH] using (induction_ltof1 _ (@length byte)). unfold ltof in IH.
  destruct (stream_cases s) as [->|[(b & s' & -> & Hb)|[(emit & skip & Hs)|(s' & -> & Hs)]]]; [done| | |by apply H3].
  - apply H1; [done|]. apply IH. simpl. lia.
  - eapply H2; [done|]. apply IH. apply scanned_skip in Hs. rewrite length_drop. lia.
Qed.

(** Reading more resumes from the carry. *)
Lemma sanitize_app a t :
  sanitizeWithCarry (a ++ t) =
    ((sanitizeWithCarry a).1 ++ (sanitizeWithCarry ((sanitizeWithCarry a).2 ++ t)).1,
     (sanitizeWithCarry ((sanitizeWithCarry a).2 ++ t)).2).
Proof.
  revert a. apply stream_ind; [|intros b s Hb IH|intros s emit skip Hs IH|intros s Hs].
  - rewrite sanitize_nil. simpl. by destruct (sanitizeWithCarry t).
  - simpl. rewrite !sanitize_other, IH by done. simpl. by destruct (kept b).
  - rewrite (sanitize_scanned (s ++ t) emit skip) by by apply scanned_app.
    rewrite (sanitize_scanned s emit skip) by done. apply scanned_skip in Hs.
    rewrite drop_app_le by lia. rewrite IH. simpl. by rewrite (assoc_L (++)).
  - rewrite sanitize_incomplete by done. simpl. by destruct (sanitizeWithCarry _).
Qed.

(** ** Reads *)

(** A sanitizer that is given [chunks] one by one: what it still holds, and what
    it put out. *)
Definition processAll (pending : slice) (chunks : list slice) : slice * slice :=
  foldl (λ acc chunk, let '(pending, out) := Process acc.1 chunk in (pending, acc.2 ++ out)) (pending, []) chunks.

Lemma processAll_snoc pending chunks chunk :
  processAll pending (chunks ++ [chunk]) =
    ((Process (processAll pending chunks).1 chunk).1,
     (processAll pending chunks).2 ++ (Process (processAll pending chunks).1 chunk).2).
Proof. unfold processAll. rewrite foldl_snoc. by destruct (Process _ chunk). Qed.

Lemma Process_eq pending chunk :
  Process pending chunk =
    ((if (maxPendingCarry <? length (sanitizeWithCarry (pending ++ chunk)).2)%nat then []
      else (sanitizeWithCarry (pending ++ chunk)).2), (sanitizeWithCarry (pending ++ chunk)).1).
Proof.
  unfold Process. replace (match pending with [] => chunk | _ => _ end) with (pending ++ chunk) by by destruct pending.
  destruct (sanitizeWithCarry (pending ++ chunk)) as [out [|b carry]]; [done|].
  simpl (_, _).2. by destruct (maxPendingCarry <? length (b :: carry))%nat.
Qed.

(** C10. How the stream was cut into reads does not show in the output, as long as no
    escape sequence of the stream stays unfinished for more than 64 bytes: the
    sanitizer puts out what it would put out for the whole stream at once. *)
Theorem Process_chunks chunks :
  (∀ p, p `prefix_of` concat chunks → (length (sanitizeWithCarry p).2 ≤ maxPendingCarry)%nat) →
  processAll [] chunks = ((sanitizeWithCarry (concat chunks)).2, sanitize (concat chunks)).
Proof.
  induction chunks as [|chunk chunks IH] using rev_ind; intros Hp.
  - unfold sanitize. simpl. by rewrite sanitize_nil.
  - rewrite concat_app in *. simpl in *. rewrite app_nil_r in *.
    rewrite processAll_snoc, IH by (intros p Hpre; apply Hp; by apply prefix_app_r). simpl.
    rewrite Process_eq. unfold sanitize. specialize (Hp (concat chunks ++ chunk) ltac:(reflexivity)).
    rewrite (sanitize_app (concat chunks)) in Hp |- *. cbn [fst snd] in *. by rewrite (proj2 (Nat.ltb_ge _ _) Hp).
Qed.

(** ** Output *)

(** What the sanitizer lets through: printable ASCII, backspace, tab, newline and
    carriage return; complete control sequences; and every byte from 0x80 up, of
    which nothing is known.  Such bytes are meant to be UTF-8, but an invalid
    encoding, and a C1 control such as the one-byte introducer 0x9B, pass as well. *)
Inductive clean : slice → Prop :=
| clean_nil : clean []
| clean_text b s : (b ∈ [x08; x09; x0a; x0d] ∨ 0x20 ≤ val b < 0x7F) → clean s → clean (b :: s)
| clean_high b s : 0x80 ≤ val b → clean s → clean (b :: s)
| clean_csi ps ms f s : csi_ok ps ms f → clean s → clean (csi ps ms f ++ s).

Lemma kept_spec b : kept b = true ↔ (b ∈ [x08; x09; x0a; x0d] ∨ 0x20 ≤ val b < 0x7F) ∨ 0x80 ≤ val b.
Proof.
  unfold kept. case_bool_decide as Hb; [tauto|]. destruct b; try (by vm_compute; naive_solver).
Qed.

Lemma clean_kept b s : kept b = true → clean s → clean (b :: s).
Proof. intros [?|?]%kept_spec; by constructor. Qed.

Lemma sanitize_clean s : clean (sanitizeWithCarry s).1.
Proof.
  revert s. apply stream_ind; [|intros b s Hb IH|intros s emit skip Hs IH|intros s Hs].
  - rewrite sanitize_nil. constructor.
  - rewrite sanitize_other by done. simpl. destruct (kept b) eqn:E; [|done].
    by apply clean_kept.
  - rewrite (sanitize_scanned _ _ _ Hs). simpl.
    destruct Hs as [ps ms f rest _ Hok|c d rest _ _ _|c rest _ _ _]; [by constructor|done..].
  - rewrite sanitize_incomplete by done. constructor.
Qed.

Lemma clean_app s t : clean s → clean t → clean (s ++ t).
Proof.
  induction 1 as [|b s Hb _ IH|b s Hb _ IH|ps ms f s Hok _ IH]; intros Ht; [done|by constructor; auto..|].
  rewrite <-(assoc_L (++)). by constructor; auto.
Qed.

Lemma sanitize_kept b s : kept b = true → sanitizeWithCarry s = (s, []) → sanitizeWithCarry (b :: s) = (b :: s, []).
Proof.
  intros Hb IH. assert (b ≠ ESC) by by intros ->. by rewrite sanitize_other, IH, Hb.
Qed.

Lemma sanitize_of_clean s : clean s → sanitizeWithCarry s = (s, []).
Proof.
  induction 1 as [|b s Hb _ IH|b s Hb _ IH|ps ms f s Hok _ IH]; [apply sanitize_nil| | |].
  - apply sanitize_kept; [|done]. apply kept_spec. by left.
  - apply sanitize_kept; [|done]. apply kept_spec. by right.
  - rewrite (sanitize_scanned _ (csi ps ms f) (length (csi ps ms f))) by by econstructor.
    by rewrite drop_app_length, IH.
Qed.

(** Nothing is put out that was not read. *)
Lemma sanitize_sublist s : (sanitizeWithCarry s).1 ++ (sanitizeWithCarry s).2 `sublist_of` s.
Proof.
  revert s. apply stream_ind; [|intros b s Hb IH|intros s emit skip Hs IH|intros s Hs].
  - by rewrite sanitize_nil.
  - rewrite sanitize_other by done. simpl. destruct (kept b); by constructor.
  - rewrite (sanitize_scanned _ _ _ Hs). simpl. rewrite <-(assoc_L (++)).
    rewrite <-(take_drop skip s) at 3. apply sublist_app; [|done].
    destruct Hs as [ps ms f rest -> _|c d rest -> _ _|c rest -> _ _]; [by rewrite take_app_length|apply sublist_nil_l..].
  - by rewrite sanitize_incomplete.
Qed.

Lemma Process_sublist pending chunk :
  (Process pending chunk).2 ++ (Process pending chunk).1 `sublist_of` pending ++ chunk.
Proof.
  rewrite Process_eq. simpl. etrans; [|apply sanitize_sublist]. apply sublist_app; [done|].
  case_match; [apply sublist_nil_l|done].
Qed.

Lemma processAll_sublist pending chunks :
  (processAll pending chunks).2 ++ (processAll pending chunks).1 `sublist_of` pending ++ concat chunks.
Proof.
  induction chunks as [|chunk chunks IH] using rev_ind; [simpl; by rewrite app_nil_r|].
  rewrite processAll_snoc, concat_app. simpl. rewrite app_nil_r, <-(assoc_L (++)), (assoc_L (++) pending).
  etrans; [|by apply sublist_app, (reflexivity chunk)]. rewrite <-(assoc_L (++)).
  apply sublist_app; [done|]. apply Process_sublist.
Qed.

(** C33. Whatever a virtual machine writes and however it is read, of the bytes below
    0x80 the console and the log files only get printable ASCII, the four allowed
    control bytes and complete control sequences; bytes from 0x80 up are passed on
    and not checked, so the claim says nothing of invalid UTF-8 or C1 controls.  The
    output is what was read with bytes left out, so that a stream of 7-bit bytes comes
    out as printable text and control sequences only; and a log that is read back
    through a sanitizer is shown as it was written. *)
Theorem Process_output pending chunks :
  clean (processAll pending chunks).2 ∧
  (processAll pending chunks).2 `sublist_of` pending ++ concat chunks ∧
  sanitizeWithCarry (processAll pending chunks).2 = ((processAll pending chunks).2, []).
Proof.
  assert (clean (processAll pending chunks).2) as Hc; [|split_and!; [done| |by apply sanitize_of_clean]].
  - induction chunks as [|chunk chunks IH] using rev_ind; [constructor|].
    rewrite processAll_snoc, Process_eq. apply clean_app; [done|apply sanitize_clean].
  - etrans; [|apply processAll_sublist]. by apply sublist_inserts_r.
Qed.

(** ** A control sequence that is never completed *)

(** The introducer, parameters and intermediates of a control sequence followed
    by a byte that can neither continue nor end it. *)
Definition malformed (ps ms : slice) (bad : byte) : Prop :=
  Forall (λ b, is_parameter b = true) ps ∧ Forall (λ b, is_intermediate b = true) ms ∧
  is_intermediate bad = false ∧ is_final bad = false ∧ (is_parameter bad = true → ms ≠ []).

Lemma scan_malformed ps ms bad rest emit skip :
  malformed ps ms bad → ¬ scanned (ESC :: "["%byte :: ps ++ ms ++ bad :: rest) emit skip.
Proof.
  intros (Hps & Hms & Hi & Hf & Hp) Hs%scanned_scanCSI. unfold scanCSI in Hs.
  rewrite bool_decide_eq_true_2 in Hs by done.
  rewrite (span_spec _ ps (ms ++ bad :: rest)), (span_spec _ ms (bad :: rest)) in Hs; try done.
  - by rewrite Hf in Hs.
  - destruct Hms as [|m ms Hm _]; simpl.
    + destruct (is_parameter bad) eqn:E; [|done]. by destruct (Hp eq_refl).
    + by apply intermediate_class in Hm as [? _].
Qed.

(** A control sequence that is broken off by a byte that cannot continue it is
    held as if its end were still to come, with everything after it in the read;
    once that is more than 64 bytes, all of it is dropped: the text that follows
    the broken sequence is neither shown nor logged. *)
Theorem malformed_csi_swallows_output text ps ms bad rest :
  clean text → malformed ps ms bad → (maxPendingCarry ≤ length rest)%nat →
  Process [] (text ++ ESC :: "["%byte :: ps ++ ms ++ bad :: rest) = ([], text).
Proof.
  intros Ht Hbad Hlen. rewrite Process_eq. simpl ([] ++ _).
  rewrite sanitize_app, (sanitize_of_clean _ Ht). cbn [fst snd app].
  rewrite sanitize_incomplete by (intros emit skip; by apply scan_malformed). cbn [fst snd].
  rewrite app_nil_r. rewrite (proj2 (Nat.ltb_lt _ _)); [done|].
  simpl. rewrite !length_app. simpl. lia.
Qed.

Lemma malformed_csi_swallows_output_witness :
  Process [] ([x6f; x6b] ++ ESC :: "["%byte :: [x31] ++ [] ++ newline :: repeat x61 64) = ([], [x6f; x6b]).
Proof.
  apply (malformed_csi_swallows_output [x6f; x6b] [x31] [] newline (repeat x61 64)).
  - do 2 (apply clean_text; [right; by vm_compute|]). constructor.
  - split_and!; [by apply Forall_singleton|constructor|reflexivity|reflexivity|done].
  - vm_compute. lia.
Defined.

Lemma carry_length s : (length (sanitizeWithCarry s).2 ≤ length s)%nat.
Proof.
  revert s. apply stream_ind; [|intros b s Hb IH|intros s emit skip Hs IH|intros s Hs].
  - by rewrite sanitize_nil.
  - rewrite sanitize_other by done. simpl. lia.
  - rewrite (sanitize_scanned _ _ _ Hs). simpl. rewrite length_drop in IH. lia.
  - by rewrite sanitize_incomplete.
Qed.

Lemma Process_chunks_witness :
  processAll [] [[x6f; ESC]; ["["%byte]; [x31; x6d; x6b]] =
    ([], [x6f; ESC; "["%byte; x31; x6d; x6b]).
Proof.
  rewrite (Process_chunks [[x6f; ESC]; ["["%byte]; [x31; x6d; x6b]]); [by vm_compute|].
  intros p Hp. transitivity (length p); [apply carry_length|].
  apply prefix_length in Hp. simpl in Hp. unfold maxPendingCarry. lia.
Defined.

(** ** The ring buffer *)

Definition suffix_of_length (n : nat) (s : slice) : slice := drop (length s - n) s.

(** What a client does with a ring buffer, and what it sees. *)
Inductive ring_op := RWrite (data : slice) | RSnapshot | RLastNLines (n : Z).

Definition ring_step (r : RingBuffer) (o : ring_op) : RingBuffer * slice :=
  match o with
  | RWrite data => (Write r data, [])
  | RSnapshot => (r, Snapshot r)
  | RLastNLines n => (r, LastNLines r n)
  end.

(** The specification: everything that was written, of which the last
    [maxBytes] bytes show. *)
Definition record_step (maxBytes : Z) (h : slice) (o : ring_op) : slice * slice :=
  match o with
  | RWrite data => (h ++ data, [])
  | RSnapshot => (h, suffix_of_length (Z.to_nat maxBytes) h)
  | RLastNLines n => (h, lastNBytes (suffix_of_length (Z.to_nat maxBytes) h) n)
  end.

Fixpoint observe {S} (step : S → ring_op → S * slice) (s : S) (ops : list ring_op) : list slice :=
  match ops with
  | [] => []
  | o :: ops => (step s o).2 :: observe step (step s o).1 ops
  end.

Definition ring_refines (maxBytes : Z) (r : RingBuffer) (h : slice) : Prop :=
  rb_maxBytes r = Z.max 0 maxBytes ∧ rb_data r = suffix_of_length (Z.to_nat maxBytes) h.

Lemma suffix_of_length_app n h data :
  suffix_of_length n (suffix_of_length n h ++ data) = suffix_of_length n (h ++ data).
Proof.
  unfold suffix_of_length. rewrite !length_app, length_drop.
  destruct (decide (length h ≤ n)%nat) as [Hh|Hh].
  - replace (length h - n)%nat with 0%nat by lia. by rewrite drop_0, Nat.sub_0_r.
  - rewrite <-(drop_app_le h) by lia. rewrite drop_drop. f_equal. lia.
Qed.

Lemma Write_refines maxBytes r h data :
  ring_refines maxBytes r h → ring_refines maxBytes (Write r data) (h ++ data).
Proof.
  intros [Hmax Hdata]. unfold ring_refines. rewrite <-suffix_of_length_app, <-Hdata. unfold Write.
  destruct data as [|b data].
  { split; [done|]. by rewrite Hdata, suffix_of_length_app, app_nil_r. }
  set (d := b :: data). destruct (Z.eqb_spec (rb_maxBytes r) 0) as [E|E].
  { split; [done|]. assert (Z.to_nat maxBytes = 0%nat) as En by lia.
    rewrite Hdata, En. unfold suffix_of_length. by rewrite !Nat.sub_0_r, !drop_all. }
  destruct (Z.ltb_spec (rb_maxBytes r) (Z.of_nat (length (rb_data r ++ d)))) as [L|L]; simpl; (split; [done|]).
  - unfold suffix_of_length. f_equal. lia.
  - unfold suffix_of_length. replace (_ - _)%nat with 0%nat by lia. done.
Qed.

(** C12. The ring buffer refines the record of everything that was written, of which
    readers see the last [maxBytes] bytes: no sequence of writes, snapshots and
    line tails tells the two apart. *)
Theorem RingBuffer_refines_record maxBytes ops :
  observe ring_step (NewRingBuffer maxBytes) ops = observe (record_step maxBytes) [] ops.
Proof.
  assert (ring_refines maxBytes (NewRingBuffer maxBytes) []) as Hr.
  { unfold NewRingBuffer, ring_refines. simpl. split; [|by rewrite drop_nil || done]. destruct (Z.ltb_spec maxBytes 0); lia. }
  revert Hr. generalize (NewRingBuffer maxBytes) as r. generalize (@nil byte) as h.
  induction ops as [|o ops IH]; intros h r Hr; [done|]. simpl.
  destruct o as [data| |n]; simpl; f_equal; try (by apply IH); try apply Hr.
  - by apply IH, Write_refines.
  - unfold LastNLines. by rewrite (proj2 Hr).
Qed.

(** ** The tail of a log *)

Lemma SplitAfter_ne s : SplitAfter s ≠ [].
Proof. destruct s as [|b s]; [done|]. simpl. case_bool_decide; [done|]. by destruct (SplitAfter s). Qed.

Lemma lines_eq b s :
  lines (b :: s) =
    if bool_decide (b = newline) then [b] :: lines s
    else match lines s with l :: ls => (b :: l) :: ls | [] => [[b]] end.
Proof.
  unfold lines. simpl. pose proof (SplitAfter_ne s) as Hne.
  destruct (SplitAfter s) as [|l ls] eqn:E; [done|]. case_bool_decide as Hb.
  - rewrite last_cons_cons. cbn [length].
    destruct (last (l :: ls)) as [[|]|] eqn:El; [|done|done].
    replace (S (S (length ls)) - 1)%nat with (S (length ls)) by lia.
    replace (S (length ls) - 1)%nat with (length ls) by lia. done.
  - destruct ls as [|l' ls]; simpl.
    + by destruct l.
    + destruct (last (l' :: ls)) as [[|]|]; done.
Qed.

Lemma concat_lines s : concat (lines s) = s.
Proof.
  induction s as [|b s IH]; [done|]. rewrite lines_eq. case_bool_decide; simpl; [by rewrite IH|].
  destruct (lines s); simpl in *; by rewrite <-IH.
Qed.

Lemma lines_nonempty s l : l ∈ lines s → l ≠ [].
Proof.
  revert l. induction s as [|b s IH]; intros l; [by intros ?%elem_of_nil|].
  rewrite lines_eq. case_bool_decide.
  - intros [->|?]%elem_of_cons; [done|auto].
  - destruct (lines s) as [|l' ls]; [by intros ->%list_elem_of_singleton|].
    intros [->|?]%elem_of_cons; [done|]. apply IH. by right.
Qed.

Lemma lines_drop k s : lines (concat (drop k (lines s))) = drop k (lines s).
Proof.
  revert k. induction s as [|b s IH]; intros k; [by destruct k|].
  destruct k as [|k]; [by rewrite !drop_0, concat_lines|].
  rewrite lines_eq. case_bool_decide; simpl; [apply IH|].
  destruct (lines s) as [|l ls] eqn:E; simpl; [by rewrite drop_nil|].
  exact (IH (S k)).
Qed.

Lemma lines_take k s :
  (k < length (lines s))%nat →
  concat (take k (lines s)) = [] ∨ last (concat (take k (lines s))) = Some newline.
Proof.
  revert k. induction s as [|b s IH]; intros k Hk; [simpl in Hk; lia|].
  destruct k as [|k]; [by left|right]. rewrite lines_eq in *. case_bool_decide as Hb; simpl in *.
  - destruct (IH k) as [E|E]; [lia|by rewrite E, Hb|]. rewrite last_cons, E. done.
  - destruct (lines s) as [|l ls] eqn:E; simpl in *; [lia|].
    destruct (IH (S k)) as [El|El]; [lia| |]; simpl in El.
    + apply app_nil in El as [-> _]. by destruct (lines_nonempty s []); [rewrite E; left|].
    + by rewrite last_cons, El.
Qed.

(** The tail of a log is its last [n] lines: it ends the log, it starts at the
    start of a line, and it has [n] lines, or all of them. *)
Theorem lastNBytes_tail data n :
  0 < n →
  ∃ pre, data = pre ++ lastNBytes data n ∧ (pre = [] ∨ last pre = Some newline) ∧
    length (lines (lastNBytes data n)) = (Z.to_nat n `min` length (lines data))%nat.
Proof.
  intros Hn. unfold lastNBytes. rewrite (proj2 (Z.leb_gt n 0)) by lia. simpl.
  case_bool_decide as Hd; [subst; exists []; split_and!; [done|by left|simpl; lia]|].
  destruct (Z.leb_spec (Z.of_nat (length (lines data))) n).
  - exists []. split_and!; [done|by left|lia].
  - set (k := (length (lines data) - Z.to_nat n)%nat). exists (concat (take k (lines data))). split_and!.
    + rewrite <-concat_app, take_drop. by rewrite concat_lines.
    + apply lines_take. lia.
    + rewrite lines_drop, length_drop. lia.
Qed.

Lemma lastNBytes_tail_witness :
  ∃ pre, [x61; x0a; x62; x0a] = pre ++ lastNBytes [x61; x0a; x62; x0a] 1 ∧ (pre = [] ∨ last pre = Some newline) ∧
    length (lines (lastNBytes [x61; x0a; x62; x0a] 1)) = (Z.to_nat 1 `min` length (lines [x61; x0a; x62; x0a]))%nat.
Proof. apply (lastNBytes_tail [x61; x0a; x62; x0a] 1). lia. Defined.
