(* ===== verification/SerialMux.v ===== *)
(** * The serial console multiplexer: internal/agent/serialmux

    subscriber.go, rotation.go and multiplexer.go as a system of goroutines over
    shared memory.  The subscribers are objects that the multiplexer and the
    client share, so they live in two maps from locations.  A goroutine is a
    point of the code it has reached; [thread_step] runs it to its next point,
    and a mutex that is held across several points ([subMu] by the fan-out,
    [logMu] by a rotation, [transitionMu] by [Reconnect] and [Close]) is a field
    of the state.  What the operating system answers is an [outcome]. *)

From Stdlib Require Import Strings.Byte.
From S2P Require Import Prelude Strconv SerialText.
From stdpp Require Import gmap.
Import Sanitize Ring Tail.
Local Open Scope Z_scope.

Definition loc := nat.

(** ** subscriber.go *)
Module Subscriber.

Inductive delivery_error := errSubscriberClosed | errSubscriberFull.

Record ConsoleSubscriber := MkConsoleSubscriber {
  cs_ch : list slice;
  cs_capacity : Z;
  cs_closed : bool;
}.

Record LogsSubscriber := MkLogsSubscriber {
  ls_ch : list slice;
  ls_capacity : Z;
  ls_closed : bool;
  ls_ready : bool;
  ls_dropped : Z;
  ls_follow : bool;
}.

Definition newConsoleSubscriber (capacity : Z) : ConsoleSubscriber :=
  MkConsoleSubscriber [] (if capacity <=? 0 then 1 else capacity) false.

Definition newLogsSubscriber (follow : bool) (capacity : Z) : LogsSubscriber :=
  MkLogsSubscriber [] (if capacity <=? 0 then 1 else capacity) false false 0 follow.

Definition console_Close (s : ConsoleSubscriber) : ConsoleSubscriber :=
  MkConsoleSubscriber (cs_ch s) (cs_capacity s) true.

Definition console_tryDeliver (s : ConsoleSubscriber) (data : slice) : ConsoleSubscriber * option delivery_error :=
  if cs_closed s then (s, Some errSubscriberClosed)
  else if Z.of_nat (length (cs_ch s)) <? cs_capacity s
  then (MkConsoleSubscriber (cs_ch s ++ [data]) (cs_capacity s) (cs_closed s), None)
  else (s, Some errSubscriberFull).

Definition logs_Close (s : LogsSubscriber) : LogsSubscriber :=
  MkLogsSubscriber (ls_ch s) (ls_capacity s) true (ls_ready s) (ls_dropped s) (ls_follow s).

Definition markReady (s : LogsSubscriber) : LogsSubscriber :=
  MkLogsSubscriber (ls_ch s) (ls_capacity s) (ls_closed s) true (ls_dropped s) (ls_follow s).

Definition set_dropped (n : Z) (s : LogsSubscriber) : LogsSubscriber :=
  MkLogsSubscriber (ls_ch s) (ls_capacity s) (ls_closed s) (ls_ready s) n (ls_follow s).

(** The counter is a uint64. *)
Definition AddDropped (n : Z) (s : LogsSubscriber) : LogsSubscriber :=
  set_dropped ((ls_dropped s + n) mod 2 ^ 64) s.

Definition DroppedBytes (s : LogsSubscriber) : Z := ls_dropped s.

Definition SwapDropped (s : LogsSubscriber) : LogsSubscriber * Z := (set_dropped 0 s, ls_dropped s).

Definition logs_tryDeliver (s : LogsSubscriber) (data : slice) : LogsSubscriber * option delivery_error :=
  if ls_closed s then (s, Some errSubscriberClosed)
  else if Z.of_nat (length (ls_ch s)) <? ls_capacity s
  then (MkLogsSubscriber (ls_ch s ++ [data]) (ls_capacity s) (ls_closed s) (ls_ready s) (ls_dropped s) (ls_follow s), None)
  else (s, Some errSubscriberFull).

(** A client's receive from [Bytes()]. *)
Definition console_receive (s : ConsoleSubscriber) : option (slice * ConsoleSubscriber) :=
  match cs_ch s with
  | m :: ch => Some (m, MkConsoleSubscriber ch (cs_capacity s) (cs_closed s))
  | [] => None
  end.

Definition logs_receive (s : LogsSubscriber) : option (slice * LogsSubscriber) :=
  match ls_ch s with
  | m :: ch => Some (m, MkLogsSubscriber ch (ls_capacity s) (ls_closed s) (ls_ready s) (ls_dropped s) (ls_follow s))
  | [] => None
  end.
End Subscriber.
Import Subscriber.

(** ** State *)

(** The subscriber registry, and the subscribers there are. *)
Record registry := MkRegistry {
  consoleSub : option loc;
  logsSubs : list loc;
  subMu : bool;
  consoles : gmap loc ConsoleSubscriber;
  logs : gmap loc LogsSubscriber;
}.

(** The log file: [logFile] says whether there is an open handle to it; [current]
    and [rotated] are the files of the log directory. *)
Record log_state := MkLogState {
  logFile : bool;
  bytesWritten : Z;
  rotationCh : bool;
  logMu : bool;
  current : option slice;
  rotated : option slice;
}.

(** The connection to QEMU and the life cycle. *)
Record link := MkLink {
  conn : option nat;
  closed : bool;
  transitionMu : bool;
}.

Record Multiplexer := MkMultiplexer {
  rotationThreshold : Z;
  m_link : link;
  m_registry : registry;
  m_ring : RingBuffer;
  m_sanitizer : slice;
  m_log : log_state;
}.

Definition set_link (l : link) (m : Multiplexer) : Multiplexer :=
  MkMultiplexer (rotationThreshold m) l (m_registry m) (m_ring m) (m_sanitizer m) (m_log m).
Definition set_registry (r : registry) (m : Multiplexer) : Multiplexer :=
  MkMultiplexer (rotationThreshold m) (m_link m) r (m_ring m) (m_sanitizer m) (m_log m).
Definition set_output (r : RingBuffer) (pending : slice) (m : Multiplexer) : Multiplexer :=
  MkMultiplexer (rotationThreshold m) (m_link m) (m_registry m) r pending (m_log m).
Definition set_log (l : log_state) (m : Multiplexer) : Multiplexer :=
  MkMultiplexer (rotationThreshold m) (m_link m) (m_registry m) (m_ring m) (m_sanitizer m) l.

Definition set_console (l : loc) (s : ConsoleSubscriber) (r : registry) : registry :=
  MkRegistry (consoleSub r) (logsSubs r) (subMu r) (<[l := s]> (consoles r)) (logs r).
Definition set_logs (l : loc) (s : LogsSubscriber) (r : registry) : registry :=
  MkRegistry (consoleSub r) (logsSubs r) (subMu r) (consoles r) (<[l := s]> (logs r)).

(** ** Goroutines *)

(** Where a goroutine is: the pump, the rotation loop, a history stream, a
    [Reconnect] and a [Close].  [eof] says whether the read that brought the data
    also failed. *)
Inductive thread :=
| PumpLoad
| PumpRead (c : nat)
| PumpDisk (clean : slice) (eof : bool)
| PumpFanout (clean : slice) (eof : bool)
| PumpLogs (clean : slice) (eof : bool) (todo alive : list loc)
| PumpSend (clean : slice) (eof : bool) (sub : loc) (todo alive : list loc)
| RotationWait
| RotationRun
| RotationOpen
| RotationRecover
| HistoryRotated (sub : loc) (tailLines : Z)
| HistoryCurrent (sub : loc) (tailLines : Z) (r : option slice)
| HistoryAttach (sub : loc) (tail : slice)
| ReconnectStart
| ReconnectDial
| CloseStart
| CloseWaitPump
| CloseWaitBg
| CloseLog
| CloseSubs.

Definition is_pump (t : thread) : bool :=
  match t with
  | PumpLoad | PumpRead _ | PumpDisk _ _ | PumpFanout _ _ | PumpLogs _ _ _ _ | PumpSend _ _ _ _ _ => true
  | _ => false
  end.

(** The goroutines counted by [bgWg]. *)
Definition is_bg (t : thread) : bool :=
  match t with
  | RotationWait | RotationRun | RotationOpen | RotationRecover
  | HistoryRotated _ _ | HistoryCurrent _ _ _ | HistoryAttach _ _ => true
  | _ => false
  end.

(** What the operating system answers: a read from the connection, the number of
    bytes a failing write still wrote, the result of a rename, an open or a file
    read, a dial; [ODone] and [OSignal] are the two cases of the rotation loop's
    select. *)
Inductive outcome :=
| ONone
| ORead (chunk : slice) (eof : bool)
| OWrite (failed : option nat)
| ODone
| OSignal
| OFile (ok : bool)
| ODial (r : result string nat).

(** What happened, for the record. *)
Inductive event :=
| Chunk (chunk : slice)
| Emitted (clean : slice)
| Logged (data : slice)
| NotLogged (data : slice)
| FanOut (clean : slice)
| Attached (sub : loc) (tail : slice)
| Offered (sub : loc) (payload : slice)
| Received (sub : loc) (message : slice)
| Returned (err : option string).

Definition pumpBufferSize : nat := 4096.
Definition rotationThresholdBytes : Z := 10 * 1024 * 1024.
Definition defaultSubscriberCapacity : Z := 32.
Definition ringBufferBytes : Z := 8 * 1024.
Definition consoleHistoryLines : Z := 20.

Definition errMultiplexerClosed : string := "serialmux: multiplexer closed".

(** The pump's loop goes on unless the read failed. *)
Definition pump_next (eof : bool) : list thread := if eof then [] else [PumpLoad].

Definition pump_read (m : Multiplexer) (chunk : slice) (eof : bool) : Multiplexer * list thread * list event :=
  match chunk with
  | [] => (m, pump_next eof, [])
  | _ =>
    let '(pending, clean) := Process (m_sanitizer m) chunk in
    match clean with
    | [] => (set_output (m_ring m) pending m, pump_next eof, [Chunk chunk])
    | _ => (set_output (Write (m_ring m) clean) pending m, [PumpDisk clean eof], [Chunk chunk; Emitted clean])
    end
  end.

(** The file after an append; [OpenFile] with [O_CREATE|O_APPEND]. *)
Definition append_current (data : slice) (l : log_state) : option slice := Some (default [] (current l) ++ data).

Definition writeToDisk (threshold : Z) (l : log_state) (data : slice) (failed : option nat) : log_state * list event :=
  if negb (logFile l) then (l, [NotLogged data])
  else
    match failed with
    | Some n =>
      (MkLogState (logFile l) (bytesWritten l) (rotationCh l) (logMu l) (append_current (take n data) l) (rotated l),
       [NotLogged data])
    | None =>
      let n := bytesWritten l + Z.of_nat (length data) in
      (MkLogState (logFile l) n (if threshold <=? n then true else rotationCh l) (logMu l)
         (append_current data l) (rotated l), [Logged data])
    end.

(** [runRotation] up to the rename of [rotateLogFile]: the file is closed and
    renamed; a file that does not exist is left alone. *)
Definition runRotation_rename (l : log_state) (ok : bool) : log_state :=
  if ok then
    match current l with
    | Some data => MkLogState false (bytesWritten l) (rotationCh l) true None (Some data)
    | None => MkLogState false (bytesWritten l) (rotationCh l) true (current l) (rotated l)
    end
  else MkLogState false (bytesWritten l) (rotationCh l) true (current l) (rotated l).

(** The open that follows, and the one that recovers from a failed rotation. *)
Definition runRotation_open (l : log_state) : log_state :=
  MkLogState true 0 (rotationCh l) false (append_current [] l) (rotated l).

Definition unlock_log (l : log_state) : log_state :=
  MkLogState (logFile l) (bytesWritten l) (rotationCh l) false (current l) (rotated l).

Definition bytes_of (s : string) : slice := String.list_byte_of_string s.

Definition drop_marker (drops : Z) : slice :=
  [x0d; x0a] ++ bytes_of "[otherix: " ++ bytes_of (Strconv.format_nat drops) ++ bytes_of " bytes dropped]" ++ [x0d; x0a].

(** What [deliverToSubscribers] does for a log subscriber that is not closed. *)
Definition deliver_logs (data : slice) (sub : LogsSubscriber) : LogsSubscriber :=
  let '(sub, drops) := SwapDropped sub in
  let toSend := if 0 <? drops then drop_marker drops ++ data else data in
  match logs_tryDeliver sub toSend with
  | (sub, Some errSubscriberFull) => AddDropped ((drops + Z.of_nat (length data)) mod 2 ^ 64) sub
  | (sub, _) => sub
  end.

(** The console's part of [deliverToSubscribers]. *)
Definition deliver_console (data : slice) (r : registry) : registry :=
  match consoleSub r with
  | None => r
  | Some l =>
    match consoles r !! l with
    | Some sub => if cs_closed sub then r else set_console l (console_tryDeliver sub data).1 r
    | None => r
    end
  end.

Definition lock_subs (r : registry) : registry :=
  MkRegistry (consoleSub r) (logsSubs r) true (consoles r) (logs r).

(** [m.logsSubs = alive] and the unlock. *)
Definition finish_fanout (alive : list loc) (r : registry) : registry :=
  MkRegistry (consoleSub r) alive false (consoles r) (logs r).

Definition logs_update (l : loc) (f : LogsSubscriber → LogsSubscriber) (r : registry) : registry :=
  match logs r !! l with Some sub => set_logs l (f sub) r | None => r end.

(** The end of [streamHistoryThenAttach], without and with [follow]. *)
Definition history_once (l : loc) (tail : slice) (r : registry) : registry :=
  logs_update l (λ sub,
    let sub := match tail with [] => sub | _ => (logs_tryDeliver sub tail).1 end in
    markReady (logs_Close sub)) r.

Definition history_attach (l : loc) (tail : slice) (r : registry) : registry :=
  let r := logs_update l (λ sub,
    markReady (match tail with [] => sub | _ => (logs_tryDeliver sub tail).1 end)) r in
  MkRegistry (consoleSub r) (logsSubs r ++ [l]) (subMu r) (consoles r) (logs r).

(** The last part of [Close]. *)
Definition close_subscribers (r : registry) : registry :=
  let cs := match consoleSub r with
            | Some l => match consoles r !! l with
                        | Some sub => <[l := console_Close sub]> (consoles r)
                        | None => consoles r
                        end
            | None => consoles r
            end in
  let ls := foldl (λ ls l, match ls !! l with Some sub => <[l := logs_Close sub]> ls | None => ls end)
              (logs r) (logsSubs r) in
  MkRegistry None [] (subMu r) cs ls.

Definition with_registry (m : Multiplexer) (r : registry) (ts : list thread) (evs : list event) :
  option (Multiplexer * list thread * list event) := Some (set_registry r m, ts, evs).
Definition with_log (m : Multiplexer) (l : log_state) (ts : list thread) (evs : list event) :
  option (Multiplexer * list thread * list event) := Some (set_log l m, ts, evs).
Definition with_link (m : Multiplexer) (l : link) (ts : list thread) (evs : list event) :
  option (Multiplexer * list thread * list event) := Some (set_link l m, ts, evs).

(** The pump. *)
Definition pump_step (m : Multiplexer) (t : thread) (o : outcome) : option (Multiplexer * list thread * list event) :=
  let r := m_registry m in
  match t, o with
  | PumpLoad, ONone =>
    match conn (m_link m) with
    | None => Some (m, [], [])
    | Some c => Some (m, [PumpRead c], [])
    end
  | PumpRead _, ORead chunk eof =>
    if (length chunk <=? pumpBufferSize)%nat then Some (pump_read m chunk eof) else None
  | PumpDisk clean eof, OWrite failed =>
    if logMu (m_log m) then None
    else let '(l, evs) := writeToDisk (rotationThreshold m) (m_log m) clean failed in
         with_log m l [PumpFanout clean eof] evs
  | PumpFanout clean eof, ONone =>
    if subMu r then None
    else with_registry m (lock_subs (deliver_console clean r)) [PumpLogs clean eof (logsSubs r) []] [FanOut clean]
  | PumpLogs clean eof [] alive, ONone => with_registry m (finish_fanout alive r) (pump_next eof) []
  | PumpLogs clean eof (l :: todo) alive, ONone =>
    match logs r !! l with
    | Some sub => Some (m, [if ls_closed sub then PumpLogs clean eof todo alive else PumpSend clean eof l todo alive], [])
    | None => None
    end
  | PumpSend clean eof l todo alive, ONone =>
    with_registry m (logs_update l (deliver_logs clean) r) [PumpLogs clean eof todo (alive ++ [l])] [Offered l clean]
  | _, _ => None
  end.

(** [rotationLoop] and [runRotation]. *)
Definition rotation_step (m : Multiplexer) (t : thread) (o : outcome) : option (Multiplexer * list thread * list event) :=
  let l := m_log m in
  match t, o with
  | RotationWait, ODone => if closed (m_link m) then Some (m, [], []) else None
  | RotationWait, OSignal =>
    if rotationCh l
    then with_log m (MkLogState (logFile l) (bytesWritten l) false (logMu l) (current l) (rotated l)) [RotationRun] []
    else None
  | RotationRun, OFile ok =>
    if logMu l then None
    else if negb (logFile l) then Some (m, [RotationWait], [])
    else with_log m (runRotation_rename l ok) [if ok then RotationOpen else RotationRecover] []
  | RotationOpen, OFile ok =>
    if ok then with_log m (runRotation_open l) [RotationWait] [] else Some (m, [RotationRecover], [])
  | RotationRecover, OFile ok =>
    with_log m (if ok then runRotation_open l else unlock_log l) [RotationWait] []
  | _, _ => None
  end.

(** [streamHistoryThenAttach]: the two files are read one after the other, and
    then the subscriber is attached. *)
Definition history_step (m : Multiplexer) (t : thread) (o : outcome) : option (Multiplexer * list thread * list event) :=
  let r := m_registry m in
  match t, o with
  | HistoryRotated l n, OFile ok =>
    if n =? 0 then Some (m, [HistoryAttach l []], [])
    else Some (m, [if ok then HistoryCurrent l n (rotated (m_log m)) else HistoryAttach l []], [])
  | HistoryCurrent l n rot, OFile ok =>
    let file := if ok then Ok (current (m_log m)) else Err "read current log" in
    let tail := match readTailLines (Ok rot) file n with Ok t => t | Err _ => [] end in
    Some (m, [HistoryAttach l tail], [])
  | HistoryAttach l tail, ONone =>
    match logs r !! l with
    | None => None
    | Some sub =>
      if negb (ls_follow sub) then with_registry m (history_once l tail r) [] []
      else if subMu r then None
      else with_registry m (history_attach l tail r) [] [Attached l tail]
    end
  | _, _ => None
  end.

(** [Reconnect] and [Close]; [others] are the other goroutines, which the wait
    groups count. *)
Definition transition_step (others : list thread) (m : Multiplexer) (t : thread) (o : outcome) :
  option (Multiplexer * list thread * list event) :=
  let l := m_link m in
  let unlocked := MkLink (conn l) (closed l) false in
  match t, o with
  | ReconnectStart, ONone =>
    if transitionMu l then None
    else if closed l then Some (m, [], [Returned (Some errMultiplexerClosed)])
    else with_link m (MkLink None (closed l) true) [ReconnectDial] []
  | ReconnectDial, ODial r =>
    if existsb is_pump others then None
    else match r with
         | Err e => with_link m unlocked [] [Returned (Some ("reconnect: " +:+ e)%string)]
         | Ok c => with_link m (MkLink (Some c) (closed l) false) [PumpLoad] [Returned None]
         end
  | CloseStart, ONone =>
    if transitionMu l then None
    else if closed l then Some (m, [], [Returned None])
    else with_link m (MkLink None true true) [CloseWaitPump] []
  | CloseWaitPump, ONone => if existsb is_pump others then None else Some (m, [CloseWaitBg], [])
  | CloseWaitBg, ONone => if existsb is_bg others then None else Some (m, [CloseLog], [])
  | CloseLog, ONone =>
    let g := m_log m in
    if logMu g then None
    else with_log m (MkLogState false (bytesWritten g) (rotationCh g) (logMu g) (current g) (rotated g)) [CloseSubs] []
  | CloseSubs, ONone =>
    if subMu (m_registry m) then None
    else Some (set_link unlocked (set_registry (close_subscribers (m_registry m)) m), [], [Returned None])
  | _, _ => None
  end.

Definition thread_step (others : list thread) (m : Multiplexer) (t : thread) (o : outcome) :
  option (Multiplexer * list thread * list event) :=
  match pump_step m t o with
  | Some x => Some x
  | None =>
    match rotation_step m t o with
    | Some x => Some x
    | None => match history_step m t o with Some x => Some x | None => transition_step others m t o end
    end
  end.

(** ** Clients *)

Inductive call :=
| SubscribeConsole (l : loc)
| SubscribeLogs (l : loc) (tailLines : Z) (follow : bool)
| Reconnect
| Close
| ConsoleReceive (l : loc)
| ConsoleWrite (l : loc) (data : slice) (err : option string)
| ConsoleClose (l : loc)
| LogsReceive (l : loc)
| LogsClose (l : loc).

Definition ErrConsoleInUse : string := "serialmux: console already in use".

(** The live console, if there is one. *)
Definition console_in_use (r : registry) : bool :=
  match consoleSub r ≫= (consoles r !!.) with Some sub => negb (cs_closed sub) | None => false end.

(** [SubscribeConsole], whose subscriber is allocated at [l]. *)
Definition subscribeConsole (m : Multiplexer) (l : loc) : option (Multiplexer * list event) :=
  let r := m_registry m in
  if subMu r then None
  else if console_in_use r then Some (m, [Returned (Some ErrConsoleInUse)])
  else
    match consoles r !! l with
    | Some _ => None
    | None =>
      let sub := newConsoleSubscriber defaultSubscriberCapacity in
      let history := LastNLines (m_ring m) consoleHistoryLines in
      let sub := match history with [] => sub | _ => (console_tryDeliver sub history).1 end in
      Some (set_registry (MkRegistry (Some l) (logsSubs r) (subMu r) (<[l := sub]> (consoles r)) (logs r)) m,
            [Returned None])
    end.

(** [SubscribeLogs], whose subscriber is allocated at [l]. *)
Definition subscribeLogs (m : Multiplexer) (l : loc) (tailLines : Z) (follow : bool) :
  option (Multiplexer * list thread) :=
  match logs (m_registry m) !! l with
  | Some _ => None
  | None => Some (set_registry (set_logs l (newLogsSubscriber follow defaultSubscriberCapacity) (m_registry m)) m,
                  [HistoryRotated l tailLines])
  end.

(** [ConsoleSubscriber.Write] through [writeToQEMU]; [err] is what the connection's
    write returns. *)
Definition console_Write (m : Multiplexer) (sub : ConsoleSubscriber) (err : option string) : option string :=
  if cs_closed sub then Some "serialmux: subscriber closed"%string
  else match conn (m_link m) with
       | None => Some "serialmux: connection unavailable"%string
       | Some _ => err
       end.

Definition client_step (m : Multiplexer) (c : call) : option (Multiplexer * list thread * list event) :=
  let r := m_registry m in
  match c with
  | SubscribeConsole l => '(m, evs) ← subscribeConsole m l; Some (m, [], evs)
  | SubscribeLogs l n follow => '(m, ts) ← subscribeLogs m l n follow; Some (m, ts, [])
  | Reconnect => Some (m, [ReconnectStart], [])
  | Close => Some (m, [CloseStart], [])
  | ConsoleReceive l =>
    sub ← consoles r !! l; '(_, sub) ← console_receive sub; with_registry m (set_console l sub r) [] []
  | ConsoleWrite l data err => sub ← consoles r !! l; Some (m, [], [Returned (console_Write m sub err)])
  | ConsoleClose l => sub ← consoles r !! l; with_registry m (set_console l (console_Close sub) r) [] []
  | LogsReceive l =>
    sub ← logs r !! l; '(msg, sub) ← logs_receive sub; with_registry m (set_logs l sub r) [] [Received l msg]
  | LogsClose l => sub ← logs r !! l; with_registry m (set_logs l (logs_Close sub) r) [] []
  end.

(** ** The system *)

Definition system : Type := Multiplexer * list thread.

Inductive step : system → list event → system → Prop :=
| step_thread m pre t post o m' ts evs :
    thread_step (pre ++ post) m t o = Some (m', ts, evs) →
    step (m, pre ++ t :: post) evs (m', pre ++ ts ++ post)
| step_client m pool c m' ts evs :
    client_step m c = Some (m', ts, evs) → step (m, pool) evs (m', pool ++ ts).

(** [newMuxWithThreshold], with what [MkdirAll], [dial], [OpenFile] and [Stat]
    answer; [logPath] is the joined path of the log file, and [disk] are the files
    the log directory already has. *)
Definition newMuxWithThreshold (vmName logDir logPath : string) (threshold : Z) (mkdir : option string)
    (dial : result string nat) (open stat : option string) (disk : option slice * option slice) :
  result string system :=
  if bool_decide (vmName = "") then Err "serialmux: vm name is required"
  else if bool_decide (logDir = "") then Err "serialmux: log dir is required"
  else
    match mkdir, dial, open, stat with
    | Some e, _, _, _ => Err ("mkdir log dir " +:+ logDir +:+ ": " +:+ e)%string
    | None, Err e, _, _ => Err ("dial qemu socket: " +:+ e)%string
    | None, Ok _, Some e, _ => Err ("open log file " +:+ logPath +:+ ": " +:+ e)%string
    | None, Ok _, None, Some e => Err ("stat log file " +:+ logPath +:+ ": " +:+ e)%string
    | None, Ok c, None, None =>
      let file := default [] disk.1 in
      Ok (MkMultiplexer (if threshold <=? 0 then rotationThresholdBytes else threshold)
            (MkLink (Some c) false false)
            (MkRegistry None [] false ∅ ∅)
            (NewRingBuffer ringBufferBytes) []
            (MkLogState true (Z.of_nat (length file)) false false (Some file) disk.2),
          [RotationWait; PumpLoad])
    end.

(** The states the system gets to, with what happened on the way. *)
Inductive reachable (start : system) : list event → system → Prop :=
| reachable_start : reachable start [] start
| reachable_step tr s evs s' : reachable start tr s → step s evs s' → reachable start (tr ++ evs) s'.
