(* ===== verification/SerialSubscribers.v ===== *)
(** * What a log subscriber of the serial multiplexer sees

    The part of the multiplexer that concerns log subscribers is an abstract
    machine of its own, [sub_step]: a registry, at most one fan-out in progress,
    and the subscribers that are still to be attached.  Every interleaving of the
    goroutines is a run of it ([step_refines]), and its invariant says that a
    subscriber's messages are the stream since it was attached, with every gap
    announced at its place and with its size. *)

From Stdlib Require Import Strings.Byte.
From S2P Require Import Prelude Strconv SerialText SerialTextProps SerialMux SerialMuxProps.
From stdpp Require Import gmap gmultiset.
Import Subscriber.
Local Open Scope Z_scope.

(** ** The abstract machine *)

(** A fan-out in progress: the data, the subscribers to come and those done. *)
Definition fan := (slice * list loc * list loc)%type.

Record view := MkView {
  v_logs : gmap loc LogsSubscriber;
  v_subs : list loc;
  v_mu : bool;
  v_fan : list fan;
  v_hist : gmultiset loc;
}.

Definition quiet_event (e : event) : bool :=
  match e with FanOut _ | Attached _ _ | Offered _ _ | Received _ _ => false | _ => true end.

Definition attach_sub (tail : slice) (sub : LogsSubscriber) : LogsSubscriber :=
  markReady (match tail with [] => sub | _ => (logs_tryDeliver sub tail).1 end).

Definition close_all (subs : list loc) (logs : gmap loc LogsSubscriber) : gmap loc LogsSubscriber :=
  foldl (λ ls l, match ls !! l with Some sub => <[l := logs_Close sub]> ls | None => ls end) logs subs.

Inductive sub_step : view → list event → view → Prop :=
| sub_quiet v evs : Forall (λ e, quiet_event e = true) evs → sub_step v evs v
| sub_fanout logs subs hist c :
    sub_step (MkView logs subs false [] hist) [FanOut c] (MkView logs subs true [(c, subs, [])] hist)
| sub_skip logs subs mu hist c l todo alive sub :
    logs !! l = Some sub → ls_closed sub = true →
    sub_step (MkView logs subs mu [(c, l :: todo, alive)] hist) [] (MkView logs subs mu [(c, todo, alive)] hist)
| sub_send logs subs mu hist c l todo alive :
    sub_step (MkView logs subs mu [(c, l :: todo, alive)] hist) [Offered l c]
      (MkView (alter (deliver_logs c) l logs) subs mu [(c, todo, alive ++ [l])] hist)
| sub_end logs subs mu hist c alive :
    sub_step (MkView logs subs mu [(c, [], alive)] hist) [] (MkView logs alive false [] hist)
| sub_once logs subs mu fans hist hist' l tail :
    hist = {[+ l +]} ⊎ hist' →
    sub_step (MkView logs subs mu fans hist) []
      (MkView (alter (λ sub, markReady (logs_Close (match tail with [] => sub | _ => (logs_tryDeliver sub tail).1 end))) l logs)
         subs mu fans hist')
| sub_attach logs subs fans hist hist' l tail :
    hist = {[+ l +]} ⊎ hist' →
    sub_step (MkView logs subs false fans hist) [Attached l tail]
      (MkView (alter (attach_sub tail) l logs) (subs ++ [l]) false fans hist')
| sub_close_all logs subs fans hist evs :
    Forall (λ e, quiet_event e = true) evs →
    sub_step (MkView logs subs false fans hist) evs (MkView (close_all subs logs) [] false fans hist)
| sub_new logs subs mu fans hist l follow capacity :
    logs !! l = None →
    sub_step (MkView logs subs mu fans hist) []
      (MkView (<[l := newLogsSubscriber follow capacity]> logs) subs mu fans ({[+ l +]} ⊎ hist))
| sub_receive logs subs mu fans hist l sub msg sub' :
    logs !! l = Some sub → logs_receive sub = Some (msg, sub') →
    sub_step (MkView logs subs mu fans hist) [Received l msg] (MkView (<[l := sub']> logs) subs mu fans hist)
| sub_close logs subs mu fans hist l :
    sub_step (MkView logs subs mu fans hist) [] (MkView (alter logs_Close l logs) subs mu fans hist).

(** ** The goroutines refine it *)

Definition fan_of (t : thread) : option fan :=
  match t with
  | PumpLogs c _ todo alive => Some (c, todo, alive)
  | PumpSend c _ l todo alive => Some (c, l :: todo, alive)
  | _ => None
  end.

Definition hist_of (t : thread) : option loc :=
  match t with
  | HistoryRotated l _ | HistoryCurrent l _ _ | HistoryAttach l _ => Some l
  | _ => None
  end.

Definition view_of (r : registry) (pool : list thread) : view :=
  MkView (logs r) (logsSubs r) (subMu r) (omap fan_of pool) (list_to_set_disj (omap hist_of pool)).

Lemma no_pump_fans pool : no_pump pool → omap fan_of pool = [].
Proof.
  unfold no_pump. induction pool as [|t pool IH]; [done|]. rewrite filter_cons.
  case_decide as Ht; [done|]. intros H%IH. csimpl. rewrite H. by destruct t; try (by destruct Ht).
Qed.

Lemma logs_update_alter l f r : logs (logs_update l f r) = alter f l (logs r).
Proof.
  unfold logs_update. destruct (logs r !! l) as [sub|] eqn:E; simpl.
  - apply map_eq. intros k. destruct (decide (k = l)) as [->|Hk].
    + by rewrite lookup_insert_eq, lookup_alter_eq, E.
    + by rewrite lookup_insert_ne, lookup_alter_ne.
  - symmetry. apply alter_id. congruence.
Qed.

Lemma logs_update_rest l f r :
  logsSubs (logs_update l f r) = logsSubs r ∧ subMu (logs_update l f r) = subMu r.
Proof. unfold logs_update. by case_match. Qed.

Lemma deliver_console_rest data r :
  logs (deliver_console data r) = logs r ∧ logsSubs (deliver_console data r) = logsSubs r.
Proof. unfold deliver_console. by repeat case_match. Qed.

(** The goroutines a step replaces and those it leaves alone. *)
Lemma view_of_split r pre mid post :
  view_of r (pre ++ mid ++ post) =
    MkView (logs r) (logsSubs r) (subMu r) (omap fan_of pre ++ omap fan_of mid ++ omap fan_of post)
      (list_to_set_disj (omap hist_of mid) ⊎ list_to_set_disj (omap hist_of (pre ++ post))).
Proof.
  unfold view_of. rewrite !omap_app, !list_to_set_disj_app. f_equal. multiset_solver.
Qed.

Lemma thread_step_refines others m t o m' ts evs fans hist :
  thread_step others m t o = Some (m', ts, evs) →
  (is_pump t = true → fans = []) →
  sub_step
    (MkView (logs (m_registry m)) (logsSubs (m_registry m)) (subMu (m_registry m)) (omap fan_of [t] ++ fans)
       (list_to_set_disj (omap hist_of [t]) ⊎ hist)) evs
    (MkView (logs (m_registry m')) (logsSubs (m_registry m')) (subMu (m_registry m')) (omap fan_of ts ++ fans)
       (list_to_set_disj (omap hist_of ts) ⊎ hist)).
Proof.
  intros H Hf. destruct t.
  2: { apply thread_step_read in H as (ch & e & H). rewrite Hf by done.
       apply pump_read_cases in H as [(p & -> & -> & [(_ & _ & ->)|[-> _]])|(p & cl & -> & -> & -> & _)]; simpl.
       1, 2: destruct e; simpl; by repeat constructor.
       by repeat constructor. }
  all: destruct o; step_cases H; try (simpl; constructor; by repeat constructor).
  - rewrite Hf by done. simpl. destruct (deliver_console_rest clean (m_registry m)) as [-> ->].
    constructor.
  - rewrite Hf by done. simpl. constructor.
  - rewrite Hf by done. simpl. constructor.
  - rewrite Hf by done. simpl. by econstructor.
  - rewrite Hf by done. simpl. destruct (logs_update_rest sub (deliver_logs clean) (m_registry m)) as [-> ->].
    rewrite logs_update_alter. constructor.
  - simpl. unfold history_once. rewrite logs_update_alter.
    destruct (logs_update_rest sub (λ s, markReady (logs_Close (match tail with [] => s | _ => (logs_tryDeliver s tail).1 end))) (m_registry m)) as [-> ->].
    apply sub_once. multiset_solver.
  - simpl. rewrite logs_update_alter, (proj1 (logs_update_rest _ _ _)), (proj2 (logs_update_rest _ _ _)).
    match goal with H : subMu _ = false |- _ => rewrite H end. apply (sub_attach _ _ _ _ _ sub []). multiset_solver.
  - simpl. rewrite logs_update_alter, (proj1 (logs_update_rest _ _ _)), (proj2 (logs_update_rest _ _ _)).
    match goal with H : subMu _ = false |- _ => rewrite H end. apply (sub_attach _ _ _ _ _ sub (_ :: _)). multiset_solver.
  - simpl. match goal with H : subMu _ = false |- _ => rewrite H end. by apply sub_close_all, Forall_singleton.
Qed.

Lemma logs_set_alter l f r sub :
  logs r !! l = Some sub → <[l := f sub]> (logs r) = alter f l (logs r).
Proof.
  intros E. rewrite <-logs_update_alter. unfold logs_update. by rewrite E.
Qed.

Lemma client_step_refines m c m' ts evs fans hist :
  client_step m c = Some (m', ts, evs) →
  sub_step
    (MkView (logs (m_registry m)) (logsSubs (m_registry m)) (subMu (m_registry m)) fans hist) evs
    (MkView (logs (m_registry m')) (logsSubs (m_registry m')) (subMu (m_registry m')) (fans ++ omap fan_of ts)
       (list_to_set_disj (omap hist_of ts) ⊎ hist)).
Proof.
  intros H. assert (∅ ⊎ hist = hist) as Eh by multiset_solver.
  destruct c; step_cases H; simpl; rewrite ?app_nil_r, ?Eh;
    repeat match goal with H : subMu _ = false |- _ => rewrite H end; try (constructor; by repeat constructor).
  - replace ({[+ l +]} ⊎ ∅ ⊎ hist) with ({[+ l +]} ⊎ hist) by multiset_solver. by constructor.
  - by econstructor.
  - erewrite logs_set_alter by done. constructor.
Qed.

Lemma thread_step_fans others m t o m' ts evs :
  thread_step others m t o = Some (m', ts, evs) → is_pump t = false → omap fan_of [t] = [] ∧ omap fan_of ts = [].
Proof. intros H Ht. destruct t; try done; destruct o; step_cases H; done. Qed.

(** Every step of the goroutines and the clients is a step of the abstract
    machine. *)
Lemma step_refines s evs s' :
  one_pump s.2 → step s evs s' →
  sub_step (view_of (m_registry s.1) s.2) evs (view_of (m_registry s'.1) s'.2).
Proof.
  intros Hone Hstep. destruct Hstep as [m pre t post o m' ts evs H|m pool c m' ts evs H]; cbn [fst snd] in *.
  - change (t :: post) with ([t] ++ post) in *. rewrite !view_of_split.
    set (hist := list_to_set_disj (omap hist_of (pre ++ post))). destruct (is_pump t) eqn:Et.
    + apply one_pump_alone in Hone; [|done]. apply no_pump_fans in Hone. rewrite omap_app in Hone.
      apply app_nil in Hone as [-> ->]. by apply (thread_step_refines (pre ++ post) _ _ o).
    + pose proof (thread_step_fans _ _ _ _ _ _ _ H Et) as [Ht Hts].
      apply (thread_step_refines _ _ _ _ _ _ _ (omap fan_of pre ++ omap fan_of post) hist) in H; [|congruence].
      by rewrite Ht, Hts in *.
  - unfold view_of. rewrite !omap_app, list_to_set_disj_app.
    replace (list_to_set_disj (omap hist_of pool) ⊎ list_to_set_disj (omap hist_of ts))
      with (list_to_set_disj (omap hist_of ts) ⊎ list_to_set_disj (omap hist_of pool) : gmultiset loc) by multiset_solver.
    by eapply client_step_refines.
Qed.

(** ** Its invariant *)

(** The registry, the fan-out and the subscribers to be attached fit together. *)
Record view_wf (v : view) : Prop := {
  wf_unlocked : v_mu v = false → v_fan v = [];
  wf_fan : v_fan v = [] ∨
    ∃ c todo alive, v_fan v = [(c, todo, alive)] ∧ NoDup (alive ++ todo) ∧ alive ++ todo ⊆ v_subs v;
  wf_subs : NoDup (v_subs v);
  wf_allocated l : l ∈ v_subs v ∨ l ∈ v_hist v → is_Some (v_logs v !! l);
  wf_hist l : (multiplicity l (v_hist v) ≤ 1)%nat;
  wf_apart l : l ∈ v_subs v → l ∉ v_hist v;
}.

Lemma close_all_Some subs logs l : is_Some (close_all subs logs !! l) ↔ is_Some (logs !! l).
Proof.
  revert logs. induction subs as [|k subs IH]; intros logs; [done|]. simpl. rewrite IH.
  destruct (logs !! k) eqn:Ek; [|done]. destruct (decide (l = k)) as [->|Hne].
  - rewrite lookup_insert_eq, Ek. split; by eexists.
  - by rewrite lookup_insert_ne.
Qed.

Lemma view_wf_alter v f l subs mu fans hist :
  view_wf (MkView v subs mu fans hist) → view_wf (MkView (alter f l v) subs mu fans hist).
Proof.
  intros [H1 H2 H3 H4 H5 H6]; split; simpl in *; try done.
  intros k Hk. rewrite lookup_alter_is_Some. by apply H4.
Qed.

Lemma multiplicity_cons (l k : loc) (hist : gmultiset loc) :
  multiplicity k ({[+ l +]} ⊎ hist) = ((if decide (k = l) then 1 else 0) + multiplicity k hist)%nat.
Proof. by rewrite multiplicity_disj_union, multiplicity_singleton. Qed.

(** Fan-outs. *)
Lemma view_wf_pop logs subs mu hist c l todo alive :
  view_wf (MkView logs subs mu [(c, l :: todo, alive)] hist) →
  view_wf (MkView logs subs mu [(c, todo, alive)] hist) ∧ view_wf (MkView logs subs mu [(c, todo, alive ++ [l])] hist).
Proof.
  intros [H1 [?|(c' & t' & a' & [= <- <- <-] & Hn & Hsub)] H3 H4 H5 H6]; [done|]; simpl in *.
  split; split; simpl; try done; try (by intros ?%H1); right; eexists _, _, _; (split; [done|]).
  - split; [rewrite <-Permutation_middle in Hn; by inversion Hn|]. etrans; [|done]. set_solver.
  - by rewrite <-(assoc_L (++)).
Qed.

Lemma view_wf_end logs subs mu hist c alive :
  view_wf (MkView logs subs mu [(c, [], alive)] hist) → view_wf (MkView logs alive false [] hist).
Proof.
  intros [H1 [?|(c' & t' & a' & [= <- <- <-] & Hn & Hsub)] H3 H4 H5 H6]; [done|]; simpl in *.
  rewrite app_nil_r in *. split; simpl; try done; [by left|..]; intros l Hl; [apply H4|apply H6]; set_solver.
Qed.

(** Attaching. *)
Lemma view_wf_attach logs subs mu fans hist l :
  view_wf (MkView logs subs mu fans ({[+ l +]} ⊎ hist)) →
  view_wf (MkView logs subs mu fans hist) ∧ (mu = false → view_wf (MkView logs (subs ++ [l]) mu fans hist)).
Proof.
  intros [H1 H2 H3 H4 H5 H6]; simpl in *.
  assert (∀ k, multiplicity k hist ≤ 1)%nat as H5'.
  { intros k. specialize (H5 k). rewrite multiplicity_cons in H5. lia. }
  assert (l ∉ hist) as Hl.
  { apply not_elem_of_multiplicity. specialize (H5 l). rewrite multiplicity_cons in H5.
    destruct (decide (l = l)); [|done]. lia. }
  split; [|intros ->]; split; simpl; try done.
  - intros k Hk. apply H4. multiset_solver.
  - intros k Hk. specialize (H6 k Hk). multiset_solver.
  - left. by apply H1.
  - rewrite <-Permutation_cons_append. constructor; [|done]. intros Hk. apply (H6 l Hk). multiset_solver.
  - intros k Hk. apply H4. rewrite elem_of_app, list_elem_of_singleton in Hk. multiset_solver.
  - intros k [Hk| ->%list_elem_of_singleton]%elem_of_app; [specialize (H6 k Hk); multiset_solver|done].
Qed.

Lemma view_wf_insert logs subs mu fans hist l sub sub' :
  logs !! l = Some sub →
  view_wf (MkView logs subs mu fans hist) → view_wf (MkView (<[l := sub']> logs) subs mu fans hist).
Proof.
  intros Hl [H1 H2 H3 H4 H5 H6]; split; simpl in *; try done.
  intros k Hk. apply lookup_insert_is_Some. destruct (decide (l = k)); [by left|right; auto].
Qed.

Lemma view_wf_new logs subs mu fans hist l sub :
  logs !! l = None →
  view_wf (MkView logs subs mu fans hist) → view_wf (MkView (<[l := sub]> logs) subs mu fans ({[+ l +]} ⊎ hist)).
Proof.
  intros Hl [H1 H2 H3 H4 H5 H6]; split; simpl in *; try done.
  - intros k Hk. apply lookup_insert_is_Some. destruct (decide (l = k)); [by left|right; split; [done|]].
    apply H4. multiset_solver.
  - intros k. rewrite multiplicity_cons. case_decide as E; [subst k|apply H5].
    assert (l ∉ hist) as Hn by (intros Hh; destruct (H4 l (or_intror Hh)); congruence).
    apply not_elem_of_multiplicity in Hn. lia.
  - intros k Hk. assert (k ≠ l) by (intros ->; destruct (H4 l (or_introl Hk)); congruence).
    specialize (H6 k Hk). multiset_solver.
Qed.

Lemma view_wf_step v evs v' : view_wf v → sub_step v evs v' → view_wf v'.
Proof.
  intros Hwf Hstep. destruct Hstep; subst; [done| | | | | | | | | |by apply view_wf_alter].
  - destruct Hwf as [H1 H2 H3 H4 H5 H6]; split; simpl in *; try done. right. by exists c, subs, [].
  - by eapply view_wf_pop.
  - by eapply view_wf_alter, view_wf_pop.
  - by eapply view_wf_end.
  - by eapply view_wf_alter, view_wf_attach.
  - by eapply view_wf_alter, view_wf_attach.
  - destruct Hwf as [H1 H2 H3 H4 H5 H6]; split; simpl in *; try done.
    + left. by apply H1.
    + constructor.
    + intros k Hk. apply close_all_Some, H4. set_solver.
    + set_solver.
  - by apply view_wf_new.
  - by eapply view_wf_insert.
Qed.

(** ** What a subscriber was sent *)

(** The bytes of dropped payloads, as the counter counts them. *)
Definition drop_total (dropped : list slice) : Z := Z.of_nat (length (concat dropped)) mod 2 ^ 64.

(** A message: the payload, after the announcement of what was dropped before. *)
Definition announced (g : list slice * slice) : slice :=
  if 0 <? drop_total g.1 then drop_marker (drop_total g.1) ++ g.2 else g.2.

Definition history_message (tail : slice) : list slice := match tail with [] => [] | _ => [tail] end.

(** [offers] are accounted for by [messages] and the counter: they fall into
    groups of dropped payloads and one that was sent with their announcement, and
    the dropped payloads that are still to be announced. *)
Definition accounts (tail : slice) (offers messages : list slice) (dropped : Z) : Prop :=
  ∃ groups rest,
    offers = concat (map (λ g, g.1 ++ [g.2]) groups) ++ rest ∧
    messages = history_message tail ++ map announced groups ∧ dropped = drop_total rest.

Lemma drop_total_snoc ds d : drop_total (ds ++ [d]) = (drop_total ds + Z.of_nat (length d)) mod 2 ^ 64.
Proof.
  unfold drop_total. rewrite concat_app, length_app, Nat2Z.inj_add. simpl. rewrite app_nil_r.
  by rewrite Z.add_mod_idemp_l.
Qed.

Lemma deliver_accounts tail offers before c sub :
  ls_closed sub = false → accounts tail offers (before ++ ls_ch sub) (ls_dropped sub) →
  accounts tail (offers ++ [c]) (before ++ ls_ch (deliver_logs c sub)) (ls_dropped (deliver_logs c sub)).
Proof.
  intros Ho (groups & rest & -> & Hm & Hd). unfold deliver_logs, SwapDropped, logs_tryDeliver. simpl. rewrite Ho.
  destruct (Z.of_nat (length (ls_ch sub)) <? ls_capacity sub); simpl.
  - exists (groups ++ [(rest, c)]), []. rewrite map_app, concat_app. simpl. split_and!.
    + by rewrite !app_nil_r, <-(assoc_L (++)).
    + rewrite (assoc_L (++)), Hm, map_app, (assoc_L (++)). simpl. unfold announced. simpl. by rewrite <-Hd.
    + done.
  - exists groups, (rest ++ [c]). split_and!; [by rewrite (assoc_L (++))|done|].
    rewrite drop_total_snoc, <-Hd. by rewrite Z.add_0_l, Z.mod_mod.
Qed.

Lemma deliver_logs_closed c sub : ls_closed (deliver_logs c sub) = ls_closed sub.
Proof. unfold deliver_logs, SwapDropped, logs_tryDeliver. simpl. repeat case_match; simplify_eq; done. Qed.

Lemma attach_sub_closed tail sub : ls_closed (attach_sub tail sub) = ls_closed sub.
Proof.
  unfold attach_sub, logs_tryDeliver. destruct tail; simpl; [done|]. destruct (ls_closed sub) eqn:E; simpl; [done|].
  by destruct (_ <? _).
Qed.

(** ** The trace *)

Lemma since_app l tr evs :
  since l (tr ++ evs) =
    match since l tr with
    | Some (tail, fanned) => Some (tail, fanned ++ omap (λ e, match e with FanOut c => Some c | _ => None end) evs)
    | None => since l evs
    end.
Proof.
  induction tr as [|e tr IH]; [done|]. simpl. destruct e; try apply IH. case_decide; [|apply IH].
  by rewrite omap_app.
Qed.

Lemma offered_one l c : offered l [Offered l c] = [c].
Proof. unfold offered. simpl. by rewrite decide_True. Qed.

Lemma quiet_trace l evs :
  Forall (λ e, quiet_event e = true) evs →
  offered l evs = [] ∧ received l evs = [] ∧ since l evs = None ∧
  omap (λ e, match e with FanOut c => Some c | _ => None end) evs = [].
Proof.
  induction 1 as [|e evs He _ (IH1 & IH2 & IH3 & IH4)]; [done|].
  destruct e; try done; simpl in *; unfold offered, received in *; csimpl; by rewrite ?IH1, ?IH2, ?IH3, ?IH4.
Qed.

Lemma since_quiet l tr evs :
  since l evs = None → omap (λ e, match e with FanOut c => Some c | _ => None end) evs = [] →
  since l (tr ++ evs) = since l tr.
Proof.
  intros H1 H2. rewrite since_app. destruct (since l tr) as [[tail fanned]|]; [|done].
  by rewrite H2, app_nil_r.
Qed.

(** ** The subscriber's invariant *)

Definition pending_for (l : loc) (fans : list fan) : list slice :=
  omap (λ f : fan, let '(c, todo, _) := f in if decide (l ∈ todo) then Some c else None) fans.

Definition fan_has (l : loc) (fans : list fan) : Prop :=
  ∀ c todo alive, (c, todo, alive) ∈ fans → l ∈ alive ++ todo.

(** A subscriber that is still to be attached has got nothing. *)
Definition fresh_sub (sub : LogsSubscriber) : Prop :=
  ls_ch sub = [] ∧ ls_dropped sub = 0 ∧ 0 < ls_capacity sub.

(** One that is attached and open is registered, and all that was fanned out
    since is accounted for or still on its way in this fan-out. *)
Record live_sub (l : loc) (tr : list event) (v : view) (tail : slice) (fanned : list slice) (sub : LogsSubscriber) :
  Prop := {
  live_registered : l ∈ v_subs v;
  live_fan : fan_has l (v_fan v);
  live_offered : fanned = offered l tr ++ pending_for l (v_fan v);
  live_accounts : accounts tail (offered l tr) (received l tr ++ ls_ch sub) (ls_dropped sub);
}.

Definition sub_inv (l : loc) (tr : list event) (v : view) : Prop :=
  match since l tr with
  | None =>
    (l ∉ v_subs v) ∧ offered l tr = [] ∧ (v_logs v !! l = None → received l tr = []) ∧
    ∀ sub, v_logs v !! l = Some sub → ls_closed sub = false → received l tr = [] ∧ fresh_sub sub
  | Some (tail, fanned) =>
    (l ∉ v_hist v) ∧ is_Some (v_logs v !! l) ∧
    ∀ sub, v_logs v !! l = Some sub → ls_closed sub = false → live_sub l tr v tail fanned sub
  end.

(** Steps that are not about [l]. *)
Lemma sub_inv_frame l tr evs v v' :
  sub_inv l tr v → since l (tr ++ evs) = since l tr → offered l evs = [] → received l evs = [] →
  (l ∈ v_subs v' → l ∈ v_subs v) → (l ∈ v_hist v' → l ∈ v_hist v) →
  (is_Some (v_logs v' !! l) ↔ is_Some (v_logs v !! l)) →
  (∀ sub, v_logs v' !! l = Some sub → ls_closed sub = false →
     v_logs v !! l = Some sub ∧
     (l ∈ v_subs v → fan_has l (v_fan v) →
      l ∈ v_subs v' ∧ fan_has l (v_fan v') ∧ pending_for l (v_fan v') = pending_for l (v_fan v))) →
  sub_inv l (tr ++ evs) v'.
Proof.
  unfold sub_inv. intros Hinv -> Ho Hr Hsubs Hhist Hsome Hopen. rewrite offered_app, received_app, Ho, Hr, !app_nil_r.
  destruct (since l tr) as [[tail fanned]|].
  - destruct Hinv as (H1 & H2 & H3). split_and!; [tauto|tauto|]. intros sub Hl Hc.
    destruct (Hopen sub Hl Hc) as [Hl' Hrest]. destruct (H3 sub Hl' Hc) as [L1 L2 L3 L4].
    destruct Hrest as (R1 & R2 & R3); [done..|]. split; try done; rewrite ?offered_app, ?received_app, ?Ho, ?Hr, ?app_nil_r; [|done].
    by rewrite R3.
  - destruct Hinv as (H1 & H2 & H3 & H4). split_and!; [tauto|done| |].
    + intros Hn. apply H3. apply eq_None_not_Some. rewrite <-Hsome. by rewrite Hn; intros [? ?].
    + intros sub Hl Hc. destruct (Hopen sub Hl Hc) as [Hl' _]. by apply H4.
Qed.

Lemma close_all_open subs logs l sub :
  close_all subs logs !! l = Some sub → ls_closed sub = false → (l ∉ subs) ∧ logs !! l = Some sub.
Proof.
  revert logs. induction subs as [|k subs IH]; intros logs Hl Ho; [split; [set_solver|done]|]. simpl in Hl.
  destruct (IH _ Hl Ho) as [Hn Hk]. destruct (logs !! k) as [s|] eqn:Ek.
  - apply lookup_insert_Some in Hk as [[-> <-]|[Hne Hk]]; [done|]. split; [set_solver|done].
  - split; [|done]. intros [->|?]%elem_of_cons; [congruence|done].
Qed.

Lemma fan_has_nil l : fan_has l [].
Proof. intros c todo alive. set_solver. Qed.

Lemma fan_has_one l c todo alive : fan_has l [(c, todo, alive)] ↔ l ∈ alive ++ todo.
Proof.
  split; [intros H; by apply (H c todo alive), list_elem_of_singleton|].
  intros H c' t' a' [= -> -> ->]%list_elem_of_singleton. done.
Qed.

(** A fan-out starts: every attached subscriber is on its list. *)
Lemma sub_inv_fanout l tr logs subs hist c :
  sub_inv l tr (MkView logs subs false [] hist) →
  sub_inv l (tr ++ [FanOut c]) (MkView logs subs true [(c, subs, [])] hist).
Proof.
  unfold sub_inv. rewrite since_app, offered_app, received_app. simpl. rewrite !app_nil_r.
  destruct (since l tr) as [[tail fanned]|]; [|done]. intros (H1 & H2 & H3). split_and!; [done..|].
  intros sub Hl Hc. destruct (H3 sub Hl Hc) as [L1 L2 L3 L4]. simpl in *.
  split; rewrite ?offered_app, ?received_app; simpl; rewrite ?app_nil_r in *; try done.
  - by apply fan_has_one.
  - unfold pending_for. simpl. rewrite decide_True by done. by rewrite L3.
Qed.

(** The fan-out gets to the subscriber. *)
Lemma sub_inv_send l tr logs subs mu hist c todo alive :
  NoDup (alive ++ l :: todo) →
  sub_inv l tr (MkView logs subs mu [(c, l :: todo, alive)] hist) → l ∈ subs →
  sub_inv l (tr ++ [Offered l c]) (MkView (alter (deliver_logs c) l logs) subs mu [(c, todo, alive ++ [l])] hist).
Proof.
  intros Hn Hinv Hsub. assert (l ∉ todo) as Hl.
  { rewrite <-Permutation_middle in Hn. inversion Hn; set_solver. }
  revert Hinv. unfold sub_inv. rewrite since_app. destruct (since l tr) as [[tail fanned]|]; simpl; [|intros [Hno _]; by destruct Hno].
  rewrite app_nil_r. intros (H1 & H2 & H3). split_and!; [done|by apply lookup_alter_is_Some|].
  intros sub'. rewrite lookup_alter_eq. intros (sub & Hs & ->)%fmap_Some Hc. rewrite deliver_logs_closed in Hc.
  destruct (H3 sub Hs Hc) as [L1 L2 L3 L4]. simpl in *. unfold pending_for in L3. simpl in L3.
  rewrite decide_True in L3 by set_solver.
  split; rewrite ?offered_app, ?received_app, ?offered_one; try done.
  - apply fan_has_one. set_solver.
  - unfold pending_for. simpl. rewrite decide_False by done. by rewrite app_nil_r.
  - simpl (received l [_]). rewrite app_nil_r. by apply deliver_accounts.
Qed.

(** The subscriber is attached. *)
Lemma sub_inv_attach l tr logs subs hist tail :
  l ∉ hist → is_Some (logs !! l) → since l tr = None →
  sub_inv l tr (MkView logs subs false [] ({[+ l +]} ⊎ hist)) →
  sub_inv l (tr ++ [Attached l tail]) (MkView (alter (attach_sub tail) l logs) (subs ++ [l]) false [] hist).
Proof.
  unfold sub_inv. intros Hh Hlog Hs. rewrite since_app, Hs. simpl. rewrite decide_True by done.
  intros (H1 & H2 & H3 & H4). split_and!; [done|by apply lookup_alter_is_Some|].
  intros sub'. rewrite lookup_alter_eq. intros (sub & Hl & ->)%fmap_Some Hc.
  assert (ls_closed sub = false) as Hc' by by rewrite <-(attach_sub_closed tail).
  destruct (H4 sub Hl Hc') as (Hr & Hch & Hd & Hcap).
  split; rewrite ?offered_app, ?received_app, ?H2, ?Hr; simpl.
  - set_solver.
  - apply fan_has_nil.
  - done.
  - exists [], []. unfold attach_sub, history_message. destruct tail as [|b tail]; simpl; rewrite ?Hch, ?Hd; [done|].
    unfold logs_tryDeliver. rewrite Hc', Hch. simpl. destruct (Z.ltb_spec (Z.of_nat 0) (ls_capacity sub)); [|lia]. simpl. by rewrite Hd.
Qed.

(** Steps of the abstract machine keep a subscriber's invariant: those on the
    subscriber itself, and those on others. *)
Lemma sub_inv_receive l tr logs subs mu fans hist sub msg sub' :
  logs !! l = Some sub → logs_receive sub = Some (msg, sub') →
  sub_inv l tr (MkView logs subs mu fans hist) →
  sub_inv l (tr ++ [Received l msg]) (MkView (<[l := sub']> logs) subs mu fans hist).
Proof.
  unfold logs_receive. intros Hl Hr. destruct (ls_ch sub) as [|m ch] eqn:Ech; [done|]. simplify_eq.
  assert (received l [Received l msg] = [msg]) as Er by (unfold received; simpl; by rewrite decide_True).
  unfold sub_inv. rewrite since_app, offered_app, received_app, Er. simpl. rewrite lookup_insert_eq, !app_nil_r.
  destruct (since l tr) as [[tail fanned]|].
  - rewrite app_nil_r. intros (H1 & H2 & H3). split_and!; [done..|]. intros s [= <-] Hc. destruct (H3 sub Hl Hc) as [L1 L2 L3 L4].
    split; rewrite ?offered_app, ?received_app, ?Er, ?app_nil_r; simpl; try done. rewrite Ech in L4.
    by rewrite <-(assoc_L (++)).
  - intros (H1 & H2 & H3 & H4). split_and!; try done. intros s [= <-] Hc. destruct (H4 sub Hl Hc) as (_ & Hch & _).
    congruence.
Qed.

Lemma sub_inv_new l tr logs subs mu fans hist follow capacity :
  logs !! l = None →
  sub_inv l tr (MkView logs subs mu fans hist) →
  sub_inv l (tr ++ []) (MkView (<[l := newLogsSubscriber follow capacity]> logs) subs mu fans ({[+ l +]} ⊎ hist)).
Proof.
  unfold sub_inv. rewrite app_nil_r. intros Hl. simpl. rewrite lookup_insert_eq.
  destruct (since l tr) as [[tail fanned]|]; [by intros (_ & [? ?] & _); congruence|].
  intros (H1 & H2 & H3 & _). split_and!; try done. intros s [= <-] _. split; [by apply H3|].
  unfold fresh_sub, newLogsSubscriber. simpl. split_and!; try done. destruct (Z.leb_spec capacity 0); lia.
Qed.

(** A step on another subscriber, or on none. *)
Lemma sub_inv_same l tr evs v v' :
  sub_inv l tr v → since l (tr ++ evs) = since l tr → offered l evs = [] → received l evs = [] →
  (l ∈ v_subs v' ↔ l ∈ v_subs v) → (l ∈ v_hist v' → l ∈ v_hist v) →
  v_logs v' !! l = v_logs v !! l →
  (fan_has l (v_fan v) → fan_has l (v_fan v')) → pending_for l (v_fan v') = pending_for l (v_fan v) →
  sub_inv l (tr ++ evs) v'.
Proof.
  intros Hinv Hs Ho Hr Hsubs Hhist Hl Hf Hp. apply (sub_inv_frame l tr evs v v'); try done; [tauto|by rewrite Hl|].
  intros sub. rewrite Hl. intros. split; [done|]. intros. split_and!; [tauto|auto|done].
Qed.

(** A step that closes the subscriber, or finds it closed. *)
Lemma sub_inv_closing l tr v v' :
  sub_inv l tr v → (l ∈ v_subs v' → l ∈ v_subs v) → (l ∈ v_hist v' → l ∈ v_hist v) →
  (is_Some (v_logs v' !! l) ↔ is_Some (v_logs v !! l)) →
  (∀ sub, v_logs v' !! l = Some sub → ls_closed sub = true) →
  sub_inv l (tr ++ []) v'.
Proof.
  intros Hinv Hsubs Hhist Hl Hc. apply (sub_inv_frame l tr [] v v'); try done; [by rewrite app_nil_r|].
  intros sub Hs%Hc. congruence.
Qed.

(** The three steps of a fan-out. *)
Lemma sub_inv_skip l tr logs subs mu hist c k todo alive sub :
  logs !! k = Some sub → ls_closed sub = true →
  sub_inv l tr (MkView logs subs mu [(c, k :: todo, alive)] hist) →
  sub_inv l (tr ++ []) (MkView logs subs mu [(c, todo, alive)] hist).
Proof.
  intros Hk Hc Hinv. destruct (decide (k = l)) as [->|Hne].
  - apply (sub_inv_closing l tr _ _ Hinv); cbn [v_logs v_subs v_mu v_fan v_hist]; [done..|]. congruence.
  - apply (sub_inv_same l tr _ _ _ Hinv); cbn [v_logs v_subs v_mu v_fan v_hist]; [by rewrite app_nil_r|done..| |].
    + rewrite !fan_has_one. set_solver.
    + unfold pending_for. simpl. rewrite (decide_ext (l ∈ todo) (l ∈ k :: todo)); [done|set_solver].
Qed.

Lemma sub_inv_offer l tr logs subs mu hist c k todo alive :
  view_wf (MkView logs subs mu [(c, k :: todo, alive)] hist) →
  sub_inv l tr (MkView logs subs mu [(c, k :: todo, alive)] hist) →
  sub_inv l (tr ++ [Offered k c]) (MkView (alter (deliver_logs c) k logs) subs mu [(c, todo, alive ++ [k])] hist).
Proof.
  intros [_ [?|(c' & t' & a' & [= <- <- <-] & Hn & Hsub)] _ _ _ _] Hinv; [done|].
  destruct (decide (k = l)) as [->|Hne]; [apply sub_inv_send; [done|done|set_solver]|].
  apply (sub_inv_same l tr _ _ _ Hinv); cbn [v_logs v_subs v_mu v_fan v_hist];
    [by apply since_quiet| |done|done|done|by rewrite lookup_alter_ne| |].
  - unfold offered. simpl. by rewrite decide_False.
  - rewrite !fan_has_one. set_solver.
  - unfold pending_for. simpl. rewrite (decide_ext (l ∈ todo) (l ∈ k :: todo)); [done|set_solver].
Qed.

Lemma sub_inv_end l tr logs subs mu hist c alive :
  view_wf (MkView logs subs mu [(c, [], alive)] hist) →
  sub_inv l tr (MkView logs subs mu [(c, [], alive)] hist) → sub_inv l (tr ++ []) (MkView logs alive false [] hist).
Proof.
  intros [_ [?|(c' & t' & a' & [= <- <- <-] & Hn & Hsub)] _ _ _ _] Hinv; [done|].
  apply (sub_inv_frame l tr [] _ _ Hinv); simpl; try done; [by rewrite app_nil_r|set_solver|].
  intros sub Hl Hc. split; [done|]. rewrite fan_has_one, app_nil_r. intros _ Hf.
  split_and!; [done|apply fan_has_nil|done].
Qed.

(** Attaching this subscriber, or another one. *)
Lemma sub_inv_attach_any l tr logs subs fans hist k tail :
  view_wf (MkView logs subs false fans ({[+ k +]} ⊎ hist)) →
  sub_inv l tr (MkView logs subs false fans ({[+ k +]} ⊎ hist)) →
  sub_inv l (tr ++ [Attached k tail]) (MkView (alter (attach_sub tail) k logs) (subs ++ [k]) false fans hist).
Proof.
  intros Hwf Hinv. pose proof (wf_unlocked _ Hwf eq_refl) as Hf. simpl in Hf. subst fans.
  destruct (decide (k = l)) as [->|Hne].
  - assert (l ∉ hist) as Hh.
    { apply not_elem_of_multiplicity. pose proof (wf_hist _ Hwf l) as Hm. simpl in Hm. rewrite multiplicity_cons in Hm.
      destruct (decide (l = l)); [|done]. lia. }
    apply sub_inv_attach; [done| | |done].
    + apply (wf_allocated _ Hwf l). right. simpl. multiset_solver.
    + unfold sub_inv in Hinv. destruct (since l tr) as [[t f]|]; [|done]. destruct Hinv as [Hx _]. simpl in Hx. multiset_solver.
  - apply (sub_inv_same l tr _ _ _ Hinv); cbn [v_logs v_subs v_mu v_fan v_hist];
      [|done|done|set_solver|multiset_solver|by rewrite lookup_alter_ne|done|done].
    apply since_quiet; [|done]. simpl. by rewrite decide_False.
Qed.

(** Changing a subscriber into a closed one. *)
Lemma sub_inv_alter_closed l tr logs subs mu fans hist hist' k f :
  (∀ sub, ls_closed (f sub) = true) → (l ∈ hist' → l ∈ hist) →
  sub_inv l tr (MkView logs subs mu fans hist) → sub_inv l (tr ++ []) (MkView (alter f k logs) subs mu fans hist').
Proof.
  intros Hf Hh Hinv. destruct (decide (k = l)) as [->|Hne].
  - apply (sub_inv_closing l tr _ _ Hinv); cbn [v_logs v_subs v_mu v_fan v_hist]; [done|done|by rewrite lookup_alter_is_Some|].
    intros s. rewrite lookup_alter_eq. intros (s' & _ & ->)%fmap_Some. apply Hf.
  - apply (sub_inv_same l tr _ _ _ Hinv); cbn [v_logs v_subs v_mu v_fan v_hist];
      [by rewrite app_nil_r|done|done|done|done|by rewrite lookup_alter_ne|done|done].
Qed.

Lemma sub_inv_step l tr v evs v' :
  view_wf v → sub_inv l tr v → sub_step v evs v' → sub_inv l (tr ++ evs) v'.
Proof.
  intros Hwf Hinv Hstep. destruct Hstep as
    [v evs Hq|logs subs hist c|logs subs mu hist c k todo alive sub Hk Hc|logs subs mu hist c k todo alive
    |logs subs mu hist c alive|logs subs mu fans hist hist' k tail ->|logs subs fans hist hist' k tail ->
    |logs subs fans hist evs Hq|logs subs mu fans hist k follow capacity Hk|logs subs mu fans hist k sub msg sub' Hk Hr
    |logs subs mu fans hist k].
  - destruct (quiet_trace l evs Hq) as (Q1 & Q2 & Q3 & Q4).
    apply (sub_inv_same l tr evs v v); try done. by apply since_quiet.
  - by apply sub_inv_fanout.
  - by eapply sub_inv_skip.
  - by apply sub_inv_offer.
  - by eapply sub_inv_end.
  - eapply sub_inv_alter_closed; [done| |done]. multiset_solver.
  - by apply sub_inv_attach_any.
  - destruct (quiet_trace l evs Hq) as (Q1 & Q2 & Q3 & Q4).
    apply (sub_inv_frame l tr evs _ _ Hinv); simpl; try done; [by apply since_quiet|set_solver|apply close_all_Some|].
    intros sub Hl Ho. destruct (close_all_open _ _ _ _ Hl Ho) as [Hn Hl']. split; [done|]. by intros ?%Hn.
  - destruct (decide (k = l)) as [->|Hne]; [by apply sub_inv_new|].
    apply (sub_inv_same l tr _ _ _ Hinv); cbn [v_logs v_subs v_mu v_fan v_hist];
      [by rewrite app_nil_r|done|done|done|multiset_solver|by rewrite lookup_insert_ne|done|done].
  - destruct (decide (k = l)) as [->|Hne]; [by eapply sub_inv_receive|].
    apply (sub_inv_same l tr _ _ _ Hinv); cbn [v_logs v_subs v_mu v_fan v_hist];
      [by apply since_quiet|done| |done|done|by rewrite lookup_insert_ne|done|done].
    unfold received. simpl. by rewrite decide_False.
  - by eapply sub_inv_alter_closed.
Qed.

Lemma reachable_sub_inv disk start tr s l :
  started disk start → reachable start tr s →
  view_wf (view_of (m_registry s.1) s.2) ∧ sub_inv l tr (view_of (m_registry s.1) s.2).
Proof.
  intros Hs. induction 1 as [|tr s evs s' Hr [IHw IHi] Hstep].
  - rewrite (started_registry _ _ Hs), (started_pool _ _ Hs). split.
    + split; simpl; try done; [by left|constructor| | |set_solver].
      * intros k [?|?]; [set_solver|multiset_solver].
      * intros k. rewrite multiplicity_empty. lia.
    + unfold sub_inv. simpl. rewrite lookup_empty. split_and!; set_solver.
  - apply step_refines in Hstep; [|by eapply reachable_one_pump].
    split; [by eapply view_wf_step|by eapply sub_inv_step].
Qed.

(** C18. A log subscriber that is attached and open has been sent, or has in its
    channel, its history and then the output fanned out since it was attached, in
    order and with each run of dropped payloads announced, with its size, in the
    message that follows it; what is not yet announced is counted, and what is
    not yet counted is about to be offered by the fan-out in progress. *)
Theorem logs_subscriber_stream vmName logDir logPath threshold mkdir dial open stat disk start tr m pool l sub tail fanned :
  newMuxWithThreshold vmName logDir logPath threshold mkdir dial open stat disk = Ok start →
  reachable start tr (m, pool) →
  logs (m_registry m) !! l = Some sub → ls_closed sub = false → since l tr = Some (tail, fanned) →
  ∃ groups rest,
    fanned = concat (map (λ g, g.1 ++ [g.2]) groups) ++ rest ++ pending_for l (omap fan_of pool) ∧
    received l tr ++ ls_ch sub = history_message tail ++ map announced groups ∧
    DroppedBytes sub = drop_total rest.
Proof.
  intros Hstart%newMux_started Hr Hl Ho Hs.
  destruct (reachable_sub_inv _ _ _ _ l Hstart Hr) as [_ Hinv]. unfold sub_inv in Hinv. rewrite Hs in Hinv.
  destruct Hinv as (_ & _ & Hlive). destruct (Hlive sub Hl Ho) as [_ _ -> (groups & rest & -> & -> & Hd)].
  exists groups, rest. by rewrite <-(assoc_L (++)).
Qed.
