(* ===== verification/SerialRuns.v ===== *)
(** * Runs of the serial multiplexer

    Schedules that are executed step by step: instances of the multiplexer's
    theorems, and three interleavings in which its promises fail: a follower that
    misses output, a rotation that discards the log, and a subscriber that is
    never told that the multiplexer was closed. *)

From Stdlib Require Import Strings.Byte.
From S2P Require Import Prelude SerialText SerialTextProps SerialMux SerialMuxProps SerialSubscribers.
From stdpp Require Import gmap gmultiset.
Import Sanitize Ring Tail Subscriber.
Local Open Scope Z_scope.

(** ** Schedules *)

(** The goroutine at an index takes a step, or a client makes a call. *)
Inductive action := Run (i : nat) (o : outcome) | Call (c : call).

Definition act (s : system) (a : action) : option (system * list event) :=
  let '(m, pool) := s in
  match a with
  | Run i o =>
    match drop i pool with
    | t :: post =>
      match thread_step (take i pool ++ post) m t o with
      | Some (m', ts, evs) => Some ((m', take i pool ++ ts ++ post), evs)
      | None => None
      end
    | [] => None
    end
  | Call c => match client_step m c with
              | Some (m', ts, evs) => Some ((m', pool ++ ts), evs)
              | None => None
              end
  end.

Fixpoint exec (s : system) (tr : list event) (acts : list action) : option (system * list event) :=
  match acts with
  | [] => Some (s, tr)
  | a :: acts => match act s a with Some (s', evs) => exec s' (tr ++ evs) acts | None => None end
  end.

Lemma act_step s a s' evs : act s a = Some (s', evs) → step s evs s'.
Proof.
  destruct s as [m pool], a as [i o|c]; simpl.
  - destruct (drop i pool) as [|t post] eqn:Ed; [done|]. destruct (thread_step _ m t o) as [[[m' ts] evs']|] eqn:Et; [|done].
    intros [= <- <-]. rewrite <-(take_drop i pool) at 1. rewrite Ed. by eapply step_thread.
  - destruct (client_step m c) as [[[m' ts] evs']|] eqn:Et; [|done]. intros [= <- <-]. by eapply step_client.
Qed.

Lemma exec_reachable start s tr acts s' tr' :
  reachable start tr s → exec s tr acts = Some (s', tr') → reachable start tr' s'.
Proof.
  revert s tr. induction acts as [|a acts IH]; intros s tr Hr; simpl; [by intros [= <- <-]|].
  destruct (act s a) as [[s1 evs]|] eqn:Ea; [|done]. apply IH. eapply reachable_step; [done|]. by apply act_step in Ea.
Qed.

(** A multiplexer over an empty log directory. *)
Definition first_system (threshold : Z) : system :=
  (MkMultiplexer threshold (MkLink (Some 1%nat) false false) (MkRegistry None [] false ∅ ∅)
     (NewRingBuffer ringBufferBytes) [] (MkLogState true 0 false false (Some []) None),
   [RotationWait; PumpLoad]).

Lemma first_start threshold :
  0 < threshold →
  newMuxWithThreshold "vm" "/logs" "/logs/serial.log" threshold None (Ok 1%nat) None None (None, None) =
    Ok (first_system threshold).
Proof.
  intros H. unfold newMuxWithThreshold. simpl. destruct (Z.leb_spec threshold 0); [lia|]. done.
Qed.

(** ** Instances *)

Definition text : slice := bytes_of "login: ".

Definition sub : loc := 0%nat.

(** A follower attaches, a console attaches, a chunk is read, logged and fanned
    out, and the client receives it. *)
Definition follow_schedule : list action :=
  [Call (SubscribeLogs sub (-1) true); Run 2 (OFile true); Run 2 (OFile true); Run 2 ONone; Call (SubscribeConsole sub);
   Run 1 ONone; Run 1 (ORead text false); Run 1 (OWrite None); Run 1 ONone; Run 1 ONone; Run 1 ONone; Run 1 ONone;
   Call (LogsReceive sub)].

Definition follow_run : system * list event :=
  match exec (first_system 1024) [] follow_schedule with Some x => x | None => (first_system 1024, []) end.

Lemma follow_run_reachable : reachable (first_system 1024) follow_run.2 (follow_run.1.1, follow_run.1.2).
Proof.
  unfold follow_run. destruct (exec _ _ _) as [[[m pool] tr]|] eqn:E; [|apply reachable_start].
  eapply exec_reachable; [apply reachable_start|done].
Qed.

Lemma serial_history_witness :
  Snapshot (m_ring follow_run.1.1) = text ∧ current (m_log follow_run.1.1) = Some text.
Proof.
  destruct (serial_history _ _ _ _ _ _ _ _ _ _ _ _ _ (first_start 1024 ltac:(lia)) follow_run_reachable) as [-> _].
  split; by vm_compute.
Defined.

Lemma one_live_console_witness :
  ∃ l s, consoles (m_registry follow_run.1.1) !! l = Some s ∧ cs_closed s = false ∧ l = sub.
Proof.
  assert (∃ s, consoles (m_registry follow_run.1.1) !! sub = Some s ∧ cs_closed s = false) as (s & Hs & Ho).
  { eexists. split; by vm_compute. }
  exists sub, s. split; [exact Hs|]. split; [exact Ho|].
  apply (one_live_console _ _ _ _ _ _ _ _ _ _ _ _ _ sub sub _ _ (first_start 1024 ltac:(lia)) follow_run_reachable Hs Ho Hs Ho).
Defined.

Lemma logs_subscriber_stream_witness :
  ∃ groups rest,
    [text] = concat (map (λ g, g.1 ++ [g.2]) groups) ++ rest ++ pending_for sub (omap fan_of follow_run.1.2) ∧
    [text] = history_message [] ++ map announced groups ∧ 0 = drop_total rest.
Proof.
  destruct (logs_subscriber_stream _ _ _ _ _ _ _ _ _ _ _ _ _ sub
    (MkLogsSubscriber [] 32 false true 0 true) [] [text] (first_start 1024 ltac:(lia)) follow_run_reachable)
    as (groups & rest & H1 & H2 & H3); [by vm_compute..|]. exists groups, rest.
  split_and!; [exact H1| |exact H3]. rewrite <-H2. by vm_compute.
Defined.

(** ** Output that a follower misses *)

Lemma pump_read_clean m chunk eof :
  clean chunk → chunk ≠ [] → m_sanitizer m = [] →
  pump_read m chunk eof = (set_output (Write (m_ring m) chunk) [] m, [PumpDisk chunk eof], [Chunk chunk; Emitted chunk]).
Proof.
  intros Hc Hne Hs. unfold pump_read. rewrite Hs, Process_eq. cbn [app]. rewrite (sanitize_of_clean _ Hc).
  by destruct chunk.
Qed.

Lemma thread_read_clean others m c chunk :
  clean chunk → chunk ≠ [] → (length chunk ≤ pumpBufferSize)%nat → m_sanitizer m = [] →
  thread_step others m (PumpRead c) (ORead chunk false) =
    Some (set_output (Write (m_ring m) chunk) [] m, [PumpDisk chunk false], [Chunk chunk; Emitted chunk]).
Proof.
  intros Hc Hne Hlen Hs. unfold thread_step, pump_step. rewrite (proj2 (Nat.leb_le _ _) Hlen).
  by rewrite pump_read_clean.
Qed.

(** A read of clean output is logged and fanned out when nobody is attached; the
    goroutine at index 0 is any other one. *)
Definition read_schedule (chunk : slice) : list action :=
  [Run 1 ONone; Run 1 (ORead chunk false); Run 1 (OWrite None); Run 1 ONone; Run 1 ONone].

Lemma exec_app s tr acts acts' :
  exec s tr (acts ++ acts') = match exec s tr acts with Some (s', tr') => exec s' tr' acts' | None => None end.
Proof.
  revert s tr. induction acts as [|a acts IH]; intros s tr; simpl; [done|].
  by destruct (act s a) as [[s' evs]|].
Qed.

Definition idle_mux (threshold : Z) (ls : gmap loc LogsSubscriber) (ring : RingBuffer) (l : log_state) : Multiplexer :=
  MkMultiplexer threshold (MkLink (Some 1%nat) false false) (MkRegistry None [] false ∅ ls) ring [] l.

Lemma exec_read threshold ls ring bw ch cur rot t0 pool tr chunk :
  clean chunk → chunk ≠ [] → (length chunk ≤ pumpBufferSize)%nat →
  exec (idle_mux threshold ls ring (MkLogState true bw ch false (Some cur) rot), t0 :: PumpLoad :: pool) tr
    (read_schedule chunk) =
  Some ((idle_mux threshold ls (Write ring chunk)
           (MkLogState true (bw + Z.of_nat (length chunk))
              (if threshold <=? bw + Z.of_nat (length chunk) then true else ch) false (Some (cur ++ chunk)) rot),
         t0 :: PumpLoad :: pool),
        tr ++ [Chunk chunk; Emitted chunk; Logged chunk; FanOut chunk]).
Proof.
  intros Hc Hne Hlen. unfold read_schedule, idle_mux. cbn [exec act drop take]. simpl.
  rewrite thread_read_clean by done. simpl. by rewrite app_nil_r, <-!(assoc_L (++)).
Qed.

(** A client follows the whole log.  The history stream reads the files, a chunk
    is read, logged and fanned out, and then the subscriber is attached: it is
    ready and open, nothing is counted as dropped, and the chunk, which is in the
    log, is neither in its history nor ever sent to it. *)
Theorem follower_misses_output chunk :
  clean chunk → chunk ≠ [] → (length chunk ≤ pumpBufferSize)%nat →
  ∃ tr m pool s,
    reachable (first_system rotationThresholdBytes) tr (m, pool) ∧ pool = [RotationWait; PumpLoad] ∧
    logs (m_registry m) !! sub = Some s ∧ ls_ready s = true ∧ ls_closed s = false ∧
    since sub tr = Some ([], []) ∧ ls_ch s = [] ∧ received sub tr = [] ∧ DroppedBytes s = 0 ∧
    current (m_log m) = Some chunk.
Proof.
  intros Hc Hne Hlen. set (start := first_system rotationThresholdBytes).
  set (new := newLogsSubscriber true defaultSubscriberCapacity).
  assert (reachable start [] (idle_mux rotationThresholdBytes {[sub := new]} (NewRingBuffer ringBufferBytes)
    (MkLogState true 0 false false (Some []) None), [RotationWait; PumpLoad; HistoryAttach sub []])) as H1.
  { apply (exec_reachable _ _ _ [Call (SubscribeLogs sub (-1) true); Run 2 (OFile true); Run 2 (OFile true)] _ _
      (reachable_start start)). by vm_compute. }
  pose proof (exec_read rotationThresholdBytes {[sub := new]} (NewRingBuffer ringBufferBytes) 0 false [] None RotationWait [HistoryAttach sub []] [] chunk Hc Hne Hlen) as H2.
  apply (exec_reachable _ _ _ _ _ _ H1) in H2.
  eapply (exec_reachable _ _ _ [Run 2 ONone]) in H2; [|by vm_compute].
  eexists _, _, _, (markReady new). split; [exact H2|]. by vm_compute.
Qed.

Lemma clean_text_line : clean (bytes_of "ok").
Proof. repeat (apply clean_text; [right; by vm_compute|]). constructor. Qed.

Lemma follower_misses_output_witness :
  ∃ tr m pool s,
    reachable (first_system rotationThresholdBytes) tr (m, pool) ∧ pool = [RotationWait; PumpLoad] ∧
    logs (m_registry m) !! sub = Some s ∧ ls_ready s = true ∧ ls_closed s = false ∧
    since sub tr = Some ([], []) ∧ ls_ch s = [] ∧ received sub tr = [] ∧ DroppedBytes s = 0 ∧
    current (m_log m) = Some (bytes_of "ok").
Proof. apply (follower_misses_output (bytes_of "ok")); [apply clean_text_line|done|vm_compute; lia]. Defined.

(** ** A rotation that discards the log *)

(** The log has reached its threshold and the rotation loop has taken the signal;
    before it gets the lock, the pump logs another chunk and signals again.  The
    rotation moves both chunks to the rotated file, and the second signal then
    replaces that file by the empty one: nothing of the log is left, although no
    write failed. *)
Theorem second_rotation_discards_log threshold chunk1 chunk2 :
  clean chunk1 → clean chunk2 → chunk1 ≠ [] → chunk2 ≠ [] →
  (length chunk1 ≤ pumpBufferSize)%nat → (length chunk2 ≤ pumpBufferSize)%nat →
  0 < threshold ≤ Z.of_nat (length chunk1) →
  ∃ tr m pool,
    reachable (first_system threshold) tr (m, pool) ∧ pool = [RotationWait; PumpLoad] ∧
    not_logged tr = [] ∧ concat (logged tr) = chunk1 ++ chunk2 ∧
    current (m_log m) = Some [] ∧ rotated (m_log m) = Some [].
Proof.
  intros Hc1 Hc2 Hn1 Hn2 Hl1 Hl2 Ht. set (start := first_system threshold).
  pose proof (exec_read threshold ∅ (NewRingBuffer ringBufferBytes) 0 false [] None RotationWait [] [] chunk1 Hc1 Hn1 Hl1) as H1.
  apply (exec_reachable start _ _ _ _ _ (reachable_start start)) in H1.
  rewrite (proj2 (Z.leb_le threshold (0 + Z.of_nat (length chunk1)))) in H1 by lia.
  eapply (exec_reachable _ _ _ [Run 0 OSignal]) in H1; [|simpl; reflexivity].
  pose proof (exec_read threshold ∅ (Write (NewRingBuffer ringBufferBytes) chunk1) (0 + Z.of_nat (length chunk1)) false ([] ++ chunk1)
    None RotationRun [] ([] ++ [Chunk chunk1; Emitted chunk1; Logged chunk1; FanOut chunk1]) chunk2 Hc2 Hn2 Hl2) as H2.
  eapply (exec_reachable _ _ _ _ _ _ H1) in H2.
  rewrite (proj2 (Z.leb_le threshold (0 + Z.of_nat (length chunk1) + Z.of_nat (length chunk2)))) in H2 by lia.
  eapply (exec_reachable _ _ _ [Run 0 (OFile true); Run 0 (OFile true); Run 0 OSignal; Run 0 (OFile true); Run 0 (OFile true)]) in H2;
    [|simpl; reflexivity].
  eexists _, _, _. split; [exact H2|]. simpl. by rewrite !app_nil_r.
Qed.

Lemma second_rotation_discards_log_witness :
  ∃ tr m pool,
    reachable (first_system 2) tr (m, pool) ∧ pool = [RotationWait; PumpLoad] ∧
    not_logged tr = [] ∧ concat (logged tr) = bytes_of "ok" ++ bytes_of "ok" ∧
    current (m_log m) = Some [] ∧ rotated (m_log m) = Some [].
Proof.
  apply (second_rotation_discards_log 2 (bytes_of "ok") (bytes_of "ok"));
    [apply clean_text_line|apply clean_text_line|done|done|vm_compute; lia|vm_compute; lia|vm_compute; done].
Defined.

(** ** A subscriber after the close *)

(** [Close] has returned and no goroutine is left; a client that follows the log
    after that is attached all the same, and nothing will ever close it. *)
Lemma late_follower_never_done :
  ∃ tr m s,
    reachable (first_system rotationThresholdBytes) tr (m, []) ∧ Returned None ∈ tr ∧ closed (m_link m) = true ∧
    logs (m_registry m) !! sub = Some s ∧ ls_ready s = true ∧ ls_closed s = false.
Proof.
  set (start := first_system rotationThresholdBytes).
  eassert (reachable start _ (_, [])) as Hr.
  { eapply (exec_reachable _ _ _
      [Call Close; Run 2 ONone; Run 1 ONone; Run 1 ONone; Run 0 ODone; Run 0 ONone; Run 0 ONone; Run 0 ONone;
       Call (SubscribeLogs sub 0 true); Run 0 (OFile true); Run 0 ONone] _ _ (reachable_start start)).
    vm_compute. reflexivity. }
  eexists _, _, _. split; [exact Hr|]. split; [by left|]. by vm_compute.
Qed.
